(* ===== verification/_CoqProject ===== *)
-Q . S2P
Prelude.v
StdSet.v
Mutex.v
Thread.v
Timer.v
FdManager.v
IOManager.v
StringUtil.v
JsonUtil.v
Text.v
FsUtil.v
Stream.v
Float.v
SpeedLimit.v
SharedArray.v
Fiber.v
Util.v
Scheduler.v
Contexts.v
Tasks.v
Pool.v
Reactor.v
ByteOrder.v
Address.v
Hook.v
HookRun.v
Waiting.v
Socket.v
LogFormat.v
Logger.v
Config.v
HookInit.v
Convert.v
Protobuf.v
LogConf.v
LogYaml.v
Env.v
