(* ===== verification/Prelude.v ===== *)
(** * Verification of the sylar server framework (src/sylar)

    sylar is a C++ framework for network servers: fibers that an N:M scheduler
    runs on threads, an epoll event manager and timers that wake them, hooked
    system calls that suspend the calling fiber instead of its thread, sockets
    over those calls, and the logging and configuration a server needs.  This
    library models the code under src/sylar and proves what makes it correct;
    where the code does something else, the theorem states what it does.

    ** The program's parts and the files that model them

    - Prelude: outcomes of a call, byte strings, machine integers, list lemmas.
    - StdSet: [std::set] over a comparator, as the sorted list of its elements.
    - Mutex: the scoped locks of mutex.h, the spin lock on an atomic flag, the
      semaphore (mutex.cpp).  Threads that use one lock are a step function.
    - Thread: thread.cpp; the constructor's hand-shake with the new thread, as a
      step relation on an object its owner may destroy.
    - Timer: timer.cpp; timer objects in a store, the manager's ordered set.
    - FdManager: fd_manager.cpp; descriptor contexts shared by their users.
    - IOManager: iomanager.cpp; event contexts, epoll's interest list, the
      timeout and the loop body of [idle]; it is a timer manager too.
    - Fiber: fiber.cpp; objects, states and context switches, as one thread sees
      them.
    - Scheduler: scheduler.cpp; the queue, and the run loop of any number of
      threads as a step relation over the states of all fibers.  Contexts: the same
      loop on the fiber objects, with the thread-local variables and the processor
      of every thread and each [swapcontext].  Tasks: what
      becomes of every entry of its queue, and [stop] when the calling thread has
      to work the queue off itself.  Pool: [start] and [stop] with any number of
      threads at work, up to the joins.
    - Reactor: Scheduler, Timer and IOManager at work together, each thread's
      [idle] (iomanager.cpp) cut into the pieces between which others intervene.
    - Hook: hook.cpp; [do_io], [connect_with_timeout], the sleeps and the calls
      on descriptors, over Timer, FdManager and IOManager.  A call is a process
      with one definition from each point where it suspends to the next.
      HookRun: such a call run to its end, by a script of what it meets.
      Waiting: what the other components do while such a call is suspended.
      HookInit: how the hooks are set up, with Config, whose variable holds the
      timeout of [connect].
    - ByteOrder, Address: byte_sequence.h and address.cpp.
    - Socket: socket.cpp, [Socket] and [SSLSocket], over HookRun and Address.
    - LogFormat: levels, events and the pattern parser of log.cpp; Logger: loggers,
      appenders, their manager and the listener on the variable "logs"; LogConf
      and LogYaml: log definitions and loggers as YAML.
    - Config: config.h and config.cpp, the casts of containers, variables,
      listeners, loading of documents; Env: env.cpp and [LoadFromConfDir].
    - Convert: YAML to JSON and back; Protobuf: a message as JSON, over what
      reflection tells of it (util.cpp).
    - StringUtil, Text, JsonUtil, FsUtil, Stream: the helpers of util.h, util.cpp and
      util/json_util.cpp.  Float: IEEE 754 arithmetic and the error of its
      rounding; SpeedLimit: the limiter of copies and the copies that use it;
      SharedArray: the template, over the counts of [shared_ptr].
    - Util: backtraces, the clock and dates (util.cpp).

    ** How state and operations correspond

    A class is the Record of its fields under their names, a method a Definition
    of its name that takes the state and returns the new one.  Objects behind a
    [shared_ptr] that several parties hold live in a store by address; the address
    [new] yields is an argument.  What a method learns from outside - the clock,
    the result of a system call, what a library answers - is an argument as well,
    or an operation of a class ([Yaml], [JsonValue], [Containers], [Reflection],
    [Libc], [NetLibc], [OpenSSL], [Lockable]); their laws are separate classes that state
    documented behaviour, and each has an instance, on which the witnesses run.
    A failed [SYLAR_ASSERT], an exception and undefined behaviour are outcomes
    ([Assert_fail], [Throw], [Undefined]), so that a theorem that a call returns
    excludes all three.  A method under a lock is one critical section; where one
    takes its lock twice, the two halves are definitions of their own and other
    calls can come between.  In Reactor one [addEvent] is a step, and so is all
    that one report does under the lock of its context; writing to the tickle
    pipe changes nothing but the report that a later [epoll_wait] may answer,
    which is an argument of the step.  Integers are [Z] with their conversions ([u32], [i32],
    [u64], [i64]) written out where the code converts.

    ** What the theorems show

    - Refinement: the timer manager, the event manager and the descriptor manager
      implement a map of pending timers ([timer_manager_refines]), of waiting
      fibers and callbacks ([iomanager_refines]) and of contexts
      ([fdmanager_is_map]), whatever sequence of their operations runs; the run loop
      that knows only the fibers' states is implemented by the one that switches
      contexts, where no two threads are ever on one stack ([contexts_refine]).
    - Invariants and safety: no fiber runs on two threads or is lost by the
      scheduler ([scheduler_safe]), nor when events and timers wake them
      ([reactor_safe]); what is scheduled is taken once, by a thread it is meant
      for ([tasks_once]); the fibers of a thread nest ([fiber_lifecycle]);
      a socket owns exactly one descriptor and gives it back, through the hooked
      calls themselves ([socket_owns_descriptor]); scoped locks exclude each other
      ([scoped_lock_exclusion], [rw_lock_exclusion]); a shared array lives as long
      as its holders ([shared_array_safe]); the loggers always show the
      configuration ([logger_configuration]).
    - Liveness and termination: a report of the kernel wakes the fiber that waits
      for it ([report_wakes]); [stop] works the queue off and returns,
      alone ([stop_drains]) and with any number of threads under a fair schedule
      ([pool_stop_returns]), if the callbacks end and do not schedule one another
      for ever; a fiber in a hooked call still waits or was handed to the
      scheduler, at the latest by its timer ([wait_not_forgotten]); the call comes back with the data or with
      its timeout ([do_io_outcome]); a thread's constructor returns
      ([thread_handshake]); every loop that is not structural has enough fuel.
    - Round trips: URL coding, log patterns, log definitions, container casts, the
      loggers' own dump ([manager_dump_reads_back]), YAML through JSON, timeouts; a message
      as JSON has every field under its name ([message_to_json]).
    - Equivalence: the pieces of [idle], undisturbed, are its whole turn
      ([idle_pieces_round]); reading in pieces, through the limiter or not, is
      reading ([read_fix_equivalent]).
    - Function, types and bounds: what the getters of JSON answer
      ([json_getters]), which variables a document sets and in which order,
      address prefixes and order, directory listing and creation, escaping,
      the rate of a limited copy in each second ([speed_limit_rate]), the deadline
      of a sleep, the wait of the event loop.
    - Errors: what a listener that throws leaves of a new timeout and a hooked
      function without an original ([connect_timeout_follows]); the error exits of
      the other components are part of their theorems.
    - Where the code departs from its evident purpose, a theorem shows how:
      stale events ([idle_event_stale_report]), lost events
      ([stale_resize_loses_event]), a timer of an earlier attempt
      ([do_io_stale_timeout]), a scheduler that stops too early
      ([stopping_misses_ready]), a yield that shows READY too early
      ([early_wakeup_shares_stack]), descriptors that leak ([accept_owns_or_leaks]),
      a [stop] that never returns ([stop_can_hang], [stop_endless_callback]), locks
      whose failure is not seen ([rw_ignored_error]), a limit too slow for its
      arithmetic ([slow_read_overflows]), a date too long for its buffer
      ([long_date_undefined]).

    ** Bounds and fuel

    Fuel stands only for loops whose measure is not structural: the pattern parser
    (the pattern's length and one, a turn takes a character), the binary search
    (the array's length and one, [BinarySearch_terminates]), the chain of parent
    loggers (two, the root's parent is null), the bits and digits of a number (its
    width), and the reading and writing of streams (a turn moves a byte or is the
    last).  The theorems state results with that fuel, so it is enough; for
    the run loop under [stop] there is no fixed fuel, and [stop_drains] says that
    any fuel from some point on gives the one result.  With several threads a
    schedule is fair for as many rounds as in each of them every thread moves;
    [pool_stop_returns] says how many rounds are enough, by the size of what was
    scheduled and the number of threads.  The
    concrete runs of the witnesses are the only bounded exploration.

    ** Not modelled, and why

    Third-party code under src/deps and the test programs under src/tests. The
    bodies of system and library calls, printf-style formatting among them; the
    mapping of stack
    memory of fibers; [FiberSemaphore], which is declared only, and [Slice], which
    does not compile; the singleton,
    non-copyable and assertion headers, which declare no behaviour of their own.
    Memory ordering: every atomic access is sequentially consistent. *)
From Stdlib Require Export Ascii ZArith Lia.
From Stdlib Require Import Sorted.
From stdpp Require Export prelude gmap strings list fin_maps pretty.

#[global] Open Scope Z_scope.

(** ** Strings

    A [std::string] is a sequence of bytes; every algorithm of the sources
    indexes into it or walks it, so it is a list of [ascii]. *)
Abbreviation str := (list ascii).

(** A literal of the source, as a byte list. *)
Notation "$ s" := (String.list_ascii_of_string s%string)
  (at level 1, s at level 0, only parsing).

(** ** Outcomes of a call

    [Assert_fail] is a [SYLAR_ASSERT] that fires, [Throw] a C++ exception with
    its message, [Undefined] behaviour the C++ standard leaves undefined. *)
Inductive outcome (A : Type) : Type :=
  | Ret (a : A)
  | Assert_fail
  | Throw (what : str)
  | Undefined.
Arguments Ret {A} a.
Arguments Assert_fail {A}.
Arguments Throw {A} what.
Arguments Undefined {A}.

#[export] Instance outcome_ret : MRet outcome := λ A a, Ret a.
#[export] Instance outcome_bind : MBind outcome := λ A B f m,
  match m with
  | Ret a => f a
  | Assert_fail => Assert_fail
  | Throw w => Throw w
  | Undefined => Undefined
  end.
#[export] Instance outcome_fmap : FMap outcome := λ A B f m,
  match m with
  | Ret a => Ret (f a)
  | Assert_fail => Assert_fail
  | Throw w => Throw w
  | Undefined => Undefined
  end.

(** [SYLAR_ASSERT(x)]. *)
Definition sylar_assert (b : bool) : outcome unit :=
  if b then Ret () else Assert_fail.

(** A call that comes back with a value. *)
Definition returns {A} (m : outcome A) : Prop := ∃ a, m = Ret a.

Lemma bind_Ret {A B} (f : A → outcome B) (m : outcome A) (b : B) :
  m ≫= f = Ret b ↔ ∃ a, m = Ret a ∧ f a = Ret b.
Proof. destruct m; cbn; naive_solver. Qed.

Lemma sylar_assert_Ret (b : bool) (u : unit) : sylar_assert b = Ret u ↔ b = true.
Proof. destruct b, u; cbn; naive_solver. Qed.

(** [!ptr]: a shared pointer, raw pointer or [std::function] that holds nothing. *)
Definition null {A} (o : option A) : bool := match o with None => true | Some _ => false end.

Lemma null_true {A} (o : option A) : null o = true ↔ o = None.
Proof. by destruct o. Qed.

(** ** Machine integers

    An integer of width [w] is the [Z] it denotes; a conversion to an unsigned
    type reduces modulo [2^w], to a signed one it picks the representative in
    [-2^(w-1), 2^(w-1)). *)
Definition u8 (z : Z) : Z := z mod 2 ^ 8.
Definition u16 (z : Z) : Z := z mod 2 ^ 16.
Definition u32 (z : Z) : Z := z mod 2 ^ 32.
Definition u64 (z : Z) : Z := z mod 2 ^ 64.
Definition i8 (z : Z) : Z := (z + 2 ^ 7) mod 2 ^ 8 - 2 ^ 7.
Definition i32 (z : Z) : Z := (z + 2 ^ 31) mod 2 ^ 32 - 2 ^ 31.
Definition i64 (z : Z) : Z := (z + 2 ^ 63) mod 2 ^ 64 - 2 ^ 63.

(** [~0ull], also [(uint64_t)-1]. *)
Definition u64_max : Z := 2 ^ 64 - 1.

(** Expands the widths and the conversions, then decides linear goals: every
    range fact of the development is proved by it. *)
Ltac solve_int :=
  unfold u8, u16, u32, u64, i8, i32, i64, u64_max in *;
  change (2 ^ 7) with 128 in *; change (2 ^ 8) with 256 in *;
  change (2 ^ 16) with 65536 in *;
  change (2 ^ 31) with 2147483648 in *; change (2 ^ 32) with 4294967296 in *;
  change (2 ^ 63) with 9223372036854775808 in *;
  change (2 ^ 64) with 18446744073709551616 in *;
  first [ lia | Z.div_mod_to_equations; lia ].

Lemma u8_range z : 0 ≤ u8 z < 2 ^ 8.
Proof. solve_int. Qed.
Lemma u16_range z : 0 ≤ u16 z < 2 ^ 16.
Proof. solve_int. Qed.
Lemma u32_range z : 0 ≤ u32 z < 2 ^ 32.
Proof. solve_int. Qed.
Lemma u64_range z : 0 ≤ u64 z < 2 ^ 64.
Proof. solve_int. Qed.
Lemma u32_small z : 0 ≤ z < 2 ^ 32 → u32 z = z.
Proof. intros; by apply Z.mod_small. Qed.
Lemma u64_small z : 0 ≤ z < 2 ^ 64 → u64 z = z.
Proof. intros; by apply Z.mod_small. Qed.
Lemma i32_small z : -2 ^ 31 ≤ z < 2 ^ 31 → i32 z = z.
Proof. solve_int. Qed.
Lemma i64_small z : -2 ^ 63 ≤ z < 2 ^ 63 → i64 z = z.
Proof. solve_int. Qed.

Create HintDb sylar discriminated.
#[export] Hint Resolve u8_range u16_range u32_range u64_range : sylar.
Create Rewrite HintDb machine_int.
#[export] Hint Rewrite u32_small u64_small i32_small i64_small using solve_int : machine_int.

(** ** Tactics *)

(** Splits conjunctions, existentials, pairs and the [outcome] binds of the
    hypotheses, then substitutes. *)
Ltac inv_ret :=
  repeat match goal with
  | H : _ ∧ _ |- _ => destruct H
  | H : ∃ _, _ |- _ => destruct H
  | H : mbind _ _ = Ret _ |- _ => apply bind_Ret in H
  | H : sylar_assert _ = Ret _ |- _ => apply sylar_assert_Ret in H
  | H : Ret _ = Ret _ |- _ => injection H as H
  | H : Assert_fail = Ret _ |- _ => discriminate H
  | H : Throw _ = Ret _ |- _ => discriminate H
  | H : Undefined = Ret _ |- _ => discriminate H
  | H : (_, _) = (_, _) |- _ => injection H as H
  end; subst.

(** Case analysis on the next [if] or [match] of the goal, remembering it. *)
Ltac case_step :=
  match goal with
  | |- context [if ?b then _ else _] => destruct b eqn:?
  | |- context [match ?x with _ => _ end] => destruct x eqn:?
  end.
Ltac case_step_in H :=
  match type of H with
  | context [if ?b then _ else _] => destruct b eqn:?
  | context [match ?x with _ => _ end] => destruct x eqn:?
  end.

(** ** Lists *)

(** The longest prefix of which every element passes the test, and the rest:
    the loops of the sources that advance an iterator. *)
Fixpoint take_while {A} (f : A → bool) (l : list A) : list A :=
  match l with
  | [] => []
  | x :: l' => if f x then x :: take_while f l' else []
  end.
Fixpoint drop_while {A} (f : A → bool) (l : list A) : list A :=
  match l with
  | [] => []
  | x :: l' => if f x then drop_while f l' else l
  end.

Lemma take_drop_while {A} (f : A → bool) l : take_while f l ++ drop_while f l = l.
Proof. induction l as [|x l IH]; cbn; [done|]. destruct (f x); cbn; by rewrite ?IH. Qed.

Lemma take_while_Forall {A} (f : A → bool) l : Forall (λ x, f x = true) (take_while f l).
Proof. induction l as [|x l IH]; cbn; [done|]. destruct (f x) eqn:?; by constructor. Qed.

Lemma drop_while_head {A} (f : A → bool) l x l' : drop_while f l = x :: l' → f x = false.
Proof. induction l as [|y l IH]; cbn; [done|]. destruct (f y) eqn:?; [done|naive_solver]. Qed.

Lemma list_filter_all {A} (P : A → Prop) `{∀ x, Decision (P x)} l :
  Forall P l → filter P l = l.
Proof. induction 1; [done|]. rewrite filter_cons, decide_True by done. by f_equal. Qed.

Lemma list_filter_none {A} (P : A → Prop) `{∀ x, Decision (P x)} l :
  Forall (λ x, ¬ P x) l → filter P l = [].
Proof. induction 1; [done|]. by rewrite filter_cons, decide_False by done. Qed.

Lemma list_filter_ext_elem {A} (P Q : A → Prop) `{∀ x, Decision (P x), ∀ x, Decision (Q x)} (l : list A) :
  (∀ x, x ∈ l → P x ↔ Q x) → filter P l = filter Q l.
Proof.
  induction l as [|x l IH]; intros Hl; [done|]. rewrite !filter_cons.
  rewrite (IH (λ y Hy, Hl y (list_elem_of_further _ _ _ Hy))).
  destruct (decide (P x)) as [Hp|Hp], (decide (Q x)) as [Hq|Hq]; try done; exfalso;
    specialize (Hl x (list_elem_of_here _ _)); tauto.
Qed.
