(* ===== verification/StdSet.v ===== *)
(** * Ordered containers: std::set over a comparator

    A [std::set<T, Cmp>] is the list of its elements in iteration order; the
    tree searches of the library are the searches below on that list.  Used for
    the timers of timer.cpp, whose comparator reads the timer objects, for the
    [std::set] casts of config.h, and for the map of loggers of log.h. *)
From S2P Require Import Prelude.
From Stdlib Require Import Sorted.

Section StdSet.
Context {A : Type} (lt : A → A → bool).

(** [set.lower_bound(x)]: the elements from the first that is not less than [x]. *)
Definition lower_bound (x : A) (l : list A) : list A := drop_while (λ y, lt y x) l.

(** The elements before [set.lower_bound(x)]. *)
Definition before_bound (x : A) (l : list A) : list A := take_while (λ y, lt y x) l.

(** [set.find(x)]: the element equivalent to [x], if there is one. *)
Definition set_find (x : A) (l : list A) : option A :=
  match lower_bound x l with
  | y :: _ => if lt x y then None else Some y
  | [] => None
  end.

(** [set.insert(x)]: the set afterwards and the element the returned
    iterator points to. *)
Definition set_insert (x : A) (l : list A) : list A * A :=
  match lower_bound x l with
  | y :: _ => if lt x y then (before_bound x l ++ x :: lower_bound x l, x) else (l, y)
  | [] => (before_bound x l ++ [x], x)
  end.

(** [set.erase(set.find(x))], [None] when [find] returns [end()]. *)
Definition set_erase_found (x : A) (l : list A) : option (list A) :=
  match lower_bound x l with
  | y :: r => if lt x y then None else Some (before_bound x l ++ r)
  | [] => None
  end.

Notation "x << y" := (lt x y = true) (at level 70).
Definition sorted (l : list A) : Prop := StronglySorted (λ x y, x << y) l.
End StdSet.

(** A sorted list stays sorted under a comparator that agrees on its elements. *)
Lemma sorted_ext {A} (lt lt' : A → A → bool) (l : list A) :
  (∀ x y, x ∈ l → y ∈ l → lt x y = true → lt' x y = true) → sorted lt l → sorted lt' l.
Proof.
  induction l as [|x l IH]; intros Hext Hs; [constructor|].
  apply StronglySorted_inv in Hs as [Hs Hf]. constructor; [apply IH; set_solver|].
  rewrite Forall_forall in Hf |- *. set_solver.
Qed.

(** A comparator is a strict weak order; on the sets of this development it is
    moreover total on distinct elements. *)
Class StrictTotal {A} (P : A → Prop) (lt : A → A → bool) : Prop := {
  lt_irrefl : ∀ x, lt x x = false;
  lt_trans : ∀ x y z, lt x y = true → lt y z = true → lt x z = true;
  lt_total : ∀ x y, P x → P y → lt x y = false → lt y x = false → x = y }.

Section Laws.
Context {A : Type} {P : A → Prop} {lt : A → A → bool} `{!StrictTotal P lt}.
Implicit Types (x y : A) (l : list A).

Let irr : ∀ x, lt x x = false := lt_irrefl.
Let trans : ∀ x y z, lt x y = true → lt y z = true → lt x z = true := lt_trans.
Let total : ∀ x y, P x → P y → lt x y = false → lt y x = false → x = y := lt_total.

Lemma lt_asym x y : lt x y = true → lt y x = false.
Proof.
  intros H. destruct (lt y x) eqn:E; [|done].
  by rewrite <-(irr x), (trans x y x).
Qed.

Lemma bound_split x l : before_bound lt x l ++ lower_bound lt x l = l.
Proof. apply take_drop_while. Qed.

Lemma before_bound_lt x l : Forall (λ y, lt y x = true) (before_bound lt x l).
Proof. apply take_while_Forall. Qed.

Lemma sorted_app l1 l2 : sorted lt (l1 ++ l2) ↔
  sorted lt l1 ∧ sorted lt l2 ∧ ∀ x y, x ∈ l1 → y ∈ l2 → lt x y = true.
Proof.
  unfold sorted. induction l1 as [|z l1 IH]; cbn.
  { split; [intros; repeat split; [constructor|done|set_solver] | tauto]. }
  split.
  - intros [H1 H2]%StronglySorted_inv. apply IH in H1 as (?&?&?).
    rewrite Forall_app in H2. destruct H2 as [H2 H3]. rewrite !Forall_forall in H2, H3.
    repeat split; [constructor; [done|by apply Forall_forall]|done|].
    intros x y [->|Hx]%elem_of_cons Hy; auto.
  - intros ([H1 H2]%StronglySorted_inv & H3 & H4). constructor.
    + apply IH. split; [exact H1|]. split; [exact H3|]. set_solver.
    + apply Forall_app. split; [done|]. apply Forall_forall. set_solver.
Qed.

Lemma sorted_NoDup l : sorted lt l → NoDup l.
Proof.
  induction 1 as [|x l Hs IH Hf]; constructor; [|done].
  intros Hin. rewrite Forall_forall in Hf. specialize (Hf _ Hin).
  by rewrite irr in Hf.
Qed.

(** Every element from the bound on is not less than [x]. *)
Lemma lower_bound_ge x l y : sorted lt l → y ∈ lower_bound lt x l → lt y x = false.
Proof.
  intros Hs Hin. destruct (lower_bound lt x l) as [|z r] eqn:E; [set_solver|].
  assert (Hz : lt z x = false) by (unfold lower_bound in E; by apply drop_while_head in E).
  rewrite <-(bound_split x l) in Hs. apply sorted_app in Hs as (_&Hs&_).
  rewrite E in Hs. apply StronglySorted_inv in Hs as [_ Hf].
  rewrite Forall_forall in Hf.
  apply elem_of_cons in Hin as [->|Hin]; [done|]. specialize (Hf _ Hin).
  destruct (lt y x) eqn:Hyx; [|done].
  by rewrite (trans z y x) in Hz.
Qed.

Lemma elem_of_bound x l y :
  sorted lt l → y ∈ lower_bound lt x l ↔ y ∈ l ∧ lt y x = false.
Proof.
  intros Hs. split.
  - intros Hin. split; [|by eapply lower_bound_ge].
    rewrite <-(bound_split x l). set_solver.
  - intros [Hin Hlt]. rewrite <-(bound_split x l), elem_of_app in Hin.
    destruct Hin as [Hin|]; [|done].
    pose proof (before_bound_lt x l) as Hf. rewrite Forall_forall in Hf.
    by rewrite (Hf _ Hin) in Hlt.
Qed.

(** The bound of an element of the set starts with that element. *)
Lemma lower_bound_present x l :
  sorted lt l → Forall P l → x ∈ l →
  ∃ r, lower_bound lt x l = x :: r ∧ l = before_bound lt x l ++ x :: r.
Proof.
  intros Hs HP Hin.
  assert (Hb : x ∈ lower_bound lt x l)
    by (apply elem_of_bound; [done|]; split; [done|apply irr]).
  pose proof (bound_split x l) as Hl.
  destruct (lower_bound lt x l) as [|z r] eqn:E; [set_solver|].
  assert (z = x) as ->; [|by exists r].
  apply elem_of_cons in Hb as [->|Hb]; [done|].
  assert (lt z x = true).
  { rewrite <-Hl in Hs. apply sorted_app in Hs as (_&Hs&_).
    apply StronglySorted_inv in Hs as [_ Hf]. rewrite Forall_forall in Hf. auto. }
  assert (lt z x = false) by (apply (lower_bound_ge x l); [done|rewrite E; set_solver]).
  congruence.
Qed.

Lemma set_erase_found_present x l :
  sorted lt l → Forall P l → x ∈ l →
  ∃ l', set_erase_found lt x l = Some l' ∧ sorted lt l' ∧
        ∀ y, y ∈ l' ↔ y ∈ l ∧ y ≠ x.
Proof.
  intros Hs HP Hin. destruct (lower_bound_present x l) as (r&Hr&Hl); [done..|].
  unfold set_erase_found. rewrite Hr, irr. eexists; split; [done|].
  pose proof (sorted_NoDup _ Hs) as Hnd.
  clear Hr Hin HP. revert Hl. generalize (before_bound lt x l). intros l1 ->.
  apply sorted_app in Hs as (H1&[H2 _]%StronglySorted_inv&H3).
  apply NoDup_app in Hnd as (_&Hd&[Hx _]%NoDup_cons).
  split.
  { apply sorted_app. split; [exact H1|]. split; [exact H2|].
    intros a b Ha Hb. apply H3; set_solver. }
  intros y. rewrite !elem_of_app, elem_of_cons. split.
  - intros [Hy|Hy]; (split; [tauto|]); intros ->; [|done].
    apply (Hd x Hy). set_solver.
  - intros [[Hy|[->|Hy]] ?]; tauto.
Qed.

Lemma set_find_present x l :
  sorted lt l → Forall P l → x ∈ l → set_find lt x l = Some x.
Proof.
  intros Hs HP Hin. destruct (lower_bound_present x l) as (r&Hr&_); [done..|].
  unfold set_find. by rewrite Hr, irr.
Qed.

(** Inserting a new element puts it at its place and returns it. *)
Lemma set_insert_fresh x l :
  sorted lt l → Forall P l → P x → x ∉ l →
  ∃ l', set_insert lt x l = (l', x) ∧ sorted lt l' ∧ ∀ y, y ∈ l' ↔ y = x ∨ y ∈ l.
Proof.
  intros Hs HP Px Hnin. exists (before_bound lt x l ++ x :: lower_bound lt x l).
  pose proof (bound_split x l) as Hl.
  assert (Hge : ∀ y, y ∈ lower_bound lt x l → lt x y = true).
  { intros y Hy. pose proof (proj1 (elem_of_bound x l y Hs) Hy) as [Hyl Hyx].
    destruct (lt x y) eqn:E; [done|].
    rewrite Forall_forall in HP. by rewrite (total x y) in Hnin by auto. }
  split; [|split].
  - unfold set_insert. destruct (lower_bound lt x l) as [|y r] eqn:E; [done|].
    by rewrite (Hge y) by set_solver.
  - rewrite <-Hl in Hs. apply sorted_app in Hs as (H1&H2&H3).
    pose proof (before_bound_lt x l) as Hf. rewrite Forall_forall in Hf.
    apply sorted_app. split; [done|]. split.
    + constructor; [done|]. by apply Forall_forall.
    + intros a b Ha [->|Hb]%elem_of_cons; auto.
  - intros y. rewrite elem_of_app, elem_of_cons.
    assert (y ∈ l ↔ y ∈ before_bound lt x l ∨ y ∈ lower_bound lt x l) as ->
      by (rewrite <-elem_of_app; by rewrite Hl).
    tauto.
Qed.

(** Inserting the elements of a sorted list in order gives that list. *)
Lemma insert_all_sorted w : ∀ u,
  sorted lt (u ++ w) → foldl (λ s x, (set_insert lt x s).1) u w = u ++ w.
Proof.
  induction w as [|x w IH]; intros u Hu; cbn [foldl]; [by rewrite app_nil_r|].
  assert (Hi : set_insert lt x u = (u ++ [x], x)).
  { apply sorted_app in Hu as (_ & _ & Hlt).
    assert (Hb : ∀ y, y ∈ u → lt y x = true) by (intros; apply Hlt; [done|by left]).
    unfold set_insert. assert (lower_bound lt x u = []) as ->.
    { unfold lower_bound. clear -Hb. induction u as [|y u IH]; cbn; [done|].
      rewrite Hb by (by left). apply IH. intros; apply Hb. by right. }
    unfold before_bound. do 2 f_equal. clear -Hb. induction u as [|y u IH]; cbn; [done|].
    rewrite Hb by (by left). f_equal. apply IH. intros; apply Hb. by right. }
  rewrite Hi. cbn [fst]. rewrite IH, <-app_assoc by (by rewrite <-app_assoc). done.
Qed.

(** Inserting distinct elements one by one sorts them. *)
Lemma insert_all_fresh w : ∀ u,
  sorted lt u → Forall P (u ++ w) → NoDup (u ++ w) →
  sorted lt (foldl (λ s x, (set_insert lt x s).1) u w) ∧
  ∀ y, y ∈ foldl (λ s x, (set_insert lt x s).1) u w ↔ y ∈ u ++ w.
Proof.
  induction w as [|x w IH]; intros u Hs HP Hnd; cbn [foldl]; [by rewrite app_nil_r|].
  apply Forall_app in HP as [HPu HPw]. apply Forall_cons in HPw as [Px HPw].
  apply NoDup_app in Hnd as (Hu & Hd & Hw). apply NoDup_cons in Hw as [Hx Hw].
  destruct (set_insert_fresh x u Hs HPu Px) as (u' & E & Hs' & Hin); [set_solver|].
  rewrite E. cbn [fst]. destruct (IH u' Hs') as [H1 H2].
  - apply Forall_app. split; [|done]. apply Forall_forall. intros y [->|Hy]%Hin; [done|].
    by rewrite Forall_forall in HPu; apply HPu.
  - apply NoDup_app. split; [by apply sorted_NoDup|]. split; [|done].
    intros y [->|Hy]%Hin; [done|]. set_solver.
  - split; [done|]. intros y. rewrite H2, !elem_of_app, Hin. set_solver.
Qed.
End Laws.
