(* ===== verification/Mutex.v ===== *)
(** * Locks: mutex.h, mutex.cpp

    The scoped lock classes over any mutex, the spin lock on an atomic flag, and
    the semaphore.  [Mutex], [Spinlock] and [RWMutex] forward to pthread, which
    is an interface here; a blocking call that cannot go on is [None], and the
    error codes of a reader/writer lock are dropped, as the code does.  A system
    of threads that use one mutex through lock objects is a step function; the
    objects of an [RWMutex] are told apart by their addresses. *)
From S2P Require Import Prelude.

(** ** What the lock objects call *)

(** [mutex.lock()] and [mutex.unlock()], by thread. *)
Class Lockable (T : Type) : Type := {
  lock : Z → T → option T;
  unlock : Z → T → T }.

(** [rdlock], [wrlock] and [unlock] of a reader/writer mutex. *)
Class RWLockable (T : Type) : Type := {
  rdlock : Z → T → option T;
  wrlock : Z → T → option T;
  rwunlock : Z → T → T }.

(** What [Mutex], [Spinlock] and [RWMutex] wrap: the calls of pthread.  Those of
    a reader/writer lock also give their error code. *)
Class Pthread (M SP R : Type) : Type := {
  pthread_mutex_lock : Z → M → option M;
  pthread_mutex_unlock : Z → M → M;
  pthread_spin_lock : Z → SP → option SP;
  pthread_spin_unlock : Z → SP → SP;
  pthread_rwlock_rdlock : Z → R → option (R * Z);
  pthread_rwlock_wrlock : Z → R → option (R * Z);
  pthread_rwlock_unlock : Z → R → R * Z }.

Definition Mutex `{Pthread M SP R} : Lockable M := {| lock := pthread_mutex_lock; unlock := pthread_mutex_unlock |}.
Definition Spinlock `{Pthread M SP R} : Lockable SP := {| lock := pthread_spin_lock; unlock := pthread_spin_unlock |}.
(** The error codes are dropped. *)
Definition RWMutex `{Pthread M SP R} : RWLockable R :=
  {| rdlock t m := fst <$> pthread_rwlock_rdlock t m;
     wrlock t m := fst <$> pthread_rwlock_wrlock t m;
     rwunlock t m := (pthread_rwlock_unlock t m).1 |}.

(** [NullMutex] and [NullRWMutex]. *)
#[export] Instance NullMutex : Lockable unit := { lock _ m := Some m; unlock _ m := m }.
#[export] Instance NullRWMutex : RWLockable unit := { rdlock _ m := Some m; wrlock _ m := Some m; rwunlock _ m := m }.

(** [CASLock]: one turn of the loop of [lock] is [test_and_set], whose value is
    the flag before; the loop ends when that was clear. *)
Definition test_and_set (flag : bool) : bool * bool := (flag, true).
Definition CASLock_lock (flag : bool) : option bool :=
  let '(was, flag') := test_and_set flag in if was then None else Some flag'.
Definition CASLock_unlock (flag : bool) : bool := false.
#[export] Instance CASLock : Lockable bool := {
  lock _ := CASLock_lock;
  unlock _ := CASLock_unlock }.

(** ** ScopedLockImpl, ReadScopedLockImpl, WriteScopedLockImpl

    [t]: the thread that calls; the boolean is the object's [locked_]. *)
Definition ScopedLock_new `{Lockable T} (t : Z) (mutex : T) : option (T * bool) :=
  m ← lock t mutex; Some (m, true).
Definition ScopedLock_lock `{Lockable T} (t : Z) (locked : bool) (mutex : T) : option (T * bool) :=
  if negb locked then m ← lock t mutex; Some (m, true) else Some (mutex, locked).
Definition ScopedLock_unlock `{Lockable T} (t : Z) (locked : bool) (mutex : T) : T * bool :=
  if locked then (unlock t mutex, false) else (mutex, locked).

Definition ReadLock_new `{RWLockable T} (t : Z) (mutex : T) : option (T * bool) :=
  m ← rdlock t mutex; Some (m, true).
Definition ReadLock_lock `{RWLockable T} (t : Z) (locked : bool) (mutex : T) : option (T * bool) :=
  if locked then m ← rdlock t mutex; Some (m, true) else Some (mutex, locked).
Definition ReadLock_unlock `{RWLockable T} (t : Z) (locked : bool) (mutex : T) : T * bool :=
  if locked then (rwunlock t mutex, false) else (mutex, locked).

Definition WriteLock_new `{RWLockable T} (t : Z) (mutex : T) : option (T * bool) :=
  m ← wrlock t mutex; Some (m, true).
Definition WriteLock_lock `{RWLockable T} (t : Z) (locked : bool) (mutex : T) : option (T * bool) :=
  if negb locked then m ← wrlock t mutex; Some (m, true) else Some (mutex, locked).
Definition WriteLock_unlock `{RWLockable T} (t : Z) (locked : bool) (mutex : T) : T * bool :=
  if locked then (rwunlock t mutex, false) else (mutex, locked).

(** ** Semaphore *)

(** <limits.h>. *)
Definition SEM_VALUE_MAX : Z := 2 ^ 31 - 1.

(** [Semaphore::Semaphore(count)] ([sem_init] refuses a count above the
    maximum), [wait] ([None]: it blocks; [interrupted]: a signal came) and
    [notify]. *)
Definition Semaphore_new (count : Z) : outcome Z :=
  if SEM_VALUE_MAX <? count then Throw ($"sem_init error") else Ret count.
Definition Semaphore_wait (interrupted : bool) (count : Z) : option (outcome Z) :=
  if interrupted then Some (Throw ($"sem_wait error"))
  else if 0 <? count then Some (Ret (count - 1)) else None.
Definition Semaphore_notify (count : Z) : outcome Z :=
  if SEM_VALUE_MAX <=? count then Throw ($"sem_post error") else Ret (count + 1).

(** ** Threads sharing a mutex through ScopedLockImpl *)

Inductive lock_op : Type := New | Lock | Unlock | Destroy.

#[export] Instance lock_op_eq_dec : EqDecision lock_op.
Proof. solve_decision. Defined.

Section Scoped.
Context {T : Type} `{Lockable T}.

(** The mutex, and the lock object of each thread that has one. *)
Definition scoped_sys : Type := T * gmap Z bool.

(** A step; [None]: the thread blocks, or has no such object to call. *)
Definition scoped_step (t : Z) (o : lock_op) (s : scoped_sys) : option scoped_sys :=
  let '(m, g) := s in
  match o, g !! t with
  | New, None => '(m', b) ← ScopedLock_new t m; Some (m', <[t := b]> g)
  | Lock, Some l => '(m', b) ← ScopedLock_lock t l m; Some (m', <[t := b]> g)
  | Unlock, Some l => let '(m', b) := ScopedLock_unlock t l m in Some (m', <[t := b]> g)
  | Destroy, Some l => let '(m', _) := ScopedLock_unlock t l m in Some (m', delete t g)
  | _, _ => None
  end.
End Scoped.
Arguments scoped_sys : clear implicits.

(** ** Threads sharing an RWMutex through its lock objects *)

Inductive rw_kind : Type := KRead | KWrite.

#[export] Instance rw_kind_eq_dec : EqDecision rw_kind.
Proof. solve_decision. Defined.

Section RW.
Context {T : Type} `{RWLockable T}.

(** The mutex, and the lock objects that are alive: the thread each belongs to -
    it is a variable of that thread's - its kind, and its [locked_].  A thread
    may have several, as in [FdManager::get]. *)
Definition rw_sys : Type := T * gmap Z (Z * rw_kind * bool).

Definition rw_new (k : rw_kind) : Z → T → option (T * bool) :=
  match k with KRead => ReadLock_new | KWrite => WriteLock_new end.
Definition rw_lock (k : rw_kind) : Z → bool → T → option (T * bool) :=
  match k with KRead => ReadLock_lock | KWrite => WriteLock_lock end.
Definition rw_unlock (k : rw_kind) : Z → bool → T → T * bool :=
  match k with KRead => ReadLock_unlock | KWrite => WriteLock_unlock end.

(** Thread [t] makes, locks, unlocks or destroys the object [p]; [k] is the
    class of the object a [New] makes. *)
Definition rw_step (t p : Z) (k : rw_kind) (o : lock_op) (s : rw_sys) : option rw_sys :=
  let '(m, g) := s in
  match o, g !! p with
  | New, None => '(m', b) ← rw_new k t m; Some (m', <[p := (t, k, b)]> g)
  | New, Some _ => None
  | _, None => None
  | _, Some (u, k, l) =>
      if negb (u =? t) then None
      else match o with
           | Lock => '(m', b) ← rw_lock k t l m; Some (m', <[p := (t, k, b)]> g)
           | Unlock => let '(m', b) := rw_unlock k t l m in Some (m', <[p := (t, k, b)]> g)
           | _ => let '(m', _) := rw_unlock k t l m in Some (m', delete p g)
           end
  end.
End RW.
Arguments rw_sys : clear implicits.

(** ** Mutual exclusion *)

(** What a mutex promises: it is taken by [lock] only when it is free, a free
    one can be taken, and [unlock] frees it. *)
Class MutexLaws (T : Type) `{Lockable T} : Type := {
  held : T → bool;
  lock_taken t m m' : lock t m = Some m' → held m = false ∧ held m' = true;
  lock_free t m : held m = false → is_Some (lock t m);
  unlock_frees t m : held (unlock t m) = false }.

(** The spin lock keeps the promise: its flag is set exactly when it is held. *)
#[export] Instance CASLock_laws : MutexLaws bool.
Proof. refine (Build_MutexLaws bool _ (λ b, b) _ _ _).
  - intros t [] m' Hl; [done|by injection Hl as <-].
  - intros t [] Hf; [done|by eexists].
  - done.
Defined.

Section ScopedLaws.
Context {T : Type} `{MutexLaws T}.

Fixpoint scoped_run (l : list (Z * lock_op)) (s : scoped_sys T) : option (scoped_sys T) :=
  match l with [] => Some s | (t, o) :: r => s' ← scoped_step t o s; scoped_run r s' end.

(** Some object has locked the mutex exactly when it is held, and only one. *)
Definition scoped_inv (s : scoped_sys T) : Prop :=
  (held s.1 = true ↔ ∃ t, s.2 !! t = Some true) ∧
  ∀ t t', s.2 !! t = Some true → s.2 !! t' = Some true → t = t'.

(** Taking the mutex for [t], whose object had not. *)
Lemma scoped_inv_take (m m' : T) (g : gmap Z bool) t :
  scoped_inv (m, g) → lock t m = Some m' → scoped_inv (m', <[t := true]> g).
Proof.
  intros [Hh Hu] Hl. destruct (lock_taken _ _ _ Hl) as [Hf Ht]. cbn in *.
  assert (Hno : ∀ u, g !! u ≠ Some true).
  { intros u Hu'. assert (held m = true) as E by (apply Hh; eauto). congruence. }
  split; cbn.
  - split; [|done]. exists t. by rewrite lookup_insert_eq.
  - assert (Hi : ∀ u, <[t := true]> g !! u = Some true → u = t).
    { intros u. destruct (decide (u = t)) as [->|]; [done|]. rewrite lookup_insert_ne by done.
      by intros ?%Hno. }
    intros u u' ->%Hi ->%Hi. done.
Qed.

(** Leaving it, or staying without it. *)
Lemma scoped_inv_leave (m m' : T) (g g' : gmap Z bool) t (b : bool) :
  scoped_inv (m, g) → g !! t = Some b → g' !! t ≠ Some true →
  (∀ u, u ≠ t → g' !! u = g !! u) → m' = (if b then unlock t m else m) → scoped_inv (m', g').
Proof.
  intros [Hh Hu] Hb Ht Hne ->. cbn in *.
  assert (Hsub : ∀ u, g' !! u = Some true → g !! u = Some true ∧ u ≠ t).
  { intros u Hu'. destruct (decide (u = t)) as [->|]; [done|]. by rewrite <- Hne. }
  split; cbn; [|intros u u' []%Hsub []%Hsub; by apply Hu]. destruct b.
  - rewrite unlock_frees. split; [done|]. intros [u [Hu' Hn]%Hsub]. by destruct Hn; apply Hu.
  - rewrite Hh. split; intros [u Hu']; exists u; [|by apply Hsub].
    destruct (decide (u = t)) as [->|]; [congruence|]. by rewrite Hne.
Qed.

Lemma scoped_step_inv t o s s' : scoped_inv s → scoped_step t o s = Some s' → scoped_inv s'.
Proof.
  destruct s as [m g]. intros Hi Hs. unfold scoped_step in Hs.
  destruct o, (g !! t) as [b|] eqn:Hb; try done.
  - unfold ScopedLock_new in Hs. destruct (lock t m) as [m'|] eqn:E; [|done]. injection Hs as <-.
    by eapply scoped_inv_take.
  - unfold ScopedLock_lock in Hs. destruct b; cbn in Hs.
    + injection Hs as <-. by rewrite insert_id.
    + destruct (lock t m) as [m'|] eqn:E; [|done]. injection Hs as <-. by eapply scoped_inv_take.
  - unfold ScopedLock_unlock in Hs.
    destruct b; injection Hs as <-; eapply scoped_inv_leave; eauto; rewrite ?lookup_insert_eq; try done;
      intros u Hne; by rewrite lookup_insert_ne.
  - unfold ScopedLock_unlock in Hs.
    destruct b; injection Hs as <-; eapply scoped_inv_leave; eauto; rewrite ?lookup_delete_eq; try done;
      intros u Hne; by rewrite lookup_delete_ne.
Qed.

End ScopedLaws.


(** ** Readers and writers *)

(** What pthread_rwlock_rdlock(3p) and its kin promise, by thread: a write lock
    is granted to one thread while nobody else holds anything, a read lock while
    nobody writes; a thread may hold several read locks and gives back one at a
    time.  A call may also fail and leave the lock as it is, and [RWMutex] does
    not look at that: asking again for what the thread would wait for itself
    (EDEADLK), and a read lock too many (EAGAIN). *)
Class RWLaws (T : Type) `{RWLockable T} : Type := {
  readers : T → Z → nat;
  writer : T → option Z;
  full : T → bool;
  rdlock_taken t m m' : rdlock t m = Some m' →
    (m' = m ∧ (writer m = Some t ∨ full m = true)) ∨
    (writer m = None ∧ writer m' = None ∧ readers m' t = S (readers m t) ∧
     ∀ u, u ≠ t → readers m' u = readers m u);
  wrlock_taken t m m' : wrlock t m = Some m' →
    (m' = m ∧ (writer m = Some t ∨ readers m t ≠ 0%nat)) ∨
    (writer m = None ∧ writer m' = Some t ∧ ∀ u, readers m u = 0%nat ∧ readers m' u = 0%nat);
  wrlock_free t m : writer m = None → (∀ u, readers m u = 0%nat) → is_Some (wrlock t m);
  unlock_write t m : writer m = Some t →
    writer (rwunlock t m) = None ∧ ∀ u, readers (rwunlock t m) u = readers m u;
  unlock_read t m n : writer m = None → readers m t = S n →
    writer (rwunlock t m) = None ∧ readers (rwunlock t m) t = n ∧
    ∀ u, u ≠ t → readers (rwunlock t m) u = readers m u }.

Section RWLawsSection.
Context {T : Type} `{RWLaws T}.
Implicit Types (m : T) (g : gmap Z (Z * rw_kind * bool)) (s : rw_sys T) (t u p q : Z).

Definition rw_act : Type := Z * Z * rw_kind * lock_op.

Fixpoint rw_run (l : list rw_act) s : option (rw_sys T) :=
  match l with [] => Some s | (t, p, k, o) :: r => s' ← rw_step t p k o s; rw_run r s' end.

(** What a step asks of the mutex. *)
Definition asks (p : Z) (k : rw_kind) (o : lock_op) g : option rw_kind :=
  match o, g !! p with
  | New, None => Some k
  | Lock, Some (_, KRead, true) => Some KRead
  | Lock, Some (_, KWrite, false) => Some KWrite
  | _, _ => None
  end.

(** The discipline: a thread asks for nothing while a [WriteLock] of its own is
    locked, not for the write lock while it holds a read lock, and not for one
    read lock too many. *)
Definition orderly (a : rw_act) (s : rw_sys T) : Prop :=
  let '(t, p, k, o) := a in
  match asks p k o s.2 with
  | Some k' => (∀ q, s.2 !! q ≠ Some (t, KWrite, true)) ∧
      match k' with KRead => full s.1 = false | KWrite => readers s.1 t = 0%nat end
  | None => True
  end.
Fixpoint orderly_run (l : list rw_act) s : Prop :=
  match l with
  | [] => True
  | a :: r => orderly a s ∧ ∀ s', (let '(t, p, k, o) := a in rw_step t p k o s) = Some s' → orderly_run r s'
  end.

(** The thread's objects that have a read lock. *)
Definition reading (t : Z) g : nat := size (filter (λ x, x.2 = (t, KRead, true)) g).

Lemma reading_insert t g p x : g !! p = None →
  reading t (<[p := x]> g) = ((if decide (x = (t, KRead, true)) then 1 else 0) + reading t g)%nat.
Proof.
  intros Hp. unfold reading. destruct (decide _) as [E|E].
  - rewrite map_filter_insert_True by done. rewrite map_size_insert_None; [done|].
    apply map_lookup_filter_None. by left.
  - by rewrite map_filter_insert_False, delete_id.
Qed.

(** What one object's change does to the count. *)
Lemma reading_split t g p : reading t g =
  ((if decide (g !! p = Some (t, KRead, true)) then 1 else 0) + reading t (delete p g))%nat.
Proof.
  destruct (g !! p) as [x|] eqn:E.
  - rewrite <-(insert_delete_id g p x E) at 1. rewrite reading_insert by apply lookup_delete_eq.
    f_equal. destruct (decide (x = _)), (decide (Some x = _)); congruence.
  - by rewrite delete_id.
Qed.
Lemma reading_change t g g' p : (∀ q, q ≠ p → g' !! q = g !! q) →
  (reading t g' + (if decide (g !! p = Some (t, KRead, true)) then 1 else 0) =
   reading t g + (if decide (g' !! p = Some (t, KRead, true)) then 1 else 0))%nat.
Proof.
  intros Hq. rewrite (reading_split t g p), (reading_split t g' p).
  assert (delete p g' = delete p g) as ->; [|lia].
  apply map_eq. intros q. destruct (decide (q = p)) as [->|Hne]; [by rewrite !lookup_delete_eq|].
  rewrite !lookup_delete_ne by done. auto.
Qed.

Lemma reading_elem t g p : g !! p = Some (t, KRead, true) → (0 < reading t g)%nat.
Proof. intros E. rewrite (reading_split t g p), decide_True by done. lia. Qed.
Lemma reading_zero t g : (∀ p, g !! p ≠ Some (t, KRead, true)) → reading t g = 0%nat.
Proof.
  intros Hno. unfold reading. apply map_size_empty_iff, map_empty. intros p. apply map_lookup_filter_None.
  right. intros x Hx E. cbn in E. subst x. by destruct (Hno p).
Qed.

(** The writer is the thread whose write lock object is locked, of which there
    is one; every locked read lock object stands for a read lock, next to the
    [stray] ones that no object will give back; a writer is alone. *)
Record rw_inv (stray : Z → nat) (s : rw_sys T) : Prop := mk_rw_inv {
  rw_writer t : writer s.1 = Some t ↔ ∃ p, s.2 !! p = Some (t, KWrite, true);
  rw_one t p q : s.2 !! p = Some (t, KWrite, true) → s.2 !! q = Some (t, KWrite, true) → p = q;
  rw_readers t : readers s.1 t = (stray t + reading t s.2)%nat;
  rw_alone t u : writer s.1 = Some t → readers s.1 u = 0%nat }.

Lemma rw_inv_ext stray stray' s : (∀ u, stray' u = stray u) → rw_inv stray s → rw_inv stray' s.
Proof. intros E [Hw Ho Hr Ha]. split; [exact Hw|exact Ho| |exact Ha]. intros t. by rewrite E. Qed.

(** The counts of the others do not change with an object of [t]'s. *)
Lemma reading_other t u g p x : u ≠ t → (∀ k b, x = Some (k, b) → k.1 = t) →
  (∀ y, g !! p = Some y → y.1.1 = t) → ∀ g', (∀ q, q ≠ p → g' !! q = g !! q) → g' !! p = x → reading u g' = reading u g.
Proof.
  intros Hu Hx Hy g' Hq Hp. pose proof (reading_change u g g' p Hq) as E. rewrite Hp in E.
  rewrite !decide_False in E; [lia|intros ->; by apply Hu, (Hx (u, KRead) true)|].
  intros E'. by apply Hu, (Hy (u, KRead, true)).
Qed.

Definition mine (t : Z) (x : option (Z * rw_kind * bool)) : Prop := ∀ y, x = Some y → y.1.1 = t.

(** A read lock granted to [t]: for the object [p], or, when it has one already,
    astray. *)
Lemma rw_inv_rdlock stray stray' m m' g t p :
  rw_inv stray (m, g) → mine t (g !! p) →
  writer m = None → writer m' = None → readers m' t = S (readers m t) →
  (∀ u, u ≠ t → readers m' u = readers m u) → (∀ u, u ≠ t → stray' u = stray u) →
  stray' t = (if decide (g !! p = Some (t, KRead, true)) then S (stray t) else stray t) →
  rw_inv stray' (m', <[p := (t, KRead, true)]> g).
Proof.
  intros [Hw Ho Hr Ha] Hmine E1 E2 E3 E4 Hs Ht. cbn in *.
  assert (Hne : ∀ q, q ≠ p → <[p := (t, KRead, true)]> g !! q = g !! q) by (intros; by rewrite lookup_insert_ne).
  assert (Hno : ∀ u q, g !! q ≠ Some (u, KWrite, true)).
  { intros u q Hq. assert (writer m = Some u) by (apply Hw; eauto). congruence. }
  assert (Hno' : ∀ u q, <[p := (t, KRead, true)]> g !! q ≠ Some (u, KWrite, true)).
  { intros u q. destruct (decide (q = p)) as [->|]; [by rewrite lookup_insert_eq|]. by rewrite Hne. }
  split; cbn.
  - intros u. rewrite E2. split; [done|]. intros [q Hq]. by destruct (Hno' u q).
  - intros u q q' Hq. by destruct (Hno' u q).
  - intros u. destruct (decide (u = t)) as [->|Hu].
    + pose proof (reading_change t g _ p Hne) as E. rewrite lookup_insert_eq, (decide_True (P := Some (t, KRead, true) = _)) in E by done.
      rewrite E3, Hr, Ht. case_decide; lia.
    + rewrite E4, Hr, Hs by done. f_equal. symmetry. eapply (reading_other t u g p); [done| | |exact Hne|by rewrite lookup_insert_eq].
      * by intros k b [= <- _].
      * exact Hmine.
  - intros u v. by rewrite E2.
Qed.

(** The write lock granted to [t]; readers that nobody gives back would have
    kept it out. *)
Lemma rw_inv_wrlock stray m m' g t p :
  rw_inv stray (m, g) → writer m = None → writer m' = Some t →
  (∀ u, readers m u = 0%nat ∧ readers m' u = 0%nat) →
  (∀ u, stray u = 0%nat) ∧ rw_inv stray (m', <[p := (t, KWrite, true)]> g).
Proof.
  intros [Hw Ho Hr Ha] E1 E2 E3. cbn in *.
  assert (Hz : ∀ u, stray u = 0%nat ∧ reading u g = 0%nat).
  { intros u. pose proof (Hr u). destruct (E3 u). lia. }
  assert (Hno : ∀ u q, g !! q ≠ Some (u, KWrite, true)).
  { intros u q Hq. assert (writer m = Some u) by (apply Hw; eauto). congruence. }
  assert (Hat : ∀ u q, <[p := (t, KWrite, true)]> g !! q = Some (u, KWrite, true) → q = p ∧ u = t).
  { intros u q. destruct (decide (q = p)) as [->|]; [rewrite lookup_insert_eq; by intros [= ->]|].
    rewrite lookup_insert_ne by done. intros Hq. by destruct (Hno u q). }
  split; [apply Hz|]. split; cbn.
  - intros u. rewrite E2. split.
    + intros [= <-]. exists p. by rewrite lookup_insert_eq.
    + by intros [q [_ ->]%Hat].
  - by intros u q q' [-> _]%Hat [-> _]%Hat.
  - intros u. destruct (Hz u) as [-> Hg], (E3 u) as [_ ->]. symmetry. apply reading_zero. intros q.
    destruct (decide (q = p)) as [->|]; [by rewrite lookup_insert_eq|]. rewrite lookup_insert_ne by done.
    intros Hq%reading_elem. lia.
  - intros u v _. apply E3.
Qed.

(** What a locked object of [t] has is given back. *)
Lemma rw_inv_unlock stray m g g' t p k :
  rw_inv stray (m, g) → g !! p = Some (t, k, true) → (∀ q, q ≠ p → g' !! q = g !! q) →
  mine t (g' !! p) → (∀ k', g' !! p ≠ Some (t, k', true)) → rw_inv stray (rwunlock t m, g').
Proof.
  intros [Hw Ho Hr Ha] Hp Hne Hmine Hno. cbn in *.
  assert (Hoth : ∀ u, u ≠ t → reading u g' = reading u g).
  { intros u Hu. eapply (reading_other t u g p _); [done| | |exact Hne|done]; [intros [] b Hx; by apply (Hmine _ Hx)|].
    rewrite Hp. by intros y [= <-]. }
  pose proof (reading_change t g g' p Hne) as Ec. rewrite (decide_False (P := g' !! p = _)) in Ec by done. rewrite Hp in Ec.
  assert (Hsame : ∀ u q, q ≠ p → (g' !! q = Some (u, KWrite, true) ↔ g !! q = Some (u, KWrite, true))) by (intros u q Hq; by rewrite Hne).
  assert (Hsub : ∀ u q, g' !! q = Some (u, KWrite, true) → q ≠ p ∧ g !! q = Some (u, KWrite, true)).
  { intros u q Hq. destruct (decide (q = p)) as [->|Hqp]; [|by apply Hsame in Hq].
    pose proof (Hmine _ Hq) as Hu. cbn in Hu. subst u. by destruct (Hno KWrite). }
  destruct k.
  - rewrite decide_True in Ec by done. pose proof (Hr t) as Hrt. destruct (readers m t) as [|n] eqn:En; [lia|].
    assert (Hwn : writer m = None).
    { destruct (writer m) as [u|] eqn:E; [|done]. rewrite (Ha u t eq_refl) in En. done. }
    destruct (unlock_read t m n Hwn En) as (E1 & E2 & E3). split; cbn.
    + intros u. rewrite E1, <-Hwn, Hw. split; intros [q Hq]; exists q; [|by apply Hsub].
      apply Hsame; [intros ->; congruence|done].
    + intros u q q' [_ Hq]%Hsub [_ Hq']%Hsub. by eapply Ho.
    + intros u. destruct (decide (u = t)) as [->|Hu]; [rewrite E2; lia|]. by rewrite E3, Hr, Hoth.
    + by rewrite E1.
  - rewrite decide_False in Ec by done. assert (Hwt : writer m = Some t) by (apply Hw; eauto).
    destruct (unlock_write t m Hwt) as (E1 & E2). split; cbn.
    + intros u. rewrite E1. split; [done|]. intros [q [Hqp Hq]%Hsub].
      assert (writer m = Some u) by (apply Hw; eauto). assert (u = t) as -> by congruence. by destruct Hqp; eapply Ho.
    + intros u q q' [_ Hq]%Hsub [_ Hq']%Hsub. by eapply Ho.
    + intros u. destruct (decide (u = t)) as [->|Hu]; [rewrite E2, Hr; lia|]. by rewrite E2, Hr, Hoth.
    + by rewrite E1.
Qed.

(** Dropping or keeping an object that is not locked. *)
Lemma rw_inv_idle stray m g g' t p :
  rw_inv stray (m, g) → mine t (g !! p) → mine t (g' !! p) → (∀ k, g !! p ≠ Some (t, k, true)) →
  (∀ q, q ≠ p → g' !! q = g !! q) → (∀ k, g' !! p ≠ Some (t, k, true)) → rw_inv stray (m, g').
Proof.
  intros [Hw Ho Hr Ha] Hm Hm' Hno Hne Hno'. cbn in *.
  assert (Hsame : ∀ u k q, g' !! q = Some (u, k, true) ↔ g !! q = Some (u, k, true)).
  { intros u k q. destruct (decide (q = p)) as [->|Hqp]; [|by rewrite Hne]. split; intros Hq.
    - pose proof (Hm' _ Hq) as Hu. cbn in Hu. subst u. by destruct (Hno' k).
    - pose proof (Hm _ Hq) as Hu. cbn in Hu. subst u. by destruct (Hno k). }
  split; cbn.
  - intros u. rewrite Hw. split; intros [q Hq]; exists q; by apply Hsame.
  - intros u q q' Hq%Hsame Hq'%Hsame. by eapply Ho.
  - intros u. rewrite Hr. f_equal. pose proof (reading_change u g g' p Hne) as E.
    assert (Hd : ∀ h : gmap Z (Z * rw_kind * bool), (∀ k, h !! p ≠ Some (t, k, true)) → mine t (h !! p) → h !! p ≠ Some (u, KRead, true)).
    { intros h Hk Hmine Hq. pose proof (Hmine _ Hq) as Hu. cbn in Hu. subst u. by destruct (Hk KRead). }
    rewrite !decide_False in E by auto. lia.
  - exact Ha.
Qed.

(** The read locks astray after a step: [ReadScopedLockImpl::lock] on a locked
    object adds one. *)
Definition stray_step (t p : Z) (o : lock_op) g (stray : Z → nat) (u : Z) : nat :=
  if decide (u = t ∧ o = Lock ∧ g !! p = Some (t, KRead, true)) then S (stray u) else stray u.

Fixpoint stray_run (l : list rw_act) s (stray : Z → nat) : Z → nat :=
  match l with
  | [] => stray
  | (t, p, k, o) :: r => match rw_step t p k o s with
                         | Some s' => stray_run r s' (stray_step t p o s.2 stray)
                         | None => stray
                         end
  end.

(** An orderly thread that is let through has been granted what it asked for. *)
Lemma orderly_rdlock stray m m' g t :
  rw_inv stray (m, g) → (∀ q, g !! q ≠ Some (t, KWrite, true)) → full m = false → rdlock t m = Some m' →
  writer m = None ∧ writer m' = None ∧ readers m' t = S (readers m t) ∧ ∀ u, u ≠ t → readers m' u = readers m u.
Proof.
  intros [Hw _ _ _] Hno Hf Hl. destruct (rdlock_taken _ _ _ Hl) as [(_ & [E|E])|E]; [|congruence|exact E].
  apply Hw in E as [q Hq]. by destruct (Hno q).
Qed.
Lemma orderly_wrlock stray m m' g t :
  rw_inv stray (m, g) → (∀ q, g !! q ≠ Some (t, KWrite, true)) → readers m t = 0%nat → wrlock t m = Some m' →
  writer m = None ∧ writer m' = Some t ∧ ∀ u, readers m u = 0%nat ∧ readers m' u = 0%nat.
Proof.
  intros [Hw _ _ _] Hno Hz Hl. destruct (wrlock_taken _ _ _ Hl) as [(_ & [E|E])|E]; [|congruence|exact E].
  apply Hw in E as [q Hq]. by destruct (Hno q).
Qed.

Lemma mine_some t k b : mine t (Some (t, k, b)).
Proof. by intros y [= <-]. Qed.
Lemma mine_none t : mine t None.
Proof. done. Qed.

(** A new object, or a lock on one that asks the mutex. *)
Lemma rw_ask_inv stray t p k o m m' g k' :
  rw_inv stray (m, g) → mine t (g !! p) → asks p k o g = Some k' → orderly (t, p, k, o) (m, g) →
  match k' with KRead => rdlock t m | KWrite => wrlock t m end = Some m' →
  rw_inv (stray_step t p o g stray) (m', <[p := (t, k', true)]> g).
Proof.
  intros Hi Hmine Hask Hord Hl. unfold orderly in Hord. cbn [fst snd] in Hord. rewrite Hask in Hord. destruct Hord as [Hno Hk].
  destruct k'.
  - destruct (orderly_rdlock _ _ _ _ _ Hi Hno Hk Hl) as (E1 & E2 & E3 & E4).
    eapply rw_inv_rdlock; [exact Hi|exact Hmine|exact E1|exact E2|exact E3|exact E4|..]; unfold stray_step.
    + intros u Hu. by rewrite decide_False by naive_solver.
    + unfold asks in Hask. destruct o, (g !! p) as [[[u [|]] [|]]|] eqn:Ep; try done; try injection Hask as ->;
        repeat case_decide; try done; try naive_solver.
  - destruct (orderly_wrlock _ _ _ _ _ Hi Hno Hk Hl) as (E1 & E2 & E3).
    destruct (rw_inv_wrlock _ _ _ _ _ p Hi E1 E2 E3) as [_ Hi'].
    eapply rw_inv_ext; [|exact Hi']. intros u. unfold stray_step. rewrite decide_False; [done|].
    intros (_ & -> & Hp). unfold asks in Hask. by rewrite Hp in Hask.
Qed.

Lemma rw_step_inv stray t p k o s s' :
  rw_inv stray s → orderly (t, p, k, o) s → rw_step t p k o s = Some s' → rw_inv (stray_step t p o s.2 stray) s'.
Proof.
  destruct s as [m g]. intros Hi Hord Hs. pose proof Hs as Hs0. unfold rw_step in Hs. cbn [snd].
  assert (Hne : ∀ q x, q ≠ p → (<[p := x]> g) !! q = g !! q) by (intros; by rewrite lookup_insert_ne).
  assert (Hde : ∀ q, q ≠ p → delete p g !! q = g !! q) by (intros; by rewrite lookup_delete_ne).
  destruct (g !! p) as [[[u k'] b]|] eqn:Ep.
  2:{ destruct o; try done.
      assert (Hask : asks p k New g = Some k) by (unfold asks; by rewrite Ep).
      destruct k; cbn [rw_new] in Hs; unfold ReadLock_new, WriteLock_new in Hs;
        [destruct (rdlock t m) as [m'|] eqn:E|destruct (wrlock t m) as [m'|] eqn:E]; try done; injection Hs as <-;
        (eapply rw_ask_inv; [exact Hi|by rewrite Ep|exact Hask|exact Hord|exact E]). }
  destruct o; [done|..]; destruct (Z.eqb_spec u t) as [->|]; try done; cbn [negb] in Hs.
  - (* Lock *)
    assert (Hmine : mine t (g !! p)) by (rewrite Ep; apply mine_some).
    assert (Hsame : (k', b) = (KRead, false) ∨ (k', b) = (KWrite, true) →
      rw_inv (stray_step t p Lock g stray) (m, <[p := (t, k', b)]> g)).
    { intros Hkb. rewrite insert_id by done. eapply rw_inv_ext; [|exact Hi]. intros v. unfold stray_step.
      rewrite decide_False; [done|]. rewrite Ep. naive_solver. }
    destruct k', b; cbn [rw_lock] in Hs; unfold ReadLock_lock, WriteLock_lock in Hs; cbn [negb] in Hs.
    + destruct (rdlock t m) as [m'|] eqn:E; [|done]. injection Hs as <-.
      eapply (rw_ask_inv _ _ _ k _ _ _ _ KRead); [exact Hi|exact Hmine|unfold asks; by rewrite Ep|exact Hord|exact E].
    + injection Hs as <-. apply Hsame. by left.
    + injection Hs as <-. apply Hsame. by right.
    + destruct (wrlock t m) as [m'|] eqn:E; [|done]. injection Hs as <-.
      eapply (rw_ask_inv _ _ _ k _ _ _ _ KWrite); [exact Hi|exact Hmine|unfold asks; by rewrite Ep|exact Hord|exact E].
  - (* Unlock *)
    apply (rw_inv_ext stray); [intros v; unfold stray_step; by rewrite decide_False by naive_solver|].
    destruct k', b; cbn [rw_unlock] in Hs; unfold ReadLock_unlock, WriteLock_unlock in Hs; injection Hs as <-;
      first [ eapply rw_inv_unlock; [exact Hi|exact Ep|auto|..]
            | eapply (rw_inv_idle _ _ _ _ t p); [exact Hi|rewrite Ep; apply mine_some|..|intros; congruence|auto|] ];
      rewrite ?lookup_insert_eq; try apply mine_some; intros; congruence.
  - (* Destroy *)
    apply (rw_inv_ext stray); [intros v; unfold stray_step; by rewrite decide_False by naive_solver|].
    destruct k', b; cbn [rw_unlock] in Hs; unfold ReadLock_unlock, WriteLock_unlock in Hs; injection Hs as <-;
      first [ eapply rw_inv_unlock; [exact Hi|exact Ep|auto|..]
            | eapply (rw_inv_idle _ _ _ _ t p); [exact Hi|rewrite Ep; apply mine_some|..|intros; congruence|auto|] ];
      rewrite ?lookup_delete_eq; try apply mine_none; intros; congruence.
Qed.

Lemma rw_run_inv stray l s s' :
  rw_inv stray s → orderly_run l s → rw_run l s = Some s' → rw_inv (stray_run l s stray) s'.
Proof.
  revert s stray. induction l as [|[[[t p] k] o] l IH]; intros s stray Hi Hord Hr; cbn in Hr |- *; [by injection Hr as <-|].
  destruct Hord as [Ho Hord]. destruct (rw_step t p k o s) as [s1|] eqn:E; [|done].
  eapply IH; [|by apply Hord|exact Hr]. by eapply rw_step_inv.
Qed.

Lemma stray_run_ge l u : ∀ s st, (st u ≤ stray_run l s st u)%nat.
Proof.
  induction l as [|[[[t p] k] o] l IH]; intros s st; cbn; [done|].
  destruct (rw_step t p k o s) as [s'|]; [|done]. etransitivity; [|apply IH]. unfold stray_step. case_decide; lia.
Qed.

(** C21: [ReadLock] and [WriteLock] objects keep readers and writers apart, but
    a read lock is not always given back.  Threads create, lock, unlock and
    destroy their objects in any order, several per thread if they like, under
    this discipline: a thread asks for no lock while a [WriteLock] of its own is
    locked, not for the write lock while it holds a read lock, and not for more
    read locks than the implementation allows (there the call would fail, and
    [RWMutex] does not look; [rw_ignored_error] shows what happens).  Then a
    locked [WriteLock] is the only locked object, and each thread holds a read
    lock for every locked [ReadLock] of its own.  [ReadScopedLockImpl::lock] tests
    [locked_] the wrong way round: on an object that has unlocked it does
    nothing, and every call on a locked one takes a further read lock that no
    object gives back.  As long as no such call was made, a writer gets in
    whenever no object is locked; after one, no [WriteLock] is ever locked
    again, and a thread that asks for one in good order waits for ever. *)
Theorem rw_lock_exclusion (m0 : T) l m g :
  writer m0 = None → (∀ t, readers m0 t = 0%nat) → orderly_run l (m0, ∅) → rw_run l (m0, ∅) = Some (m, g) →
  let stray := stray_run l (m0, ∅) (λ _, 0%nat) in
  (∀ p q t u k, g !! p = Some (t, KWrite, true) → g !! q = Some (u, k, true) → q = p) ∧
  (∀ t, readers m t = (stray t + reading t g)%nat) ∧
  (∀ t p k, g !! p = Some (t, KRead, false) → rw_step t p k Lock (m, g) = Some (m, g)) ∧
  ((∀ u, stray u = 0%nat) → (∀ p t k, g !! p ≠ Some (t, k, true)) →
     ∀ t p, g !! p = None → ∃ m', rw_step t p KWrite New (m, g) = Some (m', <[p := (t, KWrite, true)]> g) ∧
       writer m' = Some t) ∧
  ((∃ u, stray u ≠ 0%nat) → ∀ l' s', orderly_run l' (m, g) → rw_run l' (m, g) = Some s' →
     (∀ p t, s'.2 !! p ≠ Some (t, KWrite, true)) ∧
     ∀ t p, orderly (t, p, KWrite, New) s' → rw_step t p KWrite New s' = None).
Proof.
  intros Hw0 Hr0 Hord Hr stray.
  assert (Hi : rw_inv stray (m, g)).
  { eapply rw_run_inv; [|exact Hord|exact Hr]. split; cbn.
    - intros t. rewrite Hw0. split; [done|]. by intros [p Hp%lookup_empty_Some].
    - by intros t p q Hp%lookup_empty_Some.
    - intros t. rewrite Hr0. symmetry. apply reading_zero. intros p Hp. by apply lookup_empty_Some in Hp.
    - intros t u. by rewrite Hw0. }
  pose proof Hi as [Hw Hone Hrd Ha]. cbn in *. split; [|split; [exact Hrd|split; [|split]]].
  - intros p q t u k Hp Hq. assert (Ht : writer m = Some t) by (apply Hw; eauto). destruct k.
    + pose proof (Ha t u Ht) as Hz. rewrite Hrd in Hz. pose proof (reading_elem _ _ _ Hq). lia.
    + assert (Hu : writer m = Some u) by (apply Hw; eauto). assert (u = t) as -> by congruence. by eapply Hone.
  - intros t p k Hp. unfold rw_step. rewrite Hp, Z.eqb_refl. cbn. by rewrite insert_id.
  - intros Hz Hno t p Hp. unfold rw_step. rewrite Hp. cbn. unfold WriteLock_new.
    assert (Hnow : writer m = None).
    { destruct (writer m) as [u|] eqn:E; [|done]. destruct (proj1 (Hw u) eq_refl) as [q Hq]. by destruct (Hno q u KWrite). }
    assert (Hnor : ∀ u, readers m u = 0%nat).
    { intros u. rewrite Hrd, Hz. rewrite reading_zero; [done|]. intros q. apply Hno. }
    destruct (wrlock_free t m Hnow Hnor) as [m' Hl]. rewrite Hl. exists m'. split; [done|].
    eapply orderly_wrlock; [exact Hi|intros q; apply Hno|apply Hnor|exact Hl].
  - intros [u Hu] l' s' Hord' Hr'. pose proof (rw_run_inv _ _ _ _ Hi Hord' Hr') as Hi'.
    pose proof (stray_run_ge l' u (m, g) stray) as Hge. destruct s' as [m' g'].
    assert (Hpos : readers m' u ≠ 0%nat) by (pose proof (rw_readers _ _ Hi' u) as E; cbn in E; lia). split.
    + intros p t Hp. apply Hpos. apply (rw_alone _ _ Hi' t). apply (rw_writer _ _ Hi'). eauto.
    + intros t p Ho. unfold rw_step. destruct (g' !! p) as [x|] eqn:Ep; [done|]. cbn. unfold WriteLock_new.
      destruct (wrlock t m') as [m2|] eqn:E; [|done]. exfalso. unfold orderly, asks in Ho. cbn [snd] in Ho.
      rewrite Ep in Ho. destruct Ho as [Hno Hz].
      destruct (orderly_wrlock _ _ _ _ _ Hi' Hno Hz E) as (_ & _ & E3). by destruct (E3 u).
Qed.
End RWLawsSection.

(** A reader/writer lock as its documentation describes it: the read locks of
    each thread, and the writer.  Asking for what one would wait for oneself is
    EDEADLK. *)
Definition simple_rwlock : Type := gmap Z nat * option Z.
Definition EDEADLK : Z := 35.

Definition simple_rdlock (t : Z) (m : simple_rwlock) : option (simple_rwlock * Z) :=
  match m.2 with
  | Some u => if u =? t then Some (m, EDEADLK) else None
  | None => Some ((<[t := S (default 0%nat (m.1 !! t))]> m.1, None), 0)
  end.
Definition simple_wrlock (t : Z) (m : simple_rwlock) : option (simple_rwlock * Z) :=
  if bool_decide (m.2 = Some t ∨ default 0%nat (m.1 !! t) ≠ 0%nat) then Some (m, EDEADLK)
  else if null m.2 && bool_decide (map_Forall (λ _ n, n = 0%nat) m.1) then Some ((m.1, Some t), 0) else None.
Definition simple_unlock (t : Z) (m : simple_rwlock) : simple_rwlock * Z :=
  (if bool_decide (m.2 = Some t) then (m.1, None) else (<[t := pred (default 0%nat (m.1 !! t))]> m.1, m.2), 0).

(** The other two locks of pthread do not matter here. *)
#[export] Instance simple_Pthread : Pthread unit unit simple_rwlock := {
  pthread_mutex_lock _ m := Some m;
  pthread_mutex_unlock _ m := m;
  pthread_spin_lock _ m := Some m;
  pthread_spin_unlock _ m := m;
  pthread_rwlock_rdlock := simple_rdlock;
  pthread_rwlock_wrlock := simple_wrlock;
  pthread_rwlock_unlock := simple_unlock }.
#[export] Instance simple_RWMutex : RWLockable simple_rwlock := RWMutex.

#[export] Instance simple_RWLaws : RWLaws simple_rwlock.
Proof.
  refine (Build_RWLaws simple_rwlock _ (λ m t, default 0%nat (m.1 !! t)) (λ m, m.2) (λ _, false) _ _ _ _ _);
    unfold rdlock, wrlock, rwunlock, simple_RWMutex, RWMutex, pthread_rwlock_rdlock, pthread_rwlock_wrlock,
      pthread_rwlock_unlock, simple_Pthread, simple_rdlock, simple_wrlock, simple_unlock.
  - intros t [g w] m'. cbn [fst snd]. destruct w as [u|].
    + destruct (Z.eqb_spec u t) as [->|]; [|done]. cbn. intros [= <-]. left. split; [done|]. by left.
    + cbn. intros [= <-]. right. cbn [fst snd]. rewrite lookup_insert_eq. split_and!; [done..|].
      intros u Hu. by rewrite lookup_insert_ne.
  - intros t [g w] m'. cbn [fst snd]. case_bool_decide as Hd; cbn.
    + intros [= <-]. by left.
    + destruct w; [done|]. cbn [null andb]. case_bool_decide as Hg; [|done]. cbn. intros [= <-]. right.
      split; [done|]. split; [done|]. intros u. cbn [fst]. destruct (g !! u) eqn:E; [|done]. by rewrite (Hg u _ E).
  - intros t [g w]. cbn [fst snd]. intros -> Hz. cbn [null andb].
    case_bool_decide as Hd; [by eexists|]. rewrite bool_decide_true; [by eexists|].
    intros u n E. specialize (Hz u). by rewrite E in Hz.
  - intros t [g w]. cbn [fst snd]. intros ->. by rewrite bool_decide_true.
  - intros t [g w] n. cbn [fst snd]. intros -> Hn. rewrite bool_decide_false by done. rewrite Hn.
    cbn [fst snd pred]. rewrite lookup_insert_eq.
    split; [done|]. split; [done|]. intros u Hu. by rewrite lookup_insert_ne.
Defined.

(** An orderly step and a run of them, checked by computing. *)
Lemma orderly_step_ok (t p : Z) (k : rw_kind) (o : lock_op) l (m m' : simple_rwlock) g g' :
  match asks p k o g with
  | Some k' => bool_decide (map_Forall (λ _ x, x ≠ (t, KWrite, true)) g) &&
      match k' with KRead => true | KWrite => (readers m t =? 0)%nat end
  | None => true
  end = true →
  rw_step t p k o (m, g) = Some (m', g') → orderly_run l (m', g') → orderly_run ((t, p, k, o) :: l) (m, g).
Proof.
  intros Hok Hs Hl. split; [|intros s' Hs'; congruence]. unfold orderly. cbn [fst snd].
  destruct (asks p k o g) as [k'|]; [|done]. apply andb_true_iff in Hok as [Hw Hk].
  split.
  - intros q Hq. apply bool_decide_eq_true in Hw. by apply (Hw q _ Hq).
  - destruct k'; [done|]. by apply Nat.eqb_eq.
Qed.
Ltac orderly_runs := repeat (eapply orderly_step_ok; [vm_compute; reflexivity|vm_compute; reflexivity|]); exact I.

(** [FdManager::get] with its two objects, and then a thread that locks its
    [ReadLock] again and leaves the mutex to readers. *)
Lemma rw_lock_exclusion_witness :
  let get := [(1, 10, KRead, New); (1, 10, KRead, Unlock); (1, 11, KWrite, New)] in
  let l := get ++ [(1, 11, KWrite, Destroy); (1, 10, KRead, Destroy);
                   (1, 20, KRead, New); (1, 20, KRead, Lock); (1, 20, KRead, Destroy)] in
  (∃ m g, rw_run get ((∅, None) : simple_rwlock, ∅) = Some (m, g) ∧ g !! 11 = Some (1, KWrite, true) ∧
     ∀ q u k, g !! q = Some (u, k, true) → q = 11) ∧
  ∃ m, rw_run l ((∅, None) : simple_rwlock, ∅) = Some (m, ∅) ∧ readers m 1 = 1%nat ∧
    ∀ l' s' p t, orderly_run l' (m, ∅) → rw_run l' (m, ∅) = Some s' → s'.2 !! p ≠ Some (t, KWrite, true).
Proof.
  intros get l. assert (Hz : ∀ t, readers ((∅, None) : simple_rwlock) t = 0%nat) by (intros t; exact (f_equal (default 0%nat) (lookup_empty t))).
  split.
  - eexists _, _. split; [reflexivity|]. split; [reflexivity|]. intros q u k Hq.
    eapply (@rw_lock_exclusion simple_rwlock _ simple_RWLaws (∅, None) get _ _ eq_refl Hz); [|reflexivity|reflexivity|exact Hq].
    unfold get. orderly_runs.
  - pose (m := match rw_run l ((∅, None) : simple_rwlock, ∅) with Some s => s.1 | None => (∅, None) end).
    assert (Hrun : rw_run l ((∅, None) : simple_rwlock, ∅) = Some (m, ∅)) by reflexivity.
    exists m. split; [exact Hrun|]. split; [reflexivity|].
    assert (Hord : orderly_run l ((∅, None) : simple_rwlock, ∅)) by (unfold l, get; cbn [app]; orderly_runs).
    destruct (@rw_lock_exclusion simple_rwlock _ simple_RWLaws (∅, None) l m ∅ eq_refl Hz Hord Hrun) as (_ & _ & _ & _ & H).
    intros l' s' p t Hord' Hr'. refine (proj1 (H _ l' s' Hord' Hr') p t). exists 1. by vm_compute.
Defined.

(** Why the discipline: a thread makes a [ReadLock] under its own [WriteLock],
    the failure of [rdlock] is not seen, the destructor gives back the write
    lock, and a second [WriteLock] is locked beside the first. *)
Theorem rw_ignored_error :
  ∃ m g, rw_run [(1, 10, KWrite, New); (1, 11, KRead, New); (1, 11, KRead, Destroy); (2, 12, KWrite, New)]
           ((∅, None) : simple_rwlock, ∅) = Some (m, g) ∧
    g !! 10 = Some (1, KWrite, true) ∧ g !! 12 = Some (2, KWrite, true).
Proof. eexists _, _. split; [reflexivity|]. split; reflexivity. Qed.
