(* ===== verification/Thread.v ===== *)
(** * Threads: thread.h, thread.cpp

    The constructor of [Thread] starts [run] on a new thread and waits on the
    object's semaphore until [run] has taken what it needs from the object.  The
    two run concurrently on one object, which its owner may destroy as soon as
    the constructor is back; every access is a step, and an access to a destroyed
    object is [Undefined]. *)
From S2P Require Import Prelude Mutex.

Section Thread.
(** [C]: non-empty [std::function<void()>] values. *)
Context {C : Type}.

(** [thread_]: whether a pthread is attached; [semaphore_]: its count. *)
Record Thread : Type := mkThread {
  id_ : Z;
  thread_ : bool;
  cb_ : option C;
  name_ : str;
  semaphore_ : Z }.

Definition set_id (i : Z) (o : Thread) : Thread :=
  mkThread i (thread_ o) (cb_ o) (name_ o) (semaphore_ o).
Definition set_thread (b : bool) (o : Thread) : Thread :=
  mkThread (id_ o) b (cb_ o) (name_ o) (semaphore_ o).
Definition set_cb (c : option C) (o : Thread) : Thread :=
  mkThread (id_ o) (thread_ o) c (name_ o) (semaphore_ o).
Definition set_name (n : str) (o : Thread) : Thread :=
  mkThread (id_ o) (thread_ o) (cb_ o) n (semaphore_ o).
Definition set_sem (n : Z) (o : Thread) : Thread :=
  mkThread (id_ o) (thread_ o) (cb_ o) (name_ o) n.

(** [Thread::Thread] up to the return of [pthread_create], which answered
    [rt]. *)
Definition Thread_new (cb : option C) (name : str) (rt : Z) : outcome Thread :=
  if negb (rt =? 0) then Throw ($"pthread_create error")
  else Ret (mkThread (-1) true cb (if bool_decide (name = []) then $"UNKNOW" else name) 0).

(** What is done to the pthread. *)
Inductive pthread_call : Type := Join | Detach.

(** [Thread::join] once [pthread_join] is over with [rt]. *)
Definition join (rt : Z) (o : Thread) : outcome Thread * list pthread_call :=
  if thread_ o then (if negb (rt =? 0) then Throw ($"pthread_join error") else Ret (set_thread false o), [Join])
  else (Ret o, []).

(** [Thread::~Thread]. *)
Definition Thread_delete (o : Thread) : list pthread_call := if thread_ o then [Detach] else [].

(** Where [run] is: before each of its statements, in [cb()], or over. *)
Inductive run_pc : Type :=
  | SetThis | CopyName | SetId | SetKernelName | SwapCb
  | Notify (cb : option C) | Call (cb : option C) | InCall (cb : C) | Over.

(** Where the owner is: in the constructor's [semaphore_.wait()], back from it,
    or done with the object, which is destroyed; or the constructor threw. *)
Inductive owner_pc : Type := Waiting | Created | Deleted | Threw.

(** [obj]: [None] when destroyed.  [t_thread] and [t_thread_name] are the new
    thread's; [kernel_name] is what [pthread_setname_np] set; [calls]: what was
    done to the pthread. *)
Record system : Type := mkSys {
  obj : option Thread;
  owner : owner_pc;
  runner : run_pc;
  t_thread : bool;
  t_thread_name : str;
  kernel_name : str;
  calls : list pthread_call }.

Definition set_obj (o : option Thread) (g : system) : system :=
  mkSys o (owner g) (runner g) (t_thread g) (t_thread_name g) (kernel_name g) (calls g).
Definition set_owner (p : owner_pc) (g : system) : system :=
  mkSys (obj g) p (runner g) (t_thread g) (t_thread_name g) (kernel_name g) (calls g).
Definition set_runner (p : run_pc) (g : system) : system :=
  mkSys (obj g) (owner g) p (t_thread g) (t_thread_name g) (kernel_name g) (calls g).
Definition add_calls (l : list pthread_call) (g : system) : system :=
  mkSys (obj g) (owner g) (runner g) (t_thread g) (t_thread_name g) (kernel_name g) (calls g ++ l).

Definition deref (g : system) : outcome Thread := match obj g with Some o => Ret o | None => Undefined end.

(** The next statement of [Thread::run] on the thread with kernel id [tid]. *)
Definition run (tid : Z) (g : system) : outcome system :=
  match runner g with
  | SetThis => Ret (mkSys (obj g) (owner g) CopyName true (t_thread_name g) (kernel_name g) (calls g))
  | CopyName => o ← deref g;
      Ret (mkSys (obj g) (owner g) SetId (t_thread g) (name_ o) (kernel_name g) (calls g))
  | SetId => o ← deref g; Ret (set_runner SetKernelName (set_obj (Some (set_id tid o)) g))
  | SetKernelName => o ← deref g;
      Ret (mkSys (obj g) (owner g) SwapCb (t_thread g) (t_thread_name g) (take 15 (name_ o)) (calls g))
  | SwapCb => o ← deref g; Ret (set_runner (Notify (cb_ o)) (set_obj (Some (set_cb None o)) g))
  | Notify c => o ← deref g; n ← Semaphore_notify (semaphore_ o);
      Ret (set_runner (Call c) (set_obj (Some (set_sem n o)) g))
  | Call None => Throw ($"bad_function_call")
  | Call (Some c) => Ret (set_runner (InCall c) g)
  | InCall _ => Ret (set_runner Over g)
  | Over => Ret g
  end.

(** [Thread::SetName] called on the new thread, from its callback. *)
Definition SetName (name : str) (g : system) : outcome system :=
  if bool_decide (name = []) then Ret g
  else
    o ← (if t_thread g then o ← deref g; Ret (Some (set_name name o)) else Ret (obj g));
    Ret (mkSys o (owner g) (runner g) (t_thread g) name (kernel_name g) (calls g)).

(** The steps: the owner's wait ends or is interrupted by a signal; it joins
    (which waits for the end of the thread) or destroys the object; the new thread goes on, or its callback calls
    [SetName]. *)
Inductive action : Type := OWait | OInterrupt | OJoin | ODelete | ARun | ASetName (name : str).

(** [None]: the step is not possible now. *)
Definition step (tid : Z) (a : action) (g : system) : option (outcome system) :=
  match a, owner g, obj g with
  | OWait, Waiting, Some o =>
      r ← Semaphore_wait false (semaphore_ o);
      Some (n ← r; Ret (set_owner Created (set_obj (Some (set_sem n o)) g)))
  | OInterrupt, Waiting, Some o => Some (Ret (set_owner Threw (set_obj None g)))
  | OJoin, Created, Some o =>
      match thread_ o, runner g with
      | true, Over | false, _ =>
          let '(r, l) := join 0 o in Some (o' ← r; Ret (add_calls l (set_obj (Some o') g)))
      | _, _ => None
      end
  | ODelete, Created, Some o => Some (Ret (add_calls (Thread_delete o) (set_owner Deleted (set_obj None g))))
  | ARun, _, _ => match runner g with Over => None | _ => Some (run tid g) end
  | ASetName n, _, _ => match runner g with InCall _ => Some (SetName n g) | _ => None end
  | _, _, _ => None
  end.

Fixpoint steps (tid : Z) (l : list action) (g : system) : option (outcome system) :=
  match l with
  | [] => Some (Ret g)
  | a :: r => match step tid a g with
              | Some (Ret g') => steps tid r g'
              | o => o
              end
  end.

(** After [pthread_create]. *)
Definition started (o : Thread) : system := mkSys (Some o) Waiting SetThis false ($"UNKNOW") [] [].
End Thread.
Arguments Thread : clear implicits.
Arguments run_pc : clear implicits.
Arguments system : clear implicits.

(** ** The handshake of constructor and run *)
Section Handshake.
Context {C : Type} (tid : Z) (f : C) (n0 : str).

(** Has [run] notified the owner? *)
Definition notified (p : run_pc C) : bool := match p with Call _ | InCall _ | Over => true | _ => false end.
(** Has it set the id, and taken the callback? *)
Definition id_set (p : run_pc C) : bool := match p with SetThis | CopyName | SetId => false | _ => true end.
Definition cb_taken (p : run_pc C) : bool :=
  match p with SetThis | CopyName | SetId | SetKernelName | SwapCb => false | _ => true end.

(** What the new thread has of its own. *)
Definition runner_ok (g : system C) : Prop :=
  (runner g ≠ SetThis → t_thread g = true) ∧
  match runner g with Notify c | Call c => c = Some f | InCall c => c = f | _ => True end ∧
  match runner g with SetThis | CopyName | SetId | SetKernelName => True | _ => kernel_name g = take 15 n0 end.

(** The object while the constructor waits. *)
Definition waiting_ok (g : system C) (o : Thread C) : Prop :=
  thread_ o = true ∧ calls g = [] ∧
  semaphore_ o = (if notified (runner g) then 1 else 0) ∧
  id_ o = (if id_set (runner g) then tid else -1) ∧
  cb_ o = (if cb_taken (runner g) then None else Some f) ∧
  match runner g with
  | SetThis | CopyName => name_ o = n0
  | InCall _ | Over => t_thread_name g = name_ o
  | _ => name_ o = n0 ∧ t_thread_name g = n0
  end.

(** The object once the constructor is back, and the pthread's bookkeeping. *)
Definition created_ok (g : system C) (o : Thread C) : Prop :=
  notified (runner g) = true ∧ id_ o = tid ∧ cb_ o = None ∧ t_thread_name g = name_ o ∧
  (if thread_ o then calls g = [] else calls g = [Join] ∧ runner g = Over).

Definition Inv (g : system C) : Prop :=
  runner_ok g ∧
  match owner g with
  | Waiting => ∃ o, obj g = Some o ∧ waiting_ok g o
  | Created => ∃ o, obj g = Some o ∧ created_ok g o
  | Deleted => obj g = None ∧ notified (runner g) = true ∧
               (calls g = [Detach] ∨ calls g = [Join] ∧ runner g = Over)
  | Threw => False
  end.

(** A statement of [run] keeps the invariant, and never fails. *)
Lemma run_ok g : Inv g → runner g ≠ Over → ∃ g', run tid g = Ret g' ∧ Inv g' ∧ owner g' = owner g.
Proof.
  destruct g as [ob ow ru tt tn kn cs]. intros [Hr Ho] Hn. unfold runner_ok in Hr. cbn in *.
  destruct Hr as (Ht & Hc & Hk).
  destruct ow; [| | |done].
  - destruct Ho as (o & -> & Hw). unfold waiting_ok in Hw. cbn in Hw.
    destruct Hw as (H1 & H2 & H3 & H4 & H5 & H6). unfold run. cbn.
    destruct ru as [ | | | | |c|c|c| ]; cbn in *; subst; try done;
      rewrite ?H3; cbn;
      (eexists; split; [reflexivity|split; [|done]]; split; [unfold runner_ok; cbn; naive_solver|]);
      cbn; eexists; (split; [reflexivity|]); unfold waiting_ok; cbn; naive_solver.
  - destruct Ho as (o & -> & Hw). unfold created_ok in Hw. cbn in Hw.
    destruct Hw as (H1 & H2 & H3 & H4 & H5). unfold run. cbn.
    destruct ru as [ | | | | |c|c|c| ]; cbn in *; subst; try done;
      (eexists; split; [reflexivity|split; [|done]]; split; [unfold runner_ok; cbn; naive_solver|]);
      cbn; eexists; (split; [reflexivity|]); unfold created_ok; cbn;
      destruct (thread_ o); naive_solver.
  - destruct Ho as (-> & H1 & H2). unfold run. cbn.
    destruct ru as [ | | | | |c|c|c| ]; cbn in *; subst; try done;
      (eexists; split; [reflexivity|split; [|done]]; split; [unfold runner_ok|]; cbn; naive_solver).
Qed.

(** So does [SetName] in the callback, as long as the object lives. *)
Lemma SetName_ok n g c :
  Inv g → runner g = InCall c →
  (∃ g', SetName n g = Ret g' ∧ Inv g') ∨ (SetName n g = Undefined ∧ owner g = Deleted).
Proof.
  destruct g as [ob ow ru tt tn kn cs]. intros [Hr Ho] Hn. unfold runner_ok in Hr. cbn in *. subst ru.
  cbn in *. destruct Hr as (Ht & -> & ->). unfold SetName. cbn. rewrite Ht by done.
  case_bool_decide; [left; eexists; split; [done|]; split; [by split|exact Ho]|].
  destruct ow; [| | |done].
  - destruct Ho as (o & -> & Hw). left. eexists. split; [reflexivity|]. unfold waiting_ok in Hw. cbn in Hw.
    split; [by split|]. cbn. eexists. split; [reflexivity|]. unfold waiting_ok. cbn. naive_solver.
  - destruct Ho as (o & -> & Hw). left. eexists. split; [reflexivity|]. unfold created_ok in Hw. cbn in Hw.
    split; [by split|]. cbn. eexists. split; [reflexivity|]. unfold created_ok. cbn. naive_solver.
  - destruct Ho as (-> & _). by right.
Qed.

Lemma step_ok a g r :
  Inv g → a ≠ OInterrupt → step tid a g = Some r →
  (∃ g', r = Ret g' ∧ Inv g') ∨ (r = Undefined ∧ owner g = Deleted ∧ ∃ n, a = ASetName n).
Proof.
  intros Hi Ha Hs. destruct a as [ | | | | |n]; [|done|..].
  - unfold step in Hs. destruct (owner g) eqn:Eo; try done. destruct (obj g) as [o|] eqn:Eb; [|done].
    destruct Hi as [Hr Ho]. rewrite Eo, Eb in Ho. destruct Ho as (o' & [= <-] & Hw).
    destruct Hw as (H1 & H2 & H3 & H4 & H5 & H6). unfold Semaphore_wait in Hs. rewrite H3 in Hs.
    destruct (notified (runner g)) eqn:En; cbn in Hs; [|done]. injection Hs as <-. left.
    eexists. split; [reflexivity|]. split; [exact Hr|]. cbn. eexists. split; [reflexivity|].
    unfold created_ok. cbn. destruct Hr as (_ & Hr & _).
    destruct (runner g); cbn in *; try done; rewrite H1; naive_solver.
  - unfold step in Hs. destruct (owner g) eqn:Eo; try done. destruct (obj g) as [o|] eqn:Eb; [|done].
    destruct Hi as [Hr Ho]. rewrite Eo, Eb in Ho. destruct Ho as (o' & [= <-] & Hw).
    unfold created_ok in Hw. left.
    destruct (thread_ o) eqn:Et; [destruct (runner g) eqn:Er; try done|]; unfold join in Hs; rewrite Et in Hs;
      cbn in Hs; injection Hs as <-; (eexists; split; [reflexivity|]);
      unfold add_calls, set_obj; (split; [unfold runner_ok in *; cbn; rewrite ?Er in *; exact Hr|]); cbn;
      rewrite Eo; (eexists; split; [reflexivity|]); unfold created_ok; cbn; rewrite ?Er, ?Et in *; cbn in *.
    + destruct Hw as (? & ? & ? & ? & ->). done.
    + destruct Hw as (? & ? & ? & ? & -> & ?). done.
  - unfold step in Hs. destruct (owner g) eqn:Eo; try done. destruct (obj g) as [o|] eqn:Eb; [|done].
    injection Hs as <-. left. destruct Hi as [Hr Ho]. rewrite Eo, Eb in Ho. destruct Ho as (o' & [= <-] & Hw).
    eexists. split; [reflexivity|]. split; [exact Hr|]. cbn. unfold created_ok in Hw.
    destruct Hw as (H1 & _ & _ & _ & H5). split; [done|]. split; [done|]. unfold Thread_delete.
    destruct (thread_ o); [rewrite H5; by left|]. destruct H5 as [-> ?]. by right.
  - assert (runner g ≠ Over ∧ r = run tid g) as [Hn ->].
    { unfold step in Hs. by destruct (runner g); try (injection Hs as <-). }
    destruct (run_ok g Hi Hn) as (g' & -> & Hi' & _). left. eauto.
  - assert (∃ c, runner g = InCall c ∧ r = SetName n g) as (c & Hc & ->).
    { unfold step in Hs. destruct (runner g); try done. injection Hs as <-. eauto. }
    destruct (SetName_ok n g c Hi Hc) as [(g' & -> & ?)|[-> ?]]; [left; eauto|right; eauto].
Qed.

(** What the owner and the new thread can rely on. *)
Definition handshake (g : system C) : Prop :=
  (owner g = Created ∨ owner g = Deleted →
     notified (runner g) = true ∧ kernel_name g = take 15 n0 ∧
     (runner g = Call (Some f) ∨ runner g = InCall f ∨ runner g = Over)) ∧
  (owner g = Created → ∃ o, obj g = Some o ∧ id_ o = tid ∧ cb_ o = None ∧ t_thread_name g = name_ o) ∧
  (calls g = [] ∨ calls g = [Detach] ∨ calls g = [Join] ∧ runner g = Over) ∧
  (owner g = Deleted → calls g ≠ []).

Lemma Inv_handshake g : Inv g → handshake g.
Proof.
  intros [(Ht & Hc & Hk) Ho]. unfold handshake. destruct (owner g); try done.
  - destruct Ho as (o & Hb & H1 & H2 & _). naive_solver.
  - destruct Ho as (o & Hb & H1 & H2 & H3 & H4 & H5).
    split; [intros _; destruct (runner g); cbn in *; naive_solver|]. split; [eauto|].
    split; [destruct (thread_ o); naive_solver|done].
  - destruct Ho as (Hb & H1 & H2). split; [intros _; destruct (runner g); cbn in *; naive_solver|].
    split; [done|]. by destruct H2 as [->|[-> ?]]; auto.
Qed.

(** While the constructor waits, the new thread alone brings it back. *)
Lemma waiting_ends g : Inv g → owner g = Waiting →
  ∃ n g', (n ≤ 6)%nat ∧ steps tid (replicate n ARun ++ [OWait]) g = Some (Ret g') ∧ owner g' = Created.
Proof.
  set (todo (p : run_pc C) := match p with
    | SetThis => 6 | CopyName => 5 | SetId => 4 | SetKernelName => 3 | SwapCb => 2 | Notify _ => 1 | _ => 0 end%nat).
  assert (Hle : (todo (runner g) ≤ 6)%nat) by (destruct (runner g); cbn; lia).
  intros Hi Ho. remember (todo (runner g)) as n eqn:E. exists n. revert g E Hi Ho Hle. induction n as [|n IH]; intros g E Hi Ho Hle.
  - destruct Hi as [Hr Hw]. rewrite Ho in Hw. destruct Hw as (o & Hb & _ & _ & Hs & _).
    cbn. rewrite Ho, Hb. unfold Semaphore_wait. rewrite Hs.
    assert (Hn : notified (runner g) = true) by (by destruct (runner g)). rewrite Hn. cbn. eauto.
  - assert (Hn : runner g ≠ Over) by (intros Hx; by rewrite Hx in E).
    destruct (run_ok g Hi Hn) as (g' & Hr & Hi' & Ho').
    assert (E' : n = todo (runner g')).
    { unfold run, deref in Hr. destruct (runner g) eqn:Er; cbn in E; try lia; repeat case_match; try done;
        cbn in Hr; repeat (injection Hr as <- || (destruct (Semaphore_notify _); [|done..])); cbn; lia. }
    destruct (IH g' E' Hi' ltac:(by rewrite Ho') ltac:(lia)) as (g2 & ? & Hs & ?).
    exists g2. split; [lia|]. split; [|done]. cbn [replicate app steps].
    assert (step tid ARun g = Some (Ret g')) as -> by (unfold step; rewrite <- Hr; by destruct (runner g)).
    exact Hs.
Qed.
End Handshake.

(** C28: a [Thread] whose constructor is back is ready, and destroying it early
    is safe for [run].  However owner and new thread interleave, unless a signal
    interrupts the constructor's wait: the constructor always comes back; when it
    has, the id is the new thread's, the callback has been handed over and will
    be called there, and the kernel knows the first 15 bytes of the name; [run]
    never touches the object afterwards, so the owner may destroy it at once; and
    the pthread is joined, after its end, or detached, exactly once.  Only
    [SetName] called from the callback of a destroyed object uses it. *)
Theorem thread_handshake {C} tid (f : C) name o l r :
  Thread_new (Some f) name 0 = Ret o → OInterrupt ∉ l → steps tid l (started o) = Some r →
  let n0 := if bool_decide (name = []) then $"UNKNOW" else name in
  (∃ g, r = Ret g ∧ handshake tid f n0 g ∧
     (owner g = Waiting → ∃ n g', steps tid (replicate n ARun ++ [OWait]) g = Some (Ret g') ∧
                                  owner g' = Created)) ∨
  (r = Undefined ∧ ∃ l1 n l2 g, l = l1 ++ ASetName n :: l2 ∧
     steps tid l1 (started o) = Some (Ret g) ∧ owner g = Deleted).
Proof.
  intros [= <-] Hl Hs n0. set (g0 := started _) in *.
  assert (Hi : Inv tid f n0 g0) by (split; [by split|]; eexists; split; [reflexivity|]; by repeat split).
  revert Hi Hl Hs. generalize g0. clear g0. induction l as [|a l IH]; intros g Hi Hl Hs; cbn in Hs.
  - injection Hs as <-. left. exists g. split; [done|]. split; [by apply Inv_handshake|].
    intros Ho. destruct (waiting_ends tid f n0 g Hi Ho) as (n & g' & _ & ? & ?). eauto.
  - destruct (step tid a g) as [s|] eqn:E; [|done].
    destruct (step_ok tid f n0 a g s Hi) as [(g' & -> & Hi')|(-> & Ho & n & ->)]; [set_solver|done|..].
    + destruct (IH g' Hi') as [?|(-> & l1 & n & l2 & g2 & -> & H1 & H2)]; [set_solver|done|by left|].
      right. split; [done|]. exists (a :: l1), n, l2, g2. split; [done|]. split; [|done].
      cbn. by rewrite E.
    + injection Hs as <-. right. split; [done|]. by exists [], n, l, g.
Qed.

(** The owner destroys the object first thing; the callback still runs. *)
Definition demo_object : Thread Z := Eval vm_compute in
  mkThread (-1) true (Some 1) ($"a_name_of_twenty_chr") 0.
Definition demo_run : list action := Eval vm_compute in replicate 6 ARun ++ [OWait; ODelete; ARun].
Definition demo_end : system Z := Eval vm_compute in
  match steps 42 demo_run (started demo_object) with Some (Ret g) => g | _ => started demo_object end.

Lemma demo_runs : steps 42 demo_run (started demo_object) = Some (Ret demo_end).
Proof. by vm_compute. Qed.
Lemma demo_uninterrupted : OInterrupt ∉ demo_run.
Proof. unfold demo_run. set_solver. Qed.

Lemma thread_handshake_witness :
  obj demo_end = None ∧ calls demo_end = [Detach] ∧
  handshake 42 1 (if bool_decide (name_ demo_object = []) then $"UNKNOW" else name_ demo_object) demo_end.
Proof.
  split; [reflexivity|]. split; [reflexivity|].
  destruct (thread_handshake 42 1 (name_ demo_object) demo_object _ _ eq_refl demo_uninterrupted demo_runs)
    as [(g & E & H & _)|[E _]]; [|discriminate E].
  injection E as ->. exact H.
Defined.
