(* ===== verification/Timer.v ===== *)
(** * Timers: timer.h, timer.cpp

    [Timer] objects live in a store indexed by address, because a timer is a
    [shared_ptr] held by the manager's set and by the caller at once and the
    order of the set reads the objects.  [TimerManager] is that store together
    with the manager's fields; one definition per method, the clock reading and
    the address [new Timer] yields being arguments. *)
From S2P Require Import Prelude StdSet.

Section Timer.
(** [F]: the functions a caller passes; [W]: a [std::weak_ptr<void>]. *)
Context {F W : Type}.

(** A non-empty [std::function<void()>] stored in a timer: the caller's
    function, or the one [addConditionTimer] binds around it. *)
Inductive callback : Type :=
  | Fun (f : F)
  | OnTimer (weak_cond : W) (cb : option F).

(** Calling a stored callback: the functions it goes on to call, given which
    weak pointers still lock. *)
Definition run_callback (lock : W → bool) (c : callback) : list (option F) :=
  match c with
  | Fun f => [Some f]
  | OnTimer weak_cond cb => if lock weak_cond then [cb] else []
  end.

Record Timer : Type := mkTimer {
  recurring_ : bool;
  ms_ : Z;
  next_ : Z;
  cb_ : option callback }.

Definition set_cb (t : Timer) (c : option callback) : Timer :=
  mkTimer (recurring_ t) (ms_ t) (next_ t) c.
Definition set_next (t : Timer) (n : Z) : Timer :=
  mkTimer (recurring_ t) (ms_ t) n (cb_ t).

(** [Timer::Timer(ms, cb, recurring, manager)], the clock reading [now]. *)
Definition Timer_new (now ms : Z) (cb : option callback) (recurring : bool) : Timer :=
  mkTimer recurring ms (u64 (now + ms)) cb.

(** [Timer::Timer(next)]: the probe of [listExpiredCb]. *)
Definition Timer_at (next : Z) : Timer := mkTimer false 0 next None.

(** [heap_]: every timer object, by address; [timers_]: the addresses in the
    set, in iteration order. *)
Record TimerManager : Type := mkTM {
  heap_ : gmap Z Timer;
  timers_ : list Z;
  tickled_ : bool;
  previouseTime_ : Z }.

Definition TimerManager_new (now : Z) : TimerManager := mkTM ∅ [] false now.

Definition next_of (h : gmap Z Timer) (p : Z) : Z := from_option next_ 0 (h !! p).

(** [Timer::Comparator::operator()]; the null pointer is address 0. *)
Definition Comparator (h : gmap Z Timer) (lhs rhs : Z) : bool :=
  if (lhs =? 0) && (rhs =? 0) then false
  else if lhs =? 0 then true
  else if rhs =? 0 then false
  else if next_of h lhs <? next_of h rhs then true
  else if next_of h rhs <? next_of h lhs then false
  else lhs <? rhs.

(** [Timer::cancel]; erasing [end()] is undefined. *)
Definition cancel (p : Z) (s : TimerManager) : outcome (TimerManager * bool) :=
  match heap_ s !! p with
  | None => Undefined
  | Some t =>
      match cb_ t with
      | None => Ret (s, false)
      | Some _ =>
          let h := <[p := set_cb t None]> (heap_ s) in
          match set_erase_found (Comparator h) p (timers_ s) with
          | None => Undefined
          | Some l => Ret (mkTM h l (tickled_ s) (previouseTime_ s), true)
          end
      end
  end.

(** [Timer::refresh]. *)
Definition refresh (now : Z) (p : Z) (s : TimerManager) : outcome (TimerManager * bool) :=
  match heap_ s !! p with
  | None => Undefined
  | Some t =>
      match cb_ t with
      | None => Ret (s, false)
      | Some _ =>
          match set_erase_found (Comparator (heap_ s)) p (timers_ s) with
          | None => Ret (s, false)
          | Some l =>
              let h := <[p := set_next t (u64 (now + ms_ t))]> (heap_ s) in
              Ret (mkTM h (set_insert (Comparator h) p l).1 (tickled_ s) (previouseTime_ s), true)
          end
      end
  end.

(** [TimerManager::addTimer(val, lock)]; the second component says whether
    [onTimerInsertedAtFront] is called. *)
Definition addTimer_locked (p : Z) (s : TimerManager) : TimerManager * bool :=
  let '(l, it) := set_insert (Comparator (heap_ s)) p (timers_ s) in
  let at_front := bool_decide (head l = Some it) && negb (tickled_ s) in
  (mkTM (heap_ s) l (if at_front then true else tickled_ s) (previouseTime_ s), at_front).

(** [Timer::reset]: the state, the result, and whether
    [onTimerInsertedAtFront] is called. *)
Definition reset (now : Z) (p ms : Z) (from_now : bool) (s : TimerManager) :
    outcome (TimerManager * bool * bool) :=
  match heap_ s !! p with
  | None => Undefined
  | Some t =>
      if (ms_ t =? ms) && negb from_now then Ret (s, true, false)
      else match cb_ t with
      | None => Ret (s, false, false)
      | Some _ =>
          match set_erase_found (Comparator (heap_ s)) p (timers_ s) with
          | None => Ret (s, false, false)
          | Some l =>
              let start := if from_now then now else u64 (next_ t - ms) in
              let t' := mkTimer (recurring_ t) ms (u64 (start + ms)) (cb_ t) in
              let '(s', front) := addTimer_locked p
                (mkTM (<[p := t']> (heap_ s)) l (tickled_ s) (previouseTime_ s)) in
              Ret (s', true, front)
          end
      end
  end.

(** [TimerManager::addTimer(ms, cb, recurring)]; [p] is the address of the
    new object. *)
Definition addTimer (now p ms : Z) (cb : option callback) (recurring : bool)
    (s : TimerManager) : TimerManager * bool :=
  addTimer_locked p
    (mkTM (<[p := Timer_new now ms cb recurring]> (heap_ s)) (timers_ s)
          (tickled_ s) (previouseTime_ s)).

(** [TimerManager::addConditionTimer]: what is stored is never empty. *)
Definition addConditionTimer (now p ms : Z) (cb : option F) (weak_cond : W)
    (recurring : bool) (s : TimerManager) : TimerManager * bool :=
  addTimer now p ms (Some (OnTimer weak_cond cb)) recurring s.

(** [TimerManager::getNextTimer]. *)
Definition getNextTimer (now : Z) (s : TimerManager) : TimerManager * Z :=
  (mkTM (heap_ s) (timers_ s) false (previouseTime_ s),
   match timers_ s with
   | [] => u64_max
   | p :: _ => let next := next_of (heap_ s) p in
               if next <=? now then 0 else u64 (next - now)
   end).

(** [TimerManager::detectClockRollover]: the result and the new
    [previouseTime_]. *)
Definition detectClockRollover (now prev : Z) : bool * Z :=
  ((now <? prev) && (now <? u64 (prev - 60 * 60 * 1000)), now).

(** The loop of [listExpiredCb] over the erased timers. *)
Fixpoint fire (now : Z) (expired : list Z) (h : gmap Z Timer) (l : list Z)
    (cbs : list (option callback)) : gmap Z Timer * list Z * list (option callback) :=
  match expired with
  | [] => (h, l, cbs)
  | p :: rest =>
      match h !! p with
      | None => fire now rest h l cbs
      | Some t =>
          if recurring_ t
          then let h' := <[p := set_next t (u64 (now + ms_ t))]> h in
               fire now rest h' (set_insert (Comparator h') p l).1 (cbs ++ [cb_ t])
          else fire now rest (<[p := set_cb t None]> h) l (cbs ++ [cb_ t])
      end
  end.

(** [TimerManager::listExpiredCb]; [q] is the address of the probe object,
    [cbs] the vector passed in. *)
Definition listExpiredCb (now q : Z) (s : TimerManager) (cbs : list (option callback)) :
    TimerManager * list (option callback) :=
  match timers_ s with
  | [] => (s, cbs)
  | first :: _ =>
      let '(rollover, prev) := detectClockRollover now (previouseTime_ s) in
      if negb rollover && (now <? next_of (heap_ s) first)
      then (mkTM (heap_ s) (timers_ s) (tickled_ s) prev, cbs)
      else
        let h := <[q := Timer_at now]> (heap_ s) in
        let before := if rollover then timers_ s
                      else before_bound (Comparator h) q (timers_ s) in
        let it := if rollover then [] else lower_bound (Comparator h) q (timers_ s) in
        let equal := λ p, next_of (heap_ s) p =? now in
        let expired := before ++ take_while equal it in
        let '(h', l', cbs') := fire now expired (heap_ s) (drop_while equal it) cbs in
        (mkTM h' l' (tickled_ s) prev, cbs')
  end.

(** [TimerManager::hasTimer]. *)
Definition hasTimer (s : TimerManager) : bool := negb (bool_decide (timers_ s = [])).
End Timer.
Arguments callback : clear implicits.
Arguments Timer : clear implicits.
Arguments TimerManager : clear implicits.

Section TimerLaws.
Context {F W : Type}.
Implicit Types (s : TimerManager F W) (h : gmap Z (Timer F W)) (t : Timer F W) (p q : Z).

Lemma Comparator_spec h p q :
  Comparator h p q = true ↔
    q ≠ 0 ∧ (p = 0 ∨ next_of h p < next_of h q ∨ next_of h p = next_of h q ∧ p < q).
Proof. unfold Comparator. repeat case_step; split; intros; lia. Qed.

Lemma Comparator_spec_false h p q :
  Comparator h p q = false ↔
    ¬ (q ≠ 0 ∧ (p = 0 ∨ next_of h p < next_of h q ∨ next_of h p = next_of h q ∧ p < q)).
Proof. by rewrite <-not_true_iff_false, Comparator_spec. Qed.

#[global] Instance Comparator_strict h : StrictTotal (λ _, True) (Comparator h).
Proof.
  split; intros *; rewrite ?Comparator_spec_false, ?Comparator_spec; lia.
Qed.

Lemma Comparator_agree h h' p q :
  next_of h p = next_of h' p → next_of h q = next_of h' q →
  Comparator h p q = Comparator h' p q.
Proof. intros Hp Hq. unfold Comparator. by rewrite Hp, Hq. Qed.

Lemma sorted_agree h h' l :
  (∀ p, p ∈ l → next_of h p = next_of h' p) →
  sorted (Comparator h) l → sorted (Comparator h') l.
Proof. intros Ha. apply sorted_ext. intros x y Hx Hy. by rewrite (Comparator_agree h h') by auto. Qed.

Lemma next_of_insert h p t : next_of (<[p := t]> h) p = next_ t.
Proof. unfold next_of. by rewrite lookup_insert_eq. Qed.
Lemma next_of_insert_ne h p q t : p ≠ q → next_of (<[p := t]> h) q = next_of h q.
Proof. intros. unfold next_of. by rewrite lookup_insert_ne. Qed.

Lemma sorted_insert h p t l :
  (p ∉ l) → sorted (Comparator h) l → sorted (Comparator (<[p := t]> h)) l.
Proof.
  intros Hp. apply sorted_agree. intros q Hq.
  rewrite next_of_insert_ne; [done|]. by intros ->.
Qed.

(** The timers that still hold a callback: what the manager has promised to
    run, whatever the layout of its set. *)
Definition pending s : gmap Z (Timer F W) := filter (λ pt, is_Some (cb_ pt.2)) (heap_ s).

Lemma pending_Some s p t : pending s !! p = Some t ↔ heap_ s !! p = Some t ∧ is_Some (cb_ t).
Proof. unfold pending. by rewrite map_lookup_filter_Some. Qed.

Lemma pending_ext s' m :
  (∀ p t, heap_ s' !! p = Some t ∧ is_Some (cb_ t) ↔ m !! p = Some t) → pending s' = m.
Proof. intros H. apply map_eq. intros p. apply option_eq. intros t. by rewrite pending_Some. Qed.

(** The invariant of the manager: the set is sorted by its own comparator, it
    holds exactly the timers with a callback, addresses are not null and the
    times are 64-bit. *)
Record tm_wf s : Prop := mk_wf {
  wf_sorted : sorted (Comparator (heap_ s)) (timers_ s);
  wf_live : ∀ p, p ∈ timers_ s ↔ is_Some (pending s !! p);
  wf_range : ∀ p t, heap_ s !! p = Some t → 0 < p ∧ 0 ≤ next_ t < 2 ^ 64 ∧ 0 ≤ ms_ t < 2 ^ 64 }.

Lemma live_timer s p : tm_wf s → p ∈ timers_ s ↔ ∃ t, heap_ s !! p = Some t ∧ is_Some (cb_ t).
Proof.
  intros Hwf. rewrite (wf_live s Hwf). unfold is_Some at 1. by setoid_rewrite pending_Some.
Qed.

Lemma live_nonzero s p : tm_wf s → p ∈ timers_ s → p ≠ 0.
Proof.
  intros Hwf (t&Ht&_)%(live_timer s p Hwf).
  destruct (wf_range s Hwf _ _ Ht). lia.
Qed.

Lemma Forall_True {A} (l : list A) : Forall (λ _, True) l.
Proof. by apply Forall_true. Qed.
#[local] Hint Resolve Forall_True : sylar.

(** Erasing a live timer from the set. *)
Lemma erase_live s p t h :
  tm_wf s → heap_ s !! p = Some t → is_Some (cb_ t) →
  (∀ q, q ∈ timers_ s → next_of h q = next_of (heap_ s) q) →
  ∃ l, set_erase_found (Comparator h) p (timers_ s) = Some l ∧
       sorted (Comparator h) l ∧ (p ∉ l) ∧ ∀ q, q ∈ l ↔ q ∈ timers_ s ∧ q ≠ p.
Proof.
  intros Hwf Ht Hcb Ha.
  assert (Hin : p ∈ timers_ s) by (apply live_timer; eauto).
  destruct (set_erase_found_present (P := λ _, True) (lt := Comparator h) p (timers_ s))
    as (l&He&Hs&Hl); [|auto with sylar|done|].
  - apply (sorted_agree (heap_ s)); [by intros; rewrite Ha|apply Hwf].
  - exists l. split; [done|]. split; [done|]. split; [|done]. rewrite Hl. tauto.
Qed.

Lemma wf_insert h l p t tick prev :
  sorted (Comparator (<[p := t]> h)) l → (p ∉ l) → is_Some (cb_ t) →
  (∀ q, q ∈ l ↔ q ≠ p ∧ ∃ t, h !! q = Some t ∧ is_Some (cb_ t)) →
  (∀ q t, h !! q = Some t → 0 < q ∧ 0 ≤ next_ t < 2 ^ 64 ∧ 0 ≤ ms_ t < 2 ^ 64) →
  0 < p → 0 ≤ next_ t < 2 ^ 64 → 0 ≤ ms_ t < 2 ^ 64 →
  ∃ l', set_insert (Comparator (<[p := t]> h)) p l = (l', p) ∧
        tm_wf (mkTM (<[p := t]> h) l' tick prev).
Proof.
  intros Hs Hp Hcb Hl Hr ???.
  destruct (set_insert_fresh (P := λ _, True) p l Hs) as (l'&Hi&Hs'&Hl'); auto with sylar.
  exists l'. split; [done|]. split; cbn; [done| |].
  - intros q. rewrite Hl', Hl. unfold is_Some at 2. setoid_rewrite pending_Some. cbn.
    destruct (decide (q = p)) as [->|].
    + rewrite lookup_insert_eq. naive_solver.
    + rewrite lookup_insert_ne by done. naive_solver.
  - intros q t'. destruct (decide (q = p)) as [->|].
    + rewrite lookup_insert_eq. naive_solver.
    + rewrite lookup_insert_ne by done. apply Hr.
Qed.

Lemma pending_insert s h p t l tick prev :
  heap_ s = h → is_Some (cb_ t) →
  pending (mkTM (<[p := t]> h) l tick prev) = <[p := t]> (pending s).
Proof.
  intros <- Hcb. apply pending_ext. intros q t'. cbn.
  destruct (decide (q = p)) as [->|].
  - rewrite !lookup_insert_eq. naive_solver.
  - rewrite !lookup_insert_ne by done. by rewrite pending_Some.
Qed.

Lemma next_of_agree h p t t' q :
  h !! p = Some t' → next_ t = next_ t' → next_of (<[p := t]> h) q = next_of h q.
Proof.
  intros Hp Hn. destruct (decide (p = q)) as [<-|]; [|by apply next_of_insert_ne].
  rewrite next_of_insert. unfold next_of. by rewrite Hp.
Qed.

(** *** cancel *)
Lemma cancel_live s p t :
  tm_wf s → pending s !! p = Some t →
  ∃ s', cancel p s = Ret (s', true) ∧ tm_wf s' ∧ pending s' = delete p (pending s).
Proof.
  intros Hwf (Ht&Hcb)%pending_Some.
  set (h := <[p := set_cb t None]> (heap_ s)).
  destruct (erase_live s p t h) as (l&He&Hs&Hp&Hl); [done..| |].
  { intros q _. by apply (next_of_agree _ _ _ t). }
  exists (mkTM h l (tickled_ s) (previouseTime_ s)).
  assert (Hpd : pending (mkTM h l (tickled_ s) (previouseTime_ s)) = delete p (pending s)).
  { apply pending_ext. intros q t'. cbn. unfold h.
    destruct (decide (q = p)) as [->|].
    - rewrite lookup_insert_eq, lookup_delete_eq. split; [|done].
      intros [[= <-] [? ?]]. done.
    - rewrite lookup_insert_ne, lookup_delete_ne by done. by rewrite pending_Some. }
  split; [|split; [|done]].
  - unfold cancel. rewrite Ht. destruct Hcb as [c Hc]. rewrite Hc. fold h. by rewrite He.
  - split; cbn; [done| |].
    + intros q. rewrite Hpd, Hl, (wf_live s Hwf).
      destruct (decide (q = p)) as [->|].
      * rewrite lookup_delete_eq. split; [naive_solver|]. by intros [? ?].
      * rewrite lookup_delete_ne by done. tauto.
    + intros q t'. unfold h. destruct (decide (q = p)) as [->|].
      * rewrite lookup_insert_eq. intros [= <-]. cbn. by apply (wf_range s Hwf).
      * rewrite lookup_insert_ne by done. apply (wf_range s Hwf).
Qed.

Lemma cancel_dead s p t :
  heap_ s !! p = Some t → cb_ t = None → cancel p s = Ret (s, false).
Proof. intros Ht Hc. unfold cancel. by rewrite Ht, Hc. Qed.

(** Re-inserting a live timer under a new time: the common part of [refresh]
    and [reset]. *)
Lemma rearm_live s p t t' :
  tm_wf s → pending s !! p = Some t → is_Some (cb_ t') →
  0 ≤ next_ t' < 2 ^ 64 → 0 ≤ ms_ t' < 2 ^ 64 →
  ∃ l l', set_erase_found (Comparator (heap_ s)) p (timers_ s) = Some l ∧
    set_insert (Comparator (<[p := t']> (heap_ s))) p l = (l', p) ∧
    (∀ tick prev, tm_wf (mkTM (<[p := t']> (heap_ s)) l' tick prev)).
Proof.
  intros Hwf (Ht&Hcb)%pending_Some Hcb' Hn Hm.
  destruct (erase_live s p t (heap_ s)) as (l&He&Hs&Hp&Hl); [done..|].
  destruct (wf_range s Hwf _ _ Ht) as [Hp0 _].
  destruct (wf_insert (heap_ s) l p t' false 0) as (l'&Hi&_);
    [by apply sorted_insert|done|done| |apply Hwf|lia|done|done|].
  { intros q. rewrite Hl. split; intros [? ?]; split; try done; by apply live_timer. }
  exists l, l'. split; [done|]. split; [done|]. intros tick prev.
  destruct (wf_insert (heap_ s) l p t' tick prev) as (l2&Hi2&Hwf2);
    [by apply sorted_insert|done|done| |apply Hwf|lia|done|done|].
  { intros q. rewrite Hl. split; intros [? ?]; split; try done; by apply live_timer. }
  rewrite Hi in Hi2. by injection Hi2 as ->.
Qed.

Lemma refresh_live s p t now :
  tm_wf s → pending s !! p = Some t →
  ∃ s', refresh now p s = Ret (s', true) ∧ tm_wf s' ∧
        pending s' = <[p := set_next t (u64 (now + ms_ t))]> (pending s).
Proof.
  intros Hwf Hpd. pose proof (proj1 (pending_Some _ _ _) Hpd) as [Ht [c Hc]].
  destruct (wf_range s Hwf _ _ Ht) as (_&_&Hm).
  destruct (rearm_live s p t (set_next t (u64 (now + ms_ t)))) as (l&l'&He&Hi&Hw);
    [done..|by exists c|apply u64_range|done|].
  eexists. split; [|split].
  - unfold refresh. by rewrite Ht, Hc, He, Hi.
  - apply Hw.
  - apply pending_insert; [done|by exists c].
Qed.

Lemma addTimer_locked_heap s p l :
  set_insert (Comparator (heap_ s)) p (timers_ s) = (l, p) →
  ∃ tick front, addTimer_locked p s = (mkTM (heap_ s) l tick (previouseTime_ s), front) ∧
    front = bool_decide (head l = Some p) && negb (tickled_ s) ∧
    tick = (front || tickled_ s).
Proof.
  intros Hi. unfold addTimer_locked. rewrite Hi. do 2 eexists. split; [done|].
  split; [done|]. by destruct (_ && _).
Qed.

Lemma reset_live s p t now ms from_now :
  tm_wf s → pending s !! p = Some t → 0 ≤ ms < 2 ^ 64 →
  ∃ s' front, reset now p ms from_now s = Ret (s', true, front) ∧ tm_wf s' ∧
    pending s' = <[p := mkTimer (recurring_ t) ms
                        (if from_now then u64 (now + ms) else next_ t) (cb_ t)]> (pending s).
Proof.
  intros Hwf Hpd Hm. pose proof (proj1 (pending_Some _ _ _) Hpd) as [Ht [c Hc]].
  destruct (wf_range s Hwf _ _ Ht) as (_&Hn&_).
  assert (Hkeep : u64 (u64 (next_ t - ms) + ms) = next_ t) by solve_int.
  unfold reset. rewrite Ht. destruct (_ && _) eqn:Esame.
  - exists s, false. split; [done|]. split; [done|].
    apply andb_true_iff in Esame as [<-%Z.eqb_eq Efn].
    destruct from_now; [done|]. destruct t; cbn. by rewrite insert_id.
  - rewrite Hc. set (start := if from_now then now else u64 (next_ t - ms)).
    set (t' := mkTimer (recurring_ t) ms (u64 (start + ms)) (Some c)).
    destruct (rearm_live s p t t') as (l&l'&He&Hi&Hw); [done|done|done|apply u64_range|done|].
    rewrite He.
    destruct (addTimer_locked_heap (mkTM (<[p:=t']> (heap_ s)) l (tickled_ s) (previouseTime_ s))
      p l' Hi) as (tick&front&Ha&_).
    cbn in Ha. rewrite Ha. do 2 eexists. split; [done|]. split; [apply Hw|].
    rewrite (pending_insert s) by done. unfold t', start.
    by destruct from_now; rewrite ?Hkeep, ?Hc.
Qed.

(** *** addTimer *)
Lemma addTimer_fresh s now p ms c recurring :
  tm_wf s → heap_ s !! p = None → 0 < p → 0 ≤ ms < 2 ^ 64 →
  ∃ s' front, addTimer now p ms (Some c) recurring s = (s', front) ∧ tm_wf s' ∧
    pending s' = <[p := Timer_new now ms (Some c) recurring]> (pending s) ∧
    front = bool_decide (head (timers_ s') = Some p) && negb (tickled_ s) ∧
    tickled_ s' = (front || tickled_ s).
Proof.
  intros Hwf Hp Hp0 Hm. set (t := Timer_new now ms (Some c) recurring).
  assert (Hnin : p ∉ timers_ s) by (rewrite (live_timer s p Hwf); naive_solver).
  destruct (wf_insert (heap_ s) (timers_ s) p t false 0) as (l'&Hi&_);
    [apply sorted_insert; [done|apply Hwf]|done|done| |apply Hwf|done|apply u64_range|done|].
  { intros q. rewrite <-(live_timer s q Hwf). naive_solver. }
  destruct (addTimer_locked_heap (mkTM (<[p:=t]> (heap_ s)) (timers_ s) (tickled_ s) (previouseTime_ s))
      p l' Hi) as (tick&front&Ha&Hf&Htick).
  unfold addTimer. fold t. rewrite Ha. do 2 eexists. split; [done|]. cbn in *.
  split; [|split; [by apply pending_insert|done]].
  destruct (wf_insert (heap_ s) (timers_ s) p t tick (previouseTime_ s)) as (l2&Hi2&Hw);
    [apply sorted_insert; [done|apply Hwf]|done|done| |apply Hwf|done|apply u64_range|done|].
  { intros q. rewrite <-(live_timer s q Hwf). naive_solver. }
  rewrite Hi in Hi2. by injection Hi2 as ->.
Qed.

(** *** listExpiredCb *)

(** What firing at [now] leaves of a timer object. *)
Definition fired (now : Z) t : Timer F W :=
  if recurring_ t then set_next t (u64 (now + ms_ t)) else set_cb t None.

(** One turn of the loop of [listExpiredCb]. *)
Lemma fire_cons now p rest h l cbs t :
  h !! p = Some t → sorted (Comparator h) l → (p ∉ l) →
  ∃ l1, fire now (p :: rest) h l cbs =
          fire now rest (<[p := fired now t]> h) l1 (cbs ++ [cb_ t]) ∧
        sorted (Comparator (<[p := fired now t]> h)) l1 ∧
        ∀ q, q ∈ l1 ↔ q ∈ l ∨ (q = p ∧ recurring_ t = true).
Proof.
  intros Ht Hs Hp. cbn. rewrite Ht. unfold fired. destruct (recurring_ t) eqn:Erec.
  - destruct (set_insert_fresh (P := λ _, True)
      (lt := Comparator (<[p:=set_next t (u64 (now + ms_ t))]> h)) p l)
      as (l1&Hi&Hs1&Hl1); [by apply sorted_insert|auto with sylar..|done|].
    exists l1. rewrite Hi. split; [done|]. split; [done|]. intros q. rewrite Hl1. tauto.
  - exists l. split; [done|]. split; [by apply sorted_insert|]. intros q.
    split; [tauto|]. by intros [|[_ ?]].
Qed.

Lemma fire_spec now expired h l cbs h' l' cbs' :
  fire now expired h l cbs = (h', l', cbs') →
  NoDup expired → sorted (Comparator h) l →
  (∀ p, p ∈ expired → is_Some (h !! p) ∧ (p ∉ l)) →
  sorted (Comparator h') l' ∧
  (∀ p, p ∈ l' ↔ p ∈ l ∨ p ∈ expired ∧ ∃ t, h !! p = Some t ∧ recurring_ t = true) ∧
  (∀ p, h' !! p = if decide (p ∈ expired) then fired now <$> h !! p else h !! p) ∧
  cbs' = cbs ++ map (λ p, h !! p ≫= cb_) expired.
Proof.
  revert h l cbs. induction expired as [|p rest IH]; intros h l cbs Hf Hnd Hs Hin.
  { injection Hf as <- <- <-. cbn. rewrite app_nil_r. split_and!; [done| | |done].
    - intros p. split; [tauto|]. intros [?|[[]%elem_of_nil _]]; done.
    - intros p. by rewrite decide_False by (intros []%elem_of_nil). }
  apply NoDup_cons in Hnd as [Hp Hnd].
  destruct (Hin p (list_elem_of_here _ _)) as [[t Ht] Hpl].
  destruct (fire_cons now p rest h l cbs t Ht Hs Hpl) as (l1&Hcons&Hs1&Hl1).
  rewrite Hcons in Hf. clear Hcons.
  assert (Hlk : ∀ q, q ≠ p → <[p := fired now t]> h !! q = h !! q)
    by (intros; by rewrite lookup_insert_ne).
  assert (Hne : ∀ q, q ∈ rest → q ≠ p) by (by intros q Hq ->).
  apply IH in Hf as (H1&H2&H3&->); [|done|done|].
  2:{ intros q Hq. rewrite Hl1, Hlk by auto.
      destruct (Hin q (list_elem_of_further _ _ _ Hq)). split; [done|].
      intros [?|[-> _]]; auto. }
  split; [done|]. split; [|split].
  - intros q. rewrite H2, Hl1, elem_of_cons.
    destruct (decide (q = p)) as [->|Hqp]; [|rewrite Hlk by done; tauto].
    split; [intros [[?|[_ ?]]|[? _]]; eauto 10; done|].
    intros [?|[_ (t'&Ht'&?)]]; [eauto|]. rewrite Ht in Ht'. injection Ht' as <-. auto.
  - intros q. rewrite H3. destruct (decide (q = p)) as [->|Hqp].
    + rewrite decide_False, decide_True, lookup_insert_eq, Ht; [done|by left|done].
    + rewrite Hlk by done. apply decide_ext. rewrite elem_of_cons. tauto.
  - cbn. rewrite <-app_assoc, Ht. cbn. do 2 f_equal. apply map_ext_in.
    intros q Hq%list_elem_of_In. by rewrite Hlk by auto.
Qed.

(** Is the timer due at [now]?  After a clock rollover every timer is. *)
Definition due (rollover : bool) (now : Z) t : bool := rollover || (next_ t <=? now).

(** What expiry at [now] promises: due timers leave, recurring ones at their
    next time, the others stay untouched. *)
Definition expire_spec (d : Timer F W → bool) (now : Z) (m : gmap Z (Timer F W)) :
    gmap Z (Timer F W) :=
  omap (λ t, if d t then if recurring_ t then Some (fired now t) else None else Some t) m.

(** The callbacks of the due timers of the set, in its order. *)
Definition due_callbacks (d : Timer F W → bool) s : list (option (callback F W)) :=
  map (λ p, heap_ s !! p ≫= cb_)
      (filter (λ p, from_option d false (heap_ s !! p) = true) (timers_ s)).

Lemma fired_range now t :
  0 ≤ next_ t < 2 ^ 64 → 0 ≤ ms_ t < 2 ^ 64 →
  0 ≤ next_ (fired now t) < 2 ^ 64 ∧ 0 ≤ ms_ (fired now t) < 2 ^ 64.
Proof.
  intros. unfold fired. pose proof (u64_range (now + ms_ t)).
  destruct (recurring_ t); cbn; auto.
Qed.

Lemma fired_pending now t : is_Some (cb_ t) → is_Some (cb_ (fired now t)) ↔ recurring_ t = true.
Proof.
  intros Hcb. unfold fired. destruct (recurring_ t); cbn; [done|].
  split; [|done]. by intros [? ?].
Qed.

Lemma due_callbacks_app (d : Timer F W → bool) s expired rest :
  timers_ s = expired ++ rest →
  (∀ p, p ∈ expired → ∃ t, heap_ s !! p = Some t ∧ d t = true) →
  (∀ p, p ∈ rest → ∃ t, heap_ s !! p = Some t ∧ d t = false) →
  due_callbacks d s = map (λ p, heap_ s !! p ≫= cb_) expired.
Proof.
  intros Hl Hexp Hrest. unfold due_callbacks. f_equal. rewrite Hl, filter_app.
  rewrite list_filter_all, list_filter_none, app_nil_r; [done| |].
  - apply Forall_forall. intros p (t&Ht&Hd)%Hrest. rewrite Ht. cbn. by rewrite Hd.
  - apply Forall_forall. intros p (t&Ht&Hd)%Hexp. by rewrite Ht.
Qed.

(** What [fire] does to the pending timers, from what it does to the heap. *)
Lemma fire_pending (d : Timer F W → bool) now s (expired rest : list Z) h' l' tick prev :
  (∀ p, p ∈ expired ∨ p ∈ rest ↔ is_Some (pending s !! p)) →
  (∀ p, p ∈ expired → ∃ t, heap_ s !! p = Some t ∧ d t = true) →
  (∀ p, p ∈ rest → ∃ t, heap_ s !! p = Some t ∧ d t = false) →
  (∀ p, h' !! p = if decide (p ∈ expired) then fired now <$> heap_ s !! p else heap_ s !! p) →
  pending (mkTM h' l' tick prev) = expire_spec d now (pending s).
Proof.
  intros Hin Hexp Hrest Hh'. apply pending_ext. intros p t'. cbn. unfold expire_spec.
  rewrite lookup_omap, Hh', bind_Some. setoid_rewrite pending_Some. case_decide as Hp.
  - destruct (Hexp p Hp) as (t&Ht&Hd). rewrite Ht. cbn.
    assert (Hcb : is_Some (cb_ t)).
    { assert (Hp' : is_Some (pending s !! p)) by (apply Hin; auto).
      destruct Hp' as [t2 [Ht2 ?]%pending_Some]. rewrite Ht in Ht2. by injection Ht2 as <-. }
    pose proof (fired_pending now t Hcb) as Hfp. split.
    + intros [[= <-] Hc]. exists t. apply Hfp in Hc as Hr. by rewrite Hd, Hr.
    + intros (t2&[[= <-] _]&Hres). rewrite Hd in Hres.
      destruct (recurring_ t); [|done]. injection Hres as <-. split; [done|]. by apply Hfp.
  - assert (Hkept : ∀ t, heap_ s !! p = Some t → is_Some (cb_ t) → d t = false).
    { intros t Ht Hc. assert (p ∈ rest) as (t2&Ht2&Hd)%Hrest.
      { destruct (proj2 (Hin p)); [|done..]. exists t. by apply pending_Some. }
      rewrite Ht in Ht2. by injection Ht2 as <-. }
    split.
    + intros [Ht Hc]. exists t'. by rewrite Hkept.
    + intros (t&[Ht Hc]&Hres). rewrite Hkept in Hres by done. by injection Hres as <-.
Qed.

(** The set holds the pending timers again. *)
Lemma fire_live (d : Timer F W → bool) now s (expired rest l' : list Z) :
  (∀ p, p ∈ expired ∨ p ∈ rest ↔ is_Some (pending s !! p)) → (∀ p, p ∈ expired → p ∉ rest) →
  (∀ p, p ∈ expired → ∃ t, heap_ s !! p = Some t ∧ d t = true) →
  (∀ p, p ∈ rest → ∃ t, heap_ s !! p = Some t ∧ d t = false) →
  (∀ p, p ∈ l' ↔ p ∈ rest ∨ p ∈ expired ∧ ∃ t, heap_ s !! p = Some t ∧ recurring_ t = true) →
  ∀ p, p ∈ l' ↔ is_Some (expire_spec d now (pending s) !! p).
Proof.
  intros Hin Hdisj Hexp Hrest Hl' p. unfold expire_spec. rewrite lookup_omap, Hl'.
  destruct (pending s !! p) as [t|] eqn:Ep.
  - assert (Ht : heap_ s !! p = Some t) by (by apply pending_Some in Ep as [? _]).
    cbn. destruct (proj2 (Hin p)) as [Hp|Hp]; [by rewrite Ep| |].
    + destruct (Hexp p Hp) as (t2&Ht2&Hd). rewrite Ht in Ht2. injection Ht2 as <-.
      rewrite Hd. split.
      * intros [Hp2|(_&t2&Ht2&Hr)]; [by destruct (Hdisj p Hp)|].
        rewrite Ht in Ht2. injection Ht2 as <-. by rewrite Hr.
      * intros Hr. right. split; [done|]. exists t. split; [done|].
        destruct (recurring_ t); [done|]. by destruct Hr.
    + destruct (Hrest p Hp) as (t2&Ht2&Hd). rewrite Ht in Ht2. injection Ht2 as <-.
      rewrite Hd. split; [done|]. by left.
  - cbn. split; [|by intros [? ?]]. intros [Hp|[Hp _]]; exfalso;
      eapply (is_Some_None (A := Timer F W)); rewrite <-Ep; apply Hin; auto.
Qed.

Lemma fire_refines (d : Timer F W → bool) now s expired rest cbs h' l' cbs' tick prev :
  tm_wf s → timers_ s = expired ++ rest →
  (∀ p, p ∈ expired → ∃ t, heap_ s !! p = Some t ∧ d t = true) →
  (∀ p, p ∈ rest → ∃ t, heap_ s !! p = Some t ∧ d t = false) →
  fire now expired (heap_ s) rest cbs = (h', l', cbs') →
  tm_wf (mkTM h' l' tick prev) ∧
  pending (mkTM h' l' tick prev) = expire_spec d now (pending s) ∧
  cbs' = cbs ++ due_callbacks d s.
Proof.
  intros Hwf Hl Hexp Hrest Hf. rewrite (due_callbacks_app _ _ _ _ Hl Hexp Hrest).
  pose proof (wf_sorted s Hwf) as Hs.
  pose proof (sorted_NoDup (P := λ _, True) _ Hs) as Hnd.
  rewrite Hl in Hs, Hnd. apply (sorted_app (P := λ _, True)) in Hs as (_&Hs&_).
  apply NoDup_app in Hnd as (Hnd&Hdisj&_).
  assert (Hin : ∀ p, p ∈ expired ∨ p ∈ rest ↔ is_Some (pending s !! p)).
  { intros p. by rewrite <-(wf_live s Hwf), Hl, elem_of_app. }
  destruct (fire_spec _ _ _ _ _ _ _ _ Hf Hnd Hs) as (Hs'&Hl'&Hh'&->).
  { intros p Hp. split; [|by apply Hdisj]. destruct (Hexp p Hp) as (t&->&_). done. }
  pose proof (fire_pending d now s expired rest h' l' tick prev Hin Hexp Hrest Hh') as Hpd.
  split; [|done]. split; cbn; [done| |].
  - intros p. rewrite Hpd. by apply (fire_live d now s expired rest l').
  - intros p t'. rewrite Hh'. case_decide; [|apply Hwf].
    intros (t&Ht&->)%fmap_Some. destruct (wf_range s Hwf _ _ Ht) as (?&?&?).
    split; [done|]. by apply fired_range.
Qed.

(** The bound of the probe splits the set at [now]: [upper_bound] in effect,
    wherever the probe's address falls among the equal ones. *)
Lemma probe_split now q s :
  tm_wf s → 0 < q → heap_ s !! q = None →
  let h := <[q := Timer_at now]> (heap_ s) in
  let equal := λ p, next_of (heap_ s) p =? now in
  let it := lower_bound (Comparator h) q (timers_ s) in
  (∀ p, p ∈ before_bound (Comparator h) q (timers_ s) ++ take_while equal it →
        next_of (heap_ s) p ≤ now) ∧
  (∀ p, p ∈ drop_while equal it → now < next_of (heap_ s) p).
Proof.
  intros Hwf Hq Hqn h equal it.
  assert (Hh : ∀ p, p ∈ timers_ s → next_of h p = next_of (heap_ s) p).
  { intros p Hp. apply next_of_insert_ne. intros ->.
    apply live_timer in Hp as (t&Ht&_); [|done]. congruence. }
  assert (Hs : sorted (Comparator h) (timers_ s)).
  { apply (sorted_agree (heap_ s)); [|apply Hwf]. intros; by rewrite Hh. }
  assert (Hqq : next_of h q = now) by apply next_of_insert.
  assert (Hit : ∀ p, p ∈ it → p ∈ timers_ s ∧ now ≤ next_of (heap_ s) p).
  { intros p [Hp Hc]%(elem_of_bound (P := λ _, True) _ _ _ Hs). split; [done|].
    apply Comparator_spec_false in Hc. rewrite Hqq, Hh in Hc by done. lia. }
  split.
  - intros p [Hp|Hp]%elem_of_app.
    + pose proof (before_bound_lt (lt := Comparator h) q (timers_ s)) as Hb.
      rewrite Forall_forall in Hb. specialize (Hb p Hp).
      assert (Hpt : p ∈ timers_ s).
      { rewrite <-(bound_split (lt := Comparator h) q). apply elem_of_app; auto. }
      pose proof (live_nonzero s p Hwf Hpt).
      apply Comparator_spec in Hb. rewrite Hqq, Hh in Hb by done. lia.
    + pose proof (take_while_Forall equal it) as Hf. rewrite Forall_forall in Hf.
      apply Hf, Z.eqb_eq in Hp. lia.
  - assert (Hsit : sorted (Comparator h) (drop_while equal it)).
    { rewrite <-(bound_split (lt := Comparator h) q) in Hs.
      apply (sorted_app (P := λ _, True)) in Hs as (_&Hs&_). fold it in Hs.
      rewrite <-(take_drop_while equal it) in Hs.
      by apply (sorted_app (P := λ _, True)) in Hs as (_&Hs&_). }
    assert (Hsub : ∀ p, p ∈ drop_while equal it → p ∈ it).
    { intros p Hp. rewrite <-(take_drop_while equal it). apply elem_of_app; auto. }
    destruct (drop_while equal it) as [|z r] eqn:E; [intros p []%elem_of_nil|].
    destruct (Hit z (Hsub z (list_elem_of_here _ _))) as [Hz Hzn].
    assert (next_of (heap_ s) z ≠ now) by (apply drop_while_head in E; by apply Z.eqb_neq).
    intros p Hp. destruct (Hit p (Hsub p Hp)) as [Hp' _].
    apply elem_of_cons in Hp as [->|Hp]; [lia|].
    apply Sorted.StronglySorted_inv in Hsit as [_ Hf]. rewrite Forall_forall in Hf.
    specialize (Hf p Hp). apply Comparator_spec in Hf. rewrite !Hh in Hf by done.
    pose proof (live_nonzero s z Hwf Hz). lia.
Qed.

(** The timers of the set that are due once the first one is. *)
Lemma head_not_due s first rest now :
  tm_wf s → timers_ s = first :: rest → now < next_of (heap_ s) first →
  ∀ p, p ∈ timers_ s → now < next_of (heap_ s) p.
Proof.
  intros Hwf Hl Hn p Hp. pose proof (wf_sorted s Hwf) as Hs. rewrite Hl in Hs, Hp.
  apply elem_of_cons in Hp as [->|Hp]; [done|].
  apply Sorted.StronglySorted_inv in Hs as [_ Hf]. rewrite Forall_forall in Hf.
  specialize (Hf p Hp). apply Comparator_spec in Hf.
  assert (first ≠ 0) by (apply (live_nonzero s); [done|rewrite Hl; by left]). lia.
Qed.

(** [listExpiredCb] does what [expire_spec] says, in every state. *)
Lemma listExpiredCb_refines now q s cbs s' cbs' :
  tm_wf s → 0 < q → heap_ s !! q = None →
  listExpiredCb now q s cbs = (s', cbs') →
  let d := due (detectClockRollover now (previouseTime_ s)).1 now in
  tm_wf s' ∧ pending s' = expire_spec d now (pending s) ∧ cbs' = cbs ++ due_callbacks d s.
Proof.
  intros Hwf Hq Hqn Hrun d. unfold listExpiredCb in Hrun.
  assert (Hlive : ∀ p, p ∈ timers_ s →
    ∃ t, heap_ s !! p = Some t ∧ next_of (heap_ s) p = next_ t).
  { intros p (t&Ht&_)%(live_timer s p Hwf). exists t. unfold next_of. by rewrite Ht. }
  destruct (timers_ s) as [|first rest] eqn:El.
  { injection Hrun as <- <-.
    destruct (fire_refines d now s [] [] cbs (heap_ s) [] cbs (tickled_ s) (previouseTime_ s))
      as (?&Hpd&?); [done|done|intros p []%elem_of_nil..|done|].
    destruct s; cbn in *; subst. auto. }
  rewrite <-El in *.
  destruct (detectClockRollover now (previouseTime_ s)) as [roll prev] eqn:Er. cbn in d.
  destruct (negb roll && (now <? next_of (heap_ s) first)) eqn:Efirst.
  - injection Hrun as <- <-. apply andb_true_iff in Efirst as [Hroll Hn].
    apply negb_true_iff in Hroll. apply Z.ltb_lt in Hn.
    apply (fire_refines d now s [] (timers_ s)); [done|done|intros p []%elem_of_nil| |done].
    { intros p Hp. pose proof (head_not_due _ _ _ _ Hwf El Hn p Hp).
      destruct (Hlive p Hp) as (t&Ht&Hne). exists t. split; [done|].
      unfold d, due. rewrite Hroll. cbn. lia. }
  - set (h := <[q := Timer_at now]> (heap_ s)) in Hrun.
    set (equal := λ p, next_of (heap_ s) p =? now) in Hrun.
    destruct (fire now _ _ _ _) as [[h' l'] cbs2] eqn:Ef. injection Hrun as <- <-.
    refine (fire_refines d now s _ _ cbs h' l' cbs2 _ _ Hwf _ _ _ Ef).
    + destruct roll; [cbn; by rewrite app_nil_r, app_nil_r|].
      by rewrite <-app_assoc, take_drop_while, bound_split.
    + intros p Hp. destruct roll.
      * rewrite app_nil_r in Hp. destruct (Hlive p Hp) as (t&Ht&_). by exists t.
      * destruct (probe_split now q s Hwf Hq Hqn) as [Hle _].
        pose proof (Hle p Hp) as Hpn.
        assert (p ∈ timers_ s) as (t&Ht&Hne)%Hlive.
        { rewrite <-(bound_split (lt := Comparator h) q).
          apply elem_of_app in Hp as [Hp|Hp]; apply elem_of_app; [auto|].
          right. rewrite <-(take_drop_while equal). apply elem_of_app; auto. }
        exists t. split; [done|]. unfold d, due. cbn. lia.
    + intros p Hp. destruct roll; [by apply elem_of_nil in Hp|].
      destruct (probe_split now q s Hwf Hq Hqn) as [_ Hgt].
      pose proof (Hgt p Hp) as Hpn.
      assert (p ∈ timers_ s) as (t&Ht&Hne)%Hlive.
      { rewrite <-(bound_split (lt := Comparator h) q). apply elem_of_app. right.
        rewrite <-(take_drop_while equal). apply elem_of_app; auto. }
      exists t. split; [done|]. unfold d, due. cbn. lia.
Qed.
End TimerLaws.

(** ** The manager's contract

    The abstract state is the map of pending timers and the time of the last
    expiry scan; [spec_step] says what each method promises on it.  Nothing of
    the set, of its comparator or of the probe appears. *)
Section Contract.
Context {F W : Type}.
Implicit Types (s : TimerManager F W) (m : gmap Z (Timer F W)).

Inductive op : Type :=
  | OpAdd (p ms : Z) (c : callback F W) (recurring : bool)
  | OpCancel (p : Z)
  | OpRefresh (p : Z)
  | OpReset (p ms : Z) (from_now : bool)
  | OpNext
  | OpExpire (q : Z).

Inductive result : Type :=
  | RUnit
  | RBool (b : bool)
  | RTime (t : Z)
  | RCbs (l : list (option (callback F W))).

(** A method call at clock reading [now]. *)
Definition run_op (now : Z) (o : op) s : outcome (TimerManager F W * result) :=
  match o with
  | OpAdd p ms c r => Ret ((addTimer now p ms (Some c) r s).1, RUnit)
  | OpCancel p => '(s', b) ← cancel p s; Ret (s', RBool b)
  | OpRefresh p => '(s', b) ← refresh now p s; Ret (s', RBool b)
  | OpReset p ms fn => '(s', b, _) ← reset now p ms fn s; Ret (s', RBool b)
  | OpNext => let '(s', t) := getNextTimer now s in Ret (s', RTime t)
  | OpExpire q => let '(s', l) := listExpiredCb now q s [] in Ret (s', RCbs l)
  end.

(** What a caller guarantees: a new object has a new address, a method is
    called on an object that exists, and periods are 64-bit. *)
Definition op_ok (o : op) s : Prop :=
  match o with
  | OpAdd p ms _ _ => heap_ s !! p = None ∧ 0 < p ∧ 0 ≤ ms < 2 ^ 64
  | OpCancel p | OpRefresh p => is_Some (heap_ s !! p)
  | OpReset p ms _ => is_Some (heap_ s !! p) ∧ 0 ≤ ms < 2 ^ 64
  | OpNext => True
  | OpExpire q => heap_ s !! q = None ∧ 0 < q
  end.

(** The remaining time [getNextTimer] promises. *)
Definition next_spec (now : Z) m (r : Z) : Prop :=
  (m = ∅ ∧ r = u64_max) ∨
  ∃ p t, m !! p = Some t ∧ (∀ q t', m !! q = Some t' → next_ t ≤ next_ t') ∧
         r = Z.max 0 (next_ t - now).

(** The callbacks of the timers of [m] that are due, in some order. *)
Definition due_in (d : Timer F W → bool) m : list (option (callback F W)) :=
  (λ pt, cb_ pt.2) <$> filter (λ pt, d pt.2 = true) (map_to_list m).

Inductive spec_step (now : Z) : gmap Z (Timer F W) * Z → op → result →
    gmap Z (Timer F W) * Z → Prop :=
  | spec_add m prev p ms c r :
      spec_step now (m, prev) (OpAdd p ms c r) RUnit
        (<[p := Timer_new now ms (Some c) r]> m, prev)
  | spec_cancel m prev p :
      spec_step now (m, prev) (OpCancel p) (RBool (bool_decide (is_Some (m !! p))))
        (delete p m, prev)
  | spec_refresh m prev p t :
      m !! p = Some t →
      spec_step now (m, prev) (OpRefresh p) (RBool true)
        (<[p := set_next t (u64 (now + ms_ t))]> m, prev)
  | spec_refresh_dead m prev p :
      m !! p = None → spec_step now (m, prev) (OpRefresh p) (RBool false) (m, prev)
  | spec_reset m prev p ms fn t :
      m !! p = Some t →
      spec_step now (m, prev) (OpReset p ms fn) (RBool true)
        (<[p := mkTimer (recurring_ t) ms (if fn then u64 (now + ms) else next_ t) (cb_ t)]> m,
         prev)
  | spec_reset_dead m prev p ms fn b :
      m !! p = None → (b = true → fn = false) →
      spec_step now (m, prev) (OpReset p ms fn) (RBool b) (m, prev)
  | spec_next m prev r :
      next_spec now m r → spec_step now (m, prev) OpNext (RTime r) (m, prev)
  | spec_expire m prev q l :
      let d := due (detectClockRollover now prev).1 now in
      l ≡ₚ due_in d m →
      spec_step now (m, prev) (OpExpire q) (RCbs l)
        (expire_spec d now m, if decide (m = ∅) then prev else now).

Definition abs s : gmap Z (Timer F W) * Z := (pending s, previouseTime_ s).

Lemma timers_keys s : tm_wf s → timers_ s ≡ₚ (map_to_list (pending s)).*1.
Proof.
  intros Hwf. apply NoDup_Permutation.
  - eapply (sorted_NoDup (P := λ _, True)), Hwf.
  - apply NoDup_fst_map_to_list.
  - intros p. rewrite (wf_live s Hwf), list_elem_of_fmap. split.
    + intros [t Ht]. exists (p, t). split; [done|]. by apply elem_of_map_to_list.
    + intros ([p' t]&->&Ht%elem_of_map_to_list). by exists t.
Qed.

Lemma due_callbacks_perm d s : tm_wf s → due_callbacks d s ≡ₚ due_in d (pending s).
Proof.
  intros Hwf. unfold due_callbacks, due_in. rewrite (timers_keys s Hwf).
  assert (Hin : ∀ pt, pt ∈ map_to_list (pending s) → heap_ s !! pt.1 = Some pt.2).
  { intros [p t] Ht%elem_of_map_to_list. by apply pending_Some in Ht as [? _]. }
  induction (map_to_list (pending s)) as [|[p t] l IH]; [done|].
  pose proof (Hin (p, t) (list_elem_of_here _ _)) as Hp. cbn in Hp.
  rewrite fmap_cons, !filter_cons. cbn. rewrite Hp. cbn.
  specialize (IH ltac:(intros; apply Hin; by right)).
  case_decide; cbn; [|done]. rewrite Hp. by f_equiv.
Qed.

Lemma getNextTimer_spec now s : tm_wf s → 0 ≤ now → next_spec now (pending s) (getNextTimer now s).2.
Proof.
  intros Hwf Hnow. unfold getNextTimer, next_spec. cbn.
  destruct (timers_ s) as [|first rest] eqn:El.
  - left. split; [|done]. apply map_eq. intros p. rewrite lookup_empty.
    destruct (pending s !! p) eqn:Ep; [|done].
    assert (p ∈ timers_ s) as Hp by (apply wf_live; [done|by rewrite Ep]).
    rewrite El in Hp. by apply elem_of_nil in Hp.
  - right. assert (first ∈ timers_ s) as Hf by (rewrite El; by left).
    pose proof Hf as (t&Ht&Hc)%(live_timer s first Hwf).
    exists first, t. split; [by apply pending_Some|]. unfold next_of. rewrite Ht. cbn. split.
    + intros q t' Hq. assert (q ∈ timers_ s) as Hqin by (apply wf_live; [done|by rewrite Hq]).
      apply pending_Some in Hq as [Hq _].
      destruct (decide (next_ t ≤ next_ t')) as [|Hlt]; [done|]. exfalso.
      pose proof (head_not_due s first rest (next_ t - 1) Hwf El) as Hh.
      unfold next_of in Hh at 1. rewrite Ht in Hh. cbn in Hh.
      specialize (Hh ltac:(lia) q Hqin). unfold next_of in Hh. rewrite Hq in Hh. cbn in Hh. lia.
    + destruct (wf_range s Hwf _ _ Ht) as (_&Hn&_).
      destruct (next_ t <=? now) eqn:E; [lia|]. rewrite u64_small by lia. lia.
Qed.

Lemma filter_sorted_le (h : gmap Z (Timer F W)) (P : Z → Prop) `{∀ p, Decision (P p)} l :
  (∀ p, p ∈ l → p ≠ 0) → sorted (Comparator h) l →
  ∀ i j p p', (i < j)%nat → filter P l !! i = Some p → filter P l !! j = Some p' →
              next_of h p ≤ next_of h p'.
Proof.
  intros Hnz Hs. assert (Hsf : sorted (Comparator h) (filter P l)).
  { induction l as [|x l IH]; [done|]. apply Sorted.StronglySorted_inv in Hs as [Hs Hf].
    rewrite filter_cons. case_decide; [|apply IH; set_solver].
    constructor; [apply IH; set_solver|]. rewrite Forall_forall in Hf |- *.
    intros y [_ Hy]%list_elem_of_filter. auto. }
  assert (Hnz' : ∀ p, p ∈ filter P l → p ≠ 0) by (intros p [_ ?]%list_elem_of_filter; auto).
  clear Hnz Hs. induction Hsf as [|x l' Hsf IH Hf]; [done|].
  intros [|i] [|j] p p' Hij Hi Hj; [lia| |lia|].
  - injection Hi as <-. cbn in Hj. apply list_elem_of_lookup_2 in Hj as Hin.
    rewrite Forall_forall in Hf. specialize (Hf p' Hin).
    apply Comparator_spec in Hf.
    pose proof (Hnz' x (list_elem_of_here _ _)). lia.
  - apply (IH ltac:(intros; apply Hnz'; by right) i j); [lia|done..].
Qed.

Lemma reset_dead s p t now ms fn :
  heap_ s !! p = Some t → cb_ t = None →
  ∃ b, reset now p ms fn s = Ret (s, b, false) ∧ (b = true → fn = false).
Proof.
  intros Ht Hc. unfold reset. rewrite Ht. destruct (_ && _) eqn:E.
  - exists true. split; [done|]. intros _. apply andb_true_iff in E as [_ E]. by destruct fn.
  - exists false. by rewrite Hc.
Qed.

Lemma not_pending s p t : heap_ s !! p = Some t → pending s !! p = None → cb_ t = None.
Proof.
  intros Ht Hp. destruct (cb_ t) eqn:E; [|done].
  assert (pending s !! p = Some t) by (apply pending_Some; split; [done|by rewrite E]). congruence.
Qed.

Lemma pending_heap s p t : pending s !! p = Some t → heap_ s !! p = Some t.
Proof. by intros [? _]%pending_Some. Qed.

Lemma cancel_prev p s s' b : cancel p s = Ret (s', b) → previouseTime_ s' = previouseTime_ s.
Proof. unfold cancel. intros H. repeat case_step_in H; by inv_ret. Qed.
Lemma refresh_prev now p s s' b :
  refresh now p s = Ret (s', b) → previouseTime_ s' = previouseTime_ s.
Proof. unfold refresh. intros H. repeat case_step_in H; by inv_ret. Qed.
Lemma addTimer_locked_prev p s : previouseTime_ (addTimer_locked p s).1 = previouseTime_ s.
Proof. unfold addTimer_locked. by destruct (set_insert _ _ _). Qed.
Lemma reset_prev now p ms fn s s' b f :
  reset now p ms fn s = Ret (s', b, f) → previouseTime_ s' = previouseTime_ s.
Proof.
  unfold reset. intros H. repeat case_step_in H; inv_ret; try done.
  all: match goal with Ha : addTimer_locked _ _ = _ |- _ =>
    apply (f_equal fst) in Ha; cbn in Ha; rewrite <-Ha end.
  all: by rewrite addTimer_locked_prev.
Qed.
Lemma timers_nil s : tm_wf s → timers_ s = [] ↔ pending s = ∅.
Proof.
  intros Hwf. split; intros H.
  - apply map_eq. intros p. rewrite lookup_empty. destruct (pending s !! p) eqn:E; [|done].
    assert (p ∈ timers_ s) as Hp by (apply wf_live; [done|by rewrite E]).
    rewrite H in Hp. by apply elem_of_nil in Hp.
  - destruct (timers_ s) as [|p l] eqn:E; [done|].
    assert (is_Some (pending s !! p)) as [t Ht] by (apply wf_live; [done|rewrite E; by left]).
    by rewrite H, lookup_empty in Ht.
Qed.
Lemma listExpiredCb_prev now q s cbs :
  tm_wf s → previouseTime_ (listExpiredCb now q s cbs).1 =
            if decide (pending s = ∅) then previouseTime_ s else now.
Proof.
  intros Hwf. pose proof (timers_nil s Hwf) as Hnil. unfold listExpiredCb, detectClockRollover.
  destruct (timers_ s) as [|first rest] eqn:E.
  - rewrite decide_True; [done|by apply Hnil].
  - rewrite decide_False by (by intros ?%Hnil). case_step; [done|].
    by destruct (fire _ _ _ _ _) as [[??]?].
Qed.

(** Forward simulation: each method, called as it may be, comes back, keeps
    the invariant and does what its contract says. *)
Lemma run_op_simulates now o s :
  tm_wf s → 0 ≤ now → op_ok o s →
  ∃ s' r, run_op now o s = Ret (s', r) ∧ tm_wf s' ∧ spec_step now (abs s) o r (abs s').
Proof.
  intros Hwf Hnow Hok. unfold abs. destruct o as [p ms c r|p|p|p ms fn| |q]; cbn in Hok |- *.
  - destruct Hok as (Hp&Hp0&Hm).
    destruct (addTimer_fresh s now p ms c r Hwf Hp Hp0 Hm) as (s'&front&Ha&Hw&Hpd&_).
    do 2 eexists. split; [done|]. rewrite Ha. split; [done|]. cbn. rewrite Hpd.
    replace (previouseTime_ s') with (previouseTime_ s); [constructor|].
    apply (f_equal fst) in Ha. cbn in Ha. rewrite <-Ha. unfold addTimer.
    by rewrite addTimer_locked_prev.
  - destruct Hok as [t Ht]. destruct (pending s !! p) as [t'|] eqn:Hp.
    + destruct (cancel_live s p t' Hwf Hp) as (s'&Hc&Hw&Hpd).
      exists s', (RBool (bool_decide (is_Some (pending s !! p)))).
      rewrite Hc, Hpd, (cancel_prev _ _ _ _ Hc). split; [by rewrite Hp|].
      split; [done|constructor].
    + rewrite (cancel_dead s p t) by (eauto using not_pending).
      exists s, (RBool (bool_decide (is_Some (pending s !! p)))).
      split; [by rewrite Hp|]. split; [done|].
      pose proof (spec_cancel now (pending s) (previouseTime_ s) p) as Hs.
      by rewrite (delete_id (pending s) p Hp) in Hs.
  - destruct Hok as [t Ht]. destruct (pending s !! p) as [t'|] eqn:Hp.
    + destruct (refresh_live s p t' now Hwf Hp) as (s'&Hc&Hw&Hpd).
      do 2 eexists. rewrite Hc. split; [done|]. split; [done|].
      rewrite Hpd, (refresh_prev _ _ _ _ _ Hc). by constructor.
    + assert (Hd : refresh now p s = Ret (s, false)).
      { unfold refresh. by rewrite Ht, (not_pending s p t). }
      rewrite Hd. do 2 eexists. split; [done|]. split; [done|]. by constructor.
  - destruct Hok as [[t Ht] Hm]. destruct (pending s !! p) as [t'|] eqn:Hp.
    + destruct (reset_live s p t' now ms fn Hwf Hp Hm) as (s'&front&Hc&Hw&Hpd).
      do 2 eexists. rewrite Hc. split; [done|]. split; [done|].
      rewrite Hpd, (reset_prev _ _ _ _ _ _ _ _ Hc). by constructor.
    + destruct (reset_dead s p t now ms fn Ht) as (b&Hr&Hb); [by apply (not_pending s p)|].
      rewrite Hr. do 2 eexists. split; [done|]. split; [done|]. by constructor.
  - do 2 eexists. split; [done|]. split; [by destruct Hwf; split|].
    apply (spec_next now (pending s) (previouseTime_ s)). by apply getNextTimer_spec.
  - destruct Hok as [Hq Hq0]. destruct (listExpiredCb now q s []) as [s' l] eqn:Hr.
    pose proof (listExpiredCb_refines now q s [] s' l Hwf Hq0 Hq Hr) as (Hw&Hpd&Hl).
    do 2 eexists. split; [done|]. split; [done|].
    pose proof (listExpiredCb_prev now q s [] Hwf) as Hprev. rewrite Hr in Hprev. cbn in Hprev.
    rewrite Hpd, Hprev. apply spec_expire. rewrite Hl. by apply due_callbacks_perm.
Qed.

(** Calls in the order their critical sections run, with their clock
    readings; [None] when one of them has no result. *)
Fixpoint run_ops (l : list (Z * op)) s : outcome (TimerManager F W * list result) :=
  match l with
  | [] => Ret (s, [])
  | (now, o) :: l' =>
      '(s1, r) ← run_op now o s; '(s2, rs) ← run_ops l' s1; Ret (s2, r :: rs)
  end.

(** The calls are allowed, one after the other. *)
Fixpoint ops_ok (l : list (Z * op)) s : Prop :=
  match l with
  | [] => True
  | (now, o) :: l' =>
      0 ≤ now ∧ op_ok o s ∧
      match run_op now o s with Ret (s1, _) => ops_ok l' s1 | _ => True end
  end.

#[global] Instance op_ok_dec o s : Decision (op_ok o s).
Proof. destruct o; apply _. Defined.

#[global] Instance ops_ok_dec l s : Decision (ops_ok l s).
Proof.
  revert s. induction l as [|[now o] l IH]; intros s; cbn; [apply _|].
  apply and_dec; [apply _|]. apply and_dec; [apply _|].
  destruct (run_op now o s) as [[s1 r]| | |]; [apply IH|apply _..].
Defined.

Inductive spec_steps : gmap Z (Timer F W) * Z → list (Z * op) → list result →
    gmap Z (Timer F W) * Z → Prop :=
  | spec_done a : spec_steps a [] [] a
  | spec_more a now o r a1 l rs a2 :
      spec_step now a o r a1 → spec_steps a1 l rs a2 →
      spec_steps a ((now, o) :: l) (r :: rs) a2.

Lemma TimerManager_new_wf now : tm_wf (TimerManager_new now : TimerManager F W).
Proof.
  split; cbn; [constructor| |].
  - intros p. split; [by intros ?%elem_of_nil|]. intros [t [Ht _]%pending_Some]. done.
  - intros p t Ht. done.
Qed.
End Contract.
Arguments op : clear implicits.
Arguments result : clear implicits.

(** ** Properties *)

(** C1: any sequence of timer calls on a new manager - add, cancel, refresh,
    reset, next-timeout query and expiry scan, in the order their critical
    sections run - returns without undefined behaviour, keeps the set sorted by
    its own comparator and equal to the timers that still hold a callback, and
    each call returns and does exactly what the abstract timer map promises. *)
Theorem timer_manager_refines {F W} (start : Z) (l : list (Z * op F W)) :
  ops_ok l (TimerManager_new start) →
  ∃ s rs, run_ops l (TimerManager_new start) = Ret (s, rs) ∧ tm_wf s ∧
          spec_steps (∅, start) l rs (abs s).
Proof.
  change (∅, start) with (abs (TimerManager_new start : TimerManager F W)).
  generalize (TimerManager_new_wf (F := F) (W := W) start).
  generalize (TimerManager_new start : TimerManager F W) as s0.
  induction l as [|[now o] l IH]; intros s0 Hwf Hok.
  - exists s0, []. split; [done|]. split; [done|constructor].
  - destruct Hok as (Hnow&Hok&Hrest).
    destruct (run_op_simulates now o s0 Hwf Hnow Hok) as (s1&r&Hr&Hw1&Hstep).
    rewrite Hr in Hrest. destruct (IH s1 Hw1 Hrest) as (s2&rs&Hrs&Hw2&Hsteps).
    exists s2, (r :: rs). cbn. rewrite Hr. cbn. rewrite Hrs. split; [done|].
    split; [done|]. by econstructor.
Qed.

Lemma timer_manager_refines_witness :
  let l : list (Z * op nat nat) :=
    [(100, OpAdd 8 50 (Fun 1%nat) false); (110, OpAdd 16 10 (OnTimer 5%nat (Some 2%nat)) true);
     (112, OpReset 8 30 true); (120, OpExpire 24); (125, OpCancel 8); (126, OpNext)] in
  ops_ok l (TimerManager_new 0) ∧
  ∃ s rs, run_ops l (TimerManager_new 0) = Ret (s, rs) ∧ tm_wf s ∧ spec_steps (∅, 0) l rs (abs s).
Proof.
  intros l. assert (Hok : ops_ok l (TimerManager_new 0)).
  { apply (bool_decide_unpack _). vm_compute. exact I. }
  split; [exact Hok|]. exact (timer_manager_refines 0 l Hok).
Defined.

(** C19: [listExpiredCb] hands the callbacks out in deadline order: they are
    those of the timers due at the scan (all of them after a clock rollover),
    listed so that an earlier one never has a later deadline, and afterwards a
    due one-shot timer is gone while a due recurring one waits for its next
    period. *)
Theorem listExpiredCb_deadline_order {F W} now q (s s' : TimerManager F W) cbs :
  tm_wf s → 0 < q → heap_ s !! q = None →
  listExpiredCb now q s [] = (s', cbs) →
  let d := due (detectClockRollover now (previouseTime_ s)).1 now in
  ∃ ps, cbs = map (λ p, heap_ s !! p ≫= cb_) ps ∧
        (∀ p, p ∈ ps ↔ ∃ t, pending s !! p = Some t ∧ d t = true) ∧
        (∀ i j p p', (i < j)%nat → ps !! i = Some p → ps !! j = Some p' →
                     next_of (heap_ s) p ≤ next_of (heap_ s) p') ∧
        (∀ p t, pending s !! p = Some t →
           pending s' !! p = if d t then if recurring_ t then Some (fired now t) else None
                             else Some t).
Proof.
  intros Hwf Hq Hqn Hr d.
  destruct (listExpiredCb_refines now q s [] s' cbs Hwf Hq Hqn Hr) as (_&Hpd&->).
  fold d in Hpd |- *. clearbody d.
  exists (filter (λ p, from_option d false (heap_ s !! p) = true) (timers_ s)).
  split; [done|]. split; [|split].
  - intros p. rewrite list_elem_of_filter, (wf_live s Hwf). split.
    + intros [Hd [t Ht]]. pose proof (pending_heap _ _ _ Ht) as Hh. rewrite Hh in Hd. by exists t.
    + intros (t&Ht&Hd). pose proof (pending_heap _ _ _ Ht) as Hh. rewrite Hh, Ht. done.
  - apply (filter_sorted_le (heap_ s)); [|apply Hwf]. intros p Hp. by apply (live_nonzero s).
  - intros p t Ht. rewrite Hpd. unfold expire_spec. rewrite lookup_omap, Ht. cbn.
    by destruct (d t), (recurring_ t).
Qed.

Lemma listExpiredCb_deadline_order_witness :
  let s := (addTimer 0 8 30 (Some (Fun 1%nat)) true
             (addTimer 0 16 20 (Some (Fun 2%nat)) false
                (TimerManager_new 0 : TimerManager nat nat)).1).1 in
  (listExpiredCb 40 24 s []).2 = [Some (Fun 2%nat); Some (Fun 1%nat)] ∧
  ∃ ps, (listExpiredCb 40 24 s []).2 = map (λ p, heap_ s !! p ≫= cb_) ps ∧
    (∀ i j p p', (i < j)%nat → ps !! i = Some p → ps !! j = Some p' →
                 next_of (heap_ s) p ≤ next_of (heap_ s) p').
Proof.
  intros s. split; [reflexivity|].
  assert (Hwf : tm_wf s).
  { destruct (addTimer_fresh (TimerManager_new 0 : TimerManager nat nat) 0 16 20 (Fun 2%nat) false)
      as (s1&f1&E1&H1&_); [apply TimerManager_new_wf|done..|].
    unfold s. rewrite E1.
    destruct (addTimer_fresh s1 0 8 30 (Fun 1%nat) true) as (s2&f2&E2&H2&_);
      [done| |done..|by cbn; rewrite E2].
    apply (f_equal fst) in E1. cbn in E1. by subst s1. }
  destruct (listExpiredCb 40 24 s []) as [s' cbs] eqn:E.
  destruct (listExpiredCb_deadline_order 40 24 s s' cbs Hwf eq_refl eq_refl E)
    as (ps&Hps&_&Hord&_).
  exists ps. split; [exact Hps|exact Hord].
Defined.

(** [Timer::reset(ms, false)] on a pending timer stores the new period but
    leaves the deadline where it was, whatever the period: the start is computed
    from the new period, not from the one the deadline was set with. *)
Theorem reset_keeps_deadline {F W} (s : TimerManager F W) p t now ms :
  tm_wf s → pending s !! p = Some t → 0 ≤ ms < 2 ^ 64 →
  ∃ s' front, reset now p ms false s = Ret (s', true, front) ∧ tm_wf s' ∧
    pending s' !! p = Some (mkTimer (recurring_ t) ms (next_ t) (cb_ t)) ∧
    ∀ q, q ≠ p → pending s' !! q = pending s !! q.
Proof.
  intros Hwf Hp Hm. destruct (reset_live s p t now ms false Hwf Hp Hm) as (s'&front&Hr&Hw&Hpd).
  exists s', front. split; [done|]. split; [done|]. rewrite Hpd. split.
  - by rewrite lookup_insert_eq.
  - intros q Hq. by rewrite lookup_insert_ne.
Qed.

Lemma reset_keeps_deadline_witness :
  let s := (addTimer 1000 8 500 (Some (Fun 1%nat)) true (TimerManager_new 0 : TimerManager nat nat)).1 in
  ∃ s' front, reset 1100 8 20 false s = Ret (s', true, front) ∧
    pending s' !! 8 = Some (mkTimer true 20 1500 (Some (Fun 1%nat))).
Proof.
  intros s. destruct (addTimer_fresh (TimerManager_new 0 : TimerManager nat nat) 1000 8 500 (Fun 1%nat) true)
    as (s1&f1&E1&H1&_); [apply TimerManager_new_wf|done..|].
  assert (Hs : s = s1) by (unfold s; by rewrite E1).
  destruct (reset_keeps_deadline s 8 (mkTimer true 500 1500 (Some (Fun 1%nat))) 1100 20)
    as (s'&front&Hr&_&Hp&_); [by rewrite Hs|reflexivity|done|].
  exists s', front. split; [exact Hr|exact Hp].
Defined.
