(* ===== verification/FdManager.v ===== *)
(** * File-descriptor contexts: fd_manager.h, fd_manager.cpp

    [FdCtx] objects are shared: the manager's vector and every caller hold the
    same object, so they live in a store indexed by address and the vector
    holds addresses.  [FdManager::get] runs as two critical sections, which are
    two definitions, so that other calls can be placed between them. *)
From S2P Require Import Prelude.

(** [O_NONBLOCK] and the two timeout options of <sys/socket.h>. *)
Definition O_NONBLOCK : Z := 2048.
Definition SO_RCVTIMEO : Z := 20.
Definition SO_SNDTIMEO : Z := 21.

Record FdCtx : Type := mkFdCtx {
  isInit_ : bool;
  isSocket_ : bool;
  sysNonblock_ : bool;
  userNonblock_ : bool;
  isClosed_ : bool;
  fd_ : Z;
  recvTimeout_ : Z;
  sendTimeout_ : Z }.

#[export] Instance FdCtx_eq_dec : EqDecision FdCtx.
Proof. solve_decision. Defined.

Definition setUserNonblock (v : bool) (c : FdCtx) : FdCtx :=
  mkFdCtx (isInit_ c) (isSocket_ c) (sysNonblock_ c) v (isClosed_ c) (fd_ c)
          (recvTimeout_ c) (sendTimeout_ c).
Definition setSysNonblock (v : bool) (c : FdCtx) : FdCtx :=
  mkFdCtx (isInit_ c) (isSocket_ c) v (userNonblock_ c) (isClosed_ c) (fd_ c)
          (recvTimeout_ c) (sendTimeout_ c).

(** [FdCtx::setTimeout]: any type other than [SO_RCVTIMEO] is the send one. *)
Definition setTimeout (type v : Z) (c : FdCtx) : FdCtx :=
  if type =? SO_RCVTIMEO
  then mkFdCtx (isInit_ c) (isSocket_ c) (sysNonblock_ c) (userNonblock_ c) (isClosed_ c)
               (fd_ c) v (sendTimeout_ c)
  else mkFdCtx (isInit_ c) (isSocket_ c) (sysNonblock_ c) (userNonblock_ c) (isClosed_ c)
               (fd_ c) (recvTimeout_ c) v.

(** [FdCtx::getTimeout]. *)
Definition getTimeout (type : Z) (c : FdCtx) : Z :=
  if type =? SO_RCVTIMEO then recvTimeout_ c else sendTimeout_ c.

Section FdManager.
(** The operating system at the time of the call: [fstat] ([None] when it
    fails, else whether [S_ISSOCK]) and [fcntl(fd, F_GETFL, 0)]. *)
Context (fstat : Z → option bool) (getfl : Z → Z).

(** [FdCtx::FdCtx(fd)] with the body of [FdCtx::init], which the constructor
    calls on [isInit_ = false]; the second component lists the
    [fcntl(fd, F_SETFL, flags)] calls made. *)
Definition FdCtx_new (fd : Z) : FdCtx * list (Z * Z) :=
  let '(init, sock) := match fstat fd with
                       | None => (false, false)
                       | Some is_sock => (true, is_sock)
                       end in
  if sock : bool then
    let flags := getfl fd in
    (mkFdCtx init sock true false false fd u64_max u64_max,
     if Z.land flags O_NONBLOCK =? 0 then [(fd, Z.lor flags O_NONBLOCK)] else [])
  else (mkFdCtx init sock false false false fd u64_max u64_max, []).

(** [FdCtx::init] called again: only an uninitialised context changes. *)
Definition init (c : FdCtx) : FdCtx * list (Z * Z) * bool :=
  if isInit_ c then (c, [], true)
  else let '(c', calls) := FdCtx_new (fd_ c) in (c', calls, isInit_ c').

(** [ctxs_]: the objects, by address; [datas_]: the vector. *)
Record FdManager : Type := mkFdM {
  ctxs_ : gmap Z FdCtx;
  datas_ : list (option Z) }.

Definition FdManager_new : FdManager := mkFdM ∅ (replicate 64 None).

(** [(int)datas_.size()]. *)
Definition isize (m : FdManager) : Z := i32 (Z.of_nat (length (datas_ m))).

(** [datas_[fd]]; an index outside the vector is undefined. *)
Definition at_fd (m : FdManager) (fd : Z) : outcome (option Z) :=
  if fd <? 0 then Undefined
  else match datas_ m !! Z.to_nat fd with Some o => Ret o | None => Undefined end.

Inductive get_result : Type := Got (ctx : option Z) | MustCreate.

(** [FdManager::get] up to the release of the read lock. *)
Definition get_read (fd : Z) (auto_create : bool) (m : FdManager) : outcome get_result :=
  if fd =? -1 then Ret (Got None)
  else if isize m <=? fd then
    (if auto_create then Ret MustCreate else Ret (Got None))
  else
    o ← at_fd m fd;
    match o with
    | Some p => Ret (Got (Some p))
    | None => if auto_create then Ret MustCreate else Ret (Got None)
    end.

(** [FdManager::get] under the write lock; [p] is the address of the new
    context.  [fd * 1.5] truncates to [fd * 3 / 2]. *)
Definition get_create (fd p : Z) (m : FdManager) : outcome (FdManager * Z * list (Z * Z)) :=
  let '(ctx, calls) := FdCtx_new fd in
  let datas := if isize m <=? fd
               then resize (Z.to_nat (fd * 3 / 2)) None (datas_ m) else datas_ m in
  if (fd <? 0) || (Z.of_nat (length datas) <=? fd) then Undefined
  else Ret (mkFdM (<[p := ctx]> (ctxs_ m)) (<[Z.to_nat fd := Some p]> datas), p, calls).

(** [FdManager::get], nothing else running in between. *)
Definition get (fd : Z) (auto_create : bool) (p : Z) (m : FdManager) :
    outcome (FdManager * option Z * list (Z * Z)) :=
  r ← get_read fd auto_create m;
  match r with
  | Got o => Ret (m, o, [])
  | MustCreate => '(m', q, calls) ← get_create fd p m; Ret (m', Some q, calls)
  end.

(** [FdManager::del]. *)
Definition del (fd : Z) (m : FdManager) : outcome FdManager :=
  if isize m <=? fd then Ret m
  else _ ← at_fd m fd; Ret (mkFdM (ctxs_ m) (<[Z.to_nat fd := None]> (datas_ m))).

(** ** Laws *)

(** The context registered for a descriptor. *)
Definition ctx_of (m : FdManager) (fd : Z) : option Z :=
  if fd <? 0 then None else mjoin (datas_ m !! Z.to_nat fd).

(** The vector never shrinks below its initial 64 slots and its size is an
    [int]; the registered contexts exist, belong to their descriptor, and no
    context is registered twice. *)
Record fdm_wf (m : FdManager) : Prop := mk_fdm_wf {
  fdm_size : (64 ≤ length (datas_ m))%nat ∧ Z.of_nat (length (datas_ m)) < 2 ^ 31;
  fdm_ctx : ∀ fd p, ctx_of m fd = Some p → ∃ c, ctxs_ m !! p = Some c ∧ fd_ c = fd }.

Lemma FdManager_new_wf : fdm_wf FdManager_new.
Proof.
  split; [split; [by cbn|done]|]. intros fd p. unfold ctx_of. cbn [datas_ FdManager_new].
  case_step; [done|]. destruct (replicate 64 None !! Z.to_nat fd) as [o|] eqn:E; [|done].
  apply lookup_replicate in E as [-> _]. done.
Qed.

Lemma isize_eq m : fdm_wf m → isize m = Z.of_nat (length (datas_ m)).
Proof. intros [[? ?] _]. unfold isize. apply i32_small. lia. Qed.

(** A descriptor the kernel hands out: it fits the vector even after growing. *)
Definition fd_ok (fd : Z) : Prop := 0 ≤ fd < 2 ^ 30.

Lemma at_fd_in m fd : fd_ok fd → fdm_wf m → fd < isize m → at_fd m fd = Ret (ctx_of m fd).
Proof.
  intros [Hfd _] Hwf Hlt. rewrite isize_eq in Hlt by done. unfold at_fd, ctx_of.
  case_step; [lia|]. destruct (lookup_lt_is_Some_2 (datas_ m) (Z.to_nat fd)) as [o Ho]; [lia|].
  by rewrite Ho.
Qed.

Lemma ctx_of_out m fd : fdm_wf m → isize m ≤ fd → ctx_of m fd = None.
Proof.
  intros Hwf Hle. rewrite isize_eq in Hle by done. unfold ctx_of. case_step; [done|].
  by rewrite lookup_ge_None_2 by lia.
Qed.

(** The read-locked half answers from the map, and asks for a creation exactly
    when there is nothing to answer and [auto_create] is set. *)
Lemma get_read_spec m fd auto :
  fdm_wf m → fd_ok fd ∨ fd = -1 →
  get_read fd auto m = Ret (match ctx_of m fd with
                            | Some p => Got (Some p)
                            | None => if auto && negb (fd =? -1) then MustCreate else Got None
                            end).
Proof.
  intros Hwf [Hfd| ->]; [|by rewrite andb_false_r].
  unfold get_read. destruct (fd =? -1) eqn:E; [destruct Hfd; lia|]. cbn. rewrite andb_true_r.
  destruct (isize m <=? fd) eqn:Es.
  - rewrite ctx_of_out by (done || lia). by destruct auto.
  - rewrite at_fd_in by (done || lia). cbn. by destruct (ctx_of m fd), auto.
Qed.

Lemma FdCtx_new_fd fd : fd_ (FdCtx_new fd).1 = fd.
Proof. unfold FdCtx_new. destruct (fstat fd) as [[]|]; done. Qed.

Lemma ctx_of_insert c datas fd fd' p :
  0 ≤ fd → (Z.to_nat fd < length datas)%nat →
  ctx_of (mkFdM c (<[Z.to_nat fd := p]> datas)) fd' =
  if decide (fd' = fd) then p else ctx_of (mkFdM c datas) fd'.
Proof.
  intros Hfd Hlt. unfold ctx_of. cbn. case_decide as Heq.
  - subst. case_step; [lia|]. by rewrite list_lookup_insert_eq.
  - case_step; [done|]. by rewrite list_lookup_insert_ne by lia.
Qed.

Lemma ctx_of_resize c datas n fd :
  (length datas ≤ n)%nat → ctx_of (mkFdM c (resize n None datas)) fd = ctx_of (mkFdM c datas) fd.
Proof.
  intros Hn. unfold ctx_of. cbn. case_step; [done|]. rewrite resize_ge by done.
  destruct (decide (Z.to_nat fd < length datas)%nat).
  - by rewrite lookup_app_l.
  - rewrite lookup_app_r, (lookup_ge_None_2 datas) by lia.
    destruct (replicate _ None !! _) as [o|] eqn:E; [|done].
    apply lookup_replicate in E as [-> _]. done.
Qed.

(** The write-locked half registers the new context, whatever was there, and
    leaves the other descriptors as they were. *)
Lemma get_create_spec m fd p :
  fdm_wf m → fd_ok fd → ctxs_ m !! p = None →
  ∃ m' calls, get_create fd p m = Ret (m', p, calls) ∧ fdm_wf m' ∧
    ctxs_ m' = <[p := (FdCtx_new fd).1]> (ctxs_ m) ∧
    (∀ fd', ctx_of m' fd' = if decide (fd' = fd) then Some p else ctx_of m fd').
Proof.
  intros Hwf [Hfd Hmax] Hp. pose proof (isize_eq m Hwf) as Hsz.
  destruct (fdm_size m Hwf) as [H64 Hint].
  set (datas := if isize m <=? fd then resize (Z.to_nat (fd * 3 / 2)) None (datas_ m)
                else datas_ m).
  assert (Hgrow : fd * 3 / 2 = fd + fd / 2) by (Z.div_mod_to_equations; lia).
  assert (Hlen : (64 ≤ length datas)%nat ∧ Z.of_nat (length datas) < 2 ^ 31 ∧
                 fd < Z.of_nat (length datas)).
  { unfold datas. destruct (isize m <=? fd) eqn:E; [|lia].
    rewrite length_resize, Hgrow. Z.div_mod_to_equations. lia. }
  assert (Hctx : ∀ c fd', ctx_of (mkFdM c datas) fd' = ctx_of m fd').
  { intros c fd'. unfold datas. destruct (isize m <=? fd) eqn:E; [|done].
    apply ctx_of_resize. rewrite Hgrow. Z.div_mod_to_equations. lia. }
  unfold get_create. destruct (FdCtx_new fd) as [ctx calls] eqn:Enew. fold datas.
  destruct (_ || _) eqn:Eb; [lia|]. do 2 eexists. split; [done|]. cbn.
  assert (Hof : ∀ fd', ctx_of (mkFdM (<[p:=ctx]> (ctxs_ m)) (<[Z.to_nat fd := Some p]> datas)) fd' =
    if decide (fd' = fd) then Some p else ctx_of m fd').
  { intros fd'. rewrite ctx_of_insert by lia. by rewrite Hctx. }
  split; [|done]. split; cbn.
  - rewrite length_insert. lia.
  - intros fd' q. rewrite Hof. case_decide as Heq.
    + intros [= <-]. exists ctx. rewrite lookup_insert_eq. split; [done|].
      pose proof (FdCtx_new_fd fd) as Hn. rewrite Enew in Hn. by subst.
    + intros Hq. destruct (fdm_ctx m Hwf fd' q Hq) as (c&Hc&?). exists c.
      rewrite lookup_insert_ne by congruence. done.
Qed.

Lemma get_spec m fd auto p :
  fdm_wf m → fd_ok fd ∨ fd = -1 → ctxs_ m !! p = None →
  ∃ m' r calls, get fd auto p m = Ret (m', r, calls) ∧ fdm_wf m' ∧
    r = (match ctx_of m fd with
         | Some q => Some q
         | None => if auto && negb (fd =? -1) then Some p else None
         end) ∧
    (∀ fd', ctx_of m' fd' = if decide (fd' = fd) then r else ctx_of m fd') ∧
    (∀ q, is_Some (ctxs_ m !! q) → ctxs_ m' !! q = ctxs_ m !! q).
Proof.
  intros Hwf Hfd Hp. unfold get. rewrite get_read_spec by done. cbn.
  destruct (ctx_of m fd) as [q|] eqn:Eq.
  - do 3 eexists. split; [done|]. split; [done|]. split; [done|]. split; [|done].
    intros fd'. case_decide; by subst.
  - destruct (auto && negb (fd =? -1)) eqn:Ea.
    + destruct Hfd as [Hfd| ->]; [|by rewrite andb_false_r in Ea].
      destruct (get_create_spec m fd p Hwf Hfd Hp) as (m'&calls&Hc&Hw&Hctxs&Hof).
      rewrite Hc. cbn. do 3 eexists. split; [done|]. split; [done|]. split; [done|].
      split; [done|]. intros q [c Hq]. rewrite Hctxs, lookup_insert_ne by congruence. done.
    + do 3 eexists. split; [done|]. split; [done|]. split; [done|]. split; [|done].
      intros fd'. case_decide; by subst.
Qed.

Lemma del_spec m fd :
  fdm_wf m → fd_ok fd →
  ∃ m', del fd m = Ret m' ∧ fdm_wf m' ∧ ctxs_ m' = ctxs_ m ∧
    ∀ fd', ctx_of m' fd' = if decide (fd' = fd) then None else ctx_of m fd'.
Proof.
  intros Hwf Hfd. unfold del. pose proof (isize_eq m Hwf) as Hsz.
  destruct (isize m <=? fd) eqn:E.
  - exists m. split; [done|]. split; [done|]. split; [done|]. intros fd'.
    case_decide; [|done]. subst. apply ctx_of_out; [done|lia].
  - rewrite at_fd_in by (done || lia). cbn. eexists. split; [done|].
    destruct Hfd as [Hfd _].
    assert (Hof : ∀ fd', ctx_of (mkFdM (ctxs_ m) (<[Z.to_nat fd:=None]> (datas_ m))) fd' =
      if decide (fd' = fd) then None else ctx_of m fd').
    { intros fd'. rewrite ctx_of_insert by lia. by destruct m. }
    split; [|done]. split; cbn; [rewrite length_insert; apply Hwf|].
    intros fd' q. rewrite Hof. case_decide; [done|]. apply Hwf.
Qed.
End FdManager.

(** ** Properties *)

(** C18: on descriptors the kernel can hand out, the manager is a finite map from
    descriptor to shared context: [get] returns the registered context, or
    registers and returns a new one exactly when there is none and
    [auto_create] is set; [del] unregisters; neither touches another
    descriptor, an existing context object - whose flags and timeouts stay as they
    are for whoever still holds it - or memory outside the vector. *)
Theorem fdmanager_is_map fstat getfl (m : FdManager) fd auto p :
  fdm_wf m → fd_ok fd → ctxs_ m !! p = None →
  (∃ m' r calls, get fstat getfl fd auto p m = Ret (m', r, calls) ∧ fdm_wf m' ∧
     r = (match ctx_of m fd with Some q => Some q | None => if auto then Some p else None end) ∧
     (∀ fd', ctx_of m' fd' = if decide (fd' = fd) then r else ctx_of m fd') ∧
     (∀ q, is_Some (ctxs_ m !! q) → ctxs_ m' !! q = ctxs_ m !! q)) ∧
  (∃ m', del fd m = Ret m' ∧ fdm_wf m' ∧ ctxs_ m' = ctxs_ m ∧
     ∀ fd', ctx_of m' fd' = if decide (fd' = fd) then None else ctx_of m fd').
Proof.
  intros Hwf Hfd Hp. split.
  - destruct (get_spec fstat getfl m fd auto p Hwf (or_introl Hfd) Hp)
      as (m'&r&calls&Hg&Hw&Hr&Hof&Hold).
    exists m', r, calls. destruct (fd =? -1) eqn:E; [destruct Hfd; lia|].
    rewrite andb_true_r in Hr. done.
  - exact (del_spec m fd Hwf Hfd).
Qed.

Lemma fdmanager_is_map_witness :
  let sock : Z → option bool := λ _, Some true in
  let nofl : Z → Z := λ _, 2 in
  ∃ m' r calls, get sock nofl 100 true 4096 FdManager_new = Ret (m', r, calls) ∧
    r = Some 4096 ∧ ctx_of m' 100 = Some 4096 ∧ ctx_of m' 7 = None.
Proof.
  intros sock nofl.
  destruct (fdmanager_is_map sock nofl FdManager_new 100 true 4096) as [(m'&r&calls&Hg&_&Hr&Hof&_) _];
    [apply FdManager_new_wf|split; reflexivity || discriminate|reflexivity|].
  exists m', r, calls. split; [exact Hg|]. split; [exact Hr|]. rewrite !Hof. subst r.
  split; reflexivity.
Defined.

(** When two threads look up the same unregistered descriptor, both see
    that it must be created before either takes the write lock; then each
    creates a context, the first caller is handed one that is no longer
    registered, and what it sets on it (timeouts, the user's non-blocking mode)
    is not what later lookups see. *)
Theorem fdmanager_concurrent_create fstat getfl (m : FdManager) fd p q :
  fdm_wf m → fd_ok fd → ctx_of m fd = None →
  ctxs_ m !! p = None → ctxs_ m !! q = None → p ≠ q →
  get_read fd true m = Ret MustCreate ∧
  ∃ m1 m2 c1 c2,
    get_create fstat getfl fd p m = Ret (m1, p, c1) ∧
    get_create fstat getfl fd q m1 = Ret (m2, q, c2) ∧
    get_read fd false m2 = Ret (Got (Some q)) ∧ is_Some (ctxs_ m2 !! p).
Proof.
  intros Hwf Hfd Hn Hp Hq Hpq. split.
  - rewrite get_read_spec by auto. rewrite Hn. destruct (fd =? -1) eqn:E; [destruct Hfd; lia|done].
  - destruct (get_create_spec fstat getfl m fd p Hwf Hfd Hp) as (m1&c1&H1&Hw1&Hx1&_).
    destruct (get_create_spec fstat getfl m1 fd q Hw1 Hfd) as (m2&c2&H2&Hw2&Hx2&Hof).
    { by rewrite Hx1, lookup_insert_ne. }
    exists m1, m2, c1, c2. split; [done|]. split; [done|].
    rewrite get_read_spec by auto. rewrite Hof, decide_True by done. split; [done|].
    by rewrite Hx2, lookup_insert_ne, Hx1, lookup_insert_eq by done.
Qed.

Lemma fdmanager_concurrent_create_witness :
  ∃ m1 m2 c1 c2,
    get_create (λ _, Some true) (λ _, 2) 5 4096 FdManager_new = Ret (m1, 4096, c1) ∧
    get_create (λ _, Some true) (λ _, 2) 5 8192 m1 = Ret (m2, 8192, c2) ∧
    get_read 5 false m2 = Ret (Got (Some 8192)).
Proof.
  destruct (fdmanager_concurrent_create (λ _, Some true) (λ _, 2) FdManager_new 5 4096 8192)
    as (_&m1&m2&c1&c2&H1&H2&H3&_);
    [apply FdManager_new_wf|split; reflexivity || discriminate|reflexivity..|discriminate|].
  exists m1, m2, c1, c2. split; [exact H1|]. split; [exact H2|exact H3].
Defined.
