(* ===== verification/IOManager.v ===== *)
(** * The epoll event manager: iomanager.h, iomanager.cpp

    One definition per method of [IOManager] and [IOManager::FdContext].  A
    method takes its mutexes in sequence; the parts under different locks are
    separate definitions.  [FdContext] objects are referenced from the vector
    and from the kernel's event data at once, so they live in a store;
    [new FdContext] appends to it.  The result of [epoll_ctl] is an argument,
    and the kernel's interest list is the map [epoll_], which a successful call
    changes as epoll_ctl(2) documents. *)
From S2P Require Import Prelude Timer.

Definition NONE : Z := 0.
Definition READ : Z := 1.
Definition WRITE : Z := 4.
Definition EPOLLIN : Z := 1.
Definition EPOLLOUT : Z := 4.
Definition EPOLLERR : Z := 8.
Definition EPOLLHUP : Z := 16.
Definition EPOLLET : Z := 2 ^ 31.
Definition EPOLL_CTL_ADD : Z := 1.
Definition EPOLL_CTL_DEL : Z := 2.
Definition EPOLL_CTL_MOD : Z := 3.

Section IOManager.
(** [S]: schedulers; [C]: non-empty [std::function<void()>] values.  A fiber
    is known by its address. *)
Context {S C : Type}.

Record EventContext : Type := mkEC {
  scheduler : option S;
  fiber : option Z;
  cb : option C }.

Record FdContext : Type := mkFC {
  read : EventContext;
  write : EventContext;
  fd : Z;
  events : Z }.

Definition EC_empty : EventContext := mkEC None None None.
Definition FC_new (i : Z) : FdContext := mkFC EC_empty EC_empty i NONE.

(** Which of the two event contexts a reference returned by [getContext]
    points to. *)
Inductive which : Type := CRead | CWrite.

(** [FdContext::getContext]; its default case asserts. *)
Definition getContext (event : Z) : outcome which :=
  if event =? READ then Ret CRead
  else if event =? WRITE then Ret CWrite
  else Assert_fail.

Definition get_ec (w : which) (c : FdContext) : EventContext :=
  match w with CRead => read c | CWrite => write c end.
Definition set_ec (w : which) (e : EventContext) (c : FdContext) : FdContext :=
  match w with
  | CRead => mkFC e (write c) (fd c) (events c)
  | CWrite => mkFC (read c) e (fd c) (events c)
  end.
Definition set_events (ev : Z) (c : FdContext) : FdContext :=
  mkFC (read c) (write c) (fd c) ev.

(** [FdContext::resetContext]. *)
Definition resetContext (e : EventContext) : EventContext := EC_empty.

(** What [Scheduler::schedule] is handed by [triggerEvent]. *)
Inductive task : Type := TFiber (f : option Z) | TCb (c : C).

(** [FdContext::triggerEvent]: the context afterwards and the [schedule] call.
    [schedule] takes the callback or the fiber by address and swaps it out of
    the event context. *)
Definition triggerEvent (event : Z) (c : FdContext) : outcome (FdContext * (S * task)) :=
  _ ← sylar_assert (negb (Z.land (events c) event =? 0));
  let c1 := set_events (Z.land (events c) (Z.lnot event)) c in
  w ← getContext event;
  let e := get_ec w c1 in
  match scheduler e with
  | None => Undefined
  | Some s =>
      match cb e with
      | Some k => Ret (set_ec w (mkEC None (fiber e) None) c1, (s, TCb k))
      | None => Ret (set_ec w (mkEC None None None) c1, (s, TFiber (fiber e)))
      end
  end.

Record IOManager : Type := mkIOM {
  tickleFds_ : Z * Z;
  pendingEventCount_ : Z;
  ctxs_ : list FdContext;
  fdContexts_ : list (option nat);
  epoll_ : gmap Z Z }.

Definition isize (m : IOManager) : Z := i32 (Z.of_nat (length (fdContexts_ m))).

(** The loop of [contextResize] over the slots from number [i]. *)
Fixpoint fill_slots (i : nat) (slots : list (option nat)) (store : list FdContext) :
    list (option nat) * list FdContext :=
  match slots with
  | [] => ([], store)
  | Some p :: r => let '(r', store') := fill_slots (i + 1) r store in (Some p :: r', store')
  | None :: r =>
      let '(r', store') := fill_slots (i + 1) r (store ++ [FC_new (Z.of_nat i)]) in
      (Some (length store) :: r', store')
  end.

(** [IOManager::contextResize]. *)
Definition contextResize (size : nat) (m : IOManager) : IOManager :=
  let '(slots, store) := fill_slots 0 (resize size None (fdContexts_ m)) (ctxs_ m) in
  mkIOM (tickleFds_ m) (pendingEventCount_ m) store slots (epoll_ m).

(** The part of [IOManager::IOManager] that concerns events: the read end of
    the tickle pipe is registered, then the contexts are made. *)
Definition IOManager_new (tickleFds : Z * Z) : IOManager :=
  contextResize 32
    (mkIOM tickleFds 0 [] [] {[ tickleFds.1 := Z.lor EPOLLIN EPOLLET ]}).

(** [fdContexts_[fd]], then the dereference the caller makes. *)
Definition slot (fd : Z) (m : IOManager) : outcome nat :=
  if fd <? 0 then Undefined
  else match fdContexts_ m !! Z.to_nat fd with
       | Some (Some p) => Ret p
       | _ => Undefined
       end.

Definition ctx_at (p : nat) (m : IOManager) : outcome FdContext :=
  match ctxs_ m !! p with Some c => Ret c | None => Undefined end.

Definition put (p : nat) (c : FdContext) (m : IOManager) : IOManager :=
  mkIOM (tickleFds_ m) (pendingEventCount_ m) (<[p := c]> (ctxs_ m)) (fdContexts_ m) (epoll_ m).
Definition add_pending (d : Z) (m : IOManager) : IOManager :=
  mkIOM (tickleFds_ m) (u64 (pendingEventCount_ m + d)) (ctxs_ m) (fdContexts_ m) (epoll_ m).

(** [epoll_ctl(epfd_, op, fd, event)] that returned [rt]. *)
Definition epoll_ctl (rt op fd ev : Z) (m : IOManager) : IOManager :=
  if rt =? 0
  then mkIOM (tickleFds_ m) (pendingEventCount_ m) (ctxs_ m) (fdContexts_ m)
         (if op =? EPOLL_CTL_DEL then delete fd (epoll_ m) else <[fd := ev]> (epoll_ m))
  else m.

(** [IOManager::IOManager] with what [epoll_create], [pipe], [fcntl] and
    [epoll_ctl] answer; the threads are started afterwards. *)
Definition IOManager_create (epfd pipe_rt fcntl_rt ctl_rt : Z) (tickleFds : Z * Z) : outcome IOManager :=
  _ ← sylar_assert (0 <? epfd);
  _ ← sylar_assert (pipe_rt =? 0);
  _ ← sylar_assert (fcntl_rt =? 0);
  let m := epoll_ctl ctl_rt EPOLL_CTL_ADD tickleFds.1 (Z.lor EPOLLIN EPOLLET) (mkIOM tickleFds 0 [] [] ∅) in
  _ ← sylar_assert (ctl_rt =? 0);
  Ret (contextResize 32 m).

(** [IOManager::~IOManager] once the threads have stopped: the descriptors it
    closes and the contexts it deletes. *)
Definition IOManager_delete (epfd : Z) (m : IOManager) : list Z * list nat :=
  ([epfd; (tickleFds_ m).1; (tickleFds_ m).2], omap id (fdContexts_ m)).

(** The first part of [addEvent], under the read lock: the context, or [None]
    when the vector must grow. *)
Definition addEvent_find (fd : Z) (m : IOManager) : outcome (option nat) :=
  if fd <? isize m then p ← slot fd m; Ret (Some p) else Ret None.

(** Its [else] branch, under the write lock. *)
Definition addEvent_grow (fd : Z) (m : IOManager) : outcome (IOManager * nat) :=
  let m' := contextResize (Z.to_nat (fd * 3 / 2)) m in
  p ← slot fd m'; Ret (m', p).

(** The rest of [addEvent], under the context's mutex.  [cur_s] is
    [Scheduler::GetThis()], [cur_f] the address of [Fiber::GetThis()] and
    whether that fiber is in state EXEC. *)
Definition addEvent_locked (rt : Z) (cur_s : option S) (cur_f : Z * bool)
    (fd : Z) (p : nat) (event : Z) (k : option C) (m : IOManager) :
    outcome (IOManager * Z) :=
  c ← ctx_at p m;
  _ ← sylar_assert (Z.land (events c) event =? 0);
  let op := if events c =? 0 then EPOLL_CTL_ADD else EPOLL_CTL_MOD in
  let m1 := epoll_ctl rt op fd (Z.lor (Z.lor EPOLLET (events c)) event) m in
  if negb (rt =? 0) then Ret (m1, -1)
  else
    let c1 := set_events (Z.lor (events c) event) c in
    w ← getContext event;
    let e := get_ec w c1 in
    _ ← sylar_assert (null (scheduler e) && null (fiber e) && null (cb e));
    match k with
    | Some f =>
        Ret (add_pending 1 (put p (set_ec w (mkEC cur_s (fiber e) (Some f)) c1) m1), 0)
    | None =>
        _ ← sylar_assert cur_f.2;
        Ret (add_pending 1 (put p (set_ec w (mkEC cur_s (Some cur_f.1) (cb e)) c1) m1), 0)
    end.

(** [IOManager::addEvent], nothing else running in between. *)
Definition addEvent (rt : Z) (cur_s : option S) (cur_f : Z * bool)
    (fd event : Z) (k : option C) (m : IOManager) : outcome (IOManager * Z) :=
  o ← addEvent_find fd m;
  match o with
  | Some p => addEvent_locked rt cur_s cur_f fd p event k m
  | None => '(m1, p) ← addEvent_grow fd m; addEvent_locked rt cur_s cur_f fd p event k m1
  end.

(** The lookup the other methods share: [None] is their early [return false]. *)
Definition find_ctx (fd : Z) (m : IOManager) : outcome (option nat) :=
  if isize m <=? fd then Ret None else p ← slot fd m; Ret (Some p).

(** [IOManager::delEvent]. *)
Definition delEvent (rt fd event : Z) (m : IOManager) : outcome (IOManager * bool) :=
  o ← find_ctx fd m;
  match o with
  | None => Ret (m, false)
  | Some p =>
      c ← ctx_at p m;
      if Z.land (events c) event =? 0 then Ret (m, false)
      else
        let new_events := Z.land (events c) (Z.lnot event) in
        let op := if new_events =? 0 then EPOLL_CTL_DEL else EPOLL_CTL_MOD in
        let m1 := epoll_ctl rt op fd (Z.lor EPOLLET new_events) m in
        if negb (rt =? 0) then Ret (m1, false)
        else
          w ← getContext event;
          let c1 := set_events new_events c in
          Ret (put p (set_ec w (resetContext (get_ec w c1)) c1) (add_pending (-1) m1), true)
  end.

(** [IOManager::cancelEvent]; the list holds the [schedule] calls. *)
Definition cancelEvent (rt fd event : Z) (m : IOManager) :
    outcome (IOManager * bool * list (S * task)) :=
  o ← find_ctx fd m;
  match o with
  | None => Ret (m, false, [])
  | Some p =>
      c ← ctx_at p m;
      if Z.land (events c) event =? 0 then Ret (m, false, [])
      else
        let new_events := Z.land (events c) (Z.lnot event) in
        let op := if new_events =? 0 then EPOLL_CTL_DEL else EPOLL_CTL_MOD in
        let m1 := epoll_ctl rt op fd (Z.lor EPOLLET new_events) m in
        if negb (rt =? 0) then Ret (m1, false, [])
        else
          '(c1, t) ← triggerEvent event c;
          Ret (add_pending (-1) (put p c1 m1), true, [t])
  end.

(** [if(mask & event) { triggerEvent(event); --pendingEventCount_; }] *)
Definition trigger_if (mask event : Z) (p : nat) (m : IOManager) :
    outcome (IOManager * list (S * task)) :=
  if Z.land mask event =? 0 then Ret (m, [])
  else
    c ← ctx_at p m;
    '(c1, t) ← triggerEvent event c;
    Ret (add_pending (-1) (put p c1 m), [t]).

(** [IOManager::cancelAll]. *)
Definition cancelAll (rt fd : Z) (m : IOManager) : outcome (IOManager * bool * list (S * task)) :=
  o ← find_ctx fd m;
  match o with
  | None => Ret (m, false, [])
  | Some p =>
      c ← ctx_at p m;
      if events c =? 0 then Ret (m, false, [])
      else
        let m1 := epoll_ctl rt EPOLL_CTL_DEL fd 0 m in
        if negb (rt =? 0) then Ret (m1, false, [])
        else
          '(m2, l1) ← trigger_if (events c) READ p m1;
          c2 ← ctx_at p m2;
          '(m3, l2) ← trigger_if (events c2) WRITE p m2;
          c3 ← ctx_at p m3;
          _ ← sylar_assert (events c3 =? 0);
          Ret (m3, true, l1 ++ l2)
  end.

(** The bits the loop of [idle] acts on for an event reported as [ev] on a
    context whose registered events are [reg]. *)
Definition real_events_of (ev reg : Z) : Z :=
  let ev := if Z.land ev (Z.lor EPOLLERR EPOLLHUP) =? 0 then ev
            else Z.lor ev (Z.land (Z.lor EPOLLIN EPOLLOUT) reg) in
  let real := if Z.land ev EPOLLIN =? 0 then NONE else Z.lor NONE READ in
  if Z.land ev EPOLLOUT =? 0 then real else Z.lor real WRITE.

(** The body of the event loop of [IOManager::idle] for an event of a
    descriptor (the one of the tickle pipe only drains the pipe). *)
Definition idle_event (rt : Z) (p : nat) (ev : Z) (m : IOManager) :
    outcome (IOManager * list (S * task)) :=
  c ← ctx_at p m;
  let real_events := real_events_of ev (events c) in
  if Z.land (events c) real_events =? NONE then Ret (m, [])
  else
    let left_events := Z.land (events c) (Z.lnot real_events) in
    let op := if left_events =? 0 then EPOLL_CTL_DEL else EPOLL_CTL_MOD in
    let m1 := epoll_ctl rt op (fd c) (Z.lor EPOLLET left_events) m in
    if negb (rt =? 0) then Ret (m1, [])
    else
      '(m2, l1) ← trigger_if real_events READ p m1;
      '(m3, l2) ← trigger_if real_events WRITE p m2;
      Ret (m3, l1 ++ l2).

(** The third argument [idle] passes to [epoll_wait], from the 64-bit
    [next_timeout] that [stopping] left; both casts to [int] are the code's. *)
Definition MAX_TIMEOUT : Z := 3000.
Definition wait_timeout (next_timeout : Z) : Z :=
  let t := if negb (next_timeout =? u64_max)
           then (if MAX_TIMEOUT <? i32 next_timeout then MAX_TIMEOUT else next_timeout)
           else MAX_TIMEOUT in
  i32 t.

(** [IOManager::stopping(timeout)], given the value of [getNextTimer] and the
    answer of [Scheduler::stopping]. *)
Definition stopping (timeout : Z) (scheduler_stopping : bool) (m : IOManager) : bool :=
  (timeout =? u64_max) && (pendingEventCount_ m =? 0) && scheduler_stopping.

(** [IOManager::tickle]: does it write to the pipe? *)
Definition tickle (idleThreadCount : Z) : bool := 0 <? idleThreadCount.
End IOManager.
Arguments FdContext : clear implicits.
Arguments IOManager : clear implicits.
Arguments task : clear implicits.

(** ** One turn of the loop of [IOManager::idle] *)
Section Idle.
Context {S C F W : Type}.

(** [event.data] of a report: the tickle pipe or a context. *)
Inductive source : Type := TicklePipe | Context_ (p : nat).

(** One [epoll_event] that [epoll_wait] stored, with what the [epoll_ctl] it
    leads to will answer. *)
Record report : Type := mkReport { data : source; revents : Z; ctl_rt : Z }.

(** The loop over the reports; the list holds the [schedule] calls. *)
Fixpoint dispatch (l : list report) (m : IOManager S C) :
    outcome (IOManager S C * list (S * task C)) :=
  match l with
  | [] => Ret (m, [])
  | r :: l' =>
      match data r with
      | TicklePipe => dispatch l' m
      | Context_ p =>
          '(m1, k) ← idle_event (ctl_rt r) p (revents r) m;
          '(m2, ks) ← dispatch l' m1;
          Ret (m2, k ++ ks)
      end
  end.

(** From the top of the loop to [swapOut].  [now1] and [now2] are the clock
    readings of [stopping] and [listExpiredCb], [q] the address of the probe,
    [reports] what [epoll_wait] stored when given the timeout [wait].  [None]:
    the loop was left because the manager stops. *)
Definition idle_round (now1 now2 q : Z) (scheduler_stopping : bool) (reports : list report)
    (s : TimerManager F W) (m : IOManager S C) :
    outcome (option (TimerManager F W * IOManager S C * Z *
                     (list (option (callback F W)) * list (S * task C)))) :=
  let '(s1, next_timeout) := getNextTimer now1 s in
  if stopping next_timeout scheduler_stopping m then Ret None
  else
    let wait := wait_timeout next_timeout in
    let '(s2, cbs) := listExpiredCb now2 q s1 [] in
    '(m', ks) ← dispatch reports m;
    Ret (Some (s2, m', wait, (cbs, ks))).
End Idle.

(** ** The invariant and the waiters *)
Section IOManagerLaws.
Context {S C : Type}.
Implicit Types (e : EventContext (S := S) (C := C)) (c : FdContext S C) (m : IOManager S C).

#[export] Instance which_eq_dec : EqDecision which.
Proof. solve_decision. Defined.
#[export] Instance which_countable : Countable which.
Proof.
  apply (inj_countable' (λ w, match w with CRead => true | CWrite => false end)
           (λ b : bool, if b then CRead else CWrite)).
  by intros [].
Defined.

Definition ev_of (w : which) : Z := match w with CRead => READ | CWrite => WRITE end.

(** The task an event context would schedule when triggered. *)
Definition waiter_of e : option (S * task C) :=
  match scheduler e with
  | None => None
  | Some s => Some (s, match cb e with Some k => TCb k | None => TFiber (fiber e) end)
  end.

(** An event context is empty, or holds its scheduler and exactly one of a
    fiber and a callback. *)
Definition ec_ok e : Prop :=
  match scheduler e, fiber e, cb e with
  | None, None, None | Some _, Some _, None | Some _, None, Some _ => True
  | _, _, _ => False
  end.

Definition bits (r w : bool) : Z := (if r then READ else 0) + (if w then WRITE else 0).
Definition armed e : bool := negb (null (scheduler e)).

(** A descriptor's context: its number, well-formed event contexts, and
    [events] showing exactly the armed ones. *)
Definition fc_wf (i : Z) c : Prop :=
  fd c = i ∧ ec_ok (read c) ∧ ec_ok (write c) ∧ events c = bits (armed (read c)) (armed (write c)).

Definition count c : Z := Z.b2z (armed (read c)) + Z.b2z (armed (write c)).
Definition total (l : list (FdContext S C)) : Z := foldr (λ c n, count c + n) 0 l.

(** Every slot of the vector holds its own context, and
    [pendingEventCount_] counts the armed event contexts. *)
Record ctxs_wf m : Prop := mk_ctxs_wf {
  cw_slots : fdContexts_ m = Some <$> seq 0 (length (ctxs_ m));
  cw_size : (32 ≤ length (ctxs_ m))%nat ∧ Z.of_nat (length (ctxs_ m)) < 2 ^ 31;
  cw_ctx : ∀ i c, ctxs_ m !! i = Some c → fc_wf (Z.of_nat i) c;
  cw_pending : pendingEventCount_ m = u64 (total (ctxs_ m)) }.

(** What the kernel should watch for a descriptor whose context has these
    [events]. *)
Definition interest (ev : Z) : option Z := if ev =? 0 then None else Some (Z.lor EPOLLET ev).

(** The kernel's interest list agrees with every context, the descriptor of
    the tickle pipe apart. *)
Definition epoll_ok m : Prop :=
  ∀ i : nat, Z.of_nat i ≠ (tickleFds_ m).1 →
    epoll_ m !! Z.of_nat i = ctxs_ m !! i ≫= λ c, interest (events c).

Definition iom_wf m : Prop := ctxs_wf m ∧ epoll_ok m.

(** Who waits for an event of a descriptor. *)
Definition waiter m (fd : Z) (w : which) : option (S * task C) :=
  if fd <? 0 then None
  else match ctxs_ m !! Z.to_nat fd with Some c => waiter_of (get_ec w c) | None => None end.

Lemma total_insert l i c c' :
  l !! i = Some c → total (<[i := c']> l) = total l - count c + count c'.
Proof.
  unfold total. revert i. induction l as [|x l IH]; intros [|i] Hi; cbn in *; try done.
  - injection Hi as <-. lia.
  - pose proof (IH i Hi) as Hrec. unfold insert in *. lia.
Qed.

Lemma armed_waiter e : armed e = negb (null (waiter_of e)).
Proof. unfold armed, waiter_of. by destruct (scheduler e). Qed.

Lemma isize_wf m : ctxs_wf m → isize m = Z.of_nat (length (ctxs_ m)).
Proof.
  intros Hwf. unfold isize. rewrite (cw_slots m Hwf), length_fmap, length_seq.
  apply i32_small. pose proof (cw_size m Hwf). lia.
Qed.

Lemma slot_wf m fd : ctxs_wf m → 0 ≤ fd < isize m → slot fd m = Ret (Z.to_nat fd).
Proof.
  intros Hwf Hfd. rewrite isize_wf in Hfd by done. unfold slot. case_step; [lia|].
  rewrite (cw_slots m Hwf), list_lookup_fmap, lookup_seq_lt by lia. done.
Qed.

Lemma ctx_at_wf m fd :
  ctxs_wf m → 0 ≤ fd < isize m →
  ∃ c, ctxs_ m !! Z.to_nat fd = Some c ∧ ctx_at (Z.to_nat fd) m = Ret c ∧ fc_wf fd c.
Proof.
  intros Hwf Hfd. rewrite isize_wf in Hfd by done. unfold ctx_at.
  destruct (lookup_lt_is_Some_2 (ctxs_ m) (Z.to_nat fd)) as [c Hc]; [lia|].
  exists c. rewrite Hc. split; [done|]. split; [done|].
  pose proof (cw_ctx m Hwf _ _ Hc) as H. by rewrite Z2Nat.id in H by lia.
Qed.

Lemma waiter_out m fd w : ctxs_wf m → isize m ≤ fd → waiter m fd w = None.
Proof.
  intros Hwf Hle. rewrite isize_wf in Hle by done. unfold waiter. case_step; [done|].
  by rewrite lookup_ge_None_2 by lia.
Qed.

Lemma waiter_in m fd c w :
  0 ≤ fd → ctxs_ m !! Z.to_nat fd = Some c → waiter m fd w = waiter_of (get_ec w c).
Proof. intros Hfd Hc. unfold waiter. case_step; [lia|]. by rewrite Hc. Qed.

(** Replacing the context of [fd]: the invariant on the contexts is that of
    the new one plus the right change of the counter. *)
Lemma put_wf m fd c c' ep :
  ctxs_wf m → 0 ≤ fd → ctxs_ m !! Z.to_nat fd = Some c → fc_wf fd c' →
  let m' := mkIOM (tickleFds_ m) (u64 (pendingEventCount_ m + (count c' - count c)))
                  (<[Z.to_nat fd := c']> (ctxs_ m)) (fdContexts_ m) ep in
  ctxs_wf m' ∧
  ∀ fd' w, waiter m' fd' w = if decide (fd' = fd) then waiter_of (get_ec w c') else waiter m fd' w.
Proof.
  intros Hwf Hfd Hc Hc' m'. split.
  - split; subst m'; cbn [ctxs_ pendingEventCount_ fdContexts_].
    + rewrite length_insert. apply Hwf.
    + rewrite length_insert. apply Hwf.
    + intros i c2. destruct (decide (i = Z.to_nat fd)) as [->|].
      * rewrite list_lookup_insert_eq by (by eapply lookup_lt_Some). intros [= <-].
        by rewrite Z2Nat.id.
      * rewrite list_lookup_insert_ne by done. apply Hwf.
    + rewrite (cw_pending m Hwf), (total_insert _ _ _ c' Hc). solve_int.
  - intros fd' w. unfold waiter. cbn. case_decide as Heq.
    + subst. case_step; [lia|]. by rewrite list_lookup_insert_eq by (by eapply lookup_lt_Some).
    + case_step; [done|]. by rewrite list_lookup_insert_ne by lia.
Qed.

Definition other (w : which) : which := match w with CRead => CWrite | CWrite => CRead end.

Lemma getContext_ev w : getContext (ev_of w) = Ret w.
Proof. by destruct w. Qed.

Lemma events_has i c w :
  fc_wf i c → (Z.land (events c) (ev_of w) =? 0) = null (waiter_of (get_ec w c)).
Proof.
  intros (_&_&_&->). rewrite !armed_waiter.
  destruct w; cbn; destruct (waiter_of (read c)), (waiter_of (write c)); done.
Qed.

(** Setting the event context [w] to [e], with [events] updated to match. *)
Lemma fc_wf_set i c w e :
  fc_wf i c → ec_ok e →
  fc_wf i (set_ec w e (set_events (bits (armed (get_ec CRead (set_ec w e c)))
                                        (armed (get_ec CWrite (set_ec w e c)))) c)).
Proof. intros (?&?&?&?) He. destruct w; done. Qed.

Definition ev_after (ev : Z) (w : which) (on : bool) : Z :=
  if on then Z.lor ev (ev_of w) else Z.land ev (Z.lnot (ev_of w)).

Lemma ev_after_bits i c w e :
  fc_wf i c →
  ev_after (events c) w (armed e) =
  bits (armed (get_ec CRead (set_ec w e c))) (armed (get_ec CWrite (set_ec w e c))).
Proof.
  intros (_&_&_&->). destruct w; cbn; destruct (armed (read c)), (armed (write c)), (armed e); done.
Qed.

Lemma fc_wf_after i c w e :
  fc_wf i c → ec_ok e → fc_wf i (set_ec w e (set_events (ev_after (events c) w (armed e)) c)).
Proof. intros Hc He. rewrite (ev_after_bits i) by done. by apply fc_wf_set. Qed.

Lemma count_set c w e v :
  count (set_ec w e (set_events v c)) - count c = Z.b2z (armed e) - Z.b2z (armed (get_ec w c)).
Proof. destruct w; unfold count; cbn; lia. Qed.

Lemma get_set_ec c w w' e v :
  get_ec w' (set_ec w e (set_events v c)) =
  match w, w' with CRead, CRead | CWrite, CWrite => e | _, _ => get_ec w' c end.
Proof. by destruct w, w'. Qed.

Lemma triggerEvent_armed i c w x :
  fc_wf i c → waiter_of (get_ec w c) = Some x →
  triggerEvent (ev_of w) c =
    Ret (set_ec w EC_empty (set_events (ev_after (events c) w false) c), x).
Proof.
  intros Hc Hx. unfold triggerEvent. rewrite (events_has i), Hx by done. cbn.
  rewrite getContext_ev. cbn.
  assert (He : ec_ok (get_ec w c)) by (destruct w; apply Hc).
  replace (get_ec w (set_events (Z.land (events c) (Z.lnot (ev_of w))) c)) with (get_ec w c)
    by (by destruct w).
  unfold waiter_of in Hx. unfold ec_ok in He.
  destruct (get_ec w c) as [[s|] [f|] [k|]]; cbn in *; try done; by injection Hx as <-.
Qed.

Lemma triggerEvent_disarmed i c w :
  fc_wf i c → waiter_of (get_ec w c) = None → triggerEvent (ev_of w) c = Assert_fail.
Proof. intros Hc Hx. unfold triggerEvent. by rewrite (events_has i), Hx by done. Qed.

(** *** Growing the vector *)
Lemma fill_slots_fresh (store : list (FdContext S C)) (l : list nat) i d :
  (i + length l)%nat = length store →
  fill_slots i ((Some <$> l) ++ replicate d None) store =
    ((Some <$> l ++ seq (length store) d),
     store ++ ((λ j, FC_new (Z.of_nat j)) <$> seq (length store) d)).
Proof.
  revert store i. induction l as [|x l IH]; intros store i Hi; cbn.
  - cbn in Hi. replace i with (length store) by lia. clear Hi i.
    revert store. induction d as [|d IHd]; intros store; cbn; [by rewrite app_nil_r|].
    replace (length store + 1)%nat with (length (store ++ [FC_new (S := S) (C := C) (Z.of_nat (length store))]))
      by (rewrite length_app; done).
    rewrite IHd, length_app, <-app_assoc. cbn.
    by replace (length store + 1)%nat with (Datatypes.S (length store)) by lia.
  - rewrite IH by (cbn in Hi; lia). done.
Qed.

Lemma contextResize_grow m n :
  iom_wf m → isize m ≤ Z.of_nat n < 2 ^ 31 →
  iom_wf (contextResize n m) ∧ isize (contextResize n m) = Z.of_nat n ∧
  tickleFds_ (contextResize n m) = tickleFds_ m ∧
  (∀ fd w, waiter (contextResize n m) fd w = waiter m fd w).
Proof.
  intros [Hwf Hep] Hn. pose proof (isize_wf m Hwf) as Hsz. pose proof (cw_size m Hwf) as Hlen.
  set (k := length (ctxs_ m)) in *.
  assert (Hm : contextResize n m =
    mkIOM (tickleFds_ m) (pendingEventCount_ m)
      (ctxs_ m ++ ((λ j, FC_new (Z.of_nat j)) <$> seq k (n - k)))
      (Some <$> seq 0 n) (epoll_ m)).
  { unfold contextResize. rewrite (cw_slots m Hwf). fold k.
    rewrite resize_ge by (rewrite length_fmap, length_seq; lia).
    rewrite fill_slots_fresh by (rewrite length_seq; done).
    rewrite length_fmap, length_seq. fold k.
    replace (seq 0 n) with (seq 0 k ++ seq k (n - k)) by (rewrite <-seq_app; f_equal; lia).
    done. }
  assert (Hl : length (ctxs_ (contextResize n m)) = n).
  { rewrite Hm. cbn. rewrite length_app, length_fmap, length_seq. fold k. lia. }
  assert (Hnew : ∀ i c, ctxs_ (contextResize n m) !! i = Some c →
            ctxs_ m !! i = Some c ∨ ctxs_ m !! i = None ∧ c = FC_new (Z.of_nat i)).
  { rewrite Hm. cbn. intros i c [Hi|[Hi Hc]]%lookup_app_Some; [by left|right].
    apply list_lookup_fmap_Some in Hc as (j & -> & [-> ?]%lookup_seq).
    split; [by apply lookup_ge_None_2|]. do 2 f_equal. lia. }
  assert (Hold : ∀ i, (i < k)%nat → ctxs_ (contextResize n m) !! i = ctxs_ m !! i).
  { intros i Hi. rewrite Hm. cbn. by rewrite lookup_app_l by done. }
  assert (Hwf' : ctxs_wf (contextResize n m)).
  { split.
    - rewrite Hl, Hm. done.
    - rewrite Hl. lia.
    - intros i c [Hc|[_ ->]]%Hnew; [by apply Hwf|]. done.
    - rewrite Hm. cbn [pendingEventCount_ ctxs_]. rewrite (cw_pending m Hwf). f_equal.
      unfold total. rewrite foldr_app. f_equal.
      clear. induction (seq k (n - k)) as [|x l IH]; cbn; [done|]. rewrite <-IH. done. }
  split; [split; [done|]|].
  - intros i Hi. replace (epoll_ (contextResize n m)) with (epoll_ m) by (by rewrite Hm).
    rewrite Hep by (by rewrite Hm in Hi).
    destruct (ctxs_ (contextResize n m) !! i) as [c|] eqn:Hc; cbn.
    + apply Hnew in Hc as [->|[-> ->]]; done.
    + apply lookup_ge_None_1 in Hc. by rewrite lookup_ge_None_2 by (fold k; lia).
  - rewrite isize_wf, Hl by done. split; [done|]. split; [by rewrite Hm|].
    intros fd w. unfold waiter. case_step; [done|].
    destruct (ctxs_ (contextResize n m) !! Z.to_nat fd) as [c|] eqn:Hc.
    + apply Hnew in Hc as [->|[-> ->]]; [done|]. by destruct w.
    + apply lookup_ge_None_1 in Hc. by rewrite lookup_ge_None_2 by (fold k; lia).
Qed.

Abbreviation new := (IOManager_new (S := S) (C := C)).

(** The constructor either fails an assertion or makes the empty manager. *)
Lemma IOManager_create_new epfd pipe_rt fcntl_rt ctl_rt t :
  IOManager_create epfd pipe_rt fcntl_rt ctl_rt t =
  if (0 <? epfd) && (pipe_rt =? 0) && (fcntl_rt =? 0) && (ctl_rt =? 0)
  then Ret (IOManager_new (S := S) (C := C) t) else Assert_fail.
Proof.
  unfold IOManager_create, IOManager_new, epoll_ctl, sylar_assert.
  destruct (0 <? epfd); [|done]. destruct (pipe_rt =? 0); [|done]. destruct (fcntl_rt =? 0); [|done].
  destruct (ctl_rt =? 0); [|done]. done.
Qed.

Lemma IOManager_new_wf t :
  iom_wf (new t) ∧ ∀ fd w, waiter (new t) fd w = None.
Proof.
  assert (Hc : ctxs_ (new t) = (λ j, FC_new (Z.of_nat j)) <$> seq 0 32) by done.
  split; [split|].
  - split; rewrite ?Hc, ?length_fmap, ?length_seq; [done|lia| |done].
    intros i c Hi.
    by apply list_lookup_fmap_Some in Hi as (j & -> & [-> ?]%lookup_seq).
  - intros i Hi. rewrite Hc, list_lookup_fmap.
    change (epoll_ (new t)) with ({[ t.1 := Z.lor EPOLLIN EPOLLET ]} : gmap Z Z).
    rewrite lookup_singleton_ne by done. by destruct (seq 0 32 !! i).
  - intros fd w. unfold waiter. case_step; [done|]. rewrite Hc, list_lookup_fmap.
    destruct (seq 0 32 !! _); [|done]. by destruct w.
Qed.

(** *** One context replaced *)

(** The manager once a successful [epoll_ctl] and a change of one event
    context are done. *)
Definition after m (fd : Z) c' d ep : IOManager S C :=
  mkIOM (tickleFds_ m) (u64 (pendingEventCount_ m + d))
        (<[Z.to_nat fd := c']> (ctxs_ m)) (fdContexts_ m) ep.

Lemma epoll_ok_after m fd c' d ep :
  epoll_ok m → 0 ≤ fd < Z.of_nat (length (ctxs_ m)) →
  (∀ i, i ≠ (tickleFds_ m).1 →
     ep !! i = if decide (i = fd) then interest (events c') else epoll_ m !! i) →
  epoll_ok (after m fd c' d ep).
Proof.
  intros Hok Hfd Hep i Hi. cbn in *. rewrite Hep by done. case_decide as Heq.
  - rewrite <-Heq, Nat2Z.id, list_lookup_insert_eq by lia. done.
  - rewrite list_lookup_insert_ne by lia. by apply Hok.
Qed.

(** What [epoll_ctl] leaves in the interest list, for the operation every
    method picks: delete when no event remains, modify otherwise. *)
Lemma epoll_ctl_interest m fd ev i :
  epoll_ (epoll_ctl 0 (if ev =? 0 then EPOLL_CTL_DEL else EPOLL_CTL_MOD) fd (Z.lor EPOLLET ev) m) !! i =
  if decide (i = fd) then interest ev else epoll_ m !! i.
Proof.
  unfold epoll_ctl, interest. cbn. destruct (ev =? 0); cbn; case_decide as Heq; subst.
  - by rewrite lookup_delete_eq.
  - by rewrite lookup_delete_ne.
  - by rewrite lookup_insert_eq.
  - by rewrite lookup_insert_ne.
Qed.

Lemma events_none i c :
  fc_wf i c → (events c =? 0) = null (waiter_of (read c)) && null (waiter_of (write c)).
Proof.
  intros (_&_&_&->). rewrite !armed_waiter.
  by destruct (waiter_of (read c)), (waiter_of (write c)).
Qed.

(** The condition under which a method acts on [fd] at all. *)
Lemma find_ctx_wf m fd :
  ctxs_wf m → 0 ≤ fd →
  (isize m ≤ fd ∧ find_ctx fd m = Ret None) ∨
  ∃ c, 0 ≤ fd < isize m ∧ find_ctx fd m = Ret (Some (Z.to_nat fd)) ∧
       ctxs_ m !! Z.to_nat fd = Some c ∧ ctx_at (Z.to_nat fd) m = Ret c ∧ fc_wf fd c.
Proof.
  intros Hwf Hfd. unfold find_ctx. destruct (Z.leb_spec (isize m) fd) as [|Hlt]; [by left|].
  right. rewrite slot_wf by (done || lia).
  destruct (ctx_at_wf m fd Hwf) as (c & ? & ? & ?); [lia|]. exists c. split_and!; done || lia.
Qed.

(** *** The contract: a map from (descriptor, event) to the waiter *)
Abbreviation waiters := (gmap (Z * which) (S * task C)).

Inductive op : Type :=
  | OpAdd (rt : Z) (cur_s : option S) (cur_f : Z * bool) (fd : Z) (w : which) (k : option C)
  | OpDel (rt fd : Z) (w : which)
  | OpCancel (rt fd : Z) (w : which)
  | OpCancelAll (rt fd : Z)
  | OpEvent (rt fd ev : Z).

(** The caller's result and the [schedule] calls made. *)
Definition response : Type := Z * list (S * task C).

Definition run_op (o : op) m : outcome (IOManager S C * response) :=
  match o with
  | OpAdd rt cs cf fd w k => '(m', r) ← addEvent rt cs cf fd (ev_of w) k m; Ret (m', (r, []))
  | OpDel rt fd w => '(m', b) ← delEvent rt fd (ev_of w) m; Ret (m', (Z.b2z b, []))
  | OpCancel rt fd w => '(m', b, l) ← cancelEvent rt fd (ev_of w) m; Ret (m', (Z.b2z b, l))
  | OpCancelAll rt fd => '(m', b, l) ← cancelAll rt fd m; Ret (m', (Z.b2z b, l))
  | OpEvent rt fd ev => '(m', l) ← idle_event rt (Z.to_nat fd) ev m; Ret (m', (0, l))
  end.

(** Does a report [ev] of the kernel concern waiters of [w], when [present]
    says whether there is one? *)
Definition fires (ev : Z) (w : which) (present : bool) : bool :=
  negb (Z.land ev (ev_of w) =? 0) || (negb (Z.land ev (Z.lor EPOLLERR EPOLLHUP) =? 0) && present).

Definition waits (W : waiters) (fd : Z) (w : which) : bool := negb (null (W !! (fd, w))).
Definition fired (W : waiters) (fd ev : Z) (w : which) : bool := fires ev w (waits W fd w).

(** What a caller guarantees.  Descriptors are not the manager's own pipe; an
    event is added once, from a thread with a scheduler, and without a
    callback only by a running fiber.  A report of the kernel is about a
    descriptor that has a context, and concerns either none or only registered
    events ([idle_event_stale_report] shows what happens otherwise). *)
Definition op_ok (tfd size : Z) (o : op) (W : waiters) : Prop :=
  match o with
  | OpAdd rt cs cf fd w k =>
      0 ≤ fd < 2 ^ 30 ∧ fd ≠ tfd ∧ W !! (fd, w) = None ∧ is_Some cs ∧ (k = None → cf.2 = true)
  | OpDel rt fd _ | OpCancel rt fd _ | OpCancelAll rt fd => 0 ≤ fd ∧ fd ≠ tfd
  | OpEvent rt fd ev =>
      0 ≤ fd ∧ fd ≠ tfd ∧ (fd < size ∨ ∃ w, waits W fd w = true) ∧
      ((∀ w, fired W fd ev w = true → waits W fd w = false) ∨
       (∀ w, fired W fd ev w = true → waits W fd w = true))
  end.

Definition drop (W : waiters) (fd : Z) (l : list which) : waiters :=
  foldr (λ w, delete (fd, w)) W l.
Definition found (W : waiters) (fd : Z) (l : list which) : list (S * task C) :=
  omap (λ w, W !! (fd, w)) l.

(** The events acted on among [l], and the answer when there are none. *)
Definition spec_act (rt fd yes : Z) (l : list which) (W : waiters) : waiters * response :=
  if negb (rt =? 0) || bool_decide (found W fd l = []) then (W, (0, []))
  else (drop W fd l, (yes, found W fd l)).

Definition spec_op (o : op) (W : waiters) : waiters * response :=
  match o with
  | OpAdd rt cs cf fd w k =>
      match cs with
      | Some s =>
          if rt =? 0
          then (<[(fd, w) := (s, match k with Some f => TCb f | None => TFiber (Some cf.1) end)]> W,
                (0, []))
          else (W, (-1, []))
      | None => (W, (-1, []))
      end
  | OpDel rt fd w => let '(W', (r, _)) := spec_act rt fd 1 [w] W in (W', (r, []))
  | OpCancel rt fd w => spec_act rt fd 1 [w] W
  | OpCancelAll rt fd => spec_act rt fd 1 [CRead; CWrite] W
  | OpEvent rt fd ev =>
      spec_act rt fd 0 (filter (λ w, fired W fd ev w = true) [CRead; CWrite]) W
  end.

(** The manager [m] implements the waiters [W]. *)
Definition implements m (W : waiters) : Prop :=
  iom_wf m ∧ ∀ fd w, 0 ≤ fd → waiter m fd w = W !! (fd, w).

(** A step from [m] to [m'] that leaves the pipe and the vector's size bound. *)
Definition steps_to m m' (W' : waiters) : Prop :=
  implements m' W' ∧ tickleFds_ m' = tickleFds_ m ∧ isize m ≤ isize m'.

Lemma implements_lookup m W fd c w :
  implements m W → 0 ≤ fd → ctxs_ m !! Z.to_nat fd = Some c →
  waiter_of (get_ec w c) = W !! (fd, w).
Proof. intros [_ HW] Hfd Hc. by rewrite <-HW, (waiter_in m fd c w). Qed.

Lemma implements_out m W fd w : implements m W → 0 ≤ fd → isize m ≤ fd → W !! (fd, w) = None.
Proof. intros [[Hwf _] HW] Hfd Hle. by rewrite <-HW, waiter_out. Qed.

Lemma implements_after m (W W' : waiters) fd c c' d ep :
  implements m W → 0 ≤ fd → fd ≠ (tickleFds_ m).1 →
  ctxs_ m !! Z.to_nat fd = Some c → fc_wf fd c' → d = count c' - count c →
  (∀ i, ep !! i = if decide (i = fd) then interest (events c') else epoll_ m !! i) →
  (∀ w, waiter_of (get_ec w c') = W' !! (fd, w)) →
  (∀ fd' w, fd' ≠ fd → W' !! (fd', w) = W !! (fd', w)) →
  steps_to m (after m fd c' d ep) W'.
Proof.
  intros [[Hwf Hep] HW] Hfd Ht Hc Hc' -> Hctl HW1 HW2.
  destruct (put_wf m fd c c' ep Hwf Hfd Hc Hc') as [Hwf' Hw'].
  assert (Hlen := lookup_lt_Some _ _ _ Hc).
  split; [split; [split|]|split; [done|]].
  - done.
  - apply epoll_ok_after; [done|lia|]. intros i _. apply Hctl.
  - intros fd' w Hfd'. unfold after. rewrite Hw'. case_decide; [by subst|]. by rewrite HW2, HW.
  - done.
Qed.

Lemma fc_wf_clear i c w :
  fc_wf i c → fc_wf i (set_ec w EC_empty (set_events (Z.land (events c) (Z.lnot (ev_of w))) c)).
Proof. intros Hc. by apply (fc_wf_after i c w EC_empty). Qed.

Lemma spec_act_cons rt fd yes w W x :
  W !! (fd, w) = Some x →
  spec_act rt fd yes [w] W =
    if rt =? 0 then (delete (fd, w) W, (yes, [x])) else (W, (0, [])).
Proof. intros Hx. unfold spec_act, found. cbn. rewrite Hx. by destruct (rt =? 0). Qed.

Lemma spec_act_nil rt fd yes l W :
  (∀ w, w ∈ l → W !! (fd, w) = None) → spec_act rt fd yes l W = (W, (0, [])).
Proof.
  intros Hl. assert (Hf : found W fd l = []).
  { unfold found. induction l as [|w l IH]; cbn; [done|].
    rewrite Hl by constructor. apply IH. intros w' ?. apply Hl. by constructor. }
  unfold spec_act. rewrite Hf. by rewrite bool_decide_true, orb_true_r.
Qed.

Lemma steps_to_refl m W : implements m W → steps_to m m W.
Proof. done. Qed.

Lemma spec_op_steps_del m W rt fd w :
  implements m W → 0 ≤ fd → fd ≠ (tickleFds_ m).1 →
  ∃ m', delEvent rt fd (ev_of w) m = Ret (m', negb (null (W !! (fd, w))) && (rt =? 0)) ∧
        cancelEvent rt fd (ev_of w) m =
          Ret (m', negb (null (W !! (fd, w))) && (rt =? 0),
               if rt =? 0 then found W fd [w] else []) ∧
        steps_to m m' (if rt =? 0 then delete (fd, w) W else W).
Proof.
  intros Himp Hfd Ht. pose proof Himp as [[Hwf Hep] HW]. unfold delEvent, cancelEvent.
  destruct (find_ctx_wf m fd Hwf Hfd) as [[Hge ->]|(c & Hin & -> & Hc & Hat & Hcw)]; cbn.
  - exists m. rewrite (implements_out m W fd w) by done. cbn.
    split; [done|]. split; [by destruct (rt =? 0)|].
    rewrite delete_id by (by eapply implements_out). by destruct (rt =? 0).
  - rewrite Hat. cbn. rewrite (events_has fd) by done.
    pose proof (implements_lookup m W fd c w Himp Hfd Hc) as Hx. rewrite Hx.
    destruct (W !! (fd, w)) as [x|] eqn:HWx; cbn.
    2:{ exists m. split; [done|]. split; [by destruct (rt =? 0)|].
        rewrite delete_id by done. by destruct (rt =? 0). }
    destruct (rt =? 0) eqn:Hrt; cbn.
    2:{ exists m. unfold epoll_ctl. by rewrite Hrt. }
    apply Z.eqb_eq in Hrt as ->.
    pose proof (triggerEvent_armed fd c w x Hcw Hx) as Htr.
    rewrite Htr, getContext_ev. cbn.
    eexists. split; [reflexivity|]. split; [reflexivity|].
    apply (implements_after m W _ fd c
             (set_ec w EC_empty (set_events (Z.land (events c) (Z.lnot (ev_of w))) c)) (-1));
      try done.
    + by apply fc_wf_clear.
    + rewrite count_set, (armed_waiter (get_ec w c)), Hx. done.
    + intros i.
      destruct w; apply (epoll_ctl_interest m fd (Z.land (events c) (Z.lnot (ev_of _))) i).
    + intros w'. rewrite get_set_ec. destruct (decide (w' = w)) as [->|Hne].
      * rewrite lookup_delete_eq. by destruct w.
      * rewrite lookup_delete_ne by congruence.
        rewrite <-(implements_lookup m W fd c w') by done. by destruct w, w'.
    + intros fd' w' Hne. by rewrite lookup_delete_ne by congruence.
Qed.

(** *** Adding *)

(** The two lookups of [addEvent], growing the vector when needed. *)
Lemma addEvent_ready m W rt cs cf fd ev k :
  implements m W → 0 ≤ fd < 2 ^ 30 →
  ∃ m1 c, addEvent rt cs cf fd ev k m = addEvent_locked rt cs cf fd (Z.to_nat fd) ev k m1 ∧
          steps_to m m1 W ∧ ctxs_ m1 !! Z.to_nat fd = Some c ∧
          ctx_at (Z.to_nat fd) m1 = Ret c ∧ fc_wf fd c.
Proof.
  intros Himp Hfd. pose proof Himp as [[Hwf Hep] HW]. unfold addEvent, addEvent_find.
  destruct (Z.ltb_spec fd (isize m)) as [Hlt|Hge].
  - destruct (ctx_at_wf m fd Hwf) as (c & ? & ? & ?); [lia|].
    exists m, c. rewrite slot_wf by (done || lia). split_and!; by try apply steps_to_refl.
  - assert (H32 : 32 ≤ isize m) by (rewrite isize_wf by done; pose proof (cw_size m Hwf); lia).
    assert (Hq : fd < fd * 3 / 2 < 2 ^ 31) by (Z.div_mod_to_equations; lia).
    destruct (contextResize_grow m (Z.to_nat (fd * 3 / 2))) as ([Hwf' Hep'] & Hsz & Ht & Hw).
    { done. } { lia. }
    destruct (ctx_at_wf _ fd Hwf') as (c & ? & ? & ?); [lia|].
    exists (contextResize (Z.to_nat (fd * 3 / 2)) m), c. unfold addEvent_grow. cbn.
    rewrite slot_wf by (done || lia). split; [done|]. split; [|done].
    split; [|split; [done|lia]]. split; [done|]. intros fd' w ?. by rewrite Hw, HW.
Qed.

(** What [addEvent] leaves when the registration succeeds. *)
Lemma implements_add m W fd w c e x :
  implements m W → 0 ≤ fd → fd ≠ (tickleFds_ m).1 → ctxs_ m !! Z.to_nat fd = Some c → fc_wf fd c →
  W !! (fd, w) = None → ec_ok e → armed e = true → waiter_of e = Some x →
  steps_to m (after m fd (set_ec w e (set_events (Z.lor (events c) (ev_of w)) c)) 1
                (<[fd := Z.lor (Z.lor EPOLLET (events c)) (ev_of w)]> (epoll_ m)))
    (<[(fd, w) := x]> W).
Proof.
  intros Himp Hfd Ht Hc Hcw HWw He Hearm Hew.
  pose proof (implements_lookup m W fd c w Himp Hfd Hc) as Hx. rewrite HWw in Hx.
  apply (implements_after m W _ fd c); try done.
  - pose proof (fc_wf_after fd c w e Hcw He) as H. by rewrite Hearm in H.
  - rewrite count_set, Hearm, (armed_waiter (get_ec w c)), Hx. done.
  - intros i. case_decide as Hi; [|by rewrite lookup_insert_ne].
    subst. rewrite lookup_insert_eq, <-Z.lor_assoc. unfold interest.
    replace (events (set_ec w e _)) with (Z.lor (events c) (ev_of w)) by (by destruct w).
    destruct (Z.eqb_spec (Z.lor (events c) (ev_of w)) 0) as [H0|]; [|done].
    apply Z.lor_eq_0_iff in H0 as [_ H0]. by destruct w.
  - intros w'. rewrite get_set_ec. destruct (decide (w' = w)) as [->|Hne].
    + rewrite lookup_insert_eq. by destruct w.
    + rewrite lookup_insert_ne by congruence.
      rewrite <-(implements_lookup m W fd c w') by (done || lia). by destruct w, w'.
  - intros fd' w' Hne. by rewrite lookup_insert_ne by congruence.
Qed.

Lemma spec_op_steps_add m W rt s cf fd w k :
  implements m W → 0 ≤ fd < 2 ^ 30 → fd ≠ (tickleFds_ m).1 → W !! (fd, w) = None →
  (k = None → cf.2 = true) →
  ∃ m', addEvent rt (Some s) cf fd (ev_of w) k m = Ret (m', if rt =? 0 then 0 else -1) ∧
        steps_to m m' (spec_op (OpAdd rt (Some s) cf fd w k) W).1.
Proof.
  intros Himp Hfd Ht HWw Hcf.
  destruct (addEvent_ready m W rt (Some s) cf fd (ev_of w) k Himp Hfd)
    as (m1 & c & -> & (Himp1 & Ht1 & Hsz1) & Hc & Hat & Hcw).
  pose proof (implements_lookup m1 W fd c w Himp1 ltac:(lia) Hc) as Hx. rewrite HWw in Hx.
  unfold addEvent_locked. rewrite Hat. cbn. rewrite (events_has fd), Hx by done. cbn.
  destruct (rt =? 0) eqn:Hrt; cbn.
  2:{ exists m1. unfold epoll_ctl. by rewrite Hrt. }
  apply Z.eqb_eq in Hrt as ->. rewrite getContext_ev. cbn.
  assert (Hec : get_ec w c = EC_empty).
  { assert (ec_ok (get_ec w c)) by (destruct w; apply Hcw).
    unfold waiter_of in Hx. unfold ec_ok in *.
    by destruct (get_ec w c) as [[?|] [?|] [?|]]. }
  assert (Hec' : get_ec w (set_events (Z.lor (events c) (ev_of w)) c) = EC_empty)
    by (by destruct w).
  rewrite Hec'. cbn.
  set (e := match k with Some f => mkEC (Some s) None (Some f)
            | None => mkEC (Some s) (Some cf.1) None end).
  exists (after m1 fd (set_ec w e (set_events (Z.lor (events c) (ev_of w)) c)) 1
           (<[fd := Z.lor (Z.lor EPOLLET (events c)) (ev_of w)]> (epoll_ m1))).
  split.
  - unfold e. destruct k; cbn; [|rewrite Hcf by done; cbn]; by destruct (events c =? 0).
  - destruct (implements_add m1 W fd w c e (s, match k with Some f => TCb f | None => TFiber (Some cf.1) end))
      as (? & ? & ?); try done; try lia; try congruence; unfold e; by destruct k.
Qed.

(** *** Triggering *)
Definition clear (b : bool) (w : which) c : FdContext S C :=
  if b then set_ec w EC_empty (set_events (Z.land (events c) (Z.lnot (ev_of w))) c) else c.

Lemma clear_wf i b w c : fc_wf i c → fc_wf i (clear b w c).
Proof. destruct b; [apply fc_wf_clear|done]. Qed.

Lemma get_clear b w w' c :
  get_ec w' (clear b w c) = if b && bool_decide (w = w') then EC_empty else get_ec w' c.
Proof. by destruct b, w, w'. Qed.

Lemma after_id m fd c ep :
  ctxs_wf m → ctxs_ m !! Z.to_nat fd = Some c →
  mkIOM (tickleFds_ m) (pendingEventCount_ m) (ctxs_ m) (fdContexts_ m) ep = after m fd c 0 ep.
Proof.
  intros Hwf Hc. unfold after. rewrite list_insert_id by done. f_equal.
  rewrite (cw_pending m Hwf). solve_int.
Qed.

Lemma ctx_at_after m fd c d ep :
  (Z.to_nat fd < length (ctxs_ m))%nat → ctx_at (Z.to_nat fd) (after m fd c d ep) = Ret c.
Proof. intros Hlen. unfold ctx_at, after. cbn. by rewrite list_lookup_insert_eq by done. Qed.

Lemma trigger_if_after m fd c d ep mask w b :
  (Z.to_nat fd < length (ctxs_ m))%nat → fc_wf fd c →
  (b = true → armed (get_ec w c) = true) → (Z.land mask (ev_of w) =? 0) = negb b →
  trigger_if mask (ev_of w) (Z.to_nat fd) (after m fd c d ep) =
    Ret (after m fd (clear b w c) (d - Z.b2z b) ep,
         if b then option_list (waiter_of (get_ec w c)) else []).
Proof.
  intros Hlen Hcw Harm Hmask. unfold trigger_if. rewrite Hmask. destruct b; cbn.
  - rewrite ctx_at_after by done. cbn.
    pose proof (Harm eq_refl) as Ha. rewrite armed_waiter in Ha.
    destruct (waiter_of (get_ec w c)) as [x|] eqn:Hx; [|done].
    rewrite (triggerEvent_armed fd c w x) by done. cbn. do 2 f_equal.
    unfold add_pending, put, after. cbn. rewrite list_insert_insert_eq. f_equal. solve_int.
  - do 2 f_equal. unfold after. f_equal. f_equal. lia.
Qed.

Lemma lookup_drop W fd l fd' v :
  drop W fd l !! (fd', v) = if decide (fd' = fd ∧ v ∈ l) then None else W !! (fd', v).
Proof.
  induction l as [|w l IH].
  - rewrite decide_False by set_solver. done.
  - change (drop W fd (w :: l)) with (delete (fd, w) (drop W fd l)).
    destruct (decide ((fd, w) = (fd', v))) as [[= -> ->]|Hne].
    + rewrite lookup_delete_eq, decide_True by set_solver. done.
    + rewrite lookup_delete_ne, IH by done. apply decide_ext. set_solver.
Qed.

Lemma count_clear b w c :
  (b = true → armed (get_ec w c) = true) → count (clear b w c) = count c - Z.b2z b.
Proof.
  intros Hb. destruct b; cbn; [|lia].
  pose proof (count_set c w EC_empty (Z.land (events c) (Z.lnot (ev_of w)))) as H.
  rewrite Hb in H by done. cbn in H. lia.
Qed.

Definition sel_clear (sel : which → bool) c : FdContext S C :=
  clear (sel CWrite) CWrite (clear (sel CRead) CRead c).
Definition sel_count (sel : which → bool) : Z := Z.b2z (sel CRead) + Z.b2z (sel CWrite).
Definition selected (sel : which → bool) : list which :=
  filter (λ w, sel w = true) [CRead; CWrite].

#[local] Arguments selected : simpl never.

Lemma elem_of_selected sel w : w ∈ selected sel ↔ sel w = true.
Proof. unfold selected. rewrite list_elem_of_filter. destruct w; set_solver. Qed.

Lemma get_sel_clear sel w c :
  get_ec w (sel_clear sel c) = if sel w then EC_empty else get_ec w c.
Proof.
  unfold sel_clear. rewrite !get_clear.
  destruct w, (sel CRead), (sel CWrite); done.
Qed.

(** The triggers [cancelAll] and [idle] make, one after the other. *)
Lemma trigger_both m W fd c ep sel mask1 mask2 :
  implements m W → 0 ≤ fd → ctxs_ m !! Z.to_nat fd = Some c → fc_wf fd c →
  (∀ w, sel w = true → waits W fd w = true) →
  (Z.land mask1 (ev_of CRead) =? 0) = negb (sel CRead) →
  (Z.land mask2 (ev_of CWrite) =? 0) = negb (sel CWrite) →
  ∃ l1 l2, l1 ++ l2 = found W fd (selected sel) ∧
    trigger_if mask1 READ (Z.to_nat fd)
      (mkIOM (tickleFds_ m) (pendingEventCount_ m) (ctxs_ m) (fdContexts_ m) ep) =
      Ret (after m fd (clear (sel CRead) CRead c) (0 - Z.b2z (sel CRead)) ep, l1) ∧
    trigger_if mask2 WRITE (Z.to_nat fd)
      (after m fd (clear (sel CRead) CRead c) (0 - Z.b2z (sel CRead)) ep) =
      Ret (after m fd (sel_clear sel c) (- sel_count sel) ep, l2).
Proof.
  intros Himp Hfd Hc Hcw Hsel Hm1 Hm2.
  assert (Hlen := lookup_lt_Some _ _ _ Hc). assert (Hwf : ctxs_wf m) by apply Himp.
  assert (Hw : ∀ w, waiter_of (get_ec w c) = W !! (fd, w))
    by (intros w; by eapply implements_lookup).
  assert (Harm : ∀ w, sel w = true → armed (get_ec w c) = true)
    by (intros w ?%Hsel; rewrite armed_waiter, Hw; done).
  exists (if sel CRead then option_list (W !! (fd, CRead)) else []),
         (if sel CWrite then option_list (W !! (fd, CWrite)) else []).
  split; [|split].
  - unfold selected, found. rewrite !filter_cons.
    destruct (sel CRead), (sel CWrite); simplify_option_eq; try done;
      by destruct (W !! (fd, CRead)), (W !! (fd, CWrite)).
  - rewrite (after_id m fd c) by done. change READ with (ev_of CRead).
    rewrite (trigger_if_after _ _ _ _ _ _ _ (sel CRead)) by auto. by rewrite Hw.
  - change WRITE with (ev_of CWrite).
    rewrite (trigger_if_after _ _ _ _ _ _ _ (sel CWrite)); try done; [| |].
    + rewrite get_clear, andb_false_r, Hw. unfold sel_count, sel_clear. do 3 f_equal. lia.
    + by apply clear_wf.
    + rewrite get_clear, andb_false_r. apply Harm.
Qed.

Lemma implements_sel m W fd c ep sel :
  implements m W → 0 ≤ fd → fd ≠ (tickleFds_ m).1 →
  ctxs_ m !! Z.to_nat fd = Some c → fc_wf fd c →
  (∀ w, sel w = true → waits W fd w = true) →
  (∀ i, ep !! i = if decide (i = fd) then interest (events (sel_clear sel c)) else epoll_ m !! i) →
  steps_to m (after m fd (sel_clear sel c) (- sel_count sel) ep) (drop W fd (selected sel)).
Proof.
  intros Himp Hfd Ht Hc Hcw Hsel Hep.
  assert (Hw : ∀ w, waiter_of (get_ec w c) = W !! (fd, w))
    by (intros w; by eapply implements_lookup).
  assert (Harm : ∀ w, sel w = true → armed (get_ec w c) = true)
    by (intros w ?%Hsel; rewrite armed_waiter, Hw; done).
  apply (implements_after m W _ fd c); try done.
  - by do 2 apply clear_wf.
  - unfold sel_clear, sel_count. rewrite !count_clear; [lia|apply Harm|].
    rewrite get_clear, andb_false_r. apply Harm.
  - intros w. rewrite get_sel_clear, lookup_drop. destruct (sel w) eqn:Hs.
    + rewrite decide_True by (by rewrite elem_of_selected). done.
    + rewrite decide_False; [apply Hw|]. rewrite elem_of_selected. intros [_ ?]. congruence.
  - intros fd' w Hne. rewrite lookup_drop, decide_False by (by intros [? _]). done.
Qed.

Lemma land_bits r w r' w' : Z.land (bits r w) (bits r' w') = bits (r && r') (w && w').
Proof. by destruct r, w, r', w'. Qed.
Lemma land_lnot_bits r w r' w' :
  Z.land (bits r w) (Z.lnot (bits r' w')) = bits (r && negb r') (w && negb w').
Proof. by destruct r, w, r', w'. Qed.
Lemma bits_has r w v : (Z.land (bits r w) (ev_of v) =? 0) = negb (match v with CRead => r | CWrite => w end).
Proof. by destruct r, w, v. Qed.
Lemma bits_zero r w : (bits r w =? 0) = negb (r || w).
Proof. by destruct r, w. Qed.

Lemma lor_has (a b c : Z) : (Z.land (Z.lor a b) c =? 0) = (Z.land a c =? 0) && (Z.land b c =? 0).
Proof.
  rewrite Z.land_lor_distr_l. apply eq_true_iff_eq.
  rewrite andb_true_iff, !Z.eqb_eq. apply Z.lor_eq_0_iff.
Qed.

(** The bits [idle] acts on are those the report fires. *)
Lemma real_events_fires ev r w :
  real_events_of ev (bits r w) = bits (fires ev CRead r) (fires ev CWrite w).
Proof.
  assert (H : ∀ x y, (if x : bool then NONE else Z.lor NONE READ) = bits (negb x) false →
    (if y : bool then bits (negb x) false else Z.lor (bits (negb x) false) WRITE) =
    bits (negb x) (negb y)) by (by intros [] []).
  unfold real_events_of, fires. cbn [ev_of].
  change EPOLLIN with READ. change EPOLLOUT with WRITE.
  destruct (Z.land ev (Z.lor EPOLLERR EPOLLHUP) =? 0); cbn [negb andb].
  - rewrite !orb_false_r. destruct (Z.land ev READ =? 0), (Z.land ev WRITE =? 0); done.
  - rewrite !lor_has.
    destruct (Z.land ev READ =? 0), (Z.land ev WRITE =? 0), r, w; done.
Qed.

Lemma events_bits m W fd c :
  implements m W → 0 ≤ fd → ctxs_ m !! Z.to_nat fd = Some c → fc_wf fd c →
  events c = bits (waits W fd CRead) (waits W fd CWrite).
Proof.
  intros Himp Hfd Hc (_&_&_&->). unfold waits.
  by rewrite !armed_waiter, <-!(implements_lookup m W fd c).
Qed.

Lemma events_sel_clear i c sel :
  fc_wf i c →
  events (sel_clear sel c) =
    bits (armed (read c) && negb (sel CRead)) (armed (write c) && negb (sel CWrite)).
Proof.
  intros Hc. assert (Hc' : fc_wf i (sel_clear sel c)) by (by do 2 apply clear_wf).
  destruct Hc' as (_&_&_&->).
  change (read (sel_clear sel c)) with (get_ec CRead (sel_clear sel c)).
  change (write (sel_clear sel c)) with (get_ec CWrite (sel_clear sel c)).
  rewrite !get_sel_clear.
  destruct (sel CRead), (sel CWrite); cbn; by rewrite ?andb_true_r, ?andb_false_r.
Qed.

Lemma waits_found W fd w : waits W fd w = true → W !! (fd, w) ≠ None.
Proof. unfold waits. by destruct (W !! (fd, w)). Qed.

Lemma found_sel_nil W fd sel :
  (∀ w, sel w = true → waits W fd w = false) → found W fd (selected sel) = [].
Proof.
  intros H. unfold found, selected. rewrite !filter_cons.
  pose proof (H CRead). pose proof (H CWrite). unfold waits in *.
  destruct (sel CRead), (sel CWrite); simplify_option_eq; try done;
    destruct (W !! (fd, CRead)), (W !! (fd, CWrite)); naive_solver.
Qed.

Lemma found_sel_cons W fd sel w :
  sel w = true → waits W fd w = true → found W fd (selected sel) ≠ [].
Proof.
  intros Hs Hw Hf. apply waits_found in Hw. destruct (W !! (fd, w)) as [x|] eqn:Hx; [|done].
  assert (Hin : x ∈ found W fd (selected sel)).
  { apply list_elem_of_omap. exists w. by rewrite elem_of_selected. }
  rewrite Hf in Hin. by apply not_elem_of_nil in Hin.
Qed.

(** The bits a report leaves registered. *)
Lemma left_events m W fd c sel :
  implements m W → 0 ≤ fd → ctxs_ m !! Z.to_nat fd = Some c → fc_wf fd c →
  bits (waits W fd CRead && negb (sel CRead)) (waits W fd CWrite && negb (sel CWrite)) =
  events (sel_clear sel c).
Proof.
  intros Himp Hfd Hc Hcw. rewrite (events_sel_clear fd) by done. unfold waits.
  rewrite <-(implements_lookup m W fd c CRead), <-(implements_lookup m W fd c CWrite) by done.
  by rewrite <-!armed_waiter.
Qed.

Lemma spec_op_steps_event m W rt fd ev :
  implements m W → op_ok (tickleFds_ m).1 (isize m) (OpEvent rt fd ev) W →
  ∃ m', run_op (OpEvent rt fd ev) m = Ret (m', (spec_op (OpEvent rt fd ev) W).2) ∧
        steps_to m m' (spec_op (OpEvent rt fd ev) W).1.
Proof.
  intros Himp (Hfd0 & Ht & Hsz & Hev). pose proof Himp as [[Hwf Hep] HW].
  assert (Hfd : 0 ≤ fd < isize m).
  { destruct Hsz as [|[w Hw]]; [done|]. destruct (Z.lt_ge_cases fd (isize m)); [done|].
    apply waits_found in Hw. by rewrite (implements_out m W fd w) in Hw. }
  destruct (ctx_at_wf m fd Hwf Hfd) as (c & Hc & Hat & Hcw).
  pose proof (events_bits m W fd c Himp ltac:(lia) Hc Hcw) as Hb.
  cbn [run_op spec_op]. set (sel := fired W fd ev). fold (selected sel).
  unfold idle_event. rewrite Hat. cbn.
  rewrite Hb, real_events_fires, land_bits. fold (fired W fd ev CRead) (fired W fd ev CWrite).
  fold sel. unfold NONE. rewrite bits_zero.
  assert (Hnone : (∀ w, sel w = true → waits W fd w = false) →
            waits W fd CRead && sel CRead || waits W fd CWrite && sel CWrite = false).
  { intros H. pose proof (H CRead). pose proof (H CWrite).
    destruct (sel CRead), (sel CWrite), (waits W fd CRead), (waits W fd CWrite); naive_solver. }
  destruct (waits W fd CRead && sel CRead || waits W fd CWrite && sel CWrite) eqn:Hany; cbn.
  2:{ exists m. unfold spec_act. rewrite found_sel_nil.
      - rewrite bool_decide_true, orb_true_r by done. done.
      - intros [] Hs; rewrite Hs, andb_true_r in Hany; [|rewrite orb_comm in Hany];
          by apply orb_false_iff in Hany as [? _]. }
  destruct Hev as [Hev|Hev]; [by specialize (Hnone Hev)|].
  assert (Hf : found W fd (selected sel) ≠ []).
  { apply orb_true_iff in Hany as [[? ?]%andb_true_iff|[? ?]%andb_true_iff];
      eapply found_sel_cons; eassumption. }
  rewrite land_lnot_bits. unfold spec_act. rewrite (bool_decide_false (found _ _ _ = _)) by done.
  rewrite orb_false_r. destruct (rt =? 0) eqn:Hrt; cbn.
  2:{ exists m. unfold epoll_ctl. by rewrite Hrt. }
  apply Z.eqb_eq in Hrt as ->.
  set (left := bits (waits W fd CRead && negb (sel CRead))
                    (waits W fd CWrite && negb (sel CWrite))).
  assert (Hleft : left = events (sel_clear sel c)) by (apply (left_events m W fd); done || lia).
  rewrite (proj1 Hcw).
  set (ep := epoll_ (epoll_ctl 0 (if left =? 0 then EPOLL_CTL_DEL else EPOLL_CTL_MOD) fd
                       (Z.lor EPOLLET left) m)).
  destruct (trigger_both m W fd c ep sel (bits (sel CRead) (sel CWrite)) (bits (sel CRead) (sel CWrite)))
    as (l1 & l2 & Hl & H1 & H2); try done; try lia; try apply bits_has.
  exists (after m fd (sel_clear sel c) (- sel_count sel) ep). split.
  - unfold epoll_ctl. cbn. unfold ep, epoll_ctl in H1, H2. cbn in H1, H2.
    rewrite H1. cbn. rewrite H2. cbn. by rewrite Hl.
  - apply implements_sel; try done; try lia. intros i. unfold ep. rewrite <-Hleft.
    apply epoll_ctl_interest.
Qed.

Lemma found_waiting W fd : found W fd (selected (waits W fd)) = found W fd [CRead; CWrite].
Proof.
  unfold found, selected, waits. rewrite !filter_cons, filter_nil.
  destruct (W !! (fd, CRead)) eqn:Hr, (W !! (fd, CWrite)) eqn:Hw;
    simplify_option_eq; by rewrite ?Hr, ?Hw.
Qed.

Lemma drop_waiting W fd : drop W fd (selected (waits W fd)) = drop W fd [CRead; CWrite].
Proof.
  apply map_eq. intros [fd' w]. rewrite !lookup_drop. do 2 case_decide; try done.
  - destruct w; set_solver.
  - destruct (W !! (fd', w)) eqn:Hx; [|done]. destruct H0 as [-> _].
    exfalso. apply H. split; [done|]. apply elem_of_selected. unfold waits. by rewrite Hx.
Qed.

Lemma spec_op_steps_cancelAll m W rt fd :
  implements m W → 0 ≤ fd → fd ≠ (tickleFds_ m).1 →
  ∃ m', run_op (OpCancelAll rt fd) m = Ret (m', (spec_op (OpCancelAll rt fd) W).2) ∧
        steps_to m m' (spec_op (OpCancelAll rt fd) W).1.
Proof.
  intros Himp Hfd Ht. pose proof Himp as [[Hwf Hep] HW]. cbn [run_op spec_op].
  unfold cancelAll.
  destruct (find_ctx_wf m fd Hwf Hfd) as [[Hge ->]|(c & Hin & -> & Hc & Hat & Hcw)]; cbn.
  { exists m. rewrite spec_act_nil; [done|]. intros w _. by eapply implements_out. }
  rewrite Hat. cbn. pose proof (events_bits m W fd c Himp Hfd Hc Hcw) as Hb.
  rewrite Hb, bits_zero. set (sel := waits W fd).
  destruct (sel CRead || sel CWrite) eqn:Hany; cbn.
  2:{ exists m. rewrite spec_act_nil; [done|]. intros w _.
      unfold sel, waits in Hany. apply orb_false_iff in Hany as [Hr Hw].
      destruct w; [by destruct (W !! (fd, CRead))|by destruct (W !! (fd, CWrite))]. }
  unfold spec_act. rewrite bool_decide_false.
  2:{ rewrite <-found_waiting. fold sel.
      apply orb_true_iff in Hany as [?|?]; eapply found_sel_cons; eassumption. }
  rewrite orb_false_r. destruct (rt =? 0) eqn:Hrt; cbn -[found drop].
  2:{ exists m. unfold epoll_ctl. by rewrite Hrt. }
  apply Z.eqb_eq in Hrt as ->. set (c2 := clear (sel CRead) CRead c).
  assert (Hc2 : fc_wf fd c2) by (by apply clear_wf).
  assert (Hlen := lookup_lt_Some _ _ _ Hc).
  destruct (trigger_both m W fd c (epoll_ (epoll_ctl 0 EPOLL_CTL_DEL fd 0 m)) sel
              (bits (sel CRead) (sel CWrite)) (events c2))
    as (l1 & l2 & Hl & H1 & H2); try done; try apply bits_has.
  { rewrite (events_has fd) by done. unfold c2. rewrite get_clear, andb_false_r.
    rewrite (implements_lookup m W fd c) by done. unfold sel, waits. by rewrite negb_involutive. }
  assert (Hz : events (sel_clear sel c) = 0).
  { rewrite (events_sel_clear fd), !armed_waiter by done.
    change (read c) with (get_ec CRead c). change (write c) with (get_ec CWrite c).
    rewrite !(implements_lookup m W fd c) by done. unfold sel, waits.
    by destruct (W !! (fd, CRead)), (W !! (fd, CWrite)). }
  exists (after m fd (sel_clear sel c) (- sel_count sel) (delete fd (epoll_ m))). split.
  - unfold epoll_ctl in *. cbn -[trigger_if found ctx_at after sel_clear] in *.
    rewrite H1. cbn -[trigger_if found ctx_at after sel_clear]. rewrite ctx_at_after by done. fold c2.
    cbn -[trigger_if found ctx_at after sel_clear]. fold c2 in H2. rewrite H2.
    cbn -[found ctx_at after sel_clear]. rewrite ctx_at_after by done. cbn -[found after sel_clear].
    rewrite Hz. cbn -[found after sel_clear]. by rewrite Hl, found_waiting.
  - rewrite <-drop_waiting. fold sel. apply implements_sel; try done.
    intros i. case_decide as Hi.
    + rewrite Hz. subst. apply lookup_delete_eq.
    + by apply lookup_delete_ne.
Qed.

(** One operation of the manager is one operation on the map. *)
Lemma run_op_refines m W o :
  implements m W → op_ok (tickleFds_ m).1 (isize m) o W →
  ∃ m', run_op o m = Ret (m', (spec_op o W).2) ∧ steps_to m m' (spec_op o W).1.
Proof.
  intros Himp Hok. destruct o as [rt cs cf fd w k|rt fd w|rt fd w|rt fd|rt fd ev].
  - destruct Hok as (? & ? & ? & [s ->] & ?). cbn [run_op].
    destruct (spec_op_steps_add m W rt s cf fd w k) as (m' & -> & ?); try done.
    exists m'. split; [|done]. cbn. by destruct (rt =? 0).
  - destruct Hok as [? ?]. destruct (spec_op_steps_del m W rt fd w) as (m' & H1 & H2 & H3); try done.
    exists m'. cbn [run_op spec_op]. rewrite H1. cbn.
    destruct (W !! (fd, w)) as [x|] eqn:Hx; cbn.
    + rewrite (spec_act_cons _ _ _ _ _ x) by done. by destruct (rt =? 0).
    + rewrite spec_act_nil by (by intros ? ->%list_elem_of_singleton).
      rewrite delete_id in H3 by done. by destruct (rt =? 0).
  - destruct Hok as [? ?]. destruct (spec_op_steps_del m W rt fd w) as (m' & H1 & H2 & H3); try done.
    exists m'. cbn [run_op spec_op]. rewrite H2. cbn.
    destruct (W !! (fd, w)) as [x|] eqn:Hx; cbn.
    + rewrite (spec_act_cons _ _ _ _ _ x) by done. by destruct (rt =? 0).
    + rewrite spec_act_nil by (by intros ? ->%list_elem_of_singleton).
      rewrite delete_id in H3 by done. by destruct (rt =? 0).
  - apply spec_op_steps_cancelAll; naive_solver.
  - by apply spec_op_steps_event.
Qed.

(** A sequence of calls, on the manager and on the map. *)
Fixpoint run_ops (l : list op) m : outcome (IOManager S C * list response) :=
  match l with
  | [] => Ret (m, [])
  | o :: l' => '(m1, r) ← run_op o m; '(m2, rs) ← run_ops l' m1; Ret (m2, r :: rs)
  end.
Fixpoint spec_ops (l : list op) (W : waiters) : waiters * list response :=
  match l with
  | [] => (W, [])
  | o :: l' => let '(W1, r) := spec_op o W in let '(W2, rs) := spec_ops l' W1 in (W2, r :: rs)
  end.
Fixpoint ops_ok (tfd size : Z) (l : list op) (W : waiters) : Prop :=
  match l with
  | [] => True
  | o :: l' => op_ok tfd size o W ∧ ops_ok tfd size l' (spec_op o W).1
  end.

(** C2: the event manager is a map from (descriptor, event) to the one
    waiting task.  Whatever [epoll_ctl] answers, any sequence of addEvent,
    delEvent, cancelEvent, cancelAll and kernel reports, made as the callers
    promise, completes with no assertion failing; each call returns and
    schedules exactly what the map says; and in the end the pending counter
    is the number of waiters in the contexts and the kernel's interest list
    shows exactly the waited-for events. *)
Theorem iomanager_refines (tickleFds : Z * Z) (l : list op) :
  ops_ok tickleFds.1 32 l ∅ →
  ∃ m', run_ops l (IOManager_new tickleFds) = Ret (m', (spec_ops l ∅).2) ∧
        implements m' (spec_ops l ∅).1.
Proof.
  destruct (IOManager_new_wf tickleFds) as [Hwf HW].
  assert (Himp : implements (new tickleFds) ∅) by (split; [done|]; intros; by rewrite HW).
  assert (Ht : tickleFds_ (new tickleFds) = tickleFds) by done.
  assert (Hs : 32 ≤ isize (new tickleFds)) by (by vm_compute).
  revert Himp Ht Hs. generalize (new tickleFds) as m, (∅ : waiters) as W.
  induction l as [|o l IH]; intros m W Himp Ht Hs Hok; [by exists m|]. destruct Hok as [Ho Hok].
  destruct (run_op_refines m W o Himp) as (m1 & Hrun & Himp1 & Ht1 & Hs1).
  { rewrite Ht. destruct o; try done. destruct Ho as (? & ? & [|] & ?);
      (split_and!; [done..| |done]); [left; lia|by right]. }
  destruct (IH m1 (spec_op o W).1) as (m2 & Hrun2 & Himp2); [done|congruence|lia|done|].
  exists m2. cbn. rewrite Hrun. cbn. rewrite Hrun2. cbn.
  destruct (spec_op o W) as [W1 r]; cbn in *. destruct (spec_ops l W1) as [W2 rs]; done.
Qed.

(** The event loop trusts the report it is given.  When the kernel reports
    two events of a descriptor and one of them was deregistered after
    [epoll_wait] returned while the other is still waited for, [idle] asserts
    in [triggerEvent] instead of skipping the stale event. *)
Theorem idle_event_stale_report m (W : waiters) (fd ev : Z) (w : which) :
  implements m W → 0 ≤ fd < isize m →
  W !! (fd, w) ≠ None → W !! (fd, other w) = None →
  Z.land ev (ev_of w) ≠ 0 → Z.land ev (ev_of (other w)) ≠ 0 →
  idle_event 0 (Z.to_nat fd) ev m = Assert_fail.
Proof.
  intros Himp Hfd Hw Hother Hev1 Hev2. pose proof Himp as [[Hwf Hep] HW].
  destruct (ctx_at_wf m fd Hwf Hfd) as (c & Hc & Hat & Hcw).
  unfold idle_event. rewrite Hat. cbn.
  rewrite (events_bits m W fd c), real_events_fires, land_bits by (done || lia).
  assert (Hf : ∀ v, fires ev v (waits W fd v) = true).
  { intros v. unfold fires. destruct w, v; cbn in *; by rewrite (proj2 (Z.eqb_neq _ _)). }
  rewrite !Hf, !andb_true_r. unfold NONE. rewrite bits_zero.
  assert (Hlen := lookup_lt_Some _ _ _ Hc).
  assert (Hx : ∀ v, waiter_of (get_ec v c) = W !! (fd, v))
    by (intros v; eapply implements_lookup; done || lia).
  set (left := Z.land _ _). set (ep := epoll_ _).
  destruct w; cbn in Hother; unfold waits; rewrite Hother.
  - destruct (W !! (fd, CRead)) as [x|] eqn:Hr; [|done]. cbn -[trigger_if].
    unfold epoll_ctl. cbn -[trigger_if]. rewrite (after_id m fd c) by done.
    change READ with (ev_of CRead).
    rewrite (trigger_if_after _ _ _ _ _ _ _ true); try done.
    2:{ intros _. by rewrite armed_waiter, Hx, Hr. }
    cbn -[trigger_if clear after]. unfold trigger_if. cbn -[clear after].
    rewrite ctx_at_after by done. cbn -[clear after].
    change WRITE with (ev_of CWrite). rewrite (triggerEvent_disarmed fd _ CWrite); [done| |].
    + by apply clear_wf.
    + by rewrite get_clear, andb_false_r, Hx.
  - destruct (W !! (fd, CWrite)) as [x|] eqn:Hr; [|done]. cbn -[trigger_if].
    unfold trigger_if. cbn. unfold epoll_ctl. cbn. unfold ctx_at. cbn.
    unfold ctx_at in Hat. rewrite Hc. cbn.
    change READ with (ev_of CRead). rewrite (triggerEvent_disarmed fd c CRead); [done|done|].
    by rewrite Hx.
Qed.

(** A resize below the current size keeps the contexts' store, drops slots. *)
Lemma contextResize_shrink m n :
  ctxs_wf m → Z.of_nat n ≤ isize m →
  contextResize n m =
    mkIOM (tickleFds_ m) (pendingEventCount_ m) (ctxs_ m) (Some <$> seq 0 n) (epoll_ m).
Proof.
  intros Hwf Hn. rewrite isize_wf in Hn by done. unfold contextResize.
  rewrite (cw_slots m Hwf), resize_le by (rewrite length_fmap, length_seq; lia).
  rewrite <-fmap_take, take_seq, Nat.min_l by lia.
  assert (H : ∀ i (l : list nat) store,
    fill_slots i (Some <$> l) store = (Some <$> l, store : list (FdContext S C))).
  { intros i l. revert i. induction l as [|x l IH]; intros i store; cbn; [done|]. by rewrite IH. }
  by rewrite H.
Qed.

(** AddEvent decides to grow the context vector under the read lock and
    grows it under a second lock.  When, in between, another thread has grown
    it further and registered an event on a higher descriptor, the late resize
    shrinks the vector: the registered event is still counted and the kernel
    still watches it, but neither delEvent nor cancelAll can reach it. *)
Theorem stale_resize_loses_event m (W : waiters) (a b : Z) (w : which)
    (s : S) (cf : Z * bool) (k : C) :
  implements m W → isize m ≤ a → a * 3 / 2 ≤ b < 2 ^ 30 → b ≠ (tickleFds_ m).1 →
  ∃ m1 m2 p,
    addEvent_find a m = Ret None ∧
    addEvent 0 (Some s) cf b (ev_of w) (Some k) m = Ret (m1, 0) ∧
    waiter m1 b w = Some (s, TCb k) ∧
    addEvent_grow a m1 = Ret (m2, p) ∧
    pendingEventCount_ m2 = pendingEventCount_ m1 ∧ epoll_ m2 !! b ≠ None ∧
    (∀ rt, delEvent rt b (ev_of w) m2 = Ret (m2, false) ∧ cancelAll rt b m2 = Ret (m2, false, [])).
Proof.
  intros Himp Ha Hb Ht. pose proof Himp as [[Hwf Hep] HW].
  assert (H32 : 32 ≤ isize m) by (rewrite isize_wf by done; pose proof (cw_size m Hwf); lia).
  assert (Hq : a < a * 3 / 2) by (Z.div_mod_to_equations; lia).
  assert (HWb : W !! (b, w) = None) by (eapply implements_out; [done|lia|lia]).
  destruct (spec_op_steps_add m W 0 s cf b w (Some k)) as (m1 & Hadd & Himp1 & Ht1 & Hs1);
    [done|lia|done|done|done|].
  pose proof Himp1 as [[Hwf1 Hep1] HW1].
  assert (Hwb : waiter m1 b w = Some (s, TCb k)).
  { rewrite HW1 by lia. cbn. by rewrite lookup_insert_eq. }
  assert (Hb1 : b < isize m1).
  { destruct (Z.lt_ge_cases b (isize m1)); [done|]. by rewrite waiter_out in Hwb. }
  set (m2 := contextResize (Z.to_nat (a * 3 / 2)) m1).
  assert (Hm2 : m2 = mkIOM (tickleFds_ m1) (pendingEventCount_ m1) (ctxs_ m1)
                       (Some <$> seq 0 (Z.to_nat (a * 3 / 2))) (epoll_ m1))
    by (apply contextResize_shrink; [done|lia]).
  assert (Hs2 : isize m2 = a * 3 / 2).
  { unfold isize. rewrite Hm2. cbn [fdContexts_]. rewrite length_fmap, length_seq.
    rewrite Z2Nat.id by lia. apply i32_small. lia. }
  assert (Hfind : find_ctx b m2 = Ret None).
  { unfold find_ctx. case_step; [done|]. rewrite Hs2 in *. lia. }
  exists m1, m2, (Z.to_nat a). split_and!; try done.
  - unfold addEvent_find. case_step; [lia|done].
  - unfold addEvent_grow. fold m2. unfold slot. case_step; [lia|]. rewrite Hm2. cbn [fdContexts_].
    rewrite list_lookup_fmap, lookup_seq_lt by lia. done.
  - by rewrite Hm2.
  - rewrite Hm2. cbn. specialize (Hep1 (Z.to_nat b)). rewrite Z2Nat.id in Hep1 by lia.
    rewrite Hep1 by (by rewrite Ht1).
    destruct (ctx_at_wf m1 b Hwf1) as (c & Hc & _ & Hcw); [lia|].
    rewrite Hc. cbn. unfold interest. rewrite (events_none b) by done.
    rewrite (waiter_in m1 b c w) in Hwb by (done || lia).
    destruct w; cbn in Hwb; rewrite Hwb; [done|]. by rewrite andb_false_r.
  - intros rt. unfold delEvent, cancelAll. by rewrite Hfind.
Qed.
End IOManagerLaws.

Section IdleLaws.
Context {S C F W : Type}.

Lemma wait_timeout_max : wait_timeout u64_max = 3000.
Proof. done. Qed.

End IdleLaws.

(** ** Witnesses *)

Definition iom0 : IOManager nat nat := IOManager_new (3, 4).
Definition iom0_ops : list (op (S := nat) (C := nat)) :=
  [OpAdd 0 (Some 1%nat) (8, true) 5 CRead None;
   OpAdd 0 (Some 1%nat) (8, true) 40 CWrite (Some 7%nat);
   OpAdd 0 (Some 1%nat) (8, true) 40 CRead (Some 9%nat);
   OpEvent 0 40 8; OpDel (-1) 5 CRead; OpCancelAll 0 5].

Lemma iomanager_refines_witness :
  ops_ok 3 32 iom0_ops ∅ ∧
  ∃ m', run_ops iom0_ops (IOManager_new (3, 4)) = Ret (m', (spec_ops iom0_ops ∅).2) ∧
        implements m' (spec_ops iom0_ops ∅).1.
Proof.
  assert (Hok : ops_ok 3 32 iom0_ops ∅).
  { cbn -[fired waits]. split_and!; try done; try lia; try by eexists.
    - right. by exists CRead.
    - right. by intros []. }
  split; [exact Hok|]. exact (iomanager_refines (3, 4) iom0_ops Hok).
Defined.

Lemma iom0_implements : implements iom0 ∅.
Proof.
  destruct (IOManager_new_wf (S := nat) (C := nat) (3, 4)) as [Hwf HW].
  split; [exact Hwf|]. intros fd w _. unfold iom0. by rewrite HW.
Qed.

Definition iom1_op : op (S := nat) (C := nat) := OpAdd 0 (Some 1%nat) (8, true) 5 CRead None.
Definition iom1 : IOManager nat nat :=
  match run_op iom1_op iom0 with Ret (m, _) => m | _ => iom0 end.

Lemma iom1_implements : implements iom1 {[(5, CRead) := (1%nat, TFiber (Some 8))]}.
Proof.
  destruct (run_op_refines iom0 ∅ iom1_op iom0_implements) as (m' & Hr & Himp & _).
  { cbn. split_and!; try done; try lia. }
  unfold iom1. rewrite Hr. exact Himp.
Qed.

Lemma idle_event_stale_report_witness :
  implements iom1 {[(5, CRead) := (1%nat, TFiber (Some 8))]} ∧
  idle_event 0 5 5 iom1 = Assert_fail.
Proof.
  split; [exact iom1_implements|].
  by apply (idle_event_stale_report iom1 _ 5 5 CRead iom1_implements).
Defined.

Lemma stale_resize_loses_event_witness :
  implements iom0 ∅ ∧
  ∃ m1 m2 p,
    addEvent_find 40 iom0 = Ret None ∧
    addEvent 0 (Some 1%nat) (8, true) 100 READ (Some 7%nat) iom0 = Ret (m1, 0) ∧
    waiter m1 100 CRead = Some (1%nat, TCb 7%nat) ∧
    addEvent_grow 40 m1 = Ret (m2, p) ∧
    pendingEventCount_ m2 = pendingEventCount_ m1 ∧ epoll_ m2 !! 100 ≠ None ∧
    (∀ rt, delEvent rt 100 READ m2 = Ret (m2, false) ∧ cancelAll rt 100 m2 = Ret (m2, false, [])).
Proof.
  split; [exact iom0_implements|].
  apply (stale_resize_loses_event iom0 ∅ 40 100 CRead 1%nat (8, true) 7%nat iom0_implements);
    done.
Defined.

Definition tm1 : TimerManager nat nat := (addTimer 100 8 50 (Some (Fun 1%nat)) false (TimerManager_new 0)).1.

