(* ===== verification/StringUtil.v ===== *)
(** * Strings: StringUtil, FSUtil::Dirname/Basename, TypeUtil, Join, BinarySearch
      (util.h, util.cpp)

    A loop over C string pointers from [str.c_str()] to its end is a recursion over
    the remaining characters with the ones already passed as an argument.  The
    C library's classification functions are those of the "C" locale. *)
From S2P Require Import Prelude.
From Stdlib Require Import Sorted.

Definition code (c : ascii) : Z := Z.of_N (N_of_ascii c).
Definition chr (z : Z) : ascii := ascii_of_N (Z.to_N (u8 z)).

(** [toupper], [tolower], [isxdigit] of the C library. *)
Definition toupper (c : ascii) : ascii :=
  if (97 <=? code c) && (code c <=? 122) then chr (code c - 32) else c.
Definition tolower (c : ascii) : ascii :=
  if (65 <=? code c) && (code c <=? 90) then chr (code c + 32) else c.
Definition isxdigit (c : ascii) : bool :=
  ((48 <=? code c) && (code c <=? 57)) || ((65 <=? code c) && (code c <=? 70)) ||
  ((97 <=? code c) && (code c <=? 102)).

Definition ToUpper (name : str) : str := toupper <$> name.
Definition ToLower (name : str) : str := tolower <$> name.

(** ** URL encoding *)

Definition zeros16 : list Z := [0; 0; 0; 0; 0; 0; 0; 0; 0; 0; 0; 0; 0; 0; 0; 0].
Definition uri_chars : list Z :=
  zeros16 ++ zeros16 ++
  [0; 0; 0; 0; 0; 0; 0; 0;   0; 0; 0; 0; 0; 1; 1; 0] ++
  [1; 1; 1; 1; 1; 1; 1; 1;   1; 1; 0; 0; 0; 1; 0; 0] ++
  [0; 1; 1; 1; 1; 1; 1; 1;   1; 1; 1; 1; 1; 1; 1; 1] ++
  [1; 1; 1; 1; 1; 1; 1; 1;   1; 1; 1; 0; 0; 0; 0; 1] ++
  [0; 1; 1; 1; 1; 1; 1; 1;   1; 1; 1; 1; 1; 1; 1; 1] ++
  [1; 1; 1; 1; 1; 1; 1; 1;   1; 1; 1; 0; 0; 0; 1; 0] ++
  zeros16 ++ zeros16 ++ zeros16 ++ zeros16 ++ zeros16 ++ zeros16 ++ zeros16 ++ zeros16.

Definition xdigit_chars : list Z :=
  zeros16 ++ zeros16 ++ zeros16 ++
  [0; 1; 2; 3; 4; 5; 6; 7; 8; 9; 0; 0; 0; 0; 0; 0] ++
  [0; 10; 11; 12; 13; 14; 15; 0; 0; 0; 0; 0; 0; 0; 0; 0] ++
  zeros16 ++
  [0; 10; 11; 12; 13; 14; 15; 0; 0; 0; 0; 0; 0; 0; 0; 0] ++
  zeros16 ++
  zeros16 ++ zeros16 ++ zeros16 ++ zeros16 ++ zeros16 ++ zeros16 ++ zeros16 ++ zeros16.

(** [table[(unsigned char)c]]. *)
Definition table_at (t : list Z) (c : ascii) : Z := nth (Z.to_nat (code c)) t 0.

(** [CHAR_IS_UNRESERVED(c)]. *)
Definition CHAR_IS_UNRESERVED (c : ascii) : bool := negb (table_at uri_chars c =? 0).

Definition hexdigits : str := $ "0123456789ABCDEF".
Definition hexdigit (z : Z) : ascii := nth (Z.to_nat z) hexdigits "0"%char.

(** The loop of [UrlEncode]: [done] is what [c] has passed, [ss] the buffer,
    allocated at the first character that needs escaping. *)
Fixpoint UrlEncode_loop (space_as_plus : bool) (done rest : str) (ss : option str) : option str :=
  match rest with
  | [] => ss
  | c :: rest' =>
      let ss' :=
        if negb (CHAR_IS_UNRESERVED c) then
          let s := match ss with None => done | Some s => s end in
          if Ascii.eqb c " " && space_as_plus then Some (s ++ ["+"%char])
          else Some (s ++ ["%"%char; hexdigit (Z.shiftr (code c) 4); hexdigit (Z.land (code c) 15)])
        else match ss with Some s => Some (s ++ [c]) | None => None end in
      UrlEncode_loop space_as_plus (done ++ [c]) rest' ss'
  end.

Definition UrlEncode (s : str) (space_as_plus : bool) : str :=
  match UrlEncode_loop space_as_plus [] s None with None => s | Some ss => ss end.

(** The loop of [UrlDecode]; [c += 2] skips the two digits. *)
Fixpoint UrlDecode_loop (space_as_plus : bool) (done rest : str) (ss : option str) : option str :=
  match rest with
  | [] => ss
  | c :: rest' =>
      if Ascii.eqb c "+" && space_as_plus then
        let s := match ss with None => done | Some s => s end in
        UrlDecode_loop space_as_plus (done ++ [c]) rest' (Some (s ++ [" "%char]))
      else
        let plain := UrlDecode_loop space_as_plus (done ++ [c]) rest'
                       (match ss with Some s => Some (s ++ [c]) | None => None end) in
        match rest' with
        | h :: l :: rest'' =>
            if Ascii.eqb c "%" && isxdigit h && isxdigit l then
              let s := match ss with None => done | Some s => s end in
              UrlDecode_loop space_as_plus (done ++ [c; h; l]) rest''
                (Some (s ++ [chr (Z.lor (Z.shiftl (table_at xdigit_chars h) 4)
                                        (table_at xdigit_chars l))]))
            else plain
        | _ => plain
        end
  end.

Definition UrlDecode (s : str) (space_as_plus : bool) : str :=
  match UrlDecode_loop space_as_plus [] s None with None => s | Some ss => ss end.

(** ** Searching and trimming *)

(** [std::string::npos] is [None]. *)
Fixpoint find_if (f : ascii → bool) (s : str) : option nat :=
  match s with
  | [] => None
  | c :: s' => if f c then Some O else S <$> find_if f s'
  end.
Definition find_last_if (f : ascii → bool) (s : str) : option nat :=
  (λ i, (length s - 1 - i)%nat) <$> find_if f (reverse s).

Definition mem (delimit : str) (c : ascii) : bool := bool_decide (c ∈ delimit).
Definition find_first_not_of (delimit s : str) : option nat := find_if (λ c, negb (mem delimit c)) s.
Definition find_last_not_of (delimit s : str) : option nat := find_last_if (λ c, negb (mem delimit c)) s.
Definition rfind (c : ascii) (s : str) : option nat := find_last_if (Ascii.eqb c) s.

(** [s.substr(pos, n)]. *)
Definition substr (pos n : nat) (s : str) : str := take n (drop pos s).

Definition Trim (s delimit : str) : str :=
  match find_first_not_of delimit s with
  | None => []
  | Some b =>
      match find_last_not_of delimit s with
      | None => substr b (length s) s
      | Some e => substr b (e - b + 1) s
      end
  end.

Definition TrimLeft (s delimit : str) : str :=
  match find_first_not_of delimit s with
  | None => []
  | Some b => drop b s
  end.

Definition TrimRight (s delimit : str) : str :=
  match find_last_not_of delimit s with
  | None => []
  | Some e => substr 0 e s
  end.

Definition Dirname (filename : str) : str :=
  match filename with
  | [] => ["."%char]
  | _ =>
      match rfind "/" filename with
      | Some O => ["/"%char]
      | None => ["."%char]
      | Some pos => substr 0 pos filename
      end
  end.

Definition Basename (filename : str) : str :=
  match filename with
  | [] => filename
  | _ =>
      match rfind "/" filename with
      | None => filename
      | Some pos => drop (pos + 1) filename
      end
  end.

(** [Join] of strings. *)
Fixpoint Join_from (first : bool) (l : list str) (tag ss : str) : str :=
  match l with
  | [] => ss
  | x :: l' => Join_from false l' tag ((if first then ss else ss ++ tag) ++ x)
  end.
Definition Join (l : list str) (tag : str) : str := Join_from true l tag [].

(** ** Conversions *)

(** [TypeUtil::ToChar(const std::string&)]: the [int8_t] of the first byte. *)
Definition ToChar (s : str) : Z := match s with [] => 0 | c :: _ => i8 (code c) end.

(** [TypeUtil::ToChar(const char ptr)] of a C string: it ends with a NUL. *)
Definition ToChar_ptr (s : option str) : Z :=
  match s with None => 0 | Some [] => 0 | Some (c :: _) => i8 (code c) end.

(** ** BinarySearch, at [T = int] *)

(** [arr[i]]; outside the array the behaviour is undefined. *)
Definition arr_at (arr : list Z) (i : Z) : outcome Z :=
  if i <? 0 then Undefined
  else match arr !! Z.to_nat i with Some x => Ret x | None => Undefined end.

Fixpoint BinarySearch_loop (fuel : nat) (arr : list Z) (v left right : Z) : outcome (option Z) :=
  match fuel with
  | O => Ret None
  | S fuel' =>
      if left <=? right then
        let mid := Z.quot (left + right) 2 in
        x ← arr_at arr mid;
        if v <? x then BinarySearch_loop fuel' arr v left (mid - 1)
        else
          y ← arr_at arr (Z.b2z (mid <? v));
          if negb (y =? 0) then BinarySearch_loop fuel' arr v (mid + 1) right
          else Ret (Some mid)
      else Ret (Some (- (left + 1)))
  end.

(** [None]: the fuel ran out, which [BinarySearch_terminates] excludes. *)
Definition BinarySearch (arr : list Z) (v : Z) : outcome (option Z) :=
  BinarySearch_loop (S (length arr)) arr v 0 (Z.of_nat (length arr) - 1).

(** ** URL encoding: the loops compute a per-character function *)

Definition enc_char (plus : bool) (c : ascii) : str :=
  if CHAR_IS_UNRESERVED c then [c]
  else if Ascii.eqb c " " && plus then ["+"%char]
  else ["%"%char; hexdigit (Z.shiftr (code c) 4); hexdigit (Z.land (code c) 15)].

Definition enc (plus : bool) (s : str) : str := s ≫= enc_char plus.

Fixpoint dec (plus : bool) (s : str) : str :=
  match s with
  | [] => []
  | c :: s' =>
      if Ascii.eqb c "+" && plus then " "%char :: dec plus s'
      else
        match s' with
        | h :: l :: s'' =>
            if Ascii.eqb c "%" && isxdigit h && isxdigit l
            then chr (Z.lor (Z.shiftl (table_at xdigit_chars h) 4) (table_at xdigit_chars l)) :: dec plus s''
            else c :: dec plus s'
        | _ => c :: dec plus s'
        end
  end.

(** What a loop that has allocated [ss] or not stands for. *)
Definition buffer (done : str) (ss : option str) : str :=
  match ss with None => done | Some s => s end.

Lemma UrlEncode_loop_enc plus rest : ∀ done ss,
  buffer (done ++ rest) (UrlEncode_loop plus done rest ss) = buffer done ss ++ enc plus rest.
Proof.
  induction rest as [|c rest IH]; intros done ss; cbn [UrlEncode_loop].
  - unfold enc. cbn. by rewrite !app_nil_r.
  - replace (done ++ c :: rest) with ((done ++ [c]) ++ rest) by (by rewrite <-app_assoc).
    rewrite IH. unfold enc. rewrite bind_cons. fold (enc plus rest). unfold enc_char.
    destruct (CHAR_IS_UNRESERVED c), (Ascii.eqb c " " && plus), ss; cbn;
      by rewrite <-!app_assoc.
Qed.

Lemma UrlEncode_enc plus s : UrlEncode s plus = enc plus s.
Proof.
  pose proof (UrlEncode_loop_enc plus s [] None) as H. unfold UrlEncode. cbn in H.
  by destruct (UrlEncode_loop plus [] s None).
Qed.

Lemma UrlDecode_loop_dec plus rest : ∀ done ss,
  buffer (done ++ rest) (UrlDecode_loop plus done rest ss) = buffer done ss ++ dec plus rest.
Proof.
  induction rest as [rest IH] using (induction_ltof1 _ length). intros done ss.
  destruct rest as [|c rest]; cbn; [by rewrite !app_nil_r|].
  assert (Hstep : ∀ ss' x, buffer (done ++ [c]) ss' = buffer done ss ++ [x] →
    buffer (done ++ c :: rest) (UrlDecode_loop plus (done ++ [c]) rest ss') =
    buffer done ss ++ x :: dec plus rest).
  { intros ss' x Hb. replace (done ++ c :: rest) with ((done ++ [c]) ++ rest) by (by rewrite <-app_assoc).
    rewrite IH by (unfold ltof; cbn; lia). by rewrite Hb, <-app_assoc. }
  assert (Hplain : buffer (done ++ c :: rest) (UrlDecode_loop plus (done ++ [c]) rest
                     (match ss with Some s => Some (s ++ [c]) | None => None end)) =
                   buffer done ss ++ c :: dec plus rest).
  { apply Hstep. by destruct ss. }
  destruct (Ascii.eqb c "+" && plus); [by apply Hstep; destruct ss|].
  destruct rest as [|h [|l rest]]; [done|done|].
  destruct (Ascii.eqb c "%" && isxdigit h && isxdigit l); [|done].
  replace (done ++ c :: h :: l :: rest) with ((done ++ [c; h; l]) ++ rest) by (by rewrite <-app_assoc).
  rewrite IH by (unfold ltof; cbn; lia). destruct ss; cbn; by rewrite <-app_assoc.
Qed.

Lemma UrlDecode_dec plus s : UrlDecode s plus = dec plus s.
Proof.
  pose proof (UrlDecode_loop_dec plus s [] None) as H. unfold UrlDecode. cbn in H.
  by destruct (UrlDecode_loop plus [] s None).
Qed.

(** Facts about single characters, decided over all 256 of them. *)
Lemma unreserved_plain c :
  CHAR_IS_UNRESERVED c = true → Ascii.eqb c "+" = false ∧ Ascii.eqb c "%" = false.
Proof. by destruct c as [[] [] [] [] [] [] [] []]. Qed.

Lemma hexdigit_xdigit c :
  let h := hexdigit (Z.shiftr (code c) 4) in
  let l := hexdigit (Z.land (code c) 15) in
  isxdigit h = true ∧ isxdigit l = true ∧
  CHAR_IS_UNRESERVED h = true ∧ CHAR_IS_UNRESERVED l = true ∧
  chr (Z.lor (Z.shiftl (table_at xdigit_chars h) 4) (table_at xdigit_chars l)) = c.
Proof. by destruct c as [[] [] [] [] [] [] [] []]. Qed.

Lemma dec_plain plus c s : Ascii.eqb c "+" = false → Ascii.eqb c "%" = false → dec plus (c :: s) = c :: dec plus s.
Proof. intros H1 H2. cbn. rewrite H1, H2. by destruct s as [|? [|??]]. Qed.

(** C29: URL encoding is undone by URL decoding with the same flag, on every
    byte string, and the encoded text holds nothing but unreserved characters,
    percent signs and plus signs. *)
Theorem url_roundtrip (s : str) (space_as_plus : bool) :
  UrlDecode (UrlEncode s space_as_plus) space_as_plus = s ∧
  Forall (λ c, CHAR_IS_UNRESERVED c = true ∨ c = "%"%char ∨ c = "+"%char) (UrlEncode s space_as_plus).
Proof.
  rewrite UrlDecode_dec, UrlEncode_enc. unfold enc.
  induction s as [|c s [IH1 IH2]]; [by split|]. rewrite bind_cons. unfold enc_char at 1 3.
  destruct (CHAR_IS_UNRESERVED c) eqn:Hu.
  - destruct (unreserved_plain c Hu). cbn [app]. rewrite dec_plain by done. rewrite IH1.
    split; [done|]. constructor; auto.
  - destruct (Ascii.eqb c " " && space_as_plus) eqn:Hsp.
    + apply andb_true_iff in Hsp as [->%Ascii.eqb_eq ->]. cbn. rewrite IH1.
      split; [done|]. constructor; auto.
    + destruct (hexdigit_xdigit c) as (H1 & H2 & H3 & H4 & H5). cbn [app dec].
      change (Ascii.eqb "%" "+" && space_as_plus) with false. cbn [andb]. rewrite H1, H2. cbn [andb].
      rewrite H5, IH1. split; [done|]. do 3 (constructor; [auto|]). done.
Qed.

(** ** Trimming and paths *)

Lemma find_if_app f l m :
  Forall (λ c, f c = false) l → find_if f (l ++ m) = (λ i, (length l + i)%nat) <$> find_if f m.
Proof.
  induction 1 as [|c l Hc Hl IH]; cbn; [by destruct (find_if f m)|].
  rewrite Hc, IH. by destruct (find_if f m).
Qed.

Lemma find_if_none f l : Forall (λ c, f c = false) l → find_if f l = None.
Proof. induction 1 as [|c l Hc Hl IH]; cbn; [done|]. by rewrite Hc, IH. Qed.

Lemma find_last_if_app f l c r :
  f c = true → Forall (λ c, f c = false) r → find_last_if f (l ++ c :: r) = Some (length l).
Proof.
  intros Hc Hr. unfold find_last_if. rewrite reverse_app, reverse_cons, <-app_assoc.
  rewrite find_if_app by (by apply Forall_reverse). cbn. rewrite Hc. cbn.
  rewrite length_app, length_reverse. cbn. f_equal. lia.
Qed.

Lemma not_mem d c : negb (mem d c) = true ↔ c ∉ d.
Proof. unfold mem. rewrite negb_true_iff, bool_decide_eq_false. done. Qed.

Lemma all_mem d l : Forall (λ c, c ∈ d) l → Forall (λ c, negb (mem d c) = false) l.
Proof.
  rewrite !Forall_forall. intros H c Hc. unfold mem. by rewrite bool_decide_true by auto.
Qed.

(** [Trim] and [TrimLeft] remove exactly the delimiters at the ends they
    name.  [TrimRight] removes the trailing delimiters and the last character
    before them as well. *)
Theorem trim_spec (d l r m : str) (a b : ascii) :
  Forall (λ c, c ∈ d) l → Forall (λ c, c ∈ d) r →
  (m = [a] ∧ b = a ∨ ∃ m', m = a :: m' ++ [b]) → a ∉ d → b ∉ d →
  Trim (l ++ m ++ r) d = m ∧ TrimLeft (l ++ m ++ r) d = m ++ r ∧
  TrimRight (l ++ m ++ r) d = l ++ removelast m.
Proof.
  intros Hl Hr Hm Ha Hb.
  assert (Hhead : ∃ m', m = a :: m') by naive_solver.
  assert (Hlast : ∃ m', m = m' ++ [b] ∧ removelast m = m').
  { destruct Hm as [[-> ->]|[m' ->]]; [by exists []|]. exists (a :: m'). split; [done|].
    change (a :: m' ++ [b]) with ((a :: m') ++ [b]). by rewrite removelast_last. }
  assert (Hb1 : find_first_not_of d (l ++ m ++ r) = Some (length l)).
  { destruct Hhead as [m' ->]. unfold find_first_not_of. rewrite find_if_app by by apply all_mem.
    cbn. rewrite (proj2 (not_mem d a)) by done. cbn. f_equal. lia. }
  assert (He : find_last_not_of d (l ++ m ++ r) = Some (length l + length m - 1)%nat).
  { destruct Hlast as (m' & -> & _). unfold find_last_not_of.
    replace (l ++ (m' ++ [b]) ++ r) with ((l ++ m') ++ b :: r) by (by rewrite <-!app_assoc).
    rewrite find_last_if_app; [|by apply not_mem|by apply all_mem].
    rewrite !length_app. cbn. f_equal. lia. }
  assert (Hlen : (0 < length m)%nat) by (destruct Hhead as [? ->]; cbn; lia).
  unfold Trim, TrimLeft, TrimRight. rewrite Hb1, He. split; [|split].
  - unfold substr. rewrite drop_app_length.
    replace (length l + length m - 1 - length l + 1)%nat with (length m) by lia.
    apply take_app_length.
  - apply drop_app_length.
  - unfold substr. rewrite drop_0. destruct Hlast as (m' & -> & ->).
    rewrite length_app. cbn. replace (length l + (length m' + 1) - 1)%nat with (length (l ++ m'))
      by (rewrite length_app; lia).
    replace (l ++ (m' ++ [b]) ++ r) with ((l ++ m') ++ b :: r) by (by rewrite <-!app_assoc).
    apply take_app_length.
Qed.

Lemma trim_spec_witness :
  Trim ($ "  ab ") ($ " ") = $ "ab" ∧ TrimLeft ($ "  ab ") ($ " ") = $ "ab " ∧
  TrimRight ($ "  ab ") ($ " ") = $ "  a".
Proof.
  apply (trim_spec ($ " ") ($ "  ") ($ " ") ($ "ab") "a" "b").
  - do 2 (constructor; [apply list_elem_of_here|]). constructor.
  - constructor; [apply list_elem_of_here|constructor].
  - right. by exists [].
  - by intros ?%list_elem_of_singleton.
  - by intros ?%list_elem_of_singleton.
Defined.

Lemma rfind_app s c r : c ∉ r → rfind c (s ++ c :: r) = Some (length s).
Proof.
  intros Hr. apply find_last_if_app; [by apply Ascii.eqb_refl|].
  rewrite Forall_forall. intros x Hx. apply Ascii.eqb_neq. by intros <-.
Qed.

(** [Dirname] and [Basename] split a path at its last slash. *)
Lemma dirname_basename (dir base : str) :
  dir ≠ [] → "/"%char ∉ base →
  Dirname (dir ++ "/"%char :: base) = dir ∧ Basename (dir ++ "/"%char :: base) = base.
Proof.
  intros Hdir Hbase. unfold Dirname, Basename. rewrite rfind_app by done.
  destruct dir as [|x dir]; [done|]. cbn -[drop take length]. unfold substr. rewrite drop_0.
  change (x :: dir ++ "/"%char :: base) with ((x :: dir) ++ "/"%char :: base).
  change (S (length dir)) with (length (x :: dir)).
  rewrite take_app_length, Nat.add_comm. split; [done|].
  change (1 + length (x :: dir))%nat with (S (length (x :: dir))).
  rewrite drop_app_ge by lia. by replace (S (length (x :: dir)) - length (x :: dir))%nat with 1%nat by lia.
Qed.

(** ** BinarySearch *)

Lemma sorted_lookup (l : list Z) (i j : nat) x y :
  StronglySorted Z.le l → (i < j)%nat → l !! i = Some x → l !! j = Some y → x ≤ y.
Proof.
  intros Hs. revert i j. induction Hs as [|z l Hs IH Hz]; intros i j Hij Hi Hj; [done|].
  destruct j as [|j]; [lia|]. destruct i as [|i]; cbn in *.
  - injection Hi as ->. rewrite Forall_forall in Hz. apply Hz. by eapply list_elem_of_lookup_2.
  - by eapply (IH i j); [lia|..].
Qed.

Lemma BinarySearch_loop_misses arr v fuel : ∀ left right,
  (∀ i : nat, (i < 2)%nat → ∃ x, arr !! i = Some x ∧ x ≠ 0) →
  0 ≤ left → right < Z.of_nat (length arr) → left ≤ right + 1 → right - left < Z.of_nat fuel →
  (∀ i x : Z, 0 ≤ i < left → arr !! Z.to_nat i = Some x → x ≤ v) →
  (∀ i x : Z, right < i → arr !! Z.to_nat i = Some x → v < x) →
  StronglySorted Z.le arr →
  ∃ p : Z, BinarySearch_loop (S fuel) arr v left right = Ret (Some (- (p + 1))) ∧
    0 ≤ p ≤ Z.of_nat (length arr) ∧
    ∀ (i : nat) x, arr !! i = Some x → (Z.of_nat i < p ↔ x ≤ v).
Proof.
  induction fuel as [|fuel IH]; intros left right Hnz Hl Hr Hlr Hf Hlow Hhigh Hs.
  all: change (BinarySearch_loop (S ?n) arr v left right) with
    (if left <=? right then
        let mid := Z.quot (left + right) 2 in
        x ← arr_at arr mid;
        if v <? x then BinarySearch_loop n arr v left (mid - 1)
        else
          y ← arr_at arr (Z.b2z (mid <? v));
          if negb (y =? 0) then BinarySearch_loop n arr v (mid + 1) right
          else Ret (Some mid)
      else Ret (Some (- (left + 1)))).
  all: destruct (Z.leb_spec left right) as [Hle|Hgt]; [try lia|].
  1,3: (exists left; split; [done|split; [lia|]]; intros i x Hi; split; intros H;
        [by apply (Hlow (Z.of_nat i) x); [lia|rewrite Nat2Z.id]
        |destruct (Z.lt_ge_cases (Z.of_nat i) left) as [|Hge]; [done|];
         specialize (Hhigh (Z.of_nat i) x ltac:(lia)); rewrite Nat2Z.id in Hhigh;
         specialize (Hhigh Hi); lia]).
  cbv zeta. set (mid := Z.quot (left + right) 2).
  assert (Hmid : left ≤ mid ≤ right).
  { unfold mid. rewrite Z.quot_div_nonneg by lia. Z.div_mod_to_equations; lia. }
  unfold arr_at.
  destruct (Z.ltb_spec mid 0); [lia|].
  destruct (lookup_lt_is_Some_2 arr (Z.to_nat mid)) as [x Hx]; [lia|]. rewrite Hx. cbn [mbind outcome_bind].
  assert (Hord : ∀ (i j : nat) y z, (i < j)%nat → arr !! i = Some y → arr !! j = Some z → y ≤ z).
  { intros i j y z Hij Hy Hz. by eapply (sorted_lookup arr i j). }
  destruct (Z.ltb_spec v x).
  - apply IH; try done; try lia. intros i y Hi Hy.
    destruct (decide (Z.to_nat i = Z.to_nat mid)) as [Heq|]; [rewrite Heq, Hx in Hy; naive_solver|].
    assert (x ≤ y) by (eapply (Hord (Z.to_nat mid) (Z.to_nat i)); [lia|done|done]). lia.
  - assert (0 ≤ Z.b2z (mid <? v) < 2) by (destruct (mid <? v); cbn; lia).
    destruct (Hnz (Z.to_nat (Z.b2z (mid <? v)))) as (y & Hy & Hy0); [lia|].
    destruct (Z.ltb_spec (Z.b2z (mid <? v)) 0); [lia|].
    rewrite Hy. cbn [mbind outcome_bind]. rewrite (proj2 (Z.eqb_neq y 0)) by done. cbn [negb].
    apply IH; try done; try lia. intros i z Hi Hz.
    destruct (decide (Z.to_nat i = Z.to_nat mid)) as [Heq|]; [rewrite Heq, Hx in Hz; naive_solver|].
    assert (z ≤ x) by (eapply (Hord (Z.to_nat i) (Z.to_nat mid)); [lia|done|done]). lia.
Qed.

Lemma BinarySearch_loop_fuel fuel arr v : ∀ left right,
  0 ≤ left → right - left + 1 < Z.of_nat fuel → (0 < fuel)%nat →
  BinarySearch_loop fuel arr v left right ≠ Ret None.
Proof.
  induction fuel as [|fuel IH]; intros left right Hl Hf Hp; [lia|]. cbn [BinarySearch_loop].
  destruct (Z.leb_spec left right) as [Hle|]; [|done].
  pose proof (Z.quot_le_mono (2 * left) (left + right) 2 ltac:(done) ltac:(lia)).
  pose proof (Z.quot_le_mono (left + right) (2 * right) 2 ltac:(done) ltac:(lia)).
  rewrite !(Z.mul_comm 2), !Z.quot_mul in * by done.
  set (mid := Z.quot (left + right) 2) in *.
  destruct (arr_at arr mid) as [x| | |]; try done. cbn [mbind outcome_bind].
  destruct (v <? x); [apply IH; lia|].
  destruct (arr_at arr (Z.b2z (mid <? v))) as [y| | |]; try done. cbn [mbind outcome_bind].
  destruct (negb _); [apply IH; lia|done].
Qed.

(** On any array the loop ends by itself. *)
Lemma BinarySearch_terminates arr v : BinarySearch arr v ≠ Ret None.
Proof. apply BinarySearch_loop_fuel; lia. Qed.

(** [BinarySearch] tests [arr[mid < v]], that is one of the first two
    elements, where it means [arr[mid] < v].  On every sorted array whose first
    two elements are not zero it therefore never reports a hit, present or not:
    it returns -(p+1) where p is the number of elements not above [v]. *)
Theorem BinarySearch_never_hits (arr : list Z) (v : Z) :
  (2 ≤ length arr)%nat → StronglySorted Z.le arr →
  (∀ i x, (i < 2)%nat → arr !! i = Some x → x ≠ 0) →
  ∃ p : Z, BinarySearch arr v = Ret (Some (- (p + 1))) ∧ 0 ≤ p ≤ Z.of_nat (length arr) ∧
    ∀ (i : nat) x, arr !! i = Some x → (Z.of_nat i < p ↔ x ≤ v).
Proof.
  intros Hlen Hs Hnz. unfold BinarySearch. apply BinarySearch_loop_misses; try done; try lia.
  - intros i Hi. destruct (lookup_lt_is_Some_2 arr i) as [x Hx]; [lia|]. exists x. split; [done|by eapply Hnz].
  - intros i x Hi Hx. apply lookup_lt_Some in Hx. lia.
Qed.

Lemma BinarySearch_never_hits_witness :
  BinarySearch [1; 3; 5] 3 = Ret (Some (-3)) ∧
  ∃ p : Z, BinarySearch [1; 3; 5] 3 = Ret (Some (- (p + 1))) ∧ 0 ≤ p ≤ 3 ∧
    ∀ (i : nat) x, [1; 3; 5] !! i = Some x → (Z.of_nat i < p ↔ x ≤ 3).
Proof.
  split; [by vm_compute|]. apply (BinarySearch_never_hits [1; 3; 5] 3).
  - cbn. lia.
  - repeat constructor; lia.
  - intros [|[|i]] x Hi Hx; cbn in Hx; [naive_solver lia|naive_solver lia|lia].
Defined.
