(* ===== verification/JsonUtil.v ===== *)
(** * Conversions and JSON helpers: TypeUtil (util.h, util.cpp),
      JsonUtil (util/json_util.h, util/json_util.cpp)

    jsoncpp is a library: a [Json::Value] is any type with the operations of the
    class [JsonValue], whose laws are the documented ranges of [asInt] and its
    variants. *)
From S2P Require Import Prelude StringUtil.

(** ** [strtoull(s, nullptr, 10)] of the C library *)

Definition isspace (c : ascii) : bool :=
  (code c =? 32) || ((9 <=? code c) && (code c <=? 13)).
Definition isdigit (c : ascii) : bool := (48 <=? code c) && (code c <=? 57).

(** The value of the leading digits. *)
Fixpoint digits_value (acc : Z) (s : str) : Z :=
  match s with
  | c :: s' => if isdigit c then digits_value (10 * acc + (code c - 48)) s' else acc
  | [] => acc
  end.

(** Saturates at 2^64-1; a minus sign negates in 64 bits. *)
Definition strtoull (s : str) : Z :=
  let s := drop_while isspace s in
  let '(neg, s) := match s with
                   | "-"%char :: s' => (true, s')
                   | "+"%char :: s' => (false, s')
                   | _ => (false, s)
                   end in
  let v := digits_value 0 s in
  if u64_max <? v then u64_max else if neg : bool then u64 (- v) else v.

(** [TypeUtil::Atoi(const std::string&)]. *)
Definition Atoi (s : str) : Z := match s with [] => 0 | _ => i64 (strtoull s) end.

(** [TypeUtil::Atoi] of a possibly null C string. *)
Definition Atoi_ptr (s : option str) : Z :=
  match s with None => 0 | Some s => i64 (strtoull s) end.

(** ** JsonUtil *)

(** The characters with an escape, and the letter of the escape. *)
Definition escape_letter (c : ascii) : option ascii :=
  if code c =? 12 then Some "f"%char
  else if code c =? 9 then Some "t"%char
  else if code c =? 13 then Some "r"%char
  else if code c =? 10 then Some "n"%char
  else if code c =? 8 then Some "b"%char
  else if code c =? 34 then Some (chr 34)
  else if code c =? 92 then Some "\"%char
  else None.

Fixpoint NeedEscape (v : str) : bool :=
  match v with
  | [] => false
  | c :: v' => if null (escape_letter c) then NeedEscape v' else true
  end.

(** The first loop of [Escape]. *)
Fixpoint escaped_size (v : str) (size : nat) : nat :=
  match v with
  | [] => size
  | c :: v' => escaped_size v' (if null (escape_letter c) then size + 1 else size + 2)%nat
  end.

(** The second loop: [rt] grows at its end. *)
Fixpoint escape_append (v rt : str) : str :=
  match v with
  | [] => rt
  | c :: v' => escape_append v' (rt ++ match escape_letter c with
                                       | Some l => ["\"%char; l]
                                       | None => [c]
                                       end)
  end.

(** [rt.resize(size)] on the empty string leaves [size] NUL characters. *)
Definition Escape (v : str) : str :=
  let size := escaped_size v 0 in
  if (size =? length v)%nat then v else escape_append v (replicate size (chr 0)).

Section Getters.
(** [V]: [Json::Value]; [D]: [double]. *)
Context {V D : Type}.

Class JsonValue : Type := {
  isMember : V → str → outcome bool;
  member : V → str → V;
  isString : V → bool;   asString : V → str;
  isDouble : V → bool;   asDouble : V → D;
  isInt : V → bool;      asInt : V → Z;
  isUInt : V → bool;     asUInt : V → Z;
  isInt64 : V → bool;    asInt64 : V → Z;
  isUInt64 : V → bool;   asUInt64 : V → Z;
  asInt_range : ∀ v, isInt v = true → -2 ^ 31 ≤ asInt v < 2 ^ 31;
  asUInt_range : ∀ v, isUInt v = true → 0 ≤ asUInt v < 2 ^ 32;
  asInt64_range : ∀ v, isInt64 v = true → -2 ^ 63 ≤ asInt64 v < 2 ^ 63;
  asUInt64_range : ∀ v, isUInt64 v = true → 0 ≤ asUInt64 v < 2 ^ 64 }.

Context `{!JsonValue}.

Definition GetString (json : V) (name default_value : str) : outcome str :=
  b ← isMember json name;
  if negb b then Ret default_value
  else
    let v := member json name in
    if isString v then Ret (asString v) else Ret default_value.

(** [Atof]: [TypeUtil::Atof]. *)
Definition GetDouble (Atof : str → D) (json : V) (name : str) (default_value : D) : outcome D :=
  b ← isMember json name;
  if negb b then Ret default_value
  else
    let v := member json name in
    if isDouble v then Ret (asDouble v)
    else if isString v then Ret (Atof (asString v))
    else Ret default_value.

Definition GetInt32 (json : V) (name : str) (default_value : Z) : outcome Z :=
  b ← isMember json name;
  if negb b then Ret default_value
  else
    let v := member json name in
    if isInt v then Ret (asInt v)
    else if isString v then Ret (i32 (Atoi (asString v)))
    else Ret default_value.

Definition GetUint32 (json : V) (name : str) (default_value : Z) : outcome Z :=
  b ← isMember json name;
  if negb b then Ret default_value
  else
    let v := member json name in
    if isUInt v then Ret (asUInt v)
    else if isString v then Ret (u32 (Atoi (asString v)))
    else Ret default_value.

Definition GetInt64 (json : V) (name : str) (default_value : Z) : outcome Z :=
  b ← isMember json name;
  if negb b then Ret default_value
  else
    let v := member json name in
    if isInt64 v then Ret (asInt64 v)
    else if isString v then Ret (Atoi (asString v))
    else Ret default_value.

Definition GetUint64 (json : V) (name : str) (default_value : Z) : outcome Z :=
  b ← isMember json name;
  if negb b then Ret default_value
  else
    let v := member json name in
    if isUInt64 v then Ret (asUInt64 v)
    else if isString v then Ret (u64 (Atoi (asString v)))
    else Ret default_value.

(** [FromString] and [ToString] are jsoncpp's reader and writer. *)
Definition FromString (parse : str → V → bool * V) (v : str) (json : V) : bool * V := parse v json.
Definition ToString (write : V → str) (json : V) : str := write json.
End Getters.
Arguments JsonValue : clear implicits.

(** ** Decimal text *)

(** The decimal digits of a natural number, most significant first. *)
Fixpoint decimal_digits (fuel : nat) (n : Z) : str :=
  match fuel with
  | O => []
  | S f => (if n <? 10 then [] else decimal_digits f (n / 10)) ++ [chr (48 + n mod 10)]
  end.

(** What [std::to_string] and [operator<<] print for a 64-bit integer; twenty
    digits are enough. *)
Definition decimal (z : Z) : str :=
  if z <? 0 then "-"%char :: decimal_digits 20 (- z) else decimal_digits 20 z.

Lemma code_chr z : 0 ≤ z < 256 → code (chr z) = z.
Proof.
  intros Hz. unfold code, chr. rewrite N_ascii_embedding; unfold u8; rewrite Z.mod_small by (cbn; lia); lia.
Qed.

Lemma digits_value_app s t acc :
  Forall (λ c, isdigit c = true) s →
  digits_value acc (s ++ t) = digits_value (digits_value acc s) t.
Proof. intros H. revert acc. induction H as [|c s Hc Hs IH]; intros acc; cbn; [done|]. by rewrite Hc, IH. Qed.

Lemma isdigit_chr d : 0 ≤ d < 10 → isdigit (chr (48 + d)) = true ∧ code (chr (48 + d)) = 48 + d.
Proof. intros Hd. unfold isdigit. rewrite code_chr by lia. split; [|done]. apply andb_true_iff. lia. Qed.

Lemma decimal_digits_ok fuel : ∀ n,
  0 ≤ n < 10 ^ Z.of_nat fuel → (0 < fuel)%nat →
  Forall (λ c, isdigit c = true) (decimal_digits fuel n) ∧
  digits_value 0 (decimal_digits fuel n) = n ∧ decimal_digits fuel n ≠ [].
Proof.
  induction fuel as [|fuel IH]; intros n Hn Hf; [lia|]. cbn -[Z.pow].
  assert (Hm : 0 ≤ n mod 10 < 10) by (apply Z.mod_pos_bound; lia).
  destruct (isdigit_chr (n mod 10) Hm) as [Hd Hc].
  assert (Hne : ∀ l : str, l ++ [chr (48 + n mod 10)] ≠ []) by (by intros [|??]).
  destruct (Z.ltb_spec n 10) as [Hlt|Hge]; cbn [app].
  - split_and!; [by repeat constructor| |done]. cbn -[chr isdigit]. rewrite Hd, Hc.
    rewrite Z.mod_small by lia. lia.
  - rewrite Nat2Z.inj_succ, Z.pow_succ_r in Hn by lia.
    assert (Hpos : (0 < fuel)%nat) by (destruct fuel; [cbn in Hn; lia|lia]).
    destruct (IH (n / 10)) as (H1 & H2 & H3); [|done|].
    { split; [by apply Z.div_pos; lia|]. apply Z.div_lt_upper_bound; lia. }
    split_and!; [apply Forall_app; split; [done|by repeat constructor]| |done].
    rewrite digits_value_app, H2 by done. cbn -[chr isdigit Z.mul]. rewrite Hd, Hc.
    rewrite (Z.div_mod n 10) at 3 by lia. lia.
Qed.

Lemma isdigit_plain c : isdigit c = true → isspace c = false ∧ c ≠ "-"%char ∧ c ≠ "+"%char.
Proof. intros H. split; [|by split; intros ->]. unfold isdigit, isspace in *. lia. Qed.

(** Narrowing after [i64] forgets it. *)
Lemma i64_cycle z : ∃ k, i64 z = z + k * 2 ^ 64.
Proof.
  exists (- ((z + 2 ^ 63) / 2 ^ 64)). unfold i64. rewrite Z.mod_eq by done. lia.
Qed.
Lemma narrow_i64 z : i32 (i64 z) = i32 z ∧ u32 (i64 z) = u32 z ∧ u64 (i64 z) = u64 z.
Proof.
  destruct (i64_cycle z) as [k ->]. unfold i32, u32, u64. split_and!.
  - f_equal. rewrite <-(Z_mod_plus_full (z + 2 ^ 31) (k * 2 ^ 32)). f_equal. lia.
  - rewrite <-(Z_mod_plus_full z (k * 2 ^ 32)). f_equal. lia.
  - by rewrite Z_mod_plus_full.
Qed.
Lemma narrow_u64 z : i64 (u64 z) = i64 z.
Proof. unfold i64, u64. f_equal. by rewrite Zplus_mod_idemp_l. Qed.

(** *** Text *)

(** Nothing of [rest] belongs to the number before it. *)
Definition no_digit (rest : str) : Prop := match rest with c :: _ => isdigit c = false | [] => True end.

Lemma digits_value_stop s rest acc : Forall (λ c, isdigit c = true) s → no_digit rest →
  digits_value acc (s ++ rest) = digits_value acc s.
Proof.
  intros Hs Hr. rewrite digits_value_app by done. revert acc. clear -Hr. intros acc.
  generalize (digits_value acc s). intros z. destruct rest as [|c r]; cbn; [done|]. by rewrite Hr.
Qed.

Lemma strtoull_spaces ws s : Forall (λ c, isspace c = true) ws → strtoull (ws ++ s) = strtoull s.
Proof.
  intros Hws. unfold strtoull. f_equal. enough (drop_while isspace (ws ++ s) = drop_while isspace s) as -> by done.
  induction Hws as [|c ws Hc _ IH]; cbn; [done|by rewrite Hc].
Qed.

Lemma strtoull_digits s rest :
  Forall (λ c, isdigit c = true) s → s ≠ [] → no_digit rest → digits_value 0 s < 2 ^ 64 →
  strtoull (s ++ rest) = digits_value 0 s ∧ strtoull ("-"%char :: s ++ rest) = u64 (- digits_value 0 s).
Proof.
  intros Hs Hne Hr Hv. rewrite <-(digits_value_stop s rest) in * by done.
  destruct s as [|c s]; [done|]. cbn [app] in *.
  assert (Hc : isdigit c = true) by (by inversion Hs).
  destruct (isdigit_plain c Hc) as (Hsp & Hm & Hp). unfold strtoull.
  change (drop_while isspace ("-"%char :: c :: s ++ rest)) with ("-"%char :: c :: s ++ rest).
  cbn [drop_while]. rewrite Hsp.
  assert (Hneg : (match c :: s ++ rest with
                  | "-"%char :: s' => (true, s')
                  | "+"%char :: s' => (false, s')
                  | _ => (false, c :: s ++ rest)
                  end) = (false, c :: s ++ rest)).
  { clear -Hm Hp. destruct c as [[] [] [] [] [] [] [] []]; done. }
  rewrite Hneg. destruct (Z.ltb_spec u64_max (digits_value 0 (c :: s ++ rest))); [solve_int|done].
Qed.

(** Blanks, the decimal text of a 64-bit number, and anything after it. *)
Lemma Atoi_text ws z rest :
  Forall (λ c, isspace c = true) ws → no_digit rest → -2 ^ 63 ≤ z < 2 ^ 64 →
  Atoi (ws ++ decimal z ++ rest) = i64 z.
Proof.
  intros Hws Hr Hz. assert (Hpow : 2 ^ 64 < 10 ^ Z.of_nat 20) by done.
  assert (E : ws ++ decimal z ++ rest ≠ [] ∧ strtoull (ws ++ decimal z ++ rest) = u64 z).
  { rewrite strtoull_spaces by done. unfold decimal. destruct (Z.ltb_spec z 0).
    - destruct (decimal_digits_ok 20 (- z)) as (H1 & H2 & H3); [lia|lia|].
      destruct (strtoull_digits _ rest H1 H3 Hr) as [_ Hneg]; [lia|].
      split; [by destruct ws|]. cbn [app]. rewrite Hneg, H2. by rewrite Z.opp_involutive.
    - destruct (decimal_digits_ok 20 z) as (H1 & H2 & H3); [lia|lia|].
      destruct (strtoull_digits _ rest H1 H3 Hr) as [Hpos _]; [lia|]. split.
      + intros (_ & [Hd _]%app_eq_nil)%app_eq_nil. exact (H3 Hd).
      + rewrite Hpos, H2. unfold u64. by rewrite Z.mod_small by lia. }
  destruct E as [Hne E]. unfold Atoi. destruct (ws ++ decimal z ++ rest); [exfalso; exact (Hne eq_refl)|]. rewrite E.
  apply narrow_u64.
Qed.

Lemma Atoi_decimal z : -2 ^ 63 ≤ z < 2 ^ 64 → Atoi (decimal z) = i64 z.
Proof. intros Hz. rewrite <-(app_nil_r (decimal z)). by apply (Atoi_text [] z []). Qed.

(** Text that does not begin with a number is 0. *)
Lemma Atoi_no_number s : no_digit (drop_while isspace s) → head (drop_while isspace s) ∉ [Some "-"; Some "+"]%char →
  Atoi s = 0.
Proof.
  intros Hd Hs. destruct s as [|c s]; [done|]. unfold Atoi, strtoull.
  destruct (drop_while isspace (c :: s)) as [|c' s']; [done|]. cbn in Hd, Hs.
  assert (Hm : c' ≠ "-"%char) by (intros ->; apply Hs; by left).
  assert (Hp : c' ≠ "+"%char) by (intros ->; apply Hs; right; by left).
  assert (E : (match c' :: s' with
               | "-"%char :: s'' => (true, s'')
               | "+"%char :: s'' => (false, s'')
               | _ => (false, c' :: s')
               end) = (false, c' :: s')).
  { clear -Hm Hp. destruct c' as [[] [] [] [] [] [] [] []]; done. }
  rewrite E. cbn [digits_value]. by rewrite Hd.
Qed.

(** ** The getters *)

(** All six at once. *)
Definition getters {V D} `{!JsonValue V D} (Atof : str → D) (json : V) (name sd : str) (dd : D) (d : Z) :=
  (GetString json name sd, GetDouble Atof json name dd, GetInt32 json name d, GetUint32 json name d,
   GetInt64 json name d, GetUint64 json name d).

Lemma strtoull_range s : 0 ≤ strtoull s < 2 ^ 64.
Proof.
  unfold strtoull.
  assert (Hv : ∀ s acc, 0 ≤ acc → 0 ≤ digits_value acc s).
  { clear s. induction s as [|c s IH]; intros acc Hacc; cbn [digits_value]; [done|].
    destruct (isdigit c) eqn:Hc; [|done]. apply IH. unfold isdigit in Hc. lia. }
  case_match; subst. specialize (Hv l 0 ltac:(done)).
  destruct (Z.ltb_spec u64_max (digits_value 0 l)); [solve_int|].
  destruct b; solve_int.
Qed.

Lemma i64_i64 z : i64 (i64 z) = i64 z.
Proof. solve_int. Qed.
Lemma Atoi_i64 s : i64 (Atoi s) = Atoi s.
Proof. destruct s; [done|apply i64_i64]. Qed.

(** An answer has the type the getter is declared with. *)
Lemma getters_typed {V D} `{!JsonValue V D} (json : V) (name : str) (d z : Z) :
  (i32 d = d → GetInt32 json name d = Ret z → i32 z = z) ∧
  (u32 d = d → GetUint32 json name d = Ret z → u32 z = z) ∧
  (i64 d = d → GetInt64 json name d = Ret z → i64 z = z) ∧
  (u64 d = d → GetUint64 json name d = Ret z → u64 z = z).
Proof.
  pose proof (asInt_range (member json name)) as R1.
  pose proof (asUInt_range (member json name)) as R2.
  pose proof (asInt64_range (member json name)) as R3.
  pose proof (asUInt64_range (member json name)) as R4.
  pose proof (Atoi_i64 (asString (member json name))) as R5.
  unfold GetInt32, GetUint32, GetInt64, GetUint64.
  split_and!; intros Hd H; destruct (isMember json name) as [[]| | |]; cbn in H; simplify_eq; try done;
    repeat case_match; simplify_eq; try done; clear R5; try (specialize (R1 eq_refl));
    try (specialize (R2 eq_refl)); try (specialize (R3 eq_refl)); try (specialize (R4 eq_refl)); solve_int.
Qed.

(** A member of another type than the getter's: text is read, the rest is the
    default. *)
Lemma getters_other {V D} (J : JsonValue V D) (Atof : str → D) (json : V) (name sd : str) (dd : D) (d : Z) :
  let v := member json name in
  isMember json name = Ret true →
  isDouble v = false → isInt v = false → isUInt v = false → isInt64 v = false → isUInt64 v = false →
  getters Atof json name sd dd d =
    if isString v
    then let z := Atoi (asString v) in
         (Ret (asString v), Ret (Atof (asString v)), Ret (i32 z), Ret (u32 z), Ret z, Ret (u64 z))
    else (Ret sd, Ret dd, Ret d, Ret d, Ret d, Ret d).
Proof.
  intros v Hm Hd Hi Hu Hi64 Hu64. unfold getters, GetString, GetDouble, GetInt32, GetUint32, GetInt64, GetUint64.
  rewrite Hm. cbn. fold v. rewrite Hd, Hi, Hu, Hi64, Hu64. by destruct (isString v).
Qed.

(** C39: what the six getters of [JsonUtil] answer.  An absent member: the
    default; a document that is no object: the library's exception.  A member the
    library gives the getter's own type: its value.  A member of none of the
    getters' types but text: the text itself, the text read as a double, and for
    the integers, when the text is blanks, the decimal text of a number that fits
    64 bits, signed or unsigned, and anything that does not go on the digits, that
    number wrapped to the width of the getter, and 0 when the text does not begin
    with a number.  A member of none of the types that is not text: the default.
    And an integer getter answers with a value of the type it is declared with,
    whatever the document, if the default is one. *)
Theorem json_getters {V D} (J : JsonValue V D) (Atof : str → D) (json : V) (name sd : str) (dd : D) (d : Z) :
  let v := member json name in
  (isMember json name = Ret false →
     getters Atof json name sd dd d = (Ret sd, Ret dd, Ret d, Ret d, Ret d, Ret d)) ∧
  (∀ what, isMember json name = Throw what →
     getters Atof json name sd dd d =
       (Throw what, Throw what, Throw what, Throw what, Throw what, Throw what)) ∧
  (isMember json name = Ret true →
     (isString v = true → GetString json name sd = Ret (asString v)) ∧
     (isDouble v = true → GetDouble Atof json name dd = Ret (asDouble v)) ∧
     (isInt v = true → GetInt32 json name d = Ret (asInt v)) ∧
     (isUInt v = true → GetUint32 json name d = Ret (asUInt v)) ∧
     (isInt64 v = true → GetInt64 json name d = Ret (asInt64 v)) ∧
     (isUInt64 v = true → GetUint64 json name d = Ret (asUInt64 v)) ∧
     (isDouble v = false → isInt v = false → isUInt v = false → isInt64 v = false → isUInt64 v = false →
        (isString v = false →
           getters Atof json name sd dd d = (Ret sd, Ret dd, Ret d, Ret d, Ret d, Ret d)) ∧
        (∀ ws z rest, isString v = true → asString v = ws ++ decimal z ++ rest →
           Forall (λ c, isspace c = true) ws → no_digit rest → -2 ^ 63 ≤ z < 2 ^ 64 →
           getters Atof json name sd dd d =
             (Ret (asString v), Ret (Atof (asString v)), Ret (i32 z), Ret (u32 z), Ret (i64 z), Ret (u64 z))) ∧
        (isString v = true → no_digit (drop_while isspace (asString v)) →
           head (drop_while isspace (asString v)) ∉ [Some "-"; Some "+"]%char →
           getters Atof json name sd dd d =
             (Ret (asString v), Ret (Atof (asString v)), Ret 0, Ret 0, Ret 0, Ret 0)))) ∧
  (∀ z, (i32 d = d → GetInt32 json name d = Ret z → i32 z = z) ∧
        (u32 d = d → GetUint32 json name d = Ret z → u32 z = z) ∧
        (i64 d = d → GetInt64 json name d = Ret z → i64 z = z) ∧
        (u64 d = d → GetUint64 json name d = Ret z → u64 z = z)).
Proof.
  intros v. split_and!.
  - intros Hm. unfold getters, GetString, GetDouble, GetInt32, GetUint32, GetInt64, GetUint64. by rewrite Hm.
  - intros what Hm. unfold getters, GetString, GetDouble, GetInt32, GetUint32, GetInt64, GetUint64. by rewrite Hm.
  - intros Hm. split_and!; try (intros Ht; unfold GetString, GetDouble, GetInt32, GetUint32, GetInt64, GetUint64;
      rewrite Hm; cbn; fold v; by rewrite Ht).
    intros Hd Hi Hu Hi64 Hu64. rewrite (getters_other J) by done. fold v. cbv zeta. split_and!.
    + by intros ->.
    + intros ws z rest -> -> Hws Hr Hz. rewrite Atoi_text by done. by destruct (narrow_i64 z) as (-> & -> & ->).
    + intros -> Hn Hh. by rewrite Atoi_no_number.
  - intros z. apply getters_typed.
Qed.

(** A concrete value type: no object, or one with one member, which is text, a
    number or neither. *)
Inductive sample : Type := NotObject | Member (name : str) (v : sample) | Text (s : str) | Number (z : Z) | Nothing.

Definition sample_json : JsonValue sample Z.
Proof.
  pose (number := λ v, match v with Number z => z | _ => 0 end).
  pose (fits := λ lo hi v, match v with Number z => (lo <=? z) && (z <? hi) | _ => false end).
  refine (Build_JsonValue
    (λ v name, match v with Member n _ => Ret (bool_decide (n = name)) | _ => Throw ($ "not an object") end)
    (λ v _, match v with Member _ v' => v' | _ => v end)
    (λ v, match v with Text _ => true | _ => false end) (λ v, match v with Text s => s | _ => [] end)
    (λ v, match v with Number _ => true | _ => false end) number
    (fits (- 2 ^ 31) (2 ^ 31)) number (fits 0 (2 ^ 32)) number
    (fits (- 2 ^ 63) (2 ^ 63)) number (fits 0 (2 ^ 64)) number _ _ _ _);
    intros []; unfold fits, number; try done; lia.
Defined.

Lemma json_getters_witness :
  let get := λ json, getters (JsonValue0 := sample_json) (λ s, Z.of_nat (length s)) json ($ "port") ($ "none") 5 7 in
  get (Member ($ "port") (Text ($ " 4294967297;"))) =
    (Ret ($ " 4294967297;"), Ret 12, Ret 1, Ret 1, Ret 4294967297, Ret 4294967297) ∧
  get (Member ($ "port") (Text ($ "high"))) = (Ret ($ "high"), Ret 4, Ret 0, Ret 0, Ret 0, Ret 0) ∧
  get (Member ($ "port") Nothing) = (Ret ($ "none"), Ret 5, Ret 7, Ret 7, Ret 7, Ret 7) ∧
  get (Member ($ "host") (Number 80)) = (Ret ($ "none"), Ret 5, Ret 7, Ret 7, Ret 7, Ret 7) ∧
  GetUint32 (H := sample_json) (Member ($ "port") (Number 4294967295)) ($ "port") 7 = Ret 4294967295 ∧
  get (Number 80) = (let e := λ A, Throw (A := A) ($ "not an object") in (e _, e _, e _, e _, e _, e _)).
Proof.
  intros get. unfold get.
  pose (P := λ json, json_getters sample_json (λ s, Z.of_nat (length s)) json ($ "port") ($ "none") 5 7).
  split_and!.
  - destruct (P (Member ($ "port") (Text ($ " 4294967297;")))) as (_ & _ & H & _).
    destruct (H eq_refl) as (_ & _ & _ & _ & _ & _ & H').
    destruct (H' eq_refl eq_refl eq_refl eq_refl eq_refl) as (_ & H2 & _).
    apply (H2 ($ " ") 4294967297 ($ ";")); [done|by vm_compute|by repeat constructor|done|lia].
  - destruct (P (Member ($ "port") (Text ($ "high")))) as (_ & _ & H & _).
    destruct (H eq_refl) as (_ & _ & _ & _ & _ & _ & H').
    destruct (H' eq_refl eq_refl eq_refl eq_refl eq_refl) as (_ & _ & H3).
    apply H3; [done|by vm_compute|apply (bool_decide_unpack _); by vm_compute].
  - destruct (P (Member ($ "port") Nothing)) as (_ & _ & H & _).
    destruct (H eq_refl) as (_ & _ & _ & _ & _ & _ & H').
    destruct (H' eq_refl eq_refl eq_refl eq_refl eq_refl) as (H1 & _). by apply H1.
  - destruct (P (Member ($ "host") (Number 80))) as (H & _). by apply H.
  - destruct (P (Member ($ "port") (Number 4294967295))) as (_ & _ & H & _).
    destruct (H eq_refl) as (_ & _ & _ & H4 & _). by apply H4.
  - destruct (P (Number 80)) as (_ & H & _). by apply H.
Defined.

(** ** Escaping *)

Definition escape_char (c : ascii) : str :=
  match escape_letter c with Some l => ["\"%char; l] | None => [c] end.
Definition escaped (v : str) : str := v ≫= escape_char.

(** Reads an escaped text back: a backslash is followed by a letter. *)
Definition unescape_letter (c : ascii) : ascii :=
  if Ascii.eqb c "f" then chr 12 else if Ascii.eqb c "t" then chr 9
  else if Ascii.eqb c "r" then chr 13 else if Ascii.eqb c "n" then chr 10
  else if Ascii.eqb c "b" then chr 8 else c.
Fixpoint unescape (s : str) : str :=
  match s with
  | [] => []
  | c :: s' =>
      match s' with
      | l :: s'' => if Ascii.eqb c "\" then unescape_letter l :: unescape s'' else c :: unescape s'
      | [] => [c]
      end
  end.

Lemma escape_append_eq v : ∀ rt, escape_append v rt = rt ++ escaped v.
Proof.
  unfold escaped. induction v as [|c v IH]; intros rt; cbn [escape_append]; [by rewrite app_nil_r|].
  rewrite bind_cons, IH, <-app_assoc. done.
Qed.

Lemma escaped_size_eq v : ∀ n, escaped_size v n = (n + length (escaped v))%nat.
Proof.
  unfold escaped. induction v as [|c v IH]; intros n; cbn [escaped_size]; [cbn; lia|].
  rewrite bind_cons, length_app, IH. unfold escape_char at 2. destruct (escape_letter c); cbn; lia.
Qed.

Lemma escaped_id v : NeedEscape v = false → escaped v = v.
Proof.
  unfold escaped. induction v as [|c v IH]; intros H; [done|]. rewrite bind_cons.
  unfold escape_char at 1. cbn [NeedEscape] in H.
  destruct (escape_letter c); [done|]. cbn [app]. by rewrite IH.
Qed.

Lemma escaped_length v :
  (length v ≤ length (escaped v))%nat ∧ (NeedEscape v = true → (length v < length (escaped v))%nat).
Proof.
  unfold escaped. induction v as [|c v [IH1 IH2]]; [by split|].
  rewrite bind_cons, length_app. unfold escape_char at 1 3. cbn [NeedEscape].
  destruct (escape_letter c); cbn in *; split; intros; try apply IH2 in H; lia.
Qed.

Lemma escape_letter_ok c :
  match escape_letter c with
  | Some l => unescape_letter l = c
  | None => Ascii.eqb c "\" = false
  end.
Proof. by destruct c as [[] [] [] [] [] [] [] []]. Qed.

Lemma unescape_escaped v : unescape (escaped v) = v.
Proof.
  unfold escaped. induction v as [|c v IH]; [done|]. rewrite bind_cons.
  pose proof (escape_letter_ok c) as Hc. unfold escape_char at 1.
  destruct (escape_letter c); cbn [app unescape Ascii.eqb]; [by rewrite Hc, IH|].
  rewrite <-IH at 2. destruct (v ≫= escape_char); [done|]. by rewrite Hc.
Qed.

(** [Escape] leaves a string with nothing to escape alone; any other
    string comes back fully escaped - reading the escapes back gives the string
    - but after as many NUL characters as the escaped text is long, because the
    buffer is resized, not reserved, before it is appended to. *)
Theorem Escape_spec (v : str) :
  (NeedEscape v = false → Escape v = v) ∧
  (NeedEscape v = true → ∃ e, unescape e = v ∧ Escape v = replicate (length e) (chr 0) ++ e).
Proof.
  unfold Escape. rewrite escaped_size_eq. cbn [Nat.add].
  destruct (escaped_length v) as [Hle Hlt]. split; intros Hn.
  - rewrite escaped_id by done. by rewrite Nat.eqb_refl.
  - specialize (Hlt Hn). exists (escaped v). split; [apply unescape_escaped|].
    rewrite (proj2 (Nat.eqb_neq _ _)) by lia. apply escape_append_eq.
Qed.

Lemma Escape_spec_witness :
  Escape ($ "ab") = $ "ab" ∧
  ∃ e, unescape e = ["a"%char; chr 10] ∧ Escape ["a"%char; chr 10] = replicate (length e) (chr 0) ++ e.
Proof.
  split; [apply (Escape_spec ($ "ab")); by vm_compute|].
  apply (Escape_spec ["a"%char; chr 10]). by vm_compute.
Defined.
