(* ===== verification/Text.v ===== *)
(** * Text by the C library: formats, wide strings, the host name (util.cpp)

    What [vasprintf], [atof], [gethostname] and the conversions of a locale
    answer is a parameter; what is modelled is the buffers around them and the
    locale of the process, which the conversions change. *)
From S2P Require Import Prelude StringUtil JsonUtil.

Definition NUL : ascii := ascii_of_nat 0.

(** A C string: the characters before the first NUL. *)
Definition until_nul (s : str) : str := take_while (λ c, negb (Ascii.eqb c NUL)) s.
(** The same of wide characters. *)
Definition until_wnul (ws : list Z) : list Z := take_while (λ c, negb (c =? 0)) ws.

Lemma take_while_all {A} (f : A → bool) l r :
  Forall (λ x, f x = true) l → match r with x :: _ => f x = false | [] => True end → take_while f (l ++ r) = l.
Proof.
  induction 1 as [|x l Hx _ IH]; cbn; intros Hr; [|by rewrite Hx, IH].
  destruct r as [|y r]; cbn; [done|by rewrite Hr].
Qed.

(** ** Formats *)

(** [StringUtil::Formatv]: [printed] is what [vasprintf] allocates, [None] when
    it answers -1; the string has the length it answers, NULs included. *)
Definition Formatv (printed : option str) : str := match printed with Some s => s | None => [] end.
Definition Format (printed : option str) : str := Formatv printed.

(** [TypeUtil::Atof] of a string and of a pointer, by what [atof] reads. *)
Definition Atof {R} (zero : R) (atof : str → R) (s : str) : R :=
  if bool_decide (s = []) then zero else atof (until_nul s).
Definition Atof_ptr {R} (zero : R) (atof : str → R) (s : option str) : R :=
  match s with None => zero | Some s => atof s end.

(** ** The host name *)

(** [gethostname] has written [w] at the start of the 512 zeros. *)
Definition GetHostName (w : str) : str := until_nul (w ++ drop (length w) (replicate 512 NUL)).

(** ** Wide strings *)

(** The conversions of the C library in a locale: [None] stands for the answer
    [(size_t)-1].  [environment] is the locale [setlocale(LC_ALL, "")] selects
    and returns, [None] when it returns a null pointer; [supports] tells whether
    a locale can be selected by its name. *)
Class Locale : Type := {
  environment : option str;
  supports : str → bool;
  wcstombs : str → list Z → option str;
  mbstowcs : str → str → option (list Z) }.

(** [setlocale(LC_ALL, name)] of a name that is not empty, its answer unused. *)
Definition setlocale `{Locale} (name : str) (current : str) : str :=
  if supports name then name else current.

(** The size of the buffer: the answer of the counting call, plus one, in a
    [size_t]. *)
Definition buffer_size {A} (converted : option (list A)) : Z :=
  match converted with Some l => u64 (Z.of_nat (length l) + 1) | None => u64 (2 ^ 64 - 1 + 1) end.

(** The buffer after the second call: at most its size is written. *)
Definition filled {A} (zero : A) (n : Z) (converted : option (list A)) : list A :=
  match converted with
  | Some l => let w := take (Z.to_nat n) (l ++ [zero]) in w ++ replicate (Z.to_nat n - length w) zero
  | None => replicate (Z.to_nat n) zero
  end.

(** [StringUtil::WStringToString]; the result comes with the locale of the
    process.  A buffer without a terminator is read beyond its end. *)
Definition WStringToString `{Locale} (ws : list Z) (current : str) : outcome (str * str) :=
  match environment with
  | None => Undefined
  | Some str_locale =>
      let conv := wcstombs str_locale (until_wnul ws) in
      let dest := filled NUL (buffer_size conv) conv in
      if existsb (Ascii.eqb NUL) dest then Ret (until_nul dest, setlocale str_locale str_locale) else Undefined
  end.

(** [StringUtil::StringToWString]. *)
Definition StringToWString `{Locale} (s : str) (current : str) : outcome (list Z * str) :=
  match environment with
  | None => Undefined
  | Some str_locale =>
      let conv := mbstowcs str_locale (until_nul s) in
      let dest := filled 0 (buffer_size conv) conv in
      if existsb (Z.eqb 0) dest then Ret (until_wnul dest, setlocale str_locale str_locale) else Undefined
  end.

(** ** Laws *)

Lemma until_nul_none s : NUL ∉ s → until_nul s = s.
Proof.
  intros Hs. unfold until_nul. rewrite <-(app_nil_r s) at 1. apply take_while_all; [|done].
  apply Forall_forall. intros c Hc. apply negb_true_iff, Ascii.eqb_neq. by intros ->.
Qed.
Lemma until_wnul_none ws : 0 ∉ ws → until_wnul ws = ws.
Proof.
  intros Hs. unfold until_wnul. rewrite <-(app_nil_r ws) at 1. apply take_while_all; [|done].
  apply Forall_forall. intros c Hc. apply negb_true_iff, Z.eqb_neq. by intros ->.
Qed.
Lemma until_nul_app s r : NUL ∉ s → until_nul (s ++ NUL :: r) = s.
Proof.
  intros Hs. apply take_while_all; [|done].
  apply Forall_forall. intros c Hc. apply negb_true_iff, Ascii.eqb_neq. by intros ->.
Qed.
Lemma until_wnul_app s r : 0 ∉ s → until_wnul (s ++ 0 :: r) = s.
Proof.
  intros Hs. apply take_while_all; [|done].
  apply Forall_forall. intros c Hc. apply negb_true_iff, Z.eqb_neq. by intros ->.
Qed.

(** The buffer is the text and its terminator. *)
Lemma filled_exact {A} (zero : A) (l : list A) : Z.of_nat (length l) + 1 < 2 ^ 64 →
  filled zero (buffer_size (Some l)) (Some l) = l ++ [zero].
Proof.
  intros Hl. unfold filled, buffer_size. rewrite u64_small by lia.
  replace (Z.to_nat (Z.of_nat (length l) + 1)) with (length (l ++ [zero])) by (rewrite length_app; cbn; lia).
  by rewrite firstn_all, Nat.sub_diag, app_nil_r.
Qed.

Lemma filled_failed {A} (zero : A) : filled zero (buffer_size (@None (list A))) None = [].
Proof. done. Qed.

(** [gethostname] writes at most 511 bytes, so the name always ends. *)
Theorem GetHostName_ends (w : str) : (length w ≤ 511)%nat →
  GetHostName w = until_nul w ∧ (length (GetHostName w) ≤ 511)%nat.
Proof.
  intros Hw. unfold GetHostName. rewrite drop_replicate.
  destruct (512 - length w)%nat as [|n] eqn:Hn; [lia|]. cbn [replicate].
  assert (until_nul (w ++ NUL :: replicate n NUL) = until_nul w) as ->.
  { clear. induction w as [|c w IH]; [done|]. unfold until_nul in *. cbn. by rewrite IH. }
  split; [done|]. etransitivity; [|exact Hw]. unfold until_nul. clear. induction w as [|c w IH]; cbn; [done|].
  destruct (negb _); cbn; lia.
Qed.

Lemma GetHostName_ends_witness : GetHostName ($"node7") = $"node7".
Proof. exact (proj1 (GetHostName_ends ($"node7") ltac:(cbn; lia))). Defined.

(** What the C library documents: a converted text holds no NUL, and converting
    it back in the same locale gives the wide characters. *)
Class LocaleLaws `{Locale} : Prop := {
  wcstombs_no_nul l ws s : wcstombs l ws = Some s → NUL ∉ s;
  wcstombs_back l ws s : wcstombs l ws = Some s → mbstowcs l s = Some ws }.

(** Wide strings survive the way through bytes, up to an embedded NUL;
    afterwards the locale of the process is the environment's, whatever it was
    before.  A string that the locale cannot express makes the size of the buffer
    wrap to zero, and the result is read beyond it. *)
Theorem wide_round_trip `{Locale, !LocaleLaws} (l : str) (ws : list Z) :
  environment = Some l →
  (∀ s, wcstombs l (until_wnul ws) = Some s → Z.of_nat (length s) + 1 < 2 ^ 64) →
  Z.of_nat (length ws) + 1 < 2 ^ 64 →
  match wcstombs l (until_wnul ws) with
  | Some s => ∀ c c', WStringToString ws c = Ret (s, l) ∧ StringToWString s c' = Ret (until_wnul ws, l)
  | None => ∀ c, WStringToString ws c = Undefined
  end.
Proof.
  intros He Hs Hw. unfold WStringToString, StringToWString. rewrite He.
  destruct (wcstombs l (until_wnul ws)) as [s|] eqn:Hc; [|done]. specialize (Hs s eq_refl). intros _ _.
  assert (Hloc : setlocale l l = l) by (unfold setlocale; by destruct (supports l)).
  assert (Hn : NUL ∉ s) by (by eapply wcstombs_no_nul).
  assert (Hz : 0 ∉ until_wnul ws).
  { pose proof (take_while_Forall (λ c, negb (c =? 0)) ws) as Hf. intros Hin. rewrite Forall_forall in Hf. by specialize (Hf 0 Hin). }
  assert (Hlen : (length (until_wnul ws) ≤ length ws)%nat).
  { rewrite <-(take_drop_while (λ c, negb (c =? 0)) ws) at 2. rewrite length_app. unfold until_wnul. lia. }
  rewrite (until_nul_none s Hn), (wcstombs_back l _ s Hc), !filled_exact by lia.
  rewrite !existsb_app. cbn. rewrite !orb_true_r, until_nul_app, until_wnul_app by done. by rewrite Hloc.
Qed.

(** The locale "C": bytes below 128. *)
Definition ascii_locale : Locale := {|
  environment := Some ($"C");
  supports := λ _, true;
  wcstombs := λ _ ws, if forallb (λ z, (0 <? z) && (z <? 128)) ws then Some (chr <$> ws) else None;
  mbstowcs := λ _ s, if forallb (λ c, code c <? 128) s then Some (code <$> s) else None |}.

#[local] Instance ascii_laws : @LocaleLaws ascii_locale.
Proof.
  split; cbn; intros _ ws s; destruct (forallb _ ws) eqn:Hf; try done; intros [= <-];
    rewrite forallb_forall in Hf.
  - intros (z & Hz & Hin)%list_elem_of_fmap. apply list_elem_of_In, Hf, andb_true_iff in Hin as [H1 H2].
    assert (code NUL = code (chr z)) as E by by rewrite Hz. rewrite code_chr in E by lia. change (code NUL) with 0 in E. lia.
  - assert (Hall : Forall (λ z, 0 < z < 128) ws).
    { apply Forall_forall. intros z Hz%list_elem_of_In%Hf. lia. }
    clear Hf. induction Hall as [|z ws Hz _ IH]; [done|]. cbn. rewrite code_chr by lia.
    rewrite (proj2 (Z.ltb_lt z 128)) by lia. cbn in IH |- *. destruct (forallb _ _); [|done].
    injection IH as IH. cbn in IH. by rewrite IH.
Qed.

Lemma wide_round_trip_witness :
  (∀ c c', @WStringToString ascii_locale [104; 105; 0; 9] c = Ret ($"hi", $"C") ∧
           @StringToWString ascii_locale ($"hi") c' = Ret ([104; 105], $"C")) ∧
  (∀ c, @WStringToString ascii_locale [20013] c = Undefined).
Proof.
  split.
  - apply (@wide_round_trip ascii_locale ascii_laws ($"C") [104; 105; 0; 9]); [done| |cbn; lia].
    intros s Hs. vm_compute in Hs. injection Hs as <-. cbn. lia.
  - by apply (@wide_round_trip ascii_locale ascii_laws ($"C") [20013]).
Defined.
