(* ===== verification/FsUtil.v ===== *)
(** * The file system helpers: FSUtil (util.h, util.cpp)

    The part of the file system a call walks is a tree of nodes with their
    [st_mode]; what the kernel permits is asked of functions of the path.  A
    directory's entries are listed as [readdir] yields them and may include
    "." and "..".  [Dirname] and [Basename] are in StringUtil. *)
From S2P Require Import Prelude StringUtil JsonUtil.

Definition S_IFDIR : Z := 16384.   (* 0040000 *)
Definition S_IFREG : Z := 32768.   (* 0100000 *)
Definition S_IFLNK : Z := 40960.   (* 0120000 *)
Definition S_IFSOCK : Z := 49152.  (* 0140000 *)

(** A node that is not a directory carries its [st_mode]. *)
Inductive node : Type :=
  | File (mode : Z)
  | Dir (entries : list (str * node)).

Definition dot : str := $ ".".
Definition dotdot : str := $ "..".
Definition is_dot (name : str) : bool := bool_decide (name = dot) || bool_decide (name = dotdot).
Definition child (path name : str) : str := path ++ ["/"%char] ++ name.

(** [d_type] is [DT_REG] for a regular file. *)
Definition is_reg (n : node) : bool :=
  match n with File m => Z.land m (15 * 4096) =? S_IFREG | Dir _ => false end.

Section FsUtil.
(** Does access(2), opendir(3), unlink(2), rmdir(2) succeed at a path (for
    rmdir: apart from the directory having to be empty)? *)
Variables access_ok opendir_ok unlink_ok rmdir_ok : str → bool.

(** The test on the file name in [ListAllFile]. *)
Definition has_subfix (filename subfix : str) : bool :=
  match subfix with
  | [] => true
  | _ => if (length filename <? length subfix)%nat then false
         else bool_decide (drop (length filename - length subfix) filename = subfix)
  end.

(** [ListAllFile]: the files listed, appended to [files]. *)
Fixpoint ListAllFile (files : list str) (path : str) (n : node) (subfix : str) : list str :=
  match n with
  | Dir entries =>
      if negb (access_ok path) then files
      else if negb (opendir_ok path) then files
      else
        (fix loop (es : list (str * node)) (files : list str) : list str :=
           match es with
           | [] => files
           | (name, c) :: r =>
               match c with
               | Dir _ =>
                   if is_dot name then loop r files
                   else loop r (ListAllFile files (child path name) c subfix)
               | File _ =>
                   if is_reg c && has_subfix name subfix
                   then loop r (files ++ [child path name])
                   else loop r files
               end
           end) entries files
  | File _ => files
  end.

(** [Unlink(filename, exist)] on a node that may be absent. *)
Definition Unlink (path : str) (exist : bool) (n : option node) : option node * bool :=
  if negb exist && null n then (n, true)
  else match n with
       | Some (File m) => if unlink_ok path then (None, true) else (Some (File m), false)
       | _ => (n, false)
       end.

(** [Rm]: the node left at the path and the result.  A node whose mode has
    the bit [S_IFDIR] is opened as a directory. *)
Fixpoint Rm (path : str) (n : node) : option node * bool :=
  match n with
  | File m =>
      if Z.land m S_IFDIR =? 0 then Unlink path false (Some (File m)) else (Some (File m), false)
  | Dir entries =>
      if negb (opendir_ok path) then (Some n, false)
      else
        let '(kept, ret) :=
          (fix loop (es : list (str * node)) (ret : bool) : list (str * node) * bool :=
             match es with
             | [] => ([], ret)
             | (name, c) :: r =>
                 if is_dot name then let '(l, b) := loop r ret in ((name, c) :: l, b)
                 else
                   let '(c', b) := Rm (child path name) c in
                   let '(l, b') := loop r b in
                   (match c' with Some c' => (name, c') :: l | None => l end, b')
             end) entries true in
        if rmdir_ok path && forallb (λ e, is_dot e.1) kept then (None, ret)
        else (Some (Dir kept), false)
  end.

(** [Rm] when [lstat] may fail. *)
Definition Rm_at (path : str) (n : option node) : option node * bool :=
  match n with None => (None, true) | Some n => Rm path n end.

(** [Mv]: what is left at [to] before the rename, and the result;
    [rename_rc] is the result of rename(2). *)
Definition Mv (to : str) (n : option node) (rename_rc : Z) : bool :=
  if negb (Rm_at to n).2 then false else rename_rc =? 0.

(** [Symlink]: the result of symlink(2) converted to [bool]. *)
Definition Symlink (to : str) (n : option node) (symlink_rc : Z) : bool :=
  if negb (Rm_at to n).2 then false else negb (symlink_rc =? 0).
End FsUtil.

(** [__lstat]: the result and the record of lstat(2), which is stored through
    [st] when that is not null. *)
Definition lstat_ {S} (ret : Z) (lst : S) (st : option S) : Z * option S := (ret, st ← st; Some lst).

(** [OpenForRead]: opened once, no directory is made. *)
Definition OpenForRead (is_open : bool) : bool := is_open.

(** [Realpath]: [lstat_rc] and the answer of realpath(3). *)
Definition Realpath (lstat_rc : Z) (ptr : option str) (rpath : str) : bool * str :=
  if negb (lstat_rc =? 0) then (false, rpath)
  else match ptr with None => (false, rpath) | Some p => (true, p) end.

(** [atoi] of the C library: [strtol] narrowed to [int]. *)
Definition strtol (s : str) : Z :=
  let s := drop_while isspace s in
  let '(neg, s) := match s with
                   | "-"%char :: s' => (true, s')
                   | "+"%char :: s' => (false, s')
                   | _ => (false, s)
                   end in
  let v := if neg : bool then - digits_value 0 s else digits_value 0 s in
  Z.max (-2 ^ 63) (Z.min v (2 ^ 63 - 1)).
Definition atoi (s : str) : Z := i32 (strtol s).

(** [IsRunningPidfile]: [line] is what [getline] read, [kill_rc] the answer of
    kill(pid, 0). *)
Definition IsRunningPidfile (lstat_rc : Z) (line : option str) (kill_rc : Z → Z) : bool :=
  if negb (lstat_rc =? 0) then false
  else match line with
       | None => false
       | Some [] => false
       | Some l => let pid := atoi l in
                   if pid <=? 1 then false else if negb (kill_rc pid =? 0) then false else true
       end.

Section Mkdir.
(** Does mkdir(2) succeed at this path, given the paths that exist? *)
Variable mkdir_ok : gset str → str → bool.

(** [__mkdir]: the paths that exist afterwards and whether it returned 0. *)
Definition mkdir_one (d : str) (fs : gset str) : gset str * bool :=
  if bool_decide (d ∈ fs) then (fs, true)
  else if mkdir_ok fs d then ({[d]} ∪ fs, true) else (fs, false).

(** The loop of [Mkdir] over the slashes after the first character; [done] is
    the text before [rest]. *)
Fixpoint Mkdir_loop (done rest : str) (fs : gset str) : gset str * bool :=
  match rest with
  | [] => (fs, true)
  | c :: r =>
      if Ascii.eqb c "/" && negb (bool_decide (done = [])) then
        let '(fs', ok) := mkdir_one done fs in
        if ok then Mkdir_loop (done ++ [c]) r fs' else (fs', false)
      else Mkdir_loop (done ++ [c]) r fs
  end.

(** [FSUtil::Mkdir]; [strchr(path + 1, '/')] reads past the end of an empty
    name. *)
Definition Mkdir (dirname : str) (fs : gset str) : outcome (gset str * bool) :=
  if bool_decide (dirname ∈ fs) then Ret (fs, true)
  else match dirname with
       | [] => Undefined
       | _ =>
           let '(fs1, ok) := Mkdir_loop [] dirname fs in
           if ok then Ret (mkdir_one dirname fs1) else Ret (fs1, false)
       end.

(** [OpenForWrite]: [open fs] says whether the file can be opened when those
    paths exist. *)
Definition OpenForWrite (open : gset str → bool) (filename : str) (fs : gset str) :
    outcome (gset str * bool) :=
  if open fs then Ret (fs, true)
  else
    '(fs', _) ← Mkdir (Dirname filename) fs;
    Ret (fs', open fs').
End Mkdir.

(** ** Laws *)

(** Induction that reaches the entries of a directory. *)
Lemma node_tree_ind (P : node → Prop) :
  (∀ m, P (File m)) → (∀ es, Forall (λ e, P e.2) es → P (Dir es)) → ∀ n, P n.
Proof.
  intros HF HD. fix IH 1. intros [m|es]; [apply HF|]. apply HD.
  induction es as [|[name c] es IHes]; constructor; [apply IH|apply IHes].
Qed.

(** A regular file below a node, with its path and its name. *)
Inductive lists : str → node → str → str → Prop :=
  | lists_here path es name m :
      (name, File m) ∈ es → is_reg (File m) = true → lists path (Dir es) (child path name) name
  | lists_below path es name es' p f :
      (name, Dir es') ∈ es → is_dot name = false → lists (child path name) (Dir es') p f →
      lists path (Dir es) p f.

Lemma has_subfix_suffix filename subfix :
  has_subfix filename subfix = true ↔ subfix `suffix_of` filename.
Proof.
  unfold has_subfix. destruct subfix as [|c sub]; [split; [intros _; apply suffix_nil|done]|].
  destruct (Nat.ltb_spec (length filename) (length (c :: sub))) as [Hlt|Hge].
  - split; [done|]. intros [p ->]. rewrite length_app in Hlt. lia.
  - rewrite bool_decide_eq_true. split.
    + intros H. exists (take (length filename - length (c :: sub)) filename).
      rewrite <-H at 2. by rewrite take_drop.
    + intros [p ->]. rewrite length_app. rewrite Nat.add_sub. by rewrite drop_app_length.
Qed.

Lemma lists_nil path p f : ¬ lists path (Dir []) p f.
Proof. intros Hl. inversion Hl; subst; set_solver. Qed.

Lemma lists_cons path name c es p f :
  lists path (Dir ((name, c) :: es)) p f ↔
  lists path (Dir es) p f ∨
  (∃ m, c = File m ∧ is_reg c = true ∧ p = child path name ∧ f = name) ∨
  (∃ es', c = Dir es' ∧ is_dot name = false ∧ lists (child path name) c p f).
Proof.
  split.
  - intros Hl. inversion Hl as [? ? n' m Hin Hr|? ? n' es' ? ? Hin Hd Hl']; subst.
    + apply elem_of_cons in Hin as [[= -> <-]|Hin]; [right; left; eauto|].
      left. by econstructor.
    + apply elem_of_cons in Hin as [[= -> <-]|Hin]; [right; right; eauto|].
      left. by econstructor 2.
  - intros [Hl|[(m & -> & Hr & -> & ->)|(es' & -> & Hd & Hl)]].
    + inversion Hl; subst; [econstructor 1|econstructor 2]; eauto; by constructor.
    + econstructor 1; [by constructor|done].
    + econstructor 2; [by constructor|done|done].
Qed.

(** The files of a directory that are asked for, entry by entry. *)
Lemma lists_suffix_cons path name c es p subfix :
  (∃ f, lists path (Dir ((name, c) :: es)) p f ∧ subfix `suffix_of` f) ↔
  (∃ f, lists path (Dir es) p f ∧ subfix `suffix_of` f) ∨
  (∃ m, c = File m ∧ is_reg c = true ∧ p = child path name ∧ subfix `suffix_of` name) ∨
  (∃ es', c = Dir es' ∧ is_dot name = false ∧
     ∃ f, lists (child path name) c p f ∧ subfix `suffix_of` f).
Proof.
  setoid_rewrite lists_cons. split.
  - intros (f & [?|[(m & -> & ? & -> & ->)|(es' & -> & ? & ?)]] & ?); eauto 10.
  - intros [(f & ? & ?)|[(m & -> & ? & -> & ?)|(es' & -> & ? & f & ? & ?)]]; eauto 10.
Qed.

(** C40: where every directory can be read, [ListAllFile] adds to the list
    exactly the paths of the regular files, at any depth, whose name ends with
    the suffix given, and keeps what was there. *)
Theorem ListAllFile_spec (access_ok opendir_ok : str → bool) (n : node) (path subfix p : str)
    (files : list str) :
  (∀ q, access_ok q = true) → (∀ q, opendir_ok q = true) →
  p ∈ ListAllFile access_ok opendir_ok files path n subfix ↔
  p ∈ files ∨ ∃ f, lists path n p f ∧ subfix `suffix_of` f.
Proof.
  intros Ha Ho. revert path files p. induction n as [m|es IH] using node_tree_ind; intros path files p.
  { cbn. split; [by left|]. intros [|(f & Hl & _)]; [done|inversion Hl]. }
  cbn -[has_subfix is_reg]. rewrite Ha, Ho. cbn [negb].
  revert files. induction IH as [|[name c] es Hc Hes IHes]; intros files.
  { split; [by left|]. intros [|(f & Hl & _)]; [done|by apply lists_nil in Hl]. }
  rewrite lists_suffix_cons. destruct c as [m|es'].
  - destruct (is_reg (File m) && has_subfix name subfix) eqn:Hb; rewrite IHes; clear IHes Hc.
    + apply andb_true_iff in Hb as [Hr Hs%has_subfix_suffix]. rewrite elem_of_app, list_elem_of_singleton.
      split; [intros [[|]|]; eauto 10|]. intros [|[|[(m' & _ & _ & -> & _)|(es' & ? & _)]]]; auto; done.
    + apply andb_false_iff in Hb. split; [intros [|]; auto|].
      intros [|[|[(m' & _ & Hr & _ & Hs%has_subfix_suffix)|(es' & ? & _)]]]; auto; [|done].
      destruct Hb; congruence.
  - destruct (is_dot name) eqn:Hd; rewrite IHes; clear IHes.
    + split; [intros [|]; auto|].
      intros [|[|[(m' & ? & _)|(es'' & _ & ? & _)]]]; auto; done.
    + cbn [snd] in Hc. rewrite (Hc (child path name) files p). clear Hc. split.
      * intros [[|(f & ? & ?)]|]; eauto 10.
      * intros [|[|[(m' & ? & _)|(es'' & _ & _ & f & ? & ?)]]]; eauto 10. done.
Qed.

Lemma ListAllFile_spec_witness :
  let n := Dir [($ ".", Dir []); ($ "a.yml", File S_IFREG); ($ "d", Dir [($ "b.yml", File S_IFREG)])] in
  $ "c/d/b.yml" ∈ ListAllFile (λ _, true) (λ _, true) [] ($ "c") n ($ ".yml").
Proof.
  intros n. apply (ListAllFile_spec (λ _, true) (λ _, true) n ($ "c") ($ ".yml") ($ "c/d/b.yml") []);
    [done|done|].
  right. exists ($ "b.yml"). split; [|by exists ($ "b")].
  apply (lists_below ($ "c") _ ($ "d") [($ "b.yml", File S_IFREG)]); [set_solver|done|].
  apply (lists_here ($ "c/d") _ ($ "b.yml") S_IFREG); [set_solver|done].
Defined.

(** No node but a directory has the bit [S_IFDIR]: no socket, no block device. *)
Inductive plain : node → Prop :=
  | plain_file m : Z.land m S_IFDIR = 0 → plain (File m)
  | plain_dir es : Forall (λ e, is_dot e.1 = false → plain e.2) es → plain (Dir es).

Section RmLaws.
Variables opendir_ok unlink_ok rmdir_ok : str → bool.

(** The loop of [Rm] over the entries of a directory. *)
Fixpoint Rm_entries (path : str) (es : list (str * node)) (ret : bool) : list (str * node) * bool :=
  match es with
  | [] => ([], ret)
  | (name, c) :: r =>
      if is_dot name then let '(l, b) := Rm_entries path r ret in ((name, c) :: l, b)
      else
        let '(c', b) := Rm opendir_ok unlink_ok rmdir_ok (child path name) c in
        let '(l, b') := Rm_entries path r b in
        (match c' with Some c' => (name, c') :: l | None => l end, b')
  end.

Lemma Rm_dir path es :
  Rm opendir_ok unlink_ok rmdir_ok path (Dir es) =
    if negb (opendir_ok path) then (Some (Dir es), false)
    else
      let '(kept, ret) := Rm_entries path es true in
      if rmdir_ok path && forallb (λ e, is_dot e.1) kept then (None, ret)
      else (Some (Dir kept), false).
Proof.
  cbn. destruct (opendir_ok path); [|done]. cbn.
  assert (H : ∀ ret, (fix loop (es : list (str * node)) (ret : bool) : list (str * node) * bool :=
     match es with
     | [] => ([], ret)
     | (name, c) :: r =>
         if is_dot name then let '(l, b) := loop r ret in ((name, c) :: l, b)
         else
           let '(c', b) := Rm opendir_ok unlink_ok rmdir_ok (child path name) c in
           let '(l, b') := loop r b in
           (match c' with Some c' => (name, c') :: l | None => l end, b')
     end) es ret = Rm_entries path es ret); [|by rewrite H].
  induction es as [|[name c] es IH]; intros ret; cbn; [done|].
  destruct (is_dot name); [by rewrite IH|].
  destruct (Rm opendir_ok unlink_ok rmdir_ok (child path name) c) as [c' b]. by rewrite IH.
Qed.

Definition reports (path : str) (n : node) : Prop :=
  (Rm opendir_ok unlink_ok rmdir_ok path n).2 = true ↔
  (Rm opendir_ok unlink_ok rmdir_ok path n).1 = None.

Lemma Rm_entries_ret path es :
  Forall (λ e, ∀ p, reports p e.2) es → ∀ ret,
  ret = true → forallb (λ e, is_dot e.1) (Rm_entries path es ret).1 = true →
  (Rm_entries path es ret).2 = true.
Proof.
  induction 1 as [|[name c] es Hc Hes IH]; intros ret Hret Hall; cbn in *; [done|].
  destruct (is_dot name) eqn:Hd.
  - specialize (IH ret Hret). destruct (Rm_entries path es ret) as [l b]. cbn in *.
    rewrite Hd in Hall. auto.
  - specialize (Hc (child path name)). unfold reports in Hc.
    destruct (Rm _ _ _ (child path name) c) as [c' b]. cbn in Hc.
    destruct c' as [c'|].
    + destruct (Rm_entries path es b) as [l b']. cbn in Hall. by rewrite Hd in Hall.
    + specialize (IH b (proj2 Hc eq_refl)). destruct (Rm_entries path es b) as [l b']. auto.
Qed.

Lemma Rm_result path n : reports path n.
Proof.
  revert path. induction n as [m|es IH] using node_tree_ind; intros path; unfold reports.
  - cbn. destruct (Z.land m S_IFDIR =? 0); [|done]. by destruct (unlink_ok path).
  - rewrite Rm_dir. destruct (opendir_ok path); [|done]. cbn.
    pose proof (Rm_entries_ret path es IH true eq_refl) as Hret.
    destruct (Rm_entries path es true) as [l b]. cbn in *.
    destruct (rmdir_ok path); [|done]. destruct (forallb _ l); [|done]. by rewrite Hret.
Qed.

Lemma Rm_removes path n :
  (∀ p, opendir_ok p = true ∧ unlink_ok p = true ∧ rmdir_ok p = true) → plain n →
  Rm opendir_ok unlink_ok rmdir_ok path n = (None, true).
Proof.
  intros Hok. revert path. induction n as [m|es IH] using node_tree_ind; intros path Hp.
  - inversion Hp as [? Hm|]; subst. cbn. rewrite Hm. cbn. by destruct (Hok path) as (_ & -> & _).
  - inversion Hp as [|? Hes]; subst. rewrite Rm_dir. destruct (Hok path) as (-> & _ & ->). cbn.
    assert (H : ∀ ret, ret = true → forallb (λ e, is_dot e.1) (Rm_entries path es ret).1 = true ∧
                  (Rm_entries path es ret).2 = true).
    { clear Hp. induction Hes as [|[name c] es Hc Hes IHes]; intros ret Hret; cbn; [done|].
      inversion IH as [|? ? IHc IHrest]; subst. cbn in Hc, IHc.
      destruct (is_dot name) eqn:Hd.
      - destruct (IHes IHrest true eq_refl). destruct (Rm_entries path es true). cbn in *.
        by rewrite Hd.
      - rewrite IHc by auto. destruct (IHes IHrest true eq_refl).
        by destruct (Rm_entries path es true). }
    destruct (H true eq_refl). destruct (Rm_entries path es true) as [l b]. cbn in *. by subst; rewrite H0.
Qed.
End RmLaws.

(** [Rm] answers true exactly when nothing is left at the path - the flag
    it keeps per entry is overwritten by the next one, but a directory with a
    remaining entry cannot be removed - and it removes any tree of plain files
    and directories when nothing is denied.  A socket is not plain: its mode has
    the bit [S_IFDIR], and [Rm] refuses it. *)
Theorem Rm_reports (opendir_ok unlink_ok rmdir_ok : str → bool) (path : str) (n : node) :
  ((Rm opendir_ok unlink_ok rmdir_ok path n).2 = true ↔
   (Rm opendir_ok unlink_ok rmdir_ok path n).1 = None) ∧
  ((∀ p, opendir_ok p = true ∧ unlink_ok p = true ∧ rmdir_ok p = true) → plain n →
   Rm opendir_ok unlink_ok rmdir_ok path n = (None, true)) ∧
  Rm opendir_ok unlink_ok rmdir_ok path (File S_IFSOCK) = (Some (File S_IFSOCK), false).
Proof.
  split; [apply Rm_result|]. split; [apply Rm_removes|done].
Qed.

Lemma Rm_reports_witness :
  let n := Dir [($ ".", Dir []); ($ "f", File S_IFREG)] in
  Rm (λ _, true) (λ _, true) (λ _, true) ($ "d") n = (None, true).
Proof.
  intros n. apply (Rm_reports (λ _, true) (λ _, true) (λ _, true) ($ "d") n); [done|].
  constructor. constructor; [by intros [=]|]. constructor; [by constructor|constructor].
Defined.

Section MkdirLaws.
Variable mkdir_ok : gset str → str → bool.
Abbreviation slash := "/"%char.

Lemma mkdir_one_spec d fs :
  let '(fs', ok) := mkdir_one mkdir_ok d fs in
  fs ⊆ fs' ∧ fs' ⊆ {[d]} ∪ fs ∧ (ok = true → d ∈ fs').
Proof. unfold mkdir_one. case_bool_decide; [set_solver|]. destruct (mkdir_ok fs d); set_solver. Qed.

Lemma Mkdir_loop_spec rest : ∀ pre fs,
  let '(fs', ok) := Mkdir_loop mkdir_ok pre rest fs in
  fs ⊆ fs' ∧
  (∀ d, d ∈ fs' → d ∈ fs ∨ ∃ a r, rest = a ++ slash :: r ∧ d = pre ++ a) ∧
  (ok = true → ∀ a r, rest = a ++ slash :: r → pre ++ a ≠ [] → pre ++ a ∈ fs').
Proof.
  induction rest as [|c rest IH]; intros pre fs; cbn.
  { split_and!; [done|by left|]. by intros _ [|??] r. }
  assert (Hskip : ∀ d, (∃ a r, rest = a ++ slash :: r ∧ d = (pre ++ [c]) ++ a) →
                  ∃ a r, c :: rest = a ++ slash :: r ∧ d = pre ++ a).
  { intros d (a & r & -> & ->). exists (c :: a), r. by rewrite <-app_assoc. }
  assert (Hlater : ∀ fs' : gset str,
    (∀ a r, rest = a ++ slash :: r → (pre ++ [c]) ++ a ≠ [] → (pre ++ [c]) ++ a ∈ fs') →
    ∀ a r, c :: rest = a ++ slash :: r → a ≠ [] → pre ++ a ∈ fs').
  { intros fs' H a r Ha Hne. destruct a as [|x a]; [done|]. injection Ha as <- Ha.
    specialize (H a r Ha). rewrite <-app_assoc in H. apply H. by destruct pre. }
  destruct (Ascii.eqb c slash && negb (bool_decide (pre = []))) eqn:Hb.
  - apply andb_true_iff in Hb as [->%Ascii.eqb_eq Hd%negb_true_iff%bool_decide_eq_false].
    pose proof (mkdir_one_spec pre fs) as H1. destruct (mkdir_one mkdir_ok pre fs) as [fs1 [|]].
    + specialize (IH (pre ++ [slash]) fs1).
      destruct (Mkdir_loop mkdir_ok (pre ++ [slash]) rest fs1) as [fs2 ok].
      destruct IH as (Hsub & Hnew & Hall). split_and!; [set_solver| |].
      * intros d [Hin|Hex]%Hnew; [|by right; apply Hskip].
        destruct (decide (d ∈ fs)); [by left|right]. exists [], rest. rewrite app_nil_r. set_solver.
      * intros Hok a r Ha Hne. destruct (decide (a = [])) as [->|]; [rewrite app_nil_r; set_solver|].
        eapply Hlater; eauto.
    + split_and!; [set_solver| |done]. intros d Hin.
      destruct (decide (d ∈ fs)); [by left|right]. exists [], rest. rewrite app_nil_r. set_solver.
  - specialize (IH (pre ++ [c]) fs). destruct (Mkdir_loop mkdir_ok (pre ++ [c]) rest fs) as [fs2 ok].
    destruct IH as (Hsub & Hnew & Hall). split_and!; [done| |].
    + intros d [Hin|Hex]%Hnew; [by left|by right; apply Hskip].
    + intros Hok a r Ha Hne. destruct (decide (a = [])) as [->|]; [|by eapply Hlater; eauto].
      injection Ha as -> ->. rewrite app_nil_r in Hne. rewrite Ascii.eqb_refl in Hb. cbn in Hb.
      by rewrite bool_decide_false in Hb.
Qed.

(** A system on which a directory can be made once its parents exist. *)
Definition can_make : Prop :=
  ∀ fs d, (∀ p r, p ≠ [] → d = p ++ slash :: r → p ∈ fs) → mkdir_ok fs d = true.

Lemma Mkdir_loop_ok rest : ∀ pre fs,
  can_make → (∀ p r, p ≠ [] → pre = p ++ slash :: r → p ∈ fs) →
  (Mkdir_loop mkdir_ok pre rest fs).2 = true.
Proof.
  induction rest as [|c rest IH]; intros pre fs Hcan Hpar; cbn; [done|].
  assert (Hsnoc : ∀ fs' : gset str, fs ⊆ fs' → (c = slash → pre ≠ [] → pre ∈ fs') →
    ∀ p r, p ≠ [] → pre ++ [c] = p ++ slash :: r → p ∈ fs').
  { intros fs' Hsub Hd p r Hp Heq. destruct r as [|x r _] using rev_ind.
    - apply app_inj_tail in Heq as [-> ->]. by apply Hd.
    - rewrite app_comm_cons, app_assoc in Heq. apply app_inj_tail in Heq as [Heq ->].
      apply Hsub. by eapply Hpar. }
  destruct (Ascii.eqb c slash && negb (bool_decide (pre = []))) eqn:Hb.
  - pose proof (mkdir_one_spec pre fs) as H1. unfold mkdir_one in *.
    case_bool_decide; [|rewrite (Hcan fs pre Hpar) in *];
      (apply IH; [done|]; apply Hsnoc; set_solver).
  - apply IH; [done|]. apply Hsnoc; [done|]. intros -> Hne. rewrite Ascii.eqb_refl in Hb.
    cbn in Hb. by rewrite bool_decide_false in Hb.
Qed.
End MkdirLaws.

(** [Mkdir] only ever creates prefixes of the name that end before a slash,
    and the name itself; when it answers true for a name that did not exist, all
    of them exist; and it answers true whenever the system can make a directory
    whose parents exist. *)
Theorem Mkdir_spec (mkdir_ok : gset str → str → bool) (s : str) (fs : gset str) :
  s ∉ fs → s ≠ [] →
  ∃ fs' ok, Mkdir mkdir_ok s fs = Ret (fs', ok) ∧ fs ⊆ fs' ∧
    (∀ d, d ∈ fs' → d ∈ fs ∨ d = s ∨ ∃ r, s = d ++ "/"%char :: r) ∧
    (ok = true → s ∈ fs' ∧ ∀ d r, d ≠ [] → s = d ++ "/"%char :: r → d ∈ fs') ∧
    (can_make mkdir_ok → ok = true).
Proof.
  intros Hs Hne. unfold Mkdir. rewrite bool_decide_false by done.
  destruct s as [|c s]; [done|]. set (name := c :: s) in *.
  pose proof (Mkdir_loop_spec mkdir_ok name [] fs) as Hloop.
  pose proof (Mkdir_loop_ok mkdir_ok name [] fs) as Hcomplete.
  destruct (Mkdir_loop mkdir_ok [] name fs) as [fs1 [|]]; cbn in Hcomplete.
  - destruct Hloop as (Hsub & Hnew & Hall). pose proof (mkdir_one_spec mkdir_ok name fs1) as H1.
    assert (Hok : can_make mkdir_ok → (mkdir_one mkdir_ok name fs1).2 = true).
    { intros Hcan. unfold mkdir_one. case_bool_decide; [done|].
      rewrite Hcan; [done|]. intros p r Hp Hr. by eapply (Hall eq_refl). }
    destruct (mkdir_one mkdir_ok name fs1) as [fs2 ok]. destruct H1 as (Hsub1 & Hnew1 & Hin).
    exists fs2, ok. split_and!; [done|set_solver| | |done].
    + intros d Hd. destruct (decide (d = name)); [auto|].
      destruct (Hnew d) as [|(a & r & Ha & ->)]; [set_solver|auto|]. right; right. by exists r.
    + intros Hk. split; [auto|]. intros d r Hd Hr. apply Hsub1. by eapply (Hall eq_refl).
  - destruct Hloop as (Hsub & Hnew & Hall). exists fs1, false. split_and!; [done|done| |done|].
    + intros d [|(a & r & Ha & ->)]%Hnew; [auto|]. right; right. by exists r.
    + intros Hcan. apply Hcomplete; [done|]. by intros [|??] r.
Qed.

Lemma Mkdir_spec_witness :
  ∃ fs' ok, Mkdir (λ _ _, true) ($ "a/b") ∅ = Ret (fs', ok) ∧ ∅ ⊆ fs' ∧
    (∀ d, d ∈ fs' → d ∈ (∅ : gset str) ∨ d = $ "a/b" ∨ ∃ r, $ "a/b" = d ++ "/"%char :: r) ∧
    (ok = true → $ "a/b" ∈ fs' ∧ ∀ d r, d ≠ [] → $ "a/b" = d ++ "/"%char :: r → d ∈ fs') ∧
    (can_make (λ _ _, true) → ok = true).
Proof. apply (Mkdir_spec (λ _ _, true) ($ "a/b") ∅); [set_solver|done]. Defined.
