(* ===== verification/Stream.v ===== *)
(** * Streams, parameters and atomics (util.h, util.cpp)

    A [std::istream] is the bytes it can still deliver and its state; a
    [std::ostream] what it has taken, how much more it can take, and its state.
    The functions that copy at a limited speed are in SpeedLimit. *)
From S2P Require Import Prelude.

Record istream : Type := mkIs { avail : str; igood : bool }.
Record ostream : Type := mkOs { written : str; room : nat; ogood : bool }.

(** [is.read(p, n)]: the bytes stored ([gcount] is their number). *)
Definition is_read (n : nat) (ist : istream) : istream * str :=
  if negb (igood ist) then (ist, [])
  else if (n <=? length (avail ist))%nat
       then (mkIs (drop n (avail ist)) true, take n (avail ist))
       else (mkIs [] false, avail ist).

(** [os.write(p, n)]. *)
Definition os_write (l : str) (os : ostream) : ostream :=
  if negb (ogood os) then os
  else if (length l <=? room os)%nat
       then mkOs (written os ++ l) (room os - length l) true
       else mkOs (written os ++ take (room os) l) 0 false.

(** [ReadFixFromStream]; the data read so far has length [pos]. *)
Fixpoint ReadFix_loop (fuel size : nat) (ist : istream) (data : str) : istream * str :=
  match fuel with
  | O => (ist, data)
  | S fuel' =>
      if igood ist && (length data <? size)%nat then
        let '(ist', l) := is_read (size - length data) ist in
        ReadFix_loop fuel' size ist' (data ++ l)
      else (ist, data)
  end.
Definition ReadFixFromStream (size : nat) (ist : istream) : istream * str * bool :=
  let '(ist', data) := ReadFix_loop (S size) size ist [] in (ist', data, (length data =? size)%nat).

(** [ReadFromStream] into a value or a vector of [size] bytes. *)
Definition ReadFromStream (size : nat) (ist : istream) : istream * str * bool := ReadFixFromStream size ist.

(** [WriteToStream] of a value's or a vector's bytes. *)
Definition WriteToStream (data : str) (os : ostream) : ostream * bool :=
  if negb (ogood os) then (os, false)
  else let os' := os_write data os in (os', ogood os').

(** ** Parameters by name *)
Section Params.
(** [lexical_cast] is boost's conversion; [None] when it throws. *)
Context {V : Type} (lexical_cast : str → option V).

Definition GetParamValue (m : gmap str str) (k : str) (def : V) : V :=
  match m !! k with None => def | Some s => default def (lexical_cast s) end.

(** The result and the new value of [v]. *)
Definition CheckGetParamValue (m : gmap str str) (k : str) (v : V) : bool * V :=
  match m !! k with
  | None => (false, v)
  | Some s => match lexical_cast s with Some x => (true, x) | None => (false, v) end
  end.
End Params.

(** ** Atomic operations on a [w]-bit unsigned integer: the new value and the
    result *)
Section Atomic.
Variable w : Z.
Definition wrap (z : Z) : Z := z mod 2 ^ w.

Definition addFetch (t v : Z) : Z * Z := let n := wrap (t + wrap v) in (n, n).
Definition subFetch (t v : Z) : Z * Z := let n := wrap (t - wrap v) in (n, n).
Definition orFetch (t v : Z) : Z * Z := let n := Z.lor t (wrap v) in (n, n).
Definition andFetch (t v : Z) : Z * Z := let n := Z.land t (wrap v) in (n, n).
Definition xorFetch (t v : Z) : Z * Z := let n := Z.lxor t (wrap v) in (n, n).
Definition nandFetch (t v : Z) : Z * Z := let n := wrap (Z.lnot (Z.land t (wrap v))) in (n, n).
Definition fetchAdd (t v : Z) : Z * Z := (wrap (t + wrap v), t).
Definition fetchSub (t v : Z) : Z * Z := (wrap (t - wrap v), t).
Definition fetchOr (t v : Z) : Z * Z := (Z.lor t (wrap v), t).
Definition fetchAnd (t v : Z) : Z * Z := (Z.land t (wrap v), t).
Definition fetchXor (t v : Z) : Z * Z := (Z.lxor t (wrap v), t).
Definition fetchNand (t v : Z) : Z * Z := (wrap (Z.lnot (Z.land t (wrap v))), t).
Definition compareAndSwap (t old_val new_val : Z) : Z * Z :=
  (if t =? wrap old_val then wrap new_val else t, t).
Definition compareAndSwapBool (t old_val new_val : Z) : Z * bool :=
  (if t =? wrap old_val then wrap new_val else t, t =? wrap old_val).
End Atomic.

(** ** Reading *)

(** What a complete read gives: the first [size] bytes, or all of them. *)
Definition read_spec (size : nat) (ist : istream) : istream * str * bool :=
  if negb (igood ist) then (ist, [], (size =? 0)%nat)
  else if (size <=? length (avail ist))%nat
       then (mkIs (drop size (avail ist)) true, take size (avail ist), true)
       else (mkIs [] false, avail ist, false).

(** Reading in pieces of at most [per] bytes. *)
Fixpoint read_pieces (fuel per size : nat) (ist : istream) (data : str) : istream * str :=
  match fuel with
  | O => (ist, data)
  | S fuel' =>
      if igood ist && (length data <? size)%nat then
        let '(ist', l) := is_read (Nat.min per (size - length data)) ist in
        read_pieces fuel' per size ist' (data ++ l)
      else (ist, data)
  end.

Lemma read_pieces_spec per size fuel : ∀ ist data,
  (0 < per)%nat → (size - length data < fuel)%nat → (length data ≤ size)%nat →
  let '(ist', data') := read_pieces fuel per size ist data in
  (ist', data') =
    if negb (igood ist) then (ist, data)
    else if (size - length data <=? length (avail ist))%nat
         then (mkIs (drop (size - length data) (avail ist)) true, data ++ take (size - length data) (avail ist))
         else (mkIs [] false, data ++ avail ist).
Proof.
  induction fuel as [|fuel IH]; intros ist data Hper Hfuel Hlen; [lia|]. cbn -[Nat.ltb].
  destruct ist as [av [|]]; cbn -[Nat.ltb]; [|done].
  destruct (Nat.ltb_spec (length data) size) as [Hlt|Hge].
  2:{ replace (size - length data)%nat with 0%nat by lia. cbn. by rewrite drop_0, app_nil_r. }
  set (s := Nat.min per (size - length data)). assert (Hs : (0 < s ≤ size - length data)%nat) by lia.
  unfold is_read. cbn -[Nat.leb]. destruct (Nat.leb_spec s (length av)) as [Hle|Hgt].
  - specialize (IH (mkIs (drop s av) true) (data ++ take s av)).
    rewrite length_app, length_take, Nat.min_l in IH by done.
    destruct (read_pieces fuel per size _ _) as [ist' data'].
    rewrite IH by lia. cbn -[Nat.leb]. rewrite length_drop.
    replace (size - (length data + s))%nat with (size - length data - s)%nat by lia.
    destruct (Nat.leb_spec (size - length data - s) (length av - s)),
      (Nat.leb_spec (size - length data) (length av)); try lia.
    + rewrite drop_drop, <-app_assoc. do 2 f_equal.
      * f_equal. lia.
      * rewrite <-(take_drop s (take (size - length data) av)).
        rewrite take_take, Nat.min_l by lia. by rewrite take_drop_commute, <-take_drop_commute, skipn_firstn_comm.
    + by rewrite <-app_assoc, take_drop.
  - destruct fuel as [|fuel]; cbn; destruct (Nat.leb_spec (size - length data) (length av)); by try lia.
Qed.

(** Pieces of any size give what a complete read gives. *)
Lemma read_pieces_all per size ist : (0 < per)%nat →
  (let '(ist', data) := read_pieces (S size) per size ist [] in
   (ist', data, (length data =? size)%nat)) = read_spec size ist.
Proof.
  intros Hper. pose proof (read_pieces_spec per size (S size) ist [] Hper) as H.
  cbn [length] in H. rewrite Nat.sub_0_r in H. specialize (H ltac:(lia) ltac:(lia)).
  destruct (read_pieces (S size) per size ist []) as [ist' data].
  unfold read_spec. destruct (negb (igood ist)).
  - injection H as -> ->. cbn. by destruct size.
  - destruct (Nat.leb_spec size (length (avail ist))); injection H as -> ->; cbn [app]; f_equal.
    + apply Nat.eqb_eq. rewrite length_take. lia.
    + apply Nat.eqb_neq. lia.
Qed.

Lemma ReadFixFromStream_all size ist : ReadFixFromStream size ist = read_spec size ist.
Proof.
  unfold ReadFixFromStream. rewrite <-(read_pieces_all (S size)) by lia.
  assert (Hsame : ∀ fuel ist data, ReadFix_loop fuel size ist data = read_pieces fuel (S size) size ist data); [|by rewrite Hsame].
  induction fuel as [|fuel IH]; intros i data; cbn -[Nat.ltb Nat.min]; [done|].
  destruct (igood i && (length data <? size)%nat); [|done]. rewrite Nat.min_r by lia.
  destruct (is_read (size - length data) i). apply IH.
Qed.

(** ** Atomics: additions commute *)
Lemma addFetch_list w (l : list Z) : ∀ t, 0 ≤ w →
  foldl (λ t v, (addFetch w t v).1) (wrap w t) l = wrap w (t + foldr Z.add 0 l).
Proof.
  induction l as [|v l IH]; intros t Hw; cbn; [by rewrite Z.add_0_r|].
  unfold wrap in *. rewrite <-Z.add_mod, IH by (done || (apply Z.pow_nonzero; lia)). f_equal. lia.
Qed.
