(* ===== verification/Float.v ===== *)
(** * Floating point of the two widths the sources use

    The values and the rounding are the Standard Library's specification of IEEE
    754 ([SpecFloat]): [float] has 24 bits and [double] 53, and an operation is
    the real result rounded to the nearest, ties to even.  The lemmas bound the
    relative error of a conversion and of a division of positive numbers. *)
From Stdlib Require Import SpecFloat Reals Lra.
From S2P Require Import Prelude.

(** ** Conversions of the language *)

(** An integer as a [float] and as a [double]. *)
Definition float_of_Z (z : Z) : spec_float := binary_normalize 24 128 z 0 false.
Definition double_of_Z (z : Z) : spec_float := binary_normalize 53 1024 z 0 false.
Definition float_div (x y : spec_float) : spec_float := SFdiv 24 128 x y.
Definition double_div (x y : spec_float) : spec_float := SFdiv 53 1024 x y.

(** A [double] stored in a [float]. *)
Definition float_of_double (x : spec_float) : spec_float :=
  match x with
  | S754_finite s m e => binary_normalize 24 128 (if s then Zneg m else Zpos m) e s
  | _ => x
  end.

(** A floating-point number converted to [int]: the fraction is dropped; what
    does not fit is undefined. *)
Definition int_of_float (x : spec_float) : outcome Z :=
  match x with
  | S754_zero _ => Ret 0
  | S754_finite s m e =>
      let z := Z.shiftl (Zpos m) e in
      let z := if s then - z else z in
      if (- 2 ^ 31 <=? z) && (z <? 2 ^ 31) then Ret z else Undefined
  | _ => Undefined
  end.

(** ** Powers of two *)
Definition B (e : Z) : R := powerRZ 2 e.

Lemma B_pos e : (0 < B e)%R.
Proof. apply powerRZ_lt. lra. Qed.
Lemma B_add e e' : B (e + e') = (B e * B e')%R.
Proof. apply powerRZ_add. lra. Qed.
Lemma B_0 : B 0 = 1%R.
Proof. done. Qed.
Lemma B_neg e : (B e * B (- e))%R = 1%R.
Proof. by rewrite <-B_add, Z.add_opp_diag_r. Qed.
Lemma B_succ e : B (e + 1) = (2 * B e)%R.
Proof. rewrite B_add. replace (B 1) with 2%R by (unfold B; simpl; lra). lra. Qed.
Lemma B_pred e : B (e - 1) = (B e / 2)%R.
Proof. replace e with (e - 1 + 1) at 2 by lia. rewrite B_succ. lra. Qed.
Lemma B_IZR k : 0 ≤ k → IZR (2 ^ k) = B k.
Proof.
  intros Hk. pattern k. apply natlike_ind; [done| |done]. intros n Hn IH.
  rewrite Z.pow_succ_r, mult_IZR, IH, <-Z.add_1_r, B_succ by done. done.
Qed.
Lemma B_le e e' : e ≤ e' → (B e <= B e')%R.
Proof.
  intros H. replace e' with (e + (e' - e)) by lia. rewrite B_add. pose proof (B_pos e).
  assert (1 <= B (e' - e))%R; [|nra]. rewrite <-B_IZR by lia. apply IZR_le. pose proof (Z.pow_pos_nonneg 2 (e' - e)). lia.
Qed.
Lemma B_lt_inv e e' : (B e < B e')%R → e < e'.
Proof. intros H. destruct (Z.lt_ge_cases e e') as [|Hle]; [done|]. apply B_le in Hle. lra. Qed.

(** ** What a shifted-out tail stands for *)

(** The record [r] tells where the real [x] is: on its integer, below, at or
    above the half that follows. *)
Definition located (r : shr_record) (x : R) : Prop :=
  0 ≤ shr_m r ∧
  match shr_r r, shr_s r with
  | false, false => x = IZR (shr_m r)
  | false, true => (IZR (shr_m r) < x < IZR (shr_m r) + 1 / 2)%R
  | true, false => x = (IZR (shr_m r) + 1 / 2)%R
  | true, true => (IZR (shr_m r) + 1 / 2 < x < IZR (shr_m r) + 1)%R
  end.

Lemma located_floor r x : located r x → (IZR (shr_m r) <= x < IZR (shr_m r) + 1)%R.
Proof. destruct r as [m [] []]; intros [_ H]; cbn [shr_m shr_r shr_s] in *; lra. Qed.

Lemma shr_1_located r x : located r x → located (shr_1 r) (x / 2) ∧ shr_m (shr_1 r) = shr_m r / 2.
Proof.
  destruct r as [m b s]. intros [Hm H]. cbn [shr_m shr_r shr_s] in *.
  destruct m as [|[p|p|]|p]; [..|lia]; unfold located; cbn [shr_1 shr_m shr_r shr_s].
  - split; [|done]. split; [done|]. destruct b, s; cbn [orb]; lra.
  - replace (Zpos p~1 / 2) with (Zpos p) by (apply Z.div_unique with 1; lia). split; [|done]. split; [lia|].
    rewrite (Pos2Z.inj_xI p), plus_IZR, mult_IZR in H. destruct b, s; cbn [orb]; lra.
  - replace (Zpos p~0 / 2) with (Zpos p) by (apply Z.div_unique with 0; lia). split; [|done]. split; [lia|].
    rewrite (Pos2Z.inj_xO p), mult_IZR in H. destruct b, s; cbn [orb]; lra.
  - split; [|done]. split; [done|]. destruct b, s; cbn [orb]; lra.
Qed.

Lemma iter_pos_nat {A} (f : A → A) n : ∀ x, SpecFloat.iter_pos f n x = Nat.iter (Pos.to_nat n) f x.
Proof.
  assert (Hadd : ∀ a b (x : A), Nat.iter (a + b) f x = Nat.iter a f (Nat.iter b f x)).
  { intros a b x. induction a as [|a IH]; [done|]. cbn [Nat.add]. unfold Nat.iter in *. cbn [nat_rect]. by rewrite IH. }
  induction n as [n IH|n IH|]; intros x; cbn [SpecFloat.iter_pos]; [| |done].
  - rewrite !IH, <-Hadd, Pos2Nat.inj_xI.
    replace (S (2 * Pos.to_nat n)) with (Pos.to_nat n + Pos.to_nat n + 1)%nat by lia. by rewrite (Hadd _ 1%nat).
  - rewrite !IH, <-Hadd, Pos2Nat.inj_xO. f_equal. lia.
Qed.

Lemma shr_located r x e n : 0 ≤ n → located r x →
  located (shr r e n).1 (x * B (- n)) ∧ shr_m (shr r e n).1 = shr_m r / 2 ^ n ∧ (shr r e n).2 = e + n.
Proof.
  intros Hn Hx. destruct n as [|p|]; [| |lia]; cbn [shr fst snd].
  - change (B (- 0)) with 1%R. rewrite Rmult_1_r, Z.add_0_r. change (2 ^ 0) with 1. by rewrite Z.div_1_r.
  - rewrite iter_pos_nat. assert (∀ k, located (Nat.iter k shr_1 r) (x * B (- Z.of_nat k)) ∧
      shr_m (Nat.iter k shr_1 r) = shr_m r / 2 ^ Z.of_nat k) as Hk.
    { intros k. induction k as [|k [IH1 IH2]]; [cbn -[Z.pow Z.div]; change (B 0) with 1%R; change (2 ^ 0) with 1; by rewrite Rmult_1_r, Z.div_1_r|].
      cbn [Nat.iter nat_rect]. destruct (shr_1_located _ _ IH1) as [H1 H2]. split.
      - replace (- Z.of_nat (S k)) with (- Z.of_nat k - 1) by lia. rewrite B_pred.
        by replace (x * (B (- Z.of_nat k) / 2))%R with (x * B (- Z.of_nat k) / 2)%R by lra.
      - unfold Nat.iter in H2. rewrite H2. unfold Nat.iter in IH2. rewrite IH2.
        rewrite Z.div_div by lia. f_equal. rewrite Nat2Z.inj_succ, Z.pow_succ_r by lia. lia. }
    destruct (Hk (Pos.to_nat p)) as [H1 H2]. rewrite positive_nat_Z in H1, H2. done.
Qed.

Lemma round_close r x : located r x →
  let n := round_nearest_even (shr_m r) (loc_of_shr_record r) in
  (Rabs (IZR n - x) <= 1 / 2)%R ∧ shr_m r ≤ n ≤ shr_m r + 1.
Proof.
  destruct r as [m [] []]; cbn [located shr_m shr_r shr_s loc_of_shr_record round_nearest_even]; intros [Hm H];
    cbn in H; repeat case_match; split; try lia; try rewrite plus_IZR; apply Rabs_le; lra.
Qed.

Lemma digits_pos p : 2 ^ (Zpos (digits2_pos p) - 1) ≤ Zpos p < 2 ^ Zpos (digits2_pos p).
Proof.
  induction p as [p IH|p IH|]; cbn [digits2_pos]; [| |done];
    rewrite Pos2Z.inj_succ, Z.pow_succ_r by lia;
    replace (Z.succ (Zpos (digits2_pos p)) - 1) with (Z.succ (Zpos (digits2_pos p) - 1)) by lia;
    rewrite Z.pow_succ_r by lia; lia.
Qed.
Lemma digits_unique p d : 0 ≤ d → 2 ^ d ≤ Zpos p < 2 ^ (d + 1) → Zpos (digits2_pos p) = d + 1.
Proof.
  intros Hd H. pose proof (digits_pos p) as H'.
  assert (Zpos (digits2_pos p) - 1 < d + 1) by (apply (Z.pow_lt_mono_r_iff 2); lia).
  assert (d < Zpos (digits2_pos p)) by (apply (Z.pow_lt_mono_r_iff 2); lia). lia.
Qed.

(** ** Rounding *)
Section Format.
Context (prec emax : Z) (Hprec : 1 < prec) (Hemax : prec < emax).

Definition value (x : spec_float) : R :=
  match x with S754_finite false m e => IZR (Zpos m) * B e | _ => 0 end.
(** [f] is [x] up to the relative error of one rounding, and neither overflows
    nor is subnormal. *)
Definition close (f : spec_float) (x : R) : Prop :=
  (∃ m e, f = S754_finite false m e) ∧ (Rabs (value f - x) <= B (- prec) * x)%R.
Definition normal (x : R) : Prop := (B (emin prec emax + prec) <= x < B (emax - 1))%R.

Lemma fexp_normal d : emin prec emax ≤ d - prec → fexp prec emax d = d - prec.
Proof. unfold fexp. lia. Qed.

Lemma digits_value m x e : (0 < m) → (IZR m <= x < IZR m + 1)%R →
  (B (Zdigits2 m - 1 + e) <= x * B e < B (Zdigits2 m + e))%R.
Proof.
  destruct m as [|p|p]; [done| |done]. intros _ Hx. cbn [Zdigits2].
  pose proof (digits_pos p) as [H1 H2]. pose proof (B_pos e).
  rewrite !(B_add _ e), <-(B_IZR (_ - 1)), <-(B_IZR (Zpos _)) by lia.
  apply IZR_le in H1. assert (IZR (Zpos p) + 1 <= IZR (2 ^ Zpos (digits2_pos p)))%R.
  { rewrite <-plus_IZR. apply IZR_le. lia. }
  split; [apply Rmult_le_compat_r; lra|apply Rmult_lt_compat_r; lra].
Qed.

(** A shift that keeps [prec] digits. *)
Lemma shr_fexp_normal m e l x : 0 < m → located (shr_record_of_loc m l) x → prec ≤ Zdigits2 m →
  emin prec emax ≤ Zdigits2 m + e - prec →
  let k := Zdigits2 m - prec in let r := shr_fexp prec emax m e l in
  located r.1 (x * B (- k)) ∧ r.2 = e + k ∧ 2 ^ (prec - 1) ≤ shr_m r.1 < 2 ^ prec.
Proof.
  intros Hm Hx Hd He k r. unfold r, shr_fexp. rewrite fexp_normal by done.
  replace (Zdigits2 m + e - prec - e) with k by (unfold k; lia).
  destruct (shr_located _ _ e k ltac:(unfold k; lia) Hx) as (H1 & H2 & H3). split; [done|]. split; [done|].
  rewrite H2. replace (shr_m (shr_record_of_loc m l)) with m by (by destruct l as [|[]]).
  destruct m as [|p|]; [done| |done]. unfold k. clear k r H1 H2 H3. cbn [Zdigits2] in *. pose proof (digits_pos p) as [H1 H2].
  set (d := Zpos (digits2_pos p)) in *. split.
  - apply Z.div_le_lower_bound; [apply Z.pow_pos_nonneg; lia|]. rewrite <-Z.pow_add_r by lia.
    by replace (d - prec + (prec - 1)) with (d - 1) by lia.
  - apply Z.div_lt_upper_bound; [apply Z.pow_pos_nonneg; lia|]. rewrite <-Z.pow_add_r by lia.
    by replace (d - prec + prec) with d by lia.
Qed.

Lemma shr_fexp_keeps n e : 2 ^ (prec - 1) ≤ n < 2 ^ prec → emin prec emax ≤ e →
  shr_fexp prec emax n e loc_Exact = (Build_shr_record n false false, e).
Proof.
  intros Hn He. assert (0 < 2 ^ (prec - 1)) by (apply Z.pow_pos_nonneg; lia). destruct n as [|p|]; [lia| |lia].
  unfold shr_fexp. cbn [Zdigits2 shr_record_of_loc]. rewrite (digits_unique p (prec - 1)) by (rewrite ?Z.sub_add; lia).
  rewrite fexp_normal by lia. by replace (prec - 1 + 1 + e - prec - e) with 0 by lia.
Qed.

Lemma shr_fexp_carry e : emin prec emax ≤ e →
  shr_fexp prec emax (2 ^ prec) e loc_Exact = (Build_shr_record (2 ^ (prec - 1)) false false, e + 1).
Proof.
  intros He. assert (0 < 2 ^ (prec - 1)) by (apply Z.pow_pos_nonneg; lia).
  replace (2 ^ prec) with (2 * 2 ^ (prec - 1)) by (rewrite <-Z.pow_succ_r by lia; f_equal; lia).
  destruct (2 ^ (prec - 1)) as [|p|] eqn:Hp; [lia| |lia]. unfold shr_fexp.
  change (2 * Zpos p) with (Zpos p~0). cbn [Zdigits2 shr_record_of_loc].
  rewrite (digits_unique _ prec); [|lia|].
  - rewrite fexp_normal by lia. by replace (prec + 1 + e - prec - e) with 1 by lia.
  - rewrite Z.pow_add_r by lia. replace prec with (Z.succ (prec - 1)) by lia. rewrite Z.pow_succ_r, Hp by lia. lia.
Qed.

(** Rounding a located real of the normal range. *)
Lemma binary_round_aux_close m e l x : 0 < m → located (shr_record_of_loc m l) x → prec ≤ Zdigits2 m →
  normal (x * B e) → close (binary_round_aux prec emax false m e l) (x * B e).
Proof.
  intros Hm Hx Hd [Hlo Hhi]. pose proof (located_floor _ _ Hx) as Hfl.
  replace (shr_m (shr_record_of_loc m l)) with m in Hfl by (by destruct l as [|[]]).
  destruct (digits_value m x e Hm Hfl) as [Hv1 Hv2].
  assert (He1 : emin prec emax + prec < Zdigits2 m + e) by (apply B_lt_inv; lra).
  assert (He2 : Zdigits2 m - 1 + e < emax - 1) by (apply B_lt_inv; lra).
  destruct (shr_fexp_normal m e l x Hm Hx Hd ltac:(lia)) as (H1 & H2 & H3).
  unfold binary_round_aux. destruct (shr_fexp prec emax m e l) as [r e'] eqn:Hr. cbn [fst snd] in H1, H2, H3. subst e'.
  set (k := Zdigits2 m - prec) in *. destruct (round_close r _ H1) as [Hround Hn].
  set (n := round_nearest_even (shr_m r) (loc_of_shr_record r)) in *.
  (* the error, in units of the last place *)
  assert (Herr : (Rabs (IZR n * B (e + k) - x * B e) <= B (- prec) * (x * B e))%R).
  { replace (IZR n * B (e + k) - x * B e)%R with ((IZR n - x * B (- k)) * B (e + k))%R.
    2:{ rewrite B_add. pose proof (B_neg k). replace ((IZR n - x * B (- k)) * (B e * B k))%R
          with (IZR n * (B e * B k) - x * B e * (B k * B (- k)))%R by ring. rewrite H. ring. }
    rewrite Rabs_mult, (Rabs_right (B (e + k))) by (pose proof (B_pos (e + k)); lra).
    apply Rle_trans with (1 / 2 * B (e + k))%R; [pose proof (B_pos (e + k)); nra|].
    apply Rle_trans with (B (- prec) * B (Zdigits2 m - 1 + e))%R; [|pose proof (B_pos (- prec)); nra].
    rewrite <-B_add. replace (- prec + (Zdigits2 m - 1 + e)) with (e + k - 1) by (unfold k; lia). rewrite B_pred. lra. }
  assert (Hp0 : 0 < 2 ^ (prec - 1)) by (apply Z.pow_pos_nonneg; lia).
  destruct (Z.eq_dec n (2 ^ prec)) as [Hc|Hc].
  - rewrite Hc, shr_fexp_carry by (unfold k; lia). cbn [shr_m]. destruct (2 ^ (prec - 1)) as [|p|] eqn:Hp; [lia| |lia].
    rewrite (proj2 (Z.leb_le _ _)) by (unfold k; lia). split; [eauto|]. cbn [value].
    replace (IZR (Zpos p) * B (e + k + 1))%R with (IZR n * B (e + k))%R; [done|].
    rewrite Hc, <-Hp. rewrite !B_IZR by lia. rewrite <-!B_add. f_equal. lia.
  - rewrite shr_fexp_keeps by (unfold k; lia). cbn [shr_m]. destruct n as [|p|] eqn:Hp; [lia| |lia].
    rewrite (proj2 (Z.leb_le _ _)) by (unfold k; lia). split; [eauto|]. done.
Qed.

Lemma located_exact m : 0 ≤ m → located (shr_record_of_loc m loc_Exact) (IZR m).
Proof. by split. Qed.

Lemma iter_xO p d : Zpos (Pos.iter xO p d) = Zpos p * 2 ^ Zpos d.
Proof.
  revert p. induction d as [|d IH] using Pos.peano_ind; intros p; [cbn; lia|].
  rewrite Pos.iter_succ, Pos2Z.inj_xO, IH, Pos2Z.inj_succ, Z.pow_succ_r by lia. ring.
Qed.

(** A positive integer scaled by a power of two. *)
Lemma normalize_close p e s : normal (IZR (Zpos p) * B e) → close (binary_normalize prec emax (Zpos p) e s) (IZR (Zpos p) * B e).
Proof.
  intros Hn. cbn [binary_normalize]. unfold binary_round.
  destruct (digits_value (Zpos p) (IZR (Zpos p)) e ltac:(done) ltac:(lra)) as [Hv1 Hv2].
  assert (emin prec emax + prec < Zdigits2 (Zpos p) + e) by (destruct Hn; apply B_lt_inv; lra).
  cbn [Zdigits2] in *. rewrite fexp_normal by lia. set (d := Zpos (digits2_pos p)) in *. unfold shl_align.
  replace (d + e - prec - e) with (d - prec) by lia. destruct (d - prec) as [|q|q] eqn:Hd.
  1,2: apply binary_round_aux_close; [done|by apply located_exact|cbn; lia|done].
  assert (Hval : (IZR (Zpos (Pos.iter xO p q)) * B (d + e - prec))%R = (IZR (Zpos p) * B e)%R).
  { rewrite iter_xO, mult_IZR, B_IZR, Rmult_assoc, <-B_add by lia. do 2 f_equal. lia. }
  rewrite <-Hval. apply binary_round_aux_close; [done|by apply located_exact| |by rewrite Hval].
  cbn [Zdigits2]. rewrite (digits_unique _ (prec - 1)); [lia|lia|].
  rewrite iter_xO. pose proof (digits_pos p) as [H1 H2]. fold d in H1, H2. split.
  - replace (prec - 1) with (d - 1 + Zpos q) by lia. rewrite Z.pow_add_r by lia. apply Z.mul_le_mono_nonneg_r; lia.
  - replace (prec - 1 + 1) with (d + Zpos q) by lia. rewrite Z.pow_add_r by lia. apply Z.mul_lt_mono_pos_r; [lia|done].
Qed.

Lemma new_location_located q r d : 0 < d → 0 ≤ q → 0 ≤ r < d →
  located (shr_record_of_loc q (new_location d r)) (IZR (q * d + r) / IZR d).
Proof.
  intros Hd Hq Hr. replace (IZR (q * d + r) / IZR d)%R with (IZR q + IZR r / IZR d)%R.
  2:{ rewrite plus_IZR, mult_IZR. field. apply not_0_IZR. lia. }
  assert (HD : (0 < IZR d)%R) by (apply IZR_lt; lia).
  assert (Hcmp : ∀ k, (IZR k / IZR d * IZR d = IZR k)%R) by (intros; field; lra).
  unfold new_location, new_location_even, new_location_odd.
  assert (Hr0 : r ≠ 0 → (0 < IZR r)%R) by (intros; apply IZR_lt; lia).
  pose proof (Hcmp r) as Hr1. assert (Hr2 : (IZR r < IZR d)%R) by (apply IZR_lt; lia).
  set (u := (IZR r / IZR d)%R) in *.
  assert (Hlt : 2 * r < d → (u < 1 / 2)%R).
  { intros H. apply IZR_lt in H. rewrite mult_IZR in H. nra. }
  assert (Hgt : d < 2 * r → (1 / 2 < u)%R).
  { intros H. apply IZR_lt in H. rewrite mult_IZR in H. nra. }
  assert (Heq : 2 * r = d → (u = 1 / 2)%R).
  { intros H. apply (f_equal IZR) in H. rewrite mult_IZR in H. nra. }
  destruct (Z.eq_dec r 0) as [Hz|Hz].
  { assert (u = 0)%R by (unfold u; rewrite Hz; lra). rewrite Hz. destruct (Z.even d); split; cbn; done || lra. }
  specialize (Hr0 Hz). assert (0 < u < 1)%R by nra. apply Z.eqb_neq in Hz.
  destruct (Z.even d) eqn:Hev; cbv beta; rewrite Hz.
  - destruct (Z.compare_spec (2 * r) d); split; cbn; try done; [rewrite Heq by done; lra|..].
    + specialize (Hlt ltac:(done)). lra.
    + specialize (Hgt ltac:(lia)). lra.
  - assert (2 * r ≠ d) by (intros <-; by rewrite Z.even_mul in Hev).
    destruct (Z.compare_spec (2 * r + 1) d); split; cbn; try done.
    + specialize (Hlt ltac:(lia)). lra.
    + specialize (Hlt ltac:(lia)). lra.
    + specialize (Hgt ltac:(lia)). lra.
Qed.

(** The integer quotient that is rounded: at least [prec] digits of it, and
    where the rest lies. *)
Lemma div_core_spec m1 e1 m2 e2 :
  let d1 := Zpos (digits2_pos m1) in let d2 := Zpos (digits2_pos m2) in
  emin prec emax ≤ d1 + e1 - (d2 + e2) - prec →
  let '(q, e, l) := SFdiv_core_binary prec emax (Zpos m1) e1 (Zpos m2) e2 in
  0 < q ∧ prec ≤ Zdigits2 q ∧
  ∃ u, located (shr_record_of_loc q l) u ∧ (u * B e = IZR (Zpos m1) * B e1 / (IZR (Zpos m2) * B e2))%R.
Proof.
  intros d1 d2 Hem. unfold SFdiv_core_binary. cbn [Zdigits2]. fold d1 d2.
  rewrite fexp_normal by done. set (e := Z.min (d1 + e1 - (d2 + e2) - prec) (e1 - e2)).
  set (s := e1 - e2 - e). assert (Hs : 0 ≤ s) by (unfold s, e; lia).
  assert (Hm' : match s with Zpos _ => Z.shiftl (Zpos m1) s | Z0 => Zpos m1 | Zneg _ => Z0 end = Zpos m1 * 2 ^ s).
  { destruct s as [|s'|s'] eqn:Es; [lia| |lia]. by rewrite Z.shiftl_mul_pow2 by lia. }
  rewrite Hm'. clear Hm'. set (m' := Zpos m1 * 2 ^ s).
  pose proof (Z_div_mod m' (Zpos m2) ltac:(lia)) as Hdm.
  destruct (Z.div_eucl m' (Zpos m2)) as [q r]. destruct Hdm as [Hq Hr].
  pose proof (digits_pos m1) as [D1 _]. pose proof (digits_pos m2) as [_ D2]. fold d1 in D1. fold d2 in D2.
  assert (Hqlo : 2 ^ (prec - 1) ≤ q).
  { assert (2 ^ (prec - 1) * Zpos m2 < (q + 1) * Zpos m2); [|nia].
    apply Z.lt_le_trans with (2 ^ (prec - 1) * 2 ^ d2); [apply Z.mul_lt_mono_pos_l; [apply Z.pow_pos_nonneg; lia|done]|].
    rewrite <-Z.pow_add_r by lia. apply Z.le_trans with m'; [|lia]. unfold m'.
    apply Z.le_trans with (2 ^ (d1 - 1) * 2 ^ s); [|apply Z.mul_le_mono_nonneg_r; [apply Z.pow_nonneg; lia|done]].
    rewrite <-Z.pow_add_r by lia. apply Z.pow_le_mono_r; unfold s, e; lia. }
  assert (Hq0 : 0 < q) by (pose proof (Z.pow_pos_nonneg 2 (prec - 1)); lia).
  split; [done|]. split.
  - destruct q as [|q|]; [lia| |lia]. cbn [Zdigits2]. pose proof (digits_pos q) as [_ D3].
    assert (prec - 1 < Zpos (digits2_pos q)); [|lia]. apply (Z.pow_lt_mono_r_iff 2); lia.
  - exists (IZR (q * Zpos m2 + r) / IZR (Zpos m2))%R. split; [apply new_location_located; lia|].
    rewrite (Z.mul_comm q), <-Hq. unfold m'. rewrite mult_IZR, B_IZR by done.
    replace (B e1) with (B s * B e * B e2)%R by (rewrite <-!B_add; f_equal; unfold s; lia).
    pose proof (B_pos e2). field. split; [lra|]. apply not_0_IZR. lia.
Qed.

(** The quotient of two positive finite numbers. *)
Lemma div_close m1 e1 m2 e2 :
  let x := (IZR (Zpos m1) * B e1 / (IZR (Zpos m2) * B e2))%R in
  normal x → close (SFdiv prec emax (S754_finite false m1 e1) (S754_finite false m2 e2)) x.
Proof.
  intros x Hx. cbn [SFdiv xorb].
  destruct (digits_value (Zpos m1) (IZR (Zpos m1)) e1 ltac:(done) ltac:(lra)) as [_ Hv1].
  destruct (digits_value (Zpos m2) (IZR (Zpos m2)) e2 ltac:(done) ltac:(lra)) as [Hv2 _].
  cbn [Zdigits2] in *. pose proof (div_core_spec m1 e1 m2 e2) as Hcore. cbv zeta in Hcore.
  set (d1 := Zpos (digits2_pos m1)) in *. set (d2 := Zpos (digits2_pos m2)) in *.
  set (y := (IZR (Zpos m2) * B e2)%R) in *. assert (Hy : (0 < y)%R) by (pose proof (B_pos (d2 - 1 + e2)); lra).
  assert (Hxy : (x * y = IZR (Zpos m1) * B e1)%R) by (unfold x; field; lra).
  assert (Hx1 : (x < B (d1 + e1 - (d2 + e2) + 1))%R).
  { replace (d1 + e1 - (d2 + e2) + 1) with (d1 + e1 + - (d2 - 1 + e2)) by lia. rewrite B_add.
    pose proof (B_neg (d2 - 1 + e2)). pose proof (B_pos (d2 - 1 + e2)).
    assert (0 < x)%R by (destruct Hx; pose proof (B_pos (emin prec emax + prec)); lra).
    apply Rmult_lt_reg_r with (B (d2 - 1 + e2)); [done|]. rewrite Rmult_assoc, (Rmult_comm (B (- _))), H, Rmult_1_r. nra. }
  assert (Hem : emin prec emax ≤ d1 + e1 - (d2 + e2) - prec).
  { destruct Hx. assert (emin prec emax + prec < d1 + e1 - (d2 + e2) + 1) by (apply B_lt_inv; lra). lia. }
  specialize (Hcore Hem). destruct (SFdiv_core_binary prec emax (Zpos m1) e1 (Zpos m2) e2) as [[q e] l].
  destruct Hcore as (Hq & Hd & u & Hu & Hval). change (u * B e = x)%R in Hval.
  rewrite <-Hval in Hx |- *. by apply binary_round_aux_close.
Qed.
End Format.
