(* ===== verification/SpeedLimit.v ===== *)
(** * Speed-limited copies: SpeedLimit and the stream functions that use it
      (util.h, util.cpp)

    A limiter learns the time from [GetCurrentMS] and answers with the
    microseconds it sleeps; its arithmetic in [float] is that of Float.  The
    copies take what the clock will show as a list, and whether their stream is a
    file: only then do they make a limiter, and call it after every piece. *)
From Stdlib Require Import SpecFloat Reals Lra.
From S2P Require Import Prelude Float Stream.

(** ** The limiter *)

Record SpeedLimit : Type := mkSL {
  speed_ : Z;
  countPerMS_ : spec_float;
  curCount_ : Z;
  curSec_ : Z }.

(** The constructor; no speed is the largest one. *)
Definition SpeedLimit_new (speed : Z) : SpeedLimit :=
  let speed := if speed =? 0 then u32 (-1) else speed in
  mkSL speed (float_of_double (double_div (double_of_Z speed) (double_of_Z 1000))) 0 0.

(** [add]: [curms] is the clock.  The result is what is passed to [usleep]. *)
Definition add (curms v : Z) (l : SpeedLimit) : outcome (SpeedLimit * option Z) :=
  if negb (curms / 1000 =? curSec_ l)
  then Ret (mkSL (speed_ l) (countPerMS_ l) v (u32 (curms / 1000)), None)
  else
    let count := u32 (curCount_ l + v) in
    let l' := mkSL (speed_ l) (countPerMS_ l) count (curSec_ l) in
    let usedms := curms mod 1000 in
    limitms ← int_of_float (float_div (float_of_Z count) (countPerMS_ l));
    if usedms <? limitms then
      let us := 1000 * (limitms - usedms) in
      if us <? 2 ^ 31 then Ret (l', Some us) else Undefined
    else Ret (l', None).

(** Calls of [add] one after the other, and the sleeps. *)
Fixpoint adds (calls : list (Z * Z)) (l : SpeedLimit) : outcome (SpeedLimit * list (option Z)) :=
  match calls with
  | [] => Ret (l, [])
  | (curms, v) :: calls' =>
      '(l', us) ← add curms v l;
      '(l'', rest) ← adds calls' l';
      Ret (l'', us :: rest)
  end.

(** ** The copies *)

(** [(uint64_t)ceil(x)]. *)
Definition u64_of_ceil (x : spec_float) : outcome Z :=
  match x with
  | S754_zero _ => Ret 0
  | S754_finite false m e =>
      let z := - Z.shiftl (Zneg m) e in if z <? 2 ^ 64 then Ret z else Undefined
  | _ => Undefined
  end.

(** The bytes asked for at a time. *)
Definition per_of (speed : Z) : outcome Z :=
  c ← u64_of_ceil (double_div (double_of_Z speed) (double_of_Z 100));
  Ret (Z.max c (1024 * 64)).

(** [limit->add(n)] when there is a limiter; [clock] is what [GetCurrentMS]
    answers from now on. *)
Definition limit_add (n : nat) (clock : list Z) (limit : option SpeedLimit) : outcome (option SpeedLimit * list Z) :=
  match limit with
  | None => Ret (None, clock)
  | Some l => '(l', _) ← add (hd 0 clock) (u32 (Z.of_nat n)) l; Ret (Some l', tl clock)
  end.

(** [ReadFixFromStreamWithSpeed]; [file] tells whether the stream is a file,
    the only kind with a limiter. *)
Fixpoint ReadFixSpeed_loop (fuel : nat) (per : Z) (size : nat) (clock : list Z) (limit : option SpeedLimit)
    (ist : istream) (data : str) : outcome (istream * str) :=
  match fuel with
  | O => Ret (ist, data)
  | S fuel' =>
      if igood ist && (length data <? size)%nat then
        let s := if per <? Z.of_nat (size - length data) then Z.to_nat per else (size - length data)%nat in
        let '(ist', l) := is_read s ist in
        '(limit', clock') ← limit_add (length l) clock limit;
        ReadFixSpeed_loop fuel' per size clock' limit' ist' (data ++ l)
      else Ret (ist, data)
  end.
Definition ReadFixFromStreamWithSpeed (file : bool) (speed : Z) (clock : list Z) (size : nat) (ist : istream) :
    outcome (istream * str * bool) :=
  let limit := if file then Some (SpeedLimit_new (u32 speed)) else None in
  per ← per_of speed;
  '(ist', data) ← ReadFixSpeed_loop (S size) per size clock limit ist [];
  Ret (ist', data, (length data =? size)%nat).

(** [WriteFixToStreamWithSpeed]: [offset] is advanced whatever became of the
    write. *)
Fixpoint WriteFixSpeed_loop (fuel : nat) (per : Z) (clock : list Z) (limit : option SpeedLimit)
    (data : str) (offset : nat) (os : ostream) : outcome (ostream * nat) :=
  match fuel with
  | O => Ret (os, offset)
  | S fuel' =>
      if ogood os && (offset <? length data)%nat then
        let s := if per <? Z.of_nat (length data - offset) then Z.to_nat per else (length data - offset)%nat in
        let os' := os_write (take s (drop offset data)) os in
        '(limit', clock') ← limit_add s clock limit;
        WriteFixSpeed_loop fuel' per clock' limit' data (offset + s) os'
      else Ret (os, offset)
  end.
Definition WriteFixToStreamWithSpeed (file : bool) (speed : Z) (clock : list Z) (data : str) (os : ostream) :
    outcome (ostream * bool) :=
  let limit := if file then Some (SpeedLimit_new (u32 speed)) else None in
  per ← per_of speed;
  '(os', offset) ← WriteFixSpeed_loop (S (length data)) per clock limit data 0 os;
  Ret (os', (offset =? length data)%nat).

(** [WriteToStreamWithSpeed] and [ReadFromStreamWithSpeed] of a value's or a
    vector's bytes. *)
Definition WriteToStreamWithSpeed (file : bool) (speed : Z) (clock : list Z) (data : str) (os : ostream) :
    outcome (ostream * bool) :=
  if ogood os then WriteFixToStreamWithSpeed file speed clock data os else Ret (os, false).
Definition ReadFromStreamWithSpeed (file : bool) (speed : Z) (clock : list Z) (size : nat) (ist : istream) :
    outcome (istream * str * bool) :=
  if igood ist then ReadFixFromStreamWithSpeed file speed clock size ist else Ret (ist, [], false).

(** ** The rate *)

Lemma B_of_pow k : (0 <= k)%Z → B (- k) = (/ IZR (2 ^ k))%R.
Proof.
  intros Hk. pose proof (B_neg k). pose proof (B_pos k). rewrite B_IZR by done.
  apply Rmult_eq_reg_l with (B k); [|lra]. rewrite H. field. lra.
Qed.
Lemma u24 : B (Z.opp 24) = (/ 16777216)%R.
Proof. by apply (B_of_pow 24). Qed.
Lemma u53 : B (Z.opp 53) = (/ 9007199254740992)%R.
Proof. by apply (B_of_pow 53). Qed.

Lemma close_bounds prec f x : close prec f x →
  ((1 - B (- prec)) * x <= value f <= (1 + B (- prec)) * x)%R.
Proof. intros [_ H]. pose proof (Rle_abs (value f - x)). pose proof (Rle_abs (- (value f - x))).
  rewrite Rabs_Ropp in H1. lra. Qed.

(** Numbers between 2^-100 and 2^100 are normal in both formats. *)
Lemma normal_range prec emax x : prec + 100 ≤ emax → emin prec emax + prec ≤ -100 →
  (B (-100) <= x <= B 100)%R → normal prec emax x.
Proof.
  intros H1 H2 Hx. unfold emin in *. split.
  - apply Rle_trans with (B (-100)); [|lra]. apply B_le. unfold emin. lia.
  - apply Rle_lt_trans with (B 100); [lra|]. destruct (Rlt_le_dec (B 100) (B (emax - 1))); [done|].
    exfalso. assert (B (100 + 1) <= B (emax - 1))%R by (apply B_le; lia). rewrite B_succ in H. pose proof (B_pos 100). lra.
Qed.

(** An integer up to 2^64 as a floating-point number. *)
Lemma of_Z_close prec emax z : 1 < prec → prec < emax → prec + 100 ≤ emax → emin prec emax + prec ≤ -100 →
  1 ≤ z ≤ 2 ^ 64 → close prec (binary_normalize prec emax z 0 false) (IZR z).
Proof.
  intros H1 H2 H3 H4 Hz. destruct z as [|p|]; [lia| |lia].
  rewrite <-(Rmult_1_r (IZR (Zpos p))), <-B_0. apply normalize_close; [done..|]. apply normal_range; [done..|].
  rewrite B_0, Rmult_1_r. destruct Hz as [Hz1 Hz2]. apply IZR_le in Hz1, Hz2.
  assert (B (-100) <= B 0)%R by (apply B_le; done). assert (IZR (2 ^ 64) <= B 100)%R by (rewrite B_IZR by done; apply B_le; done).
  rewrite B_0 in H. lra.
Qed.

Lemma close_pos prec f x : close prec f x → ∃ m e, f = S754_finite false m e ∧ value f = (IZR (Zpos m) * B e)%R.
Proof. intros [(m & e & ->) _]. eauto. Qed.

(** A quotient of two approximations. *)
Lemma div_close' prec emax f g x : 1 < prec → prec < emax → prec + 100 ≤ emax → emin prec emax + prec ≤ -100 →
  (∃ m e, f = S754_finite false m e) → (∃ m e, g = S754_finite false m e) →
  x = (value f / value g)%R → (B (-100) <= x <= B 100)%R → close prec (SFdiv prec emax f g) x.
Proof.
  intros H1 H2 H3 H4 (m & e & ->) (m' & e' & ->) -> Hx. cbn [value] in *.
  apply div_close; [done..|]. by apply normal_range.
Qed.

Lemma limit_speed speed : 0 ≤ speed < 2 ^ 32 →
  speed_ (SpeedLimit_new speed) = (if speed =? 0 then 2 ^ 32 - 1 else speed) ∧ 1 ≤ speed_ (SpeedLimit_new speed) < 2 ^ 32.
Proof. intros H. unfold SpeedLimit_new. cbn [speed_]. destruct (Z.eqb_spec speed 0); [done|]. lia. Qed.

(** The bytes a millisecond, within 2^-23 of a thousandth of the speed. *)
Lemma countPerMS_close s : 1 ≤ s < 2 ^ 32 →
  let f := float_of_double (double_div (double_of_Z s) (double_of_Z 1000)) in
  (∃ m e, f = S754_finite false m e) ∧
  ((1 - / 16777216 - / 2 ^ 50) * (IZR s / 1000) <= value f <= (1 + / 16777216 + / 2 ^ 50) * (IZR s / 1000))%R.
Proof.
  intros Hs f. assert (Ha : close 53 (double_of_Z s) (IZR s)) by (apply of_Z_close; [done..|lia]).
  assert (Hk : close 53 (double_of_Z 1000) 1000) by (by apply of_Z_close).
  assert (Hk' : value (double_of_Z 1000) = 1000%R).
  { replace (double_of_Z 1000) with (S754_finite false 8796093022208000 (-43)) by (by vm_compute).
    cbn [value]. replace (B (-43)) with (/ IZR (2 ^ 43))%R by (by rewrite <-B_of_pow). lra. }
  destruct Hs as [Hs1 Hs2]. apply IZR_le in Hs1. apply IZR_lt in Hs2.
  pose proof (close_bounds _ _ _ Ha) as Ba. rewrite u53 in Ba.
  set (x := (value (double_of_Z s) / value (double_of_Z 1000))%R).
  assert (Hx : x = (value (double_of_Z s) / 1000)%R) by (unfold x; by rewrite Hk').
  assert (Hr : (B (-100) <= 1 / 2000)%R).
  { apply Rle_trans with (B (- 11)); [by apply B_le|]. replace (B (-11)) with (/ IZR (2 ^ 11))%R by (by rewrite <-B_of_pow). change (2 ^ 11) with 2048. lra. }
  assert (Hr2 : (2 ^ 33 <= B 100)%R).
  { apply Rle_trans with (B 33); [|by apply B_le]. rewrite <-B_IZR by done. change (2 ^ 33)%Z with 8589934592. lra. }
  change (2 ^ 32) with 4294967296 in Hs2.
  assert (Hd : close 53 (double_div (double_of_Z s) (double_of_Z 1000)) x).
  { apply div_close'; [done..|apply Ha|apply Hk|done|lra]. }
  pose proof (close_bounds _ _ _ Hd) as Bd. rewrite u53 in Bd. destruct (close_pos _ _ _ Hd) as (m & e & Hme & Hv).
  unfold f. rewrite Hme. cbn [float_of_double]. 
  assert (Hf : close 24 (binary_normalize 24 128 (Zpos m) e false) (value (S754_finite false m e))).
  { apply normalize_close; [done..|]. apply normal_range; [done..|]. rewrite <-Hv. lra. }
  rewrite <-Hme in Hf.
  pose proof (close_bounds _ _ _ Hf) as Bf. rewrite u24 in Bf. split; [apply Hf|]. lra.
Qed.

Lemma int_of_float_floor m e z : int_of_float (S754_finite false m e) = Ret z →
  (IZR z <= value (S754_finite false m e) < IZR z + 1)%R.
Proof.
  cbn [int_of_float value]. case_match; [|done]. intros [= <-].
  destruct (Z.le_gt_cases 0 e) as [He|He].
  - rewrite Z.shiftl_mul_pow2, mult_IZR, B_IZR by done. lra.
  - replace e with (- - e) by lia. rewrite Z.shiftl_opp_r, Z.shiftr_div_pow2, B_of_pow by lia.
    assert (Hp : 0 < 2 ^ (- e)) by (apply Z.pow_pos_nonneg; lia). pose proof (Z.div_mod (Zpos m) (2 ^ (- e)) ltac:(lia)) as Hdm.
    pose proof (Z.mod_pos_bound (Zpos m) (2 ^ (- e)) Hp) as [Hr1 Hr2].
    set (q := Zpos m / 2 ^ (- e)) in *. set (r := Zpos m mod 2 ^ (- e)) in *. rewrite Hdm, plus_IZR, mult_IZR.
    apply IZR_lt in Hp, Hr2. apply IZR_le in Hr1.
    replace ((IZR (2 ^ (- e)) * IZR q + IZR r) * / IZR (2 ^ (- e)))%R with (IZR q + IZR r / IZR (2 ^ (- e)))%R by (field; lra).
    assert (0 <= IZR r / IZR (2 ^ (- e)) < 1)%R; [|lra].
    split; [apply Rmult_le_pos; [done|]; left; by apply Rinv_0_lt_compat|].
    apply Rmult_lt_reg_r with (IZR (2 ^ (- e))); [done|]. unfold Rdiv. rewrite Rmult_assoc, Rinv_l by lra. lra.
Qed.

Lemma int_of_float_defined m e : (value (S754_finite false m e) < 2147483648)%R →
  ∃ z, int_of_float (S754_finite false m e) = Ret z ∧ 0 ≤ z.
Proof.
  intros Hv. set (z := Z.shiftl (Zpos m) e). assert (Hz : 0 ≤ z) by (by apply Z.shiftl_nonneg).
  exists z. split; [|done]. cbn [int_of_float]. fold z.
  assert (z < 2 ^ 31) as Hlt.
  { apply lt_IZR. apply Rle_lt_trans with (value (S754_finite false m e)); [|done]. cbn [value]. unfold z.
    destruct (Z.le_gt_cases 0 e) as [He|He].
    - rewrite Z.shiftl_mul_pow2, mult_IZR, B_IZR by done. lra.
    - replace e with (- - e) at 1 by lia. rewrite Z.shiftl_opp_r, Z.shiftr_div_pow2 by lia.
      assert (Hp : 0 < 2 ^ (- e)) by (apply Z.pow_pos_nonneg; lia).
      pose proof (Z.mul_div_le (Zpos m) (2 ^ (- e)) Hp) as Hle. apply IZR_le in Hle. apply IZR_lt in Hp.
      rewrite mult_IZR in Hle. replace e with (- - e) at 2 by lia. rewrite B_of_pow by lia.
      apply Rmult_le_reg_l with (IZR (2 ^ (- e))); [done|]. rewrite (Rmult_comm (IZR (Zpos m))), <-Rmult_assoc, Rinv_r by lra. lra. }
  rewrite (proj2 (andb_true_iff _ _)); [done|]. split; [apply Z.leb_le; lia|by apply Z.ltb_lt].
Qed.

(** The quotient that [add] truncates is within 2^-22 of [1000 * n / s]. *)
Lemma limit_close s n : 1 ≤ s < 2 ^ 32 → 1 ≤ n < 2 ^ 32 →
  let f := float_div (float_of_Z n) (float_of_double (double_div (double_of_Z s) (double_of_Z 1000))) in
  (∃ m e, f = S754_finite false m e) ∧
  (1000 * IZR n * 4194303 <= value f * IZR s * 4194304 <= 1000 * IZR n * 4194305)%R.
Proof.
  intros Hs Hn f. destruct (countPerMS_close s Hs) as [Hfin Hk].
  set (k := float_of_double _) in *. unfold f. clear f.
  assert (Ha : close 24 (float_of_Z n) (IZR n)) by (apply of_Z_close; [done..|lia]).
  pose proof (close_bounds _ _ _ Ha) as Ba. rewrite u24 in Ba.
  destruct Hs as [Hs1 Hs2], Hn as [Hn1 Hn2]. apply IZR_le in Hs1, Hn1. apply IZR_lt in Hs2, Hn2.
  change (2 ^ 32) with 4294967296 in *.
  set (a := value (float_of_Z n)) in *. set (y := value k) in *.
  assert (Hy : (1 / 2000 <= y <= 5000000)%R) by lra.
  assert (Hxy : (a / y * y = a)%R) by (field; lra). set (x := (a / y)%R) in *.
  assert (Hx0 : (0 < x)%R) by nra.
  assert (Hd : close 24 (float_div (float_of_Z n) k) x).
  { apply div_close'; [done..|apply Ha|apply Hfin|done|].
    assert (B (-100) <= / 1073741824)%R by (change 1073741824 with (2 ^ 30); rewrite <-B_of_pow by done; by apply B_le).
    assert (IZR (2 ^ 45) <= B 100)%R by (rewrite B_IZR by done; by apply B_le). change (2 ^ 45) with 35184372088832 in *. nra. }
  pose proof (close_bounds _ _ _ Hd) as Bd. rewrite u24 in Bd. split; [apply Hd|].
  set (v := value (float_div (float_of_Z n) k)) in *.
  (* everything in terms of the products with x *)
  assert (H1 : ((1 - / 16777216 - / 2 ^ 50) * (x * (IZR s / 1000)) <= a <= (1 + / 16777216 + / 2 ^ 50) * (x * (IZR s / 1000)))%R) by nra.
  assert (H2 : ((1 - / 16777216) * (x * IZR s) <= v * IZR s <= (1 + / 16777216) * (x * IZR s))%R) by nra.
  assert (H3 : (x * (IZR s / 1000) = x * IZR s / 1000)%R) by field. rewrite H3 in H1. lra.
Qed.

(** The same of the [int], with no count at all as well. *)
Lemma limit_int s n : 1 ≤ s < 2 ^ 32 → 0 ≤ n < 2 ^ 32 → n ≤ 2000 * s →
  ∃ lim, int_of_float (float_div (float_of_Z n) (float_of_double (double_div (double_of_Z s) (double_of_Z 1000)))) = Ret lim ∧
    0 ≤ lim ≤ 2000001 ∧ 1000 * n * 4194303 < (lim + 1) * s * 4194304 ∧ lim * s * 4194304 ≤ 1000 * n * 4194305.
Proof.
  intros Hs Hn Hns. destruct (Z.eq_dec n 0) as [->|Hn0].
  { destruct (countPerMS_close s Hs) as [(m & e & ->) _]. exists 0. split; [done|]. lia. }
  destruct (limit_close s n Hs ltac:(lia)) as [(m & e & Hf) Hv]. rewrite Hf in *. clear Hf.
  assert (Hs' : (1 <= IZR s)%R) by (apply IZR_le; lia).
  assert (Hns' : (IZR n <= 2000 * IZR s)%R) by (rewrite <-mult_IZR; by apply IZR_le).
  set (f := value (S754_finite false m e)) in *. assert (Hf : (f < 2000001)%R) by nra.
  destruct (int_of_float_defined m e) as (lim & Hlim & Hlim0); [fold f; lra|].
  exists lim. split; [done|]. destruct (int_of_float_floor m e lim Hlim) as [Hlo Hhi]. fold f in Hlo, Hhi.
  split; [split; [done|]|split].
  - apply Z.lt_succ_r, lt_IZR. unfold Z.succ. rewrite plus_IZR. lra.
  - apply lt_IZR. rewrite !mult_IZR, plus_IZR. assert (f * IZR s < (IZR lim + 1) * IZR s)%R by (apply Rmult_lt_compat_r; lra). lra.
  - apply le_IZR. rewrite !mult_IZR. assert (IZR lim * IZR s <= f * IZR s)%R by (apply Rmult_le_compat_r; lra). lra.
Qed.

Fixpoint total (calls : list (Z * Z)) : Z :=
  match calls with [] => 0 | (_, v) :: calls' => v + total calls' end.
Definition in_second (S : Z) (c : Z * Z) : Prop := c.1 / 1000 = S ∧ 0 ≤ c.2.

Lemma total_nonneg S calls : Forall (in_second S) calls → 0 ≤ total calls.
Proof. induction 1 as [|[t v] l [_ Hc] _ IH]; cbn in *; lia. Qed.

Lemma adds_app l1 l2 s : adds (l1 ++ l2) s =
  ('(s1, us1) ← adds l1 s; '(s2, us2) ← adds l2 s1; Ret (s2, us1 ++ us2)).
Proof.
  revert s. induction l1 as [|[t v] l1 IH]; intros s; cbn.
  - by destruct (adds l2 s) as [[]| | |].
  - destruct (add t v s) as [[s1 us]| | |]; cbn; try done. rewrite IH.
    destruct (adds l1 s1) as [[s2 us1]| | |]; cbn; try done. by destruct (adds l2 s2) as [[s3 us2]| | |].
Qed.

(** One call in the second of the previous one. *)
Lemma add_same speed S n t v : 1 ≤ speed < 2 ^ 32 → in_second S (t, v) → 0 ≤ n → n + v < 2 ^ 32 → n + v ≤ 2000 * speed →
  let cpm := float_of_double (double_div (double_of_Z speed) (double_of_Z 1000)) in
  ∃ us, add t v (mkSL speed cpm n S) = Ret (mkSL speed cpm (n + v) S, us) ∧
    let T := t - 1000 * S + default 0 us / 1000 in
    1000 * (n + v) * 4194303 < (T + 1) * speed * 4194304 ∧
    (us ≠ None → T * speed * 4194304 ≤ 1000 * (n + v) * 4194305).
Proof.
  intros Hs [Ht Hv] Hn Hlt Hle cpm. cbn [fst snd] in *. unfold add, cpm. cbn [curSec_ speed_ countPerMS_ curCount_].
  rewrite Ht, Z.eqb_refl. cbn [negb]. replace (u32 (n + v)) with (n + v) by solve_int.
  destruct (limit_int speed (n + v) Hs ltac:(lia) Hle) as (lim & -> & Hlim & H1 & H2). cbn [mbind outcome_bind].
  assert (Hused : t mod 1000 = t - 1000 * S) by (rewrite <-Ht; apply Z.mod_eq; lia).
  pose proof (Z.mod_pos_bound t 1000 ltac:(lia)) as Hm. destruct (Z.ltb_spec (t mod 1000) lim) as [Hl|Hl].
  - rewrite (proj2 (Z.ltb_lt _ _)) by lia. eexists. split; [done|]. cbn [default from_option]. unfold Datatypes.id.
    rewrite (Z.mul_comm 1000 (lim - _)), Z.div_mul by done.
    replace (t - 1000 * S + (lim - t mod 1000)) with lim by lia. done.
  - eexists. split; [done|]. cbn. split; [|done]. rewrite Z.add_0_r, <-Hused. nia.
Qed.

Lemma adds_same speed S calls : 1 ≤ speed < 2 ^ 32 → Forall (in_second S) calls → ∀ n,
  0 ≤ n → n + total calls < 2 ^ 32 → n + total calls ≤ 2000 * speed →
  let cpm := float_of_double (double_div (double_of_Z speed) (double_of_Z 1000)) in
  ∃ us, adds calls (mkSL speed cpm n S) = Ret (mkSL speed cpm (n + total calls) S, us).
Proof.
  intros Hs H. induction H as [|[t v] calls Hc Hcs IH]; intros n Hn Hlt Hle cpm; cbn [adds total]; unfold cpm.
  { rewrite Z.add_0_r. eauto. }
  cbn [total] in Hlt, Hle. pose proof (total_nonneg _ _ Hcs) as Htot. destruct Hc as [Ht Hv]. cbn in Ht, Hv.
  destruct (add_same speed S n t v Hs (conj Ht Hv)) as (us & -> & _); [lia..|]. cbn [mbind outcome_bind].
  destruct (IH (n + v)) as (us' & ->); [lia..|]. cbn [mbind outcome_bind]. rewrite Z.add_assoc. eauto.
Qed.

(** *** Earlier seconds *)

(** The bytes of the calls in one second of the clock. *)
Definition bytes_in (S : Z) (calls : list (Z * Z)) : Z := total (filter (λ c, c.1 / 1000 = S) calls).
(** In no second more than 32 bits hold, or than 2000 seconds' worth. *)
Definition moderate (speed : Z) (calls : list (Z * Z)) : Prop :=
  ∀ S, bytes_in S calls < 2 ^ 32 ∧ bytes_in S calls ≤ 2000 * speed.
Definition timely (c : Z * Z) : Prop := 0 ≤ c.1 / 1000 < 2 ^ 32 ∧ 0 ≤ c.2.

Lemma total_app l1 l2 : total (l1 ++ l2) = total l1 + total l2.
Proof. induction l1 as [|[t v] l1 IH]; cbn; [done|]. rewrite IH. lia. Qed.
Lemma bytes_in_app S l1 l2 : bytes_in S (l1 ++ l2) = bytes_in S l1 + bytes_in S l2.
Proof. unfold bytes_in. by rewrite filter_app, total_app. Qed.
Lemma bytes_in_nonneg S calls : Forall (λ c, 0 ≤ c.2) calls → 0 ≤ bytes_in S calls.
Proof.
  unfold bytes_in. induction 1 as [|[t v] l Hv _ IH]; [done|]. rewrite filter_cons. cbn in Hv.
  case_decide; cbn [total]; lia.
Qed.
Lemma bytes_in_same S calls : Forall (in_second S) calls → bytes_in S calls = total calls.
Proof.
  unfold bytes_in. induction 1 as [|[t v] l [Ht _] _ IH]; [done|]. rewrite filter_cons. cbn in Ht.
  rewrite decide_True by done. cbn [total]. by rewrite IH.
Qed.
Lemma bytes_in_one t v : bytes_in (t / 1000) [(t, v)] = v.
Proof. unfold bytes_in. rewrite filter_cons, decide_True by done. cbn. lia. Qed.

(** One call at any time: the count is the call's own, or goes on from that of
    the same second. *)
Lemma add_any speed S n t v : 1 ≤ speed < 2 ^ 32 → timely (t, v) →
  (t / 1000 = S → 0 ≤ n ∧ n + v < 2 ^ 32 ∧ n + v ≤ 2000 * speed) →
  let cpm := float_of_double (double_div (double_of_Z speed) (double_of_Z 1000)) in
  ∃ us, add t v (mkSL speed cpm n S) =
    Ret (mkSL speed cpm (if t / 1000 =? S then n + v else v) (t / 1000), us).
Proof.
  intros Hs [Ht Hv] Hsame cpm. cbn [fst snd] in *. destruct (Z.eqb_spec (t / 1000) S) as [<-|Hne].
  - destruct (Hsame eq_refl) as (Hn & Hlt & Hle).
    destruct (add_same speed (t / 1000) n t v Hs (conj eq_refl Hv)) as (us & Ha & _); [lia..|]. by exists us.
  - unfold add. cbn [curSec_]. rewrite (proj2 (Z.eqb_neq _ _)) by done. cbn [negb]. exists None.
    cbn [speed_ countPerMS_]. unfold u32. rewrite Z.mod_small by lia. done.
Qed.

(** The limiter counts no more than the bytes of the second it is in. *)
Lemma adds_any speed calls : 1 ≤ speed < 2 ^ 32 → ∀ past S n,
  Forall (λ c, 0 ≤ c.2) past → Forall timely calls → moderate speed (past ++ calls) → 0 ≤ n ≤ bytes_in S past →
  let cpm := float_of_double (double_div (double_of_Z speed) (double_of_Z 1000)) in
  ∃ n' S' us, adds calls (mkSL speed cpm n S) = Ret (mkSL speed cpm n' S', us) ∧
    (calls = [] ∧ S' = S ∨ ∃ c, c ∈ calls ∧ S' = c.1 / 1000).
Proof.
  intros Hs. induction calls as [|[t v] calls IH]; intros past S n Hdone Hcalls Hmod Hn cpm; cbn [adds].
  { exists n, S, []. split; [done|]. by left. }
  apply Forall_cons in Hcalls as [Hc Hcalls]. pose proof Hc as [_ Hv]. cbn [snd] in Hv.
  assert (Hnn : Forall (λ c, 0 ≤ c.2) (past ++ [(t, v)])) by (apply Forall_app; split; [done|by apply Forall_singleton]).
  assert (Hrest : Forall (λ c, 0 ≤ c.2) calls) by (eapply Forall_impl; [exact Hcalls|]; by intros ? [_ ?]).
  change ((t, v) :: calls) with ([(t, v)] ++ calls) in Hmod. rewrite app_assoc in Hmod.
  set (n1 := if t / 1000 =? S then n + v else v).
  assert (Hn1 : 0 ≤ n1 ≤ bytes_in (t / 1000) (past ++ [(t, v)])).
  { rewrite bytes_in_app, bytes_in_one. unfold n1. pose proof (bytes_in_nonneg (t / 1000) past Hdone).
    destruct (Z.eqb_spec (t / 1000) S) as [->|]; lia. }
  destruct (Hmod (t / 1000)) as [M1 M2]. rewrite bytes_in_app in M1, M2.
  pose proof (bytes_in_nonneg (t / 1000) calls Hrest).
  destruct (add_any speed S n t v Hs Hc) as [us Ha].
  { intros <-. rewrite !bytes_in_app, bytes_in_one in *. lia. }
  fold cpm n1 in Ha. unfold cpm in *. rewrite Ha. cbn [mbind outcome_bind].
  destruct (IH (past ++ [(t, v)]) (t / 1000) n1 Hnn Hcalls Hmod Hn1) as (n' & S' & us' & -> & HS').
  cbn [mbind outcome_bind]. exists n', S', (us :: us'). split; [done|]. right.
  destruct HS' as [[_ ->]|(c & Hin & ->)]; [exists (t, v)|exists c]; split; [by left|done|by right|done].
Qed.

(** C37: the limiter keeps the rate in every second of the clock.  Whatever
    calls of [add] there were in other seconds, after the second or a later call
    in one second - with what it sleeps counted as passed - the bytes counted are
    those let through in that second, and they are no more than what the speed
    allows up to the end of the current millisecond; and a call that sleeps does
    not sleep longer than that takes; both up to a relative error of 2^-22 of the
    arithmetic in [float].  Nothing overflows on the way.  The conditions: the
    clock is past its first second and below 2^32 seconds, and the bytes of each
    second fit 32 bits and are worth no more than 2000 seconds. *)
Theorem speed_limit_rate (speed S t0 v0 t v : Z) (earlier calls : list (Z * Z)) :
  let s := if speed =? 0 then 2 ^ 32 - 1 else speed in
  let now := (t0, v0) :: calls ++ [(t, v)] in
  let n := v0 + total calls + v in
  0 ≤ speed < 2 ^ 32 → 0 < S < 2 ^ 32 →
  Forall timely earlier → Forall (λ c, c.1 / 1000 ≠ S) earlier → Forall (in_second S) now →
  moderate s (earlier ++ now) →
  ∃ l sleeps us, adds (earlier ++ now) (SpeedLimit_new speed) = Ret (l, sleeps ++ [us]) ∧
    curSec_ l = S ∧ curCount_ l = n ∧
    let T := t - 1000 * S + default 0 us / 1000 in
    1000 * n * (2 ^ 22 - 1) < (T + 1) * s * 2 ^ 22 ∧
    (us ≠ None → T * s * 2 ^ 22 ≤ 1000 * n * (2 ^ 22 + 1)).
Proof.
  intros s now n Hsp HS Hearly Hother Hnow Hmod.
  destruct (limit_speed speed Hsp) as [Hs1 Hs]. rewrite Hs1 in Hs. fold s in Hs.
  set (cpm := float_of_double (double_div (double_of_Z s) (double_of_Z 1000))).
  assert (Hnew : SpeedLimit_new speed = mkSL s cpm 0 0) by done.
  assert (Hpre : ∃ n' S' us, adds earlier (SpeedLimit_new speed) = Ret (mkSL s cpm n' S', us) ∧ S' ≠ S).
  { rewrite Hnew. destruct (adds_any s earlier Hs [] 0 0) as (n' & S' & us & Ha & HS'); [done|done| |done|].
    - intros S'. destruct (Hmod S') as [M1 M2]. rewrite bytes_in_app in M1, M2.
      pose proof (bytes_in_nonneg S' now ltac:(eapply Forall_impl; [exact Hnow|]; by intros ? [_ ?])). cbn [app]. lia.
    - exists n', S', us. split; [exact Ha|]. destruct HS' as [[_ ->]|(c & Hin & ->)]; [lia|].
      by apply (proj1 (Forall_forall _ _) Hother). }
  destruct Hpre as (n' & S' & us0 & Hpre & HS'). rewrite adds_app, Hpre. cbn [mbind outcome_bind].
  destruct (Hmod S) as [M1 M2]. rewrite bytes_in_app, (bytes_in_same S now Hnow) in M1, M2.
  pose proof (bytes_in_nonneg S earlier ltac:(eapply Forall_impl; [exact Hearly|]; by intros ? [_ ?])) as He.
  assert (Hn : total now = n) by (unfold now, n; cbn [total]; rewrite total_app; cbn [total]; lia).
  rewrite Hn in M1, M2. unfold now in *. apply Forall_cons in Hnow as [[Ht0 Hv0] Hnow]. cbn [fst snd] in *.
  apply Forall_app in Hnow as [Hcalls Hlast]. apply Forall_singleton in Hlast as [Ht Hv]. cbn [fst snd] in *.
  pose proof (total_nonneg _ _ Hcalls) as Htot.
  cbn [adds]. unfold add at 1. cbn [curSec_]. rewrite Ht0, (proj2 (Z.eqb_neq S S')) by done.
  cbn [negb mbind outcome_bind speed_ countPerMS_]. replace (u32 S) with S by solve_int.
  rewrite adds_app. unfold cpm. destruct (adds_same s S calls Hs Hcalls v0) as (us1 & ->); [lia..|].
  cbn [mbind outcome_bind adds]. destruct (add_same s S (v0 + total calls) t v Hs (conj Ht Hv)) as (us & -> & HT); [lia..|].
  cbn [mbind outcome_bind adds]. eexists _, (us0 ++ None :: us1), us. split; [by rewrite <-app_assoc|].
  split; [done|]. split; [done|]. exact HT.
Qed.

(** 200000 bytes in second 4, then 64 KiB and again 64 KiB in the second that
    starts at 5000 ms, at 262144 bytes a second: the last call sleeps until 499
    ms have passed. *)
Lemma speed_limit_rate_witness :
  let calls := [(4900, 200000); (5000, 65536); (5100, 65536)] in
  adds calls (SpeedLimit_new 262144) =
    Ret (mkSL 262144 (countPerMS_ (SpeedLimit_new 262144)) 131072 5, [None; None; Some 399000]) ∧
  1000 * 131072 * (2 ^ 22 - 1) < (499 + 1) * 262144 * 2 ^ 22.
Proof.
  intros calls. assert (Hrun : adds calls (SpeedLimit_new 262144) =
    Ret (mkSL 262144 (countPerMS_ (SpeedLimit_new 262144)) 131072 5, [None; None; Some 399000])) by (by vm_compute).
  destruct (speed_limit_rate 262144 5 5000 65536 5100 65536 [(4900, 200000)] []) as (l & sleeps & us & Hl & _ & _ & HT).
  1-2: lia. { by repeat constructor. } { by repeat constructor. } { by repeat constructor. }
  { intros S. cbn [app]. unfold bytes_in. rewrite !filter_cons, filter_nil. cbn [fst].
    repeat case_decide; cbn [total]; change (if 262144 =? 0 then 2 ^ 32 - 1 else 262144) with 262144; lia. }
  change ([(4900, 200000)] ++ (5000, 65536) :: [] ++ [(5100, 65536)]) with calls in Hl.
  rewrite Hrun in Hl. split; [exact Hrun|]. injection Hl as _ Hus.
  destruct sleeps as [|x [|y [|z sleeps]]]; [by simplify_eq|by simplify_eq| |]; [|injection Hus as _ _ _ Hus; by destruct sleeps].
  injection Hus as _ _ <-. exact (proj1 HT).
Defined.

(** ** The copies end *)

(** The chunk size is computed for every speed, and is at least 64 KiB. *)
Lemma ceil_defined m e : (value (S754_finite false m e) + 1 < 18446744073709551616)%R →
  ∃ z, u64_of_ceil (S754_finite false m e) = Ret z.
Proof.
  intros Hv. cbn [u64_of_ceil]. set (z := - Z.shiftl (Zneg m) e). exists z.
  assert (z < 2 ^ 64) as Hlt; [|by rewrite (proj2 (Z.ltb_lt _ _) Hlt)].
  apply lt_IZR. apply Rle_lt_trans with (value (S754_finite false m e) + 1)%R; [|exact Hv]. cbn [value]. unfold z.
  destruct (Z.le_gt_cases 0 e) as [He|He].
  - rewrite Z.shiftl_mul_pow2, <-Z.mul_opp_l, mult_IZR, B_IZR by done. change (- Zneg m) with (Zpos m). lra.
  - replace e with (- - e) at 1 by lia. rewrite Z.shiftl_opp_r, Z.shiftr_div_pow2 by lia.
    assert (Hp : 0 < 2 ^ (- e)) by (apply Z.pow_pos_nonneg; lia).
    pose proof (Z.mod_pos_bound (Zneg m) (2 ^ (- e)) Hp) as Hm. pose proof (Z.div_mod (Zneg m) (2 ^ (- e)) ltac:(lia)) as Hd.
    set (q := Zneg m / 2 ^ (- e)) in *.
    assert (Hq : 2 ^ (- e) * (- q) ≤ Zpos m + 2 ^ (- e)) by lia.
    apply IZR_le in Hq. apply IZR_lt in Hp. rewrite mult_IZR, plus_IZR in Hq.
    replace e with (- - e) at 1 by lia. rewrite B_of_pow by lia.
    apply Rmult_le_reg_l with (IZR (2 ^ (- e))); [done|].
    replace (IZR (2 ^ (- e)) * (IZR (Zpos m) * / IZR (2 ^ (- e)) + 1))%R with (IZR (Zpos m) + IZR (2 ^ (- e)))%R by (field; lra).
    exact Hq.
Qed.

Lemma per_of_ok speed : 0 ≤ speed < 2 ^ 64 → ∃ per, per_of speed = Ret per ∧ 65536 ≤ per.
Proof.
  intros Hs. unfold per_of.
  assert (H : ∃ c, u64_of_ceil (double_div (double_of_Z speed) (double_of_Z 100)) = Ret c).
  2:{ destruct H as [c ->]. exists (Z.max c 65536). split; [done|lia]. }
  destruct (Z.eq_dec speed 0) as [->|Hne]; [exists 0; by vm_compute|].
  assert (Ha : close 53 (double_of_Z speed) (IZR speed)) by (apply of_Z_close; [done..|lia]).
  assert (Hk : close 53 (double_of_Z 100) 100) by (by apply of_Z_close).
  pose proof (close_bounds _ _ _ Ha) as Ba. pose proof (close_bounds _ _ _ Hk) as Bk. rewrite u53 in Ba, Bk.
  assert (H1 : (1 <= IZR speed)%R) by (apply IZR_le; lia).
  assert (H2 : (IZR speed <= 18446744073709551616)%R) by (apply IZR_le; lia).
  set (a := value (double_of_Z speed)) in *. set (k := value (double_of_Z 100)) in *.
  assert (Hk1 : (99 <= k <= 101)%R) by lra.
  assert (Hxk : (a / k * k = a)%R) by (field; lra). set (x := (a / k)%R) in *.
  assert (Hx : (1 / 200 <= x <= 200000000000000000)%R) by (split; nra).
  assert (Hd : close 53 (double_div (double_of_Z speed) (double_of_Z 100)) x).
  { apply div_close'; [done..|apply Ha|apply Hk|done|].
    assert (B (-100) <= / 256)%R by (change 256 with (2 ^ 8); rewrite <-B_of_pow by done; by apply B_le).
    assert (IZR (2 ^ 60) <= B 100)%R by (rewrite B_IZR by done; by apply B_le). change (2 ^ 60) with 1152921504606846976 in *. lra. }
  pose proof (close_bounds _ _ _ Hd) as Bd. rewrite u53 in Bd. destruct (close_pos _ _ _ Hd) as (m & e & Hme & _).
  rewrite Hme in *. apply ceil_defined. lra.
Qed.

(** ** The limiter moves no data *)

(** A limiter of speed [s] that counts at most [n] bytes. *)
Definition counts (s n : Z) (l : SpeedLimit) : Prop :=
  ∃ m S, l = mkSL s (float_of_double (double_div (double_of_Z s) (double_of_Z 1000))) m S ∧ 0 ≤ m ≤ n.

Lemma limit_add_ok s n v clock l : 1 ≤ s < 2 ^ 32 → counts s n l →
  n + Z.of_nat v < 2 ^ 32 → n + Z.of_nat v ≤ 2000 * s →
  ∃ l', limit_add v clock (Some l) = Ret (Some l', tl clock) ∧ counts s (n + Z.of_nat v) l'.
Proof.
  intros Hs (m & S & -> & Hm) H1 H2. unfold limit_add. replace (u32 (Z.of_nat v)) with (Z.of_nat v) by solve_int.
  set (t := hd 0 clock). destruct (Z.eq_dec (t / 1000) S) as [He|Hne].
  - destruct (add_same s S m t (Z.of_nat v) Hs) as (us & -> & _); [split; cbn; [done|lia]|lia..|].
    cbn [mbind outcome_bind]. eexists. split; [done|]. eexists _, _. split; [done|lia].
  - unfold add. cbn [curSec_]. rewrite (proj2 (Z.eqb_neq _ _)) by done. cbn [negb mbind outcome_bind].
    eexists. split; [done|]. eexists _, _. split; [done|lia].
Qed.

Lemma is_read_length n ist : (length (is_read n ist).2 ≤ n)%nat.
Proof.
  unfold is_read. destruct (negb (igood ist)); [cbn; lia|].
  destruct (Nat.leb_spec n (length (avail ist))); cbn; rewrite ?length_take; lia.
Qed.

Lemma piece_min per k : 0 ≤ per → (if per <? Z.of_nat k then Z.to_nat per else k) = Nat.min (Z.to_nat per) k.
Proof. intros H. destruct (Z.ltb_spec per (Z.of_nat k)); lia. Qed.

(** Where the pieces of a limited read return, they read what pieces read. *)
Lemma ReadFixSpeed_loop_same fuel per size : 0 ≤ per → ∀ clock limit ist data r,
  ReadFixSpeed_loop fuel per size clock limit ist data = Ret r → read_pieces fuel (Z.to_nat per) size ist data = r.
Proof.
  intros Hper. induction fuel as [|fuel IH]; intros clock limit ist data r H; cbn [ReadFixSpeed_loop read_pieces] in *; [by injection H|].
  destruct (igood ist && (length data <? size)%nat); [|by injection H]. rewrite piece_min in H by done.
  destruct (is_read _ ist) as [ist' l]. destruct (limit_add (length l) clock limit) as [[limit' clock']| | |]; [|done..].
  by eapply IH.
Qed.

(** They return without a limiter, and with one if what is read is worth no
    more than 2000 seconds. *)
Lemma ReadFixSpeed_loop_returns fuel s per size : 1 ≤ s < 2 ^ 32 → 0 ≤ per → ∀ clock limit ist data,
  (length data ≤ size)%nat →
  (∀ l, limit = Some l → counts s (Z.of_nat (length data)) l ∧ Z.of_nat size < 2 ^ 32 ∧ Z.of_nat size ≤ 2000 * s) →
  ∃ r, ReadFixSpeed_loop fuel per size clock limit ist data = Ret r.
Proof.
  intros Hs Hper. induction fuel as [|fuel IH]; intros clock limit ist data Hd Hl; cbn [ReadFixSpeed_loop]; [eauto|].
  destruct (igood ist) eqn:Hg; [|cbn; eauto]. destruct (Nat.ltb_spec (length data) size) as [Hlt|]; [|cbn; eauto].
  cbn [andb]. rewrite piece_min by done. set (k := Nat.min (Z.to_nat per) (size - length data)).
  pose proof (is_read_length k ist) as Hk. destruct (is_read k ist) as [ist' b]. cbn [snd] in Hk.
  assert (Hlen : (length (data ++ b) ≤ size)%nat) by (rewrite length_app; lia).
  destruct limit as [l|]; [|cbn [limit_add mbind outcome_bind]; by apply IH].
  destruct (Hl l eq_refl) as (Hc & H1 & H2). rewrite length_app in Hlen.
  destruct (limit_add_ok s (Z.of_nat (length data)) (length b) clock l Hs Hc) as (l' & -> & Hc'); [lia..|].
  cbn [mbind outcome_bind]. apply IH; [by rewrite length_app|]. intros l2 [= <-].
  rewrite length_app, Nat2Z.inj_add. done.
Qed.

(** C36: reading in pieces is reading.  [ReadFixFromStream] delivers the first
    [size] bytes and answers true when the stream holds that many, and otherwise
    delivers what there is and answers false.  [ReadFixFromStreamWithSpeed], from
    a file or not, at any speed, whatever the clock shows, does the same where it
    comes back; and it comes back - the loop ends, and no arithmetic of the
    chunk size or the limiter overflows - for any stream that is not a file, and
    for a file, which is read through the limiter, when the size fits 32 bits and
    is worth no more than 2000 seconds of the speed.  A file read more slowly
    than that can overflow ([slow_read_overflows]). *)
Theorem read_fix_equivalent (file : bool) (speed : Z) (clock : list Z) (size : nat) (ist : istream) :
  let s := if u32 speed =? 0 then 2 ^ 32 - 1 else u32 speed in
  0 ≤ speed < 2 ^ 64 →
  ReadFixFromStream size ist = read_spec size ist ∧
  (∀ r, ReadFixFromStreamWithSpeed file speed clock size ist = Ret r → r = read_spec size ist) ∧
  (file = false ∨ Z.of_nat size < 2 ^ 32 ∧ Z.of_nat size ≤ 2000 * s →
   ReadFixFromStreamWithSpeed file speed clock size ist = Ret (read_spec size ist)).
Proof.
  intros s Hsp. split; [apply ReadFixFromStream_all|].
  destruct (per_of_ok speed Hsp) as (per & Hper & Hp). unfold ReadFixFromStreamWithSpeed. rewrite Hper. cbn [mbind outcome_bind].
  set (limit := if file then _ else _).
  assert (Hsame : ∀ ist' data, ReadFixSpeed_loop (S size) per size clock limit ist [] = Ret (ist', data) →
    (ist', data, (length data =? size)%nat) = read_spec size ist).
  { intros ist' data H. apply ReadFixSpeed_loop_same in H; [|lia]. rewrite <-(read_pieces_all (Z.to_nat per)) by lia. by rewrite H. }
  split.
  - intros r H. destruct (ReadFixSpeed_loop _ _ _ _ _ _ _) as [[ist' data]| | |] eqn:Hl; [|done..].
    injection H as <-. by apply Hsame.
  - intros Hfile. assert (Hu : 0 ≤ u32 speed < 2 ^ 32) by solve_int.
    destruct (limit_speed (u32 speed) Hu) as [Hs1 Hs]. rewrite Hs1 in Hs. fold s in Hs.
    destruct (ReadFixSpeed_loop_returns (S size) s per size Hs ltac:(lia) clock limit ist []) as [[ist' data] Hl]; [cbn; lia| |].
    { intros l Hl. unfold limit in Hl. destruct file; [|done]. injection Hl as <-.
      destruct Hfile as [|[H1 H2]]; [done|]. split; [|done]. eexists 0, 0. split; [done|]. cbn. lia. }
    rewrite Hl. cbn [mbind outcome_bind]. by rewrite (Hsame _ _ Hl).
Qed.

(** Four bytes of five, from a file at 1000 bytes a second. *)
Lemma read_fix_equivalent_witness :
  let ist := mkIs ($ "abcde") true in
  ReadFixFromStreamWithSpeed true 1000 [5000; 5001] 4 ist = Ret (mkIs ($ "e") true, $ "abcd", true) ∧
  ReadFixFromStream 4 ist = (mkIs ($ "e") true, $ "abcd", true).
Proof.
  intros ist. destruct (read_fix_equivalent true 1000 [5000; 5001] 4 ist) as (H1 & _ & H3); [lia|].
  split; [|rewrite H1; by vm_compute].
  rewrite H3; [by vm_compute|]. right. change (if u32 1000 =? 0 then 2 ^ 32 - 1 else u32 1000) with 1000. lia.
Defined.

(** ** Writing *)

(** A write that the stream can take is one piece and answers true; but the
    offset is advanced without a look at the stream, so that on a good stream
    the answer is true for any data of at most 64 KiB, even when the write fails
    and the data is cut short.  A limiter does not come into it after the clock's
    first second. *)
Theorem write_fix_ignores_failure (file : bool) (speed t : Z) (clock : list Z) (data : str) (os : ostream) :
  0 ≤ speed < 2 ^ 64 → 1000 ≤ t → ogood os = true → Z.of_nat (length data) ≤ 65536 →
  ∃ os', WriteFixToStreamWithSpeed file speed (t :: clock) data os = Ret (os', true) ∧
  ((length data ≤ room os)%nat → written os' = written os ++ data) ∧
  ((room os < length data)%nat → written os' = written os ++ take (room os) data ∧ ogood os' = false).
Proof.
  intros Hsp Ht Hg Hlen. destruct (per_of_ok speed Hsp) as (per & Hper & Hp).
  unfold WriteFixToStreamWithSpeed. rewrite Hper. cbn [mbind outcome_bind].
  destruct data as [|c data'] eqn:Ed.
  { cbn [length WriteFixSpeed_loop]. cbn -[SpeedLimit_new]. rewrite andb_false_r. cbn. exists os. split; [done|].
    split; [by rewrite app_nil_r|lia]. }
  rewrite <-Ed in *. assert (Hpos : (0 < length data)%nat) by (subst; cbn; lia). clear Ed.
  set (limit := if file then _ else _).
  assert (Hadd : ∃ x, limit_add (length data) (t :: clock) limit = Ret x).
  { unfold limit. destruct file; [|by eexists]. unfold limit_add, add. cbn [hd tl SpeedLimit_new curSec_].
    rewrite (proj2 (Z.eqb_neq _ _)); [by eexists|]. assert (1 ≤ t / 1000) by (apply Z.div_le_lower_bound; lia). lia. }
  destruct Hadd as [[limit' clock'] Hadd]. remember (length data) as n eqn:En.
  cbn [WriteFixSpeed_loop]. rewrite Hg, <-En, (proj2 (Nat.ltb_lt 0 n)), piece_min, Nat.sub_0_r by lia. cbn [andb].
  rewrite Nat.min_r by lia. rewrite drop_0, Hadd. cbn [mbind outcome_bind Nat.add]. rewrite En, firstn_all.
  assert (Hend : ∀ fuel os1, WriteFixSpeed_loop fuel per clock' limit' data (length data) os1 = Ret (os1, length data)).
  { intros [|fuel] os1; cbn [WriteFixSpeed_loop]; [done|]. by rewrite Nat.ltb_irrefl, andb_false_r. }
  rewrite <-En, En, Hend. cbn [mbind outcome_bind]. rewrite Nat.eqb_refl. eexists. split; [done|].
  unfold os_write. rewrite Hg. cbn [negb]. destruct (Nat.leb_spec (length data) (room os)); split; try lia; done.
Qed.

Lemma write_fix_ignores_failure_witness :
  ∃ os', WriteFixToStreamWithSpeed true 10 [5000] ($ "ab") (mkOs [] 1 true) = Ret (os', true) ∧ written os' = $ "a".
Proof.
  destruct (write_fix_ignores_failure true 10 5000 [] ($ "ab") (mkOs [] 1 true)) as (os' & H1 & _ & H2); [lia|lia|done|by vm_compute|].
  exists os'. split; [exact H1|]. destruct H2 as [H2 _]; [cbn; lia|]. exact H2.
Defined.

(** A file read at 20 bytes a second, a piece of 64 KiB and one of 100 bytes in
    the same second: [1000 * (limitms - usedms)] overflows with the second. *)
Lemma slow_read_overflows (c : ascii) :
  let size := Z.to_nat 65636 in
  ReadFixFromStreamWithSpeed true 20 [1000; 1001] size (mkIs (replicate size c) true) = Undefined.
Proof.
  intros size. unfold ReadFixFromStreamWithSpeed. replace (per_of 20) with (@Ret Z 65536) by (by vm_compute).
  cbn [mbind outcome_bind]. assert (Hn : ∃ n, Z.of_nat n = 65536 ∧ size = (n + 100)%nat).
  { exists (Z.to_nat 65536). split; [by rewrite Z2Nat.id|]. unfold size. lia. }
  destruct Hn as (n & Hn & ->). assert (Hp : Z.to_nat 65536 = n) by lia.
  replace (S (n + 100)) with (S (S (n + 99)))%nat by lia. remember (S (n + 99))%nat as fuel eqn:Ef.
  cbn [ReadFixSpeed_loop igood length]. rewrite (proj2 (Nat.ltb_lt 0 _)), piece_min, Hp by lia. cbn [andb].
  rewrite Nat.sub_0_r, Nat.min_l by lia. unfold is_read at 1. cbn [igood negb avail].
  rewrite length_replicate, (proj2 (Nat.leb_le n _)) by lia.
  rewrite drop_replicate, take_replicate, length_replicate, Nat.min_l by lia. replace (n + 100 - n)%nat with 100%nat by lia.
  replace (limit_add n [1000; 1001] (Some (SpeedLimit_new (u32 20)))) with
    (@Ret (option SpeedLimit * list Z) (Some (mkSL 20 (countPerMS_ (SpeedLimit_new 20)) 65536 1), [1001]))
    by (unfold limit_add; rewrite Hn; by vm_compute).
  rewrite Ef. cbn [mbind outcome_bind ReadFixSpeed_loop igood app]. rewrite length_replicate, (proj2 (Nat.ltb_lt n _)), piece_min, Hp by lia.
  cbn [andb]. replace (Nat.min n (n + 100 - n)) with 100%nat by lia.
  by vm_compute.
Qed.

(** The default speed asks for 5000 times a terabyte at a time. *)
Example per_of_default : per_of (2 ^ 64 - 1) = Ret 184467440737095520.
Proof. by vm_compute. Qed.

(** A slow limit overflows [1000 * (limitms - usedms)] with the second piece. *)
Example slow_limit_overflows : adds [(1000, 65536); (1001, 65536)] (SpeedLimit_new 50) = Undefined.
Proof. by vm_compute. Qed.

(** The speed of a copy is cut to 32 bits: this one is held to 1000 bytes a
    second. *)
Example fast_limit_truncated : SpeedLimit_new (u32 (2 ^ 32 + 1000)) = SpeedLimit_new 1000.
Proof. by vm_compute. Qed.
