(* ===== verification/SharedArray.v ===== *)
(** * Shared arrays: the template SharedArray of util.h

    An object is its size and the control block of its [shared_ptr], which all
    objects that were copied from one another share.  The heap has the objects
    by address, the control blocks, and the arrays made with [new T[n]]; touching
    an array that is not there, or an element it does not have, is undefined. *)
From S2P Require Import Prelude.

Section SharedArray.
Context {T : Type}.

(** A control block of [std::shared_ptr<T>] with the deleter [delete_array]. *)
Record block : Type := mkBlock { held : option Z; uses : Z }.
Record heap : Type := mkHeap {
  arrays : gmap Z (list T);
  blocks : gmap Z block;
  objects : gmap Z (Z * Z) }.

Definition set_objects (o : gmap Z (Z * Z)) (h : heap) : heap := mkHeap (arrays h) (blocks h) o.
Definition set_block (c : Z) (k : block) (h : heap) : heap := mkHeap (arrays h) (<[c := k]> (blocks h)) (objects h).

Definition delete_array (v : option Z) (h : heap) : outcome heap :=
  match v with
  | None => Ret h
  | Some q =>
      match arrays h !! q with
      | Some _ => Ret (mkHeap (delete q (arrays h)) (blocks h) (objects h))
      | None => Undefined
      end
  end.

(** What the copy, the assignment and the destructor of [shared_ptr] do to the
    counts. *)
Definition retain (c : Z) (h : heap) : outcome heap :=
  match blocks h !! c with
  | Some k => Ret (set_block c (mkBlock (held k) (uses k + 1)) h)
  | None => Undefined
  end.
Definition release (c : Z) (h : heap) : outcome heap :=
  match blocks h !! c with
  | Some k =>
      if uses k =? 1
      then delete_array (held k) (mkHeap (arrays h) (delete c (blocks h)) (objects h))
      else Ret (set_block c (mkBlock (held k) (uses k - 1)) h)
  | None => Undefined
  end.

(** The constructor of the object [a] from a size and a pointer; [c] is the
    address of the new control block. *)
Definition SharedArray_new (a size : Z) (p : option Z) (c : Z) (h : heap) : heap :=
  mkHeap (arrays h) (<[c := mkBlock p 1]> (blocks h)) (<[a := (size, c)]> (objects h)).

(** The copy constructor, [operator=], the destructor and [swap]. *)
Definition SharedArray_copy (a r : Z) (h : heap) : outcome heap :=
  match objects h !! r with
  | Some (size, c) => retain c (set_objects (<[a := (size, c)]> (objects h)) h)
  | None => Undefined
  end.
Definition assign (a r : Z) (h : heap) : outcome heap :=
  match objects h !! a, objects h !! r with
  | Some (_, c), Some (size, c') =>
      let h := set_objects (<[a := (size, c')]> (objects h)) h in
      if c =? c' then Ret h else h ← retain c' h; release c h
  | _, _ => Undefined
  end.
Definition SharedArray_delete (a : Z) (h : heap) : outcome heap :=
  match objects h !! a with
  | Some (_, c) => release c (set_objects (delete a (objects h)) h)
  | None => Undefined
  end.
Definition swap (a b : Z) (h : heap) : outcome heap :=
  match objects h !! a, objects h !! b with
  | Some x, Some y => Ret (set_objects (<[b := x]> (<[a := y]> (objects h))) h)
  | _, _ => Undefined
  end.

(** [get], [operator[]], [size], [use_count], [unique], [operator bool]. *)
Definition get (a : Z) (h : heap) : option Z :=
  '(_, c) ← objects h !! a; k ← blocks h !! c; held k.
Definition index (a i : Z) (h : heap) : outcome T :=
  match get a h with
  | Some q =>
      match arrays h !! q with
      | Some l => if 0 <=? i then match l !! Z.to_nat i with Some x => Ret x | None => Undefined end else Undefined
      | None => Undefined
      end
  | None => Undefined
  end.
Definition size_ (a : Z) (h : heap) : Z := match objects h !! a with Some (size, _) => size | None => 0 end.
Definition use_count (a : Z) (h : heap) : Z :=
  match objects h !! a with Some (_, c) => match blocks h !! c with Some k => uses k | None => 0 end | None => 0 end.
Definition unique (a : Z) (h : heap) : bool := use_count a h =? 1.
Definition to_bool (a : Z) (h : heap) : bool := negb (null (get a h)).

(** [OAlloc] is [new T[n]] of the client. *)
Inductive op : Type :=
  | OAlloc (q : Z) (l : list T)
  | ONew (a size : Z) (p : option Z) (c : Z)
  | OCopy (a r : Z)
  | OAssign (a r : Z)
  | OSwap (a b : Z)
  | ODelete (a : Z).

Definition run_op (o : op) (h : heap) : outcome heap :=
  match o with
  | OAlloc q l => Ret (mkHeap (<[q := l]> (arrays h)) (blocks h) (objects h))
  | ONew a size p c => Ret (SharedArray_new a size p c h)
  | OCopy a r => SharedArray_copy a r h
  | OAssign a r => assign a r h
  | OSwap a b => swap a b h
  | ODelete a => SharedArray_delete a h
  end.
Fixpoint run_ops (l : list op) (h : heap) : outcome heap :=
  match l with [] => Ret h | o :: l' => h ← run_op o h; run_ops l' h end.

(** What the client promises: fresh addresses, objects that exist, and an array
    of the size it gives, handed over once. *)
Definition allowed (o : op) (h : heap) : Prop :=
  match o with
  | OAlloc q _ => arrays h !! q = None
  | ONew a size p c => objects h !! a = None ∧ blocks h !! c = None ∧
      match p with
      | None => size = 0
      | Some q => (∃ l, arrays h !! q = Some l ∧ size = Z.of_nat (length l)) ∧
          ∀ c' k, blocks h !! c' = Some k → held k ≠ Some q
      end
  | OCopy a r => objects h !! a = None ∧ is_Some (objects h !! r)
  | OAssign a b | OSwap a b => is_Some (objects h !! a) ∧ is_Some (objects h !! b)
  | ODelete a => is_Some (objects h !! a)
  end.
Fixpoint allowed_run (l : list op) (h : heap) : Prop :=
  match l with
  | [] => True
  | o :: l' => allowed o h ∧ match run_op o h with Ret h' => allowed_run l' h' | _ => True end
  end.

(** The arrays that were allocated and not handed over. *)
Fixpoint loose (l : list op) (L : gset Z) : gset Z :=
  match l with
  | [] => L
  | OAlloc q _ :: l' => loose l' ({[q]} ∪ L)
  | ONew _ _ (Some q) _ :: l' => loose l' (L ∖ {[q]})
  | _ :: l' => loose l' L
  end.

(** ** Counting *)

Definition count (c : Z) (o : gmap Z (Z * Z)) : Z := Z.of_nat (size (filter (λ kv, kv.2.2 = c) o)).
Definition here (c c' : Z) : Z := if c =? c' then 1 else 0.

Lemma count_insert c o a s c' : o !! a = None → count c (<[a := (s, c')]> o) = count c o + here c' c.
Proof.
  intros Ha. unfold count, here. rewrite map_filter_insert. cbn. case_decide as Hc.
  - rewrite map_size_insert_None by (by apply map_lookup_filter_None_2; left). rewrite Hc, Z.eqb_refl. lia.
  - rewrite delete_id by done. rewrite (proj2 (Z.eqb_neq _ _)) by done. lia.
Qed.
Lemma count_delete c o a s c' : o !! a = Some (s, c') → count c o = count c (delete a o) + here c' c.
Proof.
  intros Ha. rewrite <-(insert_delete_id o a (s, c')) at 1 by done. apply count_insert, lookup_delete_eq.
Qed.
Lemma count_nonneg c o : 0 ≤ count c o.
Proof. unfold count. lia. Qed.
Lemma count_zero c o : (∀ a s, o !! a ≠ Some (s, c)) → count c o = 0.
Proof.
  intros H. unfold count. replace (filter (λ kv, kv.2.2 = c) o) with (∅ : gmap Z (Z * Z)); [done|]. symmetry.
  apply map_empty. intros a. apply map_lookup_filter_None_2. right. intros [s c'] Ha <-. by eapply H.
Qed.
Lemma count_pos c o a s : o !! a = Some (s, c) → 1 ≤ count c o.
Proof. intros Ha. rewrite (count_delete _ _ _ _ _ Ha). pose proof (count_nonneg c (delete a o)). unfold here. rewrite Z.eqb_refl. lia. Qed.

Lemma count_update c o a x y : o !! a = Some x → count c (<[a := y]> o) + here x.2 c = count c o + here y.2 c.
Proof.
  destruct x as [s c'], y as [s' c'']. intros Ha. rewrite (count_delete c o a s c' Ha), <-insert_delete_eq, count_insert.
  - cbn. lia.
  - apply lookup_delete_eq.
Qed.

(** ** The invariant *)

(** [d] is a block that one more holder than the objects show still counts for:
    an object that is being assigned to or destroyed. *)
Definition debt (d : option Z) (c : Z) : Z := match d with Some c' => here c' c | None => 0 end.

Record Inv (h : heap) (L : gset Z) (d : option Z) : Prop := {
  inv_uses c k : blocks h !! c = Some k → uses k = count c (objects h) + debt d c ∧ 1 ≤ uses k;
  inv_object a s c : objects h !! a = Some (s, c) → ∃ k, blocks h !! c = Some k;
  inv_debt c : d = Some c → is_Some (blocks h !! c);
  inv_size a s c k : objects h !! a = Some (s, c) → blocks h !! c = Some k →
    match held k with
    | None => s = 0
    | Some q => ∃ l, arrays h !! q = Some l ∧ s = Z.of_nat (length l)
    end;
  inv_inj c c' k k' q : blocks h !! c = Some k → blocks h !! c' = Some k' →
    held k = Some q → held k' = Some q → c = c';
  inv_live q : is_Some (arrays h !! q) ↔ q ∈ L ∨ ∃ c k, blocks h !! c = Some k ∧ held k = Some q;
  inv_loose q c k : q ∈ L → blocks h !! c = Some k → held k ≠ Some q }.

Lemma here_eq c : here c c = 1.
Proof. unfold here. by rewrite Z.eqb_refl. Qed.
Lemma here_ne c c' : c ≠ c' → here c c' = 0.
Proof. intros H. unfold here. by rewrite (proj2 (Z.eqb_neq _ _)). Qed.

(** A new count for one block, new holders of the old blocks. *)
Lemma Inv_recount h L d c k n o d' : Inv h L d → blocks h !! c = Some k →
  n = count c o + debt d' c → 1 ≤ n →
  (∀ c', c' ≠ c → count c' o + debt d' c' = count c' (objects h) + debt d c') →
  (∀ a s c', o !! a = Some (s, c') → ∃ a', objects h !! a' = Some (s, c')) →
  (∀ c', d' = Some c' → is_Some (blocks h !! c')) →
  Inv (mkHeap (arrays h) (<[c := mkBlock (held k) n]> (blocks h)) o) L d'.
Proof.
  intros [Hu Ho Hd Hs Hi Hl Hn] Hk Hcount H1 Hother Hobj Hd'.
  assert (Hbl : ∀ c' k', <[c := mkBlock (held k) n]> (blocks h) !! c' = Some k' →
    ∃ k0, blocks h !! c' = Some k0 ∧ held k' = held k0 ∧ (c' = c ∧ uses k' = n ∨ c' ≠ c ∧ uses k' = uses k0)).
  { intros c' k' [[-> <-]|[Hc' H]]%lookup_insert_Some; [exists k|exists k']; auto. }
  assert (Hbl' : ∀ c' k0, blocks h !! c' = Some k0 →
    ∃ k', <[c := mkBlock (held k) n]> (blocks h) !! c' = Some k' ∧ held k' = held k0).
  { intros c' k0 H. destruct (decide (c' = c)) as [->|Hc'].
    - exists (mkBlock (held k) n). rewrite lookup_insert_eq. split; [done|]. cbn. congruence.
    - exists k0. by rewrite lookup_insert_ne. }
  split; cbn.
  - intros c' k' (k0 & Hk0 & _ & [[-> ->]|[Hc' ->]])%Hbl; [done|]. rewrite Hother by done. by apply Hu.
  - intros a s c' (a' & Ha')%Hobj. destruct (Ho a' s c' Ha') as [k0 Hk0]. destruct (Hbl' _ _ Hk0) as (k' & ? & _). eauto.
  - intros c' [k0 Hk0]%Hd'. destruct (Hbl' _ _ Hk0) as (k' & ? & _). eauto.
  - intros a s c' k' (a' & Ha')%Hobj (k0 & Hk0 & -> & _)%Hbl. by eapply Hs.
  - intros c1 c2 k1 k2 q (k3 & H3 & -> & _)%Hbl (k4 & H4 & -> & _)%Hbl. by apply Hi.
  - intros q. rewrite Hl. split; (intros [?|(c' & k' & Hk' & Hq)]; [by left|right]).
    + destruct (Hbl' _ _ Hk') as (k1 & ? & Hk1). exists c', k1. by rewrite Hk1.
    + destruct (Hbl _ _ Hk') as (k0 & ? & Hk0 & _). exists c', k0. by rewrite <-Hk0.
  - intros q c' k' HL (k0 & Hk0 & -> & _)%Hbl. by eapply Hn.
Qed.

(** The last holder of a block goes. *)
Lemma Inv_dead h L c k ar : Inv h L (Some c) → blocks h !! c = Some k → uses k = 1 →
  (∀ q, held k ≠ Some q → ar !! q = arrays h !! q) → (∀ q, held k = Some q → ar !! q = None) →
  Inv (mkHeap ar (delete c (blocks h)) (objects h)) L None.
Proof.
  intros [Hu Ho Hd Hs Hi Hl Hn] Hk H1 Hne Heq. destruct (Hu c k Hk) as [Hck _]. cbn [debt] in Hck. rewrite here_eq in Hck.
  assert (Hnone : ∀ a s, objects h !! a ≠ Some (s, c)).
  { intros a s Ha. pose proof (count_pos _ _ _ _ Ha). lia. }
  assert (Hbl : ∀ c' k', delete c (blocks h) !! c' = Some k' → c' ≠ c ∧ blocks h !! c' = Some k').
  { intros c' k' H. apply lookup_delete_Some in H as [? ?]. done. }
  split; cbn.
  - intros c' k' [Hc' Hk']%Hbl. destruct (Hu c' k' Hk') as [H ?]. cbn [debt] in H. by rewrite here_ne in H.
  - intros a s c' Ha. destruct (Ho a s c' Ha) as [k' Hk']. exists k'. rewrite lookup_delete_ne; [done|].
    intros <-. by eapply Hnone.
  - done.
  - intros a s c' k' Ha [Hc' Hk']%Hbl. specialize (Hs a s c' k' Ha Hk'). destruct (held k') as [q|] eqn:Hq; [|done].
    rewrite Hne; [done|]. intros Hkq. by apply Hc', (Hi c' c k' k q).
  - intros c1 c2 k1 k2 q [_ H2]%Hbl [_ H3]%Hbl. by apply Hi.
  - intros q. destruct (decide (held k = Some q)) as [Hq|Hq].
    + rewrite Heq by done. split; [by intros [? ?]|]. intros [HL|(c' & k' & [Hc' Hk']%Hbl & Hq')].
      * by destruct (Hn q c k HL Hk).
      * by destruct Hc'; eapply Hi.
    + rewrite Hne, Hl by done. split; (intros [HL|(c' & k' & Hk' & Hq')]; [by left|right]).
      * exists c', k'. rewrite lookup_delete_ne; [done|]. intros <-. naive_solver.
      * apply Hbl in Hk' as [_ Hk']. eauto.
  - intros q c' k' HL [_ Hk']%Hbl. by eapply Hn.
Qed.

Lemma release_Inv h L c : Inv h L (Some c) → ∃ h', release c h = Ret h' ∧ Inv h' L None.
Proof.
  intros HI. destruct (inv_debt _ _ _ HI c eq_refl) as [k Hk]. unfold release. rewrite Hk.
  destruct (inv_uses _ _ _ HI c k Hk) as [Hck Hpos]. cbn [debt] in Hck. rewrite here_eq in Hck.
  destruct (Z.eqb_spec (uses k) 1) as [H1|H1].
  - destruct (held k) as [q|] eqn:Hq; cbn [delete_array arrays].
    + assert (is_Some (arrays h !! q)) as [l ->] by (apply (inv_live _ _ _ HI); right; eauto).
      eexists. split; [done|]. apply (Inv_dead _ _ _ _ _ HI Hk H1); cbn.
      * intros q' Hq'. apply lookup_delete_ne. naive_solver.
      * intros q' Hq'. rewrite Hq in Hq'. injection Hq' as <-. apply lookup_delete_eq.
    + eexists. split; [done|]. apply (Inv_dead _ _ _ _ _ HI Hk H1); [done|]. intros q Hq'. congruence.
  - eexists. split; [done|]. apply (Inv_recount _ _ _ _ _ _ _ _ HI Hk); cbn [debt].
    + lia.
    + lia.
    + intros c' Hc'. rewrite here_ne by done. lia.
    + eauto.
    + done.
Qed.

(** The same blocks, other holders. *)
Lemma Inv_objects h L d c k o d' : Inv h L d → blocks h !! c = Some k →
  (∀ c', count c' o + debt d' c' = count c' (objects h) + debt d c') →
  (∀ a s c', o !! a = Some (s, c') → ∃ a', objects h !! a' = Some (s, c')) →
  (∀ c', d' = Some c' → is_Some (blocks h !! c')) → Inv (set_objects o h) L d'.
Proof.
  intros HI Hk Hc Ho Hd. destruct (inv_uses _ _ _ HI c k Hk) as [H1 H2].
  pose proof (Inv_recount h L d c k (uses k) o d' HI Hk) as H. destruct k as [p n]. cbn [held uses] in *.
  rewrite insert_id in H by done. apply H; [rewrite Hc; lia|done|auto|done|done].
Qed.

Lemma delete_Inv h L a s c : Inv h L None → objects h !! a = Some (s, c) → Inv (set_objects (delete a (objects h)) h) L (Some c).
Proof.
  intros HI Ha. destruct (inv_object _ _ _ HI _ _ _ Ha) as [k Hk]. apply (Inv_objects _ _ _ _ _ _ _ HI Hk); cbn [debt].
  - intros c'. rewrite (count_delete c' _ _ _ _ Ha). lia.
  - intros a' s' c' [_ H]%lookup_delete_Some. eauto.
  - intros c' [= <-]. eauto.
Qed.

Lemma copy_Inv h L d a a' s c : Inv h L d → objects h !! a = None → objects h !! a' = Some (s, c) →
  ∃ h', retain c (set_objects (<[a := (s, c)]> (objects h)) h) = Ret h' ∧ Inv h' L d.
Proof.
  intros HI Ha Ha'. destruct (inv_object _ _ _ HI _ _ _ Ha') as [k Hk]. destruct (inv_uses _ _ _ HI c k Hk) as [H1 H2].
  unfold retain. cbn [blocks set_objects]. rewrite Hk. eexists. split; [done|].
  apply (Inv_recount _ _ _ _ _ _ _ _ HI Hk); cbn [objects set_objects].
  - rewrite count_insert, here_eq by done. lia.
  - lia.
  - intros c' Hc'. rewrite count_insert, here_ne by done. lia.
  - intros a0 s0 c0 [[_ [= <- <-]]|[_ H]]%lookup_insert_Some; eauto.
  - intros c' ->. by apply (inv_debt _ _ _ HI).
Qed.

Lemma assign_Inv h L a r : Inv h L None → is_Some (objects h !! a) → is_Some (objects h !! r) →
  ∃ h', assign a r h = Ret h' ∧ Inv h' L None.
Proof.
  intros HI [[s c] Ha] [[s' c'] Hr]. unfold assign. rewrite Ha, Hr.
  destruct (inv_object _ _ _ HI _ _ _ Hr) as [k Hk]. destruct (Z.eqb_spec c c') as [->|Hne].
  - assert (s' = s) as ->.
    { pose proof (inv_size _ _ _ HI _ _ _ _ Ha Hk) as H1. pose proof (inv_size _ _ _ HI _ _ _ _ Hr Hk) as H2. case_match; naive_solver. }
    rewrite insert_id by done. destruct h. eexists. by split.
  - destruct (inv_uses _ _ _ HI c' k Hk) as [H1 H2]. cbn [debt] in H1. unfold retain. cbn [blocks set_objects]. rewrite Hk.
    cbn [mbind outcome_bind]. apply (release_Inv _ L). apply (Inv_recount _ _ _ _ _ _ _ _ HI Hk); cbn [debt objects set_objects].
    + pose proof (count_update c' _ a (s, c) (s', c') Ha) as H. cbn in H. rewrite here_eq in H. rewrite here_ne in * by done. lia.
    + lia.
    + intros c0 Hc0. pose proof (count_update c0 _ a (s, c) (s', c') Ha) as H. cbn in H. rewrite (here_ne c' c0) in H by done. lia.
    + intros a0 s0 c0 [[_ [= <- <-]]|[_ H]]%lookup_insert_Some; eauto.
    + intros c0 [= <-]. by eapply (inv_object _ _ _ HI).
Qed.

Lemma swap_Inv h L a b : Inv h L None → is_Some (objects h !! a) → is_Some (objects h !! b) →
  ∃ h', swap a b h = Ret h' ∧ Inv h' L None.
Proof.
  intros HI [x Ha] [y Hb]. unfold swap. rewrite Ha, Hb. eexists. split; [done|].
  destruct x as [s c] eqn:Ex. destruct (inv_object _ _ _ HI _ _ _ Ha) as [k Hk]. rewrite <-Ex in *.
  apply (Inv_objects _ _ _ _ _ _ _ HI Hk); [|..|done].
  - intros c'. cbn [debt]. destruct (decide (a = b)) as [->|Hab].
    + assert (x = y) as <- by congruence. by rewrite insert_insert_eq, insert_id.
    + pose proof (count_update c' (objects h) a x y Ha) as H1.
      assert (H2 : <[a := y]> (objects h) !! b = Some y) by (by rewrite lookup_insert_ne).
      pose proof (count_update c' _ b y x H2). lia.
  - intros a0 s0 c0 [[_ H]|[_ [[_ H]|[_ H]]%lookup_insert_Some]]%lookup_insert_Some; simplify_eq; eauto.
Qed.

Lemma new_Inv h L a size p c : Inv h L None → allowed (ONew a size p c) h →
  Inv (SharedArray_new a size p c h) (match p with Some q => L ∖ {[q]} | None => L end) None.
Proof.
  intros [Hu Ho Hd Hs Hi Hl Hn] (Ha & Hc & Hp).
  assert (Hc0 : count c (objects h) = 0).
  { apply count_zero. intros a' s Ha'. destruct (Ho _ _ _ Ha'). congruence. }
  assert (HL : ∀ q, q ∈ (match p with Some q => L ∖ {[q]} | None => L end) ↔ q ∈ L ∧ p ≠ Some q).
  { intros q. destruct p; set_solver. }
  assert (Hfresh : ∀ c' k, blocks h !! c' = Some k → ∀ q, p = Some q → held k ≠ Some q).
  { intros c' k Hk q ->. destruct Hp as [_ Hp]. by eapply Hp. }
  split; cbn.
  - intros c' k [[<- <-]|[Hne Hk]]%lookup_insert_Some.
    + rewrite count_insert, here_eq, Hc0 by done. done.
    + rewrite count_insert, here_ne by done. destruct (Hu _ _ Hk). cbn in *. lia.
  - intros a' s c' [[<- [= <- <-]]|[_ H]]%lookup_insert_Some; [rewrite lookup_insert_eq; eauto|].
    destruct (Ho _ _ _ H) as [k Hk]. exists k. rewrite lookup_insert_ne; [done|congruence].
  - done.
  - intros a' s c' k [[<- [= <- <-]]|[_ H]]%lookup_insert_Some.
    + rewrite lookup_insert_eq. intros [= <-]. cbn. destruct p; [|done]. apply Hp.
    + intros [[<- <-]|[_ Hk]]%lookup_insert_Some; [|by eapply Hs]. destruct (Ho _ _ _ H). congruence.
  - intros c1 c2 k1 k2 q [[<- <-]|[_ H1]]%lookup_insert_Some [[<- <-]|[_ H2]]%lookup_insert_Some; cbn; try done; [..|by apply Hi].
    + intros -> H. by destruct (Hfresh _ _ H2 q).
    + intros H ->. by destruct (Hfresh _ _ H1 q).
  - intros q. rewrite Hl, HL. split.
    + intros [HqL|(c' & k & Hk & Hq)].
      * destruct (decide (p = Some q)) as [->|]; [|by left]. right. exists c. rewrite lookup_insert_eq. eauto.
      * right. exists c', k. rewrite lookup_insert_ne; [done|congruence].
    + intros [[HqL _]|(c' & k & [[<- <-]|[_ Hk]]%lookup_insert_Some & Hq)]; [by left| |right; eauto].
      cbn in Hq. subst p. destruct Hp as [(l & Hlq & _) _]. apply Hl. eauto.
  - intros q c' k [HqL Hpq]%HL [[<- <-]|[_ Hk]]%lookup_insert_Some; [done|]. by eapply Hn.
Qed.

Lemma run_op_Inv o h L : Inv h L None → allowed o h → ∃ h', run_op o h = Ret h' ∧ Inv h' (loose [o] L) None.
Proof.
  intros HI Ho. destruct o as [q l|a size p c|a r|a r|a b|a]; cbn [run_op loose allowed] in *.
  - eexists. split; [done|]. assert (HqL : ¬ (q ∈ L ∨ ∃ c k, blocks h !! c = Some k ∧ held k = Some q)).
    { intros H. apply (inv_live _ _ _ HI) in H. rewrite Ho in H. by destruct H. }
    destruct HI as [Hu Hob Hd Hs Hi Hl Hn]. split; cbn; try done.
    + intros a s c k Ha Hk. specialize (Hs a s c k Ha Hk). destruct (held k) as [q'|] eqn:Hq'; [|done].
      rewrite lookup_insert_ne; [done|]. intros <-. apply HqL. right. eauto.
    + intros q'. destruct (decide (q = q')) as [<-|Hne].
      * rewrite lookup_insert_eq. split; [intros _; left; set_solver|done].
      * rewrite lookup_insert_ne, Hl by done. set_solver.
    + intros q' c k [->%elem_of_singleton|HL]%elem_of_union Hk Hq; [apply HqL; right; eauto|by eapply Hn].
  - eexists. split; [done|]. pose proof (new_Inv _ _ _ _ _ _ HI Ho). by destruct p.
  - destruct Ho as [Ha [[s c] Hr]]. unfold SharedArray_copy. rewrite Hr. by apply (copy_Inv _ _ _ _ r).
  - destruct Ho. by apply assign_Inv.
  - destruct Ho. by apply swap_Inv.
  - destruct Ho as [[s c] Ha]. unfold SharedArray_delete. rewrite Ha.
    by apply (release_Inv _ L), (delete_Inv _ _ _ _ _ HI Ha).
Qed.

Lemma run_ops_Inv l : ∀ h L, Inv h L None → allowed_run l h → ∃ h', run_ops l h = Ret h' ∧ Inv h' (loose l L) None.
Proof.
  induction l as [|o l IH]; intros h L HI Hl; cbn [run_ops]; [eauto|].
  destruct Hl as [Ho Hl]. destruct (run_op_Inv o h L HI Ho) as (h1 & Hrun & HI1). rewrite Hrun in Hl |- *.
  cbn [mbind outcome_bind]. destruct (IH _ _ HI1 Hl) as (h2 & ? & ?). exists h2. split; [done|].
  by destruct o as [| ? ? [] ?| | | |].
Qed.

Definition heap_empty : heap := mkHeap ∅ ∅ ∅.
Lemma heap_empty_Inv : Inv heap_empty ∅ None.
Proof.
  split; cbn; try (intros *; by rewrite lookup_empty); try set_solver.
  intros q. rewrite lookup_empty. split; [by intros []|]. intros [?|(c & k & Hk & _)]; [set_solver|]. by rewrite lookup_empty in Hk.
Qed.

Lemma count_exists c o : 1 ≤ count c o → ∃ a s, o !! a = Some (s, c).
Proof.
  unfold count. intros H. destruct (map_choose (filter (λ kv, kv.2.2 = c) o)) as (a & [s c'] & Ha).
  - intros Hn. rewrite Hn in H. by cbn in H.
  - apply map_lookup_filter_Some in Ha as [Ha Hc]. cbn in Hc. subst. eauto.
Qed.

(** C22: shared arrays are safe and do not leak.  In every run of
    constructions, copies, assignments (to oneself, and between copies, as
    well), swaps and destructions in which every array is handed over once with
    its size, nothing is freed twice or undefined; every element below the
    size of an object can be read; the count of an object is the number of
    objects that share its array; and the arrays that are there are exactly
    those that no object was ever given and those that some object still holds:
    an array is deleted when the last of its holders goes, and not before. *)
Theorem shared_array_safe (l : list op) : allowed_run l heap_empty →
  ∃ h, run_ops l heap_empty = Ret h ∧
    (∀ a i, 0 ≤ i < size_ a h → ∃ x, index a i h = Ret x) ∧
    (∀ a s c, objects h !! a = Some (s, c) → use_count a h = count c (objects h)) ∧
    (∀ q, is_Some (arrays h !! q) ↔ q ∈ loose l ∅ ∨ ∃ a, get a h = Some q).
Proof.
  intros Hl. destruct (run_ops_Inv l heap_empty ∅ heap_empty_Inv Hl) as (h & Hrun & HI).
  exists h. split; [done|]. split_and!.
  - intros a i Hi. unfold size_ in Hi. destruct (objects h !! a) as [[s c]|] eqn:Ha; [|lia].
    destruct (inv_object _ _ _ HI _ _ _ Ha) as [k Hk]. pose proof (inv_size _ _ _ HI _ _ _ _ Ha Hk) as Hs.
    unfold index, get. rewrite Ha. cbn. rewrite Hk. cbn. destruct (held k) as [q|]; [|lia].
    destruct Hs as (x & -> & ->). rewrite (proj2 (Z.leb_le _ _)) by lia.
    destruct (lookup_lt_is_Some_2 x (Z.to_nat i)) as [y ->]; [lia|eauto].
  - intros a s c Ha. unfold use_count. rewrite Ha. destruct (inv_object _ _ _ HI _ _ _ Ha) as [k Hk]. rewrite Hk.
    destruct (inv_uses _ _ _ HI _ _ Hk) as [-> _]. cbn. lia.
  - intros q. rewrite (inv_live _ _ _ HI). split; (intros [?|H]; [by left|right]).
    + destruct H as (c & k & Hk & Hq). destruct (inv_uses _ _ _ HI _ _ Hk) as [Hu H1]. cbn in Hu.
      destruct (count_exists c (objects h)) as (a & s & Ha); [lia|]. exists a. unfold get. rewrite Ha. cbn. by rewrite Hk.
    + destruct H as [a Ha]. unfold get in Ha. destruct (objects h !! a) as [[s c]|]; [|done]. cbn in Ha.
      destruct (blocks h !! c) as [k|] eqn:Hk; [|done]. eauto.
Qed.
End SharedArray.

(** Two arrays; a copy of the first outlives the object it was made from, which
    takes over the second. *)
Definition ops0 : list (@op nat) :=
  [OAlloc 100 [1; 2; 3]%nat; OAlloc 200 [4]%nat; ONew 1 3 (Some 100) 10; OCopy 2 1; ONew 3 1 (Some 200) 20;
   OAssign 1 3; OAssign 1 1; ODelete 3; OSwap 1 2; ODelete 1].
Lemma allowed_run_cons {T} (o : @op T) l h h' : run_op o h = Ret h' → allowed o h → allowed_run l h' → allowed_run (o :: l) h.
Proof. intros H ? ?. split; [done|]. by rewrite H. Qed.
Ltac next_op := eapply allowed_run_cons; [vm_compute; reflexivity| |].
Lemma ops0_allowed : allowed_run ops0 heap_empty.
Proof.
  do 2 (next_op; [by vm_compute|]).
  next_op; [split_and!; [by vm_compute..|by eexists; split; vm_compute|intros c k H; by vm_compute in H]|].
  next_op; [split; [by vm_compute|by eexists; vm_compute]|].
  next_op.
  { split_and!; [by vm_compute..|by eexists; split; vm_compute|].
    intros c k H. assert (Hc : ({[10 := mkBlock (Some 100) 2]} : gmap Z block) !! c = Some k) by exact H.
    by apply lookup_singleton_Some in Hc as [_ <-]. }
  do 5 (next_op; [repeat split; by eexists; vm_compute|]). done.
Qed.

Lemma shared_array_safe_witness :
  ∃ h, run_ops ops0 heap_empty = Ret h ∧ index 2 0 h = Ret 4%nat ∧ use_count 2 h = 1 ∧ arrays h !! 100 = None.
Proof.
  destruct (shared_array_safe ops0 ops0_allowed) as (h & Hrun & Hi & Hu & Ha). exists h.
  assert (Hh : run_ops ops0 heap_empty = Ret (mkHeap {[200 := [4%nat]]} {[20 := mkBlock (Some 200) 1]} {[2 := (1, 20)]})) by (by vm_compute).
  rewrite Hh in Hrun. injection Hrun as <-. split; [done|].
  destruct (Hi 2 0) as [x Hx]; [by vm_compute|]. split_and!; [by vm_compute| |by vm_compute].
  rewrite (Hu 2 1 20); by vm_compute.
Defined.
