(* ===== verification/Fiber.v ===== *)
(** * Coroutines: fiber.h, fiber.cpp

    [Fiber] objects by address, and for one thread its thread-local variables
    and the fiber whose context is on the processor.  A saved [ucontext_t] is
    the place the code will resume at.  A [swapcontext(&a, &b)] saves the place
    of the running code in [a] and continues at the place held by [b]. *)
From S2P Require Import Prelude.

Inductive State : Type := INIT | HOLD | EXEC | TERM | READY | EXCEPT.

#[export] Instance State_eq_dec : EqDecision State.
Proof. solve_decision. Defined.

(** Where a context resumes: not set; at the start of [MainFunc] or
    [CallerMainFunc]; after the [swapcontext] of [swapIn], of [call], of a
    yield, or of the last statement of a main function. *)
Inductive context : Type :=
  | NoContext
  | Entry (use_caller : bool)
  | InSwapIn
  | InCall
  | InYield
  | InFinal.

#[export] Instance context_eq_dec : EqDecision context.
Proof. solve_decision. Defined.

Section Fiber.
(** [C]: non-empty [std::function<void()>] values. *)
Context {C : Type}.

Record Fiber : Type := mkFiber {
  id_ : Z;
  stacksize_ : Z;
  state_ : State;
  ctx_ : context;
  stack_ : bool;
  cb_ : option C }.

(** [cpu]: the fiber whose code runs. *)
Record world : Type := mkW {
  fibers : gmap Z Fiber;
  s_fiber_id : Z;
  s_fiber_count : Z;
  t_fiber : option Z;
  t_threadFiber : option Z;
  t_scheduler_fiber : option Z;
  cpu : option Z }.

Definition set_fibers (h : gmap Z Fiber) (w : world) : world :=
  mkW h (s_fiber_id w) (s_fiber_count w) (t_fiber w) (t_threadFiber w) (t_scheduler_fiber w) (cpu w).
Definition set_state (s : State) (f : Fiber) : Fiber :=
  mkFiber (id_ f) (stacksize_ f) s (ctx_ f) (stack_ f) (cb_ f).
Definition set_ctx (c : context) (f : Fiber) : Fiber :=
  mkFiber (id_ f) (stacksize_ f) (state_ f) c (stack_ f) (cb_ f).
Definition set_fcb (k : option C) (f : Fiber) : Fiber :=
  mkFiber (id_ f) (stacksize_ f) (state_ f) (ctx_ f) (stack_ f) k.

(** Dereferencing a fiber pointer. *)
Definition deref (p : Z) (w : world) : outcome Fiber :=
  match fibers w !! p with Some f => Ret f | None => Undefined end.
Definition store (p : Z) (f : Fiber) (w : world) : world := set_fibers (<[p := f]> (fibers w)) w.

(** [Fiber::SetThis]. *)
Definition SetThis (f : option Z) (w : world) : world :=
  mkW (fibers w) (s_fiber_id w) (s_fiber_count w) f (t_threadFiber w) (t_scheduler_fiber w) (cpu w).

(** [Fiber::GetFiberId]. *)
Definition GetFiberId (w : world) : outcome Z :=
  match t_fiber w with Some p => f ← deref p w; Ret (id_ f) | None => Ret 0 end.

(** [Fiber::TotalFibers]. *)
Definition TotalFibers (w : world) : Z := s_fiber_count w.

(** [Fiber::Fiber()] at address [p]: the fiber of the thread's own stack. *)
Definition Fiber_main (p : Z) (w : world) : world :=
  mkW (<[p := mkFiber 0 0 EXEC NoContext false None]> (fibers w)) (s_fiber_id w)
      (u64 (s_fiber_count w + 1)) (Some p) (t_threadFiber w) (t_scheduler_fiber w) (cpu w).

(** [Fiber::Fiber(cb, stacksize, use_caller)]; [config] is the value of
    [fiber.stack_size]. *)
Definition Fiber_new (p : Z) (cb : option C) (stacksize config : Z) (use_caller : bool)
    (w : world) : world :=
  let id := u64 (s_fiber_id w + 1) in
  mkW (<[p := mkFiber id (u32 (if stacksize =? 0 then config else stacksize)) INIT
                      (Entry use_caller) true cb]> (fibers w))
      id (u64 (s_fiber_count w + 1)) (t_fiber w) (t_threadFiber w) (t_scheduler_fiber w) (cpu w).

Definition resettable (s : State) : bool :=
  bool_decide (s = TERM) || bool_decide (s = EXCEPT) || bool_decide (s = INIT).

(** [Fiber::~Fiber]. *)
Definition Fiber_delete (p : Z) (w : world) : outcome world :=
  f ← deref p w;
  let w1 := mkW (fibers w) (s_fiber_id w) (u64 (s_fiber_count w - 1)) (t_fiber w)
                (t_threadFiber w) (t_scheduler_fiber w) (cpu w) in
  w2 ← (if stack_ f then _ ← sylar_assert (resettable (state_ f)); Ret w1
        else
          _ ← sylar_assert (null (cb_ f));
          _ ← sylar_assert (bool_decide (state_ f = EXEC));
          Ret (if bool_decide (t_fiber w1 = Some p) then SetThis None w1 else w1));
  Ret (set_fibers (delete p (fibers w2)) w2).

(** [Fiber::reset]. *)
Definition reset (p : Z) (cb : option C) (w : world) : outcome world :=
  f ← deref p w;
  _ ← sylar_assert (stack_ f);
  _ ← sylar_assert (resettable (state_ f));
  Ret (store p (mkFiber (id_ f) (stacksize_ f) INIT (Entry false) (stack_ f) cb) w).

(** [swapcontext(&from->ctx_, &to->ctx_)] called at the place [here]: the
    world once [to] runs, and the place it resumes at. *)
Definition swapcontext (from to : Z) (here : context) (w : world) : outcome (world * context) :=
  f ← deref from w;
  let w1 := store from (set_ctx here f) w in
  t ← deref to w1;
  Ret (mkW (fibers w1) (s_fiber_id w1) (s_fiber_count w1) (t_fiber w1) (t_threadFiber w1)
           (t_scheduler_fiber w1) (Some to), ctx_ t).

(** What the resumed code does first: the statement after the last [swapOut]
    of a main function asserts; an unset context is undefined. *)
Definition resume (r : world * context) : outcome world :=
  match r.2 with
  | InFinal => Assert_fail
  | NoContext => Undefined
  | _ => Ret r.1
  end.

Definition the (p : option Z) : outcome Z := match p with Some p => Ret p | None => Undefined end.

(** [Fiber::call]. *)
Definition call (p : Z) (w : world) : outcome world :=
  let w1 := SetThis (Some p) w in
  m ← the (t_threadFiber w1);
  r ← swapcontext m p InCall w1; resume r.

(** [Fiber::back], from a yield ([InYield]) or the end of [CallerMainFunc]. *)
Definition back (p : Z) (here : context) (w : world) : outcome world :=
  m ← the (t_threadFiber w);
  r ← swapcontext p m here (SetThis (Some m) w); resume r.

(** [Fiber::swapIn]. *)
Definition swapIn (p : Z) (w : world) : outcome world :=
  let w1 := SetThis (Some p) w in
  f ← deref p w1;
  _ ← sylar_assert (bool_decide (state_ f ≠ EXEC));
  m ← the (t_scheduler_fiber w1);
  r ← swapcontext m p InSwapIn (store p (set_state EXEC f) w1); resume r.

(** [Fiber::swapOut]. *)
Definition swapOut (p : Z) (here : context) (w : world) : outcome world :=
  m ← the (t_scheduler_fiber w);
  r ← swapcontext p m here (SetThis (Some m) w); resume r.

(** [Fiber::GetThis]; [fresh] is the address a new thread fiber gets. *)
Definition GetThis (fresh : Z) (w : world) : outcome (world * Z) :=
  match t_fiber w with
  | Some p => Ret (w, p)
  | None =>
      let w1 := Fiber_main fresh w in
      _ ← sylar_assert (bool_decide (t_fiber w1 = Some fresh));
      Ret (mkW (fibers w1) (s_fiber_id w1) (s_fiber_count w1) (t_fiber w1) (Some fresh)
               (t_scheduler_fiber w1) (cpu w1), fresh)
  end.

(** [Fiber::YieldToReady]. *)
Definition YieldToReady (fresh : Z) (w : world) : outcome world :=
  '(w1, cur) ← GetThis fresh w;
  f ← deref cur w1;
  _ ← sylar_assert (bool_decide (state_ f = EXEC));
  swapOut cur InYield (store cur (set_state READY f) w1).

(** [Fiber::YieldToHold]. *)
Definition YieldToHold (fresh : Z) (w : world) : outcome world :=
  '(w1, cur) ← GetThis fresh w;
  f ← deref cur w1;
  _ ← sylar_assert (bool_decide (state_ f = EXEC));
  swapOut cur InYield w1.

(** The end of [MainFunc]: [threw] says whether [cb_()] threw. *)
Definition MainFunc (fresh : Z) (threw : bool) (w : world) : outcome world :=
  '(w1, cur) ← GetThis fresh w;
  f ← deref cur w1;
  let f' := if threw then set_state EXCEPT f else set_state TERM (set_fcb None f) in
  swapOut cur InFinal (store cur f' w1).

(** The end of [CallerMainFunc]. *)
Definition CallerMainFunc (fresh : Z) (threw : bool) (w : world) : outcome world :=
  '(w1, cur) ← GetThis fresh w;
  f ← deref cur w1;
  let f' := if threw then set_state EXCEPT f else set_state TERM (set_fcb None f) in
  back cur InFinal (store cur f' w1).

(** What [Scheduler::run] does with a fiber that came back neither READY nor
    finished (it may write the private field, being a friend). *)
Definition settle (p : Z) (w : world) : outcome world :=
  f ← deref p w; Ret (store p (set_state HOLD f) w).
End Fiber.
Arguments Fiber : clear implicits.
Arguments world : clear implicits.

(** ** The contract of a scheduling thread

    Between its creation and [run]'s end, a scheduler thread is either in its
    own (main) fiber or inside one other; each fiber it knows has a state.  The
    preconditions are those the header documents. *)
Section Contract.
Context {C : Type}.

Inductive op : Type :=
  | OpNew (p : Z) (cb : option C) (stacksize config : Z)
  | OpReset (p : Z) (cb : option C)
  | OpSwapIn (p : Z)
  | OpYieldToReady
  | OpYieldToHold
  | OpFinish (threw : bool)
  | OpSettle (p : Z)
  | OpDelete (p : Z).

Definition run_op (o : op) (w : world C) : outcome (world C) :=
  match o with
  | OpNew p cb s c => Ret (Fiber_new p cb s c false w)
  | OpReset p cb => reset p cb w
  | OpSwapIn p => swapIn p w
  | OpYieldToReady => YieldToReady 0 w
  | OpYieldToHold => YieldToHold 0 w
  | OpFinish threw => MainFunc 0 threw w
  | OpSettle p => settle p w
  | OpDelete p => Fiber_delete p w
  end.

(** The thread's current fiber ([None]: its main fiber) and the states. *)
Definition abs : Type := option Z * gmap Z State.

Definition op_ok (main : Z) (o : op) (a : abs) : Prop :=
  let '(cur, m) := a in
  match o with
  | OpNew p _ _ _ => m !! p = None ∧ p ≠ main
  | OpReset p _ => cur = None ∧ ∃ s, m !! p = Some s ∧ resettable s = true
  | OpSwapIn p => cur = None ∧ (m !! p = Some INIT ∨ m !! p = Some HOLD ∨ m !! p = Some READY)
  | OpYieldToReady | OpYieldToHold | OpFinish _ => is_Some cur
  | OpSettle p => cur = None ∧ m !! p = Some EXEC
  | OpDelete p => cur = None ∧ ∃ s, m !! p = Some s ∧ resettable s = true
  end.

Definition spec_op (o : op) (a : abs) : abs :=
  let '(cur, m) := a in
  match o, cur with
  | OpNew p _ _ _, _ => (cur, <[p := INIT]> m)
  | OpReset p _, _ => (cur, <[p := INIT]> m)
  | OpSwapIn p, _ => (Some p, <[p := EXEC]> m)
  | OpYieldToReady, Some p => (None, <[p := READY]> m)
  | OpYieldToHold, Some p => (None, m)
  | OpFinish threw, Some p => (None, <[p := if threw then EXCEPT else TERM]> m)
  | OpSettle p, _ => (cur, <[p := HOLD]> m)
  | OpDelete p, _ => (cur, delete p m)
  | _, None => a
  end.

(** Where a fiber that is not running resumes, by its state. *)
Definition ctx_of (s : State) : context :=
  match s with
  | INIT => Entry false
  | HOLD | READY | EXEC => InYield
  | TERM | EXCEPT => InFinal
  end.

Record implements (main : Z) (w : world C) (a : abs) : Prop := mk_impl {
  im_sched : t_scheduler_fiber w = Some main;
  im_main : ∃ f, fibers w !! main = Some f ∧ state_ f = EXEC ∧ stack_ f = false ∧ cb_ f = None ∧
                 (a.1 ≠ None → ctx_ f = InSwapIn);
  im_this : t_fiber w = Some (default main a.1);
  im_cpu : cpu w = Some (default main a.1);
  im_fresh : a.2 !! main = None;
  im_cur : ∀ p, a.1 = Some p → a.2 !! p = Some EXEC;
  im_fiber : ∀ p, p ≠ main →
    match a.2 !! p with
    | None => fibers w !! p = None
    | Some s => ∃ f, fibers w !! p = Some f ∧ state_ f = s ∧ stack_ f = true ∧
                     (a.1 ≠ Some p → ctx_ f = ctx_of s)
    end;
  im_count : s_fiber_count w = u64 (Z.of_nat (size a.2) + 1) }.

(** A new thread that called [GetThis] at the start of [run]. *)
Definition world_new (main : Z) : outcome (world C) :=
  '(w, p) ← GetThis main (mkW ∅ 0 0 None None None (Some main));
  Ret (mkW (fibers w) (s_fiber_id w) (s_fiber_count w) (t_fiber w) (t_threadFiber w) (Some p) (cpu w)).

Lemma world_new_ok main : ∃ w, world_new main = Ret w ∧ implements main w (None, ∅).
Proof.
  unfold world_new, GetThis. cbn. rewrite bool_decide_true by done. cbn. eexists. split; [done|].
  split; cbn; try done.
  - rewrite lookup_insert_eq. eexists. split; [done|]. done.
  - intros p Hp. rewrite lookup_empty. by rewrite lookup_insert_ne.
Qed.

Lemma size_insert_same (m : gmap Z State) p s s' : m !! p = Some s → size (<[p := s']> m) = size m.
Proof. intros H. by rewrite map_size_insert_Some. Qed.

(** Leaving the current fiber for the main one: its state is [s] now and it
    resumes at [here]. *)
Lemma leave main w p m s here f' :
  implements main w (Some p, m) → here = ctx_of s → state_ f' = s → stack_ f' = true →
  ∃ w', swapOut p here (store p f' w) = Ret w' ∧ implements main w' (None, <[p := s]> m).
Proof.
  intros Him Hhere Hs Hst. destruct Him as [Hsch (f0 & Hf0 & He & Hk & Hcb & Hctx) Hth Hcpu Hfr Hcur Hfib Hcnt].
  cbn in *. pose proof (Hcur p eq_refl) as Hp.
  assert (Hne : p ≠ main) by congruence.
  unfold swapOut, the. cbn. rewrite Hsch. cbn. unfold swapcontext, deref. cbn.
  rewrite lookup_insert_eq. cbn. rewrite lookup_insert_ne, lookup_insert_ne, Hf0 by done. cbn.
  unfold resume. cbn. rewrite Hctx by done. eexists. split; [done|].
  split; cbn; try done.
  - rewrite !lookup_insert_ne by done. exists f0. done.
  - by rewrite lookup_insert_ne.
  - intros q Hq. destruct (decide (q = p)) as [->|Hqp].
    + rewrite !lookup_insert_eq. eexists. split; [done|]. cbn. done.
    + rewrite !lookup_insert_ne by done. specialize (Hfib q Hq).
      destruct (m !! q); [|done]. destruct Hfib as (f & ? & ? & ? & Hc). exists f.
      split_and!; try done. intros _. apply Hc. congruence.
  - by rewrite (size_insert_same _ _ EXEC).
Qed.

(** Writing a fiber that is not running. *)
Lemma write_other main w cur m p s s' f' :
  implements main w (cur, m) → m !! p = Some s → cur ≠ Some p →
  state_ f' = s' → stack_ f' = true → ctx_ f' = ctx_of s' →
  implements main (store p f' w) (cur, <[p := s']> m).
Proof.
  intros Him Hp Hcp Hs Hst Hc.
  destruct Him as [Hsch Hmain Hth Hcpu Hfr Hcur Hfib Hcnt]. cbn in *.
  assert (Hne : p ≠ main) by congruence. split; cbn; try done.
  - by rewrite lookup_insert_ne.
  - by rewrite lookup_insert_ne.
  - intros q Hq. rewrite lookup_insert_ne by congruence. auto.
  - intros q Hq. destruct (decide (q = p)) as [->|Hqp].
    + rewrite !lookup_insert_eq. by eexists.
    + rewrite !lookup_insert_ne by done. by apply Hfib.
  - by rewrite (size_insert_same _ _ s).
Qed.

(** The object of a fiber that the thread knows. *)
Lemma known main w cur m p s :
  implements main w (cur, m) → m !! p = Some s →
  p ≠ main ∧ ∃ f, deref p w = Ret f ∧ fibers w !! p = Some f ∧
    state_ f = s ∧ stack_ f = true ∧ (cur ≠ Some p → ctx_ f = ctx_of s).
Proof.
  intros Him Hp. pose proof (im_fresh _ _ _ Him) as Hfr. cbn in Hfr. assert (Hpm : p ≠ main) by congruence.
  split; [done|]. pose proof (im_fiber _ _ _ Him p Hpm) as Hf. cbn in Hf. rewrite Hp in Hf.
  destruct Hf as (f & Hf & ? & ? & ?). exists f. unfold deref. by rewrite Hf.
Qed.

(** The current fiber is the one [GetThis] yields. *)
Lemma current main w p m :
  implements main w (Some p, m) →
  GetThis 0 w = Ret (w, p) ∧ m !! p = Some EXEC ∧
  ∃ f, deref p w = Ret f ∧ fibers w !! p = Some f ∧ state_ f = EXEC ∧ stack_ f = true.
Proof.
  intros Him. pose proof (im_cur _ _ _ Him p eq_refl) as Hp. cbn in Hp.
  destruct (known main w (Some p) m p EXEC Him Hp) as (_ & f & ? & ? & ? & ? & _).
  split; [unfold GetThis; by rewrite (im_this _ _ _ Him)|]. split; [done|by exists f].
Qed.

Lemma new_refines main w cur m p k ss cf :
  implements main w (cur, m) → m !! p = None → p ≠ main →
  implements main (Fiber_new p k ss cf false w) (cur, <[p := INIT]> m).
Proof.
  intros [Hsch (f0 & Hf0 & He & Hk & Hcb & Hctx) Hth Hcpu Hfr Hcur Hfib Hcnt] Hnew Hpm. cbn in *.
  split; cbn; try done.
  - rewrite lookup_insert_ne by done. by exists f0.
  - by rewrite lookup_insert_ne.
  - intros q Hq. rewrite lookup_insert_ne by (intros <-; apply Hcur in Hq; congruence). auto.
  - intros q Hq. destruct (decide (q = p)) as [->|Hqp].
    + rewrite !lookup_insert_eq. eexists. split; [done|]. done.
    + rewrite !lookup_insert_ne by done. by apply Hfib.
  - rewrite map_size_insert_None by done. rewrite Hcnt. solve_int.
Qed.

Lemma swapIn_refines main w m p s :
  implements main w (None, m) → m !! p = Some s → s = INIT ∨ s = HOLD ∨ s = READY →
  ∃ w', swapIn p w = Ret w' ∧ implements main w' (Some p, <[p := EXEC]> m).
Proof.
  intros Him Hms Hcase. destruct (known main w None m p s Him Hms) as (Hpm & f & Hd & Hf & Hst & Hsk & Hc).
  destruct Him as [Hsch (f0 & Hf0 & He & Hk & Hcb & Hctx) Hth Hcpu Hfr Hcur Hfib Hcnt]. cbn in *.
  assert (Hne : s ≠ EXEC) by (by destruct Hcase as [->|[->| ->]]).
  unfold swapIn, the. cbn. unfold deref. cbn. rewrite Hf, Hsch. cbn.
  rewrite bool_decide_true by congruence. cbn. unfold swapcontext, deref. cbn.
  rewrite lookup_insert_ne, Hf0 by done. cbn.
  rewrite lookup_insert_ne, lookup_insert_eq by done. cbn. unfold resume. cbn.
  specialize (Hc ltac:(done)). eexists. split.
  { rewrite Hc. by destruct Hcase as [->|[->| ->]]. }
  split; cbn; try done.
  - rewrite lookup_insert_eq. eexists. split; [done|]. done.
  - by rewrite lookup_insert_ne.
  - intros q [= <-]. by rewrite lookup_insert_eq.
  - intros q Hq. destruct (decide (q = p)) as [->|Hqp].
    + rewrite lookup_insert_eq, lookup_insert_ne, lookup_insert_eq by done.
      eexists. split; [done|]. done.
    + rewrite !lookup_insert_ne by done. specialize (Hfib q Hq).
      destruct (m !! q); [|done]. destruct Hfib as (g & ? & ? & ? & Hg). exists g.
      split_and!; try done. intros _. by apply Hg.
  - by rewrite (size_insert_same _ _ s).
Qed.

Lemma delete_refines main w m p s :
  implements main w (None, m) → m !! p = Some s → resettable s = true →
  ∃ w', Fiber_delete p w = Ret w' ∧ implements main w' (None, delete p m).
Proof.
  intros Him Hs Hr. destruct (known main w None m p s Him Hs) as (Hpm & f & Hd & Hf & Hst & Hsk & Hc).
  destruct Him as [Hsch (f0 & Hf0 & He & Hk & Hcb & Hctx) Hth Hcpu Hfr Hcur Hfib Hcnt]. cbn in *.
  unfold Fiber_delete. rewrite Hd. cbn. rewrite Hsk, Hst, Hr. cbn. eexists. split; [done|].
  split; cbn; try done.
  - rewrite lookup_delete_ne by done. by exists f0.
  - by rewrite lookup_delete_ne.
  - intros q Hq. destruct (decide (q = p)) as [->|Hqp]; [by rewrite !lookup_delete_eq|].
    rewrite !lookup_delete_ne by done. by apply Hfib.
  - rewrite map_size_delete_Some by done. rewrite Hcnt.
    assert (size m ≠ 0%nat) by (intros H0; apply map_size_empty_inv in H0; subst; by rewrite lookup_empty in Hs).
    solve_int.
Qed.

Lemma fiber_op_refines main o w a :
  implements main w a → op_ok main o a →
  ∃ w', run_op o w = Ret w' ∧ implements main w' (spec_op o a).
Proof.
  intros Him Hok. destruct a as [cur m].
  destruct o as [p k ss cf|p k|p| | |threw|p|p]; cbn in Hok |- *.
  - destruct Hok as [Hnew Hpm]. eexists. split; [done|]. by apply new_refines.
  - destruct Hok as (-> & s & Hs & Hr). destruct (known main w None m p s Him Hs) as (_ & f & Hd & Hf & Hst & Hsk & _).
    unfold reset. rewrite Hd. cbn. rewrite Hsk, Hst, Hr. cbn. eexists. split; [done|].
    by eapply write_other.
  - destruct Hok as (-> & Hs).
    assert (∃ s, m !! p = Some s ∧ (s = INIT ∨ s = HOLD ∨ s = READY)) as (s & Hms & Hcase) by naive_solver.
    by apply (swapIn_refines main w m p s).
  - destruct Hok as [p ->]. destruct (current main w p m Him) as (Hth & _ & f & Hd & _ & Hst & Hsk).
    unfold YieldToReady. rewrite Hth. cbn. rewrite Hd. cbn.
    rewrite bool_decide_true by done. cbn. by apply leave.
  - destruct Hok as [p ->]. destruct (current main w p m Him) as (Hth & Hp & f & Hd & Hf & Hst & Hsk).
    unfold YieldToHold. rewrite Hth. cbn. rewrite Hd. cbn. rewrite bool_decide_true by done. cbn.
    destruct (leave main w p m EXEC InYield f Him eq_refl Hst Hsk) as (w' & Hw & Him').
    rewrite insert_id in Him' by done. exists w'. split; [|done].
    replace w with (store p f w) at 1; [done|]. unfold store, set_fibers. destruct w. cbn in *.
    by rewrite insert_id.
  - destruct Hok as [p ->]. destruct (current main w p m Him) as (Hth & _ & f & Hd & _ & Hst & Hsk).
    unfold MainFunc. rewrite Hth. cbn. rewrite Hd. cbn.
    apply leave; [done| | |]; by destruct threw.
  - destruct Hok as (-> & Hs). destruct (known main w None m p EXEC Him Hs) as (_ & f & Hd & Hf & Hst & Hsk & Hc).
    unfold settle. rewrite Hd. cbn. eexists. split; [done|]. eapply write_other; try done.
    cbn. by rewrite Hc.
  - destruct Hok as (-> & s & Hs & Hr). by apply (delete_refines main w m p s).
Qed.

Fixpoint run_ops (l : list op) (w : world C) : outcome (world C) :=
  match l with [] => Ret w | o :: l' => w' ← run_op o w; run_ops l' w' end.
Fixpoint ops_ok (main : Z) (l : list op) (a : abs) : Prop :=
  match l with [] => True | o :: l' => op_ok main o a ∧ ops_ok main l' (spec_op o a) end.

(** C14: a scheduling thread that respects the documented preconditions of
    fibers - any sequence of creating, resetting, switching in, yielding,
    finishing, settling and destroying - never fails an assertion: switching in
    runs exactly that fiber, leaving one always returns to the thread's main
    fiber, [GetThis] names the running fiber throughout, states change only as
    the life cycle says, and [TotalFibers] counts the live fibers. *)
Theorem fiber_lifecycle (main : Z) (l : list op) :
  ops_ok main l (None, ∅) →
  ∃ w0 w, world_new main = Ret w0 ∧ run_ops l w0 = Ret w ∧
          implements main w (foldl (λ a o, spec_op o a) (None, ∅) l).
Proof.
  destruct (world_new_ok main) as (w0 & Hw0 & Him). intros Hok. exists w0.
  assert (∃ w, run_ops l w0 = Ret w ∧ implements main w (foldl (λ a o, spec_op o a) (None, ∅) l))
    as (w & ? & ?); [|by exists w].
  clear Hw0. revert w0 Him Hok. generalize (None : option Z, ∅ : gmap Z State) as a.
  induction l as [|o l IH]; intros a w0 Him Hok; [by exists w0|].
  destruct Hok as [Ho Hok]. destruct (fiber_op_refines main o w0 a Him Ho) as (w1 & Hr & Him1).
  destruct (IH _ w1 Him1 Hok) as (w2 & Hr2 & Him2). exists w2. cbn. rewrite Hr. done.
Qed.
End Contract.

Lemma fiber_lifecycle_witness :
  let l : list (op (C := nat)) :=
    [OpNew 2 (Some 7%nat) 0 4096; OpSwapIn 2; OpYieldToHold; OpSettle 2; OpSwapIn 2;
     OpYieldToReady; OpSwapIn 2; OpFinish false; OpReset 2 None; OpDelete 2] in
  ops_ok 1 l (None, ∅) ∧
  ∃ w0 w, world_new 1 = Ret w0 ∧ run_ops l w0 = Ret w ∧
          implements 1 w (foldl (λ a o, spec_op o a) (None, ∅) l).
Proof.
  intros l. assert (Hok : ops_ok 1 l (None, ∅)).
  { cbn. split_and!; try done; try (by eexists); auto; try (by vm_compute; auto);
      eexists; (split; [by vm_compute|done]). }
  split; [exact Hok|]. exact (fiber_lifecycle 1 l Hok).
Defined.
