(* ===== verification/Util.v ===== *)
(** * Backtraces, the clock and dates (util.h, util.cpp)

    [backtrace_symbols], [__cxa_demangle], [strftime], [strptime] and [mktime]
    are arguments; what is modelled is what the code makes of their answers. *)
From S2P Require Import Prelude StringUtil JsonUtil Fiber.

(** ** Backtraces *)

Section Backtrace.
(** [abi::__cxa_demangle]: the text, or [None] for a null pointer. *)
Context (cxa_demangle : str → option str).

Definition NUL : ascii := chr 0.

(** [sscanf(str, "%*[^(]%*[^_]%255[^)+]", &rt[0])] when it answers 1. *)
Definition scan_symbol (s : str) : option str :=
  let not_open c := negb (Ascii.eqb c "(") in
  let not_underscore c := negb (Ascii.eqb c "_") in
  let in_name c := negb (Ascii.eqb c ")" || Ascii.eqb c "+") in
  if null (head (take_while not_open s)) then None
  else
    let s1 := drop_while not_open s in
    if null (head (take_while not_underscore s1)) then None
    else
      match take 255 (take_while in_name (drop_while not_underscore s1)) with
      | [] => None
      | name => Some name
      end.

(** [sscanf(str, "%255s", &rt[0])] when it answers 1. *)
Definition scan_word (s : str) : option str :=
  match take 255 (take_while (λ c, negb (isspace c)) (drop_while isspace s)) with
  | [] => None
  | word => Some word
  end.

(** What [sscanf] leaves in the buffer: the text and a NUL over its start. *)
Definition write_at_start (w rt : str) : str := w ++ [NUL] ++ drop (length w + 1) rt.

Definition demangle (s : str) : str :=
  let rt := replicate 256 NUL in
  let '(found, rt) :=
    match scan_symbol s with
    | Some name => (cxa_demangle name, write_at_start name rt)
    | None => (None, rt)
    end in
  match found with
  | Some v => v
  | None => match scan_word s with Some word => write_at_start word rt | None => s end
  end.

(** [Backtrace]: [strings] is the answer of [backtrace_symbols]; the loop runs
    from [skip] converted to [size_t]. *)
Definition Backtrace (bt : list str) (strings : option (list str)) (skip : Z) : list str :=
  match strings with
  | None => bt
  | Some l =>
      if u64 skip <? Z.of_nat (length l) then bt ++ (demangle <$> drop (Z.to_nat (u64 skip)) l) else bt
  end.

Definition BacktraceToString (strings : option (list str)) (skip : Z) (prefix : str) : str :=
  Backtrace [] strings skip ≫= λ line, prefix ++ line ++ [chr 10].

(** ** What [demangle] answers *)

Lemma take_while_app {A} (f : A → bool) l l' : Forall (λ x, f x = true) l →
  take_while f (l ++ l') = l ++ take_while f l' ∧ drop_while f (l ++ l') = drop_while f l'.
Proof. induction 1 as [|x l Hx _ [IH1 IH2]]; cbn; [done|]. by rewrite Hx, IH1, IH2. Qed.

(** A symbol "path(_name+0x1f) [0x..]" of a mangled name that the library
    knows. *)
Lemma demangle_known path name c rest v :
  path ≠ [] → Forall (λ c, Ascii.eqb c "(" = false) path → (1 ≤ length name ≤ 255)%nat →
  head name = Some "_"%char → Forall (λ c, Ascii.eqb c ")" || Ascii.eqb c "+" = false) name →
  Ascii.eqb c ")" || Ascii.eqb c "+" = true → cxa_demangle name = Some v →
  demangle (path ++ ["("%char] ++ name ++ [c] ++ rest) = v.
Proof.
  intros Hne Hpath Hlen Hhd Hname Hc Hv.
  assert (scan_symbol (path ++ ["("%char] ++ name ++ [c] ++ rest) = Some name) as Hs.
  { unfold scan_symbol.
    destruct (take_while_app (λ c, negb (Ascii.eqb c "(")) path (["("%char] ++ name ++ [c] ++ rest)) as [-> ->].
    { eapply Forall_impl; [exact Hpath|]. by intros x ->. }
    destruct path as [|p path]; [done|]. cbn [app head null]. destruct name as [|n name]; [done|].
    injection Hhd as ->. cbn [take_while drop_while Ascii.eqb Bool.eqb negb app head null].
    destruct (take_while_app (λ c, negb (Ascii.eqb c ")" || Ascii.eqb c "+")) ("_"%char :: name) (c :: rest)) as [Ht _].
    { eapply Forall_impl; [exact Hname|]. by intros x ->. }
    change (("_"%char :: name) ++ c :: rest) with ("_"%char :: name ++ c :: rest) in Ht.
    cbn [take_while] in Ht |- *. rewrite Hc in Ht. cbn [negb] in Ht. rewrite app_nil_r in Ht.
    cbn -[take take_while] in Ht |- *. rewrite Ht. rewrite take_ge by lia. done. }
  unfold demangle. by rewrite Hs, Hv.
Qed.

Lemma write_at_start_length w rt : (length w < length rt)%nat → length (write_at_start w rt) = length rt.
Proof. intros H. unfold write_at_start. rewrite !length_app, length_drop. cbn. lia. Qed.

Lemma scan_symbol_length s name : scan_symbol s = Some name → (length name ≤ 255)%nat.
Proof.
  unfold scan_symbol. repeat case_match; intros; simplify_eq.
  rewrite <-H1, length_take. lia.
Qed.

(** Any other symbol comes back as its first word in a string of 256
    characters: a NUL and what the buffer held follow the word. *)
Lemma demangle_unknown s word : (∀ name, scan_symbol s = Some name → cxa_demangle name = None) →
  scan_word s = Some word → length (demangle s) = 256%nat ∧ ∃ junk, demangle s = word ++ [NUL] ++ junk.
Proof.
  intros Hs Hw. assert (Hword : (length word ≤ 255)%nat).
  { unfold scan_word in Hw. case_match; simplify_eq. rewrite <-H, length_take. lia. }
  assert (∃ rt, length rt = 256%nat ∧ demangle s = write_at_start word rt) as (rt & Hrt & ->).
  { unfold demangle. destruct (scan_symbol s) as [name|] eqn:Hn.
    - rewrite (Hs name eq_refl), Hw. eexists. split; [|done].
      pose proof (scan_symbol_length _ _ Hn). by rewrite write_at_start_length by (rewrite length_replicate; lia).
    - rewrite Hw. eexists. split; [|done]. by rewrite length_replicate. }
  split; [rewrite write_at_start_length; lia|]. unfold write_at_start. eauto.
Qed.

(** One line per frame after the skipped ones. *)
Lemma Backtrace_lines l skip : 0 ≤ skip < 2 ^ 63 →
  Backtrace [] (Some l) skip = demangle <$> drop (Z.to_nat skip) l.
Proof.
  intros H. unfold Backtrace. replace (u64 skip) with skip by solve_int.
  destruct (Z.ltb_spec skip (Z.of_nat (length l))); [done|]. by rewrite drop_ge by lia.
Qed.
End Backtrace.

(** A function of C in a backtrace: the word and 238 characters more. *)
Example demangle_main : take 19 (demangle (λ _, None) ($"./app(main+0x1d) [0x40]")) = $"./app(main+0x1d)" ++ [NUL; NUL; NUL].
Proof. by vm_compute. Qed.

(** ** The clock and dates *)

(** [gettimeofday] answers seconds and microseconds. *)
Definition GetCurrentMS (tv_sec tv_usec : Z) : Z := u64 (tv_sec * 1000 + Z.quot tv_usec 1000).
Definition GetCurrentUS (tv_sec tv_usec : Z) : Z := u64 (tv_sec * 1000 * 1000 + tv_usec).

(** [strftime] into 64 bytes of the local time: [None] when the text does not
    fit, which leaves the buffer as it was, uninitialised. *)
Definition Time2Str (strftime : str → Z → option str) (ts : Z) (format : str) : outcome str :=
  match strftime format ts with
  | Some s => if (length s <? 64)%nat then Ret s else Undefined
  | None => Undefined
  end.

Definition Str2Time {tm} (strptime : str → str → option tm) (mktime : tm → Z) (s format : str) : Z :=
  match strptime s format with None => 0 | Some t => mktime t end.

(** [GetFiberId] of util.cpp narrows the fiber's 64-bit id. *)
Definition GetFiberId32 {C} (w : world C) : outcome Z := z ← GetFiberId w; Ret (u32 z).

(** [GetIPv4]: the first answer is kept in a static variable. *)
Definition GetIPv4_static (ip : option str) (now : str) : option str * str :=
  match ip with Some s => (ip, s) | None => (Some now, now) end.

(** The clock moves with the time of day: a millisecond is a thousandth. *)
Lemma GetCurrentMS_US tv_sec tv_usec : 0 ≤ tv_sec < 2 ^ 40 → 0 ≤ tv_usec < 1000000 →
  GetCurrentMS tv_sec tv_usec = GetCurrentUS tv_sec tv_usec / 1000.
Proof.
  intros Hs Hu. unfold GetCurrentMS, GetCurrentUS. rewrite Z.quot_div_nonneg by lia. unfold u64.
  pose proof (Z.div_pos tv_usec 1000). assert (tv_usec / 1000 < 1000) by (apply Z.div_lt_upper_bound; lia).
  rewrite !Z.mod_small by lia. rewrite <-Z.div_add_l by lia. f_equal.
Qed.
