(* ===== verification/Scheduler.v ===== *)
(** * The N:M scheduler: scheduler.h, scheduler.cpp

    First the operations of one [Scheduler] object, under its mutex.  Then the
    loop of [Scheduler::run] on any number of threads at once: the system is the
    shared scheduler, the state of every fiber and the place of every thread in
    the loop, and a step is what one thread does between two points where
    another may intervene - a critical section, a switch between fibers, an
    update of a counter. *)
From S2P Require Import Prelude JsonUtil Fiber.

Section Scheduler.
(** [C]: non-empty [std::function<void()>] values; fibers by address. *)
Context {C : Type}.

Record FiberAndThread : Type := mkFT { fiber_ : option Z; cb_ : option C; thread_ : Z }.

(** [FiberAndThread()], also the state after [reset]. *)
Definition FT_reset : FiberAndThread := mkFT None None (-1).

Record Scheduler : Type := mkS {
  fibers_ : list FiberAndThread;
  rootFiber_ : option Z;
  threadIds_ : list Z;
  threadCount_ : Z;
  activeThreadCount_ : Z;
  idleThreadCount_ : Z;
  stopping_ : bool;
  autoStop_ : bool;
  rootThread_ : Z }.

Definition set_queue (q : list FiberAndThread) (s : Scheduler) : Scheduler :=
  mkS q (rootFiber_ s) (threadIds_ s) (threadCount_ s) (activeThreadCount_ s) (idleThreadCount_ s)
      (stopping_ s) (autoStop_ s) (rootThread_ s).
Definition add_active (d : Z) (s : Scheduler) : Scheduler :=
  mkS (fibers_ s) (rootFiber_ s) (threadIds_ s) (threadCount_ s) (u64 (activeThreadCount_ s + d))
      (idleThreadCount_ s) (stopping_ s) (autoStop_ s) (rootThread_ s).
Definition add_idle (d : Z) (s : Scheduler) : Scheduler :=
  mkS (fibers_ s) (rootFiber_ s) (threadIds_ s) (threadCount_ s) (activeThreadCount_ s)
      (u64 (idleThreadCount_ s + d)) (stopping_ s) (autoStop_ s) (rootThread_ s).

(** [Scheduler::Scheduler]: [tid] is the calling thread, [current] its
    [t_scheduler], [root] the address of the fiber made for [use_caller]. *)
Definition Scheduler_new (threads : Z) (use_caller : bool) (tid root : Z) (current : option Z) :
    outcome Scheduler :=
  _ ← sylar_assert (0 <? threads);
  if use_caller then
    _ ← sylar_assert (null current);
    Ret (mkS [] (Some root) [tid] (u64 (threads - 1)) 0 0 true false tid)
  else Ret (mkS [] None [] threads 0 0 true false (-1)).

(** [Scheduler::~Scheduler]. *)
Definition Scheduler_delete (s : Scheduler) : outcome unit := sylar_assert (stopping_ s).

(** [Scheduler::start], given the threads it has and the ids of those it
    makes. *)
Definition start (threads : list Z) (new_ids : list Z) (s : Scheduler) :
    outcome (Scheduler * list Z) :=
  if negb (stopping_ s) then Ret (s, threads)
  else
    _ ← sylar_assert (bool_decide (threads = []));
    Ret (mkS (fibers_ s) (rootFiber_ s) (threadIds_ s ++ new_ids) (threadCount_ s)
             (activeThreadCount_ s) (idleThreadCount_ s) false (autoStop_ s) (rootThread_ s), new_ids).

(** [Scheduler::scheduleNoLock]. *)
Definition scheduleNoLock (ft : FiberAndThread) (s : Scheduler) : Scheduler * bool :=
  let need_tickle := bool_decide (fibers_ s = []) in
  if negb (null (fiber_ ft)) || negb (null (cb_ ft))
  then (set_queue (fibers_ s ++ [ft]) s, need_tickle)
  else (s, need_tickle).

(** [Scheduler::schedule]; the flag says whether it calls [tickle]. *)
Definition schedule (ft : FiberAndThread) (s : Scheduler) : Scheduler * bool := scheduleNoLock ft s.

(** [Scheduler::schedule(begin, end)]. *)
Fixpoint schedule_range (l : list FiberAndThread) (s : Scheduler) (need_tickle : bool) :
    Scheduler * bool :=
  match l with
  | [] => (s, need_tickle)
  | ft :: l' =>
      let '(s', b) := scheduleNoLock (mkFT (fiber_ ft) (cb_ ft) (-1)) s in
      schedule_range l' s' (b || need_tickle)
  end.

(** The search of [run] through the queue, on thread [tid]: what stays, what
    was taken, and [tickle_me]. *)
Fixpoint pick (state : Z → State) (tid : Z) (q : list FiberAndThread) :
    outcome (list FiberAndThread * option FiberAndThread * bool) :=
  match q with
  | [] => Ret ([], None, false)
  | it :: r =>
      if negb (thread_ it =? -1) && negb (thread_ it =? tid) then
        '(r', ft, b) ← pick state tid r; Ret (it :: r', ft, true)
      else
        _ ← sylar_assert (negb (null (fiber_ it)) || negb (null (cb_ it)));
        if match fiber_ it with Some f => bool_decide (state f = EXEC) | None => false end then
          '(r', ft, b) ← pick state tid r; Ret (it :: r', ft, b)
        else Ret (r, Some it, negb (bool_decide (r = [])))
  end.

(** [Scheduler::stopping]. *)
Definition stopping (s : Scheduler) : bool :=
  autoStop_ s && stopping_ s && bool_decide (fibers_ s = []) && (activeThreadCount_ s =? 0).

(** [Scheduler::switchTo]: what the caller must still do - nothing, or
    schedule itself on [thread] and yield.  [here] says whether this
    scheduler is the current one. *)
Definition switchTo (current : option Z) (here : bool) (tid thread cur_fiber : Z) :
    outcome (option FiberAndThread) :=
  _ ← sylar_assert (negb (null current));
  if here && ((thread =? -1) || (thread =? tid)) then Ret None
  else Ret (Some (mkFT (Some cur_fiber) None thread)).

(** [SchedulerSwitcher]: switches to [target] if there is one, and back to the
    scheduler that was current when it is destroyed; a scheduler by address. *)
Definition SchedulerSwitcher_new (current target : option Z) (tid cur_fiber : Z) :
    outcome (option Z * option FiberAndThread) :=
  match target with
  | None => Ret (current, None)
  | Some t => r ← switchTo current (bool_decide (current = Some t)) tid (-1) cur_fiber; Ret (current, r)
  end.
Definition SchedulerSwitcher_delete (caller current : option Z) (tid cur_fiber : Z) :
    outcome (option FiberAndThread) :=
  match caller with
  | None => Ret None
  | Some c => switchTo current (bool_decide (current = Some c)) tid (-1) cur_fiber
  end.

(** [Scheduler::dump]. *)
Definition dump (name : str) (s : Scheduler) : str :=
  $"[Scheduler name=" ++ name ++ $" size=" ++ decimal (threadCount_ s) ++
  $" active_count=" ++ decimal (activeThreadCount_ s) ++ $" idle_count=" ++ decimal (idleThreadCount_ s) ++
  $" stopping=" ++ decimal (Z.b2z (stopping_ s)) ++ $" ]" ++ [ascii_of_nat 10] ++ $"    " ++
  match threadIds_ s with
  | [] => []
  | t :: r => decimal t ++ (r ≫= λ t, $", " ++ decimal t)
  end.

(** The guards of [Scheduler::stop]: [root_state] is the state of
    [rootFiber_], [here] whether this is the current thread's scheduler.
    [None]: it returned at once; otherwise the scheduler and whether the root
    fiber is called. *)
Definition stop (root_state : State) (here : bool) (s : Scheduler) : outcome (Scheduler * option bool) :=
  let s1 := mkS (fibers_ s) (rootFiber_ s) (threadIds_ s) (threadCount_ s) (activeThreadCount_ s)
                (idleThreadCount_ s) (stopping_ s) true (rootThread_ s) in
  let s2 := mkS (fibers_ s) (rootFiber_ s) (threadIds_ s) (threadCount_ s) (activeThreadCount_ s)
                (idleThreadCount_ s) true true (rootThread_ s) in
  let alone := negb (null (rootFiber_ s)) && (threadCount_ s =? 0) &&
               (bool_decide (root_state = TERM) || bool_decide (root_state = INIT)) in
  if alone && stopping s2 then Ret (s2, None)
  else
    _ ← sylar_assert (if negb (rootThread_ s =? -1) then here else negb here);
    Ret (s2, Some (negb (null (rootFiber_ s)) && negb (stopping s2))).

(** ** The loop of [run] *)

(** Which of the three [swapIn] calls of the loop a fiber runs under. *)
Inductive kind : Type := KFiber | KCb | KIdle.
#[export] Instance kind_eq : EqDecision kind := ltac:(solve_decision).

(** Where a thread is: at the top of the loop; past the critical section with
    what it took; inside a fiber; inside a fiber that has set its state and is
    about to switch out; back from [swapIn]; past the counter's decrement;
    out of the loop. *)
Inductive point : Type :=
  | Top
  | Picked (ft : option FiberAndThread)
  | Inside (k : kind) (f : Z)
  | Leaving (k : kind) (f : Z)
  | Back (k : kind) (f : Z)
  | Done (k : kind) (f : Z)
  | Exited.

(** A thread: its place and the two fibers [run] keeps. *)
Record thread : Type := mkT { at_ : point; cb_fiber : option Z; idle_fiber : Z }.

Record system : Type := mkSys {
  sch : Scheduler;
  states : gmap Z State;
  threads : gmap Z thread }.

Definition state_of (g : system) (f : Z) : State := default INIT (states g !! f).

(** [Fiber::swapIn] as far as the state goes: a finished fiber resumes after
    its last switch, where the code asserts. *)
Definition swapIn_state (s : State) : outcome State :=
  match s with
  | EXEC | TERM | EXCEPT => Assert_fail
  | _ => Ret EXEC
  end.

(** [Fiber::reset] as far as the state goes. *)
Definition reset_state (s : State) : outcome State :=
  _ ← sylar_assert (resettable s); Ret INIT.

Definition go (t : Z) (x : thread) (g : system) : system :=
  mkSys (sch g) (states g) (<[t := x]> (threads g)).
Definition set_st (f : Z) (s : State) (g : system) : system :=
  mkSys (sch g) (<[f := s]> (states g)) (threads g).
Definition set_sch (s : Scheduler) (g : system) : system := mkSys s (states g) (threads g).

Definition finished (s : State) : bool := bool_decide (s = TERM) || bool_decide (s = EXCEPT).

(** A step of [run] outside any fiber's code; [fresh] is the address a new
    callback fiber gets. *)
Definition run_step (t fresh : Z) (x : thread) (g : system) : outcome system :=
  match at_ x with
  | Top =>
      '(q, ft, _) ← pick (state_of g) t (fibers_ (sch g));
      let s := set_queue q (sch g) in
      Ret (go t (mkT (Picked ft) (cb_fiber x) (idle_fiber x))
             (set_sch (if null ft then s else add_active 1 s) g))
  | Picked (Some ft) =>
      match (match fiber_ ft with
             | Some f => if negb (finished (state_of g f)) then Some f else None
             | None => None
             end), cb_ ft with
      | Some f, _ =>
          s ← swapIn_state (state_of g f);
          Ret (go t (mkT (Inside KFiber f) (cb_fiber x) (idle_fiber x)) (set_st f s g))
      | None, Some _ =>
          let c := match cb_fiber x with Some c => c | None => fresh end in
          s0 ← (if null (cb_fiber x) then Ret INIT else reset_state (state_of g c));
          s ← swapIn_state s0;
          Ret (go t (mkT (Inside KCb c) (Some c) (idle_fiber x)) (set_st c s g))
      | None, None =>
          Ret (go t (mkT Top (cb_fiber x) (idle_fiber x)) (set_sch (add_active (-1) (sch g)) g))
      end
  | Picked None =>
      let i := idle_fiber x in
      if bool_decide (state_of g i = TERM) then Ret (go t (mkT Exited (cb_fiber x) i) g)
      else
        s ← swapIn_state (state_of g i);
        Ret (go t (mkT (Inside KIdle i) (cb_fiber x) i) (set_st i s (set_sch (add_idle 1 (sch g)) g)))
  | Inside _ _ => Ret g
  | Leaving k f => Ret (go t (mkT (Back k f) (cb_fiber x) (idle_fiber x)) g)
  | Back k f =>
      let s := match k with KIdle => add_idle (-1) (sch g) | _ => add_active (-1) (sch g) end in
      Ret (go t (mkT (Done k f) (cb_fiber x) (idle_fiber x)) (set_sch s g))
  | Done KFiber f =>
      let top := mkT Top (cb_fiber x) (idle_fiber x) in
      if bool_decide (state_of g f = READY)
      then Ret (go t top (set_sch (schedule (mkFT (Some f) None (-1)) (sch g)).1 g))
      else if negb (finished (state_of g f)) then Ret (go t top (set_st f HOLD g))
      else Ret (go t top g)
  | Done KCb f =>
      if bool_decide (state_of g f = READY)
      then Ret (go t (mkT Top None (idle_fiber x))
                  (set_sch (schedule (mkFT (Some f) None (-1)) (sch g)).1 g))
      else if finished (state_of g f)
      then s ← reset_state (state_of g f);
           Ret (go t (mkT Top (cb_fiber x) (idle_fiber x)) (set_st f s g))
      else Ret (go t (mkT Top None (idle_fiber x)) (set_st f HOLD g))
  | Done KIdle f =>
      let top := mkT Top (cb_fiber x) (idle_fiber x) in
      if negb (finished (state_of g f)) then Ret (go t top (set_st f HOLD g)) else Ret (go t top g)
  | Exited => Ret g
  end.

(** What a fiber's code does at last: [YieldToReady], [YieldToHold] (or the
    bare [swapOut] of the I/O manager's idle fiber), or its end. *)
Inductive ending : Type := EReady | EHold | EFinish (threw : bool).

Definition body_step (t : Z) (e : ending) (x : thread) (g : system) : outcome system :=
  match at_ x with
  | Inside k f =>
      let leave p := mkT p (cb_fiber x) (idle_fiber x) in
      match e with
      | EReady =>
          _ ← sylar_assert (bool_decide (state_of g f = EXEC));
          Ret (go t (leave (Leaving k f)) (set_st f READY g))
      | EHold =>
          _ ← sylar_assert (bool_decide (state_of g f = EXEC));
          Ret (go t (leave (Back k f)) g)
      | EFinish threw =>
          Ret (go t (leave (Leaving k f)) (set_st f (if threw then EXCEPT else TERM) g))
      end
  | _ => Ret g
  end.

(** [AThread t idle]: thread [t] enters [run] and makes its idle fiber;
    [ACreate f]: someone makes a fiber; [ASchedule]: someone calls
    [schedule]. *)
Inductive action : Type :=
  | AThread (t idle : Z)
  | ACreate (f : Z)
  | ASchedule (ft : FiberAndThread)
  | ARun (t fresh : Z)
  | ABody (t : Z) (e : ending).

Definition step (a : action) (g : system) : outcome system :=
  match a with
  | AThread t idle => Ret (go t (mkT Top None idle) (set_st idle INIT g))
  | ACreate f => Ret (set_st f INIT g)
  | ARun t fresh => match threads g !! t with Some x => run_step t fresh x g | None => Ret g end
  | ABody t e => match threads g !! t with Some x => body_step t e x g | None => Ret g end
  | ASchedule ft => Ret (set_sch (schedule ft (sch g)).1 g)
  end.

Fixpoint steps (l : list action) (g : system) : outcome system :=
  match l with [] => Ret g | a :: l' => g' ← step a g; steps l' g' end.
End Scheduler.
Arguments FiberAndThread : clear implicits.
Arguments Scheduler : clear implicits.
Arguments point : clear implicits.
Arguments thread : clear implicits.
Arguments system : clear implicits.
Arguments action : clear implicits.

(** ** The search of the queue *)

(** An entry the thread may take: not bound to another thread, and not a fiber
    that is executing. *)
Definition eligible {C} (state : Z → State) (tid : Z) (it : FiberAndThread C) : bool :=
  ((thread_ it =? -1) || (thread_ it =? tid)) &&
  negb (match fiber_ it with Some f => bool_decide (state f = EXEC) | None => false end).

Definition entry_ok {C} (it : FiberAndThread C) : bool := negb (null (fiber_ it)) || negb (null (cb_ it)).

Lemma pick_spec {C} (state : Z → State) (tid : Z) (q : list (FiberAndThread C)) :
  Forall (λ it, entry_ok it = true) q →
  (∃ b, pick state tid q = Ret (q, None, b) ∧ Forall (λ it, eligible state tid it = false) q) ∨
  (∃ before it after b, pick state tid q = Ret (before ++ after, Some it, b) ∧
     q = before ++ it :: after ∧ Forall (λ it, eligible state tid it = false) before ∧
     eligible state tid it = true).
Proof.
  induction 1 as [|it q Hit Hq IH]; cbn; [left; by exists false|].
  pose (after_skip := λ (b' : bool → bool) (r : list (FiberAndThread C) * option (FiberAndThread C) * bool),
    let '(r', ft, b) := r in Ret (it :: r', ft, b' b)).
  assert (Hskip : ∀ b', eligible state tid it = false →
    (∃ b, pick state tid q ≫= after_skip b' = Ret (it :: q, None, b) ∧
       Forall (λ it, eligible state tid it = false) (it :: q)) ∨
    (∃ before it0 after b, pick state tid q ≫= after_skip b' = Ret (before ++ after, Some it0, b) ∧
       it :: q = before ++ it0 :: after ∧ Forall (λ it, eligible state tid it = false) before ∧
       eligible state tid it0 = true)).
  { intros b' Hno. destruct IH as [(b & -> & Hall)|(bef & it0 & aft & b & -> & -> & Hbef & Hit0)].
    - left. exists (b' b). split; [done|by constructor].
    - right. exists (it :: bef), it0, aft, (b' b). split_and!; try done. by constructor. }
  destruct (negb (thread_ it =? -1) && negb (thread_ it =? tid)) eqn:Hth.
  - apply (Hskip (λ _, true)). unfold eligible.
    apply andb_true_iff in Hth as [H1%negb_true_iff H2%negb_true_iff]. by rewrite H1, H2.
  - unfold entry_ok in Hit. rewrite Hit. cbn.
    assert (Hel : (thread_ it =? -1) || (thread_ it =? tid) = true).
    { by destruct (thread_ it =? -1), (thread_ it =? tid). }
    destruct (match fiber_ it with Some f => bool_decide (state f = EXEC) | None => false end) eqn:He.
    + apply (Hskip (λ b, b)). unfold eligible. by rewrite He, andb_false_r.
    + right. exists [], it, q, (negb (bool_decide (q = []))). split_and!; try done.
      unfold eligible. by rewrite Hel, He.
Qed.

(** ** The invariant of the concurrent system *)
Section SystemLaws.
Context {C : Type}.
Implicit Types (g : system C) (x : thread C).

(** What a thread holds a fiber as. *)
Inductive claim : Type := CIdle | CPicked | CRunning | CLeaving | CBack | CParked.

(** Where a fiber is, for the invariant: with nobody; in the queue; or held by
    a thread, the flag saying that it is in the queue as well (its next wakeup
    came early). *)
Inductive place : Type :=
  | PFree
  | PQueue
  | PThread (t : Z) (c : claim) (queued : bool).

Definition claims x : list (Z * claim) :=
  let park := match cb_fiber x with Some c => [(c, CParked)] | None => [] end in
  (idle_fiber x, CIdle) ::
  match at_ x with
  | Picked (Some ft) => match fiber_ ft with Some f => [(f, CPicked)] | None => [] end ++ park
  | Inside KFiber f => (f, CRunning) :: park
  | Inside KCb f => [(f, CRunning)]
  | Leaving KFiber f => (f, CLeaving) :: park
  | Leaving KCb f => [(f, CLeaving)]
  | Back KFiber f | Done KFiber f => (f, CBack) :: park
  | Back KCb f | Done KCb f => [(f, CBack)]
  | _ => park
  end.

#[local] Arguments claims : simpl never.
#[local] Arguments swapIn_state : simpl never.

Definition shape x : Prop :=
  match at_ x with
  | Inside k f | Leaving k f | Back k f | Done k f =>
      match k with KCb => cb_fiber x = Some f | KIdle => idle_fiber x = f | KFiber => True end
  | Picked (Some ft) => entry_ok ft = true
  | _ => True
  end.

Definition waiting (s : State) : Prop := s = INIT ∨ s = HOLD ∨ s = READY.
Definition left_ (s : State) : Prop := s = READY ∨ s = TERM ∨ s = EXCEPT.

Definition place_ok (p : place) (s : State) : Prop :=
  match p with
  | PFree => s = INIT ∨ s = HOLD ∨ s = TERM ∨ s = EXCEPT
  | PQueue => waiting s
  | PThread _ CIdle q => q = false
  | PThread _ CPicked q => q = false ∧ waiting s
  | PThread _ CRunning _ => s = EXEC
  | PThread _ CLeaving q => q = false ∧ left_ s
  | PThread _ CBack q => s = EXEC ∨ q = false ∧ left_ s
  | PThread _ CParked q => q = false ∧ s = INIT
  end.

(** The state of a thread's idle fiber, by where the thread is. *)
Definition idle_ok x (s : State) : Prop :=
  match at_ x with
  | Inside KIdle _ => s = EXEC
  | Leaving KIdle _ => s = TERM
  | Back KIdle _ | Done KIdle _ => s = EXEC ∨ s = TERM
  | _ => s = INIT ∨ s = HOLD ∨ s = TERM
  end.

Definition active x : bool :=
  match at_ x with
  | Picked (Some _) => true
  | Inside k _ | Leaving k _ | Back k _ => match k with KIdle => false | _ => true end
  | _ => false
  end.
Definition idling x : bool :=
  match at_ x with
  | Inside KIdle _ | Leaving KIdle _ | Back KIdle _ => true
  | _ => false
  end.
Definition number (f : thread C → bool) (m : gmap Z (thread C)) : Z :=
  Z.of_nat (size (filter (λ tx, f tx.2 = true) m)).

Definition qfibers (q : list (FiberAndThread C)) : list Z := omap fiber_ q.

Record Inv g (loc : gmap Z place) : Prop := mk_Inv {
  iv_entries : Forall (λ it, entry_ok it = true) (fibers_ (sch g));
  iv_nodup : NoDup (qfibers (fibers_ (sch g)));
  iv_queue : ∀ f, f ∈ qfibers (fibers_ (sch g)) ↔
               loc !! f = Some PQueue ∨ ∃ t c, loc !! f = Some (PThread t c true);
  iv_dom : ∀ f, loc !! f = None ↔ states g !! f = None;
  iv_state : ∀ f p s, loc !! f = Some p → states g !! f = Some s → place_ok p s;
  iv_claims : ∀ t x, threads g !! t = Some x →
    shape x ∧ NoDup (claims x).*1 ∧ idle_ok x (state_of g (idle_fiber x)) ∧
    ∀ f c, (f, c) ∈ claims x → ∃ b, loc !! f = Some (PThread t c b);
  iv_owner : ∀ f t c b, loc !! f = Some (PThread t c b) →
    ∃ x, threads g !! t = Some x ∧ (f, c) ∈ claims x;
  iv_active : activeThreadCount_ (sch g) = u64 (number active (threads g));
  iv_idle : idleThreadCount_ (sch g) = u64 (number idling (threads g)) }.

Lemma number_insert_new f m t x :
  m !! t = None → number f (<[t := x]> m) = number f m + Z.b2z (f x).
Proof.
  intros Hx. unfold number. rewrite map_filter_insert; cbn [snd].
  assert (Hd : filter (λ tx : Z * thread C, f tx.2 = true) m !! t = None).
  { apply map_lookup_filter_None. by left. }
  rewrite (delete_id m t) by done.
  destruct (f x) eqn:E1; rewrite ?decide_True, ?decide_False by done; cbn [Z.b2z];
    rewrite ?map_size_insert_None by done; lia.
Qed.

Lemma number_insert f m t x x' :
  m !! t = Some x → number f (<[t := x']> m) = number f m + (Z.b2z (f x') - Z.b2z (f x)).
Proof.
  intros Hx. rewrite <-(insert_delete_id m t x Hx) at 2. rewrite <-insert_delete_eq.
  rewrite !number_insert_new by apply lookup_delete_eq. lia.
Qed.

(** The places a thread [t] may change: its own fibers and those of nobody. *)
Definition mine (t : Z) (p : option place) : Prop :=
  match p with Some (PThread t' _ _) => t' = t | _ => True end.

(** One step of thread [t]: it goes from [x] to [x'], one fiber [f] changes
    state and place, the queue changes at most by [f]. *)
Lemma Inv_update g loc t x x' f s' p' sch' :
  Inv g loc → threads g !! t = Some x →
  mine t (loc !! f) → mine t (Some p') → place_ok p' s' →
  shape x' → NoDup (claims x').*1 → idle_fiber x' = idle_fiber x →
  idle_ok x' (if decide (f = idle_fiber x) then s' else state_of g (idle_fiber x)) →
  (∀ h c, (h, c) ∈ claims x' ↔ h ≠ f ∧ (h, c) ∈ claims x ∨ h = f ∧ ∃ b, p' = PThread t c b) →
  Forall (λ it, entry_ok it = true) (fibers_ sch') → NoDup (qfibers (fibers_ sch')) →
  (∀ h, h ∈ qfibers (fibers_ sch') ↔
     h ≠ f ∧ h ∈ qfibers (fibers_ (sch g)) ∨
     h = f ∧ (p' = PQueue ∨ ∃ c, p' = PThread t c true)) →
  activeThreadCount_ sch' = u64 (activeThreadCount_ (sch g) + (Z.b2z (active x') - Z.b2z (active x))) →
  idleThreadCount_ sch' = u64 (idleThreadCount_ (sch g) + (Z.b2z (idling x') - Z.b2z (idling x))) →
  Inv (mkSys sch' (<[f := s']> (states g)) (<[t := x']> (threads g))) (<[f := p']> loc).
Proof.
  intros HI Hx Hmine Hmine' Hpok Hsh Hnd Hid Hidle Hcl Hent Hqnd Hq Hact Hidl.
  split; cbn.
  - done.
  - done.
  - intros h. rewrite Hq. destruct (decide (h = f)) as [->|Hne].
    + rewrite lookup_insert_eq. split.
      * intros [[? _]|[_ [->|[c ->]]]]; [done|by left|right; by exists t, c].
      * intros [[= ->]|(t' & c & [= ->])]; right; (split; [done|]); [by left|right].
        exists c. cbn in Hmine'. by subst.
    + rewrite lookup_insert_ne by done. rewrite <-(iv_queue _ _ HI h). naive_solver.
  - intros h. destruct (decide (h = f)) as [->|Hne].
    + by rewrite !lookup_insert_eq.
    + rewrite !lookup_insert_ne by done. apply (iv_dom _ _ HI).
  - intros h p s. destruct (decide (h = f)) as [->|Hne].
    + rewrite !lookup_insert_eq. by intros [= <-] [= <-].
    + rewrite !lookup_insert_ne by done. apply (iv_state _ _ HI).
  - intros t' y Hy. destruct (decide (t' = t)) as [->|Ht].
    + rewrite lookup_insert_eq in Hy. injection Hy as <-. split_and!; try done.
      * rewrite Hid. unfold state_of in *. cbn. case_decide as Hdec.
        -- subst f. by rewrite lookup_insert_eq.
        -- by rewrite lookup_insert_ne.
      * intros h c [[Hne Hin]|[-> [b ->]]]%Hcl.
        -- destruct (iv_claims _ _ HI t x Hx) as (_ & _ & _ & H). rewrite lookup_insert_ne by done. auto.
        -- exists b. by rewrite lookup_insert_eq.
    + rewrite lookup_insert_ne in Hy by done.
      destruct (iv_claims _ _ HI t' y Hy) as (H1 & H2 & H3 & H4).
      assert (Hother : ∀ h c, (h, c) ∈ claims y → h ≠ f).
      { intros h c Hin ->. destruct (H4 _ _ Hin) as [b Hb]. rewrite Hb in Hmine. cbn in Hmine. congruence. }
      split_and!; try done.
      * unfold state_of in *. cbn. rewrite lookup_insert_ne; [done|].
        intros Heq. by apply (Hother (idle_fiber y) CIdle); [constructor|].
      * intros h c Hin. rewrite lookup_insert_ne; [auto|]. intros Heq. by apply (Hother h c Hin).
  - intros h t' c b. destruct (decide (h = f)) as [->|Hne].
    + rewrite lookup_insert_eq. intros [= ->]. cbn in Hmine'. subst t'. exists x'.
      rewrite lookup_insert_eq. split; [done|]. apply Hcl. right. split; [done|]. by exists b.
    + rewrite lookup_insert_ne by done. intros Hl.
      destruct (iv_owner _ _ HI h t' c b Hl) as (y & Hy & Hin).
      destruct (decide (t' = t)) as [->|Ht].
      * exists x'. rewrite lookup_insert_eq. split; [done|]. apply Hcl. left. split; [done|]. congruence.
      * exists y. by rewrite lookup_insert_ne.
  - rewrite Hact, (iv_active _ _ HI), (number_insert _ _ _ _ _ Hx). solve_int.
  - rewrite Hidl, (iv_idle _ _ HI), (number_insert _ _ _ _ _ Hx). solve_int.
Qed.

(** The same when no fiber changes: the thread's place and counters only. *)
Lemma Inv_same g loc t x x' sch' :
  Inv g loc → threads g !! t = Some x → shape x' → claims x' = claims x →
  idle_ok x' (state_of g (idle_fiber x)) →
  Forall (λ it, entry_ok it = true) (fibers_ sch') →
  qfibers (fibers_ sch') = qfibers (fibers_ (sch g)) →
  activeThreadCount_ sch' = u64 (activeThreadCount_ (sch g) + (Z.b2z (active x') - Z.b2z (active x))) →
  idleThreadCount_ sch' = u64 (idleThreadCount_ (sch g) + (Z.b2z (idling x') - Z.b2z (idling x))) →
  Inv (mkSys sch' (states g) (<[t := x']> (threads g))) loc.
Proof.
  intros HI Hx Hsh Hcl Hidle Hent Hq Hact Hidl.
  assert (Hid : idle_fiber x' = idle_fiber x) by (unfold claims in Hcl; congruence).
  destruct (iv_claims _ _ HI t x Hx) as (_ & Hnd & _ & Hown). split; cbn; try done.
  - rewrite Hq. apply (iv_nodup _ _ HI).
  - intros f. rewrite Hq. apply (iv_queue _ _ HI).
  - apply (iv_dom _ _ HI).
  - apply (iv_state _ _ HI).
  - intros t' y Hy. destruct (decide (t' = t)) as [->|Ht].
    + rewrite lookup_insert_eq in Hy. injection Hy as <-. rewrite Hcl, Hid.
      split; [exact Hsh|]. split; [exact Hnd|]. split; [exact Hidle|exact Hown].
    + rewrite lookup_insert_ne in Hy by done. apply (iv_claims _ _ HI t' y Hy).
  - intros f t' c b Hl. destruct (iv_owner _ _ HI f t' c b Hl) as (y & Hy & Hin).
    destruct (decide (t' = t)) as [->|Ht].
    + exists x'. rewrite lookup_insert_eq, Hcl. split; [done|]. congruence.
    + exists y. by rewrite lookup_insert_ne.
  - rewrite Hact, (iv_active _ _ HI), (number_insert _ _ _ _ _ Hx). solve_int.
  - rewrite Hidl, (iv_idle _ _ HI), (number_insert _ _ _ _ _ Hx). solve_int.
Qed.

Lemma u64_same z n : z = u64 n → z = u64 (z + 0).
Proof. intros ->. solve_int. Qed.

Lemma counts_same g loc : Inv g loc →
  activeThreadCount_ (sch g) = u64 (activeThreadCount_ (sch g) + 0) ∧
  idleThreadCount_ (sch g) = u64 (idleThreadCount_ (sch g) + 0).
Proof. intros HI. split; eapply u64_same; apply HI. Qed.

(** The place and state of a fiber a thread holds. *)
Lemma held_fiber g loc t x f c :
  Inv g loc → threads g !! t = Some x → (f, c) ∈ claims x →
  ∃ b s, loc !! f = Some (PThread t c b) ∧ states g !! f = Some s ∧ state_of g f = s ∧
         place_ok (PThread t c b) s.
Proof.
  intros HI Hx Hin. destruct (iv_claims _ _ HI t x Hx) as (_ & _ & _ & H).
  destruct (H f c Hin) as [b Hl]. destruct (states g !! f) as [s|] eqn:Hs.
  - exists b, s. unfold state_of. rewrite Hs. split_and!; try done. by eapply (iv_state _ _ HI).
  - apply (iv_dom _ _ HI) in Hs. congruence.
Qed.

Lemma queued_place g loc f :
  Inv g loc → f ∈ qfibers (fibers_ (sch g)) → state_of g f ≠ EXEC →
  loc !! f = Some PQueue ∧ ∃ s, states g !! f = Some s ∧ waiting s.
Proof.
  intros HI Hin Hne. apply (iv_queue _ _ HI) in Hin.
  assert (Hst : ∀ p, loc !! f = Some p → ∃ s, states g !! f = Some s ∧ place_ok p s).
  { intros p Hp. destruct (states g !! f) as [s|] eqn:Hs.
    - exists s. split; [done|]. by eapply (iv_state _ _ HI).
    - apply (iv_dom _ _ HI) in Hs. congruence. }
  destruct Hin as [Hl|(t & c & Hl)]; destruct (Hst _ Hl) as (s & Hs & Hok).
  - split; [done|]. by exists s.
  - unfold state_of in Hne. rewrite Hs in Hne. cbn in *. destruct c; naive_solver.
Qed.

Lemma qfibers_app (a b : list (FiberAndThread C)) : qfibers (a ++ b) = qfibers a ++ qfibers b.
Proof. apply omap_app. Qed.

Lemma claim_unique x f c c' : NoDup (claims x).*1 → (f, c) ∈ claims x → (f, c') ∈ claims x → c = c'.
Proof.
  induction (claims x) as [|[h k] l IH]; intros Hnd H1 H2; [set_solver|].
  apply NoDup_cons in Hnd as [Hn Hnd].
  assert (Hno : ∀ k', (f, k') ∈ l → h ≠ f).
  { intros k' Hk ->. apply Hn. apply list_elem_of_fmap. by exists (f, k'). }
  rewrite elem_of_cons in H1. rewrite elem_of_cons in H2.
  destruct H1 as [H1|H1], H2 as [H2|H2].
  - congruence.
  - apply Hno in H2. congruence.
  - apply Hno in H1. congruence.
  - auto.
Qed.

(** A fiber that a thread holds besides its idle fiber is another fiber. *)
Lemma claim_not_idle g loc t x f c :
  Inv g loc → threads g !! t = Some x → (f, c) ∈ claims x → c ≠ CIdle → f ≠ idle_fiber x.
Proof.
  intros HI Hx Hin Hc ->. apply Hc. destruct (iv_claims _ _ HI t x Hx) as (_ & Hnd & _).
  by apply (claim_unique x (idle_fiber x) c CIdle); [..|constructor].
Qed.

(** Compares the counters and the shape of a thread before and after. *)
Ltac same_thread Hat :=
  try done; cbn; unfold active, idling, claims, idle_ok; cbn; rewrite ?Hat; cbn; try done.

(** The claims of a thread after one of them changed, went, or came. *)
Lemma claims_replace (A B : list (Z * claim)) f c c' t q :
  NoDup (A ++ (f, c) :: B).*1 →
  NoDup (A ++ (f, c') :: B).*1 ∧
  ∀ h k, (h, k) ∈ A ++ (f, c') :: B ↔
    h ≠ f ∧ (h, k) ∈ A ++ (f, c) :: B ∨ h = f ∧ ∃ b, PThread t c' q = PThread t k b.
Proof.
  intros Hnd. rewrite fmap_app, fmap_cons in Hnd. rewrite fmap_app, fmap_cons.
  split; [done|]. apply NoDup_app in Hnd as (_ & Hd & [Hn _]%NoDup_cons).
  assert (HA : ∀ k, (f, k) ∉ A).
  { intros k Hin. apply (Hd f); [apply list_elem_of_fmap; by exists (f, k)|by constructor]. }
  assert (HB : ∀ k, (f, k) ∉ B).
  { intros k Hin. apply Hn. apply list_elem_of_fmap. by exists (f, k). }
  intros h k. rewrite !elem_of_app, !elem_of_cons. split.
  - intros [H|[[= -> ->]|H]].
    + left. split; [intros ->; by apply HA in H|by left].
    + right. split; [done|by exists q].
    + left. split; [intros ->; by apply HB in H|by right; right].
  - intros [[Hne [H|[[= -> ->]|H]]]|[-> [b [= <- <-]]]]; auto; done.
Qed.

Lemma claims_remove (A B : list (Z * claim)) f c p t :
  NoDup (A ++ (f, c) :: B).*1 → (∀ k b, p ≠ PThread t k b) →
  NoDup (A ++ B).*1 ∧
  ∀ h k, (h, k) ∈ A ++ B ↔ h ≠ f ∧ (h, k) ∈ A ++ (f, c) :: B ∨ h = f ∧ ∃ b, p = PThread t k b.
Proof.
  intros Hnd Hp. rewrite fmap_app, fmap_cons in Hnd. rewrite fmap_app.
  apply NoDup_app in Hnd as (HndA & Hd & [Hn HndB]%NoDup_cons). split.
  { apply NoDup_app. split_and!; [done|set_solver|done]. }
  intros h k. rewrite !elem_of_app, !elem_of_cons. split.
  - intros [H|H]; left; (split; [|by auto]); intros ->.
    + apply (Hd f); [apply list_elem_of_fmap; by exists (f, k)|by constructor].
    + apply Hn. apply list_elem_of_fmap. by exists (f, k).
  - intros [[Hne [H|[[= -> ->]|H]]]|[-> [b Hb]]]; auto; [done|by apply Hp in Hb].
Qed.

Lemma claims_add (A B : list (Z * claim)) f c t q :
  NoDup (A ++ B).*1 → (∀ k, (f, k) ∉ A ++ B) →
  NoDup (A ++ (f, c) :: B).*1 ∧
  ∀ h k, (h, k) ∈ A ++ (f, c) :: B ↔
    h ≠ f ∧ (h, k) ∈ A ++ B ∨ h = f ∧ ∃ b, PThread t c q = PThread t k b.
Proof.
  intros Hnd Hf. split.
  - rewrite fmap_app, fmap_cons. rewrite fmap_app in Hnd.
    apply NoDup_app in Hnd as (HndA & Hd & HndB).
    assert (HA : f ∉ A.*1).
    { intros ([? k] & -> & Hin)%list_elem_of_fmap. apply (Hf k). set_solver. }
    assert (HB : f ∉ B.*1).
    { intros ([? k] & -> & Hin)%list_elem_of_fmap. apply (Hf k). set_solver. }
    apply NoDup_app. split_and!; [done|set_solver|by constructor].
  - intros h k. rewrite !elem_of_app, !elem_of_cons. specialize (Hf k).
    rewrite elem_of_app in Hf. split.
    + intros [H|[[= -> ->]|H]].
      * left. split; [intros ->; auto|auto].
      * right. split; [done|by exists q].
      * left. split; [intros ->; auto|auto].
    + intros [[Hne [H|H]]|[-> [b [= <- <-]]]]; auto.
Qed.

(** The claims of a thread that takes fiber [f] from the queue. *)
Lemma claims_picked x f q t B :
  NoDup ((idle_fiber x, CIdle) :: B).*1 → (∀ c, (f, c) ∉ (idle_fiber x, CIdle) :: B) →
  NoDup ((idle_fiber x, CIdle) :: (f, CPicked) :: B).*1 ∧
  ∀ h c, (h, c) ∈ (idle_fiber x, CIdle) :: (f, CPicked) :: B ↔
    h ≠ f ∧ (h, c) ∈ (idle_fiber x, CIdle) :: B ∨ h = f ∧ ∃ b, PThread t CPicked q = PThread t c b.
Proof. intros Hnd Hfree. by apply (claims_add [(idle_fiber x, CIdle)]). Qed.

Lemma step_top_fiber g loc t x bef it f aft sch' :
  Inv g loc → threads g !! t = Some x → at_ x = Top →
  fibers_ (sch g) = bef ++ it :: aft → fiber_ it = Some f → state_of g f ≠ EXEC →
  fibers_ sch' = bef ++ aft → activeThreadCount_ sch' = u64 (activeThreadCount_ (sch g) + 1) →
  idleThreadCount_ sch' = idleThreadCount_ (sch g) →
  Inv (go t (mkT (Picked (Some it)) (cb_fiber x) (idle_fiber x)) (set_sch sch' g))
    (<[f := PThread t CPicked false]> loc).
Proof.
  intros HI Hx Hat Hq Hf Hne Hq' Ha' Hi'. destruct (counts_same g loc HI) as [_ Hi].
  destruct (iv_claims _ _ HI t x Hx) as (_ & Hnd & Hidle & Hown).
  pose proof (iv_entries _ _ HI) as Hent. rewrite Hq, Forall_app, Forall_cons in Hent.
  destruct Hent as (Hbef & Hit & Haft).
  assert (Hqf : qfibers (fibers_ (sch g)) = qfibers bef ++ f :: qfibers aft).
  { rewrite Hq, qfibers_app. cbn. by rewrite Hf. }
  destruct (queued_place g loc f HI) as (Hloc & s & Hs & Hw); [rewrite Hqf; set_solver|done|].
  pose proof (iv_nodup _ _ HI) as Hqnd. rewrite Hqf in Hqnd.
  assert (Hfree : ∀ c, (f, c) ∉ claims x) by (intros c [b' Hb]%Hown; congruence).
  unfold claims in Hnd, Hfree. rewrite Hat in Hnd, Hfree.
  destruct (claims_picked x f false t _ Hnd Hfree) as [Hnd' Hiff].
  unfold set_sch, go. cbn. rewrite <-(insert_id (states g) f s Hs).
  apply (Inv_update g loc t x _ f s (PThread t CPicked false)); same_thread Hat; rewrite ?Hf; try done.
  - by rewrite Hloc.
  - unfold idle_ok in Hidle. rewrite Hat in Hidle. rewrite decide_False; [done|].
    intros ->. eapply Hfree. by constructor.
  - rewrite Hq'. by apply Forall_app.
  - rewrite Hq', qfibers_app. apply NoDup_app in Hqnd as (? & Hd & [? ?]%NoDup_cons).
    apply NoDup_app. split_and!; [done|set_solver|done].
  - intros h. rewrite Hq', qfibers_app, Hqf.
    apply NoDup_app in Hqnd as (_ & Hd & [Hn _]%NoDup_cons). set_solver.
  - by rewrite Hi'.
Qed.

(** From the top of the loop: one entry is taken, or none. *)
Lemma step_top g loc t x fresh :
  Inv g loc → threads g !! t = Some x → at_ x = Top →
  ∃ g' loc', run_step t fresh x g = Ret g' ∧ Inv g' loc'.
Proof.
  intros HI Hx Hat. unfold run_step. rewrite Hat.
  destruct (iv_claims _ _ HI t x Hx) as (Hsh & _ & Hidle & _).
  destruct (counts_same g loc HI) as [Ha Hi].
  unfold idle_ok in Hidle. rewrite Hat in Hidle.
  pose proof (pick_spec (state_of g) t (fibers_ (sch g)) (iv_entries _ _ HI)) as
    [(b & -> & _)|(bef & it & aft & b & -> & Hq & _ & Hel)]; cbn.
  - eexists _, loc. split; [done|]. unfold set_sch, go. cbn.
    apply (Inv_same g loc t x); same_thread Hat. apply HI.
  - pose proof (iv_entries _ _ HI) as Hent. rewrite Hq, Forall_app, Forall_cons in Hent.
    destruct Hent as (Hbef & Hit & Haft).
    destruct (fiber_ it) as [f|] eqn:Hf.
    + eexists _, _. split; [done|].
      apply (step_top_fiber g loc t x bef it f aft); try done. intros He.
      unfold eligible in Hel. rewrite Hf, He in Hel. by apply andb_true_iff in Hel as [_ ?].
    + eexists _, loc. split; [done|]. unfold set_sch, go. cbn.
      apply (Inv_same g loc t x); same_thread Hat.
      * by rewrite Hf.
      * by apply Forall_app.
      * rewrite Hq, !qfibers_app. cbn. by rewrite Hf.
Qed.

(** A fiber held by thread [t] passes from one claim to another, off the
    queue; the queue does not change. *)
Lemma Inv_replace g loc t x x' A B f c c' s' sch' :
  Inv g loc → threads g !! t = Some x →
  claims x = A ++ (f, c) :: B → claims x' = A ++ (f, c') :: B →
  f ∉ qfibers (fibers_ (sch g)) → place_ok (PThread t c' false) s' → shape x' →
  idle_ok x' (if decide (f = idle_fiber x) then s' else state_of g (idle_fiber x)) →
  fibers_ sch' = fibers_ (sch g) →
  activeThreadCount_ sch' = u64 (activeThreadCount_ (sch g) + (Z.b2z (active x') - Z.b2z (active x))) →
  idleThreadCount_ sch' = u64 (idleThreadCount_ (sch g) + (Z.b2z (idling x') - Z.b2z (idling x))) →
  idle_fiber x' = idle_fiber x →
  Inv (mkSys sch' (<[f := s']> (states g)) (<[t := x']> (threads g))) (<[f := PThread t c' false]> loc).
Proof.
  intros HI Hx Hcl Hcl' Hnq Hok Hsh Hidle Hq Ha Hi Hid.
  destruct (iv_claims _ _ HI t x Hx) as (_ & Hnd & _ & Hown).
  destruct (Hown f c) as [b Hb]; [rewrite Hcl; set_solver|].
  rewrite Hcl in Hnd. destruct (claims_replace A B f c c' t false Hnd) as [Hnd' Hiff].
  eapply (Inv_update g loc t x); try done; rewrite ?Hcl', ?Hcl, ?Hq; try done.
  - by rewrite Hb.
  - apply HI.
  - apply HI.
  - intros h. split.
    + intros Hin. left. split; [intros ->; done|done].
    + intros [[_ Hin]|[-> [?|[k ?]]]]; done.
Qed.

Lemma not_queued g loc f t c b :
  Inv g loc → loc !! f = Some (PThread t c b) → b = false → f ∉ qfibers (fibers_ (sch g)).
Proof.
  intros HI Hl -> Hin. apply (iv_queue _ _ HI) in Hin as [?|(t' & c' & ?)]; congruence.
Qed.

Lemma fresh_place g loc f : Inv g loc → states g !! f = None →
  loc !! f = None ∧ f ∉ qfibers (fibers_ (sch g)) ∧
  ∀ t x c, threads g !! t = Some x → (f, c) ∉ claims x.
Proof.
  intros HI Hs. assert (Hl : loc !! f = None) by (by apply (iv_dom _ _ HI)). split; [done|]. split.
  - intros Hin. apply (iv_queue _ _ HI) in Hin as [?|(?&?&?)]; congruence.
  - intros t x c Hx Hin. destruct (iv_claims _ _ HI t x Hx) as (_ & _ & _ & H).
    destruct (H f c Hin). congruence.
Qed.

(** Into a taken fiber. *)
Lemma step_picked_fiber g loc t x ft f :
  Inv g loc → threads g !! t = Some x → at_ x = Picked (Some ft) → fiber_ ft = Some f →
  finished (state_of g f) = false ∧ swapIn_state (state_of g f) = Ret EXEC ∧
  Inv (go t (mkT (Inside KFiber f) (cb_fiber x) (idle_fiber x)) (set_st f EXEC g))
    (<[f := PThread t CRunning false]> loc).
Proof.
  intros HI Hx Hat Hf. destruct (iv_claims _ _ HI t x Hx) as (_ & _ & Hidle & _).
  destruct (counts_same g loc HI) as [Ha Hi].
  assert (Hin : (f, CPicked) ∈ claims x) by (unfold claims; rewrite Hat, Hf; set_solver).
  destruct (held_fiber g loc t x f CPicked) as (b & s & Hl & Hs & Hso & -> & Hw); [done..|].
  rewrite Hso. split_and!; [by destruct Hw as [->|[->| ->]]..|].
  unfold set_st, go. cbn. unfold idle_ok in Hidle. rewrite Hat in Hidle.
  eapply (Inv_replace g loc t x _ [(idle_fiber x, CIdle)]); same_thread Hat.
  - by rewrite Hf.
  - by eapply not_queued.
  - rewrite decide_False; [done|]. by apply (claim_not_idle g loc t x f CPicked).
Qed.

(** Into the parked callback fiber, or into a new one. *)
Lemma step_picked_parked g loc t x ft c :
  Inv g loc → threads g !! t = Some x → at_ x = Picked (Some ft) → fiber_ ft = None →
  cb_fiber x = Some c →
  reset_state (state_of g c) = Ret INIT ∧
  Inv (go t (mkT (Inside KCb c) (Some c) (idle_fiber x)) (set_st c EXEC g))
    (<[c := PThread t CRunning false]> loc).
Proof.
  intros HI Hx Hat Hf Hc. destruct (iv_claims _ _ HI t x Hx) as (_ & _ & Hidle & _).
  destruct (counts_same g loc HI) as [Ha Hi].
  assert (Hin : (c, CParked) ∈ claims x) by (unfold claims; rewrite Hat, Hf, Hc; set_solver).
  destruct (held_fiber g loc t x c CParked) as (b & s & Hl & Hs & Hso & -> & ->); [done..|].
  rewrite Hso. split; [done|]. unfold set_st, go. cbn. unfold idle_ok in Hidle. rewrite Hat in Hidle.
  eapply (Inv_replace g loc t x _ [(idle_fiber x, CIdle)] []); same_thread Hat.
  - by rewrite Hf, Hc.
  - by eapply not_queued.
  - rewrite decide_False; [done|]. by apply (claim_not_idle g loc t x c CParked).
Qed.

Lemma step_picked_new g loc t x ft fresh :
  Inv g loc → threads g !! t = Some x → at_ x = Picked (Some ft) → fiber_ ft = None →
  cb_fiber x = None → states g !! fresh = None →
  Inv (go t (mkT (Inside KCb fresh) (Some fresh) (idle_fiber x)) (set_st fresh EXEC g))
    (<[fresh := PThread t CRunning false]> loc).
Proof.
  intros HI Hx Hat Hf Hc Hs. destruct (iv_claims _ _ HI t x Hx) as (_ & Hnd & Hidle & _).
  destruct (counts_same g loc HI) as [Ha Hi].
  destruct (fresh_place g loc fresh HI Hs) as (Hl & Hnq & Hfree).
  specialize (λ c, Hfree t x c Hx). unfold claims in Hnd, Hfree. rewrite Hat, Hf, Hc in Hnd, Hfree.
  destruct (claims_add [(idle_fiber x, CIdle)] [] fresh CRunning t false Hnd Hfree) as [Hnd' Hiff].
  unfold set_st, go. cbn. unfold idle_ok in Hidle. rewrite Hat in Hidle.
  eapply (Inv_update g loc t x _ fresh EXEC (PThread t CRunning false)); same_thread Hat;
    rewrite ?Hf, ?Hc; try done; try apply HI.
  - by rewrite Hl.
  - rewrite decide_False; [done|]. intros ->. eapply Hfree. by constructor.
  - intros h. split; [intros Hin; left; split; [by intros ->|done]|].
    intros [[_ Hin]|[-> [?|[k' ?]]]]; done.
Qed.

(** From a taken entry into a fiber. *)
Lemma step_picked g loc t x fresh ft :
  Inv g loc → threads g !! t = Some x → at_ x = Picked (Some ft) → states g !! fresh = None →
  ∃ g' loc', run_step t fresh x g = Ret g' ∧ Inv g' loc'.
Proof.
  intros HI Hx Hat Hfresh. unfold run_step. rewrite Hat.
  destruct (iv_claims _ _ HI t x Hx) as (Hsh & _). unfold shape in Hsh. rewrite Hat in Hsh.
  destruct (fiber_ ft) as [f|] eqn:Hf.
  - destruct (step_picked_fiber g loc t x ft f) as (Hfin & Hsw & HI'); [done..|].
    rewrite Hfin. cbn. rewrite Hsw. by eexists _, _.
  - destruct (cb_ ft) as [k|] eqn:Hk; [|unfold entry_ok in Hsh; by rewrite Hf, Hk in Hsh].
    destruct (cb_fiber x) as [c|] eqn:Hc; cbn.
    + destruct (step_picked_parked g loc t x ft c) as [Hr HI']; [done..|]. rewrite Hr. by eexists _, _.
    + eexists _, _. split; [done|]. by apply (step_picked_new g loc t x ft fresh).
Qed.

(** Into the idle fiber, or out of the loop. *)
Lemma step_idle g loc t x fresh :
  Inv g loc → threads g !! t = Some x → at_ x = Picked None →
  ∃ g' loc', run_step t fresh x g = Ret g' ∧ Inv g' loc'.
Proof.
  intros HI Hx Hat. unfold run_step. rewrite Hat.
  destruct (iv_claims _ _ HI t x Hx) as (Hsh & Hnd & Hidle & Hown).
  destruct (counts_same g loc HI) as [Ha Hi].
  assert (Hcl : claims x = (idle_fiber x, CIdle) ::
            match cb_fiber x with Some c => [(c, CParked)] | None => [] end)
    by (unfold claims; by rewrite Hat).
  destruct (held_fiber g loc t x (idle_fiber x) CIdle) as (b & s & Hl & Hs & Hso & ->);
    [done|done|rewrite Hcl; by constructor|].
  unfold idle_ok in Hidle. rewrite Hat, Hso in Hidle. rewrite Hso.
  case_bool_decide as Hterm.
  - eexists _, loc. split; [done|]. unfold go. cbn.
    apply (Inv_same g loc t x); try done; cbn; unfold active, idling; rewrite ?Hat; cbn; try done.
    + unfold idle_ok. cbn. by rewrite Hso.
    + apply HI.
  - assert (Hsw : swapIn_state s = Ret EXEC) by (destruct Hidle as [->|[->| ->]]; done).
    rewrite Hsw. cbn. eexists _, _. split; [done|]. unfold set_st, set_sch, go. cbn.
    assert (Hnq : idle_fiber x ∉ qfibers (fibers_ (sch g))) by (by eapply not_queued).
    eapply (Inv_replace g loc t x _ [] _ (idle_fiber x) CIdle CIdle); try done; cbn;
      unfold active, idling; rewrite ?Hat; cbn; try done.
    unfold idle_ok. cbn. by rewrite decide_True.
Qed.

(** Out of a fiber, and past the decrement. *)
Lemma step_leaving g loc t x fresh k f :
  Inv g loc → threads g !! t = Some x → at_ x = Leaving k f →
  ∃ g' loc', run_step t fresh x g = Ret g' ∧ Inv g' loc'.
Proof.
  intros HI Hx Hat. unfold run_step. rewrite Hat.
  destruct (iv_claims _ _ HI t x Hx) as (Hsh & Hnd & Hidle & Hown).
  destruct (counts_same g loc HI) as [Ha Hi].
  unfold shape in Hsh. rewrite Hat in Hsh. unfold idle_ok in Hidle. rewrite Hat in Hidle.
  eexists. destruct k.
  - destruct (held_fiber g loc t x f CLeaving) as (b & s & Hl & Hs & Hso & -> & Hleft);
      [done|done|unfold claims; rewrite Hat; set_solver|].
    eexists. split; [done|]. unfold go. rewrite <-(insert_id (states g) f s Hs).
    eapply (Inv_replace g loc t x _ [(idle_fiber x, CIdle)] _ f CLeaving CBack); try done;
      unfold claims, active, idling, idle_ok; cbn; rewrite ?Hat; try done; [| |].
    + by eapply not_queued.
    + by right.
    + rewrite decide_False; [done|]. intros ->.
      destruct (Hown (idle_fiber x) CIdle) as [b' Hb']; [by constructor|]. congruence.
  - destruct (held_fiber g loc t x f CLeaving) as (b & s & Hl & Hs & Hso & -> & Hleft);
      [done|done|unfold claims; rewrite Hat; set_solver|].
    eexists. split; [done|]. unfold go. rewrite <-(insert_id (states g) f s Hs).
    eapply (Inv_replace g loc t x _ [(idle_fiber x, CIdle)] _ f CLeaving CBack); try done;
      unfold claims, active, idling, idle_ok; cbn; rewrite ?Hat; try done; [| |].
    + by eapply not_queued.
    + by right.
    + rewrite decide_False; [done|]. intros ->.
      destruct (Hown (idle_fiber x) CIdle) as [b' Hb']; [by constructor|]. congruence.
  - exists loc. split; [done|]. unfold go.
    apply (Inv_same g loc t x); try done; unfold claims, active, idling, idle_ok; cbn; rewrite ?Hat; try done.
    + by right.
    + apply HI.
Qed.

Lemma step_back g loc t x fresh k f :
  Inv g loc → threads g !! t = Some x → at_ x = Back k f →
  ∃ g' loc', run_step t fresh x g = Ret g' ∧ Inv g' loc'.
Proof.
  intros HI Hx Hat. unfold run_step. rewrite Hat.
  destruct (iv_claims _ _ HI t x Hx) as (Hsh & Hnd & Hidle & Hown).
  destruct (counts_same g loc HI) as [Ha Hi].
  unfold shape in Hsh. rewrite Hat in Hsh. unfold idle_ok in Hidle. rewrite Hat in Hidle.
  eexists _, loc. split; [done|]. unfold go, set_sch. cbn.
  apply (Inv_same g loc t x); try done; unfold shape, claims, active, idling, idle_ok; cbn;
    rewrite ?Hat; destruct k; try done; apply HI.
Qed.

(** A fiber held by thread [t] goes free, or is in the queue. *)
Lemma Inv_release g loc t x x' A B f s' p' sch' :
  Inv g loc → threads g !! t = Some x →
  claims x = A ++ (f, CBack) :: B → claims x' = A ++ B → p' = PFree ∨ p' = PQueue →
  place_ok p' s' → shape x' → idle_fiber x' = idle_fiber x →
  idle_ok x' (if decide (f = idle_fiber x) then s' else state_of g (idle_fiber x)) →
  Forall (λ it, entry_ok it = true) (fibers_ sch') → NoDup (qfibers (fibers_ sch')) →
  (∀ h, h ∈ qfibers (fibers_ sch') ↔
     h ≠ f ∧ h ∈ qfibers (fibers_ (sch g)) ∨ h = f ∧ p' = PQueue) →
  activeThreadCount_ sch' = u64 (activeThreadCount_ (sch g) + (Z.b2z (active x') - Z.b2z (active x))) →
  idleThreadCount_ sch' = u64 (idleThreadCount_ (sch g) + (Z.b2z (idling x') - Z.b2z (idling x))) →
  Inv (mkSys sch' (<[f := s']> (states g)) (<[t := x']> (threads g))) (<[f := p']> loc).
Proof.
  intros HI Hx Hcl Hcl' Hp Hok Hsh Hid Hidle Hent Hqnd Hq Ha Hi.
  destruct (iv_claims _ _ HI t x Hx) as (_ & Hnd & _ & Hown).
  destruct (Hown f CBack) as [b Hb]; [rewrite Hcl; set_solver|].
  rewrite Hcl in Hnd.
  destruct (claims_remove A B f CBack p' t Hnd) as [Hnd' Hiff]; [by destruct Hp as [-> | ->]|].
  eapply (Inv_update g loc t x); try done; rewrite ?Hcl', ?Hcl; try done.
  - by rewrite Hb.
  - by destruct Hp as [-> | ->].
  - intros h. rewrite Hq. split.
    + intros [?|[-> ->]]; auto.
    + intros [?|[-> [->|[c ->]]]]; auto. by destruct Hp.
Qed.

(** The queue of [schedule] for a fiber that was not in it. *)
Lemma schedule_fiber g f th :
  (schedule (mkFT (Some f) None th) (sch g)).1 =
    set_queue (fibers_ (sch g) ++ [mkFT (Some f) None th]) (sch g).
Proof. done. Qed.

(** Back at the top from a fiber that ran, for the three cases of its state. *)
Lemma step_done_release g loc t x x' A B f :
  Inv g loc → threads g !! t = Some x →
  claims x = A ++ (f, CBack) :: B → claims x' = A ++ B → shape x' → idle_fiber x' = idle_fiber x →
  f ≠ idle_fiber x → idle_ok x' (state_of g (idle_fiber x)) →
  active x' = active x → idling x' = idling x →
  (state_of g f = READY →
     ∃ loc', Inv (go t x' (set_sch (schedule (mkFT (Some f) None (-1)) (sch g)).1 g)) loc') ∧
  (state_of g f ≠ READY → finished (state_of g f) = false → ∃ loc', Inv (go t x' (set_st f HOLD g)) loc') ∧
  (finished (state_of g f) = true → ∃ loc', Inv (go t x' g) loc').
Proof.
  intros HI Hx Hcl Hcl' Hsh Hid Hfi Hidle Hact Hidl.
  destruct (counts_same g loc HI) as [Ha Hi].
  destruct (held_fiber g loc t x f CBack) as (b & s & Hl & Hs & Hso & Hok);
    [done|done|rewrite Hcl; set_solver|].
  assert (Hqf : f ∈ qfibers (fibers_ (sch g)) ↔ b = true).
  { rewrite (iv_queue _ _ HI). split; [|intros ->; right; by eexists _, _].
    intros [?|(?&?&?)]; congruence. }
  assert (Hq : ∀ p', (p' = PQueue ↔ b = true) → ∀ h, h ∈ qfibers (fibers_ (sch g)) ↔
     h ≠ f ∧ h ∈ qfibers (fibers_ (sch g)) ∨ h = f ∧ p' = PQueue).
  { intros p' Hp h. destruct (decide (h = f)) as [->|]; [|naive_solver]. rewrite Hqf, Hp. naive_solver. }
  rewrite Hso. split_and!.
  - intros ->. cbn in Hok. destruct Hok as [|[-> _]]; [done|].
    eexists. unfold go, set_sch. rewrite schedule_fiber. cbn. rewrite <-(insert_id (states g) f READY Hs).
    assert (Hn : f ∉ qfibers (fibers_ (sch g))) by (rewrite Hqf; done).
    eapply (Inv_release g loc t x x' A B f READY PQueue); try done; cbn; rewrite ?Hact, ?Hidl, ?Z.sub_diag; try done.
    + by right.
    + right; by right.
    + by rewrite decide_False.
    + apply Forall_app. split; [apply HI|by repeat constructor].
    + rewrite qfibers_app. apply NoDup_app. split; [apply HI|]. cbn. split; [set_solver|].
      apply NoDup_singleton.
    + intros h. rewrite qfibers_app. cbn. set_solver.
  - intros Hnr Hnf. cbn in Hok. assert (s = EXEC) as ->.
    { destruct Hok as [|[_ [->|[->| ->]]]]; done. }
    eexists. unfold go, set_st. cbn.
    eapply (Inv_release g loc t x x' A B f HOLD (if b then PQueue else PFree)); try done; cbn;
      rewrite ?Hact, ?Hidl, ?Z.sub_diag; try done; try apply HI.
    + destruct b; auto.
    + destruct b; cbn; [right; by left|auto].
    + by rewrite decide_False.
    + apply Hq. by destruct b.
  - intros Hf. cbn in Hok. assert (b = false ∧ (s = TERM ∨ s = EXCEPT)) as [-> Hte].
    { destruct Hok as [->|[-> [->|[->| ->]]]]; auto; done. }
    eexists. unfold go. rewrite <-(insert_id (states g) f s Hs).
    eapply (Inv_release g loc t x x' A B f s PFree); try done; cbn;
      rewrite ?Hact, ?Hidl, ?Z.sub_diag; try done; try apply HI; auto.
    + by rewrite decide_False.
    + by apply Hq.
Qed.

(** What a thread holds back from a fiber, by what it ran. *)
Lemma claims_done x k f : at_ x = Done k f → k ≠ KIdle →
  claims x = [(idle_fiber x, CIdle)] ++ (f, CBack) ::
    match k with KFiber => match cb_fiber x with Some c => [(c, CParked)] | None => [] end | _ => [] end.
Proof. intros Hat Hk. unfold claims. rewrite Hat. by destruct k. Qed.

(** Back at the top from the callback fiber that finished: it is parked. *)
Lemma step_done_park g loc t x f :
  Inv g loc → threads g !! t = Some x → at_ x = Done KCb f → finished (state_of g f) = true →
  reset_state (state_of g f) = Ret INIT ∧
  Inv (go t (mkT Top (cb_fiber x) (idle_fiber x)) (set_st f INIT g)) (<[f := PThread t CParked false]> loc).
Proof.
  intros HI Hx Hat Hf. destruct (iv_claims _ _ HI t x Hx) as (Hsh & _ & Hidle & _).
  destruct (counts_same g loc HI) as [Ha Hi].
  unfold shape in Hsh. unfold idle_ok in Hidle. rewrite Hat in Hsh, Hidle.
  assert (Hin : (f, CBack) ∈ claims x) by (rewrite (claims_done x KCb f) by done; set_solver).
  destruct (held_fiber g loc t x f CBack) as (b & s & Hl & Hs & Hso & Hok); [done..|].
  rewrite Hso in Hf |- *. assert (b = false ∧ resettable s = true) as [-> Hres].
  { cbn in Hok. destruct Hok as [->|[-> [->|[->| ->]]]]; done. }
  split; [unfold reset_state; by rewrite Hres|]. unfold go, set_st. cbn.
  eapply (Inv_replace g loc t x _ [(idle_fiber x, CIdle)] [] f CBack CParked); same_thread Hat.
  - by rewrite Hsh.
  - by eapply not_queued.
  - rewrite decide_False; [done|]. by apply (claim_not_idle g loc t x f CBack).
Qed.

(** Back at the top from a fiber or from a callback. *)
Lemma step_done_ran g loc t x fresh k f :
  Inv g loc → threads g !! t = Some x → at_ x = Done k f → k ≠ KIdle →
  ∃ g' loc', run_step t fresh x g = Ret g' ∧ Inv g' loc'.
Proof.
  intros HI Hx Hat Hk. unfold run_step. rewrite Hat.
  destruct (iv_claims _ _ HI t x Hx) as (Hsh & _ & Hidle & _).
  unfold shape in Hsh. unfold idle_ok in Hidle. rewrite Hat in Hsh, Hidle.
  pose proof (claims_done x k f Hat Hk) as Hcl.
  assert (Hfi : f ≠ idle_fiber x) by (apply (claim_not_idle g loc t x f CBack); try done; rewrite Hcl; set_solver).
  pose (x' := mkT (C := C) Top (match k with KFiber => cb_fiber x | _ => None end) (idle_fiber x)).
  assert (Hcl' : claims x' = [(idle_fiber x, CIdle)] ++
    match k with KFiber => match cb_fiber x with Some c => [(c, CParked)] | None => [] end | _ => [] end)
    by (by destruct k).
  destruct (step_done_release g loc t x x' _ _ f HI Hx Hcl Hcl') as (H1 & H2 & H3);
    try done; try (subst x'; unfold active, idling; by rewrite Hat; destruct k).
  { subst x'. by destruct k. }
  destruct k; [..|done]; (case_bool_decide as Hr; [destruct (H1 Hr) as [loc' ?]; by eexists _, loc'|]);
    destruct (finished (state_of g f)) eqn:Hf; cbn.
  - destruct (H3 eq_refl) as [loc' ?]. by eexists _, loc'.
  - destruct (H2 Hr eq_refl) as [loc' ?]. by eexists _, loc'.
  - destruct (step_done_park g loc t x f) as [Hres HI']; [done..|]. rewrite Hres. by eexists _, _.
  - destruct (H2 Hr eq_refl) as [loc' ?]. by eexists _, loc'.
Qed.

(** Back at the top from the idle fiber. *)
Lemma step_done_idle g loc t x fresh f :
  Inv g loc → threads g !! t = Some x → at_ x = Done KIdle f →
  ∃ g' loc', run_step t fresh x g = Ret g' ∧ Inv g' loc'.
Proof.
  intros HI Hx Hat. unfold run_step. rewrite Hat.
  destruct (iv_claims _ _ HI t x Hx) as (Hsh & _ & Hidle & _).
  destruct (counts_same g loc HI) as [Ha Hi].
  unfold shape in Hsh. unfold idle_ok in Hidle. rewrite Hat in Hsh, Hidle. subst f.
  destruct (held_fiber g loc t x (idle_fiber x) CIdle) as (b & s & Hl & Hs & Hso & ->);
    [done|done|unfold claims; by constructor|].
  rewrite Hso in Hidle. rewrite Hso. destruct (finished s) eqn:Hf; cbn.
  - eexists _, loc. split; [done|]. unfold go.
    apply (Inv_same g loc t x); same_thread Hat; [|apply HI].
    rewrite Hso. destruct Hidle as [->| ->]; [done|auto].
  - eexists _, _. split; [done|]. unfold go, set_st. cbn.
    eapply (Inv_replace g loc t x _ [] _ (idle_fiber x) CIdle CIdle); same_thread Hat.
    + by eapply not_queued.
    + rewrite decide_True by done. auto.
Qed.

Lemma step_done g loc t x fresh k f :
  Inv g loc → threads g !! t = Some x → at_ x = Done k f →
  ∃ g' loc', run_step t fresh x g = Ret g' ∧ Inv g' loc'.
Proof.
  destruct k; [| |apply step_done_idle]; intros; by eapply step_done_ran.
Qed.

(** A running fiber yields to hold: it may be in the queue already. *)
Lemma Inv_hold g loc t x x' A B f :
  Inv g loc → threads g !! t = Some x →
  claims x = A ++ (f, CRunning) :: B → claims x' = A ++ (f, CBack) :: B →
  shape x' → idle_fiber x' = idle_fiber x → f ≠ idle_fiber x →
  idle_ok x' (state_of g (idle_fiber x)) → active x' = active x → idling x' = idling x →
  ∃ loc', Inv (go t x' g) loc'.
Proof.
  intros HI Hx Hcl Hcl' Hsh Hid Hfi Hidle Hact Hidl.
  destruct (counts_same g loc HI) as [Ha Hi].
  destruct (iv_claims _ _ HI t x Hx) as (_ & Hnd & _ & Hown).
  destruct (held_fiber g loc t x f CRunning) as (b & s & Hl & Hs & Hso & ->);
    [done|done|rewrite Hcl; set_solver|].
  rewrite Hcl in Hnd. destruct (claims_replace A B f CRunning CBack t b Hnd) as [Hnd' Hiff].
  assert (Hqf : f ∈ qfibers (fibers_ (sch g)) ↔ b = true).
  { rewrite (iv_queue _ _ HI). split; [|intros ->; right; by eexists _, _].
    intros [?|(?&?&?)]; congruence. }
  eexists. unfold go. rewrite <-(insert_id (states g) f EXEC Hs).
  eapply (Inv_update g loc t x x' f EXEC (PThread t CBack b)); try done;
    rewrite ?Hcl', ?Hcl, ?Hact, ?Hidl, ?Z.sub_diag; try done; try apply HI.
  - by rewrite Hl.
  - by left.
  - by rewrite decide_False.
  - intros h. destruct (decide (h = f)) as [->|]; [rewrite Hqf|naive_solver].
    split; [intros ->; right; split; [done|right; by eexists]|].
    intros [[? _]|[_ [|[c [= _ ->]]]]]; done.
Qed.

(** What the program promises.  A thread, a fiber and a callback fiber are made
    at addresses not in use; a fiber is scheduled only while it is fresh, held
    or executing, is not in the queue or already taken, and is not one of the
    loop's own parked fibers; a fiber with a wakeup still in the queue does not
    finish or yield to ready; the idle function yields to hold or returns. *)
Definition legal (a : action C) g : Prop :=
  match a with
  | AThread t idle => threads g !! t = None ∧ states g !! idle = None
  | ACreate f => states g !! f = None
  | ASchedule ft =>
      match fiber_ ft with
      | None => True
      | Some f =>
          (states g !! f = Some INIT ∨ states g !! f = Some HOLD ∨ states g !! f = Some EXEC) ∧
          f ∉ qfibers (fibers_ (sch g)) ∧
          ∀ t x, threads g !! t = Some x →
            idle_fiber x ≠ f ∧ (f, CPicked) ∉ claims x ∧ (f, CParked) ∉ claims x
      end
  | ARun t fresh => states g !! fresh = None
  | ABody t e =>
      ∀ x k f, threads g !! t = Some x → at_ x = Inside k f →
        match k with
        | KIdle => e = EHold ∨ e = EFinish false
        | _ => e = EHold ∨ f ∉ qfibers (fibers_ (sch g))
        end
  end.

(** The claims of a thread inside a fiber or a callback, and of the same thread
    at [Leaving] and [Back]. *)
Definition ran_rest x (k : kind) : list (Z * claim) :=
  match k with KFiber => match cb_fiber x with Some c => [(c, CParked)] | None => [] end | _ => [] end.

Lemma claims_inside x k f : at_ x = Inside k f → k ≠ KIdle →
  claims x = [(idle_fiber x, CIdle)] ++ (f, CRunning) :: ran_rest x k ∧
  claims (mkT (Leaving k f) (cb_fiber x) (idle_fiber x)) = [(idle_fiber x, CIdle)] ++ (f, CLeaving) :: ran_rest x k ∧
  claims (mkT (Back k f) (cb_fiber x) (idle_fiber x)) = [(idle_fiber x, CIdle)] ++ (f, CBack) :: ran_rest x k.
Proof. intros Hat Hk. unfold claims. rewrite Hat. by destruct k. Qed.

Lemma inside_exec g loc t x k f :
  Inv g loc → threads g !! t = Some x → at_ x = Inside k f → k ≠ KIdle →
  state_of g f = EXEC ∧ f ≠ idle_fiber x ∧
  shape (mkT (Leaving k f) (cb_fiber x) (idle_fiber x)) ∧
  idle_ok (mkT Top None (idle_fiber x)) (state_of g (idle_fiber x)).
Proof.
  intros HI Hx Hat Hk. destruct (iv_claims _ _ HI t x Hx) as (Hsh & _ & Hidle & _).
  unfold shape in Hsh. unfold idle_ok in Hidle. rewrite Hat in Hsh, Hidle.
  assert (Hin : (f, CRunning) ∈ claims x)
    by (destruct (claims_inside x k f Hat Hk) as [-> _]; set_solver).
  destruct (held_fiber g loc t x f CRunning) as (b & s & Hl & Hs & Hso & ->); [done..|].
  split_and!; [done|by apply (claim_not_idle g loc t x f CRunning)|by destruct k|].
  unfold idle_ok. cbn. by destruct k.
Qed.

(** The code of a fiber ends, or yields to ready, in state [s']. *)
Lemma body_leaves g loc t x k f s' :
  Inv g loc → threads g !! t = Some x → at_ x = Inside k f → k ≠ KIdle →
  f ∉ qfibers (fibers_ (sch g)) → left_ s' →
  Inv (go t (mkT (Leaving k f) (cb_fiber x) (idle_fiber x)) (set_st f s' g))
    (<[f := PThread t CLeaving false]> loc).
Proof.
  intros HI Hx Hat Hk Hnq Hs'. destruct (counts_same g loc HI) as [Ha Hi].
  destruct (inside_exec g loc t x k f HI Hx Hat Hk) as (Hst & Hfi & Hsh & Hio).
  destruct (claims_inside x k f Hat Hk) as (Hcl & Hcl' & _). unfold go, set_st. cbn.
  eapply (Inv_replace g loc t x _ _ _ f CRunning CLeaving); try done; cbn;
    unfold active, idling, idle_ok; rewrite ?Hat; destruct k; cbn; try done; by rewrite decide_False.
Qed.

(** It yields to hold. *)
Lemma body_holds g loc t x k f :
  Inv g loc → threads g !! t = Some x → at_ x = Inside k f → k ≠ KIdle →
  ∃ loc', Inv (go t (mkT (Back k f) (cb_fiber x) (idle_fiber x)) g) loc'.
Proof.
  intros HI Hx Hat Hk.
  destruct (inside_exec g loc t x k f HI Hx Hat Hk) as (Hst & Hfi & Hsh & Hio).
  destruct (claims_inside x k f Hat Hk) as (Hcl & _ & Hcl').
  apply (Inv_hold g loc t x _ _ _ f HI Hx Hcl Hcl'); try done; try (by destruct k);
    unfold active, idling; by rewrite Hat; destruct k.
Qed.

(** The idle function yields to hold or returns. *)
Lemma body_idle g loc t x f e :
  Inv g loc → threads g !! t = Some x → at_ x = Inside KIdle f → e = EHold ∨ e = EFinish false →
  ∃ g' loc', body_step t e x g = Ret g' ∧ Inv g' loc'.
Proof.
  intros HI Hx Hat He. unfold body_step. rewrite Hat.
  destruct (iv_claims _ _ HI t x Hx) as (Hsh & _ & Hidle & _).
  destruct (counts_same g loc HI) as [Ha Hi].
  unfold shape in Hsh. unfold idle_ok in Hidle. rewrite Hat in Hsh, Hidle. subst f.
  destruct He as [-> | ->].
  - rewrite Hidle. cbn. eexists _, loc. split; [done|]. unfold go.
    apply (Inv_same g loc t x); same_thread Hat; [by left|apply HI].
  - destruct (held_fiber g loc t x (idle_fiber x) CIdle) as (b & s & Hl & Hs & Hso & ->);
      [done|done|unfold claims; by constructor|].
    eexists _, _. split; [done|]. unfold go, set_st. cbn.
    eapply (Inv_replace g loc t x _ [] _ (idle_fiber x) CIdle CIdle); same_thread Hat.
    + by eapply not_queued.
    + by rewrite decide_True.
Qed.

Lemma step_body g loc t x e :
  Inv g loc → threads g !! t = Some x → legal (ABody t e) g →
  ∃ g' loc', body_step t e x g = Ret g' ∧ Inv g' loc'.
Proof.
  intros HI Hx Hlegal. destruct (at_ x) as [| |k f| | | |] eqn:Hat;
    try (unfold body_step; rewrite Hat; by exists g, loc).
  specialize (Hlegal x k f Hx Hat).
  destruct (decide (k = KIdle)) as [->|Hk]; [by eapply body_idle|].
  assert (Hq : e = EHold ∨ f ∉ qfibers (fibers_ (sch g))) by (by destruct k).
  destruct (inside_exec g loc t x k f HI Hx Hat Hk) as (Hst & _).
  unfold body_step. rewrite Hat, Hst. destruct e as [| |threw]; cbn.
  - destruct Hq as [|Hq]; [done|]. eexists _, _. split; [done|].
    apply body_leaves; try done. by left.
  - destruct (body_holds g loc t x k f) as [loc' ?]; [done..|]. by eexists _, loc'.
  - destruct Hq as [|Hq]; [done|]. eexists _, _. split; [by destruct k|].
    apply body_leaves; try done. destruct threw; [by right; right|by right; left].
Qed.

#[local] Arguments qfibers : simpl never.

(** Only the idle fiber is claimed as idle. *)
Lemma claims_idle x f : (f, CIdle) ∈ claims x → f = idle_fiber x.
Proof.
  unfold claims. intros [[= ->]|Hin]%elem_of_cons; [done|]. exfalso. revert Hin.
  destruct (at_ x) as [|[ft|]|[]|[]|[]|[]|], (cb_fiber x); try destruct (fiber_ ft); cbn;
    rewrite ?elem_of_cons, elem_of_nil; naive_solver.
Qed.

(** Where a fiber is after [schedule] has put it in the queue. *)
Lemma schedule_place g loc f p :
  Inv g loc → loc !! f = Some p →
  states g !! f = Some INIT ∨ states g !! f = Some HOLD ∨ states g !! f = Some EXEC →
  f ∉ qfibers (fibers_ (sch g)) →
  (∀ t x, threads g !! t = Some x → idle_fiber x ≠ f ∧ (f, CPicked) ∉ claims x ∧ (f, CParked) ∉ claims x) →
  ∃ p', (p' = PQueue ∨ ∃ t c, p = PThread t c false ∧ p' = PThread t c true) ∧
    (∀ s, states g !! f = Some s → place_ok p' s) ∧
    (∀ t c b, p = PThread t c b ↔ p' = PThread t c true ∧ b = false).
Proof.
  intros HI Hl Hst Hnq Hth. destruct p as [| |t c b].
  - exists PQueue. split_and!; [by left| |naive_solver]. intros s Hs.
    pose proof (iv_state _ _ HI f _ s Hl Hs) as Hpok. cbn in *. unfold waiting.
    destruct Hst as [He|[He|He]]; rewrite Hs in He; injection He as ->; naive_solver.
  - exfalso. apply Hnq. apply (iv_queue _ _ HI). by left.
  - assert (b = false) as ->.
    { destruct b; [|done]. exfalso. apply Hnq. apply (iv_queue _ _ HI). right. by eexists _, _. }
    exists (PThread t c true). split_and!; [right; by eexists _, _| |naive_solver].
    intros s Hs. destruct (iv_owner _ _ HI f t c false Hl) as (x & Hx & Hin).
    destruct (Hth t x Hx) as (Hi & Hpk & Hpa).
    pose proof (iv_state _ _ HI f _ s Hl Hs) as Hpok. rewrite Hs in Hst. unfold left_ in *.
    destruct c; cbn in *; try done.
    + by apply claims_idle in Hin as ->.
    + destruct Hpok as [_ [->|[->| ->]]]; naive_solver.
    + destruct Hpok as [->|[_ [->|[->| ->]]]]; naive_solver.
Qed.

(** A call of [schedule] from anywhere. *)
Lemma step_schedule g loc ft :
  Inv g loc → legal (ASchedule ft) g → ∃ loc', Inv (set_sch (schedule ft (sch g)).1 g) loc'.
Proof.
  intros HI Hlegal. unfold set_sch, schedule, scheduleNoLock.
  destruct (entry_ok ft) eqn:Hok; unfold entry_ok in Hok; rewrite Hok; cbn.
  2:{ exists loc. by destruct g. }
  assert (Hent : Forall (λ it, entry_ok it = true) (fibers_ (sch g) ++ [ft])).
  { apply Forall_app. split; [apply HI|by repeat constructor]. }
  cbn in Hlegal. destruct (fiber_ ft) as [f|] eqn:Hf.
  2:{ assert (Hq : qfibers (fibers_ (sch g) ++ [ft]) = qfibers (fibers_ (sch g))).
      { rewrite qfibers_app. unfold qfibers at 2. cbn. rewrite Hf. by rewrite app_nil_r. }
      exists loc. split; cbn; rewrite ?Hq; try done; apply HI. }
  destruct Hlegal as (Hst & Hnq & Hth).
  assert (Hq : qfibers (fibers_ (sch g) ++ [ft]) = qfibers (fibers_ (sch g)) ++ [f]).
  { rewrite qfibers_app. unfold qfibers at 2. cbn. by rewrite Hf. }
  destruct (loc !! f) as [p|] eqn:Hl.
  2:{ apply (iv_dom _ _ HI) in Hl. rewrite Hl in Hst. naive_solver. }
  destruct (schedule_place g loc f p) as (p' & Hp' & Hpok & Hiff); [done..|].
  exists (<[f := p']> loc). split; cbn; rewrite ?Hq.
  - done.
  - apply NoDup_app. split; [apply HI|]. split; [set_solver|apply NoDup_singleton].
  - intros h. rewrite elem_of_app, list_elem_of_singleton. destruct (decide (h = f)) as [->|Hne].
    + rewrite lookup_insert_eq. split; [|by right]. intros _.
      destruct Hp' as [->|(t & c & _ & ->)]; [by left|right; by eexists _, _].
    + rewrite lookup_insert_ne by done. rewrite (iv_queue _ _ HI). naive_solver.
  - intros h. destruct (decide (h = f)) as [->|Hne].
    + rewrite lookup_insert_eq. split; [done|]. intros Hn. rewrite Hn in Hst. naive_solver.
    + rewrite lookup_insert_ne by done. apply (iv_dom _ _ HI).
  - intros h q s. destruct (decide (h = f)) as [->|Hne].
    + rewrite lookup_insert_eq. intros [= <-]. apply Hpok.
    + rewrite lookup_insert_ne by done. apply (iv_state _ _ HI).
  - intros t x Hx. destruct (iv_claims _ _ HI t x Hx) as (H1 & H2 & H3 & H4). split_and!; try done.
    intros h c Hin. destruct (H4 h c Hin) as [b Hb]. destruct (decide (h = f)) as [->|Hne].
    + rewrite lookup_insert_eq. rewrite Hl in Hb. injection Hb as Hb. apply Hiff in Hb as [-> _]. by eexists.
    + rewrite lookup_insert_ne by done. by exists b.
  - intros h t c b. destruct (decide (h = f)) as [->|Hne].
    + rewrite lookup_insert_eq. intros [= ->]. destruct Hp' as [|(t' & c' & -> & [= <- <- ->])]; [done|].
      by eapply (iv_owner _ _ HI).
    + rewrite lookup_insert_ne by done. apply (iv_owner _ _ HI).
  - apply HI.
  - apply HI.
Qed.

Lemma step_create g loc f :
  Inv g loc → states g !! f = None → ∃ loc', Inv (set_st f INIT g) loc'.
Proof.
  intros HI Hs. destruct (fresh_place g loc f HI Hs) as (Hl & Hnq & Hcl).
  exists (<[f := PFree]> loc). split; cbn; try apply HI.
  - intros h. rewrite (iv_queue _ _ HI). destruct (decide (h = f)) as [->|].
    + rewrite lookup_insert_eq, Hl. naive_solver.
    + by rewrite lookup_insert_ne.
  - intros h. destruct (decide (h = f)) as [->|]; [by rewrite !lookup_insert_eq|].
    rewrite !lookup_insert_ne by done. apply (iv_dom _ _ HI).
  - intros h p s. destruct (decide (h = f)) as [->|].
    + rewrite !lookup_insert_eq. intros [= <-] [= <-]. by left.
    + rewrite !lookup_insert_ne by done. apply (iv_state _ _ HI).
  - intros t x Hx. destruct (iv_claims _ _ HI t x Hx) as (H1 & H2 & H3 & H4). split_and!; try done.
    + unfold state_of in *. cbn. rewrite lookup_insert_ne; [done|].
      intros Heq. apply (Hcl t x CIdle Hx). rewrite Heq. unfold claims. by constructor.
    + intros h c Hin. rewrite lookup_insert_ne; [auto|]. intros ->. by eapply Hcl.
  - intros h t c b. destruct (decide (h = f)) as [->|]; [by rewrite lookup_insert_eq|].
    rewrite lookup_insert_ne by done. apply (iv_owner _ _ HI).
Qed.

Lemma step_thread g loc t i :
  Inv g loc → threads g !! t = None → states g !! i = None →
  ∃ loc', Inv (go t (mkT Top None i) (set_st i INIT g)) loc'.
Proof.
  intros HI Ht Hs. destruct (fresh_place g loc i HI Hs) as (Hl & Hnq & Hcl).
  exists (<[i := PThread t CIdle false]> loc). split; cbn; try apply HI.
  - intros h. rewrite (iv_queue _ _ HI). destruct (decide (h = i)) as [->|].
    + rewrite lookup_insert_eq, Hl. naive_solver.
    + by rewrite lookup_insert_ne.
  - intros h. destruct (decide (h = i)) as [->|]; [by rewrite !lookup_insert_eq|].
    rewrite !lookup_insert_ne by done. apply (iv_dom _ _ HI).
  - intros h p s. destruct (decide (h = i)) as [->|].
    + rewrite !lookup_insert_eq. by intros [= <-] [= <-].
    + rewrite !lookup_insert_ne by done. apply (iv_state _ _ HI).
  - intros t' x. destruct (decide (t' = t)) as [->|].
    + rewrite lookup_insert_eq. intros [= <-]. split_and!; [done| | |].
      * unfold claims. cbn. apply NoDup_singleton.
      * unfold state_of, idle_ok. cbn. rewrite lookup_insert_eq. by left.
      * intros h c Hin. unfold claims in Hin. cbn in Hin. apply list_elem_of_singleton in Hin.
        injection Hin as -> ->. rewrite lookup_insert_eq. by eexists.
    + rewrite lookup_insert_ne by done. intros Hx.
      destruct (iv_claims _ _ HI t' x Hx) as (H1 & H2 & H3 & H4). split_and!; try done.
      * unfold state_of in *. cbn. rewrite lookup_insert_ne; [done|].
        intros Heq. apply (Hcl t' x CIdle Hx). rewrite Heq. unfold claims. by constructor.
      * intros h c Hin. rewrite lookup_insert_ne; [auto|]. intros ->. by eapply Hcl.
  - intros h t' c b. destruct (decide (h = i)) as [->|].
    + rewrite lookup_insert_eq. intros [= -> <- <-]. eexists. rewrite lookup_insert_eq.
      split; [done|]. unfold claims. by constructor.
    + rewrite lookup_insert_ne by done. intros Hlh.
      destruct (iv_owner _ _ HI h t' c b Hlh) as (x & Hx & Hin). exists x.
      rewrite lookup_insert_ne by congruence. done.
  - rewrite (iv_active _ _ HI), number_insert_new by done. cbn. f_equal. lia.
  - rewrite (iv_idle _ _ HI), number_insert_new by done. cbn. f_equal. lia.
Qed.

(** A legal action neither fails nor breaks the invariant. *)
Lemma step_safe a g loc : Inv g loc → legal a g → ∃ g' loc', step a g = Ret g' ∧ Inv g' loc'.
Proof.
  intros HI Hl. destruct a as [t i|f|ft|t fresh|t e]; cbn [step].
  - destruct Hl. destruct (step_thread g loc t i) as [loc' ?]; [done..|]. by eexists _, loc'.
  - destruct (step_create g loc f) as [loc' ?]; [done..|]. by eexists _, loc'.
  - destruct (step_schedule g loc ft) as [loc' ?]; [done..|]. by eexists _, loc'.
  - destruct (threads g !! t) as [x|] eqn:Hx; [|by exists g, loc].
    destruct (at_ x) as [|[ft|]|k f|k f|k f|k f|] eqn:Hat.
    + by eapply step_top.
    + by eapply step_picked.
    + by eapply step_idle.
    + unfold run_step. rewrite Hat. by exists g, loc.
    + by eapply step_leaving.
    + by eapply step_back.
    + by eapply step_done.
    + unfold run_step. rewrite Hat. by exists g, loc.
  - destruct (threads g !! t) as [x|] eqn:Hx; [|by exists g, loc]. by eapply step_body.
Qed.

(** A new scheduler before any thread has entered [run]. *)
Definition system_new (s : Scheduler C) : system C := mkSys s ∅ ∅.

Definition quiet (s : Scheduler C) : Prop :=
  fibers_ s = [] ∧ activeThreadCount_ s = 0 ∧ idleThreadCount_ s = 0.

Lemma system_new_Inv s : quiet s → Inv (system_new s) ∅.
Proof.
  intros (Hq & Ha & Hi). split; cbn; rewrite ?Hq, ?Ha, ?Hi; try done.
  - constructor.
  - intros f. rewrite lookup_empty. cbn. split; [set_solver|naive_solver].
Qed.

Fixpoint legal_run (l : list (action C)) g : Prop :=
  match l with
  | [] => True
  | a :: l' => legal a g ∧ ∀ g', step a g = Ret g' → legal_run l' g'
  end.

(** The fiber a thread is executing: between its [swapIn] and the point where
    the loop has dealt with it. *)
Definition executing x : option Z :=
  match at_ x with
  | Inside _ f | Leaving _ f | Back _ f | Done _ f => Some f
  | _ => None
  end.

Lemma executing_claim x f : shape x → executing x = Some f → ∃ c, (f, c) ∈ claims x.
Proof.
  intros Hsh. unfold executing, shape, claims in *.
  destruct (at_ x) as [|[ft|]|[]|[]|[]|[]|]; try done; intros [= <-];
    try (by eexists; constructor; constructor); eexists; rewrite <-Hsh; by constructor.
Qed.

(** A legal run neither fails nor breaks the invariant. *)
Lemma legal_run_safe l : ∀ g loc, Inv g loc → legal_run l g → ∃ g' loc', steps l g = Ret g' ∧ Inv g' loc'.
Proof.
  induction l as [|a l IH]; intros g loc HI Hlegal; [by exists g, loc|].
  destruct Hlegal as [Ha Hl]. destruct (step_safe a g loc HI Ha) as (g1 & loc1 & Hs & HI1).
  destruct (IH g1 loc1 HI1 (Hl g1 Hs)) as (g2 & loc2 & Hs2 & HI2). exists g2, loc2.
  cbn. by rewrite Hs.
Qed.

Lemma exec_unique g loc t t' x x' f :
  Inv g loc → threads g !! t = Some x → threads g !! t' = Some x' →
  executing x = Some f → executing x' = Some f → t = t'.
Proof.
  intros HI Hx Hx' He He'.
  destruct (iv_claims _ _ HI t x Hx) as (Hsh & _ & _ & H).
  destruct (iv_claims _ _ HI t' x' Hx') as (Hsh' & _ & _ & H').
  destruct (executing_claim x f Hsh He) as [c Hc]. destruct (executing_claim x' f Hsh' He') as [c' Hc'].
  destruct (H f c Hc), (H' f c' Hc'). congruence.
Qed.

(** C3: the run loop keeps the scheduler's promises under every
    interleaving, given those of the program (the condition [legal]): new threads
    and fibers get unused addresses; a fiber is scheduled only while it is fresh,
    held or executing, and not while it is in the queue, taken from it but not yet
    run, or one the loop keeps for itself; a fiber with a wakeup in the queue
    neither ends nor yields to ready before it has been run for it; and the idle
    function yields to hold or returns.  Then, whatever threads run the loop,
    whatever is scheduled and however fibers yield or end, no assertion fails; a
    fiber is executed by at most one thread at a time; [activeThreadCount_] and
    [idleThreadCount_] count the threads with a task and the idle ones; and
    [stopping] answers true only when the queue is empty and no thread is working
    on a task.  Two of the promises are shown to be needed in
    [double_schedule_asserts] and [ended_with_wakeup_asserts]. *)
Theorem scheduler_safe (s : Scheduler C) (l : list (action C)) :
  quiet s → legal_run l (system_new s) →
  ∃ g, steps l (system_new s) = Ret g ∧
    (∀ t t' x x' f, threads g !! t = Some x → threads g !! t' = Some x' →
       executing x = Some f → executing x' = Some f → t = t') ∧
    activeThreadCount_ (sch g) = u64 (number active (threads g)) ∧
    idleThreadCount_ (sch g) = u64 (number idling (threads g)) ∧
    (stopping (sch g) = true → Z.of_nat (size (threads g)) < 2 ^ 64 →
       fibers_ (sch g) = [] ∧ ∀ t x, threads g !! t = Some x → active x = false).
Proof.
  intros Hquiet Hlegal.
  destruct (legal_run_safe l (system_new s) ∅ (system_new_Inv s Hquiet) Hlegal) as (g & loc & Hsteps & HI).
  exists g. split; [done|]. split_and!.
  - intros t t' x x' f Hx Hx'. by eapply exec_unique.
  - apply HI.
  - apply HI.
  - intros Hstop Hsz. unfold stopping in Hstop.
    apply andb_true_iff in Hstop as [[_ Hq%bool_decide_eq_true]%andb_true_iff Ha%Z.eqb_eq].
    split; [done|]. intros t x Hx. destruct (active x) eqn:Hact; [|done]. exfalso.
    rewrite (iv_active _ _ HI) in Ha. unfold number in Ha.
    set (m := filter (λ tx : Z * thread C, active tx.2 = true) (threads g)) in *.
    assert (Hm : m !! t = Some x) by (by apply map_lookup_filter_Some).
    assert (Hle : (size m ≤ size (threads g))%nat) by (apply map_subseteq_size, map_filter_subseteq).
    assert (size m ≠ 0%nat).
    { intros H0. apply map_size_empty_inv in H0. rewrite H0 in Hm. by rewrite lookup_empty in Hm. }
    solve_int.
Qed.
End SystemLaws.

(** [run] takes the first entry of the queue that is not bound to another
    thread and not a fiber in execution, and leaves the others in their order;
    with no such entry the queue is unchanged. *)
Theorem pick_first_eligible {C} (state : Z → State) (tid : Z) (q : list (FiberAndThread C)) :
  Forall (λ it, entry_ok it = true) q →
  (∃ b, pick state tid q = Ret (q, None, b) ∧ Forall (λ it, eligible state tid it = false) q) ∨
  (∃ before it after b, pick state tid q = Ret (before ++ after, Some it, b) ∧
     q = before ++ it :: after ∧ Forall (λ it, eligible state tid it = false) before ∧
     eligible state tid it = true).
Proof. apply pick_spec. Qed.

Lemma pick_first_eligible_witness :
  let q : list (FiberAndThread nat) := [mkFT (Some 1) None 7; mkFT (Some 2) None (-1); mkFT None (Some 5%nat) 3] in
  let state f := if f =? 2 then EXEC else HOLD in
  (∃ b, pick state 3 q = Ret (q, None, b) ∧ Forall (λ it, eligible state 3 it = false) q) ∨
  (∃ before it after b, pick state 3 q = Ret (before ++ after, Some it, b) ∧
     q = before ++ it :: after ∧ Forall (λ it, eligible state 3 it = false) before ∧
     eligible state 3 it = true).
Proof. intros q state. apply (pick_first_eligible state 3 q). by repeat constructor. Defined.

(** The promise not to schedule a fiber twice is needed.  Whenever a
    fiber that is not executing is in the queue twice, two threads at the top of
    the loop both take it before either has switched in, and the second
    [swapIn] fails its assertion. *)
Theorem double_schedule_asserts {C} (g : system C) (t1 t2 f : Z) (x1 x2 : thread C) (n : Z) :
  t1 ≠ t2 → threads g !! t1 = Some x1 → threads g !! t2 = Some x2 → at_ x1 = Top → at_ x2 = Top →
  states g !! f = Some HOLD →
  fibers_ (sch g) = [mkFT (Some f) None (-1); mkFT (Some f) None (-1)] →
  steps [ARun t1 n; ARun t2 n; ARun t1 n; ARun t2 n] g = Assert_fail.
Proof.
  intros Ht H1 H2 Ha1 Ha2 Hf Hq.
  assert (Hsf : state_of g f = HOLD) by (unfold state_of; by rewrite Hf).
  assert (Hp : ∀ t (r : list (FiberAndThread C)), pick (state_of g) t (mkFT (Some f) None (-1) :: r) =
            Ret (r, Some (mkFT (Some f) None (-1)), negb (bool_decide (r = [])))).
  { intros t r. cbn. by rewrite Hsf. }
  set (e := mkFT (Some f) None (-1)) in *.
  set (taken := λ x : thread C, mkT (Picked (Some e)) (cb_fiber x) (idle_fiber x)).
  set (g1 := go t1 (taken x1) (set_sch (add_active 1 (set_queue [e] (sch g))) g)).
  set (g2 := go t2 (taken x2) (set_sch (add_active 1 (set_queue [] (sch g1))) g1)).
  set (g3 := go t1 (mkT (Inside KFiber f) (cb_fiber x1) (idle_fiber x1)) (set_st f EXEC g2)).
  assert (S1 : step (ARun t1 n) g = Ret g1).
  { cbn [step]. rewrite H1. unfold run_step. by rewrite Ha1, Hq, Hp. }
  assert (S2 : step (ARun t2 n) g1 = Ret g2).
  { cbn [step]. unfold g1 at 1. cbn [threads go set_sch]. rewrite lookup_insert_ne, H2 by done.
    unfold run_step. rewrite Ha2. change (state_of g1) with (state_of g).
    change (fibers_ (sch g1)) with [e]. by rewrite Hp. }
  assert (S3 : step (ARun t1 n) g2 = Ret g3).
  { cbn [step]. unfold g2 at 1. cbn [threads go set_sch]. unfold g1 at 1. cbn [threads go set_sch].
    rewrite lookup_insert_ne, lookup_insert_eq by done.
    unfold run_step. cbn [at_ taken fiber_ e]. assert (state_of g2 f = HOLD) as He by exact Hsf.
    rewrite He. change (finished HOLD) with false. cbn [negb]. by rewrite He. }
  assert (S4 : step (ARun t2 n) g3 = Assert_fail).
  { cbn [step]. unfold g3 at 1. cbn [threads go set_st]. unfold g2 at 1. cbn [threads go set_sch].
    rewrite lookup_insert_ne, lookup_insert_eq by done.
    unfold run_step. cbn [at_ taken fiber_ e].
    assert (state_of g3 f = EXEC) as He by (unfold state_of; cbn; by rewrite lookup_insert_eq).
    rewrite He. change (finished EXEC) with false. cbn [negb]. by rewrite He. }
  cbn [steps]. rewrite S1. cbn [mbind outcome_bind]. rewrite S2. cbn [mbind outcome_bind].
  rewrite S3. cbn [mbind outcome_bind]. by rewrite S4.
Qed.

Definition two_threads : system nat :=
  mkSys (mkS [mkFT (Some 9) None (-1); mkFT (Some 9) None (-1)] None [] 2 0 0 false false (-1))
        (<[9 := HOLD]> (<[11 := INIT]> {[12 := INIT]}))
        (<[1 := mkT Top None 11]> {[2 := mkT Top None 12]}).

Lemma double_schedule_asserts_witness :
  steps [ARun 1 0; ARun 2 0; ARun 1 0; ARun 2 0] two_threads = Assert_fail.
Proof.
  by apply (double_schedule_asserts two_threads 1 2 9 (mkT Top None 11) (mkT Top None 12) 0).
Defined.

(** The promise about a fiber that ends with a wakeup in the queue is needed
    too.  Thread 1 runs a callback in the fiber it keeps for callbacks; the
    callback schedules its own fiber, once, and ends; thread 1 puts the fiber back
    to INIT for its next callback, and thread 2 takes the wakeup and runs the
    fiber.  The next callback thread 1 takes finds the fiber executing, and its
    [reset] fails the assertion.  No fiber is scheduled a second time. *)
Theorem ended_with_wakeup_asserts :
  let l := [AThread 1 11; AThread 2 12; ASchedule (mkFT None (Some 7%nat) (-1)); ARun 1 50; ARun 1 50;
            ASchedule (mkFT (Some 50) None (-1)); ABody 1 (EFinish false); ARun 1 50; ARun 1 50; ARun 1 50;
            ARun 2 52; ARun 2 52; ASchedule (mkFT None (Some 8%nat) (-1)); ARun 1 50; ARun 1 50] in
  steps l (system_new (mkS [] None [] 2 0 0 false true (-1))) = Assert_fail ∧
  omap (λ a, match a with ASchedule ft => fiber_ ft | _ => None end) l = [50].
Proof. split; vm_compute; reflexivity. Qed.

(** *** A legal run *)

Definition run0 : Scheduler nat := mkS [] None [] 2 0 0 false true (-1).
Definition legal0 : list (action nat) :=
  [AThread 1 11; AThread 2 12; ACreate 9; ASchedule (mkFT (Some 9) None (-1)); ARun 1 50; ARun 2 50;
   ARun 1 50; ASchedule (mkFT None (Some 7%nat) 2); ASchedule (mkFT (Some 9) None (-1)); ABody 1 EHold;
   ARun 1 50; ARun 1 50; ARun 1 50].

(** A legal run is checked one action at a time. *)
Lemma legal_run_cons {C} (a : action C) l g g' :
  step a g = Ret g' → legal a g → legal_run l g' → legal_run (a :: l) g.
Proof. intros Hs Ha Hl. split; [done|]. intros g2 Hg2. congruence. Qed.

#[export] Instance claim_eq_dec : EqDecision claim.
Proof. solve_decision. Defined.

(** Decides a concrete legality condition by computation. *)
Ltac decide_legal :=
  cbn [legal fiber_]; split_and?;
  lazymatch goal with
  | |- ∀ t x, threads ?g !! t = Some x → _ =>
      apply (bool_decide_unpack (map_Forall (λ _ x, _) (threads g))); vm_compute; exact I
  | |- _ => apply (bool_decide_unpack _); vm_compute; exact I
  end.
Ltac legal_step tac := eapply legal_run_cons; [vm_compute; reflexivity|tac|].

Lemma legal0_ok : legal_run legal0 (system_new run0).
Proof.
  unfold legal0. do 3 legal_step decide_legal. legal_step decide_legal.
  do 3 legal_step decide_legal. legal_step ltac:(exact I). legal_step decide_legal.
  legal_step ltac:(intros x k f Hx Hat; vm_compute in Hx; injection Hx as <-;
                   injection Hat as <- <-; by left).
  do 3 legal_step decide_legal. exact I.
Qed.

Lemma scheduler_safe_witness :
  legal_run legal0 (system_new run0) ∧
  ∃ g, steps legal0 (system_new run0) = Ret g ∧
      (∀ t t' x x' f, threads g !! t = Some x → threads g !! t' = Some x' →
         executing x = Some f → executing x' = Some f → t = t') ∧
      activeThreadCount_ (sch g) = u64 (number active (threads g)) ∧
      idleThreadCount_ (sch g) = u64 (number idling (threads g)) ∧
      (stopping (sch g) = true → Z.of_nat (size (threads g)) < 2 ^ 64 →
         fibers_ (sch g) = [] ∧ ∀ t x, threads g !! t = Some x → active x = false).
Proof. split; [exact legal0_ok|]. apply (scheduler_safe run0 legal0); [done|exact legal0_ok]. Defined.

(** [stopping] can answer true too early.  [run] takes a yielded task off
    the active count before it puts the READY fiber back in the queue; in a
    legal run another thread can see a stopped scheduler with an empty queue and
    no active thread while an unfinished fiber is about to be queued again. *)
Theorem stopping_misses_ready :
  ∃ (s : Scheduler nat) (l : list (action nat)) g t x f,
    quiet s ∧ legal_run l (system_new s) ∧ steps l (system_new s) = Ret g ∧
    threads g !! t = Some x ∧ at_ x = Done KFiber f ∧ states g !! f = Some READY ∧
    stopping (sch g) = true.
Proof.
  exists (mkS [] None [] 1 0 0 true true (-1)),
    [AThread 1 11; ACreate 9; ASchedule (mkFT (Some 9) None (-1)); ARun 1 50; ARun 1 50;
     ABody 1 EReady; ARun 1 50; ARun 1 50].
  eexists _, 1, (mkT (Done KFiber 9) None 11), 9. split; [done|].
  match goal with |- ?L ∧ _ => assert L as Hlegal end.
  2:{ split; [exact Hlegal|]. split; [vm_compute; reflexivity|]. by vm_compute. }
  do 5 legal_step decide_legal.
  legal_step ltac:(intros x k f Hx Hat; vm_compute in Hx; injection Hx as <-;
                   injection Hat as <- <-; right; by intros ?%not_elem_of_nil).
  do 2 legal_step decide_legal. exact I.
Qed.
