(* ===== verification/Contexts.v ===== *)
(** * The scheduler on real contexts: scheduler.cpp over fiber.cpp

    The loop of [Scheduler::run] in Scheduler.v knows of a fiber only its state.
    Here the same threads run it on the [Fiber] objects of Fiber.v: one heap of
    them, and for each thread its thread-local variables and the fiber whose
    stack its processor is on.  Every switch is the [swapcontext] of
    [Fiber::swapIn] or [Fiber::swapOut].  A state that is set before the switch
    ([YieldToReady], the end of [MainFunc]) is a step of its own, so other
    threads may act in between. *)
From S2P Require Import Prelude Fiber Scheduler.

Section Machine.
(** [run_cb] and [idle_cb]: the bound members [run] and [idle]; [task_cb f]: the
    callback of the fiber that someone makes at [f]; [config]: the value of
    [fiber.stack_size]. *)
Context {C : Type} (run_cb idle_cb : C) (task_cb : Z → C) (config : Z).

(** [t_fiber], [t_threadFiber] and [t_scheduler_fiber] of a thread; the fiber on
    its processor; the place a switch that is about to happen saves. *)
Record tls : Type := mkTls {
  tl_fiber : option Z;
  tl_threadFiber : option Z;
  tl_scheduler_fiber : option Z;
  tl_cpu : option Z;
  tl_here : context }.

Record machine : Type := mkM {
  m_sch : Scheduler C;
  heap : gmap Z (Fiber C);
  m_fiber_id : Z;
  m_fiber_count : Z;
  locals : gmap Z tls;
  m_threads : gmap Z (thread C) }.

Definition local (t : Z) (M : machine) : tls :=
  default (mkTls None None None None NoContext) (locals M !! t).

(** What thread [t] sees of the machine, and its effect on it. *)
Definition view (t : Z) (M : machine) : world C :=
  mkW (heap M) (m_fiber_id M) (m_fiber_count M) (tl_fiber (local t M))
      (tl_threadFiber (local t M)) (tl_scheduler_fiber (local t M)) (tl_cpu (local t M)).
Definition put (t : Z) (here : context) (w : world C) (M : machine) : machine :=
  mkM (m_sch M) (fibers w) (s_fiber_id w) (s_fiber_count w)
      (<[t := mkTls (t_fiber w) (t_threadFiber w) (t_scheduler_fiber w) (cpu w) here]> (locals M))
      (m_threads M).

(** Thread [t] goes to [x] with the scheduler [s]. *)
Definition move (t : Z) (x : thread C) (s : Scheduler C) (M : machine) : machine :=
  mkM s (heap M) (m_fiber_id M) (m_fiber_count M) (locals M) (<[t := x]> (m_threads M)).

(** [Fiber::getState] of the object at [f]. *)
Definition getState (M : machine) (f : Z) : State :=
  match heap M !! f with Some fb => state_ fb | None => INIT end.

(** A step of [run] outside any fiber's code. *)
Definition loop_step (t fresh : Z) (x : thread C) (M : machine) : outcome machine :=
  let w := view t M in
  match at_ x with
  | Top =>
      '(q, ft, _) ← pick (getState M) t (fibers_ (m_sch M));
      let s := set_queue q (m_sch M) in
      Ret (move t (mkT (Picked ft) (cb_fiber x) (idle_fiber x))
                (if null ft then s else add_active 1 s) M)
  | Picked (Some ft) =>
      match (match fiber_ ft with
             | Some f => if negb (finished (getState M f)) then Some f else None
             | None => None
             end), Scheduler.cb_ ft with
      | Some f, _ =>
          w1 ← swapIn f w;
          Ret (move t (mkT (Inside KFiber f) (cb_fiber x) (idle_fiber x)) (m_sch M) (put t NoContext w1 M))
      | None, Some k =>
          let c := match cb_fiber x with Some c => c | None => fresh end in
          w1 ← (if null (cb_fiber x) then Ret (Fiber_new c (Some k) 0 config false w)
                else reset c (Some k) w);
          w2 ← swapIn c w1;
          Ret (move t (mkT (Inside KCb c) (Some c) (idle_fiber x)) (m_sch M) (put t NoContext w2 M))
      | None, None =>
          Ret (move t (mkT Top (cb_fiber x) (idle_fiber x)) (add_active (-1) (m_sch M)) M)
      end
  | Picked None =>
      let i := idle_fiber x in
      if bool_decide (getState M i = TERM) then Ret (move t (mkT Exited (cb_fiber x) i) (m_sch M) M)
      else
        w1 ← swapIn i w;
        Ret (move t (mkT (Inside KIdle i) (cb_fiber x) i) (add_idle 1 (m_sch M)) (put t NoContext w1 M))
  | Inside _ _ => Ret M
  | Leaving k f =>
      cur ← the (t_fiber w);
      w1 ← swapOut cur (tl_here (local t M)) w;
      Ret (move t (mkT (Back k f) (cb_fiber x) (idle_fiber x)) (m_sch M) (put t NoContext w1 M))
  | Back k f =>
      let s := match k with KIdle => add_idle (-1) (m_sch M) | _ => add_active (-1) (m_sch M) end in
      Ret (move t (mkT (Done k f) (cb_fiber x) (idle_fiber x)) s M)
  | Done KFiber f =>
      let top := mkT Top (cb_fiber x) (idle_fiber x) in
      if bool_decide (getState M f = READY)
      then Ret (move t top (schedule (mkFT (Some f) None (-1)) (m_sch M)).1 M)
      else if negb (finished (getState M f))
      then w1 ← settle f w; Ret (move t top (m_sch M) (put t NoContext w1 M))
      else Ret (move t top (m_sch M) M)
  | Done KCb f =>
      if bool_decide (getState M f = READY)
      then Ret (move t (mkT Top None (idle_fiber x)) (schedule (mkFT (Some f) None (-1)) (m_sch M)).1 M)
      else if finished (getState M f)
      then w1 ← reset f None w;
           Ret (move t (mkT Top (cb_fiber x) (idle_fiber x)) (m_sch M) (put t NoContext w1 M))
      else w1 ← settle f w;
           Ret (move t (mkT Top None (idle_fiber x)) (m_sch M) (put t NoContext w1 M))
  | Done KIdle f =>
      let top := mkT Top (cb_fiber x) (idle_fiber x) in
      if negb (finished (getState M f))
      then w1 ← settle f w; Ret (move t top (m_sch M) (put t NoContext w1 M))
      else Ret (move t top (m_sch M) M)
  | Exited => Ret M
  end.

(** The code of a fiber yields or ends: [Fiber::GetThis] names the fiber, whose
    state changes; the switch out is the next step, but for [YieldToHold],
    which changes no state. *)
Definition code_step (t : Z) (e : ending) (x : thread C) (M : machine) : outcome machine :=
  match at_ x with
  | Inside k f =>
      let leave p := mkT p (cb_fiber x) (idle_fiber x) in
      '(w, cur) ← GetThis 0 (view t M);
      fb ← deref cur w;
      match e with
      | EReady =>
          _ ← sylar_assert (bool_decide (state_ fb = EXEC));
          Ret (move t (leave (Leaving k f)) (m_sch M)
                 (put t InYield (Fiber.store cur (set_state READY fb) w) M))
      | EHold =>
          _ ← sylar_assert (bool_decide (state_ fb = EXEC));
          w1 ← swapOut cur InYield w;
          Ret (move t (leave (Back k f)) (m_sch M) (put t NoContext w1 M))
      | EFinish threw =>
          let fb' := if threw then set_state EXCEPT fb else set_state TERM (set_fcb None fb) in
          Ret (move t (leave (Leaving k f)) (m_sch M) (put t InFinal (Fiber.store cur fb' w) M))
      end
  | _ => Ret M
  end.

(** Thread [t] enters [run] - a new thread, or the caller's through
    [rootFiber_->call()] - and makes its idle fiber; [main] is the address of the
    fiber a new thread's stack becomes. *)
Definition enter (t main idle : Z) (M : machine) : outcome machine :=
  w1 ← (if t =? rootThread_ (m_sch M)
        then r ← the (rootFiber_ (m_sch M)); call r (view t M)
        else
          '(w, p) ← GetThis main (mkW (heap M) (m_fiber_id M) (m_fiber_count M) None None None (Some main));
          Ret (mkW (fibers w) (s_fiber_id w) (s_fiber_count w) (t_fiber w) (t_threadFiber w) (Some p) (cpu w)));
  Ret (move t (mkT Top None idle) (m_sch M)
         (put t NoContext (Fiber_new idle (Some idle_cb) 0 config false w1) M)).

(** The second component of an action is the [main] of [enter]. *)
Definition machine_step (a : action C * Z) (M : machine) : outcome machine :=
  match a.1 with
  | AThread t idle => enter t a.2 idle M
  | ACreate f =>
      let w := Fiber_new f (Some (task_cb f)) 0 config false (view 0 M) in
      Ret (mkM (m_sch M) (fibers w) (s_fiber_id w) (s_fiber_count w) (locals M) (m_threads M))
  | ARun t fresh => match m_threads M !! t with Some x => loop_step t fresh x M | None => Ret M end
  | ABody t e => match m_threads M !! t with Some x => code_step t e x M | None => Ret M end
  | ASchedule ft =>
      Ret (mkM (schedule ft (m_sch M)).1 (heap M) (m_fiber_id M) (m_fiber_count M) (locals M) (m_threads M))
  end.

Fixpoint machine_steps (l : list (action C * Z)) (M : machine) : outcome machine :=
  match l with [] => Ret M | a :: l' => M' ← machine_step a M; machine_steps l' M' end.

(** The constructor on the calling thread: with [use_caller] the thread has a
    fiber of its own, at [home], and the root fiber; the scheduler's fiber of
    the thread is the root fiber. *)
Definition machine_new (home : Z) (s : Scheduler C) : outcome machine :=
  match rootFiber_ s with
  | None => Ret (mkM s ∅ 0 0 ∅ ∅)
  | Some r =>
      '(w, _) ← GetThis home (mkW ∅ 0 0 None None None (Some home));
      let w1 := Fiber_new r (Some run_cb) 0 config true w in
      Ret (mkM s (fibers w1) (s_fiber_id w1) (s_fiber_count w1)
             {[rootThread_ s := mkTls (t_fiber w1) (t_threadFiber w1) (Some r) (cpu w1) NoContext]} ∅)
  end.
End Machine.
Arguments machine : clear implicits.

(** ** One switch *)
Section Laws.
Context {C : Type}.
Implicit Types (g : system C) (M : machine C) (x : thread C) (w : world C).

(** The fiber whose stack a thread is on, if it is not its scheduling one. *)
Definition on_cpu x : option Z :=
  match at_ x with Inside _ f | Leaving _ f => Some f | _ => None end.

Lemma swapIn_does w m f fb fm :
  t_scheduler_fiber w = Some m → fibers w !! f = Some fb → fibers w !! m = Some fm → m ≠ f →
  waiting (state_ fb) → ctx_ fb = ctx_of (state_ fb) →
  swapIn f w = Ret (mkW (<[m := set_ctx InSwapIn fm]> (<[f := set_state EXEC fb]> (fibers w)))
                        (s_fiber_id w) (s_fiber_count w) (Some f) (t_threadFiber w) (Some m) (Some f)).
Proof.
  intros Hm Hf Hfm Hne Hs Hc. unfold swapIn, the, swapcontext, deref. cbn. rewrite Hf, Hm. cbn.
  rewrite bool_decide_true by (by destruct Hs as [->|[->| ->]]). cbn.
  rewrite lookup_insert_ne, Hfm by done. cbn. rewrite lookup_insert_ne, lookup_insert_eq by done. cbn.
  unfold resume. cbn. rewrite Hc. by destruct Hs as [->|[->| ->]].
Qed.

Lemma swapOut_does w m f here fb fm :
  t_scheduler_fiber w = Some m → fibers w !! f = Some fb → fibers w !! m = Some fm → m ≠ f →
  ctx_ fm = InSwapIn →
  swapOut f here w = Ret (mkW (<[f := set_ctx here fb]> (fibers w)) (s_fiber_id w) (s_fiber_count w)
                              (Some m) (t_threadFiber w) (Some m) (Some m)).
Proof.
  intros Hm Hf Hfm Hne Hc. unfold swapOut, the, swapcontext, deref. cbn. rewrite Hm. cbn. rewrite Hf. cbn.
  rewrite lookup_insert_ne, Hfm by done. cbn. unfold resume. cbn. by rewrite Hc.
Qed.

(** ** The relation *)

(** The fibers made for a thread itself. *)
Definition owned (l : tls) : list Z := option_list (tl_threadFiber l) ++ option_list (tl_scheduler_fiber l).

Record agrees g M : Prop := mk_agrees {
  ag_sch : m_sch M = sch g;
  ag_threads : m_threads M = threads g;
  ag_fiber : ∀ f s, states g !! f = Some s → ∃ fb, heap M !! f = Some fb ∧ state_ fb = s ∧ stack_ fb = true ∧
    ((∀ t x, threads g !! t = Some x → on_cpu x ≠ Some f) → ctx_ fb = ctx_of s);
  ag_local : ∀ t x, threads g !! t = Some x → ∃ l m fm, locals M !! t = Some l ∧
    tl_scheduler_fiber l = Some m ∧ heap M !! m = Some fm ∧
    tl_fiber l = Some (default m (on_cpu x)) ∧ tl_cpu l = Some (default m (on_cpu x)) ∧
    (on_cpu x ≠ None → ctx_ fm = InSwapIn) ∧
    (∀ k f, at_ x = Leaving k f → tl_here l = ctx_of (state_of g f));
  ag_own : ∀ t l p, locals M !! t = Some l → p ∈ owned l → states g !! p = None ∧ is_Some (heap M !! p);
  ag_apart : ∀ t t' l l' p, locals M !! t = Some l → locals M !! t' = Some l' →
    p ∈ owned l → p ∈ owned l' → t = t';
  ag_in : ∀ t l, locals M !! t = Some l → is_Some (threads g !! t) ∨ t = rootThread_ (sch g);
  ag_root : ∀ r, rootFiber_ (sch g) = Some r → threads g !! rootThread_ (sch g) = None →
    ∃ h fh fr, locals M !! rootThread_ (sch g) = Some (mkTls (Some h) (Some h) (Some r) (Some h) NoContext) ∧
      h ≠ r ∧ heap M !! h = Some fh ∧ heap M !! r = Some fr ∧ ctx_ fr = Entry true;
  ag_count : m_fiber_count M = u64 (Z.of_nat (size (heap M))) }.

Definition same_root (s s' : Scheduler C) : Prop :=
  rootFiber_ s' = rootFiber_ s ∧ rootThread_ s' = rootThread_ s.

(** One step of thread [t], from [x] to [x']: the fiber [f] is written, and
    perhaps the context of the thread's own fiber [m]. *)
Lemma agrees_update g M t x x' f s0 s' l l' m fb' fm' h' sch' id :
  agrees g M → threads g !! t = Some x → locals M !! t = Some l → tl_scheduler_fiber l = Some m →
  states g !! f = Some s0 →
  h' !! f = Some fb' → state_ fb' = s' → stack_ fb' = true → (on_cpu x' ≠ Some f → ctx_ fb' = ctx_of s') →
  h' !! m = Some fm' → (on_cpu x' ≠ None → ctx_ fm' = InSwapIn) →
  (∀ p, p ≠ f → p ≠ m → h' !! p = heap M !! p) → size h' = size (heap M) →
  (∀ t' y, t' ≠ t → threads g !! t' = Some y → on_cpu y ≠ Some f) →
  (∀ p, p ≠ f → on_cpu x = Some p → on_cpu x' = Some p) →
  tl_threadFiber l' = tl_threadFiber l → tl_scheduler_fiber l' = Some m →
  tl_fiber l' = Some (default m (on_cpu x')) → tl_cpu l' = Some (default m (on_cpu x')) →
  (∀ k p, at_ x' = Leaving k p → p = f ∧ tl_here l' = ctx_of s') →
  same_root (sch g) sch' →
  agrees (mkSys sch' (<[f := s']> (states g)) (<[t := x']> (threads g)))
    (mkM sch' h' id (m_fiber_count M) (<[t := l']> (locals M)) (<[t := x']> (threads g))).
Proof.
  intros Ha Hx Hl Hm Hs0 Hf Hs' Hst Hc Hfm Hcm Hheap Hsize Hsole Hstay Htf' Hm' Hfi' Hcpu' Hleave [Hrf Hrt].
  assert (Hown' : owned l' = owned l) by (unfold owned; congruence).
  assert (Hmine : m ∈ owned l) by (unfold owned; rewrite Hm; set_solver).
  assert (Hother : ∀ t' l2 p, t' ≠ t → locals M !! t' = Some l2 → p ∈ owned l2 →
            states g !! p = None ∧ p ≠ f ∧ p ≠ m).
  { intros t' l2 p Ht' Hl2 Hp. destruct (ag_own _ _ Ha t' l2 p Hl2 Hp) as [Hn _]. split; [done|].
    split; intros ->; [congruence|]. apply Ht'. by apply (ag_apart _ _ Ha t' t l2 l m). }
  split; cbn; try done.
  - intros p s. destruct (decide (p = f)) as [->|Hp].
    + rewrite lookup_insert_eq. intros [= <-]. exists fb'. split_and!; try done.
      intros Hall. apply Hc. apply (Hall t). by rewrite lookup_insert_eq.
    + rewrite lookup_insert_ne by done. intros Hsp.
      destruct (ag_fiber _ _ Ha p s Hsp) as (fb & Hfb & ? & ? & Hcfb). exists fb.
      assert (p ≠ m) by (intros ->; destruct (ag_own _ _ Ha t l m Hl Hmine); congruence).
      rewrite Hheap by done. split_and!; try done. intros Hall. apply Hcfb. intros t' y Hy Hcy.
      destruct (decide (t' = t)) as [->|Ht'].
      * rewrite Hx in Hy. injection Hy as <-. apply (Hall t x'); [by rewrite lookup_insert_eq|auto].
      * apply (Hall t' y); [by rewrite lookup_insert_ne|done].
  - intros t' y. destruct (decide (t' = t)) as [->|Ht'].
    + rewrite !lookup_insert_eq. intros [= <-]. exists l', m, fm'. split_and!; try done.
      intros k p Hat. destruct (Hleave k p Hat) as [-> Hh]. unfold state_of. cbn. by rewrite lookup_insert_eq.
    + rewrite !lookup_insert_ne by done. intros Hy.
      destruct (ag_local _ _ Ha t' y Hy) as (l2 & m2 & fm2 & Hl2 & Hm2 & Hfm2 & ? & ? & ? & Hle2).
      destruct (Hother t' l2 m2 Ht' Hl2) as (_ & ? & ?); [unfold owned; rewrite Hm2; set_solver|].
      exists l2, m2, fm2. rewrite Hheap by done. split_and!; try done.
      intros k p Hat. rewrite (Hle2 k p Hat). unfold state_of. cbn. rewrite lookup_insert_ne; [done|].
      intros ->. apply (Hsole t' y Ht' Hy). unfold on_cpu. by rewrite Hat.
  - intros t' l2 p. destruct (decide (t' = t)) as [->|Ht'].
    + rewrite lookup_insert_eq. intros [= <-]. rewrite Hown'. intros Hp.
      destruct (ag_own _ _ Ha t l p Hl Hp) as [Hn Hh].
      assert (p ≠ f) by congruence. rewrite lookup_insert_ne by done. split; [done|].
      destruct (decide (p = m)) as [->|]; [by rewrite Hfm|by rewrite Hheap].
    + rewrite lookup_insert_ne by done. intros Hl2 Hp.
      destruct (Hother t' l2 p Ht' Hl2 Hp) as (? & ? & ?). rewrite lookup_insert_ne, Hheap by done.
      by apply (ag_own _ _ Ha t' l2).
  - assert (Hback : ∀ t' l2, <[t := l']> (locals M) !! t' = Some l2 →
              ∃ l3, locals M !! t' = Some l3 ∧ owned l2 = owned l3).
    { intros t' l2. destruct (decide (t' = t)) as [->|].
      - rewrite lookup_insert_eq. intros [= <-]. by exists l.
      - rewrite lookup_insert_ne by done. by exists l2. }
    intros t1 t2 l1 l2 p (l3 & H3 & ->)%Hback (l4 & H4 & ->)%Hback. by apply (ag_apart _ _ Ha).
  - rewrite Hrt. intros t' l2. destruct (decide (t' = t)) as [->|].
    + rewrite !lookup_insert_eq. intros _. left. by eexists.
    + rewrite !lookup_insert_ne by done. apply (ag_in _ _ Ha).
  - rewrite Hrf, Hrt. intros r Hr. destruct (decide (t = rootThread_ (sch g))) as [->|Ht].
    { by rewrite lookup_insert_eq. }
    rewrite !lookup_insert_ne by done. intros Hno.
    destruct (ag_root _ _ Ha r Hr Hno) as (h & fh & fr & Hlr & Hne & Hh & Hrr & Hcr).
    destruct (Hother _ _ h ltac:(done) Hlr) as (_ & ? & ?); [unfold owned; cbn; set_solver|].
    destruct (Hother _ _ r ltac:(done) Hlr) as (_ & ? & ?); [unfold owned; cbn; set_solver|].
    exists h, fh, fr. by rewrite !Hheap.
  - rewrite Hsize. apply Ha.
Qed.

(** The same when no fiber is written. *)
Lemma agrees_same g M t x x' sch' :
  agrees g M → threads g !! t = Some x → on_cpu x = None → on_cpu x' = None →
  same_root (sch g) sch' →
  agrees (mkSys sch' (states g) (<[t := x']> (threads g))) (move t x' sch' M).
Proof.
  intros Ha Hx Hc Hc' [Hrf Hrt]. unfold move. rewrite (ag_threads _ _ Ha). split; cbn; try done; try apply Ha.
  - intros f s Hs. destruct (ag_fiber _ _ Ha f s Hs) as (fb & ? & ? & ? & Hcf). exists fb. split_and!; try done.
    intros Hall. apply Hcf. intros t' y Hy. destruct (decide (t' = t)) as [->|].
    + rewrite Hx in Hy. injection Hy as <-. by rewrite Hc.
    + apply (Hall t'). by rewrite lookup_insert_ne.
  - intros t' y. destruct (decide (t' = t)) as [->|].
    + rewrite lookup_insert_eq. intros [= <-]. destruct (ag_local _ _ Ha t x Hx) as (l & m & fm & H).
      rewrite Hc in H. exists l, m, fm. rewrite Hc'. destruct H as (? & ? & ? & ? & ? & _ & _). split_and!; try done.
      intros k f Hat. unfold on_cpu in Hc'. by rewrite Hat in Hc'.
    + rewrite lookup_insert_ne by done. apply (ag_local _ _ Ha).
  - rewrite Hrt. intros t' l Hl. destruct (ag_in _ _ Ha t' l Hl) as [[y Hy]|]; [left|by right].
    destruct (decide (t' = t)) as [->|]; [rewrite lookup_insert_eq|rewrite lookup_insert_ne by done]; by eexists.
  - rewrite Hrf, Hrt. intros r Hr. destruct (decide (t = rootThread_ (sch g))) as [->|];
      [by rewrite lookup_insert_eq|rewrite lookup_insert_ne by done; by apply Ha].
Qed.

(** Allocating a fiber at an address not in use. *)
Lemma agrees_new g M f k ss cf t :
  agrees g M → heap M !! f = None →
  let w := Fiber_new f k ss cf false (view t M) in
  agrees (set_st f INIT g)
    (mkM (m_sch M) (fibers w) (s_fiber_id w) (s_fiber_count w) (locals M) (m_threads M)).
Proof.
  intros Ha Hf. assert (Hkeep : ∀ p fb, heap M !! p = Some fb → p ≠ f) by (intros ?? Hp ->; congruence).
  split; cbn; try apply Ha.
  - intros p s. destruct (decide (p = f)) as [->|].
    + rewrite !lookup_insert_eq. intros [= <-]. by eexists.
    + rewrite !lookup_insert_ne by done. apply (ag_fiber _ _ Ha).
  - intros t' y Hy. destruct (ag_local _ _ Ha t' y Hy) as (l & m & fm & ? & ? & Hm & ? & ? & ? & Hle).
    exists l, m, fm. rewrite lookup_insert_ne by (symmetry; eauto). split_and!; try done.
    intros k' p Hat. rewrite (Hle k' p Hat). unfold state_of. cbn.
    destruct (decide (p = f)) as [->|]; [|by rewrite lookup_insert_ne].
    rewrite lookup_insert_eq. destruct (states g !! f) as [s|] eqn:Hs; [|done].
    destruct (ag_fiber _ _ Ha f s Hs) as (? & ? & _). congruence.
  - intros t' l p Hl Hp. destruct (ag_own _ _ Ha t' l p Hl Hp) as [? [fb Hfb]].
    rewrite !lookup_insert_ne by (symmetry; eauto). split; [done|by eexists].
  - intros r Hr Hno. destruct (ag_root _ _ Ha r Hr Hno) as (h & fh & fr & ? & ? & Hh & Hrr & ?).
    exists h, fh, fr. by rewrite !lookup_insert_ne by (symmetry; eauto).
  - rewrite map_size_insert_None by done. rewrite (ag_count _ _ Ha). solve_int.
Qed.

(** ** Facts of the scheduler's invariant *)

Lemma on_cpu_executing x f : on_cpu x = Some f → executing x = Some f.
Proof. unfold on_cpu, executing. by destruct (at_ x). Qed.

(** A fiber that thread [t] holds is on the processor of no other. *)
Lemma held_sole g loc t x f c :
  Inv g loc → threads g !! t = Some x → (f, c) ∈ claims x →
  ∀ t' y, t' ≠ t → threads g !! t' = Some y → on_cpu y ≠ Some f.
Proof.
  intros HI Hx Hin t' y Ht Hy Hc%on_cpu_executing.
  destruct (iv_claims _ _ HI t x Hx) as (_ & _ & _ & H). destruct (H f c Hin) as [b Hb].
  destruct (iv_claims _ _ HI t' y Hy) as (Hsh & _ & _ & H').
  destruct (executing_claim y f Hsh Hc) as [c' Hc']. destruct (H' f c' Hc') as [b' Hb']. congruence.
Qed.

(** Nor is a fiber just made. *)
Lemma new_sole g loc f :
  Inv g loc → states g !! f = None → ∀ t' y, threads g !! t' = Some y → on_cpu y ≠ Some f.
Proof.
  intros HI Hs t' y Hy Hc%on_cpu_executing. destruct (fresh_place g loc f HI Hs) as (_ & _ & Hno).
  destruct (iv_claims _ _ HI t' y Hy) as (Hsh & _). destruct (executing_claim y f Hsh Hc) as [c Hin].
  by apply (Hno t' y c Hy).
Qed.

Lemma getState_agrees g M f s : agrees g M → states g !! f = Some s → getState M f = state_of g f.
Proof.
  intros Ha Hs. destruct (ag_fiber _ _ Ha f s Hs) as (fb & Hfb & Hst & _).
  unfold getState, state_of. by rewrite Hfb, Hs.
Qed.

Lemma pick_ext (st st' : Z → State) tid (q : list (FiberAndThread C)) :
  (∀ f, f ∈ qfibers q → st f = st' f) → pick st tid q = pick st' tid q.
Proof.
  induction q as [|it q IH]; intros Hq; [done|].
  assert (Hr : pick st tid q = pick st' tid q).
  { apply IH. intros f Hf. apply Hq. unfold qfibers in *. cbn. destruct (fiber_ it); [by right|done]. }
  cbn. rewrite Hr. destruct (fiber_ it) as [f|] eqn:Hit; [|done].
  rewrite (Hq f) by (unfold qfibers; cbn; rewrite Hit; left). done.
Qed.

Lemma pick_agrees g loc M t :
  Inv g loc → agrees g M → pick (getState M) t (fibers_ (m_sch M)) = pick (state_of g) t (fibers_ (sch g)).
Proof.
  intros HI Ha. rewrite (ag_sch _ _ Ha). apply pick_ext. intros f Hf.
  destruct (states g !! f) as [s|] eqn:Hs; [by eapply getState_agrees|].
  apply (iv_dom _ _ HI) in Hs. apply (iv_queue _ _ HI) in Hf as [?|(?&?&?)]; congruence.
Qed.

(** ** The operations of a fiber, on the machine *)

Lemma local_eq t M l : locals M !! t = Some l → local t M = l.
Proof. unfold local. by intros ->. Qed.

Lemma view_put t here w M : view t (put t here w M) = w.
Proof. unfold view, local, put. cbn. rewrite lookup_insert_eq. by destruct w. Qed.

Lemma put_again t h h' w w' M : put t h w (put t h' w' M) = put t h w M.
Proof. unfold put. cbn. by rewrite insert_insert_eq. Qed.

Lemma move_put t x s h w M : move t x s (put t h w M) = put t h w (move t x s M).
Proof. done. Qed.

Lemma size_overwrite (h : gmap Z (Fiber C)) p fb fb' : h !! p = Some fb → size (<[p := fb']> h) = size h.
Proof. intros Hp. by rewrite map_size_insert_Some. Qed.

(** The thread's own fiber is not one of those it runs. *)
Lemma main_other g M t x l m f s :
  agrees g M → locals M !! t = Some l → tl_scheduler_fiber l = Some m → states g !! f = Some s → m ≠ f.
Proof.
  intros Ha Hl Hm Hs ->. destruct (ag_own _ _ Ha t l f Hl); [unfold owned; rewrite Hm; set_solver|].
  congruence.
Qed.

Lemma switch_in g M t x k f s cbf sch' :
  agrees g M → threads g !! t = Some x → on_cpu x = None →
  states g !! f = Some s → waiting s →
  (∀ t' y, t' ≠ t → threads g !! t' = Some y → on_cpu y ≠ Some f) → same_root (sch g) sch' →
  let x' := mkT (Inside k f) cbf (idle_fiber x) in
  ∃ w, swapIn f (view t M) = Ret w ∧
    agrees (mkSys sch' (<[f := EXEC]> (states g)) (<[t := x']> (threads g))) (move t x' sch' (put t NoContext w M)).
Proof.
  intros Ha Hx Hoff Hs Hw Hsole Hroot x'.
  destruct (ag_local _ _ Ha t x Hx) as (l & m & fm & Hl & Hm & Hfm & Hfi & Hcpu & _ & _).
  destruct (ag_fiber _ _ Ha f s Hs) as (fb & Hfb & Hst & Hsk & Hc).
  assert (Hne : m ≠ f) by (by eapply main_other).
  assert (Hctx : ctx_ fb = ctx_of s).
  { apply Hc. intros t' y Hy. destruct (decide (t' = t)) as [->|]; [congruence|by apply (Hsole t')]. }
  eexists. split.
  { apply (swapIn_does (view t M) m f fb fm); try done; cbn; rewrite ?(local_eq t M l Hl); congruence. }
  unfold move, put. cbn. rewrite (local_eq t M l Hl), (ag_threads _ _ Ha).
  eapply (agrees_update g M t x x' f s EXEC l _ m (set_state EXEC fb) (set_ctx InSwapIn fm)); try done; cbn.
  - by rewrite lookup_insert_ne, lookup_insert_eq.
  - by rewrite lookup_insert_eq.
  - intros p Hp Hpm. by rewrite !lookup_insert_ne.
  - rewrite (size_overwrite _ m fm), (size_overwrite _ f fb); try done.
    by rewrite lookup_insert_ne.
  - intros p _. congruence.
Qed.

Lemma switch_out g M t x k f s :
  agrees g M → threads g !! t = Some x → on_cpu x = Some f → states g !! f = Some s →
  (∀ t' y, t' ≠ t → threads g !! t' = Some y → on_cpu y ≠ Some f) →
  let x' := mkT (Back k f) (cb_fiber x) (idle_fiber x) in
  ∃ w, swapOut f (ctx_of s) (view t M) = Ret w ∧
    agrees (go t x' g) (move t x' (m_sch M) (put t NoContext w M)).
Proof.
  intros Ha Hx Hon Hs Hsole x'.
  destruct (ag_local _ _ Ha t x Hx) as (l & m & fm & Hl & Hm & Hfm & Hfi & Hcpu & Hcm & _).
  destruct (ag_fiber _ _ Ha f s Hs) as (fb & Hfb & Hst & Hsk & _).
  assert (Hne : m ≠ f) by (by eapply main_other).
  eexists. split.
  { apply (swapOut_does (view t M) m f _ fb fm); try done; cbn; rewrite ?(local_eq t M l Hl); try done.
    apply Hcm. by rewrite Hon. }
  unfold move, put, go. cbn. rewrite (local_eq t M l Hl), (ag_threads _ _ Ha), (ag_sch _ _ Ha).
  rewrite <-(insert_id (states g) f s Hs).
  eapply (agrees_update g M t x x' f s s l _ m (set_ctx (ctx_of s) fb) fm); try done; cbn.
  - by rewrite lookup_insert_eq.
  - by rewrite lookup_insert_ne.
  - intros p Hp Hpm. by rewrite lookup_insert_ne.
  - by rewrite (size_overwrite _ f fb).
  - intros p Hp. congruence.
Qed.

(** Thread [t] writes a fiber that nobody runs. *)
Lemma agrees_write g M t x x' f s0 s' fb' sch' :
  agrees g M → threads g !! t = Some x → on_cpu x = None → on_cpu x' = None →
  states g !! f = Some s0 →
  (∀ t' y, t' ≠ t → threads g !! t' = Some y → on_cpu y ≠ Some f) → same_root (sch g) sch' →
  state_ fb' = s' → stack_ fb' = true → ctx_ fb' = ctx_of s' →
  agrees (mkSys sch' (<[f := s']> (states g)) (<[t := x']> (threads g)))
    (move t x' sch' (put t NoContext (Fiber.store f fb' (view t M)) M)).
Proof.
  intros Ha Hx Hoff Hoff' Hs Hsole Hroot Hs' Hsk Hc.
  destruct (ag_local _ _ Ha t x Hx) as (l & m & fm & Hl & Hm & Hfm & Hfi & Hcpu & _).
  destruct (ag_fiber _ _ Ha f s0 Hs) as (fb & Hfb & _).
  assert (Hne : m ≠ f) by (by eapply main_other).
  unfold move, put. cbn. rewrite (local_eq t M l Hl), (ag_threads _ _ Ha). rewrite Hoff in Hfi, Hcpu.
  eapply (agrees_update g M t x x' f s0 s' l _ m fb' fm); try done; cbn.
  - by rewrite lookup_insert_eq.
  - by rewrite lookup_insert_ne.
  - intros p Hp Hpm. by rewrite lookup_insert_ne.
  - by rewrite (size_overwrite _ f fb).
  - intros p _. congruence.
  - by rewrite Hoff'.
  - by rewrite Hoff'.
  - intros k p Hat. unfold on_cpu in Hoff'. by rewrite Hat in Hoff'.
Qed.

(** [run] settles a fiber that yielded to hold; it resets one that is done. *)
Lemma settle_agrees g M t x x' f s :
  agrees g M → threads g !! t = Some x → on_cpu x = None → on_cpu x' = None →
  states g !! f = Some s → ctx_of s = InYield →
  (∀ t' y, t' ≠ t → threads g !! t' = Some y → on_cpu y ≠ Some f) →
  ∃ w, settle f (view t M) = Ret w ∧
    agrees (go t x' (set_st f HOLD g)) (move t x' (m_sch M) (put t NoContext w M)).
Proof.
  intros Ha Hx Hoff Hoff' Hs Hy Hsole. destruct (ag_fiber _ _ Ha f s Hs) as (fb & Hfb & Hst & Hsk & Hc).
  unfold settle, deref. cbn. rewrite Hfb. cbn. eexists. split; [done|]. rewrite (ag_sch _ _ Ha).
  apply (agrees_write g M t x x' f s); try done. cbn. rewrite Hc; [done|].
  intros t' y Hty. destruct (decide (t' = t)) as [->|]; [congruence|by apply (Hsole t')].
Qed.

Lemma reset_agrees g M t x x' f s k :
  agrees g M → threads g !! t = Some x → on_cpu x = None → on_cpu x' = None →
  states g !! f = Some s → resettable s = true →
  (∀ t' y, t' ≠ t → threads g !! t' = Some y → on_cpu y ≠ Some f) →
  ∃ w, reset f k (view t M) = Ret w ∧
    agrees (go t x' (set_st f INIT g)) (move t x' (m_sch M) (put t NoContext w M)).
Proof.
  intros Ha Hx Hoff Hoff' Hs Hr Hsole. destruct (ag_fiber _ _ Ha f s Hs) as (fb & Hfb & Hst & Hsk & _).
  unfold reset, deref. cbn. rewrite Hfb. cbn. rewrite Hsk, Hst, Hr. cbn. eexists. split; [done|].
  rewrite (ag_sch _ _ Ha). by apply (agrees_write g M t x x' f s).
Qed.

(** ** Every step of the loop *)

#[local] Arguments swapIn_state : simpl never.
#[local] Arguments claims : simpl never.

Context (run_cb idle_cb : C) (task_cb : Z → C) (config : Z).

Lemma root_same (sch : Scheduler C) : same_root sch sch.
Proof. done. Qed.

Lemma loop_top g loc M t x fresh g' :
  Inv g loc → agrees g M → threads g !! t = Some x → at_ x = Top →
  run_step t fresh x g = Ret g' → ∃ M', loop_step config t fresh x M = Ret M' ∧ agrees g' M'.
Proof.
  intros HI Ha Hx Hat. unfold run_step, loop_step. rewrite Hat.
  rewrite (pick_agrees g loc M t HI Ha), (ag_sch _ _ Ha).
  destruct (pick _ _ _) as [[[q ft] b]| | |]; cbn; try done. intros [= <-]. eexists. split; [done|].
  apply (agrees_same g M t x); try done; [by unfold on_cpu; rewrite Hat|by destruct ft].
Qed.

(** A fiber that the thread holds: known, and run by no other. *)
Lemma held_known g loc M t x f c :
  Inv g loc → agrees g M → threads g !! t = Some x → (f, c) ∈ claims x →
  ∃ s, states g !! f = Some s ∧ state_of g f = s ∧ getState M f = s ∧ (∃ b, place_ok (PThread t c b) s) ∧
    ∀ t' y, t' ≠ t → threads g !! t' = Some y → on_cpu y ≠ Some f.
Proof.
  intros HI Ha Hx Hin. destruct (held_fiber g loc t x f c HI Hx Hin) as (b & s & _ & Hs & Hso & Hok).
  exists s. rewrite (getState_agrees g M f s Ha Hs), Hso. split_and!; try done; [by exists b|].
  by eapply held_sole.
Qed.

Lemma waiting_swapIn s : waiting s → swapIn_state s = Ret EXEC ∧ finished s = false.
Proof. by intros [->|[->| ->]]. Qed.

Lemma loop_picked g loc M t x fresh ft g' :
  Inv g loc → agrees g M → threads g !! t = Some x → at_ x = Picked (Some ft) →
  states g !! fresh = None → heap M !! fresh = None →
  run_step t fresh x g = Ret g' → ∃ M', loop_step config t fresh x M = Ret M' ∧ agrees g' M'.
Proof.
  intros HI Ha Hx Hat Hfg HfM. unfold run_step, loop_step. rewrite Hat.
  assert (Hoff : on_cpu x = None) by (unfold on_cpu; by rewrite Hat).
  destruct (iv_claims _ _ HI t x Hx) as (Hsh & _). unfold shape in Hsh. rewrite Hat in Hsh.
  destruct (fiber_ ft) as [f|] eqn:Hf.
  - destruct (held_known g loc M t x f CPicked) as (s & Hs & Hso & Hst & [b [_ Hw]] & Hsole);
      [done..|unfold claims; rewrite Hat, Hf; set_solver|].
    destruct (waiting_swapIn s Hw) as [Hsw Hfin]. rewrite Hso, Hst, Hfin. cbn. rewrite Hso, Hsw. cbn.
    intros [= <-].
    destruct (switch_in g M t x KFiber f s (cb_fiber x) (sch g)) as (w & Hw1 & Ha'); [done..|].
    rewrite Hw1. cbn. eexists. split; [done|]. rewrite (ag_sch _ _ Ha). exact Ha'.
  - destruct (Scheduler.cb_ ft) as [k|] eqn:Hk; [|unfold entry_ok in Hsh; by rewrite Hf, Hk in Hsh].
    destruct (cb_fiber x) as [c|] eqn:Hc; cbn.
    + destruct (held_known g loc M t x c CParked) as (s & Hs & Hso & Hst & [b [_ ->]] & Hsole);
        [done..|unfold claims; rewrite Hat, Hf, Hc; set_solver|].
      rewrite Hso. intros [= <-].
      destruct (reset_agrees g M t x x c INIT (Some k)) as (w & Hr & Ha1); [done..|].
      rewrite Hr. cbn. set (M1 := move t x (m_sch M) (put t NoContext w M)) in *.
      destruct (switch_in (go t x (set_st c INIT g)) M1 t x KCb c INIT (Some c) (sch g)) as (w2 & Hsw & Ha2);
        try done; cbn.
      { by rewrite lookup_insert_eq. }
      { by rewrite lookup_insert_eq. }
      { by left. }
      { intros t' y Ht. rewrite lookup_insert_ne by done. by apply Hsole. }
      unfold M1 in Hsw, Ha2. rewrite move_put, view_put in Hsw. rewrite Hsw. cbn. eexists. split; [done|].
      rewrite (move_put t x), put_again in Ha2. revert Ha2. unfold go, set_st, move, put. cbn.
      by rewrite !insert_insert_eq, (ag_sch _ _ Ha).
    + intros [= <-]. pose proof (agrees_new g M fresh (Some k) 0 config t Ha HfM) as Ha1. cbn zeta in Ha1.
      set (w := Fiber_new fresh (Some k) 0 config false (view t M)) in *.
      destruct (switch_in _ _ t x KCb fresh INIT (Some fresh) (sch g) Ha1) as (w2 & Hsw & Ha2); try done; cbn.
      { by rewrite lookup_insert_eq. }
      { by left. }
      { intros t' y _. by apply (new_sole g loc fresh). }
      change (view t _) with w in Hsw. rewrite Hsw. cbn. eexists. split; [done|].
      revert Ha2. unfold go, set_st, move, put. cbn. by rewrite insert_insert_eq, (ag_sch _ _ Ha).
Qed.

Lemma loop_idle g loc M t x fresh g' :
  Inv g loc → agrees g M → threads g !! t = Some x → at_ x = Picked None →
  run_step t fresh x g = Ret g' → ∃ M', loop_step config t fresh x M = Ret M' ∧ agrees g' M'.
Proof.
  intros HI Ha Hx Hat. unfold run_step, loop_step. rewrite Hat.
  assert (Hoff : on_cpu x = None) by (unfold on_cpu; by rewrite Hat).
  destruct (held_known g loc M t x (idle_fiber x) CIdle) as (s & Hs & Hso & Hst & _ & Hsole);
    [done..|unfold claims; by constructor|].
  destruct (iv_claims _ _ HI t x Hx) as (_ & _ & Hidle & _). unfold idle_ok in Hidle.
  rewrite Hat, Hso in Hidle. rewrite Hso, Hst. case_bool_decide as Hterm.
  - intros [= <-]. eexists. split; [done|]. rewrite (ag_sch _ _ Ha). by apply (agrees_same g M t x).
  - assert (Hw : waiting s) by (destruct Hidle as [->|[->| ->]]; [by left|by right; left|done]).
    destruct (waiting_swapIn s Hw) as [Hsw _]. rewrite Hsw. cbn. intros [= <-].
    destruct (switch_in g M t x KIdle (idle_fiber x) s (cb_fiber x) (add_idle 1 (sch g)))
      as (w & Hw1 & Ha'); [done..|].
    rewrite Hw1. cbn. eexists. split; [done|]. by rewrite (ag_sch _ _ Ha).
Qed.

(** The fiber a thread is inside, leaves or is back from is one it holds. *)
Lemma executing_known g loc M t x f :
  Inv g loc → agrees g M → threads g !! t = Some x → executing x = Some f →
  ∃ s, states g !! f = Some s ∧ state_of g f = s ∧ getState M f = s ∧
    (∀ t' y, t' ≠ t → threads g !! t' = Some y → on_cpu y ≠ Some f) ∧
    (f = idle_fiber x ∧ idle_ok x s ∨
     ∃ c b, (f, c) ∈ claims x ∧ c ≠ CIdle ∧ place_ok (PThread t c b) s).
Proof.
  intros HI Ha Hx He. destruct (iv_claims _ _ HI t x Hx) as (Hsh & _ & Hidle & _).
  destruct (executing_claim x f Hsh He) as [c Hc].
  destruct (held_known g loc M t x f c HI Ha Hx Hc) as (s & Hs & Hso & Hst & [b Hok] & Hsole).
  exists s. split_and!; try done. destruct (decide (c = CIdle)) as [->|Hne].
  - left. apply claims_idle in Hc as ->. by rewrite Hso in Hidle.
  - right. by exists c, b.
Qed.

Lemma loop_leaving g loc M t x fresh k f g' :
  Inv g loc → agrees g M → threads g !! t = Some x → at_ x = Leaving k f →
  run_step t fresh x g = Ret g' → ∃ M', loop_step config t fresh x M = Ret M' ∧ agrees g' M'.
Proof.
  intros HI Ha Hx Hat. unfold run_step, loop_step. rewrite Hat. intros [= <-].
  assert (Hon : on_cpu x = Some f) by (unfold on_cpu; by rewrite Hat).
  destruct (executing_known g loc M t x f) as (s & Hs & Hso & Hst & Hsole & _);
    [done..|by unfold executing; rewrite Hat|].
  destruct (ag_local _ _ Ha t x Hx) as (l & m & fm & Hl & _ & _ & Hfi & _ & _ & Hle).
  destruct (switch_out g M t x k f s) as (w & Hw & Ha'); [done..|].
  cbn. rewrite (local_eq t M l Hl), Hfi, Hon, (Hle k f Hat), Hso. cbn. rewrite Hw. cbn. by eexists.
Qed.

Lemma loop_back g loc M t x fresh k f g' :
  Inv g loc → agrees g M → threads g !! t = Some x → at_ x = Back k f →
  run_step t fresh x g = Ret g' → ∃ M', loop_step config t fresh x M = Ret M' ∧ agrees g' M'.
Proof.
  intros HI Ha Hx Hat. unfold run_step, loop_step. rewrite Hat, (ag_sch _ _ Ha). intros [= <-].
  eexists. split; [done|]. apply (agrees_same g M t x); try done; [by unfold on_cpu; rewrite Hat|by destruct k].
Qed.

(** A fiber back from its switch is in execution, yielded to ready or done. *)
Lemma back_state g loc M t x k f :
  Inv g loc → agrees g M → threads g !! t = Some x → at_ x = Done k f →
  ∃ s, states g !! f = Some s ∧ state_of g f = s ∧ getState M f = s ∧
    (∀ t' y, t' ≠ t → threads g !! t' = Some y → on_cpu y ≠ Some f) ∧ (s = EXEC ∨ left_ s).
Proof.
  intros HI Ha Hx Hat.
  destruct (iv_claims _ _ HI t x Hx) as (Hsh & _ & Hidle & _). unfold shape in Hsh. rewrite Hat in Hsh.
  assert (∃ c, (f, c) ∈ claims x ∧ (k = KIdle ∧ c = CIdle ∨ k ≠ KIdle ∧ c = CBack)) as (c & Hin & Hk).
  { destruct (decide (k = KIdle)) as [->|Hk].
    - exists CIdle. rewrite <-Hsh. split; [by constructor|by left].
    - exists CBack. rewrite (claims_done x k f) by done. split; [set_solver|by right]. }
  destruct (held_known g loc M t x f c HI Ha Hx Hin) as (s & Hs & Hso & Hst & [b Hok] & Hsole).
  exists s. split_and!; try done. destruct Hk as [[-> ->]|[_ ->]].
  - subst f. unfold idle_ok in Hidle. rewrite Hat, Hso in Hidle. unfold left_. naive_solver.
  - cbn in Hok. naive_solver.
Qed.

Lemma loop_done g loc M t x fresh k f g' :
  Inv g loc → agrees g M → threads g !! t = Some x → at_ x = Done k f →
  run_step t fresh x g = Ret g' → ∃ M', loop_step config t fresh x M = Ret M' ∧ agrees g' M'.
Proof.
  intros HI Ha Hx Hat. unfold run_step, loop_step. rewrite Hat.
  assert (Hoff : on_cpu x = None) by (unfold on_cpu; by rewrite Hat).
  destruct (back_state g loc M t x k f HI Ha Hx Hat) as (s & Hs & Hso & Hst & Hsole & Hcase).
  rewrite Hso, Hst.
  assert (Hsame : ∀ cbf sch', same_root (sch g) sch' → let x' := mkT Top cbf (idle_fiber x) in
            agrees (go t x' (set_sch sch' g)) (move t x' sch' M)).
  { intros cbf sch' Hroot. by apply (agrees_same g M t x). }
  assert (Hsettle : finished s = false → ∀ cbf, let x' := mkT Top cbf (idle_fiber x) in
            ∃ w, settle f (view t M) = Ret w ∧
              agrees (go t x' (set_st f HOLD g)) (move t x' (m_sch M) (put t NoContext w M))).
  { intros Hfin cbf. apply (settle_agrees g M t x _ f s); try done. by destruct Hcase as [->|[->|[->| ->]]]. }
  assert (Hreset : finished s = true → ∀ cbf, let x' := mkT Top cbf (idle_fiber x) in
            reset_state s = Ret INIT ∧ ∃ w, reset f None (view t M) = Ret w ∧
              agrees (go t x' (set_st f INIT g)) (move t x' (m_sch M) (put t NoContext w M))).
  { intros Hfin cbf. assert (resettable s = true) as Hr by (by destruct s).
    unfold reset_state. rewrite Hr. split; [done|]. by apply (reset_agrees g M t x _ f s). }
  rewrite (ag_sch _ _ Ha) in Hsettle, Hreset |- *.
  assert (Hstay : ∀ cbf, let x' := mkT Top cbf (idle_fiber x) in agrees (go t x' g) (move t x' (sch g) M)).
  { intros cbf. by apply (agrees_same g M t x). }
  destruct k; cbn; [case_bool_decide; [|destruct (finished s) eqn:Hfin]..|destruct (finished s) eqn:Hfin]; cbn.
  all: try (intros [= <-]; eexists; split; [done|]; by first [apply Hsame|apply Hstay]).
  2: destruct (Hreset eq_refl (cb_fiber x)) as (Hri & w & Hw & Ha'); rewrite Hri; cbn.
  all: try (destruct (Hsettle eq_refl (cb_fiber x)) as (w & Hw & Ha'); destruct (Hsettle eq_refl None) as (w' & Hw' & Ha'')).
  all: intros [= <-]; rewrite ?Hw, ?Hw'; cbn; eexists; split; [done|].
  all: first [exact Ha'|exact Ha''|congruence].
Qed.

Lemma loop_agrees g loc M t x fresh g' :
  Inv g loc → agrees g M → threads g !! t = Some x → states g !! fresh = None → heap M !! fresh = None →
  run_step t fresh x g = Ret g' → ∃ M', loop_step config t fresh x M = Ret M' ∧ agrees g' M'.
Proof.
  intros HI Ha Hx Hfg HfM. destruct (at_ x) as [|[ft|]|k f|k f|k f|k f|] eqn:Hat.
  - by eapply loop_top.
  - by eapply loop_picked.
  - by eapply loop_idle.
  - unfold run_step, loop_step. rewrite Hat. intros [= <-]. by exists M.
  - by eapply loop_leaving.
  - by eapply loop_back.
  - by eapply loop_done.
  - unfold run_step, loop_step. rewrite Hat. intros [= <-]. by exists M.
Qed.

(** The code of a fiber sets its own state, about to switch out. *)
Lemma code_writes g M t x k f s s' fb' :
  agrees g M → threads g !! t = Some x → on_cpu x = Some f → states g !! f = Some s →
  (∀ t' y, t' ≠ t → threads g !! t' = Some y → on_cpu y ≠ Some f) →
  state_ fb' = s' → stack_ fb' = true →
  let x' := mkT (Leaving k f) (cb_fiber x) (idle_fiber x) in
  agrees (go t x' (set_st f s' g)) (move t x' (m_sch M) (put t (ctx_of s') (Fiber.store f fb' (view t M)) M)).
Proof.
  intros Ha Hx Hon Hs Hsole Hs' Hsk x'.
  destruct (ag_local _ _ Ha t x Hx) as (l & m & fm & Hl & Hm & Hfm & Hfi & Hcpu & Hcm & _).
  destruct (ag_fiber _ _ Ha f s Hs) as (fb & Hfb & _).
  assert (Hne : m ≠ f) by (by eapply main_other). rewrite Hon in Hfi, Hcpu, Hcm.
  unfold go, set_st, move, put. cbn. rewrite (local_eq t M l Hl), (ag_threads _ _ Ha), (ag_sch _ _ Ha).
  eapply (agrees_update g M t x x' f s s' l _ m fb' fm); try done; cbn.
  - by rewrite lookup_insert_eq.
  - by rewrite lookup_insert_ne.
  - intros p Hp Hpm. by rewrite lookup_insert_ne.
  - by rewrite (size_overwrite _ f fb).
  - intros p Hp. congruence.
  - by intros k' p [= _ <-].
Qed.

Lemma code_agrees g loc M t x e g' :
  Inv g loc → agrees g M → threads g !! t = Some x →
  body_step t e x g = Ret g' → ∃ M', code_step t e x M = Ret M' ∧ agrees g' M'.
Proof.
  intros HI Ha Hx. unfold body_step, code_step.
  destruct (at_ x) as [| |k f| | | |] eqn:Hat; try (intros [= <-]; by exists M).
  assert (Hon : on_cpu x = Some f) by (unfold on_cpu; by rewrite Hat).
  destruct (executing_known g loc M t x f) as (s & Hs & Hso & Hst & Hsole & _);
    [done..|by unfold executing; rewrite Hat|].
  destruct (ag_local _ _ Ha t x Hx) as (l & m & fm & Hl & _ & _ & Hfi & _).
  destruct (ag_fiber _ _ Ha f s Hs) as (fb & Hfb & Hsb & Hsk & _).
  assert (HT : GetThis 0 (view t M) = Ret (view t M, f)).
  { unfold GetThis. cbn. by rewrite (local_eq t M l Hl), Hfi, Hon. }
  rewrite HT. cbn. unfold deref. cbn. rewrite Hfb. cbn. rewrite Hso, Hsb.
  destruct e as [| |threw].
  - case_bool_decide as He; cbn; [|done]. intros [= <-]. eexists. split; [done|].
    by apply (code_writes g M t x k f s READY).
  - case_bool_decide as He; cbn; [|done]. intros [= <-]. subst s. rewrite He in Hs.
    destruct (switch_out g M t x k f EXEC Ha Hx Hon Hs Hsole) as (w & Hw & Ha'). cbn in Hw.
    rewrite Hw. cbn. by eexists.
  - intros [= <-]. eexists. split; [done|].
    destruct threw; [by apply (code_writes g M t x k f s EXCEPT)|by apply (code_writes g M t x k f s TERM)].
Qed.

(** ** Making fibers and threads *)

(** Addresses that the program allocates are not in use; a thread that enters
    is not the root thread unless there is a root fiber. *)
Definition fresh_ok (a : action C * Z) M : Prop :=
  match a.1 with
  | AThread t idle =>
      heap M !! idle = None ∧ heap M !! a.2 = None ∧ idle ≠ a.2 ∧
      (t = rootThread_ (m_sch M) → is_Some (rootFiber_ (m_sch M)))
  | ACreate f => heap M !! f = None
  | ARun _ fresh => heap M !! fresh = None
  | _ => True
  end.

(** The thread is in [run], with its scheduling fiber [m] on the processor. *)
Lemma agrees_enter g M t idle l m fm h' id cnt :
  agrees g M → threads g !! t = None → states g !! m = None →
  (∀ t' l' p, t' ≠ t → locals M !! t' = Some l' → p ∈ owned l' → p ∉ owned l) →
  (∀ p, p ∈ owned l → states g !! p = None ∧ is_Some (h' !! p)) →
  (∀ p, is_Some (heap M !! p) → p ∉ owned l → h' !! p = heap M !! p) →
  tl_scheduler_fiber l = Some m → h' !! m = Some fm → tl_fiber l = Some m → tl_cpu l = Some m →
  (∀ f, is_Some (states g !! f) → f ∉ owned l) →
  cnt = u64 (Z.of_nat (size h')) →
  agrees (go t (mkT Top None idle) g)
    (mkM (m_sch M) h' id cnt (<[t := l]> (locals M)) (<[t := mkT Top None idle]> (m_threads M))).
Proof.
  intros Ha Hx Hsm Hap Hown Hheap Hm Hfm Hfi Hcpu Hst Hcnt. rewrite (ag_threads _ _ Ha).
  assert (Hother : ∀ t' y, threads g !! t' = Some y → t' ≠ t) by congruence.
  split; cbn; try done.
  - apply Ha.
  - intros f s Hs. destruct (ag_fiber _ _ Ha f s Hs) as (fb & Hfb & ? & ? & Hc). exists fb.
    rewrite Hheap; [|by rewrite Hfb|apply Hst; by rewrite Hs]. split_and!; try done.
    intros Hall. apply Hc. intros t' y Hy. apply (Hall t'). rewrite lookup_insert_ne; [done|].
    symmetry. eauto.
  - intros t' y. destruct (decide (t' = t)) as [->|Ht'].
    + rewrite !lookup_insert_eq. intros [= <-]. by exists l, m, fm.
    + rewrite !lookup_insert_ne by done. intros Hy.
      destruct (ag_local _ _ Ha t' y Hy) as (l2 & m2 & fm2 & Hl2 & Hm2 & Hfm2 & H). exists l2, m2, fm2.
      rewrite Hheap; [done|by rewrite Hfm2|]. apply (Hap t' l2); [done|done|].
      unfold owned. rewrite Hm2. set_solver.
  - intros t' l2 p. destruct (decide (t' = t)) as [->|Ht'].
    + rewrite lookup_insert_eq. intros [= <-]. apply Hown.
    + rewrite lookup_insert_ne by done. intros Hl2 Hp. destruct (ag_own _ _ Ha t' l2 p Hl2 Hp) as [? Hh].
      split; [done|]. rewrite Hheap; [done|done|]. by apply (Hap t' l2).
  - intros t1 t2 l1 l2 p. destruct (decide (t1 = t)) as [->|H1], (decide (t2 = t)) as [->|H2];
      rewrite ?lookup_insert_eq, ?lookup_insert_ne by done; try done.
    + intros [= <-] Hl2 Hp1 Hp2. by destruct (Hap t2 l2 p H2 Hl2 Hp2).
    + intros Hl1 [= <-] Hp1 Hp2. by destruct (Hap t1 l1 p H1 Hl1 Hp1).
    + apply (ag_apart _ _ Ha).
  - intros t' l2. destruct (decide (t' = t)) as [->|Ht'].
    + rewrite !lookup_insert_eq. intros _. left. by eexists.
    + rewrite !lookup_insert_ne by done. apply (ag_in _ _ Ha).
  - intros r Hr. destruct (decide (t = rootThread_ (sch g))) as [->|Ht]; [by rewrite lookup_insert_eq|].
    rewrite !lookup_insert_ne by done. intros Hno.
    destruct (ag_root _ _ Ha r Hr Hno) as (h & fh & fr & Hlr & Hne & Hh & Hrr & Hcr).
    assert (Hkeep : ∀ p, p ∈ [h; r] → is_Some (heap M !! p) → h' !! p = heap M !! p).
    { intros p Hp Hs. apply Hheap; [done|]. by apply (Hap _ _ p ltac:(done) Hlr). }
    exists h, fh, fr. split_and!; try done; (rewrite Hkeep; [done|set_solver|]); [by rewrite Hh|by rewrite Hrr].
Qed.

Lemma no_fiber g M p : agrees g M → heap M !! p = None → states g !! p = None.
Proof.
  intros Ha Hp. destruct (states g !! p) as [s|] eqn:Hs; [|done].
  destruct (ag_fiber _ _ Ha p s Hs) as (? & ? & _). congruence.
Qed.

(** The caller's thread enters through its root fiber. *)
Lemma enter_root g M t idle r :
  agrees g M → threads g !! t = None → t = rootThread_ (sch g) → rootFiber_ (sch g) = Some r →
  ∃ w, call r (view t M) = Ret w ∧
    (∀ p, fibers w !! p = None ↔ heap M !! p = None) ∧
    agrees (go t (mkT Top None idle) g) (move t (mkT Top None idle) (m_sch M) (put t NoContext w M)).
Proof.
  intros Ha Hx -> Hr. destruct (ag_root _ _ Ha r Hr Hx) as (h & fh & fr & Hl & Hne & Hh & Hrr & Hcr).
  assert (Ho : ∀ p, p ∈ [h; r] → states g !! p = None ∧ is_Some (heap M !! p)) by (intros p; apply (ag_own _ _ Ha _ _ p Hl)).
  eexists. split.
  { unfold call, the, swapcontext, deref. cbn. rewrite (local_eq _ M _ Hl). cbn. rewrite Hh. cbn.
    rewrite lookup_insert_ne, Hrr by done. cbn. unfold resume. cbn. by rewrite Hcr. }
  cbn. split; [intros p; by rewrite lookup_insert_None; naive_solver|].
  unfold move, put. cbn.
  apply (agrees_enter g M _ idle _ r fr); try done; cbn.
  - apply Ho. set_solver.
  - intros t' l' p Ht Hl' Hp Hin. apply Ht. by apply (ag_apart _ _ Ha t' _ l' _ p Hl' Hl).
  - intros p Hp. destruct (Ho p Hp). split; [done|]. destruct (decide (p = h)) as [->|];
      [by rewrite lookup_insert_eq|by rewrite lookup_insert_ne].
  - intros p _ Hp. rewrite lookup_insert_ne; [done|]. intros ->. apply Hp. unfold owned. cbn. set_solver.
  - by rewrite lookup_insert_ne.
  - intros f [s Hs] Hf. destruct (Ho f Hf). congruence.
  - rewrite (size_overwrite _ h fh) by done. apply Ha.
Qed.

(** A new thread makes the fiber of its own stack. *)
Lemma enter_new g M t idle main :
  agrees g M → threads g !! t = None → heap M !! main = None →
  let w := mkW (<[main := mkFiber 0 0 EXEC NoContext false None]> (heap M)) (m_fiber_id M)
               (u64 (m_fiber_count M + 1)) (Some main) (Some main) (Some main) (Some main) in
  agrees (go t (mkT Top None idle) g) (move t (mkT Top None idle) (m_sch M) (put t NoContext w M)).
Proof.
  intros Ha Hx Hmain w. unfold move, put. cbn.
  assert (Ho : ∀ p : Z, p ∈ [main; main] → p = main) by set_solver.
  eapply (agrees_enter g M t idle (mkTls (Some main) (Some main) (Some main) (Some main) NoContext) main);
    try done; cbn.
  - by apply (no_fiber g M).
  - intros t' l' p _ Hl' Hp ->%Ho. destruct (ag_own _ _ Ha t' l' main Hl' Hp) as [_ [? ?]]. congruence.
  - intros p ->%Ho. rewrite lookup_insert_eq. split; [by apply (no_fiber g M)|done].
  - intros p [fb Hp] _. rewrite lookup_insert_ne; [done|congruence].
  - by rewrite lookup_insert_eq.
  - intros f [s Hs] ->%Ho. rewrite (no_fiber g M main) in Hs; done.
  - rewrite map_size_insert_None by done. rewrite (ag_count _ _ Ha). solve_int.
Qed.

Lemma enter_agrees g M t main idle :
  agrees g M → threads g !! t = None → fresh_ok (AThread t idle, main) M →
  ∃ M', enter idle_cb config t main idle M = Ret M' ∧
    agrees (go t (mkT Top None idle) (set_st idle INIT g)) M'.
Proof.
  intros Ha Hx (Hidle & Hmain & Hne & Hroot). cbn in *. rewrite (ag_sch _ _ Ha) in Hroot.
  assert (∃ w1, (if t =? rootThread_ (m_sch M)
        then r ← the (rootFiber_ (m_sch M)); call r (view t M)
        else
          '(w, p) ← GetThis main (mkW (heap M) (m_fiber_id M) (m_fiber_count M) None None None (Some main));
          Ret (mkW (fibers w) (s_fiber_id w) (s_fiber_count w) (t_fiber w) (t_threadFiber w) (Some p) (cpu w)))
        = Ret w1 ∧ fibers w1 !! idle = None ∧
      agrees (go t (mkT Top None idle) g) (move t (mkT Top None idle) (m_sch M) (put t NoContext w1 M)))
    as (w1 & Hw1 & Hno & Ha1).
  { rewrite (ag_sch _ _ Ha). destruct (Z.eqb_spec t (rootThread_ (sch g))) as [Ht|Ht].
    - destruct (Hroot Ht) as [r Hr]. rewrite Hr. cbn.
      destruct (enter_root g M t idle r Ha Hx Ht Hr) as (w & Hw & Hdom & Ha'). exists w.
      rewrite Hdom, <-(ag_sch _ _ Ha). done.
    - unfold GetThis. cbn. rewrite bool_decide_true by done. cbn. eexists. split; [done|]. cbn.
      rewrite lookup_insert_ne by done. split; [done|]. rewrite <-(ag_sch _ _ Ha). by apply enter_new. }
  unfold enter. rewrite Hw1. cbn. eexists. split; [done|].
  pose proof (agrees_new _ _ idle (Some idle_cb) 0 config t Ha1 Hno) as Ha2. cbn zeta in Ha2.
  rewrite move_put, view_put in Ha2. exact Ha2.
Qed.

(** ** The simulation *)

Lemma machine_step_agrees g loc M a g' :
  Inv g loc → agrees g M → legal a.1 g → fresh_ok a M → step a.1 g = Ret g' →
  ∃ M', machine_step idle_cb task_cb config a M = Ret M' ∧ agrees g' M'.
Proof.
  intros HI Ha Hlegal Hfresh. destruct a as [[t idle|f|ft|t fresh|t e] main];
    unfold machine_step; cbn [fst snd] in *; cbn [step].
  - destruct Hlegal as [Hx _]. intros [= <-]. by apply enter_agrees.
  - intros [= <-]. eexists. split; [done|]. by apply agrees_new.
  - intros [= <-]. eexists. split; [done|]. rewrite (ag_sch _ _ Ha), (ag_threads _ _ Ha).
    unfold set_sch, schedule, scheduleNoLock. split; try apply Ha; cbn; try done; case_match; apply Ha.
  - rewrite (ag_threads _ _ Ha). destruct (threads g !! t) as [x|] eqn:Hx.
    + by eapply loop_agrees.
    + intros [= <-]. by exists M.
  - rewrite (ag_threads _ _ Ha). destruct (threads g !! t) as [x|] eqn:Hx.
    + by eapply code_agrees.
    + intros [= <-]. by exists M.
Qed.

Fixpoint fresh_run (l : list (action C * Z)) M : Prop :=
  match l with
  | [] => True
  | a :: l' => fresh_ok a M ∧
      ∀ M', machine_step idle_cb task_cb config a M = Ret M' → fresh_run l' M'
  end.

Lemma machine_new_agrees home s :
  rootFiber_ s ≠ Some home →
  ∃ M, machine_new run_cb config home s = Ret M ∧ agrees (system_new s) M.
Proof.
  intros Hne. unfold machine_new. destruct (rootFiber_ s) as [r|] eqn:Hr.
  2:{ eexists. split; [done|]. split; cbn; try done; intros; congruence. }
  assert (home ≠ r) by congruence. unfold GetThis. cbn. rewrite bool_decide_true by done. cbn.
  eexists. split; [done|].
  assert (Ho : ∀ t l p, ({[rootThread_ s := mkTls (Some home) (Some home) (Some r) (Some home) NoContext]} : gmap Z tls) !! t = Some l →
            p ∈ owned l → t = rootThread_ s ∧ p ∈ [home; r]).
  { intros t l p [<- <-]%lookup_singleton_Some Hp. done. }
  split; cbn; try done.
  - intros t l p Hl Hp. destruct (Ho t l p Hl Hp) as [_ Hp']. split; [done|].
    destruct (decide (p = r)) as [->|]; [by rewrite lookup_insert_eq|].
    assert (p = home) as -> by set_solver. by rewrite lookup_insert_ne, lookup_insert_eq.
  - intros t t' l l' p Hl Hl' Hp Hp'. destruct (Ho t l p Hl Hp), (Ho t' l' p Hl' Hp'). congruence.
  - intros t l Hl. right. by apply lookup_singleton_Some in Hl as [<- _].
  - intros r' Hr' _. rewrite Hr in Hr'. injection Hr' as <-.
    exists home. eexists _, _. rewrite lookup_singleton_eq, lookup_insert_ne, !lookup_insert_eq by done. done.
  - rewrite !map_size_insert_None, map_size_empty; [reflexivity|done|by rewrite lookup_insert_ne].
Qed.

Lemma machine_steps_agree l : ∀ g loc M,
  Inv g loc → agrees g M → legal_run l.*1 g → fresh_run l M →
  ∃ g' loc' M', steps l.*1 g = Ret g' ∧ Inv g' loc' ∧
    machine_steps idle_cb task_cb config l M = Ret M' ∧ agrees g' M'.
Proof.
  induction l as [|a l IH]; intros g loc M HI Ha Hlegal Hfresh; [by exists g, loc, M|].
  destruct Hlegal as [La Ll], Hfresh as [Fa Fl].
  destruct (step_safe a.1 g loc HI La) as (g1 & loc1 & Hs & HI1).
  destruct (machine_step_agrees g loc M a g1) as (M1 & Hm & Ha1); [done..|].
  destruct (IH g1 loc1 M1 HI1 Ha1 (Ll g1 Hs) (Fl M1 Hm)) as (g2 & loc2 & M2 & Hs2 & HI2 & Hm2 & Ha2).
  exists g2, loc2, M2. cbn. by rewrite Hs, Hm.
Qed.

(** The processors of two threads are never on one stack. *)
Lemma stacks_apart g loc M t t' x x' l l' :
  Inv g loc → agrees g M → threads g !! t = Some x → threads g !! t' = Some x' →
  locals M !! t = Some l → locals M !! t' = Some l' → tl_cpu l = tl_cpu l' → t = t'.
Proof.
  intros HI Ha Hx Hx' Hl Hl' Heq.
  destruct (ag_local _ _ Ha t x Hx) as (l1 & m & fm & Hl1 & Hm & _ & _ & Hc & _).
  destruct (ag_local _ _ Ha t' x' Hx') as (l2 & m' & fm' & Hl2 & Hm' & _ & _ & Hc' & _).
  rewrite Hl in Hl1. injection Hl1 as <-. rewrite Hl' in Hl2. injection Hl2 as <-.
  assert (Hmain : ∀ t0 l0 m0 t1 y f, locals M !! t0 = Some l0 → tl_scheduler_fiber l0 = Some m0 →
            threads g !! t1 = Some y → on_cpu y = Some f → m0 ≠ f).
  { intros t0 l0 m0 t1 y f H0 Hm0 Hy Hf%on_cpu_executing.
    destruct (executing_known g loc M t1 y f HI Ha Hy Hf) as (s & Hs & _). by eapply main_other. }
  rewrite Hc, Hc' in Heq.
  destruct (on_cpu x) as [f|] eqn:Hf, (on_cpu x') as [f'|] eqn:Hf'; cbn in Heq; injection Heq as ->.
  - eapply (exec_unique g loc); try done; by apply on_cpu_executing.
  - by destruct (Hmain t' l' m' t x m' Hl' Hm' Hx Hf).
  - by destruct (Hmain t l f' t' x' f' Hl Hm Hx' Hf').
  - apply (ag_apart _ _ Ha t t' l l' m' Hl Hl'); unfold owned; rewrite ?Hm, ?Hm'; set_solver.
Qed.

(** C4: the run loop is right on the real coroutines.  In every legal run - any
    interleaving of any number of threads, the caller's own through its root
    fiber among them - in which new objects get unused addresses, every
    [swapIn], [swapOut], [reset] and yield of the C++ objects succeeds and the
    machine goes through the same scheduler, threads and fiber states as the
    abstract run.  No two threads ever execute on one stack; [Fiber::GetThis]
    of a thread names the fiber its processor is on, which is the one the loop
    switched to, or else the thread's scheduling fiber; a fiber that nobody
    runs has the saved context its state tells, so it resumes where it last
    left; and [TotalFibers] counts the live objects. *)
Theorem contexts_refine (home : Z) (s : Scheduler C) (l : list (action C * Z)) :
  quiet s → rootFiber_ s ≠ Some home → legal_run l.*1 (system_new s) →
  ∃ M0, machine_new run_cb config home s = Ret M0 ∧ (fresh_run l M0 →
    ∃ M g, machine_steps idle_cb task_cb config l M0 = Ret M ∧ steps l.*1 (system_new s) = Ret g ∧
      m_sch M = sch g ∧ m_threads M = threads g ∧
      (∀ f st, states g !! f = Some st → getState M f = st) ∧
      (∀ t x, threads g !! t = Some x → ∃ lt, locals M !! t = Some lt ∧ tl_fiber lt = tl_cpu lt ∧
         tl_cpu lt = match on_cpu x with Some f => Some f | None => tl_scheduler_fiber lt end) ∧
      (∀ t t' lt lt', is_Some (threads g !! t) → is_Some (threads g !! t') →
         locals M !! t = Some lt → locals M !! t' = Some lt' → tl_cpu lt = tl_cpu lt' → t = t') ∧
      (∀ f st, states g !! f = Some st → (∀ t x, threads g !! t = Some x → on_cpu x ≠ Some f) →
         ∃ fb, heap M !! f = Some fb ∧ ctx_ fb = ctx_of st) ∧
      m_fiber_count M = u64 (Z.of_nat (size (heap M)))).
Proof.
  intros Hq Hne Hlegal. destruct (machine_new_agrees home s Hne) as (M0 & HM0 & Ha0).
  exists M0. split; [done|]. intros Hfresh.
  destruct (machine_steps_agree l _ ∅ M0 (system_new_Inv s Hq) Ha0 Hlegal Hfresh)
    as (g & loc & M & Hs & HI & Hm & Ha).
  exists M, g. split_and!; try done; try apply Ha.
  - intros f st Hst. rewrite (getState_agrees g M f st Ha Hst). unfold state_of. by rewrite Hst.
  - intros t x Hx. destruct (ag_local _ _ Ha t x Hx) as (lt & m & fm & Hl & Hsc & _ & Hf & Hc & _).
    exists lt. rewrite Hf, Hc, Hsc. by destruct (on_cpu x).
  - intros t t' lt lt' [x Hx] [x' Hx']. by apply (stacks_apart g loc M t t' x x').
  - intros f st Hst Hoff. destruct (ag_fiber _ _ Ha f st Hst) as (fb & Hfb & _ & _ & Hc). exists fb. auto.
Qed.
End Laws.

(** ** A run *)

(** Addresses for the fibers of the threads' own stacks. *)
Definition with_mains (l : list (action nat)) : list (action nat * Z) :=
  (λ a, (a, match a with AThread t _ => 20 + t | _ => 0 end)) <$> l.

Lemma fresh_run_cons {C} (i : C) k cf (a : action C * Z) l M M' :
  machine_step i k cf a M = Ret M' → fresh_ok a M → fresh_run i k cf l M' → fresh_run i k cf (a :: l) M.
Proof. intros Hs Ha Hl. split; [done|]. intros M2 HM2. congruence. Qed.

Lemma contexts_refine_witness :
  let l := with_mains legal0 in
  legal_run l.*1 (system_new run0) ∧
  ∃ M0, machine_new 1%nat 4096 5 run0 = Ret M0 ∧ fresh_run 2%nat (λ _, 3%nat) 4096 l M0 ∧
    ∃ M g, machine_steps 2%nat (λ _, 3%nat) 4096 l M0 = Ret M ∧ steps l.*1 (system_new run0) = Ret g ∧
      m_sch M = sch g ∧ m_threads M = threads g ∧
      (∀ f st, states g !! f = Some st → getState M f = st) ∧
      (∀ t x, threads g !! t = Some x → ∃ lt, locals M !! t = Some lt ∧ tl_fiber lt = tl_cpu lt ∧
         tl_cpu lt = match on_cpu x with Some f => Some f | None => tl_scheduler_fiber lt end) ∧
      (∀ t t' lt lt', is_Some (threads g !! t) → is_Some (threads g !! t') →
         locals M !! t = Some lt → locals M !! t' = Some lt' → tl_cpu lt = tl_cpu lt' → t = t') ∧
      (∀ f st, states g !! f = Some st → (∀ t x, threads g !! t = Some x → on_cpu x ≠ Some f) →
         ∃ fb, heap M !! f = Some fb ∧ ctx_ fb = ctx_of st) ∧
      m_fiber_count M = u64 (Z.of_nat (size (heap M))).
Proof.
  intros l. split; [exact legal0_ok|].
  destruct (contexts_refine 1%nat 2%nat (λ _, 3%nat) 4096 5 run0 l) as (M0 & HM0 & H); [done|done|exact legal0_ok|].
  exists M0. split; [done|]. assert (Hf : fresh_run 2%nat (λ _, 3%nat) 4096 l M0); [|by split; [|apply H]].
  injection HM0 as <-. unfold l, with_mains, legal0. cbn [fmap list_fmap].
  do 13 (eapply fresh_run_cons; [vm_compute; reflexivity|by vm_compute|]). exact I.
Defined.

(** The promise that a fiber with a wakeup in the queue does not yield to ready
    is needed: [YieldToReady] sets READY before its context is saved, and [run]
    skips only a fiber in EXEC.  A second thread can take the fiber in between;
    it switches to the context saved before - here the fiber's very first, so
    its function starts again - and two processors are on one stack, with no
    assertion failing. *)
Theorem early_wakeup_shares_stack :
  ∃ M x1 x2 (l1 l2 : list (action nat)), let l := l1 ++ [ABody 1 EReady] ++ l2 in
    legal_run l1 (system_new run0) ∧
    (M0 ← machine_new 1%nat 4096 5 run0; machine_steps 2%nat (λ _, 3%nat) 4096 (with_mains l) M0) = Ret M ∧
    m_threads M !! 1 = Some x1 ∧ m_threads M !! 2 = Some x2 ∧
    at_ x1 = Leaving KFiber 9 ∧ at_ x2 = Inside KFiber 9 ∧
    tl_cpu (local 1 M) = Some 9 ∧ tl_cpu (local 2 M) = Some 9.
Proof.
  eexists _, _, _,
    [AThread 1 11; AThread 2 12; ACreate 9; ASchedule (mkFT (Some 9) None (-1)); ARun 1 50; ARun 1 50;
     ASchedule (mkFT (Some 9) None (-1))], [ARun 2 50; ARun 2 50].
  cbn zeta. split.
  { do 6 legal_step decide_legal. legal_step decide_legal. exact I. }
  split; [vm_compute; reflexivity|]. by vm_compute.
Qed.

(** The caller's thread in the loop: its processor is on the root fiber, on a
    task's, and on the root fiber again. *)
Definition run1 : Scheduler nat := mkS [] (Some 5) [1] 1 0 0 false true 1.

Definition cpu_after (l : list (action nat)) : outcome (option Z) :=
  M0 ← machine_new 1%nat 4096 4 run1;
  M ← machine_steps 2%nat (λ _, 3%nat) 4096 (with_mains l) M0;
  Ret (tl_cpu (local 1 M)).

Example root_thread_runs :
  let go_in := [AThread 1 11; AThread 2 12; ACreate 9; ASchedule (mkFT (Some 9) None (-1)); ARun 1 50; ARun 1 50] in
  cpu_after [] = Ret (Some 4) ∧ cpu_after [AThread 1 11] = Ret (Some 5) ∧
  cpu_after go_in = Ret (Some 9) ∧ cpu_after (go_in ++ [ABody 1 EHold]) = Ret (Some 5).
Proof. by vm_compute. Qed.
