(* ===== verification/Tasks.v ===== *)
(** * What becomes of scheduled tasks

    Two properties of whole runs of the scheduler (scheduler.cpp).  An entry that
    is put in the queue is taken exactly once, by a thread it may run on; and
    [Scheduler::stop] on the thread that made the scheduler comes back, after
    everything in the queue has run in order. *)
From S2P Require Import Prelude Fiber Scheduler.

Section Tasks.
Context {C : Type}.
Implicit Types (g : system C) (x : thread C) (q : list (FiberAndThread C)).

(** ** The history of a run *)

(** What an action puts in the queue: a call of [schedule], or a fiber that
    yielded to ready and is back. *)
Definition pushed (a : action C) g : list (FiberAndThread C) :=
  match a with
  | ASchedule ft => if entry_ok ft then [ft] else []
  | ARun t _ =>
      match at_ <$> threads g !! t with
      | Some (Done KFiber f | Done KCb f) =>
          if bool_decide (state_of g f = READY) then [mkFT (Some f) None (-1)] else []
      | _ => []
      end
  | _ => []
  end.

(** What the thread of an action begins to work on. *)
Definition begun (a : action C) g : list (Z * FiberAndThread C) :=
  match a with
  | ARun t _ =>
      match at_ <$> threads g !! t with
      | Some (Picked (Some ft)) => [(t, ft)]
      | _ => []
      end
  | _ => []
  end.

Fixpoint history (l : list (action C)) g : list (FiberAndThread C) * list (Z * FiberAndThread C) :=
  match l with
  | [] => ([], [])
  | a :: l' =>
      match step a g with
      | Ret g' => let '(p, b) := history l' g' in (pushed a g ++ p, begun a g ++ b)
      | _ => ([], [])
      end
  end.

(** What threads have taken and not begun. *)
Definition holds (t : Z) x : list (Z * FiberAndThread C) :=
  match at_ x with Picked (Some ft) => [(t, ft)] | _ => [] end.
Definition held g : list (Z * FiberAndThread C) :=
  map_to_list (threads g) ≫= λ tx, holds tx.1 tx.2.

(** An entry on a thread it may run on. *)
Definition bound (tf : Z * FiberAndThread C) : Prop := thread_ tf.2 = -1 ∨ thread_ tf.2 = tf.1.

Lemma held_insert_new t x g sch' st :
  threads g !! t = None → held (mkSys sch' st (<[t := x]> (threads g))) ≡ₚ holds t x ++ held g.
Proof. intros Ht. unfold held. cbn. by rewrite map_to_list_insert. Qed.

(** One thread moves. *)
Lemma held_insert t x x' g sch' st :
  threads g !! t = Some x →
  holds t x ++ held (mkSys sch' st (<[t := x']> (threads g))) ≡ₚ holds t x' ++ held g.
Proof.
  intros Ht. pose (g0 := mkSys (sch g) (states g) (delete t (threads g))).
  assert (Hd : threads g0 !! t = None) by apply lookup_delete_eq.
  pose proof (held_insert_new t x' g0 sch' st Hd) as H'.
  pose proof (held_insert_new t x g0 (sch g) (states g) Hd) as H.
  cbn in H, H'. rewrite insert_delete_eq in H'. rewrite (insert_delete_id _ _ _ Ht) in H.
  assert (held (mkSys (sch g) (states g) (threads g)) = held g) as E by done.
  rewrite E in H. rewrite H', H. solve_Permutation.
Qed.

Lemma pick_conserves (state : Z → State) (tid : Z) q : ∀ q' o b,
  pick state tid q = Ret (q', o, b) →
  match o with Some it => q ≡ₚ it :: q' ∧ bound (tid, it) | None => q' = q end.
Proof.
  induction q as [|it q IH]; intros q' o b; cbn; [by intros [= <- <- <-]|].
  assert (Hskip : ∀ q1 o1, match o1 with Some ft => q ≡ₚ ft :: q1 ∧ bound (tid, ft) | None => q1 = q end →
    match o1 with Some ft => it :: q ≡ₚ ft :: it :: q1 ∧ bound (tid, ft) | None => it :: q1 = it :: q end).
  { intros q1 [ft|]; [|by intros ->]. intros [Hq Hb]. split; [|done]. rewrite Hq. solve_Permutation. }
  destruct (negb (thread_ it =? -1) && negb (thread_ it =? tid)) eqn:Hth.
  - destruct (pick state tid q) as [[[q1 o1] b1]| | |] eqn:Hp; cbn; try done. intros [= <- <- <-].
    apply Hskip. by eapply IH.
  - destruct (negb (null (fiber_ it)) || negb (null (cb_ it))); cbn; [|done].
    destruct (match fiber_ it with Some f => bool_decide (state f = EXEC) | None => false end).
    + destruct (pick state tid q) as [[[q1 o1] b1]| | |] eqn:Hp; cbn; try done. intros [= <- <- <-].
      apply Hskip. by eapply IH.
    + intros [= <- <- <-]. split; [done|]. unfold bound. cbn. lia.
Qed.

(** The entries in the queue, in the hands of threads, and out of them. *)
Definition kept g : list (FiberAndThread C) := (held g).*2 ++ fibers_ (sch g).
Definition conserves (a : action C) g g' : Prop :=
  pushed a g ++ kept g ≡ₚ (begun a g).*2 ++ kept g' ∧
  (Forall bound (held g) → Forall bound (begun a g) ∧ Forall bound (held g')).

Lemma schedule_queue (ft : FiberAndThread C) s :
  fibers_ (schedule ft s).1 = fibers_ s ++ if entry_ok ft then [ft] else [].
Proof.
  unfold schedule, scheduleNoLock. fold (entry_ok ft). destruct (entry_ok ft); cbn; [done|].
  by rewrite app_nil_r.
Qed.

(** A thread that moves and changes the queue by [push]. *)
Lemma conserves_move (a : action C) g t x x' st sch' push :
  threads g !! t = Some x → pushed a g = push → begun a g = holds t x → holds t x' = [] →
  fibers_ sch' = fibers_ (sch g) ++ push →
  conserves a g (mkSys sch' st (<[t := x']> (threads g))).
Proof.
  intros Ht Hp Hb Hx' Hq. pose proof (held_insert t x x' g sch' st Ht) as H. rewrite Hx' in H. cbn in H.
  unfold conserves, kept. rewrite Hp, Hb, <-H. cbn [sch]. rewrite Hq, fmap_app. split.
  - solve_Permutation.
  - by rewrite Forall_app.
Qed.

Lemma run_conserves g t fresh x g' :
  threads g !! t = Some x → run_step t fresh x g = Ret g' → conserves (ARun t fresh) g g'.
Proof.
  intros Ht Hr. assert (Hm : ∀ x' st sch' push, g' = mkSys sch' st (<[t := x']> (threads g)) →
    pushed (ARun t fresh) g = push → begun (ARun t fresh) g = holds t x → holds t x' = [] →
    fibers_ sch' = fibers_ (sch g) ++ push → conserves (ARun t fresh) g g').
  { intros x' st sch' push ->. by apply conserves_move. }
  unfold run_step in Hr. cbn [pushed begun] in Hm. rewrite Ht in Hm. cbn in Hm. unfold holds at 1 in Hm.
  destruct (at_ x) as [|[ft|]|k f|k f|k f|k f|] eqn:Hat.
  - apply bind_Ret in Hr as ([[q o] b] & Hp & Hr). injection Hr as <-. apply pick_conserves in Hp.
    pose proof (held_insert t x (mkT (Picked o) (cb_fiber x) (idle_fiber x)) g
      (if null o then set_queue q (sch g) else add_active 1 (set_queue q (sch g))) (states g) Ht) as H.
    unfold conserves, kept, go, set_sch. cbn [pushed begun]. rewrite Ht. cbn [fmap option_fmap option_map sch threads states].
    rewrite Hat. unfold holds in H. rewrite Hat in H. cbn [app at_] in H. destruct o as [ft|].
    + destruct Hp as [Hp Hb]. cbn in H |- *. rewrite H, Hp. split; [cbn; solve_Permutation|].
      intros HF. split; [done|]. by constructor.
    + subst q. cbn in H |- *. by rewrite H.
  - destruct (match fiber_ ft with Some f => if negb (finished (state_of g f)) then Some f else None | None => None end)
      as [f|]; [|destruct (cb_ ft) as [k|]]; inv_ret.
    + by eapply (Hm _ _ _ []); rewrite ?app_nil_r.
    + by eapply (Hm _ _ _ []); rewrite ?app_nil_r.
    + by eapply (Hm _ _ _ []); rewrite ?app_nil_r.
  - destruct (bool_decide (state_of g (idle_fiber x) = TERM)); inv_ret;
      by eapply (Hm _ _ _ []); rewrite ?app_nil_r.
  - inv_ret. unfold conserves, kept. cbn [pushed begun]. by rewrite Ht; cbn; rewrite Hat.
  - inv_ret. by eapply (Hm _ _ _ []); rewrite ?app_nil_r.
  - inv_ret. eapply (Hm _ _ _ []); [done..|]. rewrite app_nil_r. by destruct k.
  - destruct k.
    + destruct (bool_decide (state_of g f = READY)); [inv_ret; by eapply Hm|].
      destruct (finished (state_of g f)); cbn in Hr; inv_ret; by eapply (Hm _ _ _ []); rewrite ?app_nil_r.
    + destruct (bool_decide (state_of g f = READY)); [inv_ret; by eapply Hm|].
      destruct (finished (state_of g f)); cbn in Hr; inv_ret; by eapply (Hm _ _ _ []); rewrite ?app_nil_r.
    + destruct (finished (state_of g f)); cbn in Hr; inv_ret; by eapply (Hm _ _ _ []); rewrite ?app_nil_r.
  - inv_ret. unfold conserves, kept. cbn [pushed begun]. by rewrite Ht; cbn; rewrite Hat.
Qed.

Lemma body_conserves g t e x g' :
  threads g !! t = Some x → body_step t e x g = Ret g' → conserves (ABody t e) g g'.
Proof.
  intros Ht Hb. unfold body_step in Hb. destruct (at_ x) as [| |k f| | | |] eqn:Hat; try (by injection Hb as <-).
  destruct e; inv_ret; eapply (conserves_move _ g t x _ _ _ []); try done; rewrite ?app_nil_r; try done;
    unfold holds; by rewrite Hat.
Qed.

Lemma step_conserves a g g' : legal a g → step a g = Ret g' → conserves a g g'.
Proof.
  intros Hl Hs. destruct a as [t i|f|ft|t fresh|t e]; cbn [step] in Hs; inv_ret.
  - destruct Hl as [Ht _]. pose proof (held_insert_new t (mkT Top None i) g (sch g) (<[i := INIT]> (states g)) Ht) as H.
    unfold conserves, kept. cbn in H |- *. by rewrite H.
  - done.
  - unfold conserves, kept. cbn. rewrite schedule_queue. unfold held. cbn. split; [solve_Permutation|done].
  - destruct (threads g !! t) as [x|] eqn:Ht; [by eapply run_conserves|]. injection Hs as <-.
    unfold conserves. cbn. by rewrite Ht.
  - destruct (threads g !! t) as [x|] eqn:Ht; [by eapply body_conserves|]. by injection Hs as <-.
Qed.

Lemma run_legal_conserves l : ∀ g g', legal_run l g → steps l g = Ret g' →
  (history l g).1 ++ kept g ≡ₚ (history l g).2.*2 ++ kept g' ∧
  (Forall bound (held g) → Forall bound (history l g).2).
Proof.
  induction l as [|a l IH]; intros g g' Hl Hs; cbn in Hs |- *; [by injection Hs as <-|].
  destruct Hl as [Ha Hl]. apply bind_Ret in Hs as (g1 & Hs1 & Hs). rewrite Hs1.
  destruct (IH g1 g' (Hl g1 Hs1) Hs) as [HP HB]. destruct (step_conserves a g g1 Ha Hs1) as [HP1 HB1].
  destruct (history l g1) as [p b]. cbn in *. split.
  - transitivity (p ++ (pushed a g ++ kept g)); [solve_Permutation|]. rewrite HP1.
    transitivity ((begun a g).*2 ++ (p ++ kept g1)); [solve_Permutation|]. rewrite HP, fmap_app. solve_Permutation.
  - intros Hh. destruct (HB1 Hh). apply Forall_app. auto.
Qed.

(** C6: every entry put in the queue is taken exactly once.  At any point of
    a legal run, with any number of threads, what was ever scheduled - by calls
    of [schedule] or as a fiber that yielded - is what threads have begun to
    work on, what a thread has just taken, and what is in the queue, each entry
    once; and an entry bound to a thread is only begun by that thread. *)
Theorem tasks_once (s : Scheduler C) (l : list (action C)) :
  quiet s → legal_run l (system_new s) →
  ∃ g, steps l (system_new s) = Ret g ∧
    (history l (system_new s)).1 ≡ₚ (history l (system_new s)).2.*2 ++ (held g).*2 ++ fibers_ (sch g) ∧
    Forall bound (history l (system_new s)).2.
Proof.
  intros Hquiet Hl. destruct (legal_run_safe l (system_new s) ∅ (system_new_Inv s Hquiet) Hl) as (g & loc & Hs & _).
  exists g. split; [done|]. destruct (run_legal_conserves l _ _ Hl Hs) as [HP HB].
  assert (held (system_new s) = []) as Hh by (unfold held; cbn; by rewrite map_to_list_empty).
  unfold kept in HP at 1. rewrite Hh in HP, HB. destruct Hquiet as (Hq & _). cbn in HP. rewrite Hq, app_nil_r in HP.
  split; [exact HP|]. by apply HB.
Qed.
End Tasks.

Lemma tasks_once_witness :
  legal_run legal0 (system_new run0) ∧
  ∃ g, steps legal0 (system_new run0) = Ret g ∧
    (history legal0 (system_new run0)).1 ≡ₚ
      (history legal0 (system_new run0)).2.*2 ++ (held g).*2 ++ fibers_ (sch g) ∧
    Forall bound (history legal0 (system_new run0)).2.
Proof. split; [exact legal0_ok|]. apply (tasks_once run0 legal0); [done|exact legal0_ok]. Defined.

(** ** [stop] on the scheduler's own thread

    With [use_caller] and one thread, [stop] calls the root fiber, which runs the
    loop until it exits; nothing else runs meanwhile. *)
Section Stop.
Context {C : Type}.
Implicit Types (g : system C) (q : list (FiberAndThread C)).
(** What a callback schedules, and whether it ends with an exception. *)
Context (spawn : C → list C) (throws : C → bool).

(** One turn of the loop of [Scheduler::idle]: what the idle fiber does when it
    is switched in. *)
Definition idle (s : Scheduler C) : ending := if stopping s then EFinish false else EHold.

Definition entry_of (k : C) : FiberAndThread C := mkFT None (Some k) (-1).

(** One step of the thread [t]: the system, the callback it has taken, and the
    callbacks begun so far. *)
Definition turn (t fresh : Z) (w : system C * option C * list C) : outcome (system C * option C * list C) :=
  let '(g, cur, log) := w in
  match threads g !! t with
  | None => Ret w
  | Some x =>
      match at_ x with
      | Picked (Some ft) =>
          g' ← run_step t fresh x g;
          Ret (g', cb_ ft, log ++ if null (fiber_ ft) then match cb_ ft with Some k => [k] | None => [] end else [])
      | Inside KIdle _ => g' ← body_step t (idle (sch g)) x g; Ret (g', cur, log)
      | Inside _ _ =>
          match cur with
          | Some k =>
              let s' := foldl (λ s k', (schedule (entry_of k') s).1) (sch g) (spawn k) in
              g' ← body_step t (EFinish (throws k)) x (set_sch s' g); Ret (g', None, log)
          | None => Undefined
          end
      | _ => g' ← run_step t fresh x g; Ret (g', cur, log)
      end
  end.

Fixpoint drive (n : nat) (t fresh : Z) (w : system C * option C * list C) : outcome (system C * option C * list C) :=
  match n with O => Ret w | S n => w' ← turn t fresh w; drive n t fresh w' end.

(** The order of a queue that is worked off from the front, where each callback
    adds what it schedules at the end. *)
Inductive fifo : list C → list C → Prop :=
  | fifo_nil : fifo [] []
  | fifo_cons k r order : fifo (r ++ spawn k) order → fifo (k :: r) (k :: order).

(** A queue of callbacks whose offspring grows smaller is worked off. *)
Lemma fifo_exists (size : C → nat) (ks : list C) :
  (∀ k, (sum_list (size <$> spawn k) < size k)%nat) → ∃ order, fifo ks order.
Proof.
  intros Hsize. remember (sum_list (size <$> ks)) as n eqn:Hn.
  revert ks Hn. induction (lt_wf n) as [n _ IH]. intros [|k r] Hn; [by exists []; constructor|].
  destruct (IH (sum_list (size <$> (r ++ spawn k)))) with (r ++ spawn k) as [order Ho]; [|done|].
  - subst n. rewrite fmap_app, sum_list_with_app. cbn. pose proof (Hsize k). lia.
  - exists (k :: order). by constructor.
Qed.

Lemma drive_app n m t fresh w : drive (n + m) t fresh w = drive n t fresh w ≫= drive m t fresh.
Proof.
  revert w. induction n as [|n IH]; intros w; cbn; [done|].
  destruct (turn t fresh w); cbn; [apply IH|done..].
Qed.

(** Thread [t] is at [x], with [a] threads at work and the queue [q], and the
    scheduler is to stop. *)
Definition sits (t : Z) (x : thread C) (a : Z) q g : Prop :=
  threads g !! t = Some x ∧ activeThreadCount_ (sch g) = a ∧ fibers_ (sch g) = q ∧
  stopping_ (sch g) = true ∧ autoStop_ (sch g) = true.

(** At the top of the loop between two callbacks. *)
Definition at_top (t i fresh : Z) q g : Prop :=
  i ≠ fresh ∧ state_of g i = INIT ∧
  ∃ cb, sits t (mkT Top cb i) 0 q g ∧
    match cb with Some c => c = fresh ∧ state_of g c = INIT | None => True end.

Definition callback_on (t : Z) (e : FiberAndThread C) : Prop :=
  fiber_ e = None ∧ is_Some (cb_ e) ∧ bound (t, e).

Lemma state_of_insert g f s (sc : Scheduler C) th : state_of (mkSys sc (<[f := s]> (states g)) th) f = s.
Proof. unfold state_of. cbn. by rewrite lookup_insert_eq. Qed.
Lemma state_of_insert_ne g f f' s (sc : Scheduler C) th : f' ≠ f → state_of (mkSys sc (<[f := s]> (states g)) th) f' = state_of g f'.
Proof. intros Hf. unfold state_of. cbn. by rewrite lookup_insert_ne. Qed.

Lemma pick_head (state : Z → State) t e q :
  callback_on t e → pick state t (e :: q) = Ret (q, Some e, negb (bool_decide (q = []))).
Proof.
  intros (Hf & [k Hk] & Hb). unfold bound in Hb. cbn [fst snd] in Hb. cbn. rewrite Hf, Hk. cbn.
  destruct (Z.eqb_spec (thread_ e) (-1)), (Z.eqb_spec (thread_ e) t); cbn; done || lia.
Qed.

(** What the callback's own calls of [schedule] leave. *)
Lemma schedule_all ks : ∀ s : Scheduler C,
  foldl (λ s k', (schedule (entry_of k') s).1) s ks = set_queue (fibers_ s ++ (entry_of <$> ks)) s.
Proof.
  induction ks as [|k ks IH]; intros s; cbn [foldl]; [cbn; rewrite app_nil_r; by destruct s|].
  rewrite IH. cbn. by rewrite <-app_assoc.
Qed.

Lemma turn_at t fresh g x cur log :
  threads g !! t = Some x →
  turn t fresh (g, cur, log) =
    match at_ x with
    | Picked (Some ft) =>
        g' ← run_step t fresh x g;
        Ret (g', cb_ ft, log ++ if null (fiber_ ft) then match cb_ ft with Some k => [k] | None => [] end else [])
    | Inside KIdle _ => g' ← body_step t (idle (sch g)) x g; Ret (g', cur, log)
    | Inside _ _ =>
        match cur with
        | Some k =>
            let s' := foldl (λ s k', (schedule (entry_of k') s).1) (sch g) (spawn k) in
            g' ← body_step t (EFinish (throws k)) x (set_sch s' g); Ret (g', None, log)
        | None => Undefined
        end
    | _ => g' ← run_step t fresh x g; Ret (g', cur, log)
    end.
Proof. intros Hx. unfold turn. by rewrite Hx. Qed.

Ltac turn_on Hx :=
  rewrite (turn_at _ _ _ _ _ _ Hx); cbn [at_]; unfold run_step; cbn [at_].

(** The turns of one callback. *)
Lemma turn_take t fresh cb i e q g cur log :
  sits t (mkT Top cb i) 0 (e :: q) g → callback_on t e →
  ∃ g', turn t fresh (g, cur, log) = Ret (g', cur, log) ∧ states g' = states g ∧
    sits t (mkT (Picked (Some e)) cb i) 1 q g'.
Proof.
  intros (Ht & Ha & Hq & Hs & Hau) He. turn_on Ht. rewrite Hq, pick_head by done.
  eexists. split; [done|]. split; [done|]. split; [apply lookup_insert_eq|]. cbn. by rewrite Ha.
Qed.

Lemma turn_begin t fresh cb i e k q g cur log :
  sits t (mkT (Picked (Some e)) cb i) 1 q g → fiber_ e = None → cb_ e = Some k →
  match cb with Some c => c = fresh ∧ state_of g c = INIT | None => True end →
  ∃ g', turn t fresh (g, cur, log) = Ret (g', Some k, log ++ [k]) ∧ states g' = <[fresh := EXEC]> (states g) ∧
    sits t (mkT (Inside KCb fresh) (Some fresh) i) 1 q g'.
Proof.
  intros (Ht & Ha & Hq & Hs & Hau) Hf Hk Hcb. turn_on Ht. rewrite Hf, Hk. cbn [cb_fiber null].
  destruct cb as [c|]; [destruct Hcb as [-> Hc]; rewrite Hc|];
    (eexists; split; [done|]; split; [done|]; split; [apply lookup_insert_eq|]; done).
Qed.

Lemma turn_body t fresh i k q g log :
  sits t (mkT (Inside KCb fresh) (Some fresh) i) 1 q g →
  ∃ g', turn t fresh (g, Some k, log) = Ret (g', None, log) ∧
    states g' = <[fresh := if throws k then EXCEPT else TERM]> (states g) ∧
    sits t (mkT (Leaving KCb fresh) (Some fresh) i) 1 (q ++ (entry_of <$> spawn k)) g'.
Proof.
  intros (Ht & Ha & Hq & Hs & Hau). turn_on Ht. rewrite schedule_all. eexists.
  split; [done|]. split; [done|]. split; [apply lookup_insert_eq|]. cbn. by rewrite Hq.
Qed.

Lemma turn_leave t fresh cb i k f a q g cur log :
  sits t (mkT (Leaving k f) cb i) a q g →
  ∃ g', turn t fresh (g, cur, log) = Ret (g', cur, log) ∧ states g' = states g ∧
    sits t (mkT (Back k f) cb i) a q g'.
Proof.
  intros (Ht & Ha & Hq & Hs & Hau). turn_on Ht. eexists.
  split; [done|]. split; [done|]. split; [apply lookup_insert_eq|]. done.
Qed.

Lemma turn_count t fresh cb i k f q g cur log :
  sits t (mkT (Back k f) cb i) (match k with KIdle => 0 | _ => 1 end) q g →
  ∃ g', turn t fresh (g, cur, log) = Ret (g', cur, log) ∧ states g' = states g ∧
    sits t (mkT (Done k f) cb i) 0 q g'.
Proof.
  intros (Ht & Ha & Hq & Hs & Hau). turn_on Ht. eexists. split; [done|]. split; [done|].
  split; [apply lookup_insert_eq|]. destruct k; cbn; rewrite Ha; done.
Qed.

Lemma turn_park t fresh i q g cur log :
  sits t (mkT (Done KCb fresh) (Some fresh) i) 0 q g → finished (state_of g fresh) = true →
  ∃ g', turn t fresh (g, cur, log) = Ret (g', cur, log) ∧ states g' = <[fresh := INIT]> (states g) ∧
    sits t (mkT Top (Some fresh) i) 0 q g'.
Proof.
  intros (Ht & Ha & Hq & Hs & Hau) Hf. turn_on Ht. rewrite Hf.
  assert (state_of g fresh = TERM ∨ state_of g fresh = EXCEPT) as Hst
    by (revert Hf; destruct (state_of g fresh); auto; done).
  rewrite bool_decide_eq_false_2 by (destruct Hst as [-> | ->]; done).
  assert (reset_state (state_of g fresh) = Ret INIT) as -> by (destruct Hst as [-> | ->]; done).
  eexists. split; [done|]. split; [done|]. split; [apply lookup_insert_eq|]. done.
Qed.

(** One callback, from the top of the loop to the top. *)
Lemma cycle t i fresh e k q g cur log :
  at_top t i fresh (e :: q) g → callback_on t e → cb_ e = Some k →
  ∃ g', drive 6 t fresh (g, cur, log) = Ret (g', None, log ++ [k]) ∧
    at_top t i fresh (q ++ (entry_of <$> spawn k)) g'.
Proof.
  intros (Hif & Hi & cb & H0 & Hcb) He Hk. cbn [drive].
  destruct (turn_take t fresh cb i e q g cur log H0 He) as (g1 & -> & E1 & H1).
  destruct (turn_begin t fresh cb i e k q g1 cur log H1) as (g2 & H & E2 & H2); [apply He|done| |].
  { unfold state_of in *. by rewrite E1. }
  cbn [mbind outcome_bind]. rewrite H. clear H.
  destruct (turn_body t fresh i k q g2 (log ++ [k]) H2) as (g3 & H & E3 & H3).
  cbn [mbind outcome_bind]. rewrite H. clear H.
  destruct (turn_leave t fresh _ i KCb fresh 1 _ g3 None (log ++ [k]) H3) as (g4 & H & E4 & H4).
  cbn [mbind outcome_bind]. rewrite H. clear H.
  destruct (turn_count t fresh _ i KCb fresh _ g4 None (log ++ [k]) H4) as (g5 & H & E5 & H5).
  cbn [mbind outcome_bind]. rewrite H. clear H.
  destruct (turn_park t fresh i _ g5 None (log ++ [k]) H5) as (g6 & H & E6 & H6).
  { unfold state_of. rewrite E5, E4, E3, lookup_insert_eq. by destruct (throws k). }
  cbn [mbind outcome_bind]. rewrite H. exists g6. split; [done|]. split; [done|]. split.
  - unfold state_of in *. by rewrite E6, E5, E4, E3, E2, E1, !lookup_insert_ne.
  - exists (Some fresh). split; [done|]. split; [done|]. unfold state_of. by rewrite E6, lookup_insert_eq.
Qed.

(** The turns of the idle fiber. *)
Lemma turn_nothing t fresh cb i g cur log :
  sits t (mkT Top cb i) 0 [] g →
  ∃ g', turn t fresh (g, cur, log) = Ret (g', cur, log) ∧ states g' = states g ∧
    sits t (mkT (Picked None) cb i) 0 [] g'.
Proof.
  intros (Ht & Ha & Hq & Hs & Hau). turn_on Ht. rewrite Hq. eexists.
  split; [done|]. split; [done|]. split; [apply lookup_insert_eq|]. done.
Qed.

Lemma turn_idle t fresh cb i g cur log :
  sits t (mkT (Picked None) cb i) 0 [] g → state_of g i = INIT →
  ∃ g', turn t fresh (g, cur, log) = Ret (g', cur, log) ∧ states g' = <[i := EXEC]> (states g) ∧
    sits t (mkT (Inside KIdle i) cb i) 0 [] g'.
Proof.
  intros (Ht & Ha & Hq & Hs & Hau) Hi. turn_on Ht. cbn [idle_fiber]. rewrite Hi. eexists.
  split; [done|]. split; [done|]. split; [apply lookup_insert_eq|]. done.
Qed.

Lemma turn_stop t fresh cb i g cur log :
  sits t (mkT (Inside KIdle i) cb i) 0 [] g →
  ∃ g', turn t fresh (g, cur, log) = Ret (g', cur, log) ∧ states g' = <[i := TERM]> (states g) ∧
    sits t (mkT (Leaving KIdle i) cb i) 0 [] g'.
Proof.
  intros (Ht & Ha & Hq & Hs & Hau). turn_on Ht.
  assert (stopping (sch g) = true) as Hstop by (unfold stopping; by rewrite Hau, Hs, Hq, Ha).
  unfold idle. rewrite Hstop. eexists.
  split; [done|]. split; [done|]. split; [apply lookup_insert_eq|]. done.
Qed.

Lemma turn_idled t fresh cb i g cur log :
  sits t (mkT (Done KIdle i) cb i) 0 [] g → state_of g i = TERM →
  ∃ g', turn t fresh (g, cur, log) = Ret (g', cur, log) ∧ states g' = states g ∧
    sits t (mkT Top cb i) 0 [] g'.
Proof.
  intros (Ht & Ha & Hq & Hs & Hau) Hi. turn_on Ht. rewrite Hi. eexists.
  split; [done|]. split; [done|]. split; [apply lookup_insert_eq|]. done.
Qed.

Lemma turn_exit t fresh cb i g cur log :
  sits t (mkT (Picked None) cb i) 0 [] g → state_of g i = TERM →
  ∃ g', turn t fresh (g, cur, log) = Ret (g', cur, log) ∧
    sits t (mkT Exited cb i) 0 [] g'.
Proof.
  intros (Ht & Ha & Hq & Hs & Hau) Hi. turn_on Ht. cbn [idle_fiber]. rewrite Hi. eexists.
  split; [done|]. split; [apply lookup_insert_eq|]. done.
Qed.

(** With the queue empty the idle fiber returns and the loop ends. *)
Lemma wind_down t i fresh g cur log :
  at_top t i fresh [] g →
  ∃ g' cb, drive 8 t fresh (g, cur, log) = Ret (g', cur, log) ∧ sits t (mkT Exited cb i) 0 [] g'.
Proof.
  intros (Hif & Hi & cb & H0 & _). cbn [drive].
  destruct (turn_nothing t fresh cb i g cur log H0) as (g1 & -> & E1 & H1). cbn [mbind outcome_bind].
  destruct (turn_idle t fresh cb i g1 cur log H1) as (g2 & -> & E2 & H2); [unfold state_of; by rewrite E1|].
  cbn [mbind outcome_bind].
  destruct (turn_stop t fresh cb i g2 cur log H2) as (g3 & -> & E3 & H3). cbn [mbind outcome_bind].
  destruct (turn_leave t fresh cb i _ _ _ _ g3 cur log H3) as (g4 & -> & E4 & H4). cbn [mbind outcome_bind].
  destruct (turn_count t fresh cb i KIdle i _ g4 cur log H4) as (g5 & -> & E5 & H5). cbn [mbind outcome_bind].
  assert (Hend : state_of g5 i = TERM) by (unfold state_of; by rewrite E5, E4, E3, lookup_insert_eq).
  destruct (turn_idled t fresh cb i g5 cur log H5 Hend) as (g6 & -> & E6 & H6). cbn [mbind outcome_bind].
  destruct (turn_nothing t fresh cb i g6 cur log H6) as (g7 & -> & E7 & H7). cbn [mbind outcome_bind].
  destruct (turn_exit t fresh cb i g7 cur log H7) as (g8 & -> & H8); [unfold state_of; by rewrite E7, E6|].
  by exists g8, cb.
Qed.

(** The thread stays out. *)
Lemma drive_exited n t fresh cb i g cur log :
  sits t (mkT Exited cb i) 0 [] g → drive n t fresh (g, cur, log) = Ret (g, cur, log).
Proof. intros (Ht & _). induction n as [|n IH]; cbn [drive]; [done|]. by turn_on Ht. Qed.

(** The loop works off its queue, then ends. *)
Lemma drive_drains t i fresh ks order : fifo ks order → ∀ q g cur log,
  at_top t i fresh q g → Forall2 (λ e k, callback_on t e ∧ cb_ e = Some k) q ks →
  ∃ n g' cur' cb, sits t (mkT Exited cb i) 0 [] g' ∧
    ∀ m, (n ≤ m)%nat → drive m t fresh (g, cur, log) = Ret (g', cur', log ++ order).
Proof.
  induction 1 as [|k r order Ho IH]; intros q g cur log Hg Hq.
  - apply Forall2_nil_inv_r in Hq as ->. destruct (wind_down t i fresh g cur log Hg) as (g' & cb & Hd & Hx).
    exists 8%nat, g', cur, cb. split; [done|]. intros m Hm.
    replace m with (8 + (m - 8))%nat by lia. rewrite drive_app, Hd. cbn [mbind outcome_bind].
    rewrite app_nil_r. by eapply drive_exited.
  - apply Forall2_cons_inv_r in Hq as (e & q' & [He Hk] & Hq & ->).
    destruct (cycle t i fresh e k q' g cur log Hg He Hk) as (g1 & Hd & Hg1).
    destruct (IH (q' ++ (entry_of <$> spawn k)) g1 None (log ++ [k])) as (n & g' & cur' & cb & Hx & Hn); [done| |].
    { apply Forall2_app; [done|]. apply Forall2_fmap_l, Forall_Forall2_diag. apply Forall_forall. intros k' _.
      split; [|done]. split; [done|]. split; [done|]. by left. }
    exists (6 + n)%nat, g', cur', cb. split; [done|]. intros m Hm.
    replace m with (6 + (m - 6))%nat by lia. rewrite drive_app, Hd. cbn [mbind outcome_bind].
    rewrite Hn by lia. by rewrite <-app_assoc.
Qed.

(** [Scheduler::stop] called by the thread [t] that made the scheduler, when the
    scheduler has no other: [i] and [fresh] are the addresses [run] gives its
    fibers.  [fuel] bounds the turns of the loop. *)
Definition stop_caller (fuel : nat) (t i fresh : Z) (s : Scheduler C) : outcome (Scheduler C * list C) :=
  '(s', call) ← stop INIT true s;
  match call with
  | Some true =>
      '(g, _, log) ← drive fuel t fresh (mkSys s' {[i := INIT]} {[t := mkT Top None i]}, None, []);
      match at_ <$> threads g !! t with Some Exited => Ret (sch g, log) | _ => Undefined end
  | _ => Ret (s', [])
  end.

(** C8: [stop] comes back.  When the calling thread is the scheduler's only
    one, every callback in the queue and every callback these schedule in turn
    runs exactly once, in the order in which they were scheduled, whether or not
    they end with exceptions; then the loop ends, with the queue empty and the
    scheduler stopped.  It suffices that the callbacks a callback schedules are
    smaller than itself. *)
Theorem stop_drains (size : C → nat) (s : Scheduler C) (ks : list C) (root t i fresh : Z) :
  (∀ k, (sum_list (size <$> spawn k) < size k)%nat) →
  rootFiber_ s = Some root → threadCount_ s = 0 → rootThread_ s = t → activeThreadCount_ s = 0 →
  t ≠ -1 → i ≠ fresh → Forall2 (λ e k, callback_on t e ∧ cb_ e = Some k) (fibers_ s) ks →
  ∃ s' order n, fifo ks order ∧ stopping s' = true ∧
    ∀ m, (n ≤ m)%nat → stop_caller m t i fresh s = Ret (s', order).
Proof.
  intros Hsize Hroot Hn Ht Ha Ht1 Hif Hq. destruct (fifo_exists size ks Hsize) as [order Ho].
  unfold stop_caller, stop. rewrite Hroot, Hn. cbn [null negb andb]. rewrite (bool_decide_eq_true_2 (INIT = INIT)) by done.
  rewrite orb_true_r. cbn [andb].
  set (s2 := mkS (fibers_ s) _ _ _ _ _ true true _).
  assert (Hstop : stopping s2 = bool_decide (fibers_ s = [])).
  { unfold stopping. cbn. by rewrite Ha, andb_true_r. }
  destruct (stopping s2) eqn:Hs2.
  - assert (fibers_ s = []) as Hnil by (by symmetry in Hstop; apply bool_decide_eq_true in Hstop).
    rewrite Hnil in Hq. apply Forall2_nil_inv_l in Hq as ->. inversion Ho; subst order.
    exists s2, [], 0%nat. done.
  - destruct (drive_drains t i fresh ks order Ho (fibers_ s) (mkSys s2 {[i := INIT]} {[t := mkT Top None i]}) None [])
      as (n & g & cur & cb & (Hx & Hg1 & Hg2 & Hg3 & Hg4) & Hd); [|done|].
    { split; [done|]. split; [unfold state_of; cbn; by rewrite lookup_singleton_eq|].
      exists None. split; [|done]. split_and!; try done. apply lookup_singleton_eq. }
    exists (sch g), order, n. split; [done|]. split; [unfold stopping; by rewrite Hg1, Hg2, Hg3, Hg4|].
    intros m Hm. rewrite Ht, (proj2 (Z.eqb_neq t (-1)) Ht1). cbn -[drive]. rewrite Hd by done.
    cbn -[drive]. by rewrite Hx.
Qed.
End Stop.

Definition spawn0 (k : nat) : list nat := match k with 5 => [1; 4] | 4 => [2] | _ => [] end%nat.
Definition caller0 : Scheduler nat :=
  mkS [entry_of 5%nat; mkFT None (Some 3%nat) 7] (Some 1) [7] 0 0 0 false false 7.

(** The example is not empty: four callbacks run. *)
Example stop_caller_runs :
  stop_caller spawn0 (λ k, bool_decide (k = 2%nat)) 40 7 20 21 caller0 =
    Ret (mkS [] (Some 1) [7] 0 0 0 true true 7, [5; 3; 1; 4; 2]%nat).
Proof. by vm_compute. Qed.

Lemma stop_drains_witness :
  ∃ s' order n, fifo spawn0 [5; 3]%nat order ∧ stopping s' = true ∧
    ∀ m, (n ≤ m)%nat → stop_caller spawn0 (λ _, false) m 7 20 21 caller0 = Ret (s', order).
Proof.
  apply (stop_drains spawn0 (λ _, false) (λ k, k * k + 1)%nat caller0 [5; 3]%nat 1 7 20 21); try done.
  - intros k. do 6 (destruct k as [|k]; [cbn; lia|]). cbn. lia.
  - constructor; [|constructor; [|constructor]]; (split; [|done]); (split; [done|]); (split; [by eexists|]).
    + by left.
    + by right.
Defined.
