(* ===== verification/Pool.v ===== *)
(** * Stopping a scheduler with any number of threads

    [Scheduler::start] and [Scheduler::stop] (scheduler.cpp) with the threads
    of the pool at work: what a thread keeps of its own (its [t_scheduler], its
    [t_scheduler_fiber], its hooks), how it enters [run], and [stop] cut where
    other threads may intervene, down to the joins.  Under any fair schedule
    [stop] comes back, when every callback has run. *)
From S2P Require Import Prelude Fiber Scheduler Tasks.

(** ** What belongs to a thread *)
Record locals : Type := mkLocals {
  t_scheduler : option Z;
  t_scheduler_fiber : option Z;
  t_hook_enable : bool }.

(** A new thread's. *)
Definition no_locals : locals := mkLocals None None false.

Definition GetThis (l : locals) : option Z := t_scheduler l.
Definition GetMainFiber (l : locals) : option Z := t_scheduler_fiber l.
Definition is_hook_enable (l : locals) : bool := t_hook_enable l.
Definition set_hook_enable (flag : bool) (l : locals) : locals :=
  mkLocals (t_scheduler l) (t_scheduler_fiber l) flag.
Definition setThis (this : Z) (l : locals) : locals :=
  mkLocals (Some this) (t_scheduler_fiber l) (t_hook_enable l).

(** What the constructor and the destructor of the scheduler [this] do to the
    calling thread's; [root] is [rootFiber_]. *)
Definition Scheduler_new_locals (use_caller : bool) (this root : Z) (l : locals) : locals :=
  if use_caller then mkLocals (Some this) (Some root) (t_hook_enable l) else l.
Definition Scheduler_delete_locals (this : Z) (l : locals) : locals :=
  if bool_decide (GetThis l = Some this) then mkLocals None (t_scheduler_fiber l) (t_hook_enable l) else l.

(** The head of [Scheduler::run] on thread [tid], whose own fiber is [main]. *)
Definition run_enter (this tid rootThread main : Z) (l : locals) : locals :=
  let l1 := setThis this (set_hook_enable true l) in
  if negb (tid =? rootThread) then mkLocals (t_scheduler l1) (Some main) (t_hook_enable l1) else l1.

(** ** The pool *)
Section Pool.
Context {C : Type}.
(** What a callback schedules, and whether it ends with an exception. *)
Context (spawn : C → list C) (throws : C → bool).
(** The scheduler's address; of each thread, the addresses of its own fiber and
    of the two fibers [run] makes there; the thread that made the scheduler. *)
Context (this : Z) (main_of idle_of cb_of : Z → Z) (caller : Z).

(** Where [stop] is: not called; past its guards and the flags; in the root
    fiber; about to take [threads_]; at the joins; back. *)
Inductive phase : Type :=
  | Before
  | Flagged
  | Calling
  | Swapping
  | Joining (thrs : list Z)
  | Returned.

#[local] Instance phase_eq : EqDecision phase := ltac:(solve_decision).

(** The run loop's threads, what each has taken and not finished, the callbacks
    begun so far, the threads' own variables, [threads_], and the caller. *)
Record pool : Type := mkPool {
  sys : system C;
  taken : gmap Z C;
  log : list C;
  tls : gmap Z locals;
  threads_ : list Z;
  at_stop : phase }.

Definition locals_of (p : pool) (t : Z) : locals := default no_locals (tls p !! t).
Definition set_phase (ph : phase) (p : pool) : pool :=
  mkPool (sys p) (taken p) (log p) (tls p) (threads_ p) ph.
Definition set_sys (g : system C) (p : pool) : pool :=
  mkPool g (taken p) (log p) (tls p) (threads_ p) (at_stop p).

(** [Thread::join] returns when the thread's function has. *)
Definition exited (g : system C) (t : Z) : bool :=
  match at_ <$> threads g !! t with Some Exited => true | _ => false end.

(** One step of [run] on thread [t]; the first enters it. *)
Definition run_turn (t : Z) (p : pool) : outcome pool :=
  match threads (sys p) !! t with
  | None =>
      g ← step (AThread t (idle_of t)) (sys p);
      let l := run_enter this t (rootThread_ (sch (sys p))) (main_of t) (locals_of p t) in
      Ret (mkPool g (taken p) (log p) (<[t := l]> (tls p)) (threads_ p) (at_stop p))
  | Some _ =>
      '(g, cur, log') ← turn spawn throws t (cb_of t) (sys p, taken p !! t, log p);
      Ret (mkPool g (partial_alter (λ _, cur) t (taken p)) log' (tls p) (threads_ p) (at_stop p))
  end.

(** Whether [stop], once its flags are set, calls the root fiber. *)
Definition stop_calls (s : Scheduler C) : bool := negb (null (rootFiber_ s)) && negb (stopping s).

(** One step of [Scheduler::stop]. *)
Definition stop_turn (p : pool) : outcome pool :=
  match at_stop p with
  | Before =>
      let root_state := if exited (sys p) caller then TERM else INIT in
      let here := bool_decide (GetThis (locals_of p caller) = Some this) in
      '(s, r) ← stop root_state here (sch (sys p));
      Ret (set_phase (if null r then Returned else Flagged) (set_sys (set_sch s (sys p)) p))
  | Flagged => Ret (set_phase (if stop_calls (sch (sys p)) then Calling else Swapping) p)
  | Calling => if exited (sys p) caller then Ret (set_phase Swapping p) else run_turn caller p
  | Swapping => Ret (mkPool (sys p) (taken p) (log p) (tls p) [] (Joining (threads_ p)))
  | Joining [] => Ret (set_phase Returned p)
  | Joining (t :: r) => Ret (if exited (sys p) t then set_phase (Joining r) p else p)
  | Returned => Ret p
  end.

(** Who moves; or someone schedules a callback from outside. *)
Inductive event : Type :=
  | Turn (t : Z)
  | Push (ft : FiberAndThread C).

Definition pool_step (e : event) (p : pool) : outcome pool :=
  match e with
  | Turn t =>
      if bool_decide (t = caller) then stop_turn p
      else if bool_decide (t ∈ threadIds_ (sch (sys p))) then run_turn t p else Ret p
  | Push ft => g ← step (ASchedule ft) (sys p); Ret (set_sys g p)
  end.

Fixpoint pool_run (l : list event) (p : pool) : outcome pool :=
  match l with [] => Ret p | e :: l' => p' ← pool_step e p; pool_run l' p' end.

(** The constructor, then [start]; [ids] are the threads it makes. *)
Definition pool_new (n : Z) (use_caller : bool) (root : Z) (ids : list Z) : outcome pool :=
  s ← Scheduler_new n use_caller caller root None;
  '(s', thrs) ← start [] ids s;
  Ret (mkPool (system_new s') ∅ [] {[caller := Scheduler_new_locals use_caller this root no_locals]}
         thrs Before).

(** A fair schedule: [n] times over, every one of [actors] moves at least once. *)
Inductive rounds (actors : list Z) : nat → list Z → Prop :=
  | rounds_0 l : rounds actors 0 l
  | rounds_S n l l' :
      Forall (λ t, t ∈ l) actors → rounds actors n l' → rounds actors (S n) (l ++ l').

(** ** One thread by itself

    With callbacks only, what a thread does depends on its own place and its own
    two fibers, on the queue, and on whether the scheduler may stop. *)
Record local : Type := mkL {
  pt : point C;
  has_cb : bool;
  idle_st : State;
  cb_st : State;
  cur : option C }.

Definition thread_of (t : Z) (l : local) : thread C :=
  mkT (pt l) (if has_cb l then Some (cb_of t) else None) (idle_of t).

Definition sees (g : system C) (t : Z) (l : local) : Prop :=
  threads g !! t = Some (thread_of t l) ∧ state_of g (idle_of t) = idle_st l ∧ state_of g (cb_of t) = cb_st l.

Definition callback (e : FiberAndThread C) : Prop := fiber_ e = None ∧ is_Some (cb_ e).
Definition parked (l : local) : Prop := has_cb l = true → cb_st l = INIT.
Definition rested (l : local) : Prop := idle_st l = INIT ∨ idle_st l = HOLD ∨ idle_st l = TERM.

Definition local_ok (t : Z) (l : local) : Prop :=
  match pt l with
  | Top | Picked None => parked l ∧ rested l
  | Picked (Some e) => parked l ∧ rested l ∧ callback e
  | Inside KCb f => f = cb_of t ∧ has_cb l = true ∧ cb_st l = EXEC ∧ is_Some (cur l) ∧ rested l
  | Leaving KCb f | Back KCb f | Done KCb f =>
      f = cb_of t ∧ has_cb l = true ∧ (cb_st l = TERM ∨ cb_st l = EXCEPT) ∧ rested l
  | Inside KIdle f => f = idle_of t ∧ idle_st l = EXEC ∧ parked l
  | Leaving KIdle f => f = idle_of t ∧ idle_st l = TERM ∧ parked l
  | Back KIdle f | Done KIdle f => f = idle_of t ∧ (idle_st l = EXEC ∨ idle_st l = TERM) ∧ parked l
  | Exited => idle_st l = TERM
  | Inside KFiber _ | Leaving KFiber _ | Back KFiber _ | Done KFiber _ => False
  end.

(** What a thread does in one step to itself and the queue, [halt] telling
    whether the scheduler may stop; the last argument is what it begins. *)
Inductive move (t : Z) (halt : bool) :
    local → list (FiberAndThread C) → local → list (FiberAndThread C) → list C → Prop :=
  | m_take h i s c q1 e q2 : bound (t, e) →
      move t halt (mkL Top h i s c) (q1 ++ e :: q2) (mkL (Picked (Some e)) h i s c) (q1 ++ q2) []
  | m_none h i s c q : Forall (λ e, ¬ bound (t, e)) q →
      move t halt (mkL Top h i s c) q (mkL (Picked None) h i s c) q []
  | m_begin e k h i s c q : cb_ e = Some k →
      move t halt (mkL (Picked (Some e)) h i s c) q (mkL (Inside KCb (cb_of t)) true i EXEC (Some k)) q [k]
  | m_body k i q :
      move t halt (mkL (Inside KCb (cb_of t)) true i EXEC (Some k)) q
        (mkL (Leaving KCb (cb_of t)) true i (if throws k then EXCEPT else TERM) None) (q ++ (entry_of <$> spawn k)) []
  | m_leave k f h i s c q :
      move t halt (mkL (Leaving k f) h i s c) q (mkL (Back k f) h i s c) q []
  | m_count k f h i s c q :
      move t halt (mkL (Back k f) h i s c) q (mkL (Done k f) h i s c) q []
  | m_park i s c q :
      move t halt (mkL (Done KCb (cb_of t)) true i s c) q (mkL Top true i INIT c) q []
  | m_exit h s c q :
      move t halt (mkL (Picked None) h TERM s c) q (mkL Exited h TERM s c) q []
  | m_idle h i s c q : i ≠ TERM →
      move t halt (mkL (Picked None) h i s c) q (mkL (Inside KIdle (idle_of t)) h EXEC s c) q []
  | m_hold h s c q : halt = false →
      move t halt (mkL (Inside KIdle (idle_of t)) h EXEC s c) q (mkL (Back KIdle (idle_of t)) h EXEC s c) q []
  | m_finish h s c q : halt = true →
      move t halt (mkL (Inside KIdle (idle_of t)) h EXEC s c) q (mkL (Leaving KIdle (idle_of t)) h TERM s c) q []
  | m_held h s c q :
      move t halt (mkL (Done KIdle (idle_of t)) h EXEC s c) q (mkL Top h HOLD s c) q []
  | m_over h s c q :
      move t halt (mkL (Done KIdle (idle_of t)) h TERM s c) q (mkL Top h TERM s c) q []
  | m_out h i s c q :
      move t halt (mkL Exited h i s c) q (mkL Exited h i s c) q [].

Lemma move_ok t halt l q l' q' b :
  move t halt l q l' q' b → local_ok t l → Forall callback q → local_ok t l' ∧ Forall callback q'.
Proof.
  intros Hm Hl Hq. destruct Hm; unfold local_ok, parked, rested in *; cbn in *.
  - apply Forall_app in Hq as [H1 [He H2]%Forall_cons]. split; [naive_solver|by apply Forall_app].
  - done.
  - naive_solver.
  - split; [destruct (throws k); naive_solver|]. apply Forall_app. split; [done|].
    apply Forall_fmap, Forall_true. intros k'. split; [done|by eexists].
  - destruct k; naive_solver.
  - destruct k; naive_solver.
  - naive_solver.
  - naive_solver.
  - naive_solver.
  - naive_solver.
  - naive_solver.
  - naive_solver.
  - naive_solver.
  - naive_solver.
Qed.

Lemma pick_callback (state : Z → State) (t : Z) (q : list (FiberAndThread C)) :
  Forall callback q →
  (∃ b, pick state t q = Ret (q, None, b) ∧ Forall (λ e, ¬ bound (t, e)) q) ∨
  (∃ q1 e q2 b, pick state t q = Ret (q1 ++ q2, Some e, b) ∧ q = q1 ++ e :: q2 ∧ bound (t, e) ∧ callback e).
Proof.
  intros Hq. assert (Hel : ∀ e, callback e → eligible state t e = true ↔ bound (t, e)).
  { intros e [Hf _]. unfold eligible, bound. rewrite Hf. cbn. rewrite andb_true_r, orb_true_iff, !Z.eqb_eq. done. }
  destruct (pick_spec state t q) as [(b & Hp & HF)|(q1 & e & q2 & b & Hp & -> & _ & He)].
  - eapply Forall_impl; [exact Hq|]. intros e [Hf [k Hk]]. unfold entry_ok. by rewrite Hf, Hk.
  - left. exists b. split; [done|]. apply Forall_forall. intros e He Hb.
    pose proof (proj1 (Forall_forall _ _) HF e He) as Hno. cbn beta in Hno. rewrite (proj2 (Hel e (proj1 (Forall_forall _ _) Hq e He)) Hb) in Hno.
    done.
  - right. exists q1, e, q2, b. apply Forall_app in Hq as [_ [Hce _]%Forall_cons]. split; [done|].
    split; [done|]. split; [|done]. by apply Hel.
Qed.

(** ** A turn of a thread *)

Definition same_flags (s s' : Scheduler C) : Prop :=
  rootFiber_ s' = rootFiber_ s ∧ threadIds_ s' = threadIds_ s ∧ threadCount_ s' = threadCount_ s ∧
  stopping_ s' = stopping_ s ∧ autoStop_ s' = autoStop_ s ∧ rootThread_ s' = rootThread_ s.

(** The states of fibers that are not the thread's do not change. *)
Definition others_same (t : Z) (g : system C) (st : gmap Z State) : Prop :=
  ∀ f, f ≠ idle_of t → f ≠ cb_of t → default INIT (st !! f) = state_of g f.

Definition moved (t : Z) (l : local) (log : list C) (g : system C) : Prop :=
  ∃ l' sc st b,
    turn spawn throws t (cb_of t) (g, cur l, log) =
      Ret (mkSys sc st (<[t := thread_of t l']> (threads g)), cur l', log ++ b) ∧
    move t (stopping (sch g)) l (fibers_ (sch g)) l' (fibers_ sc) b ∧
    same_flags (sch g) sc ∧ others_same t g st ∧
    default INIT (st !! idle_of t) = idle_st l' ∧ default INIT (st !! cb_of t) = cb_st l' ∧
    activeThreadCount_ sc =
      u64 (activeThreadCount_ (sch g) + (Z.b2z (active (thread_of t l')) - Z.b2z (active (thread_of t l)))).

Lemma turn_here g t l log : threads g !! t = Some (thread_of t l) →
  turn spawn throws t (cb_of t) (g, cur l, log) =
    match pt l with
    | Picked (Some ft) =>
        g' ← run_step t (cb_of t) (thread_of t l) g;
        Ret (g', cb_ ft, log ++ if null (fiber_ ft) then match cb_ ft with Some k => [k] | None => [] end else [])
    | Inside KIdle _ => g' ← body_step t (idle (sch g)) (thread_of t l) g; Ret (g', cur l, log)
    | Inside _ _ =>
        match cur l with
        | Some k =>
            let s' := foldl (λ s k', (schedule (entry_of k') s).1) (sch g) (spawn k) in
            g' ← body_step t (EFinish (throws k)) (thread_of t l) (set_sch s' g); Ret (g', None, log)
        | None => Undefined
        end
    | _ => g' ← run_step t (cb_of t) (thread_of t l) g; Ret (g', cur l, log)
    end.
Proof. intros Hx. by rewrite (turn_at _ _ _ _ _ _ _ _ Hx). Qed.

(** Gives the new place of the thread, the scheduler, the states and what has
    begun; what is left is computed. *)
Ltac moves_to l' sc st b Hact :=
  exists l', sc, st, b; split; [|split; [|split; [done|split; [|split; [|split]]]]];
    [ try by rewrite ?app_nil_r | try by constructor |intros ? ? ?; unfold state_of; rewrite ?lookup_insert_ne by congruence; try done
      | rewrite ?lookup_insert_eq, ?lookup_insert_ne by congruence; try done
      | rewrite ?lookup_insert_eq, ?lookup_insert_ne by congruence; try done
      | cbn; rewrite ?Hact; solve_int ].

Lemma turn_moves g t l log n :
  idle_of t ≠ cb_of t → sees g t l → local_ok t l → Forall callback (fibers_ (sch g)) →
  activeThreadCount_ (sch g) = u64 n → moved t l log g.
Proof.
  intros Hne (Hth & Hi & Hc) Hok Hq Hn. unfold moved. rewrite (turn_here g t l log Hth).
  destruct l as [pt h i s c]. cbn in Hi, Hc. unfold local_ok, parked, rested in Hok. cbn in Hok.
  destruct pt as [|[e|]|k f|k f|k f|k f|]; try (destruct k; [done| |]); cbn -[run_step body_step turn schedule entry_of].
  - unfold run_step. cbn. destruct (pick_callback (state_of g) t _ Hq) as [(b & -> & Hno)|(q1 & e & q2 & b & -> & Heq & Hb & He)].
    + cbn. moves_to (mkL (Picked None) h i s c) (set_queue (fibers_ (sch g)) (sch g)) (states g) (@nil C) Hn.
    + cbn. moves_to (mkL (Picked (Some e)) h i s c) (add_active 1 (set_queue (q1 ++ q2) (sch g))) (states g) (@nil C) Hn.
      rewrite Heq. by constructor.
  - destruct Hok as (Hp & Hr & [Hf [k Hk]]). unfold run_step. cbn. rewrite Hf, Hk. cbn.
    assert (Hs0 : (if null (if h then Some (cb_of t) else None) then Ret INIT
                   else reset_state (state_of g (match (if h then Some (cb_of t) else None) with Some c => c | None => cb_of t end)))
                  = Ret INIT).
    { destruct h; cbn; [|done]. rewrite Hc. by rewrite (Hp eq_refl : s = INIT). }
    rewrite Hs0. cbn.
    replace (match (if h then Some (cb_of t) else None) with Some c => c | None => cb_of t end) with (cb_of t) by (by destruct h).
    moves_to (mkL (Inside KCb (cb_of t)) true i EXEC (Some k)) (sch g) (<[cb_of t := EXEC]> (states g)) [k] Hn.
  - destruct Hok as (Hp & Hr). unfold run_step. cbn. rewrite Hi. case_bool_decide as Hd.
    + rewrite Hd in *. cbn. moves_to (mkL Exited h TERM s c) (sch g) (states g) (@nil C) Hn.
    + assert (swapIn_state i = Ret EXEC) as -> by (destruct Hr as [-> | [-> | ->]]; done). cbn.
      moves_to (mkL (Inside KIdle (idle_of t)) h EXEC s c) (add_idle 1 (sch g)) (<[idle_of t := EXEC]> (states g)) (@nil C) Hn.
  - destruct Hok as (-> & -> & -> & [k ->] & Hr). cbn -[body_step schedule entry_of]. rewrite schedule_all. unfold body_step. cbn.
    moves_to (mkL (Leaving KCb (cb_of t)) true i (if throws k then EXCEPT else TERM) None)
      (set_queue (fibers_ (sch g) ++ (entry_of <$> spawn k)) (sch g))
      (<[cb_of t := if throws k then EXCEPT else TERM]> (states g)) (@nil C) Hn.
  - destruct Hok as (-> & -> & Hp). unfold body_step. cbn. unfold idle. destruct (stopping (sch g)) eqn:Hst; cbn.
    + moves_to (mkL (Leaving KIdle (idle_of t)) h TERM s c) (sch g) (<[idle_of t := TERM]> (states g)) (@nil C) Hn.
    + rewrite Hi. cbn. moves_to (mkL (Back KIdle (idle_of t)) h EXEC s c) (sch g) (states g) (@nil C) Hn.
  - unfold run_step. cbn. moves_to (mkL (Back KCb f) h i s c) (sch g) (states g) (@nil C) Hn.
  - unfold run_step. cbn. moves_to (mkL (Back KIdle f) h i s c) (sch g) (states g) (@nil C) Hn.
  - unfold run_step. cbn. moves_to (mkL (Done KCb f) h i s c) (add_active (-1) (sch g)) (states g) (@nil C) Hn.
  - unfold run_step. cbn. moves_to (mkL (Done KIdle f) h i s c) (add_idle (-1) (sch g)) (states g) (@nil C) Hn.
  - destruct Hok as (-> & -> & Hs & Hr). unfold run_step. cbn. rewrite Hc.
    rewrite bool_decide_eq_false_2 by (destruct Hs as [-> | ->]; done).
    assert (finished s = true) as -> by (destruct Hs as [-> | ->]; done).
    assert (reset_state s = Ret INIT) as -> by (destruct Hs as [-> | ->]; done). cbn.
    moves_to (mkL Top true i INIT c) (sch g) (<[cb_of t := INIT]> (states g)) (@nil C) Hn.
  - destruct Hok as (-> & Hs & Hp). unfold run_step. cbn. rewrite Hi.
    destruct Hs as [-> | ->]; cbn.
    + moves_to (mkL Top h HOLD s c) (sch g) (<[idle_of t := HOLD]> (states g)) (@nil C) Hn.
    + moves_to (mkL Top h TERM s c) (sch g) (states g) (@nil C) Hn.
  - unfold run_step. cbn. moves_to (mkL Exited h i s c) (sch g) (states g) (@nil C) Hn.
    rewrite app_nil_r, insert_id by exact Hth. by destruct g.
Qed.

(** ** All threads at once *)

(** The fibers [run] makes on different threads have different addresses. *)
Context (idle_inj : ∀ t t', idle_of t = idle_of t' → t = t').
Context (cb_inj : ∀ t t', cb_of t = cb_of t' → t = t').
Context (apart : ∀ t t', idle_of t ≠ cb_of t').

Definition queue (p : pool) : list (FiberAndThread C) := fibers_ (sch (sys p)).
Definition halts (p : pool) : bool := stopping (sch (sys p)).

(** The view of each thread that has entered [run]. *)
Record views (p : pool) (ls : gmap Z local) : Prop := mk_views {
  vw_out : ∀ t, ls !! t = None → threads (sys p) !! t = None;
  vw_in : ∀ t l, ls !! t = Some l → sees (sys p) t l ∧ local_ok t l ∧ taken p !! t = cur l;
  vw_queue : Forall callback (queue p);
  vw_active : activeThreadCount_ (sch (sys p)) = u64 (number active (threads (sys p))) }.

Inductive hop (t : Z) (halt : bool) :
    option local → list (FiberAndThread C) → local → list (FiberAndThread C) → list C → Prop :=
  | hop_enter s c q : hop t halt None q (mkL Top false INIT s c) q []
  | hop_move l q l' q' b : move t halt l q l' q' b → hop t halt (Some l) q l' q' b.

(** A thread moves; the others see nothing but the queue. *)
Lemma views_insert p ls t x' l' sc st tk lg tl :
  views p ls → threads (sys p) !! t = x' → sees (mkSys sc st (<[t := thread_of t l']> (threads (sys p)))) t l' →
  local_ok t l' → Forall callback (fibers_ sc) → others_same t (sys p) st →
  activeThreadCount_ sc = u64 (activeThreadCount_ (sch (sys p)) +
    (Z.b2z (active (thread_of t l')) - match x' with Some x => Z.b2z (active x) | None => 0 end)) →
  tk !! t = cur l' → (∀ t', t' ≠ t → tk !! t' = taken p !! t') →
  views (mkPool (mkSys sc st (<[t := thread_of t l']> (threads (sys p)))) tk lg tl (threads_ p) (at_stop p))
        (<[t := l']> ls).
Proof.
  intros [Ho Hi Hq Ha] Hx Hs Hl Hq' Hst Hact Ht Htk. split; cbn; [| |done|].
  - intros t' [Hn Hne]%lookup_insert_None. rewrite lookup_insert_ne by done. auto.
  - intros t' l. destruct (decide (t' = t)) as [->|Hne].
    + rewrite lookup_insert_eq. by intros [= <-].
    + rewrite lookup_insert_ne by done. intros Hl'. destruct (Hi t' l Hl') as ((H1 & H2 & H3) & Hok & Hc).
      split; [|split; [done|by rewrite Htk]]. split; [cbn; by rewrite lookup_insert_ne|].
      unfold state_of. cbn. split; rewrite Hst; try done; naive_solver.
  - rewrite Hact, Ha. subst x'. destruct (threads (sys p) !! t) as [x|] eqn:Hx.
    + rewrite (number_insert _ _ _ _ _ Hx). solve_int.
    + rewrite number_insert_new by done. solve_int.
Qed.

Lemma run_turn_views p ls t :
  views p ls →
  ∃ p' l' b, run_turn t p = Ret p' ∧ views p' (<[t := l']> ls) ∧
    hop t (halts p) (ls !! t) (queue p) l' (queue p') b ∧
    same_flags (sch (sys p)) (sch (sys p')) ∧ log p' = log p ++ b ∧
    threads_ p' = threads_ p ∧ at_stop p' = at_stop p ∧
    tls p' = match ls !! t with
             | None => <[t := run_enter this t (rootThread_ (sch (sys p))) (main_of t) (locals_of p t)]> (tls p)
             | Some _ => tls p
             end.
Proof.
  intros HV. unfold run_turn. destruct (ls !! t) as [l|] eqn:Hl.
  - destruct (vw_in _ _ HV t l Hl) as (Hs & Hok & Hc).
    destruct (turn_moves (sys p) t l (log p) _ (apart t t) Hs Hok (vw_queue _ _ HV) (vw_active _ _ HV))
      as (l' & sc & st & b & Ht & Hm & Hf & Ho & H1 & H2 & Hact).
    destruct Hs as (Hx & Hs). rewrite Hx, Hc, Ht. cbn.
    eexists _, l', b. split; [done|]. split; [|split_and!; try done; by constructor].
    destruct (move_ok _ _ _ _ _ _ _ Hm Hok (vw_queue _ _ HV)) as [Hok' Hq'].
    eapply (views_insert p ls t (Some (thread_of t l)) l'); try done.
    + split; [apply lookup_insert_eq|done].
    + by rewrite lookup_partial_alter_eq.
    + intros t' Hne. by rewrite lookup_partial_alter_ne.
  - rewrite (vw_out _ _ HV t Hl). cbn.
    set (l' := mkL Top false INIT (state_of (sys p) (cb_of t)) (taken p !! t)).
    eexists _, l', []. split; [done|]. split; [|split_and!; try done; [by constructor|by rewrite app_nil_r]].
    eapply (views_insert p ls t None l'); try done.
    + by apply vw_out with ls.
    + split; [apply lookup_insert_eq|]. unfold state_of. cbn. rewrite lookup_insert_eq, lookup_insert_ne; [done|apply apart].
    + split; [done|by left].
    + apply HV.
    + intros f H1 H2. unfold state_of. cbn. by rewrite lookup_insert_ne.
    + cbn. rewrite (vw_active _ _ HV). solve_int.
Qed.

(** ** The work that is left *)
Context (size : C → nat) (size_spawn : ∀ k, (sum_list (size <$> spawn k) < size k)%nat).

Definition opt {A B} (f : A → B) (d : B) (o : option A) : B := match o with Some a => f a | None => d end.

Definition weigh (e : FiberAndThread C) : nat := opt (λ k, 5 * size k)%nat 0%nat (cb_ e).
Definition load (l : local) : nat :=
  match pt l with
  | Picked (Some e) => weigh e - 1
  | Inside KCb _ => opt (λ k, 5 * size k - 2)%nat 0%nat (cur l)
  | Leaving KCb _ => 2
  | Back KCb _ => 1
  | _ => 0
  end.
Definition qload (q : list (FiberAndThread C)) : nat := sum_list (weigh <$> q).
Definition tload (who : list Z) (ls : gmap Z local) : nat := sum_list ((λ t, opt load 0%nat (ls !! t)) <$> who).

(** A callback and all that comes of it. *)
Fixpoint family (n : nat) (k : C) : list C :=
  match n with O => [] | S n => k :: (spawn k ≫= family n) end.
Definition fam (k : C) : list C := family (size k) k.
Definition qfam (q : list (FiberAndThread C)) : list C := q ≫= λ e, opt fam [] (cb_ e).
Definition lfam (l : local) : list C :=
  match pt l with
  | Picked (Some e) => opt fam [] (cb_ e)
  | Inside KCb _ => opt (λ k, spawn k ≫= fam) [] (cur l)
  | _ => []
  end.
Definition tfam (who : list Z) (ls : gmap Z local) : list C := who ≫= λ t, opt lfam [] (ls !! t).

Lemma size_of_spawned k k' : k' ∈ spawn k → (size k' < size k)%nat.
Proof.
  intros (l1 & l2 & Hk)%list_elem_of_split. pose proof (size_spawn k) as H. rewrite Hk in H.
  rewrite fmap_app, sum_list_with_app in H. cbn in H. lia.
Qed.

Lemma bind_ext_elem {A B} (f g : A → list B) l : (∀ x, x ∈ l → f x = g x) → l ≫= f = l ≫= g.
Proof.
  induction l as [|x l IH]; intros H; cbn; [done|]. rewrite (H x) by by left. f_equal.
  apply IH. intros y Hy. apply H. by right.
Qed.

Lemma bind_nil {A B} (l : list A) : l ≫= (λ _, []) = @nil B.
Proof. by induction l. Qed.

Lemma family_enough n : ∀ k m, (size k ≤ n)%nat → (size k ≤ m)%nat → family n k = family m k.
Proof.
  induction n as [|n IH]; intros k [|m] Hn Hm; pose proof (size_spawn k); try lia. cbn. f_equal.
  apply bind_ext_elem. intros k' Hk'%size_of_spawned. apply IH; lia.
Qed.

Lemma fam_unfold k : fam k = k :: (spawn k ≫= fam).
Proof.
  unfold fam at 1. pose proof (size_spawn k). destruct (size k) as [|n] eqn:Hn; [lia|]. cbn. f_equal.
  apply bind_ext_elem. intros k' Hk'%size_of_spawned. apply family_enough; lia.
Qed.

(** The order of a single thread has the same callbacks. *)
Lemma fifo_fam ks order : fifo spawn ks order → order ≡ₚ ks ≫= fam.
Proof.
  induction 1 as [|k r order _ IH]; [done|]. cbn. rewrite fam_unfold, IH, bind_app. cbn. solve_Permutation.
Qed.

Lemma qload_app q1 q2 : qload (q1 ++ q2) = (qload q1 + qload q2)%nat.
Proof. unfold qload. by rewrite fmap_app, sum_list_with_app. Qed.
Lemma qfam_app q1 q2 : qfam (q1 ++ q2) = qfam q1 ++ qfam q2.
Proof. apply bind_app. Qed.

Lemma qload_spawn ks : qload (entry_of <$> ks) = (5 * sum_list (size <$> ks))%nat.
Proof. induction ks as [|k ks IH]; [done|]. unfold qload in *. cbn in *. rewrite IH. lia. Qed.
Lemma qfam_spawn ks : qfam (entry_of <$> ks) = ks ≫= fam.
Proof. induction ks as [|k ks IH]; [done|]. unfold qfam in *. cbn in *. by rewrite IH. Qed.

(** A turn does some of the work, or is one of the loop's without any. *)
Lemma hop_load t halt o q l' q' b :
  hop t halt o q l' q' b → Forall callback q → from_option (local_ok t) True o →
  (qload q' + load l' < qload q + opt load 0 o)%nat ∨
  q' = q ∧ load l' = 0%nat ∧ opt load 0%nat o = 0%nat.
Proof.
  intros Hh Hq Hok. destruct Hh as [s c q|l q l' q' b Hm]; [by right|].
  assert (Hpos : ∀ k, (0 < size k)%nat) by (intros k; pose proof (size_spawn k); lia).
  destruct Hm as [h i s c q1 e q2 Hb|h i s c q Hno|e k h i s c q Hk|k i q|k f h i s c q|k f h i s c q| | | | | | | |];
    cbn; try (by right).
  - left. rewrite !qload_app. unfold qload, weigh. cbn.
    apply Forall_app in Hq as [_ [[_ [k Hk]] _]%Forall_cons]. rewrite Hk. cbn. pose proof (Hpos k). lia.
  - left. unfold weigh. rewrite Hk. cbn. pose proof (Hpos k). lia.
  - left. rewrite qload_app, qload_spawn. pose proof (size_spawn k). lia.
  - destruct k; [by right|left; lia|by right].
  - destruct k; [by right|left; lia|by right].
Qed.

(** What was begun and what is still to come stay the same. *)
Lemma hop_fam t halt o q l' q' b :
  hop t halt o q l' q' b → Forall callback q → from_option (local_ok t) True o →
  b ++ qfam q' ++ lfam l' ≡ₚ qfam q ++ opt lfam [] o.
Proof.
  intros Hh Hq Hok. destruct Hh as [s c q|l q l' q' b Hm]; [done|].
  destruct Hm as [h i s c q1 e q2 Hb|h i s c q Hno|e k h i s c q Hk|k i q|k f h i s c q|k f h i s c q| | | | | | | |];
    cbn; try done.
  - rewrite !qfam_app. unfold qfam. cbn. solve_Permutation.
  - rewrite Hk. cbn. rewrite fam_unfold. solve_Permutation.
  - rewrite qfam_app, qfam_spawn. by rewrite app_nil_r.
Qed.

Lemma tload_insert who ls t l' :
  NoDup who → t ∈ who → (tload who (<[t := l']> ls) + opt load 0 (ls !! t) = tload who ls + load l')%nat.
Proof.
  unfold tload. induction who as [|t' who IH]; intros Hnd Ht; [by apply not_elem_of_nil in Ht|].
  apply NoDup_cons in Hnd as [Hn Hnd].
  cbn. destruct (decide (t' = t)) as [->|Hne].
  - rewrite lookup_insert_eq. cbn. rewrite (list_fmap_ext _ (λ t, opt load 0%nat (ls !! t)) who); [lia|].
    intros i t' Hi%list_elem_of_lookup_2. rewrite lookup_insert_ne; [done|]. by intros ->.
  - rewrite lookup_insert_ne by done. apply elem_of_cons in Ht as [->|Ht]; [done|]. specialize (IH Hnd Ht). lia.
Qed.

Lemma tfam_insert who ls t l' :
  NoDup who → t ∈ who → tfam who (<[t := l']> ls) ++ opt lfam [] (ls !! t) ≡ₚ tfam who ls ++ lfam l'.
Proof.
  unfold tfam. induction who as [|t' who IH]; intros Hnd Ht; [by apply not_elem_of_nil in Ht|].
  apply NoDup_cons in Hnd as [Hn Hnd].
  cbn. destruct (decide (t' = t)) as [->|Hne].
  - rewrite lookup_insert_eq. cbn. rewrite (bind_ext_elem _ (λ t, opt lfam [] (ls !! t)) who); [solve_Permutation|].
    intros t' Hi. rewrite lookup_insert_ne; [done|]. by intros ->.
  - rewrite lookup_insert_ne by done. apply elem_of_cons in Ht as [->|Ht]; [done|].
    rewrite <-!app_assoc, IH by done. done.
Qed.

(** ** The invariant of a run up to the end of [stop] *)
Context (ids : list Z) (ids_nodup : NoDup (caller :: ids)) (caller_id : caller ≠ -1).

Definition has_root (p : pool) : bool := negb (null (rootFiber_ (sch (sys p)))).
(** The threads that may run the loop. *)
Definition who (p : pool) : list Z := threadIds_ (sch (sys p)).
Definition work (p : pool) (ls : gmap Z local) : nat := (qload (queue p) + tload (who p) ls)%nat.
Definition stopped (p : pool) : bool := stopping_ (sch (sys p)) && autoStop_ (sch (sys p)).
(** [stop] has done with the root fiber. *)
Definition past (ph : phase) : bool :=
  match ph with Swapping | Joining _ | Returned => true | _ => false end.

Record G (p : pool) (ls : gmap Z local) : Prop := mk_G {
  g_views : views p ls;
  g_who : who p = if has_root p then caller :: ids else ids;
  g_some : who p ≠ [];
  g_small : Z.of_nat (length (who p)) < 2 ^ 64;
  g_count : threadCount_ (sch (sys p)) = Z.of_nat (length ids);
  g_thread : rootThread_ (sch (sys p)) = if has_root p then caller else -1;
  g_here : bool_decide (GetThis (locals_of p caller) = Some this) = has_root p;
  g_dom : ∀ t l, ls !! t = Some l → t ∈ who p;
  g_flags : stopped p = negb (match at_stop p with Before => true | _ => false end);
  g_caller : ∀ l, ls !! caller = Some l → at_stop p = Calling ∨ past (at_stop p) = true;
  g_calling : at_stop p = Calling → has_root p = true;
  g_over : ∀ t l, ls !! t = Some l → idle_st l = TERM → at_stop p ≠ Before ∧ work p ls = 0%nat;
  g_past : past (at_stop p) = true → has_root p = true → work p ls = 0%nat;
  g_bound : Forall (λ e, thread_ e = -1 ∨ thread_ e ∈ who p) (queue p);
  g_joins : match at_stop p with
            | Joining thrs =>
                (length thrs ≤ length ids)%nat ∧ (∀ t, t ∈ thrs → t ∈ ids) ∧ ∀ t, t ∈ ids → t ∉ thrs → exited (sys p) t = true
            | Returned => ∀ t, t ∈ ids → exited (sys p) t = true
            | _ => threads_ p = ids
            end;
  g_tls : ∀ t l, ls !! t = Some l → GetThis (locals_of p t) = Some this ∧ is_hook_enable (locals_of p t) = true }.

Lemma who_nodup p ls : G p ls → NoDup (who p).
Proof. intros HG. rewrite (g_who _ _ HG). apply NoDup_cons in ids_nodup as Hn. destruct (has_root p); naive_solver. Qed.

Lemma load_active t l : local_ok t l → active (thread_of t l) = bool_decide (load l ≠ 0%nat).
Proof.
  assert (Hpos : ∀ k, (0 < size k)%nat) by (intros k; pose proof (size_spawn k); lia).
  destruct l as [pt h i s c]. unfold local_ok, active, load. cbn.
  destruct pt as [|[e|]|k f|k f|k f|k f|]; try destruct k; cbn; try done.
  - intros (_ & _ & _ & [k Hk]). unfold weigh. rewrite Hk. cbn. pose proof (Hpos k).
    symmetry. apply bool_decide_eq_true. lia.
  - intros (_ & _ & _ & [k ->] & _). cbn. pose proof (Hpos k). symmetry. apply bool_decide_eq_true. lia.
Qed.

Lemma views_thread p ls t x : views p ls → threads (sys p) !! t = Some x →
  ∃ l, ls !! t = Some l ∧ x = thread_of t l ∧ local_ok t l.
Proof.
  intros HV Hx. destruct (ls !! t) as [l|] eqn:Hl.
  - destruct (vw_in _ _ HV t l Hl) as ((Hx' & _) & Hok & _). exists l. split_and!; congruence || done.
  - rewrite (vw_out _ _ HV t Hl) in Hx. done.
Qed.

Lemma exited_view p ls t : views p ls → exited (sys p) t = true ↔ ∃ l, ls !! t = Some l ∧ pt l = Exited.
Proof.
  intros HV. unfold exited. split.
  - destruct (threads (sys p) !! t) as [x|] eqn:Hx; [|done].
    destruct (views_thread p ls t x HV Hx) as (l & Hl & -> & _). exists l. cbn in H. by destruct (pt l).
  - intros (l & Hl & Hp). destruct (vw_in _ _ HV t l Hl) as ((Hx & _) & _). rewrite Hx. cbn. by rewrite Hp.
Qed.

Lemma number_small p ls : G p ls → 0 ≤ number active (threads (sys p)) < 2 ^ 64.
Proof.
  intros HG. unfold number. split; [lia|]. eapply Z.le_lt_trans; [|exact (g_small _ _ HG)].
  apply Nat2Z.inj_le. etransitivity; [apply map_subseteq_size, map_filter_subseteq|].
  rewrite <-size_dom. rewrite <-(size_list_to_set (C := gset Z) (who p)) by by eapply who_nodup.
  apply subseteq_size. intros t [x Hx]%elem_of_dom. apply elem_of_list_to_set.
  destruct (views_thread p ls t x (g_views _ _ HG) Hx) as (l & Hl & _). by eapply g_dom.
Qed.

Lemma sum_list_zero l : sum_list l = 0%nat ↔ Forall (λ n, n = 0%nat) l.
Proof.
  induction l as [|n l IH]; cbn; [done|]. rewrite Forall_cons, <-IH. lia.
Qed.

Lemma qload_zero q : Forall callback q → qload q = 0%nat ↔ q = [].
Proof.
  intros Hq. destruct Hq as [|e q [_ [k Hk]] _]; [done|]. split; [|done]. unfold qload, weigh. cbn.
  rewrite Hk. cbn. pose proof (size_spawn k). lia.
Qed.

(** The code's test says that nothing is left to do. *)
Lemma halts_work p ls : G p ls → halts p = stopped p && bool_decide (work p ls = 0%nat).
Proof.
  intros HG. pose proof (g_views _ _ HG) as HV. unfold halts, stopping, stopped.
  rewrite (vw_active _ _ HV), u64_small by by eapply number_small.
  rewrite (andb_comm (autoStop_ _)), <-!andb_assoc. do 2 f_equal. apply eq_bool_prop_intro.
  rewrite andb_True, !bool_decide_spec, Is_true_true, Z.eqb_eq. unfold work. rewrite Nat.eq_add_0.
  change (fibers_ (sch (sys p))) with (queue p). rewrite qload_zero by apply HV. apply and_iff_compat_l.
  unfold number, tload. rewrite sum_list_zero, Forall_fmap, Forall_forall. split.
  - intros H0 t Ht. cbn. destruct (ls !! t) as [l|] eqn:Hl; [|done]. cbn.
    destruct (vw_in _ _ HV t l Hl) as ((Hx & _) & Hok & _). pose proof (load_active t l Hok) as Ha.
    destruct (decide (load l = 0%nat)) as [|Hne]; [done|]. rewrite bool_decide_eq_true_2 in Ha by done.
    assert (filter (λ tx : Z * thread C, active tx.2 = true) (threads (sys p)) = ∅) as He
      by (apply map_size_empty_inv; lia).
    eapply map_filter_empty_not_lookup in He; [|exact Ha]. by destruct He.
  - intros H0. replace (filter _ _) with (∅ : gmap Z (thread C)); [by rewrite map_size_empty|].
    symmetry. apply map_empty. intros t. apply map_lookup_filter_None. right. intros x Hx Ha. cbn in Ha. destruct (views_thread p ls t x HV Hx) as (l & Hl & -> & Hok).
    rewrite (load_active t l Hok) in Ha. apply bool_decide_eq_true in Ha.
    specialize (H0 t (g_dom _ _ HG t l Hl)). cbn in H0. rewrite Hl in H0. done.
Qed.

(** What was begun, and what will be. *)
Definition total (p : pool) (ls : gmap Z local) : list C := log p ++ qfam (queue p) ++ tfam (who p) ls.

(** A turn of thread [t] from [p] to [p']. *)
Definition turned (t : Z) (p : pool) (ls : gmap Z local) (p' : pool) (ls' : gmap Z local) : Prop :=
  ∃ l' b, ls' = <[t := l']> ls ∧ hop t (halts p) (ls !! t) (queue p) l' (queue p') b ∧
    log p' = log p ++ b ∧ same_flags (sch (sys p)) (sch (sys p')) ∧
    threads_ p' = threads_ p ∧ at_stop p' = at_stop p.

Lemma same_flags_who p p' : same_flags (sch (sys p)) (sch (sys p')) →
  who p' = who p ∧ has_root p' = has_root p ∧ stopped p' = stopped p.
Proof. intros (H1 & H2 & _ & H4 & H5 & _). unfold who, has_root, stopped. by rewrite H1, H2, H4, H5. Qed.

Lemma ok_before p ls t : views p ls → from_option (local_ok t) True (ls !! t).
Proof. intros HV. destruct (ls !! t) as [l|] eqn:Hl; [|done]. by apply HV. Qed.

(** A turn either does some of the work or none. *)
Lemma turned_work t p ls p' ls' :
  G p ls → t ∈ who p → turned t p ls p' ls' →
  (work p' ls' < work p ls)%nat ∨
  work p' ls' = work p ls ∧ queue p' = queue p ∧ opt load 0%nat (ls !! t) = 0%nat ∧ opt load 0%nat (ls' !! t) = 0%nat.
Proof.
  intros HG Ht (l' & b & -> & Hh & _ & Hf & _). destruct (same_flags_who _ _ Hf) as (Hw & _).
  pose proof (g_views _ _ HG) as HV. unfold work. rewrite Hw, lookup_insert_eq.
  pose proof (tload_insert (who p) ls t l' (who_nodup _ _ HG) Ht).
  destruct (hop_load _ _ _ _ _ _ _ Hh (vw_queue _ _ HV) (ok_before _ _ _ HV)) as [|(Hq & H1 & H2)]; [left; lia|].
  right. rewrite Hq. cbn. split_and!; done || lia.
Qed.

Lemma turned_total t p ls p' ls' :
  G p ls → t ∈ who p → turned t p ls p' ls' → total p' ls' ≡ₚ total p ls.
Proof.
  intros HG Ht (l' & b & -> & Hh & Hlog & Hf & _). destruct (same_flags_who _ _ Hf) as (Hw & _).
  pose proof (g_views _ _ HG) as HV. unfold total. rewrite Hw, Hlog.
  pose proof (hop_fam _ _ _ _ _ _ _ Hh (vw_queue _ _ HV) (ok_before _ _ _ HV)) as Hfam.
  pose proof (tfam_insert (who p) ls t l' (who_nodup _ _ HG) Ht) as Hins.
  rewrite <-app_assoc. apply Permutation_app_head.
  apply (Permutation_app_inv_r (opt lfam [] (ls !! t))).
  transitivity (b ++ qfam (queue p') ++ (tfam (who p) (<[t:=l']> ls) ++ opt lfam [] (ls !! t))); [solve_Permutation|].
  rewrite Hins. transitivity ((b ++ qfam (queue p') ++ lfam l') ++ tfam (who p) ls); [solve_Permutation|].
  rewrite Hfam. solve_Permutation.
Qed.

(** The idle fiber ends only when the test of [stopping] says so. *)
Lemma hop_term t halt o q l' q' b :
  hop t halt o q l' q' b → idle_st l' = TERM → halt = true ∨ ∃ l, o = Some l ∧ idle_st l = TERM.
Proof. intros [s c q0|l q0 l1 q1 b1 Hm] Ht; [done|]. destruct Hm; cbn in *; naive_solver. Qed.

Lemma hop_queue (P : FiberAndThread C → Prop) t halt o q l' q' b :
  hop t halt o q l' q' b → (∀ k, P (entry_of k)) → Forall P q → Forall P q'.
Proof.
  intros [s c q0|l q0 l1 q1 b1 Hm] Hk Hq; [done|]. destruct Hm; try done.
  - apply Forall_app in Hq as [H1 [_ H2]%Forall_cons]. by apply Forall_app.
  - apply Forall_app. split; [done|]. by apply Forall_fmap, Forall_true.
Qed.

(** A thread stays out of the loop. *)
Lemma hop_exited t halt l q l' q' b : hop t halt (Some l) q l' q' b → pt l = Exited → l' = l.
Proof. intros Hh He. inversion Hh as [|? ? ? ? ? Hm]; subst. destruct Hm; done. Qed.

Lemma exited_turned t u p ls p' ls' : views p ls → views p' ls' → turned t p ls p' ls' →
  exited (sys p) u = true → exited (sys p') u = true.
Proof.
  intros HV HV' (l' & b & -> & Hh & _) (l & Hl & He)%(exited_view _ _ _ HV). apply (exited_view _ _ _ HV').
  destruct (decide (t = u)) as [->|Hne].
  - rewrite Hl in Hh. exists l. rewrite lookup_insert_eq. by rewrite (hop_exited _ _ _ _ _ _ _ Hh He).
  - exists l. by rewrite lookup_insert_ne.
Qed.

Lemma G_run p ls t :
  G p ls → t ∈ who p → (t = caller → at_stop p = Calling) →
  ∃ p' ls', run_turn t p = Ret p' ∧ G p' ls' ∧ turned t p ls p' ls'.
Proof.
  intros HG Ht Hcall. pose proof (g_views _ _ HG) as HV.
  destruct (run_turn_views p ls t HV) as (p' & l' & b & Hrun & HV' & Hh & Hf & Hlog & Hthr & Hph & Htls).
  exists p', (<[t := l']> ls). split; [done|].
  assert (Hturn : turned t p ls p' (<[t := l']> ls)) by by exists l', b.
  split; [|done]. destruct (same_flags_who _ _ Hf) as (Hw & Hr & Hs).
  assert (Hwk : work p ls = 0%nat → work p' (<[t := l']> ls) = 0%nat).
  { destruct (turned_work t p ls p' _ HG Ht Hturn) as [|[-> _]]; [lia|done]. }
  assert (Hloc : ∀ u, locals_of p' u = if decide (u = t ∧ ls !! t = None)
            then run_enter this t (rootThread_ (sch (sys p))) (main_of t) (locals_of p t) else locals_of p u).
  { intros u. unfold locals_of at 1. rewrite Htls. destruct (ls !! t) as [l|].
    - rewrite decide_False by (by intros [_ ?]). done.
    - destruct (decide (u = t)) as [->|Hne]; [by rewrite lookup_insert_eq, decide_True|].
      rewrite lookup_insert_ne, decide_False by naive_solver. done. }
  assert (Henter : ∀ l, GetThis (run_enter this t (rootThread_ (sch (sys p))) (main_of t) l) = Some this ∧
     is_hook_enable (run_enter this t (rootThread_ (sch (sys p))) (main_of t) l) = true).
  { intros l. unfold run_enter. by destruct (negb _). }
  destruct Hf as (Hf1 & Hf2 & Hf3 & Hf4 & Hf5 & Hf6).
  split; rewrite ?Hw, ?Hr, ?Hs, ?Hph, ?Hthr, ?Hf3, ?Hf6; try apply HG; try done.
  - rewrite Hloc. case_decide as Hd; [|apply HG]. destruct Hd as [<- Hnone].
    destruct (Henter (locals_of p caller)) as [-> _]. rewrite bool_decide_eq_true_2 by done.
    symmetry. apply (g_calling _ _ HG), Hcall. done.
  - intros u l. destruct (decide (u = t)) as [->|]; [done|]. rewrite lookup_insert_ne by done. apply HG.
  - intros l. destruct (decide (t = caller)) as [->|]; [by left; apply Hcall|].
    rewrite lookup_insert_ne by done. apply HG.
  - intros u l. destruct (decide (u = t)) as [->|].
    + rewrite lookup_insert_eq. intros [= <-] Hterm.
      destruct (hop_term _ _ _ _ _ _ _ Hh Hterm) as [Hhalt|(l & Hl & Hlt)].
      * rewrite (halts_work _ _ HG), (g_flags _ _ HG) in Hhalt. apply andb_true_iff in Hhalt as [H1 H2%bool_decide_eq_true].
        split; [by destruct (at_stop p)|auto].
      * destruct (g_over _ _ HG t l Hl Hlt). auto.
    + rewrite lookup_insert_ne by done. intros Hl Hlt. destruct (g_over _ _ HG u l Hl Hlt). auto.
  - intros Hp Hroot. apply Hwk. by apply (g_past _ _ HG).
  - eapply hop_queue; [exact Hh| |by apply HG]. by left.
  - pose proof (g_joins _ _ HG) as Hj. pose proof (exited_turned t).
    destruct (at_stop p); try done; naive_solver.
  - intros u l Hl. rewrite Hloc. case_decide as Hd; [apply Henter|].
    destruct (decide (u = t)) as [->|Hne].
    + destruct (ls !! t) as [l0|] eqn:Hl0; [|naive_solver]. by apply (g_tls _ _ HG t l0).
    + rewrite lookup_insert_ne in Hl by done. by apply (g_tls _ _ HG u l).
Qed.

(** ** The steps of [stop] *)

(** The caller goes on without touching the scheduler. *)
Lemma G_phase p ls ph thrs :
  G p ls → at_stop p ≠ Before → ph ≠ Before →
  (at_stop p = Calling ∨ past (at_stop p) = true → ph = Calling ∨ past ph = true) →
  (ph = Calling → has_root p = true) → (past ph = true → has_root p = true → work p ls = 0%nat) →
  match ph with
  | Joining l => (length l ≤ length ids)%nat ∧ (∀ t, t ∈ l → t ∈ ids) ∧ ∀ t, t ∈ ids → t ∉ l → exited (sys p) t = true
  | Returned => ∀ t, t ∈ ids → exited (sys p) t = true
  | _ => thrs = ids
  end →
  G (mkPool (sys p) (taken p) (log p) (tls p) thrs ph) ls.
Proof.
  intros HG Hb Hb' Hc Hr Hw Hj. destruct HG. split; try done.
  - destruct g_views0. by split.
  - change (stopped p = negb (match ph with Before => true | _ => false end)).
    rewrite g_flags0. by destruct (at_stop p), ph.
  - intros l Hl. apply Hc. by eapply g_caller0.
  - intros t l Hl Ht. destruct (g_over0 t l Hl Ht). done.
Qed.

Lemma over_exited p ls t : G p ls → exited (sys p) t = true → work p ls = 0%nat.
Proof.
  intros HG (l & Hl & He)%(exited_view _ _ _ (g_views _ _ HG)).
  destruct (vw_in _ _ (g_views _ _ HG) t l Hl) as (_ & Hok & _). unfold local_ok in Hok. rewrite He in Hok.
  by apply (g_over _ _ HG t l Hl).
Qed.

(** The guards of [stop] hold. *)
Lemma G_stop p ls : G p ls → at_stop p = Before →
  ∃ p', stop_turn p = Ret p' ∧ G p' ls ∧ (at_stop p' = Flagged ∨ at_stop p' = Returned) ∧
    queue p' = queue p ∧ who p' = who p ∧ log p' = log p.
Proof.
  intros HG Hph. unfold stop_turn. rewrite Hph, (g_here _ _ HG). unfold stop. cbv zeta.
  set (s2 := mkS (fibers_ (sch (sys p))) _ _ _ _ _ true true _).
  set (p1 := set_phase Flagged (set_sys (set_sch s2 (sys p)) p)).
  assert (HG1 : G p1 ls).
  { destruct HG. split; try done.
    - destruct g_views0. by split.
    - intros l Hl. destruct (g_caller0 l Hl) as [H|H]; rewrite Hph in H; done.
    - intros t l Hl Ht. destruct (g_over0 t l Hl Ht). done.
    - rewrite Hph in g_joins0. done. }
  destruct (_ && stopping s2) eqn:Halone.
  - cbn. apply andb_true_iff in Halone as [[[Hroot Hn]%andb_true_iff _]%andb_true_iff Hst].
    apply Z.eqb_eq in Hn. rewrite (g_count _ _ HG) in Hn.
    assert (ids = []) as Hids by (destruct ids; [done|cbn in Hn; lia]).
    assert (work p1 ls = 0%nat) as Hw.
    { assert (halts p1 = true) as H by exact Hst. rewrite (halts_work _ _ HG1) in H.
      by apply andb_true_iff in H as [_ ?%bool_decide_eq_true]. }
    eexists. split; [done|]. split; [|by auto].
    apply (G_phase p1 ls Returned (threads_ p)); try done; [by right|]. intros t. rewrite Hids. by intros ?%not_elem_of_nil.
  - rewrite (g_thread _ _ HG).
    assert (sylar_assert (if negb ((if has_root p then caller else -1) =? -1) then has_root p else negb (has_root p)) = Ret ()) as ->.
    { destruct (has_root p); [|done]. by rewrite (proj2 (Z.eqb_neq caller (-1)) caller_id). }
    cbn. exists p1. split; [done|]. split; [done|]. auto.
Qed.

Inductive advance (p : pool) : phase → Prop :=
  | adv_flag : at_stop p = Before → advance p Flagged
  | adv_alone : at_stop p = Before → advance p Returned
  | adv_call : at_stop p = Flagged → advance p Calling
  | adv_skip : at_stop p = Flagged → advance p Swapping
  | adv_out : at_stop p = Calling → exited (sys p) caller = true → advance p Swapping
  | adv_swap : at_stop p = Swapping → advance p (Joining ids)
  | adv_joined : at_stop p = Joining [] → advance p Returned
  | adv_join t r : at_stop p = Joining (t :: r) → exited (sys p) t = true → advance p (Joining r)
  | adv_wait t r : at_stop p = Joining (t :: r) → exited (sys p) t = false → advance p (Joining (t :: r))
  | adv_end : at_stop p = Returned → advance p Returned.

(** The caller goes on and no thread of the loop moves. *)
Definition advanced (p : pool) (ls : gmap Z local) (p' : pool) (ls' : gmap Z local) : Prop :=
  ls' = ls ∧ queue p' = queue p ∧ who p' = who p ∧ log p' = log p ∧ advance p (at_stop p').

Lemma G_stop_turn p ls : G p ls →
  ∃ p' ls', stop_turn p = Ret p' ∧ G p' ls' ∧
    (at_stop p = Calling ∧ exited (sys p) caller = false ∧ turned caller p ls p' ls' ∨ advanced p ls p' ls').
Proof.
  intros HG. destruct (at_stop p) eqn:Hph.
  - destruct (G_stop p ls HG Hph) as (p' & Hs & HG' & Hp' & Hq & Hw & Hl). exists p', ls.
    split; [done|]. split; [done|]. right. split_and!; try done. destruct Hp' as [-> | ->]; by constructor.
  - unfold stop_turn. rewrite Hph. eexists _, ls. split; [done|]. unfold stop_calls. fold (has_root p). fold (halts p).
    split; [apply (G_phase p ls _ (threads_ p)); try done|right; split_and!; try done].
    + by rewrite Hph.
    + by destruct (_ && _).
    + rewrite Hph. by intros [?|?].
    + intros H. by destruct (has_root p).
    + destruct (has_root p) eqn:Hr; [|done]. cbn. destruct (halts p) eqn:Hh; [|done]. intros _ _.
      rewrite (halts_work _ _ HG) in Hh. by apply andb_true_iff in Hh as [_ ?%bool_decide_eq_true].
    + pose proof (g_joins _ _ HG) as Hj. rewrite Hph in Hj. by destruct (_ && _).
    + cbn. destruct (_ && _); by constructor.
  - assert (Hroot : has_root p = true) by by apply (g_calling _ _ HG).
    unfold stop_turn. rewrite Hph. destruct (exited (sys p) caller) eqn:He.
    + eexists _, ls. split; [done|]. split; [|right; split_and!; by econstructor].
      apply (G_phase p ls _ (threads_ p)); try done; rewrite ?Hph; try done.
      * by right.
      * intros _ _. by eapply over_exited.
      * pose proof (g_joins _ _ HG) as Hj. by rewrite Hph in Hj.
    + destruct (G_run p ls caller HG) as (p' & ls' & Hs & HG' & Ht); [|done|].
      { rewrite (g_who _ _ HG), Hroot. by left. }
      exists p', ls'. split; [done|]. split; [done|]. by left.
  - unfold stop_turn. rewrite Hph. eexists _, ls. split; [done|].
    pose proof (g_joins _ _ HG) as Hj. rewrite Hph in Hj. rewrite Hj.
    split; [|right; split_and!; try done; by constructor].
    apply G_phase; try done; rewrite ?Hph; try done.
    + by right.
    + intros _. apply (g_past _ _ HG). by rewrite Hph.
  - pose proof (g_joins _ _ HG) as Hj. rewrite Hph in Hj. destruct Hj as (Hlen & Hsub & Hj).
    assert (Hw : has_root p = true → work p ls = 0%nat) by (apply (g_past _ _ HG); by rewrite Hph).
    unfold stop_turn. rewrite Hph. destruct thrs as [|t r].
    + eexists _, ls. split; [done|]. split; [|right; split_and!; try done; by constructor].
      apply (G_phase p ls _ (threads_ p)); try done; rewrite ?Hph; try done; [by right|].
      intros t Ht. apply Hj; [done|]. apply not_elem_of_nil.
    + destruct (exited (sys p) t) eqn:He.
      * eexists _, ls. split; [done|]. split; [|right; split_and!; try done; by econstructor].
        apply (G_phase p ls _ (threads_ p)); try done; rewrite ?Hph; try done; [by right|].
        split; [cbn in Hlen; lia|]. split; [intros u Hu; apply Hsub; by right|]. intros u Hu Hn. destruct (decide (u = t)) as [->|]; [done|].
        apply Hj; [done|]. by apply not_elem_of_cons.
      * eexists p, ls. split; [done|]. split; [done|]. right. split_and!; try done. rewrite Hph. by constructor.
  - unfold stop_turn. rewrite Hph. exists p, ls. split; [done|]. split; [done|]. right. split_and!; try done.
    rewrite Hph. by constructor.
Qed.

(** What one turn of thread [t] does. *)
Inductive turn_of (t : Z) (p : pool) (ls : gmap Z local) (p' : pool) (ls' : gmap Z local) : Prop :=
  | t_run : t ∈ who p → (t = caller → at_stop p = Calling ∧ exited (sys p) caller = false) →
      turned t p ls p' ls' → turn_of t p ls p' ls'
  | t_stop : t = caller → advanced p ls p' ls' → turn_of t p ls p' ls'
  | t_none : t ≠ caller → t ∉ who p → p' = p → ls' = ls → turn_of t p ls p' ls'.


Lemma G_turn p ls t : G p ls →
  ∃ p' ls', pool_step (Turn t) p = Ret p' ∧ G p' ls' ∧ turn_of t p ls p' ls'.
Proof.
  intros HG. cbn. case_bool_decide as Hc; [|case_bool_decide as Hw].
  - destruct (G_stop_turn p ls HG) as (p' & ls' & Hs & HG' & [(Hph & He & Ht)|Ha]);
      exists p', ls'; (split; [done|]; split; [done|]).
    + subst t. apply t_run; try done. rewrite (g_who _ _ HG), (g_calling _ _ HG Hph). by left.
    + by apply t_stop.
  - destruct (G_run p ls t HG Hw) as (p' & ls' & Hs & HG' & Ht); [done|].
    exists p', ls'. split; [done|]. split; [done|]. by apply t_run.
  - exists p, ls. split; [done|]. split; [done|]. by apply t_none.
Qed.

Lemma turn_of_same t p ls p' ls' : turn_of t p ls p' ls' → who p' = who p.
Proof.
  intros [_ _ (l' & b & _ & _ & _ & Hf & _)|_ (_ & _ & Hw & _)|_ _ -> _]; [|done..].
  by destruct (same_flags_who _ _ Hf).
Qed.

Lemma turn_of_total t p ls p' ls' : G p ls → turn_of t p ls p' ls' → total p' ls' ≡ₚ total p ls.
Proof.
  intros HG [Ht _ Hm|_ (-> & Hq & Hw & Hl & _)|_ _ -> ->]; [by eapply turned_total| |done].
  unfold total. by rewrite Hq, Hw, Hl.
Qed.

(** A turn that does none of the work changes no queue and none of its load. *)
Lemma turn_of_work t p ls p' ls' : G p ls → turn_of t p ls p' ls' →
  (work p' ls' < work p ls)%nat ∨
  work p' ls' = work p ls ∧ queue p' = queue p ∧ ∀ u, opt load 0%nat (ls' !! u) = opt load 0%nat (ls !! u).
Proof.
  intros HG [Ht _ Hm|_ (-> & Hq & Hw & Hl & _)|_ _ -> ->]; [| |by right].
  - destruct (turned_work _ _ _ _ _ HG Ht Hm) as [|(H1 & H2 & H3 & H4)]; [by left|]. right. split_and!; try done.
    destruct Hm as (l' & b & -> & _). intros u. destruct (decide (u = t)) as [->|]; [congruence|].
    by rewrite lookup_insert_ne.
  - right. unfold work. by rewrite Hq, Hw.
Qed.

(** ** Fair schedules *)

(** A schedule, turn by turn. *)
Inductive path : list Z → pool → gmap Z local → pool → gmap Z local → Prop :=
  | path_nil p ls : path [] p ls p ls
  | path_cons t l p ls p1 ls1 p' ls' :
      G p ls → pool_step (Turn t) p = Ret p1 → turn_of t p ls p1 ls1 → G p1 ls1 →
      path l p1 ls1 p' ls' → path (t :: l) p ls p' ls'.

Lemma path_exists l : ∀ p ls, G p ls → ∃ p' ls', path l p ls p' ls'.
Proof.
  induction l as [|t l IH]; intros p ls HG; [exists p, ls; constructor|].
  destruct (G_turn p ls t HG) as (p1 & ls1 & Hs & HG1 & Ht). destruct (IH p1 ls1 HG1) as (p' & ls' & Hp).
  exists p', ls'. by econstructor.
Qed.

Lemma path_facts l p ls p' ls' : path l p ls p' ls' → G p ls →
  G p' ls' ∧ pool_run (Turn <$> l) p = Ret p' ∧ total p' ls' ≡ₚ total p ls.
Proof.
  induction 1 as [p ls|t l p ls p1 ls1 p' ls' HG Hs Ht HG1 Hp IH]; intros HG0; [by split_and!|].
  destruct (IH HG1) as (HG' & Hr & Htot). split; [done|]. split.
  - cbn -[pool_step]. rewrite Hs. exact Hr.
  - rewrite Htot. by eapply turn_of_total.
Qed.

Lemma path_app l1 l2 p ls p' ls' : path (l1 ++ l2) p ls p' ls' →
  ∃ p1 ls1, path l1 p ls p1 ls1 ∧ path l2 p1 ls1 p' ls'.
Proof.
  revert p ls. induction l1 as [|t l1 IH]; intros p ls Hp; [exists p, ls; split; [constructor|done]|].
  inversion Hp as [|t' l p0 ls0 p1 ls1 p2 ls2 HG Hs Ht HG1 Hp1]; subst.
  destruct (IH p1 ls1 Hp1) as (p3 & ls3 & H1 & H2). exists p3, ls3. split; [by econstructor|done].
Qed.

Lemma rounds_plus actors n m l : rounds actors (n + m) l → ∃ l1 l2, l = l1 ++ l2 ∧ rounds actors n l1 ∧ rounds actors m l2.
Proof.
  revert l. induction n as [|n IH]; intros l Hr; [exists [], l; split; [done|split; [constructor|done]]|].
  inversion Hr as [|n' l0 l' Hl Hr']; subst. destruct (IH l' Hr') as (l1 & l2 & -> & H1 & H2).
  exists (l0 ++ l1), l2. rewrite <-app_assoc. split; [done|]. split; [by constructor|done].
Qed.

Lemma rounds_le actors n m l : (m ≤ n)%nat → rounds actors n l → rounds actors m l.
Proof.
  intros Hle Hr. revert m Hle. induction Hr as [l|n l l' Hl Hr IH]; intros [|m] Hle; try constructor; try lia; try done.
  apply IH. lia.
Qed.

(** When nothing can undo [Q], and a distance to it grows under no turn and
    shrinks with every turn of [t], then a fair schedule reaches [Q]. *)
Section Leads.
Context (t : Z) (X : nat → pool → gmap Z local → Prop) (Q : pool → gmap Z local → Prop).
Context (Q_stable : ∀ u p ls p' ls', G p ls → G p' ls' → turn_of u p ls p' ls' → Q p ls → Q p' ls').
Context (X_nearer : ∀ u p ls p' ls' d, G p ls → G p' ls' → turn_of u p ls p' ls' → X d p ls →
  Q p' ls' ∨ ∃ d', X d' p' ls' ∧ (d' ≤ d)%nat ∧ (u = t → (d' < d)%nat)).

Lemma path_stable l p ls p' ls' : path l p ls p' ls' → Q p ls → Q p' ls'.
Proof. induction 1; eauto. Qed.

Lemma path_nearer l p ls p' ls' : path l p ls p' ls' → ∀ d, X d p ls →
  Q p' ls' ∨ ∃ d', X d' p' ls' ∧ (d' ≤ d)%nat ∧ (t ∈ l → (d' < d)%nat).
Proof.
  induction 1 as [p ls|u l p ls p1 ls1 p' ls' HG Hs Ht HG1 Hp IH]; intros d Hd.
  - right. exists d. split; [done|]. split; [done|]. by intros ?%not_elem_of_nil.
  - destruct (X_nearer _ _ _ _ _ _ HG HG1 Ht Hd) as [HQ|(d1 & Hd1 & Hle & Hlt)]; [left; by eapply path_stable|].
    destruct (IH d1 Hd1) as [HQ|(d2 & Hd2 & Hle2 & Hlt2)]; [by left|]. right. exists d2. split; [done|].
    split; [lia|]. intros [->|Hin]%elem_of_cons; [specialize (Hlt eq_refl); lia|]. specialize (Hlt2 Hin). lia.
Qed.

Lemma rounds_lead actors n l p ls p' ls' d :
  t ∈ actors → rounds actors n l → path l p ls p' ls' → X d p ls → (d < n)%nat → Q p' ls'.
Proof.
  intros Ht Hr. revert p ls d. induction Hr as [l|n l l' Hl Hr IH]; intros p ls d Hp Hd Hlt; [lia|].
  apply path_app in Hp as (p1 & ls1 & Hp1 & Hp2).
  destruct (path_nearer _ _ _ _ _ Hp1 d Hd) as [HQ|(d' & Hd' & _ & Hlt')]; [by eapply path_stable|].
  eapply IH; [done..|]. specialize (Hlt' (proj1 (Forall_forall _ _) Hl t Ht)). lia.
Qed.
End Leads.

(** *** How far a thread is from where it helps *)

(** From the top of the loop, while there is something to do. *)
Definition to_top (o : option local) : nat :=
  match pt <$> o with
  | None | Some (Done _ _) => 1
  | Some (Back _ _) => 2
  | Some (Inside _ _ | Leaving _ _) => 3
  | Some (Picked _) => 4
  | _ => 0
  end.

Lemma hop_to_top t o q l' q' b e :
  hop t false o q l' q' b → from_option (local_ok t) True o → opt load 0%nat o = 0%nat →
  (∀ l, o = Some l → idle_st l ≠ TERM) → e ∈ q → bound (t, e) → Forall callback q →
  load l' ≠ 0%nat ∨ (to_top (Some l') < to_top o)%nat.
Proof.
  intros Hh Hok Hload Hterm He Hb Hq. destruct Hh as [s c q|l q l' q' b Hm]; [right; cbn; lia|].
  assert (Hpos : ∀ k, (0 < size k)%nat) by (intros k; pose proof (size_spawn k); lia).
  specialize (Hterm l eq_refl).
  destruct Hm as [h i s c q1 e' q2 Hb'|h i s c q Hno|e' k h i s c q Hk|k i q|k f h i s c q|k f h i s c q| | | | | | | |];
    cbn in Hload, Hterm |- *; try (right; lia); try done.
  - left. apply Forall_app in Hq as [_ [[_ [k Hk]] _]%Forall_cons]. unfold weigh. rewrite Hk. cbn.
    pose proof (Hpos k). lia.
  - exfalso. rewrite Forall_forall in Hno. by apply (Hno e).
  - by left.
Qed.

(** From the end of the loop, when there is nothing to do. *)
Definition to_exit (o : option local) : nat :=
  match o with
  | None => 9
  | Some l =>
      match pt l, bool_decide (idle_st l = TERM) with
      | Exited, _ => 0
      | Picked _, true => 1
      | Top, true => 2
      | Done _ _, true => 3
      | Back _ _, true => 4
      | Leaving _ _, _ => 5
      | Inside _ _, _ => 6
      | Picked _, false => 7
      | Top, false => 8
      | Done _ _, false => 9
      | Back _ _, false => 10
      end
  end.

Lemma to_exit_max o : (to_exit o ≤ 10)%nat.
Proof. destruct o as [l|]; cbn; [|lia]. destruct (pt l), (bool_decide (idle_st l = TERM)); lia. Qed.

Lemma hop_to_exit t o l' q' b :
  hop t true o [] l' q' b → from_option (local_ok t) True o → opt load 0%nat o = 0%nat →
  pt l' = Exited ∨ (to_exit (Some l') < to_exit o)%nat.
Proof.
  intros Hh Hok Hload. inversion Hh as [s c q|l q l1 q1 b1 Hm]; subst; [right; cbn; case_bool_decide; (done || lia)|].
  assert (Hpos : ∀ k, (0 < size k)%nat) by (intros k; pose proof (size_spawn k); lia).
  inversion Hm as [h i s c q1 e' q2 Hb'|h i s c q Hno|e' k h i s c q Hk|k i q|k f h i s c q|k f h i s c q| | | | | | | |];
    subst; cbn in Hload, Hok |- *; try (by left); try (right; repeat case_bool_decide; (done || lia)).
  - unfold weigh in Hload. rewrite Hk in Hload. cbn in Hload. pose proof (Hpos k). lia.
  - destruct k; try done. right. cbn in Hok. destruct Hok as (_ & -> & _).  case_bool_decide; done || lia.
Qed.

(** *** The stages of [stop] under a fair schedule *)

(** How far [stop] is from having set its flags and looked whether to call the
    root fiber. *)
Definition early (ph : phase) : nat := match ph with Before => 2 | Flagged => 1 | _ => 0 end.

Lemma advance_early p ph : advance p ph → (early ph < early (at_stop p))%nat ∨ early ph = 0%nat.
Proof. intros [Hb|Hb|Hb|Hb|Hb He|Hb|Hb|u r Hb He|u r Hb He|Hb]; rewrite Hb; cbn; lia. Qed.

Lemma turn_of_phase t p ls p' ls' : turn_of t p ls p' ls' →
  at_stop p' = at_stop p ∧ (t = caller → at_stop p = Calling) ∨ t = caller ∧ advance p (at_stop p').
Proof.
  intros [_ Hc (l' & b & _ & _ & _ & _ & _ & Hs)| -> (_ & _ & _ & _ & Ha)|Hne _ -> _].
  - left. split; [done|]. intros Ht. by apply Hc.
  - by right.
  - left. done.
Qed.

Lemma early_stable t p ls p' ls' :
  turn_of t p ls p' ls' → early (at_stop p) = 0%nat → early (at_stop p') = 0%nat.
Proof.
  intros [[-> _]|[_ Ha]]%turn_of_phase; [done|]. destruct (advance_early _ _ Ha); lia.
Qed.

(** The caller gets past the flags. *)
Lemma lead_ready l p ls p' ls' :
  rounds (caller :: ids) 2 l → path l p ls p' ls' → early (at_stop p') = 0%nat.
Proof.
  intros Hr Hp. set (Q := λ q (_ : gmap Z local), early (at_stop q) = 0%nat).
  assert (HQ : ∀ u q lq q' lq', G q lq → G q' lq' → turn_of u q lq q' lq' → Q q lq → Q q' lq')
    by (intros; by eapply early_stable).
  destruct (early (at_stop p)) as [|d] eqn:Hd; [by eapply (path_stable Q)|].
  change (Q p' ls'). apply (rounds_lead caller (λ d q _, early (at_stop q) = S d) Q HQ) with (caller :: ids) 2%nat l p ls d; try done.
  - intros u q lq q' lq' e _ _ Ht He. unfold Q.
    destruct (turn_of_phase _ _ _ _ _ Ht) as [[-> Hu]|[-> Ha]].
    + right. exists e. split; [done|]. split; [done|]. intros Hc%Hu. by rewrite Hc in He.
    + destruct (early (at_stop q')) as [|e'] eqn:He'; [by left|]. right. exists e'.
      destruct (advance_early _ _ Ha); [|lia]. split; [done|]. lia.
  - by left.
  - destruct (at_stop p); cbn in Hd; lia.
Qed.

(** *** The work gets done *)

(** A thread [t] that has taken something, or may take [e]. *)
Definition helps (t : Z) (w : nat) (d : nat) (p : pool) (ls : gmap Z local) : Prop :=
  work p ls = w ∧ w ≠ 0%nat ∧ early (at_stop p) = 0%nat ∧ t ∈ who p ∧
  (opt load 0%nat (ls !! t) ≠ 0%nat ∨
   (∃ e, e ∈ queue p ∧ bound (t, e)) ∧ (to_top (ls !! t) ≤ d)%nat).

Lemma to_top_max o : (to_top o ≤ 4)%nat.
Proof. destruct o as [l|]; cbn; [|lia]. destruct (pt l); lia. Qed.

(** While work is left, some thread helps. *)
Lemma helper_exists p ls : G p ls → early (at_stop p) = 0%nat → work p ls ≠ 0%nat →
  ∃ t, t ∈ who p ∧ helps t (work p ls) 4 p ls.
Proof.
  intros HG He Hw. unfold helps.
  destruct (decide (Forall (λ t, opt load 0%nat (ls !! t) = 0%nat) (who p))) as [Hall|Hsome].
  - assert (tload (who p) ls = 0%nat) as Ht by (unfold tload; by rewrite sum_list_zero, Forall_fmap).
    unfold work in Hw. rewrite Ht in Hw. destruct (queue p) as [|e q] eqn:Hq; [done|].
    pose proof (g_bound _ _ HG) as Hb. rewrite Hq in Hb. apply Forall_cons in Hb as [Hb _].
    destruct (who p) as [|t0 r] eqn:Hwho; [by destruct (g_some _ _ HG)|].
    exists (if decide (thread_ e = -1) then t0 else thread_ e). unfold work. rewrite Hwho, Hq, Ht.
    assert ((if decide (thread_ e = -1) then t0 else thread_ e) ∈ t0 :: r) as Hin
      by (case_decide; [by left|naive_solver]).
    split; [done|]. split_and!; try done. right. split; [|apply to_top_max].
    exists e. split; [by left|]. unfold bound. cbn. case_decide; auto.
  - apply not_Forall_Exists, Exists_exists in Hsome as (t & Ht & Hl); [|apply _].
    exists t. split; [done|]. split_and!; try done. by left.
Qed.

(** The caller has nothing else to do while work is left. *)
Lemma caller_busy p ls : G p ls → early (at_stop p) = 0%nat → caller ∈ who p → work p ls ≠ 0%nat →
  ∀ p' ls', ¬ advanced p ls p' ls'.
Proof.
  intros HG He Hc Hw p' ls' (_ & _ & _ & _ & Ha).
  assert (Hroot : has_root p = true).
  { rewrite (g_who _ _ HG) in Hc. destruct (has_root p); [done|]. by apply NoDup_cons in ids_nodup as [? _]. }
  assert (Hp : past (at_stop p) = true → False) by (intros Hp; by apply Hw, (g_past _ _ HG)).
  destruct Ha as [Hb|Hb|Hb|Hb|Hb Hx|Hb|Hb|u r Hb Hx|u r Hb Hx|Hb]; rewrite Hb in He, Hp; try done; try by apply Hp.
  apply Hw. by eapply over_exited.
Qed.

(** The helper's own turn. *)
Lemma helps_nearer t w d p ls p' ls' :
  G p ls → turn_of t p ls p' ls' → helps t w d p ls → work p' ls' = work p ls → queue p' = queue p →
  (to_top (ls' !! t) < to_top (ls !! t))%nat ∧ opt load 0%nat (ls !! t) = 0%nat.
Proof.
  intros HG Hu (Hw & Hw0 & He & Ht & Hhelp) Hw' Hq. pose proof (g_views _ _ HG) as HV.
  destruct Hu as [_ _ Hm| -> Ha|_ Hn _ _]; [| |done].
  2:{ exfalso. eapply caller_busy; try done. by rewrite Hw. }
  destruct (turned_work _ _ _ _ _ HG Ht Hm) as [|(_ & _ & Hl & Hl')]; [lia|]. split; [|done].
  destruct Hhelp as [|[(e & Hin & Hb) _]]; [done|]. destruct Hm as (l' & b & -> & Hh & _).
  rewrite lookup_insert_eq in *. cbn in Hl'.
  assert (halts p = false) as Hhalt.
  { rewrite (halts_work _ _ HG), bool_decide_eq_false_2 by congruence. apply andb_false_r. }
  rewrite Hhalt in Hh.
  destruct (hop_to_top _ _ _ _ _ _ e Hh (ok_before _ _ _ HV) Hl) as [|]; try done; [|apply HV].
  intros l Hls Hterm. destruct (g_over _ _ HG t l Hls Hterm). congruence.
Qed.

Lemma lead_work_less actors l p ls p' ls' :
  (∀ t, t ∈ who p → t ∈ actors) → G p ls → early (at_stop p) = 0%nat → work p ls ≠ 0%nat →
  rounds actors 5 l → path l p ls p' ls' → (work p' ls' < work p ls)%nat.
Proof.
  intros Hact HG He Hw Hr Hp. destruct (helper_exists p ls HG He Hw) as (t & Ht & Hh).
  set (w := work p ls) in *.
  apply (rounds_lead t (helps t w) (λ q lq, (work q lq < w)%nat)) with actors 5%nat l p ls 4%nat; auto.
  - intros u q lq q' lq' HGq _ Hu Hlt. destruct (turn_of_work _ _ _ _ _ HGq Hu) as [|[-> _]]; lia.
  - intros u q lq q' lq' d HGq HGq' Hu Hd. pose proof Hd as (Hwq & Hw0 & Heq & Htq & Hhelp).
    destruct (turn_of_work _ _ _ _ _ HGq Hu) as [|(Hw' & Hq' & Hload)]; [left; lia|].
    right. pose proof (turn_of_same _ _ _ _ _ Hu) as Hwho. pose proof (early_stable _ _ _ _ _ Hu Heq) as He'.
    destruct (decide (u = t)) as [->|Hne].
    + destruct (helps_nearer _ _ _ _ _ _ _ HGq Hu Hd Hw' Hq') as [Hlt Hl0].
      destruct Hhelp as [|[Hb Htop]]; [done|]. exists (to_top (lq' !! t)). split; [|lia].
      split_and!; try congruence. right. by rewrite Hq'.
    + exists d. split; [|done]. split_and!; try congruence. rewrite Hload, Hq'.
      destruct Hhelp as [|[Hb Htop]]; [by left|]. right. split; [done|].
      destruct Hu as [_ _ (l' & b & -> & _)|_ (-> & _)|_ _ _ ->]; [|done..].
      by rewrite lookup_insert_ne.
Qed.

Lemma path_who l p ls p' ls' : path l p ls p' ls' → who p' = who p.
Proof. induction 1 as [|t l p ls p1 ls1 p' ls' _ _ Ht _ _ IH]; [done|]. rewrite IH. by eapply turn_of_same. Qed.

Lemma path_early l p ls p' ls' : path l p ls p' ls' → early (at_stop p) = 0%nat → early (at_stop p') = 0%nat.
Proof. induction 1; [done|]. intros He. eauto using early_stable. Qed.

Lemma path_work l p ls p' ls' : path l p ls p' ls' → (work p' ls' ≤ work p ls)%nat.
Proof.
  induction 1 as [|t l p ls p1 ls1 p' ls' HG _ Ht _ _ IH]; [done|].
  destruct (turn_of_work _ _ _ _ _ HG Ht) as [|[? _]]; lia.
Qed.

Lemma lead_work actors n : ∀ l p ls p' ls',
  (∀ t, t ∈ who p → t ∈ actors) → G p ls → early (at_stop p) = 0%nat → (work p ls ≤ n)%nat →
  rounds actors (5 * n) l → path l p ls p' ls' → work p' ls' = 0%nat.
Proof.
  induction n as [|n IH]; intros l p ls p' ls' Hact HG He Hw Hr Hp.
  - pose proof (path_work _ _ _ _ _ Hp). lia.
  - replace (5 * S n)%nat with (5 + 5 * n)%nat in Hr by lia. apply rounds_plus in Hr as (l1 & l2 & -> & H1 & H2).
    apply path_app in Hp as (p1 & ls1 & Hp1 & Hp2). destruct (path_facts _ _ _ _ _ Hp1 HG) as [HG1 _].
    destruct (decide (work p ls = 0%nat)) as [Hz|Hz].
    + pose proof (path_work _ _ _ _ _ Hp1). pose proof (path_work _ _ _ _ _ Hp2). lia.
    + pose proof (lead_work_less actors l1 p ls p1 ls1 Hact HG He Hz H1 Hp1).
      apply (IH l2 p1 ls1); try done; [|by eapply path_early|lia]. by rewrite (path_who _ _ _ _ _ Hp1).
Qed.

(** *** The threads leave *)

Definition drained (p : pool) (ls : gmap Z local) : Prop := work p ls = 0%nat ∧ early (at_stop p) = 0%nat.

Lemma drained_stable u p ls p' ls' :
  G p ls → turn_of u p ls p' ls' → drained p ls → drained p' ls'.
Proof.
  intros HG Hu [Hw He]. split; [|by eapply early_stable].
  destruct (turn_of_work _ _ _ _ _ HG Hu) as [|[? _]]; lia.
Qed.

Lemma drained_halts p ls : G p ls → drained p ls → halts p = true ∧ queue p = [].
Proof.
  intros HG [Hw He]. split.
  - rewrite (halts_work _ _ HG), (g_flags _ _ HG), bool_decide_eq_true_2 by done. by destruct (at_stop p).
  - apply qload_zero; [apply HG|]. unfold work in Hw. lia.
Qed.

(** Where thread [t] has no more to do: out of the loop, or, for the caller,
    out of the root fiber or not in need of it. *)
Definition done_with (t : Z) (p : pool) : Prop :=
  if decide (t = caller) then past (at_stop p) = true else exited (sys p) t = true.

Lemma past_stable u p ls p' ls' : turn_of u p ls p' ls' → past (at_stop p) = true → past (at_stop p') = true.
Proof.
  intros [[-> _]|[_ Ha]]%turn_of_phase; [done|]. intros Hp.
  destruct Ha as [Hb|Hb|Hb|Hb|Hb Hx|Hb|Hb|v r Hb Hx|v r Hb Hx|Hb]; rewrite Hb in Hp; done.
Qed.

Lemma exited_stable u t p ls p' ls' :
  G p ls → G p' ls' → turn_of u p ls p' ls' → exited (sys p) t = true → exited (sys p') t = true.
Proof.
  intros HG HG' Hu He. destruct Hu as [_ _ Hm|_ (-> & _)|_ _ -> _]; [|  |done].
  - eapply exited_turned; [..|exact He]; [apply HG|apply HG'|exact Hm].
  - apply (exited_view _ _ _ (g_views _ _ HG')), (exited_view _ _ _ (g_views _ _ HG)), He.
Qed.

Lemma to_exit_zero p ls t : views p ls → exited (sys p) t = false → to_exit (ls !! t) ≠ 0%nat.
Proof.
  intros HV He H0. apply not_true_iff_false in He. apply He, (exited_view _ _ _ HV).
  destruct (ls !! t) as [l|]; [|done]. exists l. split; [done|]. cbn in H0. by destruct (pt l), (bool_decide (idle_st l = TERM)).
Qed.

(** One turn of its own brings a thread nearer. *)
Lemma done_nearer t p ls p' ls' :
  G p ls → G p' ls' → t ∈ who p → turn_of t p ls p' ls' → drained p ls → (t = caller → at_stop p = Calling) →
  done_with t p' ∨ (t = caller → at_stop p' = Calling) ∧ (to_exit (ls' !! t) < to_exit (ls !! t))%nat.
Proof.
  intros HG HG' Ht Hu Hd Hc. destruct (drained_halts _ _ HG Hd) as [Hh Hq]. unfold done_with.
  destruct Hu as [_ Hcall Hm|E (_ & _ & _ & _ & Ha)|_ Hn _ _]; [| |done].
  - destruct (turned_work _ _ _ _ _ HG Ht Hm) as [|(_ & _ & Hl & _)]; [destruct Hd; lia|].
    pose proof (to_exit_zero p ls t (g_views _ _ HG)) as Hz.
    assert (Hph : at_stop p' = at_stop p) by by destruct Hm as (l' & b & _ & _ & _ & _ & _ & ?).
    destruct Hm as (l' & b & -> & Hhop & _). rewrite Hh, Hq in Hhop. rewrite lookup_insert_eq, Hph.
    destruct (hop_to_exit _ _ _ _ _ Hhop (ok_before _ _ _ (g_views _ _ HG)) Hl) as [He|Hlt]; [|by right].
    case_decide as Ec.
    + right. split; [done|]. destruct (Hcall Ec) as [_ Hex]. rewrite <-Ec in Hex. specialize (Hz Hex).
      cbn. rewrite He. lia.
    + left. apply (exited_view _ _ _ (g_views _ _ HG')). exists l'. by rewrite lookup_insert_eq.
  - left. rewrite decide_True by done. specialize (Hc E).
    destruct Ha as [Hb|Hb|Hb|Hb|Hb Hx|Hb|Hb|v r Hb Hx|v r Hb Hx|Hb]; congruence || done.
Qed.

Lemma lead_done t actors l p ls p' ls' :
  t ∈ who p → t ∈ actors → G p ls → drained p ls → rounds actors 11 l → path l p ls p' ls' → done_with t p'.
Proof.
  intros Ht Hta HG Hd Hr Hp.
  assert (Hst : ∀ u q lq q' lq', G q lq → G q' lq' → turn_of u q lq q' lq' → done_with t q → done_with t q').
  { unfold done_with. intros u q lq q' lq' HGq HGq' Hu. case_decide; [by eapply past_stable|by eapply exited_stable]. }
  set (X := λ d q lq, done_with t q ∨ t ∈ who q ∧ drained q lq ∧ (t = caller → at_stop q = Calling) ∧ to_exit (lq !! t) = d).
  destruct (decide (t = caller ∧ at_stop p ≠ Calling)) as [[-> Hph]|Hph].
  { eapply (path_stable (λ q _, done_with caller q)); [exact Hst|exact Hp|]. unfold done_with. rewrite decide_True by done.
    destruct Hd as [_ He]. by destruct (at_stop p). }
  apply (rounds_lead t X (λ q _, done_with t q)) with actors 11%nat l p ls ls' (to_exit (ls !! t)); try done.
  - intros u q lq q' lq' d HGq HGq' Hu [Hdone|(Htq & Hdq & Hc & Hx)]; [left; exact (Hst _ _ _ _ _ HGq HGq' Hu Hdone)|].
    pose proof (turn_of_same _ _ _ _ _ Hu) as Hwho. pose proof (drained_stable _ _ _ _ _ HGq Hu Hdq) as Hdq'.
    destruct (decide (u = t)) as [->|Hne].
    + destruct (done_nearer _ _ _ _ _ HGq HGq' Htq Hu Hdq Hc) as [|[Hc' Hlt]]; [by left|].
      right. exists (to_exit (lq' !! t)). split; [right; by rewrite Hwho|lia].
    + right. exists d. split; [|done]. right. rewrite Hwho. split_and!; try done.
      * intros E. destruct (turn_of_phase _ _ _ _ _ Hu) as [[-> _]|[-> _]]; [by apply Hc|done].
      * destruct Hu as [_ _ (l' & b & -> & _)|_ (-> & _)|_ _ _ ->]; [|done..]. by rewrite lookup_insert_ne.
  - right. split_and!; try done. intros ->. destruct (decide (at_stop p = Calling)); [done|]. by destruct Hph.
  - pose proof (to_exit_max (ls !! t)). lia.
Qed.

(** *** The joins *)

Definition joins_left (ph : phase) : nat :=
  match ph with Swapping => length ids + 2 | Joining thrs => length thrs + 1 | _ => 0 end.

Lemma advance_joins p ls ph :
  G p ls → advance p ph → past (at_stop p) = true → (∀ t, t ∈ ids → exited (sys p) t = true) →
  ph = Returned ∨ (joins_left ph < joins_left (at_stop p))%nat.
Proof.
  intros HG Ha Hp He. pose proof (g_joins _ _ HG) as Hj.
  destruct Ha as [Hb|Hb|Hb|Hb|Hb Hx|Hb|Hb|t r Hb Hx|t r Hb Hx|Hb]; rewrite Hb in Hp, Hj |- *; try done; try (by left).
  - right. cbn. lia.
  - right. cbn. lia.
  - rewrite He in Hx; [done|]. apply Hj. by left.
Qed.

Lemma lead_returned l p ls p' ls' :
  G p ls → past (at_stop p) = true → (∀ t, t ∈ ids → exited (sys p) t = true) →
  rounds (caller :: ids) (length ids + 3) l → path l p ls p' ls' → at_stop p' = Returned.
Proof.
  intros HG Hpast Hex Hr Hp.
  set (X := λ d q (_ : gmap Z local), at_stop q = Returned ∨
    past (at_stop q) = true ∧ (∀ t, t ∈ ids → exited (sys q) t = true) ∧ joins_left (at_stop q) = d).
  apply (rounds_lead caller X (λ q _, at_stop q = Returned))
    with (caller :: ids) (length ids + 3)%nat l p ls ls' (joins_left (at_stop p)); try done.
  - intros u q lq q' lq' _ _ Hu Hq. destruct (turn_of_phase _ _ _ _ _ Hu) as [[-> _]|[_ Ha]]; [done|].
    inversion Ha; congruence.
  - intros u q lq q' lq' d HGq HGq' Hu Hd. destruct Hd as [Hd|(Hpq & Hexq & Hd)].
    { destruct (turn_of_phase _ _ _ _ _ Hu) as [[-> _]|[_ Ha]]; [by left|]. left. inversion Ha; congruence. }
    assert (Hex' : ∀ t, t ∈ ids → exited (sys q') t = true) by (intros t Ht; eapply exited_stable; [..|by apply Hexq]; done).
    pose proof (past_stable _ _ _ _ _ Hu Hpq) as Hp'.
    destruct (turn_of_phase _ _ _ _ _ Hu) as [[Hph Hc]|[-> Ha]].
    + right. exists d. split; [right; by rewrite Hph|]. split; [done|]. intros E. rewrite (Hc E) in Hpq. done.
    + destruct (advance_joins _ _ _ HGq Ha Hpq Hexq) as [|Hlt]; [by left|].
      right. exists (joins_left (at_stop q')). split; [by right|lia].
  - by left.
  - by right.
  - pose proof (g_joins _ _ HG) as Hj. destruct (at_stop p); cbn; lia.
Qed.

(** *** What a finished run looks like *)

Lemma drained_families p ls : G p ls → work p ls = 0%nat → qfam (queue p) = [] ∧ tfam (who p) ls = [].
Proof.
  intros HG Hw. unfold work in Hw. assert (Hpos : ∀ k, (0 < size k)%nat) by (intros k; pose proof (size_spawn k); lia).
  assert (queue p = []) as -> by (apply qload_zero; [apply HG|lia]). split; [done|].
  assert (Ht : tload (who p) ls = 0%nat) by lia. unfold tload in Ht.
  rewrite sum_list_zero, Forall_fmap, Forall_forall in Ht. unfold tfam.
  rewrite (bind_ext_elem _ (λ _, []) (who p)).
  - apply bind_nil.
  - intros t Hin. specialize (Ht t Hin). cbn in Ht. destruct (ls !! t) as [l|] eqn:Hl; [|done]. cbn in Ht |- *.
    destruct (vw_in _ _ (g_views _ _ HG) t l Hl) as (_ & Hok & _). unfold local_ok, load, lfam in *.
    destruct (pt l) as [|[e|]|k f|k f|k f|k f|]; try destruct k; try done.
    + destruct Hok as (_ & _ & _ & [k Hk]). unfold weigh in Ht. rewrite Hk in Ht. cbn in Ht. pose proof (Hpos k). lia.
    + destruct Hok as (_ & _ & _ & [k Hk] & _). rewrite Hk in Ht. cbn in Ht. pose proof (Hpos k). lia.
Qed.

Lemma fair_stop n l p ls p' ls' :
  G p ls → (work p ls ≤ n)%nat → rounds (caller :: ids) (5 * n + length ids + 16) l → path l p ls p' ls' →
  at_stop p' = Returned ∧ work p' ls' = 0%nat.
Proof.
  intros HG Hw Hr Hp. replace (5 * n + length ids + 16)%nat with (2 + (5 * n + (11 + (length ids + 3))))%nat in Hr by lia.
  apply rounds_plus in Hr as (l1 & l' & -> & R1 & Hr). apply rounds_plus in Hr as (l2 & l'' & -> & R2 & Hr).
  apply rounds_plus in Hr as (l3 & l4 & -> & R3 & R4).
  apply path_app in Hp as (p1 & ls1 & P1 & Hp). apply path_app in Hp as (p2 & ls2 & P2 & Hp).
  apply path_app in Hp as (p3 & ls3 & P3 & P4).
  destruct (path_facts _ _ _ _ _ P1 HG) as [HG1 _]. destruct (path_facts _ _ _ _ _ P2 HG1) as [HG2 _].
  destruct (path_facts _ _ _ _ _ P3 HG2) as [HG3 _].
  assert (Hact : ∀ q lq t, G q lq → t ∈ who q → t ∈ caller :: ids).
  { intros q lq t HGq Ht. rewrite (g_who _ _ HGq) in Ht. destruct (has_root q); [done|by right]. }
  pose proof (lead_ready _ _ _ _ _ R1 P1) as E1.
  assert (W2 : work p2 ls2 = 0%nat).
  { eapply (lead_work (caller :: ids) n); [|exact HG1|exact E1| |exact R2|exact P2].
    - intros t Ht. exact (Hact _ _ _ HG1 Ht).
    - pose proof (path_work _ _ _ _ _ P1). lia. }
  assert (D2 : drained p2 ls2) by (split; [done|by eapply path_early]).
  assert (Hdone : ∀ t, t ∈ who p2 → done_with t p3).
  { intros t Ht. apply (lead_done t (caller :: ids) l3 p2 ls2 p3 ls3); try done. exact (Hact _ _ _ HG2 Ht). }
  pose proof (path_work _ _ _ _ _ P3). pose proof (path_work _ _ _ _ _ P4). split; [|lia].
  eapply lead_returned; [exact HG3| | |exact R4|exact P4].
  - specialize (Hdone caller). unfold done_with in Hdone. rewrite decide_True in Hdone by done.
    destruct (has_root p3) eqn:Hroot.
    + apply Hdone. rewrite <-(path_who _ _ _ _ _ P3), (g_who _ _ HG3), Hroot. by left.
    + pose proof (path_early _ _ _ _ _ P3 (proj2 D2)) as E3. destruct (at_stop p3) eqn:Hph; try done.
      by rewrite (g_calling _ _ HG3 Hph) in Hroot.
  - intros t Ht. assert (t ≠ caller) as Hne by (intros ->; by apply NoDup_cons in ids_nodup as [? _]).
    specialize (Hdone t). unfold done_with in Hdone. rewrite decide_False in Hdone by done. apply Hdone.
    rewrite (g_who _ _ HG2). destruct (has_root p2); [by right|done].
Qed.

(** ** From the constructor to the end of [stop] *)

(** What is scheduled from outside. *)
Definition pushes (evs : list event) : list (FiberAndThread C) :=
  evs ≫= λ e, match e with Push ft => [ft] | Turn _ => [] end.
Definition pushed (evs : list event) : list C := omap cb_ (pushes evs).

(** Before [stop] is called threads run, and callbacks are scheduled that may
    run on any thread or on one of the scheduler's. *)
Definition before_stop (use_caller : bool) (e : event) : Prop :=
  match e with
  | Turn t => t ≠ caller
  | Push ft => callback ft ∧ (thread_ ft = -1 ∨ thread_ ft ∈ ids ∨ use_caller = true ∧ thread_ ft = caller)
  end.

Lemma G_push p ls ft :
  G p ls → at_stop p = Before → callback ft → thread_ ft = -1 ∨ thread_ ft ∈ who p →
  ∃ p', pool_step (Push ft) p = Ret p' ∧ G p' ls ∧ at_stop p' = Before ∧ who p' = who p ∧
    total p' ls ≡ₚ total p ls ++ qfam [ft] ∧ work p' ls = (work p ls + qload [ft])%nat.
Proof.
  intros HG Hph Hft Hb. destruct Hft as [Hf [k Hk]]. cbn [pool_step]. unfold step, schedule, scheduleNoLock.
  rewrite Hf, Hk. cbn -[qfam qload]. eexists. split; [done|].
  set (p' := set_sys _ p). assert (Hq : queue p' = queue p ++ [ft]) by done.
  assert (Hqa : qfam (queue p') = qfam (queue p) ++ qfam [ft] ∧ qload (queue p') = (qload (queue p) + qload [ft])%nat)
    by (rewrite Hq, qfam_app, qload_app; done).
  split; [|split; [done|split; [done|split]]].
  - destruct HG. split; try done.
    + destruct g_views0. split; try done. rewrite Hq. apply Forall_app. split; [done|]. by repeat constructor.
    + intros t l Hl Ht. destruct (g_over0 t l Hl Ht). done.
    + change (at_stop p') with (at_stop p). by rewrite Hph.
    + rewrite Hq. apply Forall_app. split; [done|]. by apply Forall_singleton.
  - unfold total. destruct Hqa as [-> _]. change (who p') with (who p). change (log p') with (log p). solve_Permutation.
  - unfold work. destruct Hqa as [_ ->]. change (who p') with (who p). lia.
Qed.

Lemma G_events use_caller evs : ∀ p ls,
  G p ls → at_stop p = Before → has_root p = use_caller → Forall (before_stop use_caller) evs →
  ∃ p' ls', pool_run evs p = Ret p' ∧ G p' ls' ∧
    total p' ls' ≡ₚ total p ls ++ qfam (pushes evs) ∧ (work p' ls' ≤ work p ls + qload (pushes evs))%nat.
Proof.
  induction evs as [|e evs IH]; intros p ls HG Hph Hroot Hevs.
  - exists p, ls. cbn. rewrite app_nil_r. split_and!; try done. lia.
  - apply Forall_cons in Hevs as [He Hevs]. destruct e as [t|ft]; cbn in He.
    + destruct (G_turn p ls t HG) as (p1 & ls1 & Hs & HG1 & Ht).
      destruct (IH p1 ls1 HG1) as (p' & ls' & Hr & HG' & Htot & Hwk); [| |done|].
      * destruct (turn_of_phase _ _ _ _ _ Ht) as [[-> _]|[-> _]]; done.
      * rewrite <-Hroot. unfold has_root. destruct Ht as [_ _ (l' & b & _ & _ & _ & Hf & _)|E _|_ _ -> _]; [|done..].
        by destruct (same_flags_who _ _ Hf) as (_ & Hr & _).
      * exists p', ls'. split; [cbn -[pool_step]; by rewrite Hs|]. split; [done|].
        split; [rewrite Htot; by rewrite (turn_of_total _ _ _ _ _ HG Ht)|].
        change (pushes (Turn t :: evs)) with (pushes evs).
        destruct (turn_of_work _ _ _ _ _ HG Ht) as [|[? _]]; lia.
    + destruct He as [Hcb Hb].
      destruct (G_push p ls ft HG Hph Hcb) as (p1 & Hs & HG1 & Hph1 & Hw1 & Htot1 & Hwk1).
      { rewrite (g_who _ _ HG), Hroot. destruct Hb as [?|[?|[-> ->]]]; [by left|right|right; by left].
        destruct use_caller; [by right|done]. }
      destruct (IH p1 ls HG1 Hph1) as (p' & ls' & Hr & HG' & Htot & Hwk); [|done|].
      { rewrite <-Hroot. pose proof Hs as Hs'. cbn [pool_step] in Hs'. unfold step, schedule, scheduleNoLock in Hs'.
        destruct (_ || _); by injection Hs' as <-. }
      exists p', ls'. split; [cbn -[pool_step]; by rewrite Hs|]. split; [done|].
      change (pushes (Push ft :: evs)) with ([ft] ++ pushes evs). rewrite qfam_app, qload_app.
      split; [rewrite Htot, Htot1; solve_Permutation|lia].
Qed.

Lemma pool_run_app l1 l2 p : pool_run (l1 ++ l2) p = pool_run l1 p ≫= pool_run l2.
Proof.
  revert p. induction l1 as [|e l1 IH]; intros p; cbn -[pool_step]; [done|].
  destruct (pool_step e p); cbn; [apply IH|done..].
Qed.

(** Before any thread has entered the loop. *)
Lemma total_empty p : total p ∅ = log p ++ qfam (queue p).
Proof.
  unfold total, tfam. erewrite (bind_ext_elem _ _ (who p)); [by rewrite bind_nil, app_nil_r|].
  intros t _. by rewrite lookup_empty.
Qed.

Lemma work_empty p : work p ∅ = qload (queue p).
Proof.
  unfold work, tload. induction (who p) as [|t l IH]; cbn; [lia|]. by rewrite lookup_empty.
Qed.

(** The new pool. *)
Lemma G_new n use_caller root :
  0 < n < 2 ^ 64 → Z.of_nat (length ids) = n - Z.b2z use_caller →
  ∃ p, pool_new n use_caller root ids = Ret p ∧ G p ∅ ∧ at_stop p = Before ∧ has_root p = use_caller ∧
    total p ∅ = [] ∧ work p ∅ = 0%nat.
Proof.
  intros Hn Hids. unfold pool_new, Scheduler_new. rewrite (proj2 (Z.ltb_lt 0 n)) by lia.
  destruct use_caller; cbn -[u64]; (eexists; split; [reflexivity|]); rewrite total_empty, work_empty;
    (split; [|done]); cbn in Hids.
  - apply mk_G; try done.
    + change (Z.of_nat (S (length ids)) < 2 ^ 64). lia.
    + change (u64 (n - 1) = Z.of_nat (length ids)). rewrite u64_small; lia.
    + unfold locals_of. cbn. rewrite lookup_singleton_eq. cbn. by rewrite bool_decide_eq_true_2.
  - apply mk_G; try done.
    + intros H. change (ids = []) in H. rewrite H in Hids. cbn in Hids. lia.
    + change (Z.of_nat (length ids) < 2 ^ 64). lia.
    + change (n = Z.of_nat (length ids)). lia.
    + unfold locals_of. cbn. by rewrite lookup_singleton_eq.
Qed.

Lemma qfam_pushed q : qfam q = omap cb_ q ≫= fam.
Proof.
  induction q as [|e q IH]; [done|]. unfold qfam in *. cbn. rewrite IH. by destruct (cb_ e).
Qed.
Lemma qload_pushed q : qload q = (5 * sum_list (size <$> omap cb_ q))%nat.
Proof.
  induction q as [|e q IH]; [done|]. unfold qload in *. cbn. rewrite IH. unfold weigh. destruct (cb_ e); cbn; lia.
Qed.

(** After [stop]: nothing is left to do, every thread of the pool has left the
    loop, where it had its hooks enabled and this scheduler as its own, and what
    ran is what a single thread would have run. *)
Definition over (evs : list event) (p : pool) : Prop :=
  fibers_ (sch (sys p)) = [] ∧ stopping (sch (sys p)) = true ∧
  (∀ t, t ∈ ids → exited (sys p) t = true ∧ is_hook_enable (locals_of p t) = true ∧
     GetThis (locals_of p t) = Some this) ∧
  ∃ order, fifo spawn (pushed evs) order ∧ log p ≡ₚ order.

Lemma returned_over evs p ls :
  G p ls → at_stop p = Returned → total p ls ≡ₚ qfam (pushes evs) → over evs p.
Proof.
  intros HG Hret Ht. pose proof (g_joins _ _ HG) as Hj. rewrite Hret in Hj.
  assert (Hw : work p ls = 0%nat).
  { destruct (has_root p) eqn:Hroot; [by apply (g_past _ _ HG); [rewrite Hret|]|].
    pose proof (g_some _ _ HG) as Hsome. rewrite (g_who _ _ HG), Hroot in Hsome.
    destruct ids as [|t r]; [done|]. eapply (over_exited p ls t); [done|]. apply Hj. by left. }
  assert (D : drained p ls) by (split; [done|by rewrite Hret]).
  destruct (drained_halts _ _ HG D) as [Hh Hq]. destruct (drained_families _ _ HG Hw) as [F1 F2].
  destruct (fifo_exists spawn size (pushed evs) size_spawn) as [order Ho].
  split; [done|]. split; [done|]. split.
  - intros t Hin. specialize (Hj t Hin). split; [done|].
    apply (exited_view _ _ _ (g_views _ _ HG)) in Hj as (l & Hl & _). destruct (g_tls _ _ HG t l Hl). done.
  - exists order. split; [done|]. rewrite (fifo_fam _ _ Ho). unfold total in Ht. rewrite F1, F2 in Ht.
    cbn in Ht. rewrite app_nil_r in Ht. rewrite Ht. unfold pushed. by rewrite qfam_pushed.
Qed.

(** C7: for a pool that runs callbacks which end, [stop] comes back from a pool
    of any size, and not before its threads have.  The conditions: what is
    scheduled are callbacks, not fibers, each for any thread or for one of the
    pool's; a callback runs to its end without a yield; the callbacks a callback
    schedules, for any thread, are smaller than itself in some measure, so that
    none keeps a chain of callbacks going for ever; once [stop] is called only
    callbacks schedule; thread ids are distinct and not -1, and the fibers [run]
    makes have addresses of their own.  Make a scheduler with any number of
    threads, with the calling thread one of them or not, start it, let threads run
    and callbacks be scheduled in any interleaving, then call [stop].  On no
    schedule does an assertion fail, and when [stop] has returned, every thread of
    the pool has left the loop, where its hooks were enabled, the queue is empty,
    and the callbacks that ran are those that were scheduled and those that these
    scheduled in turn, each once - what a single thread runs in their order.  On
    every schedule in which each thread moves often enough, [stop] does return.
    The conditions matter: with fibers that yield [stop] may wait for ever
    ([stop_can_hang]), and so it may with a callback that schedules itself
    ([stop_endless_callback]). *)
Theorem pool_stop_returns (n : Z) (use_caller : bool) (root : Z) (evs : list event) :
  0 < n < 2 ^ 64 → Z.of_nat (length ids) = n - Z.b2z use_caller → Forall (before_stop use_caller) evs →
  ∃ p0, pool_new n use_caller root ids = Ret p0 ∧
    ∀ sched, ∃ p, pool_run (evs ++ (Turn <$> sched)) p0 = Ret p ∧
      (at_stop p = Returned → over evs p) ∧
      (rounds (caller :: ids) (25 * sum_list (size <$> pushed evs) + length ids + 16) sched →
       at_stop p = Returned).
Proof.
  intros Hn Hids Hevs. destruct (G_new n use_caller root Hn Hids) as (p0 & Hnew & HG0 & Hph0 & Hroot & Ht0 & Hw0).
  exists p0. split; [done|]. intros sched.
  destruct (G_events use_caller evs p0 ∅ HG0 Hph0 Hroot Hevs) as (p1 & ls1 & Hrun1 & HG1 & Ht1 & Hw1).
  destruct (path_exists sched p1 ls1 HG1) as (p & ls & Hp).
  destruct (path_facts _ _ _ _ _ Hp HG1) as (HG & Hrun & Ht).
  exists p. split; [by rewrite pool_run_app, Hrun1|]. split.
  - intros Hret. eapply returned_over; [done..|]. by rewrite Ht, Ht1, Ht0.
  - intros Hr. rewrite Hw0, qload_pushed in Hw1.
    eapply (fair_stop (5 * sum_list (size <$> pushed evs))); [exact HG1|exact Hw1| |exact Hp].
    eapply rounds_le; [|exact Hr]. lia.
Qed.
End Pool.

(** A schedule made of equal rounds. *)
Lemma rounds_repeat actors n : rounds actors n (mjoin (replicate n actors)).
Proof. induction n as [|n IH]; cbn; constructor; [|done]. by apply Forall_forall. Qed.

(** Three threads, the caller one of them: 101 is at work before the first
    callback is there, a second is only for the caller. *)
Definition events0 : list (event (C := nat)) :=
  [Turn 101; Push (entry_of 5%nat); Turn 101; Push (mkFT None (Some 3%nat) 7)].
Definition pool_run0 :=
  pool_run (C := nat) spawn0 (λ k, bool_decide (k = 2%nat)) 1 (λ t, 10 * t) (λ t, 10 * t + 1) (λ t, 10 * t + 2) 7.

Example pool_stop_runs :
  match pool_new 1 7 3 true 1000 [101; 102] ≫= pool_run0 (events0 ++ (Turn <$> mjoin (replicate 40 [7; 101; 102]))) with
  | Ret p => (at_stop p, log p, exited (sys p) <$> [7; 101; 102]) = (Returned, [5; 1; 3; 4; 2]%nat, [true; true; true])
  | _ => False
  end.
Proof. by vm_compute. Qed.

Lemma pool_stop_returns_witness :
  ∃ p0, pool_new 1 7 3 true 1000 [101; 102] = Ret p0 ∧
    ∀ sched, ∃ p, pool_run0 (events0 ++ (Turn <$> sched)) p0 = Ret p ∧
      (at_stop p = Returned → over spawn0 1 [101; 102] events0 p) ∧
      (rounds [7; 101; 102] 918 sched → at_stop p = Returned).
Proof.
  apply (pool_stop_returns spawn0 (λ k, bool_decide (k = 2%nat)) 1 (λ t, 10 * t) (λ t, 10 * t + 1) (λ t, 10 * t + 2) 7)
    with (size := λ k, (k * k + 1)%nat) (ids := [101; 102]) (n := 3) (use_caller := true) (root := 1000) (evs := events0);
    try done; try (intros; lia).
  - intros k. do 6 (destruct k as [|k]; [cbn; lia|]). cbn. lia.
  - apply (bool_decide_unpack _). vm_compute. exact I.
  - unfold events0. rewrite !Forall_cons. split_and!; try done.
    + split; [by split; [|eexists]|by left].
    + split; [by split; [|eexists]|by right; right].
Defined.

(** ** Why the measure: a callback that schedules itself

    One thread beside the caller, one callback, which schedules itself again;
    the two threads take turns for ever, and [stop] is still at its join. *)
Definition endless (l : list (event (C := nat))) (p : pool) : outcome pool :=
  pool_run (λ k, [k]) (λ _, false) 1 (λ t, 10 * t) (λ t, 10 * t + 1) (λ t, 10 * t + 2) 7 l p.
Definition endless_start : list (event (C := nat)) :=
  Push (entry_of 5%nat) :: (Turn <$> mjoin (replicate 7 [7; 101])).
Definition set_log (lg : list nat) (p : pool (C := nat)) : pool :=
  mkPool (sys p) (taken p) lg (tls p) (threads_ p) (at_stop p).

(** Six rounds lead back to where they began, but for the log. *)
Lemma endless_rounds p n : (pool_new 1 7 1 false 1000 [101] ≫= endless endless_start) = Ret p →
  ∀ lg, ∃ lg', endless (Turn <$> mjoin (replicate (n * 6) [7; 101])) (set_log lg p) = Ret (set_log lg' p).
Proof.
  intros H. assert (Hr : ∀ lg, endless (Turn <$> mjoin (replicate 6 [7; 101])) (set_log lg p) = Ret (set_log (lg ++ [5%nat]) p)).
  { intros lg. vm_compute in H. injection H as <-. vm_compute. reflexivity. }
  clear H. induction n as [|n IH]; intros lg; [by exists lg|]. destruct (IH (lg ++ [5%nat])) as [lg' Hlg].
  exists lg'. unfold endless in *. change (S n * 6)%nat with (6 + n * 6)%nat.
  rewrite replicate_add, join_app, fmap_app, pool_run_app, Hr. exact Hlg.
Qed.

Theorem stop_endless_callback :
  ∃ p0, pool_new 1 7 1 false 1000 [101] = Ret p0 ∧
    ∀ n, ∃ p, endless (endless_start ++ (Turn <$> mjoin (replicate (n * 6) [7; 101]))) p0 = Ret p ∧
      at_stop p = Joining [101] ∧ exited (sys p) 101 = false.
Proof.
  destruct (pool_new 1 7 1 false 1000 [101]) as [p0| | |] eqn:H0; [|by vm_compute in H0..].
  exists p0. split; [done|]. intros n.
  destruct (endless endless_start p0) as [p| | |] eqn:Hp; try (vm_compute in H0; injection H0 as <-; by vm_compute in Hp).
  assert (Hstart : (pool_new 1 7 1 false 1000 [101] ≫= endless endless_start) = Ret p) by (by rewrite H0).
  destruct (endless_rounds p n Hstart (log p)) as [lg Hlg]. exists (set_log lg p).
  replace (set_log (log p) p) with p in Hlg by (by destruct p).
  unfold endless in *. rewrite pool_run_app, Hp. split; [exact Hlg|].
  vm_compute in Hstart. by injection Hstart as <-.
Qed.

(** ** Why callbacks only: fibers that yield

    The count of working threads drops before a fiber that yielded is queued
    again (scheduler.cpp:192), so a thread may leave the loop too early; what is
    bound to it afterwards never runs, and [stop] waits for ever. *)
Definition hang_start : Scheduler nat := mkS [] None [1; 2] 2 0 0 true true (-1).
(** Up to the last test of [stopping] by thread 2, and on. *)
Definition hang_before : list (action nat) :=
  [AThread 1 11; AThread 2 12; ACreate 9; ASchedule (mkFT (Some 9) None (-1)); ARun 1 50; ARun 1 50;
   ABody 1 EReady; ARun 1 50; ARun 1 50; ARun 2 60; ARun 2 60].
Definition hang_after : list (action nat) :=
  [ABody 2 (EFinish false); ARun 2 60; ARun 2 60; ARun 2 60; ARun 2 60; ARun 2 60;
   ARun 1 50; ARun 1 50; ARun 1 50; ASchedule (mkFT None (Some 7%nat) 2); ABody 1 (EFinish false);
   ARun 1 50; ARun 1 50; ARun 1 50; ARun 1 50; ARun 1 50; ABody 1 EHold; ARun 1 50; ARun 1 50].

Ltac legal_body :=
  legal_step ltac:(intros x k f Hx Hat; vm_compute in Hx; injection Hx as <-; injection Hat as <- <-;
                   first [by left | by right | right; by intros ?%not_elem_of_nil]).

Lemma hang_legal : legal_run (hang_before ++ hang_after) (system_new hang_start).
Proof.
  unfold hang_before, hang_after. cbn [app]. do 6 legal_step decide_legal. legal_body. do 4 legal_step decide_legal.
  legal_body. do 8 legal_step decide_legal. legal_step ltac:(exact I). legal_body.
  do 5 legal_step decide_legal. legal_body. do 2 legal_step decide_legal. exact I.
Qed.

(** Turns that lead back to where they began. *)
Lemma drive_cycle {C} (spawn : C → list C) (throws : C → bool) (m : nat) t fresh w (P : system C * option C * list C → Prop) :
  drive spawn throws (S m) t fresh w = Ret w →
  Forall (λ k, match drive spawn throws k t fresh w with Ret w' => P w' | _ => False end) (seq 0 (S m)) →
  ∀ n, match drive spawn throws n t fresh w with Ret w' => P w' | _ => False end.
Proof.
  intros Hback HP n. rewrite (Nat.div_mod_eq n (S m)), Nat.mul_comm.
  assert (H : ∀ q r, drive spawn throws (q * S m + r) t fresh w = drive spawn throws r t fresh w).
  { induction q as [|q IH]; intros r; [done|]. cbn [Nat.mul]. rewrite <-Nat.add_assoc, drive_app, Hback. apply IH. }
  rewrite H. rewrite Forall_forall in HP. apply HP, elem_of_seq.
  pose proof (Nat.mod_upper_bound n (S m)). lia.
Qed.

(** A legal run on two threads: the fiber 9 yields on thread 1; thread 2 finds
    the scheduler ready to stop and leaves; then the fiber goes on and schedules
    a callback for thread 2.  From there thread 1 turns for ever, and thread 2
    is gone. *)
Theorem stop_can_hang :
  ∃ g1 g, quiet hang_start ∧ legal_run (hang_before ++ hang_after) (system_new hang_start) ∧
    steps hang_before (system_new hang_start) = Ret g1 ∧ idle (sch g1) = EFinish false ∧
    steps hang_after g1 = Ret g ∧ exited g 2 = true ∧
    ∀ n, match drive (λ _ : nat, []) (λ _, false) n 1 50 (g, None, []) with
         | Ret (g', _, _) => exited g' 1 = false ∧ fibers_ (sch g') = [mkFT None (Some 7%nat) 2]
         | _ => False
         end.
Proof.
  eexists _, _. split; [done|]. split; [exact hang_legal|]. split; [vm_compute; reflexivity|]. split; [done|].
  split; [vm_compute; reflexivity|]. split; [by vm_compute|].
  intros n. lazymatch goal with |- match drive _ _ _ _ _ ?w with _ => _ end => pose proof (drive_cycle (λ _ : nat, []) (λ _, false) 4 1 50 w
    (λ v, let '(g', _, _) := v in exited g' 1 = false ∧ fibers_ (sch g') = [mkFT None (Some 7%nat) 2])) as H end.
  specialize (H ltac:(vm_compute; reflexivity)).
  assert (Hall := H ltac:(cbn [seq]; repeat constructor; by vm_compute) n). clear H.
  destruct (drive _ _ n 1 50 _) as [[[g' cur] lg]| | |]; done.
Qed.
