(* ===== verification/Reactor.v ===== *)
(** * The event loop over the scheduler: IOManager as a Scheduler and a TimerManager

    An [IOManager] object is all three at once (iomanager.h).  Here the parts come
    together: fibers register for events and suspend, the idle fiber of each
    thread waits in [epoll_wait] and puts what became ready back in the queue,
    timers do the same, and the run loop resumes it.  A step is what one thread
    does between two points where another may intervene. *)
From S2P Require Import Prelude Timer IOManager Fiber Scheduler Tasks.

(** ** Fibers that may be woken *)
Section Wakeable.
Context {C : Type}.
Implicit Types (g : system C) (x : thread C).

(** [schedule] may be called for the fiber: [Scheduler.legal]. *)
Definition wakeable (f : Z) g : Prop := legal (ASchedule (mkFT (Some f) None (-1))) g.

Definition in_callback x : bool :=
  match at_ x with Inside KCb _ | Leaving KCb _ | Back KCb _ | Done KCb _ => true | _ => false end.

Lemma picked_claim x f : (f, CPicked) ∈ claims x ↔ ∃ ft, at_ x = Picked (Some ft) ∧ fiber_ ft = Some f.
Proof.
  unfold claims. rewrite elem_of_cons. split.
  - intros [[=]|H]. destruct (at_ x) as [|[ft|]|[]|[]|[]|[]|]; destruct (cb_fiber x);
      try (destruct (fiber_ ft) eqn:Hf); cbn in H; rewrite ?elem_of_cons, ?elem_of_nil in H;
      naive_solver.
  - intros (ft & -> & ->). right. by left.
Qed.

Lemma parked_claim x f : (f, CParked) ∈ claims x ↔ cb_fiber x = Some f ∧ in_callback x = false.
Proof.
  unfold claims, in_callback. rewrite elem_of_cons. split.
  - intros [[=]|H]. destruct (at_ x) as [|[ft|]|[]|[]|[]|[]|]; destruct (cb_fiber x);
      try (destruct (fiber_ ft) eqn:Hf); cbn in H; rewrite ?elem_of_cons, ?elem_of_nil in H;
      naive_solver.
  - intros [-> Hc]. right. destruct (at_ x) as [|[ft|]|[]|[]|[]|[]|]; try done;
      try (destruct (fiber_ ft)); cbn; rewrite ?elem_of_cons; auto.
Qed.

Lemma running_claim x f c : (f, c) ∈ claims x → c = CRunning ∨ c = CBack → executing x = Some f.
Proof.
  unfold claims, executing. rewrite elem_of_cons. intros [[= -> ->]|H] Hc; [naive_solver|].
  destruct (at_ x) as [|[ft|]|[]|[]|[]|[]|]; destruct (cb_fiber x);
    try (destruct (fiber_ ft) eqn:Hf); cbn in H; rewrite ?elem_of_cons, ?elem_of_nil in H;
    naive_solver.
Qed.

Lemma wakeable_spec f g : wakeable f g ↔
  (states g !! f = Some INIT ∨ states g !! f = Some HOLD ∨ states g !! f = Some EXEC) ∧
  f ∉ qfibers (fibers_ (sch g)) ∧
  ∀ t x, threads g !! t = Some x → idle_fiber x ≠ f ∧ (∀ ft, at_ x = Picked (Some ft) → fiber_ ft ≠ Some f) ∧
    (cb_fiber x = Some f → in_callback x = true).
Proof.
  unfold wakeable. cbn [legal fiber_].
  assert (∀ x, (idle_fiber x ≠ f ∧ (f, CPicked) ∉ claims x ∧ (f, CParked) ∉ claims x) ↔
    (idle_fiber x ≠ f ∧ (∀ ft, at_ x = Picked (Some ft) → fiber_ ft ≠ Some f) ∧
    (cb_fiber x = Some f → in_callback x = true))) as E.
  { intros x. rewrite picked_claim, parked_claim. destruct (in_callback x); naive_solver. }
  naive_solver.
Qed.

Lemma qfibers_elem q f : f ∈ qfibers q ↔ ∃ it : FiberAndThread C, it ∈ q ∧ fiber_ it = Some f.
Proof. unfold qfibers. by rewrite list_elem_of_omap. Qed.

(** Thread [t] goes from [x] to [x']. *)
Lemma wakeable_move f g t x x' sch' st' :
  wakeable f g → threads g !! t = Some x → idle_fiber x' = idle_fiber x →
  (st' !! f = Some INIT ∨ st' !! f = Some HOLD ∨ st' !! f = Some EXEC) →
  f ∉ qfibers (fibers_ sch') →
  (∀ ft, at_ x' = Picked (Some ft) → fiber_ ft ≠ Some f) →
  (cb_fiber x' = Some f → in_callback x' = true) →
  wakeable f (mkSys sch' st' (<[t := x']> (threads g))).
Proof.
  rewrite !wakeable_spec. intros (_ & _ & Hth) Hx Hid Hst Hq Hp Hc. split_and!; [done|done|].
  cbn. intros t' y. destruct (decide (t' = t)) as [->|].
  - rewrite lookup_insert_eq. intros [= <-]. rewrite Hid. destruct (Hth t x Hx). done.
  - rewrite lookup_insert_ne by done. apply Hth.
Qed.

Lemma wakeable_insert f (st : gmap Z State) f0 s :
  (st !! f = Some INIT ∨ st !! f = Some HOLD ∨ st !! f = Some EXEC) →
  (f0 = f → s = INIT ∨ s = HOLD ∨ s = EXEC) →
  <[f0 := s]> st !! f = Some INIT ∨ <[f0 := s]> st !! f = Some HOLD ∨ <[f0 := s]> st !! f = Some EXEC.
Proof.
  intros Hst Hs. destruct (decide (f0 = f)) as [->|].
  - rewrite lookup_insert_eq. destruct (Hs eq_refl) as [->|[->| ->]]; auto.
  - by rewrite lookup_insert_ne.
Qed.

Lemma wakeable_state f g : wakeable f g → state_of g f = INIT ∨ state_of g f = HOLD ∨ state_of g f = EXEC.
Proof. rewrite wakeable_spec. unfold state_of. intros ([->|[->| ->]] & _); auto. Qed.

Lemma wakeable_schedule f g ft :
  wakeable f g → fiber_ ft ≠ Some f → wakeable f (set_sch (schedule ft (sch g)).1 g).
Proof.
  rewrite !wakeable_spec. intros (Hst & Hq & Hth) Hft. split_and!; [done| |done]. cbn [set_sch sch].
  rewrite schedule_queue. rewrite qfibers_elem in Hq |- *. intros (it & [Hit|Hit]%elem_of_app & Hf); [naive_solver|].
  destruct (entry_ok ft); [|by apply elem_of_nil in Hit]. apply list_elem_of_singleton in Hit as ->. done.
Qed.

Lemma swapIn_EXEC s s' : swapIn_state s = Ret s' → s' = EXEC.
Proof. by destruct s; intros [= <-]. Qed.

(** What the run loop does to a fiber that may be woken: it stays so. *)
Lemma wakeable_run f g loc t fresh x g' :
  Inv g loc → wakeable f g → threads g !! t = Some x → run_step t fresh x g = Ret g' → wakeable f g'.
Proof.
  intros HI Hw Ht Hr. pose proof (wakeable_state f g Hw) as Hs.
  pose proof Hw as (Hst & Hq & Hth)%wakeable_spec. destruct (Hth t x Ht) as (Hid & Hpk & Hpa).
  destruct (iv_claims _ _ HI t x Ht) as (Hsh & _). unfold shape in Hsh. unfold in_callback in Hpa.
  unfold run_step in Hr. destruct (at_ x) as [|[ft|]|k f0|k f0|k f0|k f0|] eqn:Hat.
  - apply bind_Ret in Hr as ([[q o] b] & Hp & Hr). injection Hr as <-. apply pick_conserves in Hp.
    apply (wakeable_move f g t x); try done.
    + destruct o as [it|]; [|by subst q]. destruct Hp as [Hp _]. rewrite qfibers_elem in Hq |- *.
      cbn [null add_active set_queue fibers_]. intros (it' & Hin & Hf). apply Hq. exists it'. split; [|done]. rewrite Hp. by right.
    + cbn. intros ft [= ->]. cbn in Hp. destruct Hp as [Hp _]. intros Hf. apply Hq, qfibers_elem.
      exists ft. split; [|done]. rewrite Hp. by left.
  - destruct (match fiber_ ft with Some f1 => if negb (finished (state_of g f1)) then Some f1 else None | None => None end)
      as [f1|]; [|destruct (cb_ ft) as [k|]]; inv_ret.
    + apply (wakeable_move f g t x); try done. apply wakeable_insert; [done|].
      match goal with H : swapIn_state _ = Ret _ |- _ => apply swapIn_EXEC in H end. auto.
    + apply (wakeable_move f g t x); try done. apply wakeable_insert; [done|].
      match goal with H : swapIn_state _ = Ret _ |- _ => apply swapIn_EXEC in H end. auto.
    + by apply (wakeable_move f g t x).
  - destruct (bool_decide (state_of g (idle_fiber x) = TERM)); inv_ret.
    + by apply (wakeable_move f g t x).
    + apply (wakeable_move f g t x); try done. apply wakeable_insert; done.
  - by inv_ret.
  - inv_ret. by apply (wakeable_move f g t x).
  - inv_ret. apply (wakeable_move f g t x); try done. by destruct k.
  - assert (Hready : ∀ x', idle_fiber x' = idle_fiber x → at_ x' = Top → (cb_fiber x' = Some f → False) →
      state_of g f0 = READY →
      wakeable f (go t x' (set_sch (schedule (mkFT (Some f0) None (-1)) (sch g)).1 g))).
    { intros x' Hi' Ha' Hc' Hr0.
      assert (f0 ≠ f) as Hne by (intros ->; rewrite Hr0 in Hs; naive_solver).
      apply (wakeable_schedule f g (mkFT (Some f0) None (-1))) in Hw as Hw'; [|by intros [= ->]].
      pose proof Hw' as (? & ? & _)%wakeable_spec.
      apply (wakeable_move f _ t x _ _ _ Hw'); try done; by rewrite Ha'. }
    assert (Hrest : ∀ x' st', idle_fiber x' = idle_fiber x → at_ x' = Top → (cb_fiber x' = Some f → False) →
      st' = states g ∨ st' = <[f0 := HOLD]> (states g) ∨ f0 ≠ f ∧ st' = <[f0 := INIT]> (states g) →
      wakeable f (mkSys (sch g) st' (<[t := x']> (threads g)))).
    { intros x' st' Hi' Ha' Hc' Hs'. apply (wakeable_move f g t x); try done; [|by rewrite Ha'].
      destruct Hs' as [->|[->|[Hne ->]]]; [done|apply wakeable_insert; auto..]. }
    destruct k; cbn in Hsh.
    + destruct (bool_decide_reflect (state_of g f0 = READY)) as [Hr0|Hr0]; [|destruct (finished (state_of g f0)) eqn:Hfin];
        cbn [negb] in Hr; inv_ret; [apply Hready|apply Hrest..]; auto; by intros Hc%Hpa.
    + destruct (bool_decide_reflect (state_of g f0 = READY)) as [Hr0|Hr0]; [|destruct (finished (state_of g f0)) eqn:Hfin];
        inv_ret; [by apply Hready| |by apply Hrest; auto].
      assert (f0 ≠ f) as Hne by (intros ->; destruct Hs as [E|[E|E]]; by rewrite E in Hfin).
      unfold reset_state in *. inv_ret. apply Hrest; auto. cbn. congruence.
    + destruct (finished (state_of g f0)); cbn [negb] in Hr; inv_ret; apply Hrest; auto; by intros Hc%Hpa.
  - by inv_ret.
Qed.

(** Code of another fiber, or the fiber's own as long as it holds. *)
Lemma wakeable_body f g t e x g' :
  wakeable f g → threads g !! t = Some x → body_step t e x g = Ret g' →
  (∀ k, at_ x = Inside k f → e = EHold) → wakeable f g'.
Proof.
  intros Hw Ht Hb He. pose proof Hw as (Hst & Hq & Hth)%wakeable_spec. destruct (Hth t x Ht) as (Hid & Hpk & Hpa).
  unfold in_callback in Hpa. unfold body_step in Hb. destruct (at_ x) as [| |k f0| | | |] eqn:Hat; try (by injection Hb as <-).
  assert (e ≠ EHold → f0 ≠ f) as Hne by (intros Hne ->; by apply Hne, (He k)).
  destruct e; inv_ret; apply (wakeable_move f g t x); try done; try (by destruct k);
    (apply wakeable_insert; [done|]; intros ->; by destruct Hne).
Qed.

(** An action of the scheduler that does not touch the fiber. *)
Definition leaves (f : Z) (a : action C) g : Prop :=
  match a with
  | ASchedule ft => fiber_ ft ≠ Some f
  | ABody t e => ∀ x k, threads g !! t = Some x → at_ x = Inside k f → e = EHold
  | _ => True
  end.

Lemma wakeable_step f g loc a g' :
  Inv g loc → wakeable f g → legal a g → leaves f a g → step a g = Ret g' → wakeable f g'.
Proof.
  intros HI Hw Hl Hf Hs. pose proof Hw as (Hst & Hq & Hth)%wakeable_spec.
  destruct a as [t i|f0|ft|t fresh|t e]; cbn [step] in Hs; inv_ret.
  - destruct Hl as [Ht Hi]. assert (i ≠ f) as Hne by (intros ->; rewrite Hi in Hst; naive_solver).
    apply wakeable_spec. split_and!; [by apply wakeable_insert|done|]. cbn. intros t' y.
    destruct (decide (t' = t)) as [->|].
    + rewrite lookup_insert_eq. by intros [= <-].
    + rewrite lookup_insert_ne by done. apply Hth.
  - cbn in Hl. assert (f0 ≠ f) as Hne by (intros ->; rewrite Hl in Hst; naive_solver).
    apply wakeable_spec. split_and!; [by apply wakeable_insert|done|done].
  - by apply wakeable_schedule.
  - destruct (threads g !! t) as [x|] eqn:Ht; [by eapply wakeable_run|by injection Hs as <-].
  - destruct (threads g !! t) as [x|] eqn:Ht; [|by injection Hs as <-].
    eapply wakeable_body; [done..|]. intros k. by apply Hf.
Qed.

(** The fiber that is running may be woken once it is suspended. *)
Lemma running_wakeable g loc t x k f :
  Inv g loc → threads g !! t = Some x → at_ x = Inside k f → k ≠ KIdle →
  f ∉ qfibers (fibers_ (sch g)) → wakeable f g.
Proof.
  intros HI Hx Hat Hk Hnq. destruct (iv_claims _ _ HI t x Hx) as (Hsh & _ & _ & Hown).
  assert (Hrun : (f, CRunning) ∈ claims x)
    by (unfold claims; rewrite Hat; destruct k; [right; left| right; left|done]).
  destruct (Hown _ _ Hrun) as [b Hl]. apply wakeable_spec. split_and!; [|done|].
  - right; right. destruct (states g !! f) as [s|] eqn:Hs.
    + by rewrite (iv_state _ _ HI f _ s Hl Hs).
    + apply (iv_dom _ _ HI) in Hs. congruence.
  - intros t' y Hy. destruct (iv_claims _ _ HI t' y Hy) as (_ & _ & _ & Hown').
    assert (∀ c, (f, c) ∈ claims y → c = CRunning) as Honly
      by (intros c [b' Hb]%Hown'; rewrite Hl in Hb; by injection Hb as _ <- _).
    split_and!.
    + intros <-. discriminate (Honly CIdle). by left.
    + intros ft Hp Hf. discriminate (Honly CPicked). apply picked_claim. by exists ft.
    + intros Hc. destruct (in_callback y) eqn:E; [done|]. discriminate (Honly CParked). by apply parked_claim.
Qed.
End Wakeable.

(** ** The reactor *)
Section Reactor.
Context {F W : Type}.
(** [std::function<void()>] as the timers keep it; one scheduler, so a pointer to
    it says nothing. *)
Abbreviation C := (callback F W).

(** Where the code of [IOManager::idle] is, on a thread that is in its idle
    fiber: between the reads of [stopping], in [epoll_wait], before each critical
    section that follows, before [swapOut], past the loop. *)
Inductive ipoint : Type :=
  | IStart
  | IPending (timeout : Z)
  | IAsk (timeout : Z)
  | IWait (timeout : Z)
  | IExpire (events : list report)
  | ISchedule (cbs : list (option C)) (events : list report)
  | IReports (events : list report)
  | ISwap
  | IReturn.

Record reactor : Type := mkR {
  sys : system C;
  tm : TimerManager F W;
  iom : IOManager unit C;
  idles : gmap Z ipoint }.

Definition set_sys (g : system C) (r : reactor) : reactor := mkR g (tm r) (iom r) (idles r).
Definition set_tm (s : TimerManager F W) (r : reactor) : reactor := mkR (sys r) s (iom r) (idles r).
Definition set_iom (m : IOManager unit C) (r : reactor) : reactor := mkR (sys r) (tm r) m (idles r).
Definition idle_at (t : Z) (p : ipoint) (r : reactor) : reactor :=
  mkR (sys r) (tm r) (iom r) (<[t := p]> (idles r)).

(** What [triggerEvent] hands to [schedule], and its calls one after the other. *)
Definition entry (k : unit * task C) : FiberAndThread C :=
  match k.2 with TFiber f => mkFT f None (-1) | TCb c => mkFT None (Some c) (-1) end.
Definition wake (ks : list (unit * task C)) (g : system C) : system C :=
  set_sch (foldl (λ s k, (schedule (entry k) s).1) (sch g) ks) g.

(** The next piece of [IOManager::idle] on thread [t].  [now] is the clock, [q]
    the address of the probe, [events] what [epoll_wait] stores. *)
Definition idle_piece (t now q : Z) (events : list report) (r : reactor) : outcome reactor :=
  match threads (sys r) !! t with
  | Some x =>
      match at_ x with
      | Inside KIdle _ =>
          match default IStart (idles r !! t) with
          | IStart =>
              let '(s, timeout) := getNextTimer now (tm r) in
              Ret (idle_at t (if timeout =? u64_max then IPending timeout else IWait timeout) (set_tm s r))
          | IPending timeout =>
              Ret (idle_at t (if pendingEventCount_ (iom r) =? 0 then IAsk timeout else IWait timeout) r)
          | IAsk timeout =>
              Ret (idle_at t (if Scheduler.stopping (sch (sys r)) then IReturn else IWait timeout) r)
          | IWait timeout => Ret (idle_at t (IExpire events) r)
          | IExpire l =>
              let '(s, cbs) := listExpiredCb now q (tm r) [] in
              Ret (idle_at t (if bool_decide (cbs = []) then IReports l else ISchedule cbs l) (set_tm s r))
          | ISchedule cbs l =>
              let s := (schedule_range ((λ c, mkFT None c (-1)) <$> cbs) (sch (sys r)) false).1 in
              Ret (idle_at t (IReports l) (set_sys (set_sch s (sys r)) r))
          | IReports [] => Ret (idle_at t ISwap r)
          | IReports (e :: l) =>
              match data e with
              | TicklePipe => Ret (idle_at t (IReports l) r)
              | Context_ p =>
                  '(m, ks) ← idle_event (ctl_rt e) p (revents e) (iom r);
                  Ret (idle_at t (IReports l) (set_iom m (set_sys (wake ks (sys r)) r)))
              end
          | ISwap => g ← body_step t EHold x (sys r); Ret (idle_at t IStart (set_sys g r))
          | IReturn => g ← body_step t (EFinish false) x (sys r); Ret (set_sys g r)
          end
      | _ => Ret r
      end
  | None => Ret r
  end.

(** [RSched]: a step of the run loop, of a fiber's code or of anyone who calls
    [schedule]; [RTimer]: a timer call; [RAdd]: [addEvent] from the fiber that
    runs on [t]; [REvent]: another event call; [RIdle]: a piece of [idle]. *)
Inductive raction : Type :=
  | RSched (a : action C)
  | RTimer (now : Z) (o : Timer.op F W)
  | RAdd (t rt fd : Z) (w : which) (k : option C)
  | REvent (o : IOManager.op (S := unit) (C := C))
  | RIdle (t now q : Z) (events : list report).

Definition rstep (a : raction) (r : reactor) : outcome reactor :=
  match a with
  | RSched a => g ← step a (sys r); Ret (set_sys g r)
  | RTimer now o => '(s, _) ← Timer.run_op now o (tm r); Ret (set_tm s r)
  | RAdd t rt fd w k =>
      match at_ <$> threads (sys r) !! t with
      | Some (Inside _ f) =>
          '(m, _) ← addEvent rt (Some tt) (f, bool_decide (state_of (sys r) f = EXEC)) fd (ev_of w) k (iom r);
          Ret (set_iom m r)
      | _ => Ret r
      end
  | REvent o => '(m, (_, ks)) ← IOManager.run_op o (iom r); Ret (set_iom m (set_sys (wake ks (sys r)) r))
  | RIdle t now q events => idle_piece t now q events r
  end.

Fixpoint rsteps (l : list raction) (r : reactor) : outcome reactor :=
  match l with [] => Ret r | a :: l' => r' ← rstep a r; rsteps l' r' end.

(** ** What the program promises *)

(** Fiber [f] waits for an event. *)
Definition waits_on (f fd : Z) (w : which) (r : reactor) : Prop :=
  0 ≤ fd ∧ waiter (iom r) fd w = Some (tt, TFiber (Some f)).

(** The contract of the event calls, in terms of the manager. *)
Definition permitted (o : IOManager.op (S := unit) (C := C)) (m : IOManager unit C) : Prop :=
  ∀ Wt, IOManager.implements m Wt → IOManager.op_ok (tickleFds_ m).1 (isize m) o Wt.

(** Besides the promises of the parts: nobody but the event manager wakes a
    fiber that waits for an event; a fiber that has registered itself yields to
    hold next, and registers itself for one event at a time, when no other
    wakeup of it is in the queue; and a report is not partly out of date. *)
Definition rlegal (a : raction) (r : reactor) : Prop :=
  match a with
  | RSched a =>
      legal a (sys r) ∧ (∀ f fd w, waits_on f fd w r → leaves f a (sys r)) ∧
      match a with ABody t _ => ∀ x f, threads (sys r) !! t = Some x → at_ x ≠ Inside KIdle f | _ => True end
  | RTimer now o => 0 ≤ now ∧ Timer.op_ok o (tm r)
  | RAdd t rt fd w k =>
      permitted (IOManager.OpAdd rt (Some tt) (0, true) fd w k) (iom r) ∧
      ∀ x kd f, threads (sys r) !! t = Some x → at_ x = Inside kd f → kd ≠ KIdle ∧
        (k = None → f ∉ qfibers (fibers_ (sch (sys r))) ∧ ∀ fd' w', ¬ waits_on f fd' w' r)
  | REvent o =>
      permitted o (iom r) ∧ match o with OpDel _ _ _ | IOManager.OpCancel _ _ _ | OpCancelAll _ _ => True | _ => False end
  | RIdle t now q _ =>
      match default IStart (idles r !! t) with
      | IStart => 0 ≤ now
      | IExpire _ => 0 < q ∧ heap_ (tm r) !! q = None
      | IReports (e :: _) =>
          match data e with
          | Context_ p => permitted (OpEvent (ctl_rt e) (Z.of_nat p) (revents e)) (iom r)
          | TicklePipe => True
          end
      | _ => True
      end
  end.

Fixpoint rlegal_run (l : list raction) (r : reactor) : Prop :=
  match l with
  | [] => True
  | a :: l' => rlegal a r ∧ ∀ r', rstep a r = Ret r' → rlegal_run l' r'
  end.

(** The reactor before any thread has entered [run]. *)
Definition reactor_new (s : Scheduler C) (start : Z) (tickleFds : Z * Z) : reactor :=
  mkR (system_new s) (TimerManager_new start) (IOManager_new tickleFds) ∅.
End Reactor.
Arguments reactor : clear implicits.
Arguments raction : clear implicits.
Arguments ipoint : clear implicits.

(** ** The invariant of the whole *)
Section ReactorLaws.
Context {F W : Type}.
Abbreviation C := (callback F W).
Abbreviation waiters := (gmap (Z * which) (unit * task C)).
Implicit Types (g : system C) (r : reactor F W) (Wt : waiters).

Definition may_wake (g : system C) (k : unit * task C) : Prop :=
  match k.2 with TFiber o => ∃ f, o = Some f ∧ wakeable f g | TCb _ => True end.

(** Every waiting fiber may be woken, and waits for one event. *)
Definition waiters_ok Wt g : Prop :=
  (∀ fd w k, Wt !! (fd, w) = Some k → 0 ≤ fd ∧ may_wake g k) ∧
  (∀ k1 k2 s1 s2 f, Wt !! k1 = Some (s1, TFiber (Some f)) → Wt !! k2 = Some (s2, TFiber (Some f)) → k1 = k2).

Definition RInv r : Prop := ∃ loc Wt,
  Inv (sys r) loc ∧ IOManager.implements (iom r) Wt ∧ tm_wf (tm r) ∧ waiters_ok Wt (sys r).

Lemma waits_on_lookup r Wt f fd w : IOManager.implements (iom r) Wt →
  waits_on f fd w r ↔ 0 ≤ fd ∧ Wt !! (fd, w) = Some (tt, TFiber (Some f)).
Proof. intros [_ HW]. unfold waits_on. split; intros [Hfd Hw]; (split; [done|]); [rewrite <-HW|rewrite HW]; done. Qed.

Lemma waiters_ok_fiber Wt g f k : waiters_ok Wt g → Wt !! k = Some (tt, TFiber (Some f)) → wakeable f g.
Proof. intros [Hw _] Hk. destruct k as [fd w]. by destruct (Hw _ _ _ Hk) as [_ (f' & [= <-] & ?)]. Qed.

(** The waiters stay in order as long as their fibers may be woken. *)
Lemma waiters_ok_sub Wt Wt' g g' :
  waiters_ok Wt g → Wt' ⊆ Wt →
  (∀ f k s, Wt' !! k = Some (s, TFiber (Some f)) → wakeable f g → wakeable f g') → waiters_ok Wt' g'.
Proof.
  intros [Hw Hi] Hsub Hwk. split.
  - intros fd w [s [o|c]] Hk; destruct (Hw fd w _ (lookup_weaken _ _ _ _ Hk Hsub)) as [Hfd Hm]; split; try done.
    destruct Hm as (f & [= ->] & Hf). exists f. split; [done|]. by eapply Hwk.
  - intros k1 k2 s1 s2 f H1 H2. eapply Hi; eapply lookup_weaken; eassumption.
Qed.

Lemma drop_sub Wt fd l : drop Wt fd l ⊆ Wt.
Proof.
  apply map_subseteq_spec. intros [fd' w] x. rewrite lookup_drop. by case_decide.
Qed.

(** *** Wakeups *)

Definition fiber_of (k : unit * task C) : option Z := match k.2 with TFiber f => f | TCb _ => None end.

Lemma wake_cons k ks g : wake (k :: ks) g = wake ks (set_sch (schedule (entry k) (sch g)).1 g).
Proof. done. Qed.

Lemma wake_ok ks : ∀ g loc, Inv g loc → Forall (may_wake g) ks → NoDup (omap fiber_of ks) →
  ∃ loc', Inv (wake ks g) loc' ∧
    ∀ f, wakeable f g → f ∉ omap fiber_of ks → wakeable f (wake ks g).
Proof.
  induction ks as [|k ks IH]; intros g loc HI Hks Hnd; [exists loc; by destruct g|].
  apply Forall_cons in Hks as [Hk Hks]. rewrite wake_cons.
  assert (Hl : legal (ASchedule (entry k)) g).
  { destruct k as [u [o|c]]; [|done]. cbn in Hk. by destruct Hk as (f & -> & Hf). }
  destruct (step_schedule g loc (entry k) HI Hl) as [loc1 HI1].
  assert (Hkeep : ∀ f, wakeable f g → fiber_of k ≠ Some f → wakeable f (set_sch (schedule (entry k) (sch g)).1 g)).
  { intros f Hf Hne. apply wakeable_schedule; [done|]. by destruct k as [u [o|c]]. }
  destruct (IH _ loc1 HI1) as (loc2 & HI2 & Hw2).
  - apply Forall_forall. intros k' Hin. rewrite Forall_forall in Hks. specialize (Hks k' Hin).
    destruct k' as [u [o|c]]; [|done]. destruct Hks as (f & -> & Hf). exists f. split; [done|].
    apply Hkeep; [done|]. intros Hkf. cbn in Hnd. rewrite Hkf in Hnd. apply NoDup_cons in Hnd as [Hn _].
    apply Hn, list_elem_of_omap. by exists (u, TFiber (Some f)).
  - cbn in Hnd. destruct (fiber_of k); [by apply NoDup_cons in Hnd as [_ ?]|done].
  - exists loc2. split; [done|]. intros f Hf Hn. cbn in Hn. apply Hw2.
    + apply Hkeep; [done|]. intros Hkf. rewrite Hkf in Hn. apply Hn. by left.
    + destruct (fiber_of k); [by apply not_elem_of_cons in Hn as [_ ?]|done].
Qed.

Lemma elem_of_found Wt fd l k : k ∈ found Wt fd l ↔ ∃ w, w ∈ l ∧ Wt !! (fd, w) = Some k.
Proof. unfold found. by rewrite list_elem_of_omap. Qed.

(** The waiters an event call finds are distinct fibers. *)
Lemma found_NoDup Wt g fd l : waiters_ok Wt g → NoDup l → NoDup (omap fiber_of (found Wt fd l)).
Proof.
  intros [_ Hi] Hl. unfold found. induction Hl as [|w l Hw Hl IH]; cbn; [constructor|].
  destruct (Wt !! (fd, w)) as [k|] eqn:Hk; [|done]. cbn. destruct (fiber_of k) as [f|] eqn:Hf; [|done].
  constructor; [|done]. rewrite list_elem_of_omap. intros (k' & (w' & Hw' & Hk')%list_elem_of_omap & Hf').
  destruct k as [s [o|c]], k' as [s' [o'|c']]; try done. cbn in Hf, Hf'. subst o o'.
  assert ((fd, w) = (fd, w')) as [= <-] by (by eapply Hi). done.
Qed.

(** An event call takes them out of the map and schedules them. *)
Lemma wake_found Wt g loc fd l : Inv g loc → waiters_ok Wt g → NoDup l →
  ∃ loc', Inv (wake (found Wt fd l) g) loc' ∧ waiters_ok (drop Wt fd l) (wake (found Wt fd l) g).
Proof.
  intros HI Hw Hl. destruct (wake_ok (found Wt fd l) g loc HI) as (loc' & HI' & Hkeep).
  - apply Forall_forall. intros k (w & _ & Hk)%elem_of_found. by apply (proj1 Hw) in Hk as [_ ?].
  - by eapply found_NoDup.
  - exists loc'. split; [done|]. eapply waiters_ok_sub; [done|apply drop_sub|].
    intros f [fd' v] s Hk Hf. apply Hkeep; [done|].
    intros (k' & (w & Hwl & Hk')%elem_of_found & Hf')%list_elem_of_omap.
    destruct k' as [s' [o|c]]; [|done]. cbn in Hf'. subst o. rewrite lookup_drop in Hk. case_decide as Hd; [done|].
    assert ((fd', v) = (fd, w)) as [= -> ->] by (by eapply (proj2 Hw)). by apply Hd.
Qed.

Lemma spec_act_ok Wt g loc rt fd yes l : Inv g loc → waiters_ok Wt g → NoDup l →
  ∃ loc', Inv (wake (spec_act rt fd yes l Wt).2.2 g) loc' ∧
    waiters_ok (spec_act rt fd yes l Wt).1 (wake (spec_act rt fd yes l Wt).2.2 g).
Proof.
  intros HI Hw Hl. unfold spec_act. destruct (_ || _); [|by eapply wake_found].
  exists loc. cbn. by destruct g.
Qed.

(** *** Every step *)

Lemma step_leaves_other g loc a g' Wt :
  Inv g loc → legal a g → waiters_ok Wt g → (∀ f k s, Wt !! k = Some (s, TFiber (Some f)) → leaves f a g) →
  step a g = Ret g' → waiters_ok Wt g'.
Proof.
  intros HI Hl Hw Hf Hs. eapply waiters_ok_sub; [done|done|].
  intros f k s Hk Hwf. eapply wakeable_step; [done..|by eapply Hf|done].
Qed.

(** The calls that take waiters out, and reports. *)
Lemma event_call_safe o r m ks :
  RInv r → permitted o (iom r) → match o with IOManager.OpAdd _ _ _ _ _ _ => False | _ => True end →
  IOManager.run_op o (iom r) = Ret (m, ks) → RInv (set_iom m (set_sys (wake ks.2 (sys r)) r)).
Proof.
  intros (loc & Wt & HI & Hm & Ht & Hw) Hp Ho Hr.
  destruct (IOManager.run_op_refines (iom r) Wt o Hm (Hp Wt Hm)) as (m' & Hr' & Hm' & _).
  rewrite Hr in Hr'. injection Hr' as -> ->.
  destruct o as [| rt fd w | rt fd w | rt fd | rt fd ev]; [done|..]; cbn [IOManager.spec_op] in *.
  - unfold spec_act in *. destruct (_ || _); cbn in *.
    + exists loc, Wt. cbn. destruct (sys r). done.
    + exists loc, (delete (fd, w) Wt). cbn. split_and!; try done; [by destruct (sys r)|].
      eapply waiters_ok_sub; [done|apply delete_subseteq|]. intros. by destruct (sys r).
  - destruct (spec_act_ok Wt (sys r) loc rt fd 1 [w] HI Hw) as (loc' & ? & ?); [apply NoDup_singleton|].
    by exists loc', (spec_act rt fd 1 [w] Wt).1.
  - destruct (spec_act_ok Wt (sys r) loc rt fd 1 [CRead; CWrite] HI Hw) as (loc' & ? & ?).
    { by apply (bool_decide_unpack _). }
    by exists loc', (spec_act rt fd 1 [CRead; CWrite] Wt).1.
  - set (l := filter (λ w, fired Wt fd ev w = true) [CRead; CWrite]) in *.
    destruct (spec_act_ok Wt (sys r) loc rt fd 0 l HI Hw) as (loc' & ? & ?); [|by exists loc', (spec_act rt fd 0 l Wt).1].
    apply NoDup_filter. by apply (bool_decide_unpack _).
Qed.

(** A fiber, or a callback, is registered. *)
Lemma add_safe r t rt fd w k :
  RInv r → rlegal (RAdd t rt fd w k) r → ∃ r', rstep (RAdd t rt fd w k) r = Ret r' ∧ RInv r'.
Proof.
  intros HR [Hp Hf]. pose proof HR as (loc & Wt & HI & Hm & Ht & Hw). cbn [rstep].
  destruct (threads (sys r) !! t) as [x|] eqn:Hx; [|by exists r]. cbn.
  destruct (at_ x) as [| |kd f| | | |] eqn:Hat; try by exists r.
  destruct (Hf x kd f eq_refl Hat) as [Hkd Hk].
  destruct (inside_exec (sys r) loc t x kd f HI Hx Hat Hkd) as (Hst & _). rewrite Hst.
  rewrite bool_decide_eq_true_2 by done.
  destruct (Hp Wt Hm) as (Hfd & Htf & Hnone & _).
  destruct (IOManager.run_op_refines (iom r) Wt (IOManager.OpAdd rt (Some tt) (f, true) fd w k) Hm) as (m & Hr & Hm' & _).
  { split_and!; try done; lia. }
  cbn [IOManager.run_op] in Hr. apply bind_Ret in Hr as ([m1 res] & -> & Hr). injection Hr as -> Hres.
  eexists. split; [done|]. cbn [IOManager.spec_op] in Hm'. destruct (rt =? 0); [|by exists loc, Wt].
  exists loc, (<[(fd, w) := (tt, match k with Some c => TCb c | None => TFiber (Some f) end)]> Wt).
  split_and!; try done. destruct Hw as [Hw Hi].
  assert (Hnew : k = None → wakeable f (sys r) ∧ ∀ k2 s, Wt !! k2 ≠ Some (s, TFiber (Some f))).
  { intros Hkn. destruct (Hk Hkn) as [Hnq Hnw]. split; [by eapply running_wakeable|].
    intros [fd2 w2] [] Hk2. apply (Hnw fd2 w2), (waits_on_lookup r Wt f fd2 w2); [done|].
    split; [by destruct (Hw _ _ _ Hk2)|done]. }
  split.
  - intros fd2 w2 k2. rewrite lookup_insert_Some. intros [[[= <- <-] <-]|[_ Hk2]]; [|by eapply Hw].
    split; [lia|]. destruct k as [c|]; [done|]. exists f. split; [done|]. by apply Hnew.
  - intros k1 k2 s1 s2 f2. rewrite !lookup_insert_Some.
    intros [[<- [= <- He1]]|[_ H1]] [[<- [= <- He2]]|[_ H2]]; [done| | |by eapply Hi].
    + destruct k; [done|]. injection He1 as <-. by destruct (Hnew eq_refl) as [_ ?%(λ h, h k2 s2)].
    + destruct k; [done|]. injection He2 as <-. by destruct (Hnew eq_refl) as [_ ?%(λ h, h k1 s1)].
Qed.

Lemma RInv_idle_at t p r : RInv (idle_at t p r) ↔ RInv r.
Proof. done. Qed.

(** The expired callbacks go in the queue. *)
Lemma range_ok l : ∀ g loc b, Inv g loc → Forall (λ e : FiberAndThread C, fiber_ e = None) l →
  ∃ loc', Inv (set_sch (schedule_range l (sch g) b).1 g) loc' ∧
    ∀ f, wakeable f g → wakeable f (set_sch (schedule_range l (sch g) b).1 g).
Proof.
  induction l as [|e l IH]; intros g loc b HI Hl; [exists loc; by destruct g|].
  apply Forall_cons in Hl as [He Hl]. cbn [schedule_range].
  set (e' := mkFT (fiber_ e) (cb_ e) (-1)). assert (fiber_ e' = None) as He' by done.
  destruct (step_schedule g loc e' HI) as [loc1 HI1]; [unfold legal; by rewrite He'|].
  assert (Hkeep : ∀ f, wakeable f g → wakeable f (set_sch (schedule e' (sch g)).1 g))
    by (intros f Hf; apply wakeable_schedule; [done|by rewrite He']).
  change (scheduleNoLock e' (sch g)) with (schedule e' (sch g)).
  destruct (schedule e' (sch g)) as [s1 b1] eqn:Hs. cbn [fst] in *.
  destruct (IH (set_sch s1 g) loc1 (b1 || b) HI1 Hl) as (loc2 & HI2 & Hk2). exists loc2.
  split; [exact HI2|]. intros f Hf. by apply Hk2, Hkeep.
Qed.

Lemma timer_call_safe now o r : RInv r → 0 ≤ now → Timer.op_ok o (tm r) →
  ∃ s res, Timer.run_op now o (tm r) = Ret (s, res) ∧ RInv (set_tm s r).
Proof.
  intros (loc & Wt & HI & Hm & Ht & Hw) Hnow Ho.
  destruct (Timer.run_op_simulates now o (tm r) Ht Hnow Ho) as (s & res & Hr & Hs & _).
  exists s, res. split; [done|]. by exists loc, Wt.
Qed.

Lemma sched_safe a r : RInv r → rlegal (RSched a) r → ∃ g, step a (sys r) = Ret g ∧ RInv (set_sys g r).
Proof.
  intros (loc & Wt & HI & Hm & Ht & Hw) (Hl & Hf & _).
  destruct (step_safe a (sys r) loc HI Hl) as (g & loc' & Hs & HI'). exists g. split; [done|].
  exists loc', Wt. split_and!; try done. apply (step_leaves_other (sys r) loc a g Wt HI Hl Hw); [|done].
  intros f [fd w] [] Hk. apply (Hf f fd w), (waits_on_lookup r Wt f fd w); [done|].
  by destruct (proj1 Hw _ _ _ Hk).
Qed.

(** The idle fiber itself is nobody's waiter. *)
Lemma idle_body_safe r t x f e :
  RInv r → threads (sys r) !! t = Some x → at_ x = Inside KIdle f → e = EHold ∨ e = EFinish false →
  ∃ g, body_step t e x (sys r) = Ret g ∧ RInv (set_sys g r).
Proof.
  intros (loc & Wt & HI & Hm & Ht & Hw) Hx Hat He.
  destruct (iv_claims _ _ HI t x Hx) as (Hsh & _). unfold shape in Hsh. rewrite Hat in Hsh.
  assert (Hl : legal (ABody t e) (sys r)).
  { intros y k f' Hy Hay. rewrite Hx in Hy. injection Hy as <-. rewrite Hat in Hay. by injection Hay as <- <-. }
  destruct (step_safe (ABody t e) (sys r) loc HI Hl) as (g & loc' & Hs & HI').
  cbn [step] in Hs. rewrite Hx in Hs. exists g. split; [done|]. exists loc', Wt. split_and!; try done.
  apply (step_leaves_other (sys r) loc (ABody t e) g Wt HI Hl Hw); [|cbn [step]; by rewrite Hx].
  intros f' k [] Hk. apply (waiters_ok_fiber _ _ _ _ Hw) in Hk. apply wakeable_spec in Hk as (_ & _ & Hth).
  destruct (Hth t x Hx) as [Hid _]. intros y k' Hy Hay. rewrite Hx in Hy. injection Hy as <-.
  rewrite Hat in Hay. injection Hay as <- <-. congruence.
Qed.

Lemma idle_piece_safe r t now q events :
  RInv r → rlegal (RIdle t now q events) r → ∃ r', idle_piece t now q events r = Ret r' ∧ RInv r'.
Proof.
  intros HR Hl. unfold idle_piece. destruct (threads (sys r) !! t) as [x|] eqn:Hx; [|by exists r].
  destruct (at_ x) as [| |[]f| | | |] eqn:Hat; try by exists r. cbn [rlegal] in Hl.
  destruct (default IStart (idles r !! t)) as [|n|n|n|l|cbs l|[|e l]| |] eqn:Hp;
    try (by eexists; split; [done|]).
  - destruct (timer_call_safe now OpNext r HR Hl I) as (s & res & Hr & HR'). cbn [Timer.run_op] in Hr.
    destruct (getNextTimer now (tm r)) as [s' n]. injection Hr as -> _. eexists. split; [done|]. exact HR'.
  - destruct Hl as [Hq Hn].
    assert (∃ s cbs, listExpiredCb now q (tm r) [] = (s, cbs) ∧ RInv (set_tm s r)) as (s & cbs & -> & HR').
    { destruct HR as (loc & Wt & HI & Hm & Ht & Hw). destruct (listExpiredCb now q (tm r) []) as [s cbs] eqn:Hr.
      destruct (listExpiredCb_refines now q (tm r) [] s cbs Ht Hq Hn Hr) as (Hs & _). exists s, cbs.
      split; [done|]. by exists loc, Wt. }
    eexists. split; [done|]. exact HR'.
  - destruct HR as (loc & Wt & HI & Hm & Ht & Hw).
    destruct (range_ok ((λ c, mkFT None c (-1)) <$> cbs) (sys r) loc false HI) as (loc' & HI' & Hk).
    { apply Forall_fmap, Forall_forall. done. }
    eexists. split; [done|]. exists loc', Wt. split_and!; try done.
    eapply waiters_ok_sub; [done|done|]. intros f' k s _. apply Hk.
  - destruct (data e) as [|p]; [by eexists|].
    destruct HR as (loc & Wt & HI & Hm & Ht & Hw).
    destruct (IOManager.run_op_refines (iom r) Wt (OpEvent (ctl_rt e) (Z.of_nat p) (revents e)) Hm (Hl Wt Hm))
      as (m & Hr & _).
    pose proof Hr as Hr'. cbn [IOManager.run_op] in Hr'. rewrite Nat2Z.id in Hr'.
    apply bind_Ret in Hr' as ([m1 ks] & Hi & Hr'). injection Hr' as -> _. rewrite Hi.
    eexists. split; [done|]. apply RInv_idle_at.
    apply (event_call_safe (OpEvent (ctl_rt e) (Z.of_nat p) (revents e)) r m (0, ks)); [by exists loc, Wt|done|done|].
    cbn [IOManager.run_op]. by rewrite Nat2Z.id, Hi.
  - destruct (idle_body_safe r t x f EHold HR Hx Hat (or_introl eq_refl)) as (g & -> & HR').
    eexists. split; [done|]. exact HR'.
  - destruct (idle_body_safe r t x f (EFinish false) HR Hx Hat (or_intror eq_refl)) as (g & -> & HR').
    by eexists.
Qed.

Lemma rstep_safe a r : RInv r → rlegal a r → ∃ r', rstep a r = Ret r' ∧ RInv r'.
Proof.
  intros HR Hl. destruct a as [a|now o|t rt fd w k|o|t now q events]; cbn [rstep].
  - destruct (sched_safe a r HR Hl) as (g & -> & HR'). by eexists.
  - destruct Hl as [Hnow Ho]. destruct (timer_call_safe now o r HR Hnow Ho) as (s & res & -> & HR'). by eexists.
  - by apply add_safe.
  - destruct Hl as [Hp Ho]. pose proof HR as (loc & Wt & HI & Hm & Ht & Hw).
    destruct (IOManager.run_op_refines (iom r) Wt o Hm (Hp Wt Hm)) as (m & Hr & _). rewrite Hr.
    cbn [mbind outcome_bind]. destruct (IOManager.spec_op o Wt).2 as [res ks] eqn:E.
    eexists. split; [done|]. apply (event_call_safe o r m (res, ks) HR Hp); [by destruct o|done].
  - by apply idle_piece_safe.
Qed.

Lemma rrun_safe l : ∀ r, RInv r → rlegal_run l r → ∃ r', rsteps l r = Ret r' ∧ RInv r'.
Proof.
  induction l as [|a l IH]; intros r HR Hl; [by exists r|]. destruct Hl as [Ha Hl].
  destruct (rstep_safe a r HR Ha) as (r1 & Hs & HR1). destruct (IH r1 HR1 (Hl r1 Hs)) as (r2 & Hs2 & HR2).
  exists r2. cbn. by rewrite Hs.
Qed.

Lemma reactor_new_RInv s start fds : quiet s → RInv (reactor_new s start fds).
Proof.
  intros Hq. exists ∅, ∅. split; [by apply system_new_Inv|]. split; [|split; [apply TimerManager_new_wf|]].
  - destruct (IOManager_new_wf (S := unit) (C := C) fds) as [Hwf HW]. split; [done|]. intros fd w _.
    cbn. by rewrite HW.
  - split; [intros fd w k|intros k1 k2 s1 s2 f]; by rewrite lookup_empty.
Qed.

(** A fiber that may be woken and is in execution is so on a thread. *)
Lemma wakeable_exec g loc f : Inv g loc → wakeable f g → states g !! f = Some EXEC →
  ∃ t x, threads g !! t = Some x ∧ executing x = Some f.
Proof.
  intros HI (_ & _ & Hth)%wakeable_spec Hs. destruct (loc !! f) as [p|] eqn:Hl.
  2:{ apply (iv_dom _ _ HI) in Hl. congruence. }
  pose proof (iv_state _ _ HI f p EXEC Hl Hs) as Hp. unfold place_ok, left_, Scheduler.waiting in Hp.
  destruct p as [| |t c b]; [naive_solver..|].
  destruct (iv_owner _ _ HI f t c b Hl) as (x & Hx & Hin). destruct (Hth t x Hx) as (Hid & _).
  exists t, x. split; [done|]. apply (running_claim x f c Hin).
  destruct c; [by apply claims_idle in Hin as ->|destruct Hp as [_ [|[|]]]; done|by left|
    destruct Hp as [_ [|[|]]]; done|by right|by destruct Hp].
Qed.
End ReactorLaws.

(** C5: no fiber is lost or run twice, whatever mix of events, timers and
    wakeups drives it.  In every run that keeps the promises of the parts, with
    any number of threads and any interleaving of the pieces of their idle loops,
    no assertion fails and nothing is undefined; a fiber is executed by at most
    one thread; and a fiber that waits for an event waits for that one only, is
    not in the queue, and is suspended, or in execution on the thread where it is
    about to suspend - so that the wakeup the event manager holds for it is the
    only one, and resumes it. *)
Theorem reactor_safe {F W} (s : Scheduler (callback F W)) (start : Z) (fds : Z * Z)
    (l : list (raction F W)) :
  quiet s → rlegal_run l (reactor_new s start fds) →
  ∃ r, rsteps l (reactor_new s start fds) = Ret r ∧
    (∀ t t' x x' f, threads (sys r) !! t = Some x → threads (sys r) !! t' = Some x' →
       executing x = Some f → executing x' = Some f → t = t') ∧
    (∀ f fd w, waits_on f fd w r →
       (∀ fd' w', waits_on f fd' w' r → fd' = fd ∧ w' = w) ∧
       f ∉ qfibers (fibers_ (sch (sys r))) ∧
       (states (sys r) !! f = Some INIT ∨ states (sys r) !! f = Some HOLD ∨
        states (sys r) !! f = Some EXEC ∧ ∃ t x, threads (sys r) !! t = Some x ∧ executing x = Some f)).
Proof.
  intros Hq Hl. destruct (rrun_safe l _ (reactor_new_RInv s start fds Hq) Hl) as (r & Hr & HR).
  exists r. split; [done|]. destruct HR as (loc & Wt & HI & Hm & Ht & Hw). split.
  - intros t t' x x' f Hx Hx'. by eapply exec_unique.
  - intros f fd w [Hfd Hk]%(waits_on_lookup r Wt f fd w Hm). split; [|split].
    + intros fd' w' [Hfd' Hk']%(waits_on_lookup r Wt f fd' w' Hm).
      by assert ((fd', w') = (fd, w)) as [= -> ->] by (by eapply (proj2 Hw)).
    + by apply (waiters_ok_fiber _ _ _ _ Hw), wakeable_spec in Hk as (_ & ? & _).
    + apply (waiters_ok_fiber _ _ _ _ Hw) in Hk. pose proof Hk as (Hst & _)%wakeable_spec.
      destruct Hst as [|[|He]]; [auto..|]. right; right. split; [done|]. by eapply wakeable_exec.
Qed.

(** *** The pieces and the whole round *)
Section Pieces.
Context {F W : Type}.
Abbreviation C := (callback F W).
Implicit Types (r : reactor F W).

(** The entries the queue takes: [scheduleNoLock] drops empty ones. *)
Definition valid (l : list (FiberAndThread C)) : list (FiberAndThread C) := filter (λ e, entry_ok e = true) l.

Definition queue r : list (FiberAndThread C) := fibers_ (sch (sys r)).
Definition idling_at (t : Z) (p : ipoint F W) r : Prop :=
  (∃ x f, threads (sys r) !! t = Some x ∧ at_ x = Inside KIdle f) ∧ default IStart (idles r !! t) = p.

Lemma valid_cons e l : valid (e :: l) = (if entry_ok e then [e] else []) ++ valid l.
Proof. unfold valid. rewrite filter_cons. by destruct (entry_ok e). Qed.

Lemma wake_queue ks (g : system C) : fibers_ (sch (wake ks g)) = fibers_ (sch g) ++ valid (entry <$> ks).
Proof.
  revert g. induction ks as [|k ks IH]; intros g; [cbn; by rewrite app_nil_r|].
  rewrite wake_cons, IH. cbn [set_sch sch]. by rewrite schedule_queue, <-app_assoc, fmap_cons, valid_cons.
Qed.

Lemma range_queue (cbs : list (option C)) b : ∀ s : Scheduler C,
  fibers_ (schedule_range ((λ c, mkFT None c (-1)) <$> cbs) s b).1 =
    fibers_ s ++ valid ((λ c, mkFT None c (-1)) <$> cbs).
Proof.
  revert b. induction cbs as [|c cbs IH]; intros b s; [cbn; by rewrite app_nil_r|].
  rewrite fmap_cons, valid_cons, (assoc_L (++)). cbn [schedule_range fiber_ cb_].
  change (scheduleNoLock (mkFT None c (-1)) s) with (schedule (mkFT None c (-1)) s).
  rewrite <-schedule_queue. destruct (schedule (mkFT None c (-1)) s) as [s' b']. apply IH.
Qed.

Lemma rsteps_app l1 l2 r : rsteps (l1 ++ l2) r = rsteps l1 r ≫= rsteps l2.
Proof.
  revert r. induction l1 as [|a l1 IH]; intros r; cbn; [done|]. destruct (rstep a r); cbn; [apply IH|done..].
Qed.

Lemma idle_piece_at t now q events p r : idling_at t p r →
  ∃ x, threads (sys r) !! t = Some x ∧
  rstep (RIdle t now q events) r =
  match p with
  | IStart =>
      let '(s, timeout) := getNextTimer now (tm r) in
      Ret (idle_at t (if timeout =? u64_max then IPending timeout else IWait timeout) (set_tm s r))
  | IPending timeout =>
      Ret (idle_at t (if pendingEventCount_ (iom r) =? 0 then IAsk timeout else IWait timeout) r)
  | IAsk timeout =>
      Ret (idle_at t (if Scheduler.stopping (sch (sys r)) then IReturn else IWait timeout) r)
  | IWait timeout => Ret (idle_at t (IExpire events) r)
  | IExpire l =>
      let '(s, cbs) := listExpiredCb now q (tm r) [] in
      Ret (idle_at t (if bool_decide (cbs = []) then IReports l else ISchedule cbs l) (set_tm s r))
  | ISchedule cbs l =>
      let s := (schedule_range ((λ c, mkFT None c (-1)) <$> cbs) (sch (sys r)) false).1 in
      Ret (idle_at t (IReports l) (set_sys (set_sch s (sys r)) r))
  | IReports [] => Ret (idle_at t ISwap r)
  | IReports (e :: l) =>
      match data e with
      | TicklePipe => Ret (idle_at t (IReports l) r)
      | Context_ p =>
          '(m, ks) ← idle_event (ctl_rt e) p (revents e) (iom r);
          Ret (idle_at t (IReports l) (set_iom m (set_sys (wake ks (sys r)) r)))
      end
  | ISwap => g ← body_step t EHold x (sys r); Ret (idle_at t IStart (set_sys g r))
  | IReturn => g ← body_step t (EFinish false) x (sys r); Ret (set_sys g r)
  end.
Proof. intros [(x & f & Hx & Hat) Hp]. exists x. split; [done|]. cbn [rstep]. unfold idle_piece. by rewrite Hx, Hat, Hp. Qed.

Lemma idling_idle_at t p p' r : idling_at t p r → idling_at t p' (idle_at t p' r).
Proof. intros [Hx _]. split; [done|]. cbn. by rewrite lookup_insert_eq. Qed.

Lemma idling_step t p p' r r' : idling_at t p r → threads (sys r') = threads (sys r) → idling_at t p' (idle_at t p' r').
Proof.
  intros [(x & f & Hx & Hat) _] Ht. split; [exists x, f; cbn; by rewrite Ht|]. cbn. by rewrite lookup_insert_eq.
Qed.

(** Pieces of one thread's idle loop with nothing in between. *)
Definition alone (n : nat) (t now q : Z) (events : list report) : list (raction F W) :=
  replicate n (RIdle t now q events).

Lemma dispatch_pieces t now q events l : ∀ r m ks,
  idling_at t (IReports l) r → dispatch l (iom r) = Ret (m, ks) →
  ∃ r', rsteps (alone (S (length l)) t now q events) r = Ret r' ∧
    idling_at t ISwap r' ∧ iom r' = m ∧ tm r' = tm r ∧ queue r' = queue r ++ valid (entry <$> ks).
Proof.
  induction l as [|e l IH]; intros r m ks Hr Hd.
  - destruct (idle_piece_at t now q events _ r Hr) as (x & _ & Hs). injection Hd as <- <-.
    exists (idle_at t ISwap r). cbn [alone replicate length rsteps]. rewrite Hs. cbn. rewrite app_nil_r.
    split; [done|]. split; [by eapply idling_step|done].
  - destruct (idle_piece_at t now q events _ r Hr) as (x & _ & Hs).
    change (alone (S (length (e :: l))) t now q events) with (RIdle t now q events :: alone (S (length l)) t now q events).
    cbn [rsteps dispatch] in Hd |- *. rewrite Hs. destruct (data e) as [|p].
    + cbn [mbind outcome_bind]. destruct (IH (idle_at t (IReports l) r) m ks) as (r' & Hr' & ?); [by eapply idling_step|done|].
      by exists r'.
    + apply bind_Ret in Hd as ([m1 k1] & -> & Hd). apply bind_Ret in Hd as ([m2 k2] & Hd & He). injection He as -> <-.
      cbn [mbind outcome_bind].
      destruct (IH (idle_at t (IReports l) (set_iom m1 (set_sys (wake k1 (sys r)) r))) m k2)
        as (r' & Hr' & H1 & H2 & H3 & H4); [by eapply idling_step|done|].
      exists r'. split; [done|]. split_and!; try done. rewrite H4. unfold queue. cbn [idle_at set_iom set_sys sys].
      rewrite wake_queue, <-app_assoc, fmap_app. unfold valid. by rewrite filter_app.
Qed.

(** From [epoll_wait]'s return to [swapOut]. *)
Lemma round_pieces t now q events timeout r m ks s cbs :
  idling_at t (IWait timeout) r → listExpiredCb now q (tm r) [] = (s, cbs) → dispatch events (iom r) = Ret (m, ks) →
  ∃ n r', rsteps (alone n t now q events) r = Ret r' ∧ idling_at t ISwap r' ∧ tm r' = s ∧ iom r' = m ∧
    queue r' = queue r ++ valid ((λ c, mkFT None c (-1)) <$> cbs) ++ valid (entry <$> ks).
Proof.
  intros Hr Hx Hd. destruct (idle_piece_at t now q events _ r Hr) as (_ & _ & H1).
  set (r1 := idle_at t (IExpire events) r) in *. assert (Hr1 : idling_at t (IExpire events) r1) by by eapply idling_step.
  destruct (idle_piece_at t now q events _ r1 Hr1) as (_ & _ & H2).
  change (tm r1) with (tm r) in H2. rewrite Hx in H2.
  set (p := if bool_decide (cbs = []) then IReports events else ISchedule cbs events) in *.
  set (r2 := idle_at t p (set_tm s r1)) in *. assert (Hr2 : idling_at t p r2) by by eapply idling_step.
  assert (∃ n r3, rsteps (alone n t now q events) r2 = Ret r3 ∧ idling_at t (IReports events) r3 ∧ tm r3 = s ∧
    iom r3 = iom r ∧ queue r3 = queue r ++ valid ((λ c, mkFT None c (-1)) <$> cbs)) as (n & r3 & H3 & Hr3 & <- & Hm & Hq).
  { subst p. case_bool_decide as Hc.
    - exists 0%nat, r2. subst cbs. cbn. rewrite app_nil_r. done.
    - destruct (idle_piece_at t now q events _ r2 Hr2) as (_ & _ & H3). eexists 1%nat, _. cbn [alone replicate rsteps].
      rewrite H3. split; [done|]. split; [by eapply idling_step|]. split; [done|]. split; [done|]. apply range_queue. }
  rewrite <-Hm in Hd. destruct (dispatch_pieces t now q events events r3 m ks Hr3 Hd) as (r4 & H4 & Hr4 & ? & ? & Hq4).
  exists (2 + (n + S (length events)))%nat, r4. unfold alone in *. split.
  - cbn [replicate Nat.add rsteps]. rewrite H1. cbn [mbind outcome_bind]. rewrite H2. cbn [mbind outcome_bind].
    by rewrite replicate_add, rsteps_app, H3.
  - split_and!; try done. by rewrite Hq4, Hq, <-app_assoc.
Qed.
End Pieces.

(** C34: the pieces of the idle loop, when nothing comes between them, are the
    whole turn of [IOManager.idle_round]: they leave the same timers and the same
    event contexts and put the same callbacks and fibers in the queue, the
    expired timers' first; and they lead out of the loop exactly when the turn
    does. *)
Theorem idle_pieces_round {F W} (t now1 now2 q : Z) (events : list report) (r : reactor F W) :
  idling_at t IStart r →
  match idle_round now1 now2 q (Scheduler.stopping (sch (sys r))) events (tm r) (iom r) with
  | Ret None => ∃ n r', rsteps (RIdle t now1 q events :: alone n t now2 q events) r = Ret r' ∧ idling_at t IReturn r'
  | Ret (Some (s, m, _, (cbs, ks))) =>
      ∃ n r', rsteps (RIdle t now1 q events :: alone n t now2 q events) r = Ret r' ∧ idling_at t ISwap r' ∧
        tm r' = s ∧ iom r' = m ∧
        queue r' = queue r ++ valid ((λ c, mkFT None c (-1)) <$> cbs) ++ valid (entry <$> ks)
  | _ => True
  end.
Proof.
  intros Hr. destruct (idle_piece_at t now1 q events _ r Hr) as (_ & _ & H1). unfold idle_round. cbn [rsteps]. rewrite H1.
  destruct (getNextTimer now1 (tm r)) as [s1 timeout]. cbn [mbind outcome_bind]. unfold IOManager.stopping.
  set (p1 := if timeout =? u64_max then IPending timeout else IWait timeout).
  set (r1 := idle_at t p1 (set_tm s1 r)). assert (Hr1 : idling_at t p1 r1) by by eapply idling_step.
  (* up to the wait *)
  assert (∃ n r2 p2, rsteps (alone n t now2 q events) r1 = Ret r2 ∧ idling_at t p2 r2 ∧
    tm r2 = s1 ∧ iom r2 = iom r ∧ queue r2 = queue r ∧
    p2 = (if (timeout =? u64_max) && (pendingEventCount_ (iom r) =? 0) && Scheduler.stopping (sch (sys r))
          then IReturn else IWait timeout)) as (n & r2 & p2 & H2 & Hr2 & Ht & Hm & Hq & Hp2).
  { unfold p1 in *. destruct (timeout =? u64_max); [|by exists 0%nat, r1, (IWait timeout)].
    destruct (idle_piece_at t now2 q events _ r1 Hr1) as (_ & _ & H2). change (iom r1) with (iom r) in H2.
    set (p2 := if pendingEventCount_ (iom r) =? 0 then IAsk timeout else IWait timeout) in *.
    set (r2 := idle_at t p2 r1) in *. assert (Hr2 : idling_at t p2 r2) by by eapply idling_step.
    unfold p2 in *. destruct (pendingEventCount_ (iom r) =? 0).
    - destruct (idle_piece_at t now2 q events _ r2 Hr2) as (_ & _ & H3). change (sys r2) with (sys r) in H3.
      eexists 2%nat, _, _. cbn [alone replicate rsteps]. rewrite H2. cbn [mbind outcome_bind]. rewrite H3.
      split; [done|]. split; [by eapply idling_step|]. done.
    - exists 1%nat, r2, (IWait timeout). cbn [alone replicate rsteps]. by rewrite H2. }
  destruct (_ && _ && _).
  - subst p2. by exists n, r2.
  - destruct (listExpiredCb now2 q s1 []) as [s cbs] eqn:Hx. rewrite <-Hm.
    destruct (dispatch events (iom r2)) as [[m ks]| | |] eqn:Hd; try done. cbn [mbind outcome_bind]. subst p2.
    rewrite <-Ht in Hx. destruct (round_pieces t now2 q events timeout r2 m ks s cbs Hr2 Hx Hd) as (n' & r' & H' & ? & ? & ? & Hq').
    exists (n + n')%nat, r'. unfold alone in *. rewrite replicate_add, rsteps_app, H2. split; [done|].
    split_and!; try done. by rewrite Hq', Hq.
Qed.


(** C9: a report wakes who waits for it.  In any run that keeps the promises,
    when the idle loop of a thread comes to a report of the kernel about a
    descriptor and [epoll_ctl] succeeds, a fiber that waits for an event which the
    report names - an error or a hang-up names all of them - is put in the queue,
    and it waits for nothing any more. *)
Theorem report_wakes {F W} (s : Scheduler (callback F W)) (start : Z) (fds : Z * Z) (l : list (raction F W))
    (r : reactor F W) (t now q : Z) (events rest : list report) (e : report) (p : nat) (f : Z) (w : which) :
  quiet s → rlegal_run l (reactor_new s start fds) → rsteps l (reactor_new s start fds) = Ret r →
  idling_at t (IReports (e :: rest)) r → data e = Context_ p → ctl_rt e = 0 →
  rlegal (RIdle t now q events) r → waits_on f (Z.of_nat p) w r → fires (revents e) w true = true →
  ∃ r', rstep (RIdle t now q events) r = Ret r' ∧ idling_at t (IReports rest) r' ∧
    f ∈ qfibers (queue r') ∧ ∀ fd' w', ¬ waits_on f fd' w' r'.
Proof.
  intros Hq Hl Hs Hr Hd Hrt Hleg Hf Hfires.
  destruct (rrun_safe l _ (reactor_new_RInv s start fds Hq) Hl) as (r2 & Hr2 & loc & Wt & HI & Hm & Ht & Hw).
  rewrite Hs in Hr2. injection Hr2 as <-.
  destruct (idle_piece_at t now q events _ r Hr) as (x & _ & H1). rewrite H1, Hd.
  cbn [rlegal] in Hleg. rewrite (proj2 Hr), Hd in Hleg.
  destruct (IOManager.run_op_refines (iom r) Wt _ Hm (Hleg Wt Hm)) as (m & Hrun & Hm' & _).
  cbn [IOManager.run_op IOManager.spec_op] in Hrun, Hm'. rewrite Nat2Z.id in Hrun.
  apply bind_Ret in Hrun as ([m1 ks] & -> & Hrun). injection Hrun as -> Hks.
  apply (waits_on_lookup r Wt f _ w Hm) in Hf as [Hfd Hf].
  set (sel := filter (λ w, fired Wt (Z.of_nat p) (revents e) w = true) [CRead; CWrite]) in *.
  assert (Hw' : w ∈ sel).
  { apply list_elem_of_filter. unfold fired, waits. rewrite Hf. split; [done|]. by destruct w; [left|right; left]. }
  assert (Hin : (tt, TFiber (Some f)) ∈ found Wt (Z.of_nat p) sel) by (apply elem_of_found; eauto).
  unfold spec_act in Hks, Hm'. rewrite Hrt in Hks, Hm'. cbn [Z.eqb negb orb] in Hks, Hm'.
  rewrite bool_decide_eq_false_2 in Hks, Hm' by (intros Hnil; rewrite Hnil in Hin; by apply elem_of_nil in Hin).
  cbn [snd fst] in Hks, Hm'. injection Hks as ->. eexists. split; [done|]. split; [by eapply idling_step|]. split.
  - unfold queue. cbn [idle_at set_iom set_sys sys]. rewrite wake_queue. apply qfibers_elem.
    exists (mkFT (Some f) None (-1)). split; [|done]. apply elem_of_app. right. apply list_elem_of_filter.
    split; [done|]. apply list_elem_of_fmap. by exists (tt, TFiber (Some f)).
  - intros fd' w2 Hf2. apply (waits_on_lookup _ (drop Wt (Z.of_nat p) sel)) in Hf2 as [_ Hf2]; [|done].
    rewrite lookup_drop in Hf2. case_decide as Hdr; [done|].
    assert ((fd', w2) = (Z.of_nat p, w)) as [= -> ->] by (by eapply (proj2 Hw)). by apply Hdr.
Qed.

(** *** A run with a wakeup *)

Lemma rlegal_run_cons {F W} (a : raction F W) l r r' :
  rstep a r = Ret r' → rlegal a r → rlegal_run l r' → rlegal_run (a :: l) r.
Proof. intros Hs Ha Hl. split; [done|]. intros r2 Hr2. congruence. Qed.

Lemma permitted_add {F W} rt fd w (k : option (callback F W)) (m : IOManager unit (callback F W)) :
  0 ≤ fd < 2 ^ 30 → fd ≠ (tickleFds_ m).1 → waiter m fd w = None →
  permitted (IOManager.OpAdd rt (Some tt) (0, true) fd w k) m.
Proof. intros Hfd Ht Hw Wt [_ HW]. split_and!; try done; try lia. rewrite <-HW; [done|lia]. Qed.

Lemma permitted_report {F W} rt fd ev (m : IOManager unit (callback F W)) :
  0 ≤ fd < isize m → fd ≠ (tickleFds_ m).1 →
  (∀ w, fires ev w (negb (null (waiter m fd w))) = true → waiter m fd w ≠ None) →
  permitted (OpEvent rt fd ev) m.
Proof.
  intros Hfd Ht Hw Wt [_ HW]. split_and!; [lia|done|left; lia|right]. intros w. unfold fired, waits.
  rewrite <-HW by lia. intros Hf%Hw. by destruct (waiter m fd w).
Qed.

Lemma no_waiter {F W} (m : IOManager unit (callback F W)) fd w :
  Forall (λ c, waiter_of (read c) = None ∧ waiter_of (write c) = None) (ctxs_ m) → waiter m fd w = None.
Proof.
  intros Hm. unfold waiter. case_step; [done|]. destruct (ctxs_ m !! Z.to_nat fd) as [c|] eqn:Hc; [|done].
  rewrite Forall_lookup in Hm. destruct (Hm _ _ Hc). by destruct w.
Qed.

Definition reactor0 : reactor nat nat := reactor_new (mkS [] None [] 1 0 0 false false (-1)) 0 (3, 4).
Definition report0 : list report := [mkReport TicklePipe 1 0; mkReport (Context_ 5) 1 0].
Definition run1 : list (raction nat nat) :=
  [RSched (AThread 1 11); RSched (ACreate 9); RSched (ASchedule (mkFT (Some 9) None (-1)));
   RSched (ARun 1 50); RSched (ARun 1 50); RAdd 1 0 5 CRead None; RSched (ABody 1 EHold)] ++
  replicate 4 (RSched (ARun 1 50)) ++
  [RTimer 100 (Timer.OpAdd 8 20 (Fun 7%nat) false)] ++ replicate 8 (RIdle 1 130 16 report0) ++
  replicate 4 (RSched (ARun 1 50)) ++ [RSched (ABody 1 (EFinish false))] ++ replicate 5 (RSched (ARun 1 51)).

Ltac rlegal_step :=
  eapply rlegal_run_cons; [vm_compute; reflexivity| |].
Ltac quiet_step := rlegal_step; [split; [decide_legal|done]|].

Lemma run1_legal : rlegal_run run1 reactor0.
Proof.
  unfold run1. cbn [app replicate]. do 2 quiet_step.
  rlegal_step; [split; [decide_legal|split; [|done]]|].
  { intros f fd w [_ Hw]. rewrite no_waiter in Hw; [done|]. by repeat constructor. }
  do 2 quiet_step.
  rlegal_step; [split|].
  { by apply permitted_add. }
  { intros x kd f Hx Hat. vm_compute in Hx. injection Hx as <-. injection Hat as <- <-.
    split; [done|]. intros _. split; [apply not_elem_of_nil|].
    intros fd w [_ Hw]. rewrite no_waiter in Hw; [done|]. by repeat constructor. }
  rlegal_step; [split; [|split; [by intros|]]|].
  { intros x k f Hx Hat. vm_compute in Hx. injection Hx as <-. injection Hat as <- <-. by left. }
  { intros x f Hx Hat. vm_compute in Hx. injection Hx as <-. done. }
  do 4 quiet_step.
  rlegal_step; [split; [done|by apply (bool_decide_unpack _)]|].
  do 2 (rlegal_step; [done|]). rlegal_step; [by split|]. do 2 (rlegal_step; [done|]).
  rlegal_step.
  { apply permitted_report; [done|done|]. by intros []. }
  do 2 (rlegal_step; [done|]). do 4 quiet_step.
  rlegal_step; [split; [|split]|].
  { intros x k f Hx Hat. vm_compute in Hx. injection Hx as <-. injection Hat as <- <-. right.
    apply (bool_decide_unpack _). vm_compute. exact I. }
  { intros f fd w [_ Hw]. rewrite no_waiter in Hw; [done|]. by repeat constructor. }
  { intros x f Hx Hat. vm_compute in Hx. injection Hx as <-. done. }
  do 5 quiet_step. exact I.
Qed.

(** In the end the fiber that waited runs again, and the timer's callback is
    next. *)
Example run1_wakes : ∃ r, rsteps run1 reactor0 = Ret r ∧
  at_ <$> threads (sys r) !! 1 = Some (Inside KFiber 9) ∧ waiter (iom r) 5 CRead = None.
Proof. eexists. split; [vm_compute; reflexivity|]. by vm_compute. Qed.

Lemma rlegal_run_take {F W} n (l : list (raction F W)) : ∀ r, rlegal_run l r → rlegal_run (take n l) r.
Proof.
  revert n. induction l as [|a l IH]; intros [|n] r Hl; try done. destruct Hl as [Ha Hl].
  split; [done|]. intros r' Hr'. by apply IH, Hl.
Qed.

(** After [n] actions of the run. *)
Definition run1_at (n : nat) : reactor nat nat :=
  match rsteps (take n run1) reactor0 with Ret r => r | _ => reactor0 end.

Lemma idle_pieces_round_witness :
  idling_at 1 IStart (run1_at 12) ∧
  ∃ n r', rsteps (RIdle 1 130 16 report0 :: alone n 1 130 16 report0) (run1_at 12) = Ret r' ∧ idling_at 1 ISwap r' ∧
    queue r' = [mkFT None (Some (Fun 7%nat)) (-1); mkFT (Some 9) None (-1)].
Proof.
  assert (H : idling_at 1 IStart (run1_at 12)).
  { split; [|vm_compute; reflexivity]. eexists _, 11. split; vm_compute; reflexivity. }
  split; [exact H|]. pose proof (idle_pieces_round 1 130 130 16 report0 (run1_at 12) H) as Hr.
  destruct (idle_round 130 130 16 (Scheduler.stopping (sch (sys (run1_at 12)))) report0 (tm (run1_at 12)) (iom (run1_at 12)))
    as [[[[[s m] wait] [cbs ks]]|]| | |] eqn:E; vm_compute in E; try discriminate E.
  destruct Hr as (n & r' & Hr & Hi & _ & _ & Hq). exists n, r'. split; [exact Hr|]. split; [exact Hi|].
  rewrite Hq. injection E as _ _ _ <- <-. vm_compute. reflexivity.
Defined.

Lemma report_wakes_witness :
  waits_on 9 5 CRead (run1_at 17) ∧
  ∃ r', rstep (RIdle 1 130 16 report0) (run1_at 17) = Ret r' ∧ idling_at 1 (IReports []) r' ∧
    9 ∈ qfibers (queue r') ∧ ∀ fd' w', ¬ waits_on 9 fd' w' r'.
Proof.
  assert (H : waits_on 9 5 CRead (run1_at 17)) by (split; [done|vm_compute; reflexivity]).
  split; [exact H|].
  apply (report_wakes (mkS [] None [] 1 0 0 false false (-1)) 0 (3, 4) (take 17 run1) (run1_at 17)
    1 130 16 report0 [] (mkReport (Context_ 5) 1 0) 5 9 CRead).
  - done.
  - apply rlegal_run_take, run1_legal.
  - vm_compute. reflexivity.
  - split; [|vm_compute; reflexivity]. eexists _, 11. split; vm_compute; reflexivity.
  - reflexivity.
  - reflexivity.
  - assert (default IStart (idles (run1_at 17) !! 1) = IReports [mkReport (Context_ 5) 1 0]) as E
      by (vm_compute; reflexivity).
    cbn [rlegal]. rewrite E. cbn [data ctl_rt revents]. clear E H.
    apply permitted_report; [by vm_compute|by vm_compute|]. intros []; vm_compute; done.
  - change (Z.of_nat 5) with 5. exact H.
  - reflexivity.
Defined.

Lemma reactor_safe_witness :
  rlegal_run run1 reactor0 ∧
  ∃ r, rsteps run1 reactor0 = Ret r ∧
    (∀ t t' x x' f, threads (sys r) !! t = Some x → threads (sys r) !! t' = Some x' →
       executing x = Some f → executing x' = Some f → t = t') ∧
    (∀ f fd w, waits_on f fd w r →
       (∀ fd' w', waits_on f fd' w' r → fd' = fd ∧ w' = w) ∧
       f ∉ qfibers (fibers_ (sch (sys r))) ∧
       (states (sys r) !! f = Some INIT ∨ states (sys r) !! f = Some HOLD ∨
        states (sys r) !! f = Some EXEC ∧ ∃ t x, threads (sys r) !! t = Some x ∧ executing x = Some f)).
Proof.
  split; [exact run1_legal|].
  apply (reactor_safe (mkS [] None [] 1 0 0 false false (-1)) 0 (3, 4) run1); [done|exact run1_legal].
Defined.
