(* ===== verification/ByteOrder.v ===== *)
(** * Byte order: byte_sequence.h

    [byteswap] at the three sizes it is defined for, on a little-endian
    machine. *)
From S2P Require Import Prelude.

(** The [n] low bytes of [x] in reverse order: [bswap_16], [bswap_32] and
    [bswap_64] of the C library. *)
Fixpoint bswap (n : nat) (x : Z) : Z :=
  match n with
  | O => 0
  | S n' => Z.lor (Z.shiftl (Z.land x 255) (8 * Z.of_nat n')) (bswap n' (Z.shiftr x 8))
  end.

Definition byteswap64 (value : Z) : Z := bswap 8 (u64 value).
Definition byteswap32 (value : Z) : Z := bswap 4 (u32 value).
Definition byteswap16 (value : Z) : Z := bswap 2 (u16 value).

(** [byteswapOnLittleEndian] and [byteswapOnBigEndian] of a 16-bit and of a
    32-bit value, [SYLAR_BYTE_ORDER] being [SYLAR_LITTLE_ENDIAN]. *)
Definition byteswapOnLittleEndian16 (t : Z) : Z := byteswap16 t.
Definition byteswapOnLittleEndian32 (t : Z) : Z := byteswap32 t.
Definition byteswapOnBigEndian (t : Z) : Z := t.

(** ** Laws *)

Lemma testbit_255 i : 0 ≤ i → Z.testbit 255 i = bool_decide (i < 8).
Proof.
  intros Hi. change 255 with (Z.ones 8). case_bool_decide.
  - apply Z.ones_spec_low. lia.
  - apply Z.ones_spec_high. lia.
Qed.

Lemma bswap_testbit n : ∀ x j, 0 ≤ j →
  Z.testbit (bswap n x) j =
    if bool_decide (j < 8 * Z.of_nat n) then Z.testbit x (8 * (Z.of_nat n - 1 - j / 8) + j mod 8) else false.
Proof.
  induction n as [|n IH]; intros x j Hj; cbn [bswap].
  { rewrite bool_decide_false by lia. apply Z.testbit_0_l. }
  rewrite Z.lor_spec, Z.shiftl_spec, IH by done.
  destruct (Z.lt_ge_cases j (8 * Z.of_nat n)) as [Hlt|Hge].
  - rewrite Z.testbit_neg_r by lia. cbn [orb]. rewrite !bool_decide_true by lia.
    rewrite Z.shiftr_spec by (Z.div_mod_to_equations; lia). f_equal. lia.
  - rewrite (bool_decide_false (j < 8 * Z.of_nat n)) by lia. rewrite orb_false_r.
    rewrite Z.land_spec, testbit_255 by lia.
    destruct (Z.lt_ge_cases j (8 * Z.of_nat (S n))) as [Hlt'|Hge'].
    + rewrite !bool_decide_true by lia. rewrite andb_true_r. f_equal. Z.div_mod_to_equations; lia.
    + rewrite !bool_decide_false by lia. apply andb_false_r.
Qed.

Lemma bits_range (x w : Z) : 0 ≤ w → 0 ≤ x → (∀ j, w ≤ j → Z.testbit x j = false) → x < 2 ^ w.
Proof.
  intros Hw Hx Hbits. destruct (Z.eq_dec x 0) as [->|]; [lia|].
  apply Z.log2_lt_pow2; [lia|]. destruct (Z.lt_ge_cases (Z.log2 x) w); [done|].
  pose proof (Z.bit_log2 x ltac:(lia)). rewrite Hbits in *; done.
Qed.

Lemma bswap_nonneg n x : 0 ≤ bswap n x.
Proof.
  revert x. induction n as [|n IH]; intros x; cbn [bswap]; [done|].
  apply Z.lor_nonneg. split; [|apply IH]. apply Z.shiftl_nonneg, Z.land_nonneg. lia.
Qed.

Lemma bswap_range n x : 0 ≤ bswap n x < 2 ^ (8 * Z.of_nat n).
Proof.
  split; [apply bswap_nonneg|]. apply bits_range; [lia|apply bswap_nonneg|].
  intros j Hj. rewrite bswap_testbit, bool_decide_false by lia. done.
Qed.

(** The bits above the width are clear. *)
Lemma testbit_high x w j : 0 ≤ x < 2 ^ w → 0 ≤ w → w ≤ j → Z.testbit x j = false.
Proof.
  intros Hx Hw Hj. destruct (Z.eq_dec x 0) as [->|]; [apply Z.testbit_0_l|].
  apply Z.bits_above_log2; [lia|]. assert (Z.log2 x < w) by (apply Z.log2_lt_pow2; lia). lia.
Qed.

Lemma bswap_involutive n x : 0 ≤ x < 2 ^ (8 * Z.of_nat n) → bswap n (bswap n x) = x.
Proof.
  intros Hx. apply Z.bits_inj'. intros j Hj. rewrite bswap_testbit by done. case_bool_decide.
  - rewrite bswap_testbit by (Z.div_mod_to_equations; lia).
    rewrite bool_decide_true by (Z.div_mod_to_equations; lia). f_equal. Z.div_mod_to_equations; lia.
  - symmetry. apply (testbit_high x (8 * Z.of_nat n)); [done|lia|lia].
Qed.

Lemma bswap_lor n x y : bswap n (Z.lor x y) = Z.lor (bswap n x) (bswap n y).
Proof.
  apply Z.bits_inj'. intros j Hj. rewrite Z.lor_spec, !bswap_testbit by done.
  case_bool_decide; [by rewrite Z.lor_spec|done].
Qed.
Lemma bswap_land n x y : bswap n (Z.land x y) = Z.land (bswap n x) (bswap n y).
Proof.
  apply Z.bits_inj'. intros j Hj. rewrite Z.land_spec, !bswap_testbit by done.
  case_bool_decide; [by rewrite Z.land_spec|done].
Qed.

(** Setting, and clearing all but, the [s] low bits. *)
Lemma lor_ones x s : 0 ≤ s → Z.lor x (2 ^ s - 1) = x / 2 ^ s * 2 ^ s + (2 ^ s - 1).
Proof.
  intros Hs. replace (2 ^ s - 1) with (Z.ones s) by (rewrite Z.ones_equiv; lia).
  rewrite <-Z.shiftr_div_pow2, <-Z.shiftl_mul_pow2 by done.
  rewrite Z.add_nocarry_lxor, Z.lxor_lor.
  - apply Z.bits_inj'. intros j Hj. rewrite !Z.lor_spec, Z.shiftl_spec by done.
    destruct (Z.lt_ge_cases j s).
    + rewrite Z.ones_spec_low by lia. by rewrite !orb_true_r.
    + rewrite Z.ones_spec_high, Z.shiftr_spec by lia. do 2 f_equal. lia.
  - apply Z.bits_inj'. intros j Hj. rewrite Z.land_spec, Z.shiftl_spec, Z.bits_0 by done.
    destruct (Z.lt_ge_cases j s); [by rewrite Z.testbit_neg_r by lia|].
    by rewrite Z.ones_spec_high, andb_false_r by lia.
  - apply Z.bits_inj'. intros j Hj. rewrite Z.land_spec, Z.shiftl_spec, Z.bits_0 by done.
    destruct (Z.lt_ge_cases j s); [by rewrite Z.testbit_neg_r by lia|].
    by rewrite Z.ones_spec_high, andb_false_r by lia.
Qed.

Lemma land_ones_mod x s : 0 ≤ s → Z.land x (2 ^ s - 1) = x mod 2 ^ s.
Proof.
  intros Hs. replace (2 ^ s - 1) with (Z.ones s) by (rewrite Z.ones_equiv; lia). by apply Z.land_ones.
Qed.

(** Network order and back is the identity at every size. *)
Lemma byteswap_involutive (x : Z) :
  (0 ≤ x < 2 ^ 64 → byteswap64 (byteswap64 x) = x) ∧
  (0 ≤ x < 2 ^ 32 → byteswap32 (byteswap32 x) = x) ∧
  (0 ≤ x < 2 ^ 16 → byteswap16 (byteswap16 x) = x).
Proof.
  unfold byteswap64, byteswap32, byteswap16, u64, u32, u16.
  split_and!; intros Hx; rewrite (Z.mod_small x) by done;
    rewrite Z.mod_small by apply bswap_range; by apply bswap_involutive.
Qed.
