(* ===== verification/Address.v ===== *)
(** * Network addresses: address.h, address.cpp

    A socket address is the fields of its C structure in memory order; numbers
    in network order are kept as the raw (byte-swapped) value the field holds.
    [getaddrinfo], [inet_pton] and [getifaddrs] are arguments. *)
From S2P Require Import Prelude StringUtil JsonUtil ByteOrder.

Definition AF_UNSPEC : Z := 0.
Definition AF_UNIX : Z := 1.
Definition AF_INET : Z := 2.
Definition AF_INET6 : Z := 10.

(** ** Masks *)

(** [CreateMask<T>(bits)] for a [T] of [size] bytes: the shift is of an [int],
    by an amount computed in [size_t]. *)
Definition CreateMask (size bits : Z) : outcome Z :=
  let amount := u64 (size * 8 - bits) in
  if 31 <=? amount then Undefined
  else Ret ((Z.shiftl 1 amount - 1) mod 2 ^ (size * 8)).

(** [CountBytes<T>]; a [T] has at most 32 bits here. *)
Fixpoint CountBytes_loop (fuel : nat) (value result : Z) : Z :=
  match fuel with
  | O => result
  | S fuel' => if value =? 0 then result else CountBytes_loop fuel' (Z.land value (value - 1)) (result + 1)
  end.
Definition CountBytes (value : Z) : Z := CountBytes_loop 33 value 0.

(** ** Data *)

Record sockaddr_in : Type := mkIn {
  sin_family : Z; sin_port : Z; s_addr : Z; sin_zero : list Z }.
Record sockaddr_in6 : Type := mkIn6 {
  sin6_family : Z; sin6_port : Z; sin6_flowinfo : Z; s6_addr : list Z; sin6_scope_id : Z }.
Record sockaddr_un : Type := mkUn { sun_family : Z; sun_path : list Z }.
Record sockaddr : Type := mkSa { sa_family : Z; sa_data : list Z }.

(** The classes derived from [Address]. *)
Inductive Address : Type :=
  | IPv4Address (addr_ : sockaddr_in)
  | IPv6Address (addr_ : sockaddr_in6)
  | UnixAddress (addr_ : sockaddr_un) (length_ : Z)
  | UnknownAddress (addr_ : sockaddr).

Fixpoint le_bytes (n : nat) (z : Z) : list Z :=
  match n with O => [] | S n' => z mod 256 :: le_bytes n' (z / 256) end.
Definition zero_bytes (n : nat) : list Z := replicate n 0.

(** The bytes [getAddr()] points to, and [getAddrLen()]. *)
Definition getAddr (a : Address) : list Z :=
  match a with
  | IPv4Address i => le_bytes 2 (sin_family i) ++ le_bytes 2 (sin_port i) ++ le_bytes 4 (s_addr i) ++ sin_zero i
  | IPv6Address i => le_bytes 2 (sin6_family i) ++ le_bytes 2 (sin6_port i) ++
                     le_bytes 4 (sin6_flowinfo i) ++ s6_addr i ++ le_bytes 4 (sin6_scope_id i)
  | UnixAddress u _ => le_bytes 2 (sun_family u) ++ sun_path u
  | UnknownAddress s => le_bytes 2 (sa_family s) ++ sa_data s
  end.
Definition getAddrLen (a : Address) : Z :=
  match a with
  | IPv4Address _ => 16
  | IPv6Address _ => 28
  | UnixAddress _ len => len
  | UnknownAddress _ => 16
  end.
Definition getFamily (a : Address) : Z :=
  match a with
  | IPv4Address i => sin_family i
  | IPv6Address i => sin6_family i
  | UnixAddress u _ => sun_family u
  | UnknownAddress s => sa_family s
  end.

(** [memcmp(a, b, n)]: its sign, at the first byte that differs. *)
Fixpoint memcmp (a b : list Z) (n : nat) : outcome Z :=
  match n with
  | O => Ret 0
  | S n' =>
      match a, b with
      | x :: a', y :: b' => if x <? y then Ret (-1) else if y <? x then Ret 1 else memcmp a' b' n'
      | _, _ => Undefined
      end
  end.

(** [Address::operator<]. *)
Definition lt_Address (a b : Address) : outcome bool :=
  let minlen := Z.min (getAddrLen a) (getAddrLen b) in
  result ← memcmp (getAddr a) (getAddr b) (Z.to_nat minlen);
  Ret (if result <? 0 then true
       else if 0 <? result then false
       else if getAddrLen a <? getAddrLen b then true else false).

(** [Address::operator==] and [operator!=]. *)
Definition eq_Address (a b : Address) : outcome bool :=
  if getAddrLen a =? getAddrLen b
  then r ← memcmp (getAddr a) (getAddr b) (Z.to_nat (getAddrLen a)); Ret (r =? 0)
  else Ret false.
Definition ne_Address (a b : Address) : outcome bool := b ← eq_Address a b; Ret (negb b).

(** ** Construction *)

(** What a [sockaddr] pointer points to, by its family. *)
Inductive raw : Type := RawIn (i : sockaddr_in) | RawIn6 (i : sockaddr_in6) | RawOther (s : sockaddr).
Definition raw_family (r : raw) : Z :=
  match r with RawIn i => sin_family i | RawIn6 i => sin6_family i | RawOther s => sa_family s end.

(** [Address::Create(addr, addrlen)]. *)
Definition Create (addr : option raw) : option Address :=
  match addr with
  | None => None
  | Some (RawIn i) => Some (IPv4Address i)
  | Some (RawIn6 i) => Some (IPv6Address i)
  | Some (RawOther s) => Some (UnknownAddress s)
  end.

(** [IPv4Address::IPv4Address(address, port)]. *)
Definition IPv4Address_new (address port : Z) : sockaddr_in :=
  mkIn AF_INET (byteswapOnLittleEndian16 port) (byteswapOnLittleEndian32 address) (zero_bytes 8).
(** [IPv6Address::IPv6Address()] and [IPv6Address(address, port)]. *)
Definition IPv6Address_new : sockaddr_in6 := mkIn6 AF_INET6 0 0 (zero_bytes 16) 0.
Definition IPv6Address_of (address : list Z) (port : Z) : sockaddr_in6 :=
  mkIn6 AF_INET6 (byteswapOnLittleEndian16 port) 0 address 0.

(** [IPv4Address::Create] and [IPv6Address::Create]: [pton] is [inet_pton]'s
    result and the address it stored, if it stored one. *)
Definition IPv4Address_Create (pton : Z * option Z) (port : Z) : option sockaddr_in :=
  let rt := IPv4Address_new 0 0 in
  let rt := mkIn (sin_family rt) (byteswapOnLittleEndian16 port) (default (s_addr rt) pton.2) (sin_zero rt) in
  if pton.1 <? 0 then None else Some rt.
Definition IPv6Address_Create (pton : Z * option (list Z)) (port : Z) : option sockaddr_in6 :=
  let rt := IPv6Address_new in
  let rt := mkIn6 (sin6_family rt) (byteswapOnLittleEndian16 port) (sin6_flowinfo rt)
              (default (s6_addr rt) pton.2) (sin6_scope_id rt) in
  if pton.1 <=? 0 then None else Some rt.

(** [getPort], [setPort] of the two IP classes. *)
Definition getPort4 (i : sockaddr_in) : Z := byteswapOnLittleEndian16 (sin_port i).
Definition setPort4 (v : Z) (i : sockaddr_in) : sockaddr_in :=
  mkIn (sin_family i) (byteswapOnLittleEndian16 v) (s_addr i) (sin_zero i).
Definition getPort6 (i : sockaddr_in6) : Z := byteswapOnLittleEndian16 (sin6_port i).
Definition setPort6 (v : Z) (i : sockaddr_in6) : sockaddr_in6 :=
  mkIn6 (sin6_family i) (byteswapOnLittleEndian16 v) (sin6_flowinfo i) (s6_addr i) (sin6_scope_id i).

(** The [dynamic_pointer_cast] to [IPAddress]. *)
Definition is_ip (a : Address) : bool :=
  match a with IPv4Address _ | IPv6Address _ => true | _ => false end.
Definition setPort (v : Z) (a : Address) : Address :=
  match a with
  | IPv4Address i => IPv4Address (setPort4 v i)
  | IPv6Address i => IPv6Address (setPort6 v i)
  | _ => a
  end.

(** [IPAddress::Create]: [gai] is the first result of [getaddrinfo], [None]
    when it fails. *)
Definition IPAddress_Create (gai : option raw) (port : Z) : option Address :=
  match gai with
  | None => None
  | Some r => match Create (Some r) with
              | Some a => if is_ip a then Some (setPort port a) else None
              | None => None
              end
  end.

(** ** Derived IPv4 addresses *)
Definition broadcastAddress4 (prefix_len : Z) (a : sockaddr_in) : outcome (option sockaddr_in) :=
  if 32 <? prefix_len then Ret None
  else
    m ← CreateMask 4 prefix_len;
    Ret (Some (mkIn (sin_family a) (sin_port a)
                 (Z.lor (s_addr a) (byteswapOnLittleEndian32 m)) (sin_zero a))).
Definition networdAddress4 (prefix_len : Z) (a : sockaddr_in) : outcome (option sockaddr_in) :=
  if 32 <? prefix_len then Ret None
  else
    m ← CreateMask 4 prefix_len;
    Ret (Some (mkIn (sin_family a) (sin_port a)
                 (Z.land (s_addr a) (byteswapOnLittleEndian32 m)) (sin_zero a))).
Definition subnetMask4 (prefix_len : Z) : outcome (option sockaddr_in) :=
  m ← CreateMask 4 prefix_len;
  Ret (Some (mkIn AF_INET 0 (u32 (Z.lnot (byteswapOnLittleEndian32 m))) (zero_bytes 8))).

(** ** Derived IPv6 addresses: byte [prefix_len / 8] is written even when it is
    past the end *)
Definition set_byte (i : Z) (f : Z → Z) (l : list Z) : outcome (list Z) :=
  match l !! Z.to_nat i with
  | Some b => Ret (<[Z.to_nat i := f b]> l)
  | None => Undefined
  end.
Definition fill_from (i : Z) (v : Z) (l : list Z) : list Z :=
  take (Z.to_nat i) l ++ replicate (length l - Z.to_nat i) v.
Definition with_bytes (l : list Z) (a : sockaddr_in6) : sockaddr_in6 :=
  mkIn6 (sin6_family a) (sin6_port a) (sin6_flowinfo a) l (sin6_scope_id a).

Definition broadcastAddress6 (prefix_len : Z) (a : sockaddr_in6) : outcome sockaddr_in6 :=
  m ← CreateMask 1 (prefix_len mod 8);
  l ← set_byte (prefix_len / 8) (λ b, Z.lor b m) (s6_addr a);
  Ret (with_bytes (fill_from (prefix_len / 8 + 1) 255 l) a).
Definition networdAddress6 (prefix_len : Z) (a : sockaddr_in6) : outcome sockaddr_in6 :=
  m ← CreateMask 1 (prefix_len mod 8);
  l ← set_byte (prefix_len / 8) (λ b, Z.land b m) (s6_addr a);
  Ret (with_bytes (fill_from (prefix_len / 8 + 1) 0 l) a).
Definition subnetMask6 (prefix_len : Z) : outcome sockaddr_in6 :=
  m ← CreateMask 1 (prefix_len mod 8);
  l ← set_byte (prefix_len / 8) (λ _, u8 (Z.lnot m)) (zero_bytes 16);
  Ret (mkIn6 AF_INET6 0 0 (replicate (Z.to_nat (prefix_len / 8)) 255 ++ drop (Z.to_nat (prefix_len / 8)) l) 0).

(** ** Unix addresses *)
Definition SUN_PATH : Z := 108.
Definition sun_offset : Z := 2.

(** [UnixAddress::UnixAddress()]. *)
Definition UnixAddress_new : Address :=
  UnixAddress (mkUn AF_UNIX (zero_bytes 108)) (sun_offset + (SUN_PATH - 1)).

(** [UnixAddress::UnixAddress(path)]. *)
Definition UnixAddress_of (path : list Z) : outcome Address :=
  let length_ := Z.of_nat (length path) + 1 in
  let length_ := match path with 0 :: _ => length_ - 1 | _ => length_ end in
  if SUN_PATH <? length_ then Throw ($ "path too long")
  else
    let bytes := take (Z.to_nat length_) (path ++ [0]) in
    Ret (UnixAddress (mkUn AF_UNIX (bytes ++ zero_bytes (108 - length bytes))) (length_ + sun_offset)).

Definition setAddrLen (v : Z) (a : Address) : Address :=
  match a with UnixAddress u _ => UnixAddress u (u32 v) | _ => a end.

(** A C string in an array: it must end inside. *)
Fixpoint c_string (l : list Z) : outcome (list Z) :=
  match l with
  | [] => Undefined
  | x :: l' => if x =? 0 then Ret [] else s ← c_string l'; Ret (x :: s)
  end.

(** [UnixAddress::getPath]; 92 and 48 are the characters of [\0]. *)
Definition getPath (u : sockaddr_un) (length_ : Z) : outcome (list Z) :=
  match sun_path u with
  | 0 :: rest =>
      if sun_offset <? length_
      then Ret (92 :: 48 :: take (Z.to_nat (length_ - sun_offset - 1)) rest)
      else c_string (sun_path u)
  | _ => c_string (sun_path u)
  end.

(** ** Text *)

Definition hexchar (d : Z) : ascii := chr (if d <? 10 then 48 + d else 87 + d).
Fixpoint hex_digits (fuel : nat) (n : Z) : str :=
  match fuel with
  | O => []
  | S f => (if n <? 16 then [] else hex_digits f (n / 16)) ++ [hexchar (n mod 16)]
  end.
(** A 16-bit number printed with [std::hex]. *)
Definition hex (n : Z) : str := hex_digits 4 n.

Definition insert4 (i : sockaddr_in) : str :=
  let addr := byteswapOnLittleEndian32 (s_addr i) in
  decimal (Z.land (Z.shiftr addr 24) 255) ++ ["."%char] ++
  decimal (Z.land (Z.shiftr addr 16) 255) ++ ["."%char] ++
  decimal (Z.land (Z.shiftr addr 8) 255) ++ ["."%char] ++
  decimal (Z.land addr 255) ++ [":"%char] ++ decimal (byteswapOnLittleEndian16 (sin_port i)).

(** The eight 16-bit words the loop of [IPv6Address::insert] reads. *)
Fixpoint words (l : list Z) : list Z :=
  match l with a :: b :: r => (a + 256 * b) :: words r | _ => [] end.

(** The loop: [i] is not 0 exactly when [prev] is the word before. *)
Fixpoint insert6_loop (prev : option Z) (ws : list Z) (used_zeros : bool) (os : str) : str * bool :=
  match ws with
  | [] => (os, used_zeros)
  | w :: r =>
      if (w =? 0) && negb used_zeros then insert6_loop (Some w) r used_zeros os
      else
        let gap := match prev with Some p => (p =? 0) && negb used_zeros | None => false end in
        let os := if gap then os ++ [":"%char] else os in
        let used_zeros := used_zeros || gap in
        let os := if negb (null prev) then os ++ [":"%char] else os in
        insert6_loop (Some w) r used_zeros (os ++ hex (byteswapOnLittleEndian16 w))
  end.

Definition insert6 (i : sockaddr_in6) : str :=
  let ws := words (s6_addr i) in
  let '(os, used_zeros) := insert6_loop None ws false ["["%char] in
  let os := if negb used_zeros && (nth 7 ws 0 =? 0) then os ++ $ "::" else os in
  os ++ $ "]:" ++ decimal (byteswapOnLittleEndian16 (sin6_port i)).

Definition text_of (l : list Z) : str := chr <$> l.

(** [insert], [toString] and [operator<<]. *)
Definition insert (a : Address) : outcome str :=
  match a with
  | IPv4Address i => Ret (insert4 i)
  | IPv6Address i => Ret (insert6 i)
  | UnixAddress u len => text_of <$> getPath u len
  | UnknownAddress s => Ret ($ "[UnknownAddress family=" ++ decimal (sa_family s) ++ $ "]")
  end.

(** ** Lookup *)

(** The suffix of [s] that starts at the first [c]: what [memchr] points to. *)
Definition memchr (c : ascii) (s : str) : option str :=
  match drop_while (λ x, negb (Ascii.eqb x c)) s with [] => None | r => Some r end.

(** [Address::Lookup] up to the call of [getaddrinfo]: the node and the
    service. *)
Definition Lookup_split (host : str) : str * option str :=
  let '(node, service) :=
    match host with
    | "["%char :: rest =>
        match memchr "]" rest with
        | Some (_ :: after) =>
            (take (length rest - S (length after)) rest,
             match after with ":"%char :: port => Some port | _ => None end)
        | _ => ([], None)
        end
    | _ => ([], None)
    end in
  let '(node, service) :=
    if bool_decide (node = []) then
      match memchr ":" host with
      | Some (c :: after) =>
          if null (memchr ":" after)
          then (take (length host - S (length after)) host, Some after)
          else (node, Some (c :: after))
      | _ => (node, None)
      end
    else (node, service) in
  (if bool_decide (node = []) then host else node, service).

Section Lookup.
(** The addresses [getaddrinfo(node, service, hints)] finds; [None]: an
    error. *)
Variable getaddrinfo : str → option str → option (list raw).

Definition Lookup (result : list (option Address)) (host : str) : list (option Address) * bool :=
  let '(node, service) := Lookup_split host in
  match getaddrinfo node service with
  | None => (result, false)
  | Some l =>
      let result := result ++ ((λ r, Create (Some r)) <$> l) in
      (result, negb (bool_decide (result = [])))
  end.

(** [Address::LookupAny]. *)
Definition LookupAny (host : str) : option Address :=
  let '(result, ok) := Lookup [] host in
  if ok then match result with a :: _ => a | [] => None end else None.

(** [Address::LookupAnyIPAddress]. *)
Definition LookupAnyIPAddress (host : str) : option Address :=
  let '(result, ok) := Lookup [] host in
  if ok then head (filter (λ a, is_ip a = true) (omap id result)) else None.
End Lookup.

(** ** Interfaces *)

(** An entry of [getifaddrs]; both pointers may be null. *)
Record ifaddr : Type := mkIf { ifa_name : str; ifa_addr : option raw; ifa_netmask : option raw }.

Definition netmask4 (m : option raw) : outcome Z :=
  match m with Some (RawIn i) => Ret (s_addr i) | _ => Undefined end.
Definition netmask6 (m : option raw) : outcome (list Z) :=
  match m with Some (RawIn6 i) => Ret (s6_addr i) | _ => Undefined end.

(** The loop of the first [GetInterfaceAddresses]; the multimap is the list of
    its insertions. *)
Fixpoint interfaces (family : Z) (l : list ifaddr) (result : list (str * (Address * Z))) :
    outcome (list (str * (Address * Z))) :=
  match l with
  | [] => Ret result
  | next :: l' =>
      match ifa_addr next with
      | None => Undefined
      | Some r =>
          if negb (family =? AF_UNSPEC) && negb (family =? raw_family r) then interfaces family l' result
          else if raw_family r =? AF_INET then
            m ← netmask4 (ifa_netmask next);
            match Create (Some r) with
            | Some a => interfaces family l' (result ++ [(ifa_name next, (a, CountBytes m))])
            | None => interfaces family l' result
            end
          else if raw_family r =? AF_INET6 then
            m ← netmask6 (ifa_netmask next);
            match Create (Some r) with
            | Some a => interfaces family l' (result ++ [(ifa_name next, (a, foldr Z.add 0 (CountBytes <$> m)))])
            | None => interfaces family l' result
            end
          else interfaces family l' result
      end
  end.

Definition GetInterfaceAddresses (getifaddrs : option (list ifaddr)) (family : Z)
    (result : list (str * (Address * Z))) : outcome (list (str * (Address * Z)) * bool) :=
  match getifaddrs with
  | None => Ret (result, false)
  | Some l => r ← interfaces family l result; Ret (r, negb (bool_decide (r = [])))
  end.

(** The overload for one interface. *)
Definition GetInterfaceAddresses_of (getifaddrs : option (list ifaddr)) (iface : str) (family : Z)
    (result : list (Address * Z)) : outcome (list (Address * Z) * bool) :=
  if bool_decide (iface = []) || bool_decide (iface = $ "*") then
    let r := if (family =? AF_INET) || (family =? AF_UNSPEC)
             then result ++ [(IPv4Address (IPv4Address_new 0 0), 0)] else result in
    let r := if (family =? AF_INET6) || (family =? AF_UNSPEC)
             then r ++ [(IPv6Address IPv6Address_new, 0)] else r in
    Ret (r, true)
  else
    '(results, ok) ← GetInterfaceAddresses getifaddrs family [];
    if negb ok then Ret (result, false)
    else
      let r := result ++ (snd <$> filter (λ e, e.1 = iface) results) in
      Ret (r, negb (bool_decide (r = []))).

(** [GetIPv4Inet] (util.cpp): the last interface wins that has an IPv4 address
    and whose name does not start with "lo"; a null address ends the loop.  The
    test against [localhost] at its end changes nothing. *)
Definition localhost : Z := 16777343.  (* inet_addr("127.0.0.1") *)
Definition loopback_name (name : str) : bool := bool_decide (ToLower (take 2 name) = $ "lo").
Fixpoint ipv4_loop (l : list ifaddr) (ipv4 : Z) : Z :=
  match l with
  | [] => ipv4
  | ifa :: l' =>
      match ifa_addr ifa with
      | None => ipv4
      | Some (RawIn i) =>
          if negb (sin_family i =? AF_INET) then ipv4_loop l' ipv4
          else if loopback_name (ifa_name ifa) then ipv4_loop l' ipv4
          else ipv4_loop l' (s_addr i)
      | Some _ => ipv4_loop l' ipv4
      end
  end.
Definition GetIPv4Inet (getifaddrs : option (list ifaddr)) : Z :=
  match getifaddrs with None => localhost | Some l => ipv4_loop l localhost end.

(** [_GetIPv4]. *)
Definition GetIPv4 (inet_ntop : Z → str) (getifaddrs : option (list ifaddr)) : str :=
  inet_ntop (GetIPv4Inet getifaddrs).

(** The addresses it chooses from. *)
Definition ipv4_of (ifa : ifaddr) : option Z :=
  match ifa_addr ifa with
  | Some (RawIn i) => if (sin_family i =? AF_INET) && negb (loopback_name (ifa_name ifa)) then Some (s_addr i) else None
  | _ => None
  end.

Lemma GetIPv4Inet_last l : Forall (λ ifa, is_Some (ifa_addr ifa)) l →
  GetIPv4Inet (Some l) = default localhost (last (omap ipv4_of l)).
Proof.
  intros Hl. cbn [GetIPv4Inet]. generalize localhost as d. induction Hl as [|ifa l [r Hr] _ IH]; intros d; [done|].
  cbn [ipv4_loop omap list_omap]. unfold ipv4_of at 1. rewrite Hr. destruct r as [i|i|s]; try apply IH.
  destruct (sin_family i =? AF_INET); cbn [negb andb]; [|apply IH].
  destruct (loopback_name (ifa_name ifa)); cbn [negb]; [apply IH|]. rewrite IH, last_cons.
  by destruct (last _).
Qed.

(** ** Prefixes *)

Lemma CreateMask_val size bits :
  1 ≤ size ≤ 4 → 0 ≤ bits ≤ size * 8 → size * 8 - bits ≤ 30 →
  CreateMask size bits = Ret (2 ^ (size * 8 - bits) - 1).
Proof.
  intros Hs Hb Ha. unfold CreateMask. rewrite u64_small by lia.
  destruct (Z.leb_spec 31 (size * 8 - bits)); [lia|].
  rewrite Z.shiftl_1_l. f_equal. apply Z.mod_small.
  assert (1 ≤ 2 ^ (size * 8 - bits)) by (apply (Z.pow_le_mono_r 2 0); lia).
  assert (2 ^ (size * 8 - bits) ≤ 2 ^ (size * 8)) by (apply Z.pow_le_mono_r; lia). lia.
Qed.

(** A statement about the prefix lengths of IPv4, checked for each of them. *)
Lemma prefix_cases (P : Z → bool) (lo : Z) (n : nat) :
  forallb P (seqZ lo (Z.of_nat n)) = true → ∀ p, lo ≤ p < lo + Z.of_nat n → P p = true.
Proof. rewrite forallb_forall. intros H p Hp. apply H, list_elem_of_In, elem_of_seqZ. lia. Qed.

Lemma subnet4_mask p : 2 ≤ p ≤ 32 →
  u32 (Z.lnot (byteswapOnLittleEndian32 (2 ^ (32 - p) - 1))) = byteswapOnLittleEndian32 (2 ^ 32 - 2 ^ (32 - p)) ∧
  CountBytes (byteswapOnLittleEndian32 (2 ^ 32 - 2 ^ (32 - p))) = p.
Proof.
  intros Hp. assert (H := prefix_cases (λ p,
    (u32 (Z.lnot (byteswapOnLittleEndian32 (2 ^ (32 - p) - 1))) =?
     byteswapOnLittleEndian32 (2 ^ 32 - 2 ^ (32 - p))) &&
    (CountBytes (byteswapOnLittleEndian32 (2 ^ 32 - 2 ^ (32 - p))) =? p)) 2 31).
  specialize (H ltac:(by vm_compute) p ltac:(lia)). apply andb_true_iff in H as [H1 H2].
  apply Z.eqb_eq in H1, H2. by split.
Qed.

Lemma bswap32_op (f : Z → Z → Z) h m :
  (∀ x y, bswap 4 (f x y) = f (bswap 4 x) (bswap 4 y)) → 0 ≤ h < 2 ^ 32 → 0 ≤ m < 2 ^ 32 →
  0 ≤ f h m < 2 ^ 32 →
  f (byteswapOnLittleEndian32 h) (byteswapOnLittleEndian32 m) = byteswapOnLittleEndian32 (f h m).
Proof.
  intros Hf Hh Hm Hr. unfold byteswapOnLittleEndian32, byteswap32. by rewrite !u32_small, Hf.
Qed.

(** C35: for a prefix of 2 to 32 bits the IPv4 broadcast address has every host
    bit set, the subnet mask is the prefix bits and counts back to the prefix
    length; but [networdAddress] clears the network part and keeps the host
    part.  For a prefix of 0 or 1 bits the mask's shift overflows an [int]. *)
Theorem ipv4_prefix (h port p : Z) :
  0 ≤ h < 2 ^ 32 → 0 ≤ p ≤ 32 →
  let a := IPv4Address_new h port in
  let H := 2 ^ (32 - p) in
  (2 ≤ p →
     broadcastAddress4 p a = Ret (Some (IPv4Address_new (h / H * H + (H - 1)) port)) ∧
     subnetMask4 p = Ret (Some (IPv4Address_new (2 ^ 32 - H) 0)) ∧
     CountBytes (s_addr (IPv4Address_new (2 ^ 32 - H) 0)) = p ∧
     networdAddress4 p a = Ret (Some (IPv4Address_new (h mod H) port))) ∧
  (p < 2 → broadcastAddress4 p a = Undefined ∧ networdAddress4 p a = Undefined ∧ subnetMask4 p = Undefined).
Proof.
  intros Hh Hp a H. split; intros Hp2.
  - assert (HH : 1 ≤ H) by (apply (Z.pow_le_mono_r 2 0); lia).
    assert (HH2 : H ≤ 2 ^ 30) by (apply Z.pow_le_mono_r; lia).
    assert (Hm : CreateMask 4 p = Ret (H - 1)) by (by rewrite CreateMask_val by lia).
    unfold broadcastAddress4, networdAddress4, subnetMask4. rewrite Hm.
    destruct (Z.ltb_spec 32 p); [lia|]. cbn [mbind outcome_bind].
    assert (Hdiv : h / H * H + (H - 1) < 2 ^ 32).
    { assert (2 ^ 32 = 2 ^ p * H) as -> by (unfold H; rewrite <-Z.pow_add_r by lia; f_equal; lia).
      assert (h / H < 2 ^ p); [|nia].
      apply Z.div_lt_upper_bound; [lia|].
      replace (H * 2 ^ p) with (2 ^ 32); [lia|]. unfold H. rewrite <-Z.pow_add_r by lia. f_equal. lia. }
    assert (0 ≤ h / H) by (apply Z.div_pos; lia).
    split_and!.
    + do 2 f_equal. unfold a, IPv4Address_new. cbn. f_equal. unfold H in *.
      rewrite <-lor_ones by lia. apply bswap32_op; [apply bswap_lor|lia|lia|].
      rewrite lor_ones by lia. nia.
    + unfold H. destruct (subnet4_mask p ltac:(lia)) as [-> _]. done.
    + by destruct (subnet4_mask p ltac:(lia)).
    + do 2 f_equal. unfold a, IPv4Address_new. cbn. f_equal. unfold H in *.
      pose proof (Z.mod_pos_bound h (2 ^ (32 - p)) ltac:(lia)).
      rewrite <-land_ones_mod by lia. apply bswap32_op; [apply bswap_land|lia|lia|].
      rewrite land_ones_mod by lia. lia.
  - assert (Hm : CreateMask 4 p = Undefined).
    { unfold CreateMask. rewrite u64_small by lia. destruct (Z.leb_spec 31 (4 * 8 - p)); [done|lia]. }
    unfold broadcastAddress4, networdAddress4, subnetMask4. rewrite Hm.
    destruct (Z.ltb_spec 32 p); [lia|done].
Qed.

Lemma ipv4_prefix_witness :
  broadcastAddress4 24 (IPv4Address_new 3232235777 80) = Ret (Some (IPv4Address_new 3232236031 80)) ∧
  networdAddress4 24 (IPv4Address_new 3232235777 80) = Ret (Some (IPv4Address_new 1 80)).
Proof.
  destruct (ipv4_prefix 3232235777 80 24) as [H _]; [lia|lia|].
  destruct H as (H1 & _ & _ & H4); [lia|]. split; [exact H1|exact H4].
Defined.

(** The number a list of bytes denotes, most significant first. *)
Definition be_value (l : list Z) : Z := foldl (λ acc b, acc * 256 + b) 0 l.
Definition bytes_ok (l : list Z) : Prop := Forall (λ b, 0 ≤ b < 256) l.

Lemma be_value_acc l : ∀ acc,
  foldl (λ acc b, acc * 256 + b) acc l = acc * 256 ^ Z.of_nat (length l) + be_value l.
Proof.
  unfold be_value. induction l as [|b l IH]; intros acc; cbn [foldl length]; [rewrite Z.pow_0_r; lia|].
  rewrite IH, (IH (0 * 256 + b)), Nat2Z.inj_succ, Z.pow_succ_r by lia. lia.
Qed.
Lemma be_value_app l1 l2 : be_value (l1 ++ l2) = be_value l1 * 256 ^ Z.of_nat (length l2) + be_value l2.
Proof. unfold be_value at 1. by rewrite foldl_app, be_value_acc. Qed.
Lemma be_value_cons b l : be_value (b :: l) = b * 256 ^ Z.of_nat (length l) + be_value l.
Proof. change (b :: l) with ([b] ++ l). rewrite be_value_app. unfold be_value at 1. cbn [foldl]. lia. Qed.
Lemma be_value_range l : bytes_ok l → 0 ≤ be_value l < 256 ^ Z.of_nat (length l).
Proof.
  induction 1 as [|b l Hb Hl IH]; [by cbn|]. rewrite be_value_cons. cbn [length].
  rewrite Nat2Z.inj_succ, Z.pow_succ_r by lia. nia.
Qed.
Lemma be_value_ff n : be_value (replicate n 255) = 256 ^ Z.of_nat n - 1.
Proof.
  induction n as [|n IH]; cbn [replicate]; [done|].
  rewrite be_value_cons, length_replicate, IH, Nat2Z.inj_succ, Z.pow_succ_r by lia. lia.
Qed.
Lemma be_value_00 n : be_value (replicate n 0) = 0.
Proof.
  induction n as [|n IH]; cbn [replicate]; [done|]. rewrite be_value_cons, IH. lia.
Qed.

(** The bytes before, at and after byte [k]. *)
Lemma split_at (l : list Z) (k : nat) : (k < length l)%nat →
  ∃ hi b lo, l = hi ++ b :: lo ∧ length hi = k ∧ length lo = (length l - k - 1)%nat.
Proof.
  intros Hk. destruct (lookup_lt_is_Some_2 l k Hk) as [b Hb].
  exists (take k l), b, (drop (S k) l). split; [by rewrite take_drop_middle|].
  rewrite length_take, length_drop. lia.
Qed.

Lemma set_byte_split hi b lo f :
  set_byte (Z.of_nat (length hi)) f (hi ++ b :: lo) = Ret (hi ++ f b :: lo).
Proof.
  unfold set_byte. rewrite Nat2Z.id, list_lookup_middle by done.
  rewrite insert_app_r_alt, Nat.sub_diag by done. done.
Qed.
Lemma fill_from_split hi b lo v :
  fill_from (Z.of_nat (length hi) + 1) v (hi ++ b :: lo) = hi ++ b :: replicate (length lo) v.
Proof.
  unfold fill_from. replace (Z.to_nat (Z.of_nat (length hi) + 1)) with (length (hi ++ [b]))
    by (rewrite length_app; cbn; lia).
  replace (hi ++ b :: lo) with ((hi ++ [b]) ++ lo) by (by rewrite <-app_assoc).
  rewrite take_app_length, (length_app (hi ++ [b])), Nat.add_comm, Nat.add_sub.
  by rewrite <-app_assoc.
Qed.

(** An address of 16 bytes, cut at the byte [b] a prefix of [8 * k + r] bits ends
    in: the numbers involved. *)
Section Prefix6.
Context (a : sockaddr_in6) (hi lo : list Z) (b k r : Z).
Context (Hl : s6_addr a = hi ++ b :: lo) (Hhi : Z.of_nat (length hi) = k).
Context (Hlen : (length hi + 1 + length lo = 16)%nat) (Hr : 0 ≤ r < 8) (Hb : 0 ≤ b < 256) (Hlo : bytes_ok lo).

Let n := Z.of_nat (length lo).
Let x := be_value (s6_addr a).
Let H := 2 ^ (128 - (8 * k + r)).

Lemma prefix6_n : n = 15 - k.
Proof. unfold n. lia. Qed.
Lemma prefix6_bits : 2 ^ r * 2 ^ (8 - r) = 256.
Proof. rewrite <-Z.pow_add_r by lia. by replace (r + (8 - r)) with 8 by lia. Qed.
Lemma prefix6_host : H = 2 ^ (8 - r) * 256 ^ n.
Proof.
  unfold H. pose proof prefix6_n. change 256 with (2 ^ 8). rewrite <-Z.pow_mul_r, <-Z.pow_add_r by lia.
  f_equal. lia.
Qed.
Lemma prefix6_length v : be_value (hi ++ v :: lo) = (be_value hi * 256 + v) * 256 ^ n + be_value lo.
Proof.
  rewrite be_value_app, be_value_cons. cbn [length]. rewrite Nat2Z.inj_succ, Z.pow_succ_r by lia. fold n. lia.
Qed.
Lemma prefix6_div : x / 256 ^ n = be_value hi * 256 + b.
Proof.
  pose proof (be_value_range lo Hlo) as Hrlo. fold n in Hrlo. unfold x. rewrite Hl, prefix6_length.
  rewrite Z.div_add_l by lia. rewrite Z.div_small by done. lia.
Qed.
(** The bytes from [b] on replaced. *)
Lemma prefix6_filled v w : be_value (hi ++ v :: replicate (length lo) w) =
  (be_value hi * 256 + v) * 256 ^ n + be_value (replicate (length lo) w).
Proof.
  rewrite be_value_app, be_value_cons. cbn [length]. rewrite length_replicate.
  rewrite Nat2Z.inj_succ, Z.pow_succ_r by lia. fold n. lia.
Qed.

Lemma broadcast6 p : p = 8 * k + r → p / 8 = k → CreateMask 1 (p mod 8) = Ret (2 ^ (8 - r) - 1) →
  ∃ c, broadcastAddress6 p a = Ret c ∧ be_value (s6_addr c) = x / H * H + (H - 1).
Proof.
  intros Hp Hk Hm. unfold broadcastAddress6. rewrite Hk, Hm. cbn [mbind outcome_bind].
  eexists. split; [rewrite Hl, <-Hhi, set_byte_split; cbn; reflexivity|].
  cbn [s6_addr with_bytes]. rewrite fill_from_split, prefix6_filled, be_value_ff, lor_ones by lia. fold n.
  pose proof prefix6_bits as Hs8. assert (1 ≤ 2 ^ (8 - r)) by (apply (Z.pow_le_mono_r 2 0); lia).
  assert (Hq : x / H = be_value hi * 2 ^ r + b / 2 ^ (8 - r)).
  { rewrite prefix6_host, Z.mul_comm, <-Z.div_div, prefix6_div by lia.
    rewrite <-Hs8. rewrite Z.mul_assoc, Z.div_add_l by lia. done. }
  rewrite Hq, prefix6_host. rewrite <-Hs8 at 1. ring.
Qed.

Lemma subnet6 p : p / 8 = k → CreateMask 1 (p mod 8) = Ret (2 ^ (8 - r) - 1) →
  ∃ m, subnetMask6 p = Ret m ∧ be_value (s6_addr m) = 2 ^ 128 - H.
Proof.
  intros Hk Hm. unfold subnetMask6. rewrite Hk, Hm. cbn [mbind outcome_bind]. eexists. split; [|].
  { assert (Hz : zero_bytes 16 = replicate (length hi) 0 ++ 0 :: replicate (length lo) 0).
    { unfold zero_bytes. change (0 :: replicate (length lo) 0) with (replicate (S (length lo)) 0).
      rewrite <-replicate_add. f_equal. lia. }
    rewrite Hz. replace k with (Z.of_nat (length (replicate (length hi) 0))) at 1 by (rewrite length_replicate; lia).
    rewrite set_byte_split. cbn [mbind outcome_bind]. reflexivity. }
  cbn [s6_addr]. replace (Z.to_nat k) with (length hi) by lia.
  rewrite drop_app_length' by (by rewrite length_replicate).
  rewrite be_value_app, be_value_cons, be_value_ff, be_value_00. cbn [length]. rewrite length_replicate.
  rewrite Nat2Z.inj_succ, Z.pow_succ_r by lia. fold n.
  pose proof prefix6_bits as Hs8. assert (1 ≤ 2 ^ (8 - r)) by (apply (Z.pow_le_mono_r 2 0); lia).
  assert (1 ≤ 2 ^ r) by (apply (Z.pow_le_mono_r 2 0); lia).
  assert (Hb8 : u8 (Z.lnot (2 ^ (8 - r) - 1)) = 256 - 2 ^ (8 - r)).
  { unfold u8, Z.lnot. replace (Z.pred (- (2 ^ (8 - r) - 1))) with (256 - 2 ^ (8 - r) + (-1) * 2 ^ 8) by lia.
    rewrite Z_mod_plus_full. apply Z.mod_small. nia. }
  rewrite Hb8, prefix6_host. assert (256 ^ Z.of_nat (length hi) * (256 * 256 ^ n) = 2 ^ 128) as Ht.
  { replace (256 * 256 ^ n) with (256 ^ (n + 1)) by (rewrite Z.pow_add_r by lia; lia).
    rewrite <-Z.pow_add_r by lia. replace (Z.of_nat (length hi) + (n + 1)) with 16 by lia. done. }
  nia.
Qed.

Lemma network6 p : p / 8 = k → p mod 8 = r → CreateMask 1 (p mod 8) = Ret (2 ^ (8 - r) - 1) →
  ∃ c, networdAddress6 p a = Ret c ∧
    let low := 256 ^ (15 - p / 8) in
    be_value (s6_addr c) = x / (low * 256) * (low * 256) + (x / low mod 2 ^ (8 - p mod 8)) * low.
Proof.
  intros Hk Hpr Hm. unfold networdAddress6. rewrite Hk, Hm, Hpr. cbn [mbind outcome_bind].
  eexists. split; [rewrite Hl, <-Hhi, set_byte_split; cbn; reflexivity|].
  cbn [s6_addr with_bytes]. rewrite fill_from_split, prefix6_filled, be_value_00, land_ones_mod by lia.
  rewrite <-prefix6_n. pose proof prefix6_bits as Hs8. assert (1 ≤ 2 ^ (8 - r)) by (apply (Z.pow_le_mono_r 2 0); lia).
  assert (Hd1 : x / (256 ^ n * 256) = be_value hi).
  { rewrite <-Z.div_div, prefix6_div by lia. rewrite Z.div_add_l by lia. rewrite Z.div_small by lia. lia. }
  assert (Hd2 : (x / 256 ^ n) mod 2 ^ (8 - r) = b mod 2 ^ (8 - r)).
  { rewrite prefix6_div, <-Hs8, Z.mul_assoc, Z.add_comm. by rewrite Z_mod_plus_full. }
  rewrite Hd1, Hd2. ring.
Qed.
End Prefix6.

(** For a prefix of 0 to 127 bits the IPv6 broadcast address, read as a
    128-bit number, has every host bit set, and the subnet mask is the prefix
    bits; but [networdAddress] keeps, of the byte the prefix ends in, the host
    bits instead of the network bits.  For a prefix of 128 bits all three write
    past the end of the address. *)
Theorem ipv6_prefix (a : sockaddr_in6) (p : Z) :
  length (s6_addr a) = 16%nat → bytes_ok (s6_addr a) → 0 ≤ p →
  let x := be_value (s6_addr a) in
  let H := 2 ^ (128 - p) in
  (p < 128 →
     (∃ b, broadcastAddress6 p a = Ret b ∧ be_value (s6_addr b) = x / H * H + (H - 1)) ∧
     (∃ m, subnetMask6 p = Ret m ∧ be_value (s6_addr m) = 2 ^ 128 - H) ∧
     (∃ n, networdAddress6 p a = Ret n ∧
        let low := 256 ^ (15 - p / 8) in
        be_value (s6_addr n) = x / (low * 256) * (low * 256) + (x / low mod 2 ^ (8 - p mod 8)) * low)) ∧
  (p = 128 → broadcastAddress6 p a = Undefined ∧ networdAddress6 p a = Undefined ∧ subnetMask6 p = Undefined).
Proof.
  intros Hlen Hb Hp x H.
  set (k := p / 8). set (r := p mod 8). assert (Hr : 0 ≤ r < 8) by (apply Z.mod_pos_bound; lia).
  assert (Hpk : p = 8 * k + r) by (unfold k, r; apply Z.div_mod; lia).
  assert (Hm : CreateMask 1 r = Ret (2 ^ (8 - r) - 1)) by (apply (CreateMask_val 1); lia).
  split; intros Hp128.
  - assert (Hk : 0 ≤ k < 16) by lia.
    destruct (split_at (s6_addr a) (Z.to_nat k)) as (hi & b & lo & Hl & Hhi & Hlo); [lia|].
    rewrite Hlen in Hlo. rewrite Hl in Hb. apply Forall_app in Hb as [_ [Hbb Hblo]%Forall_cons].
    assert (HH : H = 2 ^ (128 - (8 * k + r))) by (unfold H; by rewrite Hpk). rewrite HH. split_and!.
    + apply (broadcast6 a hi lo b k r); [done|lia|lia|done..].
    + apply (subnet6 a hi lo k r); [lia|lia|done..].
    + apply (network6 a hi lo b k r); [done|lia|lia|done..].
  - unfold broadcastAddress6, subnetMask6, networdAddress6. fold k r. rewrite Hm. cbn [mbind outcome_bind].
    assert (Hk16 : k = 16) by (unfold k; by rewrite Hp128). rewrite Hk16. unfold set_byte.
    rewrite lookup_ge_None_2 by (rewrite Hlen; lia). done.
Qed.

Definition addr6 : sockaddr_in6 := IPv6Address_of (32 :: 1 :: 13 :: 184 :: replicate 11 0 ++ [7]) 80.

Lemma ipv6_prefix_witness :
  (∃ b, broadcastAddress6 32 addr6 = Ret b ∧
     be_value (s6_addr b) = be_value (s6_addr addr6) / 2 ^ 96 * 2 ^ 96 + (2 ^ 96 - 1)) ∧
  broadcastAddress6 128 addr6 = Undefined.
Proof.
  split.
  - apply (ipv6_prefix addr6 32); [done| |lia|lia]. unfold bytes_ok. cbn. repeat constructor; lia.
  - apply (ipv6_prefix addr6 128); [done| |lia|done]. unfold bytes_ok. cbn. repeat constructor; lia.
Defined.

(** ** The order of addresses *)

(** The length reported is inside the structure. *)
Definition addr_ok (a : Address) : Prop := 0 ≤ getAddrLen a ≤ Z.of_nat (length (getAddr a)).

(** The bytes an address is compared by. *)
Definition key (a : Address) : list Z := take (Z.to_nat (getAddrLen a)) (getAddr a).

(** The strict lexicographic order: a proper prefix, or a smaller byte at the
    first difference. *)
Inductive lex : list Z → list Z → Prop :=
  | lex_prefix y b : lex [] (y :: b)
  | lex_byte x y a b : x < y → lex (x :: a) (y :: b)
  | lex_cons x a b : lex a b → lex (x :: a) (x :: b).

Lemma lex_app p a b : lex (p ++ a) (p ++ b) ↔ lex a b.
Proof.
  induction p as [|x p IH]; cbn; [done|]. rewrite <-IH. split; [|apply lex_cons].
  inversion 1; subst; [lia|done].
Qed.
Lemma lex_irrefl a : ¬ lex a a.
Proof. induction a as [|x a IH]; inversion 1; subst; [lia|by apply IH]. Qed.
Lemma lex_trans a b c : lex a b → lex b c → lex a c.
Proof.
  intros H. revert c. induction H; inversion 1; subst;
    first [by constructor|constructor; lia|constructor; by auto].
Qed.
Lemma lex_total a b : lex a b ∨ a = b ∨ lex b a.
Proof.
  revert b. induction a as [|x a IH]; intros [|y b]; [by right; left|left; constructor|right; right; constructor|].
  destruct (Z.lt_trichotomy x y) as [|[->|]]; [left; by constructor| |right; right; by constructor].
  destruct (IH b) as [|[->|]]; [left; by constructor|by right; left|right; right; by constructor].
Qed.

(** [memcmp] finds the first difference. *)
Lemma memcmp_take (n : nat) : ∀ a b, (n ≤ length a)%nat → (n ≤ length b)%nat →
  ∃ r, memcmp a b n = Ret r ∧
    (r = 0 ∧ take n a = take n b ∨
     ∃ (p : list Z) x y ra rb, take n a = p ++ x :: ra ∧ take n b = p ++ y :: rb ∧
       (r < 0 ∧ x < y ∨ 0 < r ∧ y < x)).
Proof.
  induction n as [|n IH]; intros [|x a] [|y b] Ha Hb; cbn [length take memcmp] in *;
    try lia; try (exists 0; by auto).
  destruct (Z.ltb_spec x y); [|destruct (Z.ltb_spec y x)].
  - exists (-1). split; [done|]. right. exists [], x, y, (take n a), (take n b). split_and!; auto with lia.
  - exists 1. split; [done|]. right. exists [], x, y, (take n a), (take n b). split_and!; auto with lia.
  - assert (x = y) as <- by lia.
    destruct (IH a b) as (r & -> & [[-> Heq]|(p & u & v & ra & rb & E1 & E2 & Hr)]); [lia..| |].
    + exists 0. split; [done|]. left. by rewrite Heq.
    + exists r. split; [done|]. right. exists (x :: p), u, v, ra, rb. by rewrite E1, E2.
Qed.

Lemma key_split a n : (n ≤ Z.to_nat (getAddrLen a))%nat →
  key a = take n (getAddr a) ++ drop n (key a).
Proof.
  intros Hn. unfold key. rewrite <-(take_drop n (take _ (getAddr a))) at 1.
  by rewrite take_take, Nat.min_l by lia.
Qed.

Lemma lt_Address_lex a b : addr_ok a → addr_ok b →
  ∃ r, lt_Address a b = Ret r ∧ (r = true ↔ lex (key a) (key b)).
Proof.
  intros Ha Hb. unfold lt_Address, addr_ok in *.
  set (n := Z.to_nat (Z.min (getAddrLen a) (getAddrLen b))).
  pose proof (key_split a n ltac:(lia)) as HA. pose proof (key_split b n ltac:(lia)) as HB.
  assert (Hlen : ∀ c, addr_ok c → length (key c) = Z.to_nat (getAddrLen c)).
  { intros c Hc. unfold key, addr_ok in *. rewrite length_take. lia. }
  destruct (memcmp_take n (getAddr a) (getAddr b))
    as (r & -> & [[-> Heq]|(p & x & y & ra & rb & E1 & E2 & Hr)]); [lia..| |]; cbn [mbind outcome_bind].
  - rewrite HA, HB, Heq. eexists. split; [done|]. cbn. rewrite lex_app.
    destruct (Z.ltb_spec (getAddrLen a) (getAddrLen b)).
    + rewrite drop_ge by (rewrite Hlen by done; lia). split; [intros _|done].
      destruct (drop n (key b)) eqn:Hd; [|constructor].
      assert (length (drop n (key b)) = 0%nat) as H0 by (by rewrite Hd).
      rewrite length_drop, Hlen in H0 by done. lia.
    + rewrite (drop_ge (key b)) by (rewrite Hlen by done; lia). split; [done|by inversion 1].
  - rewrite HA, HB, E1, E2, <-!app_assoc. cbn [app]. eexists. split; [done|]. rewrite lex_app.
    destruct Hr as [[Hr Hxy]|[Hr Hxy]].
    + destruct (Z.ltb_spec r 0); [|lia]. split; [intros _; by constructor|done].
    + destruct (Z.ltb_spec r 0); [lia|]. destruct (Z.ltb_spec 0 r); [|lia].
      split; [done|]. inversion 1; subst; lia.
Qed.

Lemma eq_Address_key a b : addr_ok a → addr_ok b →
  ∃ r, eq_Address a b = Ret r ∧ (r = true ↔ key a = key b).
Proof.
  intros Ha Hb. unfold eq_Address, key, addr_ok in *.
  destruct (Z.eqb_spec (getAddrLen a) (getAddrLen b)) as [He|Hne].
  - destruct (memcmp_take (Z.to_nat (getAddrLen a)) (getAddr a) (getAddr b))
      as (r & -> & [[-> Heq]|(p & x & y & ra & rb & E1 & E2 & Hr)]); [lia..| |]; cbn.
    + exists true. rewrite <-He. by rewrite Heq.
    + exists (r =? 0). split; [done|]. rewrite <-He, E1, E2. split; [lia|].
      intros E%app_inv_head. injection E as -> _. lia.
  - exists false. split; [done|]. split; [done|]. intros E. apply (f_equal length) in E.
    rewrite !length_take in E. lia.
Qed.

Lemma bool_false (b : bool) : (b = true → False) → b = false.
Proof. by destruct b; [intros []|]. Qed.

(** C30: [operator<] on addresses of any classes is a strict total order that
    agrees with [operator==]: it never reads past an address, no address is
    less than itself, it is transitive, and of two addresses exactly one of less,
    equal and greater holds - as a [std::map] or [std::set] of addresses needs. *)
Theorem address_order (a b c : Address) :
  addr_ok a → addr_ok b → addr_ok c →
  lt_Address a a = Ret false ∧
  (lt_Address a b = Ret true → lt_Address b c = Ret true → lt_Address a c = Ret true) ∧
  ((lt_Address a b = Ret true ∧ eq_Address a b = Ret false ∧ lt_Address b a = Ret false) ∨
   (lt_Address a b = Ret false ∧ eq_Address a b = Ret true ∧ lt_Address b a = Ret false) ∨
   (lt_Address a b = Ret false ∧ eq_Address a b = Ret false ∧ lt_Address b a = Ret true)).
Proof.
  intros Ha Hb Hc.
  destruct (lt_Address_lex a a Ha Ha) as (raa & -> & Haa).
  destruct (lt_Address_lex a b Ha Hb) as (rab & -> & Hab).
  destruct (lt_Address_lex b a Hb Ha) as (rba & -> & Hba).
  destruct (lt_Address_lex b c Hb Hc) as (rbc & -> & Hbc).
  destruct (lt_Address_lex a c Ha Hc) as (rac & -> & Hac).
  destruct (eq_Address_key a b Ha Hb) as (re & -> & He).
  pose proof (lex_irrefl (key a)) as Hi. pose proof (lex_irrefl (key b)) as Hi'.
  pose proof (lex_trans (key a) (key b) (key a)) as Ht.
  pose proof (lex_trans (key a) (key b) (key c)) as Ht'.
  split; [|split].
  - destruct raa; [|done]. by destruct Hi; apply Haa.
  - intros [= ->] [= ->]. f_equal. apply Hac, Ht'; [by apply Hab|by apply Hbc].
  - destruct (lex_total (key a) (key b)) as [H|[H|H]].
    + left. rewrite (proj2 Hab H), (bool_false re), (bool_false rba); [done|..].
      * intros E%Hba. by apply Hi, Ht.
      * intros E%He. by rewrite E in H.
    + right; left. rewrite (proj2 He H), (bool_false rab), (bool_false rba); [done|..].
      * intros E%Hba. by rewrite H in E.
      * intros E%Hab. by rewrite H in E.
    + right; right. rewrite (proj2 Hba H), (bool_false re), (bool_false rab); [done|..].
      * intros E%Hab. by apply Hi, Ht.
      * intros E%He. by rewrite E in H.
Qed.

Lemma address_order_witness :
  let a := IPv4Address (IPv4Address_new 1 80) in let b := IPv6Address IPv6Address_new in
  addr_ok a ∧ addr_ok b ∧ lt_Address a a = Ret false.
Proof.
  intros a b. assert (Ha : addr_ok a) by (by vm_compute). assert (Hb : addr_ok b) by (by vm_compute).
  split; [exact Ha|]. split; [exact Hb|]. apply (address_order a b a Ha Hb Ha).
Defined.

(** ** The host text of a lookup *)

Lemma memchr_app c s t : c ∉ s → memchr c (s ++ c :: t) = Some (c :: t).
Proof.
  unfold memchr. induction s as [|x s IH]; intros Hs; cbn [app drop_while].
  - by rewrite Ascii.eqb_refl.
  - apply not_elem_of_cons in Hs as [Hne Hs].
    rewrite (proj2 (Ascii.eqb_neq x c)) by done. by apply IH.
Qed.

Lemma memchr_None c s : c ∉ s → memchr c s = None.
Proof.
  unfold memchr. induction s as [|x s IH]; intros Hs; cbn [drop_while]; [done|].
  apply not_elem_of_cons in Hs as [Hne Hs].
  rewrite (proj2 (Ascii.eqb_neq x c)) by done. by apply IH.
Qed.

Lemma memchr_in c s : c ∈ s → null (memchr c s) = false.
Proof.
  unfold memchr. induction 1 as [t|y t Hin IH]; cbn [drop_while].
  - by rewrite Ascii.eqb_refl.
  - by destruct (negb _).
Qed.

Lemma take_before (s t : str) c : take (length (s ++ c :: t) - S (length t)) (s ++ c :: t) = s.
Proof.
  rewrite length_app. cbn [length].
  replace (_ + _ - _)%nat with (length s) by lia. by rewrite take_app_length.
Qed.

(** Without an opening bracket only the colons are looked at. *)
Lemma Lookup_split_unbracketed host : head host ≠ Some "["%char →
  Lookup_split host =
    match memchr ":" host with
    | Some (c :: after) =>
        if null (memchr ":" after)
        then let n := take (length host - S (length after)) host in
             (if bool_decide (n = []) then host else n, Some after)
        else (host, Some (c :: after))
    | _ => (host, None)
    end.
Proof.
  intros Hh. unfold Lookup_split.
  assert (∀ A (x : str → A) (y : A), match host with "["%char :: rest => x rest | _ => y end = y) as ->.
  { intros A x y. destruct host as [|[[] [] [] [] [] [] [] []] t]; done. }
  cbn. destruct (memchr ":" host) as [[|c t]|]; cbn; try done. by destruct (null _).
Qed.

(** Which node and service [Address::Lookup] asks [getaddrinfo] for.
    A bracketed host with a port, [h:port] and a plain name are split as they
    read; of a bare IPv6 address (two colons or more, no brackets) the node is
    the whole text, but the service is not left out: it is the rest of the text
    from its first colon on. *)
Theorem Lookup_split_forms (h p a b : str) :
  h ≠ [] → head h ≠ Some "["%char → head a ≠ Some "["%char →
  "]"%char ∉ h → ":"%char ∉ p → ":"%char ∉ a → ":"%char ∈ b →
  Lookup_split ("["%char :: h ++ "]"%char :: ":"%char :: p) = (h, Some p) ∧
  (":"%char ∉ h → Lookup_split (h ++ ":"%char :: p) = (h, Some p) ∧ Lookup_split h = (h, None)) ∧
  Lookup_split (a ++ ":"%char :: b) = (a ++ ":"%char :: b, Some (":"%char :: b)).
Proof.
  intros Hne Hh Ha Hb Hp Hca Hcb. split; [|split; [intros Hch; split|]].
  - unfold Lookup_split. rewrite memchr_app, take_before by done. by rewrite !bool_decide_false by done.
  - rewrite Lookup_split_unbracketed by (by destruct h).
    rewrite memchr_app, (memchr_None _ p), take_before by done. cbn. by rewrite bool_decide_false by done.
  - rewrite Lookup_split_unbracketed by done. by rewrite memchr_None by done.
  - rewrite Lookup_split_unbracketed by (by destruct a).
    rewrite memchr_app by done. by rewrite memchr_in by done.
Qed.

Lemma Lookup_split_forms_witness :
  Lookup_split ($"[::1]:80") = ($"::1", Some ($"80")) ∧
  Lookup_split ($"fe80::1") = ($"fe80::1", Some ($"::1")).
Proof.
  assert (∀ x y z w, x = ($"::1") → y = ($"80") → z = ($"fe80") → w = ($":1") →
    x ≠ [] ∧ head x ≠ Some "["%char ∧ head z ≠ Some "["%char ∧
    "]"%char ∉ x ∧ ":"%char ∉ y ∧ ":"%char ∉ z ∧ ":"%char ∈ w) as H.
  { intros x y z w -> -> -> ->. split_and!; try done; vm_compute; set_solver. }
  destruct (H _ _ _ _ eq_refl eq_refl eq_refl eq_refl) as (H1 & H2 & H3 & H4 & H5 & H6 & H7).
  destruct (Lookup_split_forms ($"::1") ($"80") ($"fe80") ($":1") H1 H2 H3 H4 H5 H6 H7) as (A & _ & B).
  split; [exact A|exact B].
Defined.
