(* ===== verification/Hook.v ===== *)
(** * The hooked system calls: hook.cpp

    A hooked call runs on a fiber and suspends it while it waits, so it is a
    process: [pc] is the point it has reached, one definition runs it from each
    point to the next, and between two points the rest of the program runs.  It
    works on the descriptor contexts, timers and event contexts of the
    components it calls.  The results of the original system calls, the
    readings of the clock and the addresses of new objects are arguments. *)
From S2P Require Import Prelude StdSet Timer FdManager IOManager.

Definition EINTR : Z := 4.
Definition EBADF : Z := 9.
Definition EAGAIN : Z := 11.
Definition ETIMEDOUT : Z := 110.
Definition EINPROGRESS : Z := 115.

(** The functions this file hands to timers: the lambda of [do_io] and
    [connect_with_timeout], and [std::bind(&IOManager::schedule, iom, fiber, -1)]. *)
Inductive timer_fn : Type :=
  | CancelWait (info fd event : Z)
  | Schedule (fiber : Z).

(** [infos]: the [timer_info] objects alive, by address, each being its
    [cancelled].  The manager of the current thread is a [TimerManager] and an
    event manager at once. *)
Record world : Type := mkWorld {
  fds : FdManager;
  timers : TimerManager timer_fn Z;
  iom : IOManager Z timer_fn;
  infos : gmap Z Z }.

Definition with_fds (f : FdManager) (w : world) : world := mkWorld f (timers w) (iom w) (infos w).
Definition with_timers (t : TimerManager timer_fn Z) (w : world) : world :=
  mkWorld (fds w) t (iom w) (infos w).
Definition with_iom (m : IOManager Z timer_fn) (w : world) : world :=
  mkWorld (fds w) (timers w) m (infos w).
Definition with_infos (i : gmap Z Z) (w : world) : world :=
  mkWorld (fds w) (timers w) (iom w) i.

(** [FdMgr::GetInstance()->get(fd)]: without [auto_create], only its first part
    runs. *)
Definition get_ctx (fd : Z) (w : world) : outcome (option FdCtx) :=
  r ← get_read fd false (fds w);
  match r with
  | Got (Some p) => match FdManager.ctxs_ (fds w) !! p with Some c => Ret (Some c) | None => Undefined end
  | _ => Ret None
  end.

(** What the program may still do for this call: run the original function
    without any hook, run it within the hook, register the wait, stay suspended,
    ask for [SO_ERROR] (connect only); or it has returned, with this [errno]. *)
Inductive pc : Type :=
  | Direct
  | Calling (timeout_ms info : Z)
  | Arming (timeout_ms info : Z)
  | Holding (timeout_ms info : Z) (timer : option Z)
  | Asking
  | Finished (n err : Z).

(** [if(timer) timer->cancel();] *)
Definition cancel_timer (timer : option Z) (w : world) : outcome world :=
  match timer with
  | None => Ret w
  | Some p => '(t, _) ← Timer.cancel p (timers w); Ret (with_timers t w)
  end.

(** The local [tinfo] goes out of scope. *)
Definition leave (info n err : Z) (w : world) : pc * world :=
  (Finished n err, with_infos (delete info (infos w)) w).

Section DoIo.
(** [fd], [event], [timeout_so]: the arguments of [do_io]; [has_iom]: whether
    [IOManager::GetThis()] is not null on this thread; [cur_s]: the scheduler
    of the thread; [cur_f]: the running fiber and whether it is in state EXEC. *)
Context (fd event timeout_so : Z) (has_iom : bool) (cur_s : option Z) (cur_f : Z * bool).

(** [do_io] up to its label [retry]; [info] is the address of the new
    [timer_info]. *)
Definition do_io_enter (t_hook_enable : bool) (info : Z) (w : world) : outcome (pc * world) :=
  if negb t_hook_enable then Ret (Direct, w)
  else
    o ← get_ctx fd w;
    match o with
    | None => Ret (Direct, w)
    | Some c =>
        if isClosed_ c then Ret (Finished (-1) EBADF, w)
        else if negb (isSocket_ c) || userNonblock_ c then Ret (Direct, w)
        else Ret (Calling (getTimeout timeout_so c) info, with_infos (<[info := 0]> (infos w)) w)
    end.

(** The original function came back with [n] and [errno] [err]. *)
Definition do_io_called (n err to info : Z) (w : world) : pc * world :=
  if (n =? -1) && (err =? EINTR) then (Calling to info, w)
  else if (n =? -1) && (err =? EAGAIN) then (Arming to info, w)
  else leave info n err w.

(** The part [do_io] and [connect_with_timeout] share: arm the timer (its new
    object at [p], the clock reading [now]), then add the event.  [rt]: what
    [epoll_ctl] answers. *)
Definition arm (now p rt to info : Z) (w : world) : outcome (world * option Z * Z) :=
  if negb has_iom then Undefined
  else
    let '(t, timer) :=
      if negb (to =? u64_max)
      then ((addConditionTimer now p to (Some (CancelWait info fd event)) info false (timers w)).1,
            Some p)
      else (timers w, None) in
    '(m, r) ← addEvent rt cur_s cur_f fd event None (iom w);
    Ret (with_timers t (with_iom m w), timer, r).

(** From [EAGAIN] to [YieldToHold], or to the [return -1] after a failed
    [addEvent]; [err]: the [errno] at that point. *)
Definition do_io_arm (now p rt err to info : Z) (w : world) : outcome (pc * world) :=
  '(w1, timer, r) ← arm now p rt to info w;
  if negb (r =? 0) then w2 ← cancel_timer timer w1; Ret (leave info (-1) err w2)
  else Ret (Holding to info timer, w1).

(** From the return of [YieldToHold] to the next call or the return;
    [again]: where an undisturbed call goes on. *)
Definition wake (again : pc) (info : Z) (timer : option Z) (w : world) : outcome (pc * world) :=
  w1 ← cancel_timer timer w;
  match infos w1 !! info with
  | None => Undefined
  | Some c => if negb (c =? 0) then Ret (leave info (-1) c w1) else Ret (again, w1)
  end.

Definition do_io_wake (to info : Z) (timer : option Z) (w : world) : outcome (pc * world) :=
  wake (Calling to info) info timer w.
End DoIo.

(** A function a timer runs; the list holds the [schedule] calls. *)
Definition run_timer_fn (this rt : Z) (f : timer_fn) (w : world) :
    outcome (world * list (Z * task timer_fn)) :=
  match f with
  | CancelWait info fd event =>
      match infos w !! info with
      | None => Ret (w, [])
      | Some c =>
          if negb (c =? 0) then Ret (w, [])
          else
            '(m, _, l) ← cancelEvent rt fd event (iom w);
            Ret (with_infos (<[info := ETIMEDOUT]> (infos w)) (with_iom m w), l)
      end
  | Schedule f => Ret (w, [(this, TFiber (Some f))])
  end.

(** A callback that [listExpiredCb] took: the weak pointers that lock are those
    of the [timer_info] objects alive. *)
Definition run_expired (this rt : Z) (c : callback timer_fn Z) (w : world) :
    outcome (world * list (Z * task timer_fn)) :=
  match run_callback (λ i, bool_decide (is_Some (infos w !! i))) c with
  | [Some f] => run_timer_fn this rt f w
  | [] => Ret (w, [])
  | _ => Throw ($"bad_function_call")
  end.

(** ** connect *)
Section Connect.
Context (fd : Z) (has_iom : bool) (cur_s : option Z) (cur_f : Z * bool).

(** [connect_with_timeout] up to the first [connect_f]; [Calling] stands
    before it, and the [timer_info] is made at [info] only after it. *)
Definition connect_enter (t_hook_enable : bool) (timeout_ms info : Z) (w : world) : outcome pc :=
  if negb t_hook_enable then Ret Direct
  else
    o ← get_ctx fd w;
    match o with
    | None => Ret (Finished (-1) EBADF)
    | Some c =>
        if isClosed_ c then Ret (Finished (-1) EBADF)
        else if negb (isSocket_ c) then Ret Direct
        else if userNonblock_ c then Ret Direct
        else Ret (Calling timeout_ms info)
    end.

(** [connect_f] came back. *)
Definition connect_called (n err to info : Z) (w : world) : pc * world :=
  if n =? 0 then (Finished 0 err, w)
  else if negb (n =? -1) || negb (err =? EINPROGRESS) then (Finished n err, w)
  else (Arming to info, with_infos (<[info := 0]> (infos w)) w).

Definition connect_arm (now p rt to info : Z) (w : world) : outcome (pc * world) :=
  '(w1, timer, r) ← arm fd WRITE has_iom cur_s cur_f now p rt to info w;
  if r =? 0 then Ret (Holding to info timer, w1)
  else w2 ← cancel_timer timer w1; Ret (Asking, w2).

Definition connect_wake (info : Z) (timer : option Z) (w : world) : outcome (pc * world) :=
  wake Asking info timer w.

(** [getsockopt(SO_ERROR)] returned [rt] with [error] stored and [errno]
    [err]. *)
Definition connect_finish (rt error err info : Z) (w : world) : pc * world :=
  if rt =? -1 then leave info (-1) err w
  else if error =? 0 then leave info 0 err w
  else leave info (-1) error w.
End Connect.

(** [connect]: the timeout is the configured one, converted to 64 bits. *)
Definition connect_timeout (g_tcp_connect_timeout : Z) : Z := u64 g_tcp_connect_timeout.

(** ** The sleeping calls *)

(** The milliseconds each call hands to [addTimer]. *)
Definition sleep_ms (seconds : Z) : Z := u32 (seconds * 1000).
Definition usleep_ms (usec : Z) : Z := usec / 1000.
(** [int timeout_ms = req->tv_sec * 1000 + req->tv_nsec / 1000 / 1000;]
    computed in 64-bit [long], whose overflow is undefined. *)
Definition nanosleep_ms (tv_sec tv_nsec : Z) : outcome Z :=
  let ms := tv_sec * 1000 + Z.quot (Z.quot tv_nsec 1000) 1000 in
  if (ms <? - 2 ^ 63) || (2 ^ 63 <=? ms) || (tv_sec * 1000 <? - 2 ^ 63) || (2 ^ 63 <=? tv_sec * 1000)
  then Undefined else Ret (u64 (i32 ms)).

(** The part they share: the timer that will schedule the fiber again, the
    clock reading [now], the new timer at [p]. *)
Definition sleep_arm (now p ms fiber : Z) (has_iom : bool) (w : world) : outcome world :=
  if negb has_iom then Undefined
  else Ret (with_timers (addTimer now p ms (Some (Fun (Schedule fiber))) false (timers w)).1 w).

Definition sleep (t_hook_enable : bool) (seconds now p fiber : Z) (has_iom : bool) (w : world) :
    outcome (option world) :=
  if negb t_hook_enable then Ret None
  else w' ← sleep_arm now p (sleep_ms seconds) fiber has_iom w; Ret (Some w').

Definition usleep (t_hook_enable : bool) (usec now p fiber : Z) (has_iom : bool) (w : world) :
    outcome (option world) :=
  if negb t_hook_enable then Ret None
  else w' ← sleep_arm now p (usleep_ms usec) fiber has_iom w; Ret (Some w').

Definition nanosleep (t_hook_enable : bool) (tv_sec tv_nsec now p fiber : Z) (has_iom : bool)
    (w : world) : outcome (option world) :=
  if negb t_hook_enable then Ret None
  else
    ms ← nanosleep_ms tv_sec tv_nsec;
    w' ← sleep_arm now p ms fiber has_iom w; Ret (Some w').

(** ** The reading and writing calls: the event and the timeout each hands to
    [do_io] *)
Inductive io_fun : Type :=
  | Accept | Read | Readv | Recv | Recvfrom | Recvmsg
  | Write | Writev | Send | Sendto | Sendmsg.

Definition io_event (f : io_fun) : Z :=
  match f with
  | Accept | Read | Readv | Recv | Recvfrom | Recvmsg => IOManager.READ
  | Write | Writev | Send | Sendto | Sendmsg => IOManager.WRITE
  end.
Definition io_timeout (f : io_fun) : Z :=
  match f with
  | Accept | Read | Readv | Recv | Recvfrom | Recvmsg => SO_RCVTIMEO
  | Write | Writev | Send | Sendto | Sendmsg => SO_SNDTIMEO
  end.

(** ** The calls that keep the descriptor contexts *)

(** <fcntl.h>, <sys/ioctl.h> and <sys/socket.h>. *)
Definition F_GETFL : Z := 3.
Definition F_SETFL : Z := 4.
Definition FIONBIO : Z := 21537.
Definition SOL_SOCKET : Z := 1.

(** The commands whose argument [fcntl] passes on (F_DUPFD, F_SETFD, F_GETLK,
    F_SETLK, F_SETLKW, F_SETOWN, F_SETSIG, F_SETOWN_EX, F_GETOWN_EX, F_SETLEASE,
    F_NOTIFY, F_DUPFD_CLOEXEC, F_SETPIPE_SZ). *)
Definition fcntl_with_arg : list Z := [0; 2; 5; 6; 7; 8; 10; 15; 16; 1024; 1026; 1030; 1031].

(** The C library below the hooks: the calls this file makes on a descriptor.
    An absent argument is an omitted one. *)
Class Libc (K : Type) : Type := {
  fcntl_f : Z → Z → option Z → K → K * Z;
  ioctl_f : Z → Z → Z → K → K * Z;
  setsockopt_f : Z → Z → Z → Z * Z → K → K * Z;
  socket_f : K → K * Z;
  close_f : Z → K → K * Z;
  fstat_f : K → Z → option bool }.

Section Contexts.
Context {K : Type} `{Libc K}.

Definition state : Type := world * K.

(** [FdCtx::setUserNonblock] and the like on the context of [fd]. *)
Definition update_ctx (fd : Z) (f : FdCtx → FdCtx) (w : world) : world :=
  match ctx_of (fds w) fd with
  | Some p => with_fds (mkFdM (alter f p (FdManager.ctxs_ (fds w))) (datas_ (fds w))) w
  | None => w
  end.

(** [FdMgr::GetInstance()->get(fd, true)]; the [F_SETFL] of the new context
    reaches the kernel. *)
Definition create_ctx (fd p : Z) (s : state) : outcome state :=
  let '(w, k) := s in
  '(m, _, calls) ← FdManager.get (fstat_f k) (λ fd, (fcntl_f fd F_GETFL (Some 0) k).2) fd true p (fds w);
  Ret (with_fds m w, foldl (λ k c, (fcntl_f c.1 F_SETFL (Some c.2) k).1) k calls).

Definition socket (t_hook_enable : bool) (p : Z) (s : state) : outcome (state * Z) :=
  let '(w, k) := s in
  let '(k1, fd) := socket_f k in
  if negb t_hook_enable then Ret ((w, k1), fd)
  else if fd =? -1 then Ret ((w, k1), fd)
  else s' ← create_ctx fd p (w, k1); Ret (s', fd).

(** [accept] after its [do_io] came back with [fd]. *)
Definition accept_done (fd p : Z) (s : state) : outcome state :=
  if 0 <=? fd then create_ctx fd p s else Ret s.

(** [close]; [rt]: what the [epoll_ctl] of [cancelAll] answers; the list holds
    its [schedule] calls. *)
Definition close (t_hook_enable has_iom : bool) (fd rt : Z) (s : state) :
    outcome (state * Z * list (Z * task timer_fn)) :=
  let '(w, k) := s in
  if negb t_hook_enable then let '(k1, r) := close_f fd k in Ret ((w, k1), r, [])
  else
    o ← get_ctx fd w;
    '(w1, l) ← match o with
               | None => Ret (w, [])
               | Some _ =>
                   '(w1, l) ← (if has_iom : bool
                               then '(m, _, l) ← cancelAll rt fd (iom w); Ret (with_iom m w, l)
                               else Ret (w, []));
                   f ← FdManager.del fd (fds w1);
                   Ret (with_fds f w1, l)
               end;
    let '(k1, r) := close_f fd k in Ret ((w1, k1), r, l).

(** The test [!ctx || ctx->isClose() || !ctx->isSocket()]. *)
Definition unhooked (o : option FdCtx) : bool :=
  match o with None => true | Some c => isClosed_ c || negb (isSocket_ c) end.

Definition fcntl (fd cmd arg : Z) (s : state) : outcome (state * Z) :=
  let '(w, k) := s in
  if cmd =? F_SETFL then
    o ← get_ctx fd w;
    match o with
    | Some c =>
        if unhooked (Some c) then let '(k1, r) := fcntl_f fd cmd (Some arg) k in Ret ((w, k1), r)
        else
          let w1 := update_ctx fd (setUserNonblock (negb (Z.land arg O_NONBLOCK =? 0))) w in
          let arg1 := if sysNonblock_ c then Z.lor arg O_NONBLOCK
                      else Z.land arg (Z.lnot O_NONBLOCK) in
          let '(k1, r) := fcntl_f fd cmd (Some arg1) k in Ret ((w1, k1), r)
    | None => let '(k1, r) := fcntl_f fd cmd (Some arg) k in Ret ((w, k1), r)
    end
  else if cmd =? F_GETFL then
    let '(k1, r) := fcntl_f fd cmd None k in
    o ← get_ctx fd w;
    match o with
    | Some c =>
        if unhooked (Some c) then Ret ((w, k1), r)
        else if userNonblock_ c then Ret ((w, k1), Z.lor r O_NONBLOCK)
        else Ret ((w, k1), Z.land r (Z.lnot O_NONBLOCK))
    | None => Ret ((w, k1), r)
    end
  else
    let '(k1, r) := fcntl_f fd cmd (if bool_decide (cmd ∈ fcntl_with_arg) then Some arg else None) k in
    Ret ((w, k1), r).

(** [ioctl]; [arg]: for [FIONBIO] the [int] the pointer refers to. *)
Definition ioctl (d request arg : Z) (s : state) : outcome (state * Z) :=
  let '(w, k) := s in
  if FIONBIO =? request then
    let user_nonblock := negb (arg =? 0) in
    o ← get_ctx d w;
    let w1 := if unhooked o then w else update_ctx d (setUserNonblock user_nonblock) w in
    let '(k1, r) := ioctl_f d request arg k in Ret ((w1, k1), r)
  else let '(k1, r) := ioctl_f d request arg k in Ret ((w, k1), r).

(** [setsockopt] with a [timeval] of seconds and microseconds as the value. *)
Definition setsockopt (t_hook_enable : bool) (sockfd level optname : Z) (v : Z * Z) (s : state) :
    outcome (state * Z) :=
  let '(w, k) := s in
  w1 ← (if negb t_hook_enable then Ret w
        else if (level =? SOL_SOCKET) && ((optname =? SO_RCVTIMEO) || (optname =? SO_SNDTIMEO))
        then
          o ← get_ctx sockfd w;
          Ret (if null o then w
               else update_ctx sockfd (setTimeout optname (u64 (v.1 * 1000 + Z.quot v.2 1000))) w)
        else Ret w);
  let '(k1, r) := setsockopt_f sockfd level optname v k in
  Ret ((w1, k1), r).

(** [getsockopt] passes its arguments on; the answer is the value, if any. *)
Definition getsockopt {V} (getsockopt_f : Z → Z → Z → K → option V) (sockfd level optname : Z) (s : state) : option V :=
  getsockopt_f sockfd level optname s.2.
End Contexts.

(** ** What the calls do to the timer objects *)

(** A timer object that exists keeps existing. *)
Definition keeps {F W} (s s' : TimerManager F W) : Prop :=
  ∀ p, is_Some (heap_ s !! p) → is_Some (heap_ s' !! p).

Lemma insert_is_Some {A} (m : gmap Z A) p q x : is_Some (m !! q) → is_Some (<[p := x]> m !! q).
Proof.
  intros. destruct (decide (p = q)) as [->|]; [by rewrite lookup_insert_eq|by rewrite lookup_insert_ne].
Qed.

Lemma addTimer_keeps {F W} now p ms cb r (s : TimerManager F W) : keeps s (addTimer now p ms cb r s).1.
Proof.
  intros q Hq. unfold addTimer, addTimer_locked. destruct (set_insert _ _ _); cbn. by apply insert_is_Some.
Qed.

Lemma addTimer_new {F W} now p ms cb r (s : TimerManager F W) :
  is_Some (heap_ (addTimer now p ms cb r s).1 !! p).
Proof. unfold addTimer, addTimer_locked. destruct (set_insert _ _ _); cbn. by rewrite lookup_insert_eq. Qed.

Lemma cancel_keeps {F W} p (s s' : TimerManager F W) b : Timer.cancel p s = Ret (s', b) → keeps s s'.
Proof.
  intros H q Hq. unfold Timer.cancel in H. repeat case_step_in H; try discriminate H;
    injection H as <- _; cbn; auto using insert_is_Some.
Qed.

Lemma fire_keeps {F W} now l (h : gmap Z (Timer F W)) r cbs h' l' cbs' p :
  fire now l h r cbs = (h', l', cbs') → is_Some (h !! p) → is_Some (h' !! p).
Proof.
  revert h r cbs. induction l as [|x l IH]; intros h r cbs H Hp; cbn in H; [by injection H as <- <- <-|].
  repeat case_step_in H; (eapply IH; [exact H|]); auto using insert_is_Some.
Qed.

Lemma listExpiredCb_keeps {F W} now q (s s' : TimerManager F W) cbs cbs' :
  listExpiredCb now q s cbs = (s', cbs') → keeps s s'.
Proof.
  intros H p Hp. unfold listExpiredCb in H. destruct (timers_ s); [by injection H as <- _|].
  destruct (detectClockRollover _ _) as [roll prev]. destruct (_ && _); [by injection H as <- _|].
  destruct (fire _ _ _ _ _) as [[h' l'] c] eqn:E. injection H as <- _. cbn. eauto using fire_keeps.
Qed.

(** Cancelling an existing timer always comes back, and leaves it not pending. *)
Lemma cancel_ok {F W} p (s : TimerManager F W) :
  tm_wf s → is_Some (heap_ s !! p) →
  ∃ s' b, Timer.cancel p s = Ret (s', b) ∧ tm_wf s' ∧ pending s' = delete p (pending s).
Proof.
  intros Hwf [t Ht]. destruct (pending s !! p) as [t'|] eqn:Hp.
  - destruct (cancel_live s p t' Hwf Hp) as (s' & ? & ? & ?); eauto.
  - exists s, false. rewrite (cancel_dead s p t Ht) by (by apply (not_pending s p)).
    by rewrite delete_id.
Qed.

(** A non-zero answer of [addEvent] is a failed [epoll_ctl]. *)
Lemma addEvent_failed {S C} rt (cs : option S) cf fd ev (k : option C) m m' r :
  addEvent rt cs cf fd ev k m = Ret (m', r) → r ≠ 0 → rt ≠ 0.
Proof.
  intros H Hr ->. destruct Hr.
  assert (Hl : ∀ p m m' r, addEvent_locked 0 cs cf fd p ev k m = Ret (m', r) → r = 0).
  { clear. intros p m m' r H. unfold addEvent_locked in H. cbn [Z.eqb negb] in H.
    apply bind_Ret in H as (c & _ & H). apply bind_Ret in H as (u & _ & H).
    apply bind_Ret in H as (w & _ & H). apply bind_Ret in H as (u' & _ & H).
    destruct k; [by injection H|]. apply bind_Ret in H as (u'' & _ & H). by injection H. }
  unfold addEvent in H. apply bind_Ret in H as ([p|] & _ & H); [by eapply Hl|].
  apply bind_Ret in H as ([m1 p] & _ & H). by eapply Hl.
Qed.

(** ** do_io in a running program

    The call, the timers, the callbacks taken by the event loop ([taken], with
    the time of the scan) and everything else take steps in any order. *)
Inductive label : Type :=
  | LCall (n err : Z)
  | LArm (now p rt err : Z)
  | LWake
  | LExpire (now : Z)
  | LRun (t : Z)
  | LOther.

Record sys : Type := mkSys { point : pc; here : world; taken : list (Z * callback timer_fn Z) }.

(** Can this callback reach the [timer_info] at [info]? *)
Definition owned (info : Z) (c : option (callback timer_fn Z)) : Prop :=
  match c with
  | Some (OnTimer i f) => i = info ∨ ∃ fd ev, f = Some (CancelWait info fd ev)
  | Some (Fun (CancelWait i _ _)) => i = info
  | _ => False
  end.

(** What the rest of the program may do: it keeps the timers well-formed, frees
    no timer object that is still referenced, and touches neither the local
    [timer_info] of the call nor its timers. *)
Definition other (info : Z) (w w' : world) : Prop :=
  tm_wf (timers w') ∧
  keeps (timers w) (timers w') ∧
  infos w' !! info = infos w !! info ∧
  (∀ p t, owned info (cb_ t) → pending (timers w') !! p = Some t ↔ pending (timers w) !! p = Some t).

Section System.
Context (fd event : Z) (has_iom : bool) (cur_s : option Z) (cur_f : Z * bool) (info : Z).

(** A scan of the timers happens when the clock has not been set back. *)
Inductive step : label → sys → sys → Prop :=
  | step_call n err to i w l pc' w' :
      do_io_called n err to i w = (pc', w') →
      step (LCall n err) (mkSys (Calling to i) w l) (mkSys pc' w' l)
  | step_arm now p rt err to i w l pc' w' :
      0 < p → heap_ (timers w) !! p = None →
      do_io_arm fd event has_iom cur_s cur_f now p rt err to i w = Ret (pc', w') →
      step (LArm now p rt err) (mkSys (Arming to i) w l) (mkSys pc' w' l)
  | step_wake to i timer w l pc' w' :
      do_io_wake to i timer w = Ret (pc', w') →
      step LWake (mkSys (Holding to i timer) w l) (mkSys pc' w' l)
  | step_expire now q pc w l t cbs :
      previouseTime_ (timers w) ≤ now → 0 < q → heap_ (timers w) !! q = None →
      listExpiredCb now q (timers w) [] = (t, cbs) →
      step (LExpire now) (mkSys pc w l)
           (mkSys pc (with_timers t w) (l ++ ((λ c, (now, c)) <$> omap id cbs)))
  | step_run this rt t c pc w w' l1 l2 ks :
      run_expired this rt c w = Ret (w', ks) →
      step (LRun t) (mkSys pc w (l1 ++ (t, c) :: l2)) (mkSys pc w' (l1 ++ l2))
  | step_other pc w w' l :
      other info w w' → step LOther (mkSys pc w l) (mkSys pc w' l).

Inductive steps : list label → sys → sys → Prop :=
  | steps_nil s : steps [] s s
  | steps_snoc tr lb s s1 s2 : steps tr s s1 → step lb s1 s2 → steps (tr ++ [lb]) s s2.

(** A result that makes [do_io] try again. *)
Definition retried (n err : Z) : Prop := n = -1 ∧ (err = EINTR ∨ err = EAGAIN).

(** A timer that an attempt of this call armed for [to] milliseconds was found
    due by a scan whose callbacks have run. *)
Definition timed_out (to : Z) (tr : list label) : Prop :=
  to ≠ u64_max ∧
  ∃ now p rt err t, LArm now p rt err ∈ tr ∧ LRun t ∈ tr ∧ u64 (now + to) ≤ t.

(** The three ways a hooked call ends. *)
Definition ended (to n err : Z) (tr : list label) : Prop :=
  (LCall n err ∈ tr ∧ ¬ retried n err) ∨
  (n = -1 ∧ err = ETIMEDOUT ∧ timed_out to tr) ∨
  (n = -1 ∧ ∃ now p rt, LArm now p rt err ∈ tr ∧ rt ≠ 0).
End System.

Section DoIoInvariant.
Context (fd event : Z) (has_iom : bool) (cur_s : option Z) (cur_f : Z * bool) (info to : Z).
Context (Hto : 0 ≤ to < 2 ^ 64).
Implicit Types (tr : list label) (w : world).

Definition cancel_wait : callback timer_fn Z := OnTimer info (Some (CancelWait info fd event)).

Definition timer_ok tr (c : pc) (p : Z) (t : Timer timer_fn Z) : Prop :=
  owned info (cb_ t) →
  recurring_ t = false ∧ cb_ t = Some cancel_wait ∧ c = Holding to info (Some p) ∧
  to ≠ u64_max ∧ ∃ now rt err, LArm now p rt err ∈ tr ∧ next_ t = u64 (now + to).

Definition taken_ok tr (x : Z * callback timer_fn Z) : Prop :=
  owned info (Some x.2) →
  to ≠ u64_max ∧ ∃ now p rt err, LArm now p rt err ∈ tr ∧ u64 (now + to) ≤ x.1.

Definition alive tr w : Prop :=
  (∀ n err, LCall n err ∈ tr → retried n err) ∧
  ∃ c, infos w !! info = Some c ∧ (c = 0 ∨ c = ETIMEDOUT ∧ timed_out to tr).

Definition point_ok tr (c : pc) w : Prop :=
  match c with
  | Calling to' i | Arming to' i => to' = to ∧ i = info ∧ alive tr w
  | Holding to' i timer =>
      to' = to ∧ i = info ∧ alive tr w ∧ ∀ p, timer = Some p → is_Some (heap_ (timers w) !! p)
  | Finished n err =>
      infos w !! info = None ∧ ended to n err tr ∧
      ∀ n' err', LCall n' err' ∈ tr → retried n' err' ∨ n' = n ∧ err' = err
  | _ => False
  end.

Record Inv tr (s : sys) : Prop := mk_inv {
  inv_wf : tm_wf (timers (here s));
  inv_pending : ∀ p t, pending (timers (here s)) !! p = Some t → timer_ok tr (point s) p t;
  inv_taken : ∀ x, x ∈ taken s → taken_ok tr x;
  inv_point : point_ok tr (point s) (here s) }.

(** The facts about a trace survive its growth. *)
Lemma in_snoc tr lb x : x ∈ tr → x ∈ tr ++ [lb].
Proof. intros. apply elem_of_app. auto. Qed.
Lemma in_last tr (lb : label) : lb ∈ tr ++ [lb].
Proof. apply elem_of_app. right. by left. Qed.
#[local] Hint Resolve in_snoc in_last : core.

Lemma timed_out_snoc tr lb : timed_out to tr → timed_out to (tr ++ [lb]).
Proof. intros (? & now & p & rt & err & t & ? & ? & ?). split; [done|]. eauto 10. Qed.
Lemma ended_snoc n err tr lb : ended to n err tr → ended to n err (tr ++ [lb]).
Proof.
  intros [[? ?]|[(? & ? & ?)|(? & now & p & rt & ? & ?)]]; [left; auto|right; left|right; right].
  - auto using timed_out_snoc.
  - split; [done|]. eauto 10.
Qed.
Lemma timer_ok_snoc tr lb c p t : timer_ok tr c p t → timer_ok (tr ++ [lb]) c p t.
Proof. intros H Ho. destruct (H Ho) as (? & ? & ? & ? & now & rt & err & ? & ?). eauto 20. Qed.
Lemma taken_ok_snoc tr lb x : taken_ok tr x → taken_ok (tr ++ [lb]) x.
Proof. intros H Ho. destruct (H Ho) as (? & now & p & rt & err & ? & ?). eauto 20. Qed.

Lemma call_in_snoc n err tr lb :
  LCall n err ∈ tr ++ [lb] → LCall n err ∈ tr ∨ lb = LCall n err.
Proof. intros [?|?%list_elem_of_singleton]%elem_of_app; auto. Qed.

Lemma alive_snoc tr lb w :
  (∀ n err, lb = LCall n err → retried n err) → alive tr w → alive (tr ++ [lb]) w.
Proof.
  intros Hl [Hc (c & Hi & Hcase)]. split.
  - intros n err [?| ->]%call_in_snoc; auto.
  - exists c. split; [done|]. destruct Hcase as [|[? ?]]; auto using timed_out_snoc.
Qed.

Lemma point_ok_snoc tr lb c w :
  (∀ n err, lb ≠ LCall n err) → point_ok tr c w → point_ok (tr ++ [lb]) c w.
Proof.
  intros Hl. assert (Ha : ∀ w, alive tr w → alive (tr ++ [lb]) w).
  { intros w'. apply alive_snoc. intros n err ->. by destruct (Hl n err). }
  destruct c; cbn; [done|intros (? & ? & ?); auto..|intros (? & ? & ? & ?); auto|done|].
  intros (? & ? & Hc). split_and!; auto using ended_snoc.
  intros n' err' [?| ->]%call_in_snoc; [auto|]. by destruct (Hl n' err').
Qed.

(** A step of the rest of the program, seen from the call. *)
Lemma point_ok_world tr lb c w w' :
  (∀ n err, lb ≠ LCall n err) →
  (alive tr w → alive (tr ++ [lb]) w') →
  (∀ p, is_Some (heap_ (timers w) !! p) → is_Some (heap_ (timers w') !! p)) →
  (infos w !! info = None → infos w' !! info = None) →
  point_ok tr c w → point_ok (tr ++ [lb]) c w'.
Proof.
  intros Hl Ha Hk Hi. destruct c; cbn; [done|intros (? & ? & ?); auto..| |done|].
  - intros (? & ? & ? & ?). split_and!; auto.
  - intros (? & ? & Hc). split_and!; auto using ended_snoc.
    intros n' err' [?| ->]%call_in_snoc; [auto|]. by destruct (Hl n' err').
Qed.

(** Without a [Holding] of the call none of its timers is pending. *)
Lemma no_timer tr c c' w :
  (∀ timer, c ≠ Holding to info timer) →
  (∀ p t, pending (timers w) !! p = Some t → timer_ok tr c p t) →
  ∀ tr' p t, pending (timers w) !! p = Some t → timer_ok tr' c' p t.
Proof. intros Hc Hp tr' p t Ht Ho. destruct (Hp p t Ht Ho) as (_ & _ & E & _). by destruct (Hc _ E). Qed.

(** *** The steps *)

Lemma leave_eq n err w : leave info n err w = (Finished n err, with_infos (delete info (infos w)) w).
Proof. done. Qed.

Lemma do_io_called_timers n err to' i w : timers (do_io_called n err to' i w).2 = timers w.
Proof. unfold do_io_called. by repeat case_step. Qed.

Lemma inv_call tr s s' n err :
  Inv tr s → step fd event has_iom cur_s cur_f info (LCall n err) s s' →
  Inv (tr ++ [LCall n err]) s'.
Proof.
  intros [Hwf Hp Ht Hpt] Hs. inversion Hs as [n0 err0 t0 i w l pc' w' E| | | | |]; subst. cbn in *.
  destruct Hpt as (-> & -> & [Hr (c & Hi & Hc)]).
  assert (Hw : timers w' = timers w) by (rewrite <-(do_io_called_timers n err to info w); by rewrite E).
  split; cbn; rewrite ?Hw; [done| | |].
  - eapply no_timer; [|done]. done.
  - intros x Hx. by apply taken_ok_snoc, Ht.
  - clear Hs Hw. unfold do_io_called in E.
    assert (Hgo : retried n err → alive (tr ++ [LCall n err]) w).
    { intros. apply alive_snoc; [by intros ?? [= <- <-]|]. split; [done|]. by exists c. }
    assert (Hiff : retried n err ↔ ((n =? -1) && (err =? EINTR) || (n =? -1) && (err =? EAGAIN)) = true)
      by (unfold retried; lia).
    destruct ((n =? -1) && (err =? EINTR)) eqn:E1; [|destruct ((n =? -1) && (err =? EAGAIN)) eqn:E2].
    + injection E as <- <-. cbn. split_and!; [done..|]. by apply Hgo, Hiff.
    + injection E as <- <-. cbn. split_and!; [done..|]. by apply Hgo, Hiff.
    + rewrite leave_eq in E. injection E as <- <-. cbn. rewrite lookup_delete_eq. split_and!; [done| |].
      * left. split; [apply in_last|]. by intros ?%Hiff.
      * intros n' err' [?|[= -> ->]]%call_in_snoc; auto.
Qed.

Lemma arm_spec now p rt w w1 timer r :
  tm_wf (timers w) → 0 < p → heap_ (timers w) !! p = None →
  arm fd event has_iom cur_s cur_f now p rt to info w = Ret (w1, timer, r) →
  tm_wf (timers w1) ∧ infos w1 = infos w ∧ keeps (timers w) (timers w1) ∧ (r ≠ 0 → rt ≠ 0) ∧
  ((timer = None ∧ pending (timers w1) = pending (timers w)) ∨
   (to ≠ u64_max ∧ timer = Some p ∧ is_Some (heap_ (timers w1) !! p) ∧
    pending (timers w1) = <[p := Timer_new now to (Some cancel_wait) false]> (pending (timers w)))).
Proof.
  intros Hwf Hp Hf H. unfold arm in H. destruct has_iom; [|done]. cbn [negb] in H.
  destruct (Z.eqb_spec to u64_max) as [E|E]; cbn [negb] in H;
    apply bind_Ret in H as ([m r'] & Hadd & H); injection H as <- <- <-;
    cbn [timers infos with_timers with_iom].
  - split_and!; try done; [intros ?; done|by eapply addEvent_failed|left; done].
  - destruct (addTimer_fresh (timers w) now p to cancel_wait false Hwf Hf Hp Hto)
      as (s' & front & Ha & Hw & Hpd & _).
    pose proof (addTimer_keeps now p to (Some cancel_wait) false (timers w)) as Hk.
    pose proof (addTimer_new now p to (Some cancel_wait) false (timers w)) as Hn.
    unfold addConditionTimer. fold cancel_wait. rewrite Ha in Hk, Hn |- *. cbn [fst] in *.
    split_and!; try done; [by eapply addEvent_failed|right; done].
Qed.

Lemma cancel_timer_ok timer w :
  tm_wf (timers w) → (∀ p, timer = Some p → is_Some (heap_ (timers w) !! p)) →
  ∃ w', cancel_timer timer w = Ret w' ∧ tm_wf (timers w') ∧ infos w' = infos w ∧ iom w' = iom w ∧
    pending (timers w') = match timer with Some p => delete p (pending (timers w)) | None => pending (timers w) end.
Proof.
  intros Hwf Ht. destruct timer as [p|]; cbn [cancel_timer]; [|by exists w].
  destruct (cancel_ok p (timers w) Hwf (Ht p eq_refl)) as (s & b & Hc & Hw & Hp).
  rewrite Hc. by exists (with_timers s w).
Qed.

(** Cancelling the timer of the current attempt leaves no timer of the call. *)
Lemma no_timer_cancelled tr timer c' (m : gmap Z (Timer timer_fn Z)) :
  (∀ p t, m !! p = Some t → timer_ok tr (Holding to info timer) p t) →
  ∀ tr' p t, match timer with Some q => delete q m | None => m end !! p = Some t → timer_ok tr' c' p t.
Proof.
  intros Hp tr' p t Ht Ho. destruct timer as [q|].
  - apply lookup_delete_Some in Ht as [Hne Ht]. destruct (Hp p t Ht Ho) as (_ & _ & [= ->] & _). done.
  - by destruct (Hp p t Ht Ho) as (_ & _ & [=] & _).
Qed.

Lemma timer_new_ok tr now p rt err (m : gmap Z (Timer timer_fn Z)) q t :
  (∀ p t, m !! p = Some t → owned info (cb_ t) → False) → to ≠ u64_max → LArm now p rt err ∈ tr →
  <[p := Timer_new now to (Some cancel_wait) false]> m !! q = Some t →
  timer_ok tr (Holding to info (Some p)) q t.
Proof.
  intros Hm Hmax Hin Hq Ho. destruct (decide (p = q)) as [<-|Hne].
  - rewrite lookup_insert_eq in Hq. injection Hq as <-. cbn. eauto 10.
  - rewrite lookup_insert_ne in Hq by done. by destruct (Hm q t).
Qed.

Lemma inv_arm tr s s' now p rt err :
  Inv tr s → step fd event has_iom cur_s cur_f info (LArm now p rt err) s s' →
  Inv (tr ++ [LArm now p rt err]) s'.
Proof.
  intros [Hwf Hp Ht Hpt] Hs. set (lb := LArm now p rt err) in *.
  inversion Hs as [|now' p' rt' err' to' i w l pc' w' Hp0 Hfr E| | | |]; subst. cbn in *.
  destruct Hpt as (-> & -> & Hal).
  apply bind_Ret in E as ([[w1 timer] r] & Harm & E).
  destruct (arm_spec now p rt w w1 timer r Hwf Hp0 Hfr Harm) as (Hwf1 & Hi1 & Hk & Hr & Hcase).
  assert (Hno : ∀ q t, pending (timers w) !! q = Some t → owned info (cb_ t) → False)
    by (intros q t Hq Ho; by destruct (Hp q t Hq Ho) as (_ & _ & [=] & _)).
  assert (Hal1 : ∀ w', infos w' = infos w → alive (tr ++ [lb]) w').
  { intros w2 Hw2. apply alive_snoc; [done|]. destruct Hal as [? (c & ? & ?)]. split; [done|].
    exists c. by rewrite Hw2. }
  assert (Hp1 : ∀ q t, pending (timers w1) !! q = Some t → timer_ok (tr ++ [lb]) (Holding to info timer) q t).
  { intros q t Hq. destruct Hcase as [[-> Hpd]|(Hmax & -> & _ & Hpd)]; rewrite Hpd in Hq.
    - intros Ho. by destruct (Hno q t).
    - eapply timer_new_ok; [exact Hno|done|apply in_last|exact Hq]. }
  assert (Hh : ∀ q, timer = Some q → is_Some (heap_ (timers w1) !! q)).
  { intros q ->. by destruct Hcase as [[[=] _]|(_ & [= ->] & ? & _)]. }
  destruct (Z.eqb_spec r 0) as [->|Hr0]; cbn [negb] in E.
  - injection E as <- <-. split; cbn; [done|done| |].
    + intros x Hx. by apply taken_ok_snoc, Ht.
    + split_and!; auto.
  - destruct (cancel_timer_ok timer w1 Hwf1 Hh) as (w2 & Hc & Hwf2 & Hi2 & _ & Hpd2).
    rewrite Hc in E. injection E as <- <-. split; cbn; [done| | |].
    + intros q t. rewrite Hpd2. eapply no_timer_cancelled, Hp1.
    + intros x Hx. by apply taken_ok_snoc, Ht.
    + rewrite lookup_delete_eq. split_and!; [done| |].
      * right; right. split; [done|]. exists now, p, rt. split; [apply in_last|auto].
      * intros n' err' [?|[=]]%call_in_snoc. destruct Hal. auto.
Qed.

Lemma inv_wake tr s s' :
  Inv tr s → step fd event has_iom cur_s cur_f info LWake s s' → Inv (tr ++ [LWake]) s'.
Proof.
  intros [Hwf Hp Ht Hpt] Hs. inversion Hs as [| |to' i timer w l pc' w' E| | |]; subst. cbn in *.
  destruct Hpt as (-> & -> & Hal & Hh).
  destruct (cancel_timer_ok timer w Hwf Hh) as (w1 & Hc & Hwf1 & Hi1 & _ & Hpd1).
  apply (alive_snoc tr LWake) in Hal as [Hr (c & Hc0 & Hcase)]; [|done].
  unfold do_io_wake, wake in E. rewrite Hc in E. cbn in E. rewrite Hi1, Hc0 in E.
  assert (Hp1 : ∀ c' q t, pending (timers w1) !! q = Some t → timer_ok (tr ++ [LWake]) c' q t).
  { intros c' q t. rewrite Hpd1. eapply no_timer_cancelled, Hp. }
  destruct (Z.eqb_spec c 0) as [->|Hne]; cbn in E.
  - injection E as <- <-. split; cbn; [done|auto| |].
    + intros x Hx. by apply taken_ok_snoc, Ht.
    + split_and!; [done..|]. split; [done|]. exists 0. rewrite Hi1. auto.
  - injection E as <- <-. split; cbn; [done|auto| |].
    + intros x Hx. by apply taken_ok_snoc, Ht.
    + destruct Hcase as [?|[-> Hto']]; [done|]. rewrite lookup_delete_eq. split_and!; auto.
      right; left. auto.
Qed.

(** What a scan takes from the timers of the call has reached its deadline. *)
Lemma expired_ok tr c now (tm : TimerManager timer_fn Z) k :
  tm_wf tm → (∀ p t, pending tm !! p = Some t → timer_ok tr c p t) →
  k ∈ omap id (due_callbacks (due false now) tm) → taken_ok tr (now, k).
Proof.
  intros Hwf Hp (o & Ho & Hk)%list_elem_of_omap. cbn in Hk. subst o.
  unfold due_callbacks in Ho. apply list_elem_of_In, in_map_iff in Ho as (p & Hcb & Hin).
  apply list_elem_of_In, list_elem_of_filter in Hin as [Hd _].
  destruct (heap_ tm !! p) as [t|] eqn:Eh; [|done]. cbn in Hcb, Hd. unfold due in Hd. cbn in Hd.
  intros Hown. cbn in Hown. destruct (Hp p t) as (_ & _ & _ & Hmax & n & rt & err & Hin & Hn).
  - apply pending_Some. split; [done|]. by rewrite Hcb.
  - by rewrite Hcb.
  - split; [done|]. exists n, p, rt, err. split; [done|]. cbn. lia.
Qed.

Lemma inv_expire tr s s' now :
  Inv tr s → step fd event has_iom cur_s cur_f info (LExpire now) s s' → Inv (tr ++ [LExpire now]) s'.
Proof.
  intros [Hwf Hp Ht Hpt] Hs.
  inversion Hs as [| | |now' q pc w l t cbs Hprev Hq Hqn E| |]; subst. cbn in *.
  destruct (listExpiredCb_refines now q (timers w) [] t cbs Hwf Hq Hqn E) as (Hwf' & Hpd & Hcbs).
  assert (Hroll : (detectClockRollover now (previouseTime_ (timers w))).1 = false)
    by (unfold detectClockRollover; cbn; lia).
  rewrite Hroll in Hpd, Hcbs. cbn in Hcbs. split; cbn; [done| | |].
  - intros p t'. rewrite Hpd. unfold expire_spec. rewrite lookup_omap.
    intros (t0 & Ht0 & Hcase)%bind_Some. apply timer_ok_snoc. intros Ho.
    destruct (due false now t0); [|injection Hcase as <-; by apply Hp].
    destruct (recurring_ t0) eqn:Er; [|done]. injection Hcase as <-.
    assert (Hcb : cb_ (Timer.fired now t0) = cb_ t0) by (unfold Timer.fired; by rewrite Er).
    rewrite Hcb in Ho. destruct (Hp p t0 Ht0 Ho) as (? & _). congruence.
  - intros x [Hx|Hx]%elem_of_app; [by apply taken_ok_snoc, Ht|].
    apply list_elem_of_fmap in Hx as (k & -> & Hk). apply taken_ok_snoc.
    rewrite Hcbs in Hk. exact (expired_ok tr pc now (timers w) k Hwf Hp Hk).
  - apply point_ok_snoc; [done|]. apply listExpiredCb_keeps in E.
    destruct pc; cbn in *; try done. destruct Hpt as (? & ? & ? & ?). split_and!; auto.
Qed.

(** Running a taken callback: only one of the call can touch its [timer_info]. *)
Lemma run_timer_fn_frame this rt f w w' ks :
  run_timer_fn this rt f w = Ret (w', ks) →
  timers w' = timers w ∧
  (infos w' = infos w ∨ ∃ i fd' ev, f = CancelWait i fd' ev ∧ infos w !! i = Some 0 ∧
                                    infos w' = <[i := ETIMEDOUT]> (infos w)).
Proof.
  destruct f as [i fd' ev|f]; cbn; [|intros [= <- _]; auto].
  destruct (infos w !! i) as [c|] eqn:Ei; [|intros [= <- _]; auto].
  destruct (Z.eqb_spec c 0) as [->|]; cbn; [|intros [= <- _]; auto].
  intros ([[m b] ks'] & _ & H)%bind_Ret. injection H as <- _. cbn. split; [done|]. right. eauto 10.
Qed.

Lemma run_expired_frame this rt c w w' ks :
  run_expired this rt c w = Ret (w', ks) →
  timers w' = timers w ∧
  (infos w' !! info = infos w !! info ∨
   owned info (Some c) ∧ infos w !! info = Some 0 ∧ infos w' !! info = Some ETIMEDOUT).
Proof.
  unfold run_expired. intros H.
  assert (w' = w ∨ ∃ f, (c = Fun f ∨ ∃ i, c = OnTimer i (Some f)) ∧ run_timer_fn this rt f w = Ret (w', ks))
    as [->|(f & Hc & Hr)]; [|auto|].
  { destruct c as [f|i [f|]]; cbn in H; [right; eauto| |].
    - case_bool_decide; [right; eauto|left; by injection H].
    - case_bool_decide; [done|left; by injection H]. }
  destruct (run_timer_fn_frame this rt f w w' ks Hr) as [? [->|(i & fd' & ev & -> & Hi & ->)]]; [auto|].
  split; [done|]. destruct (decide (i = info)) as [->|].
  - right. rewrite lookup_insert_eq. split_and!; try done.
    destruct Hc as [->|[j ->]]; cbn; eauto.
  - left. by rewrite lookup_insert_ne.
Qed.

Lemma inv_run tr s s' t :
  Inv tr s → step fd event has_iom cur_s cur_f info (LRun t) s s' → Inv (tr ++ [LRun t]) s'.
Proof.
  intros [Hwf Hp Ht Hpt] Hs.
  inversion Hs as [| | | |this rt t' c pc w w' l1 l2 ks E|]; subst. cbn in *.
  destruct (run_expired_frame this rt c w w' ks E) as [Htm Hi].
  assert (Hc : taken_ok tr (t, c)) by (apply Ht, elem_of_app; right; by left).
  split; cbn; rewrite ?Htm; [done| | |].
  - intros p t' Hp'. by apply timer_ok_snoc, Hp.
  - intros x Hx. apply taken_ok_snoc, Ht. set_solver.
  - assert (Hal : alive tr w → alive (tr ++ [LRun t]) w').
    { intros Hal. apply (alive_snoc tr (LRun t)) in Hal as [Hr (v & Hv & Hcase)]; [|done].
      split; [done|]. destruct Hi as [Hi|(Hown & Hi & Hi')].
      - exists v. by rewrite Hi.
      - exists ETIMEDOUT. split; [done|]. right. split; [done|].
        destruct (Hc Hown) as (Hmax & now & p & rt' & err & Hin & Hle). split; [done|].
        exists now, p, rt', err, t. split_and!; [by apply in_snoc|apply in_last|done]. }
    eapply point_ok_world; [done|..|exact Hpt]; [done| |].
    + intros q. by rewrite Htm.
    + intros Hn. destruct Hi as [Hi|(_ & Hi & _)]; congruence.
Qed.

Lemma inv_other tr s s' :
  Inv tr s → step fd event has_iom cur_s cur_f info LOther s s' → Inv (tr ++ [LOther]) s'.
Proof.
  intros [Hwf Hp Ht Hpt] Hs.
  inversion Hs as [| | | | |pc w w' l (Hwf' & Hk & Hi & Hpd)]; subst. cbn in *.
  split; cbn; [done| | |].
  - intros p t Hp'. apply timer_ok_snoc. intros Ho. by apply (Hp p t); [apply Hpd|].
  - intros x Hx. by apply taken_ok_snoc, Ht.
  - eapply point_ok_world; [done| | | |exact Hpt].
    + intros Hal. apply (alive_snoc tr LOther) in Hal as [Hr (v & Hv & Hcase)]; [|done].
      split; [done|]. exists v. by rewrite Hi.
    + auto.
    + congruence.
Qed.

Lemma inv_steps tr s s' :
  Inv [] s → steps fd event has_iom cur_s cur_f info tr s s' → Inv tr s'.
Proof.
  intros Hinv. induction 1 as [s|tr lb s s1 s2 Hs IH Hst]; [done|]. specialize (IH Hinv).
  destruct lb; eauto using inv_call, inv_arm, inv_wake, inv_expire, inv_run, inv_other.
Qed.
End DoIoInvariant.

(** C10: a hooked read or write behaves as the blocking call it stands for,
    whatever the rest of the program does meanwhile.  It returns only in one of
    three ways: with a result of the original function, which is never [EINTR]
    or [EAGAIN] and never another one than the last; with [-1] and [ETIMEDOUT]
    after a timer one of its attempts armed was found due; or with [-1] because
    the kernel refused the event.  When it has returned, none of its timers is
    pending and its [timer_info] is gone; while it is suspended, resuming it is
    always possible. *)
Theorem do_io_outcome fd event timeout_so has_iom cur_s cur_f info to w0 w1 l0 tr s' :
  tm_wf (timers w0) → infos w0 !! info = None →
  (∀ p t, pending (timers w0) !! p = Some t → ¬ owned info (cb_ t)) →
  (∀ x, x ∈ l0 → ¬ owned info (Some x.2)) → 0 ≤ to < 2 ^ 64 →
  do_io_enter fd timeout_so true info w0 = Ret (Calling to info, w1) →
  steps fd event has_iom cur_s cur_f info tr (mkSys (Calling to info) w1 l0) s' →
  match point s' with
  | Finished n err =>
      ended to n err tr ∧
      (∀ n' err', LCall n' err' ∈ tr → retried n' err' ∨ n' = n ∧ err' = err) ∧
      infos (here s') !! info = None ∧
      (∀ p t, pending (timers (here s')) !! p = Some t → ¬ owned info (cb_ t))
  | Holding to' i timer =>
      to' = to ∧ i = info ∧ returns (do_io_wake to info timer (here s'))
  | Calling to' i | Arming to' i => to' = to ∧ i = info
  | Direct | Asking => False
  end.
Proof.
  intros Hwf Hi Hp Hl Hto He Hs.
  assert (Hw1 : w1 = with_infos (<[info := 0]> (infos w0)) w0).
  { unfold do_io_enter in He. cbn in He. apply bind_Ret in He as (o & _ & He).
    destruct o as [c|]; [|done]. destruct (isClosed_ c); [done|].
    destruct (_ || _); [done|]. by injection He. }
  assert (Hinv : Inv fd event info to tr s').
  { eapply inv_steps; [exact Hto| |exact Hs]. subst w1.
    split; cbn; [done| | |].
    - intros p t Ht Ho. by destruct (Hp p t Ht).
    - intros x Hx Ho. by destruct (Hl x Hx).
    - split_and!; [done..|]. split; [by intros ?? ?%elem_of_nil|]. exists 0.
      split; [apply lookup_insert_eq|auto]. }
  destruct Hinv as [Hwf' Hp' _ Hpt]. destruct (point s') as [|?|?|to' i timer| |n err]; cbn in Hpt; try done.
  - naive_solver.
  - naive_solver.
  - destruct Hpt as (-> & -> & [_ (c & Hc & _)] & Hh). split_and!; [done..|].
    destruct (cancel_timer_ok timer (here s') Hwf' Hh) as (w2 & Hct & _ & Hi2 & _).
    unfold do_io_wake, wake, returns. rewrite Hct. cbn. rewrite Hi2, Hc. destruct (negb _); eauto.
  - destruct Hpt as (? & ? & ?). split_and!; try done. intros p t Ht Ho.
    by destruct (Hp' p t Ht Ho) as (_ & _ & [=] & _).
Qed.

(** A read of descriptor 5, a socket with a receive timeout of 100 ms. *)
Definition demo_world : world :=
  mkWorld (mkFdM {[8 := mkFdCtx true true true false false 5 100 u64_max]}
                 (<[5%nat := Some 8]> (replicate 64 None)))
          (TimerManager_new 0) (IOManager_new (3, 4)) ∅.

Definition demo_sys (m : outcome (pc * world)) (l : list (Z * callback timer_fn Z)) : sys :=
  match m with Ret (c, w) => mkSys c w l | _ => mkSys Direct demo_world [] end.

Definition demo_arm (now p : Z) (w : world) :=
  do_io_arm 5 READ true (Some 1) (64, true) now p 0 0 100 1 w.

Definition demo1 : sys := Eval vm_compute in demo_sys (do_io_enter 5 SO_RCVTIMEO true 1 demo_world) [].
Definition demo2 : sys := Eval vm_compute in demo_sys (Ret (do_io_called (-1) EAGAIN 100 1 (here demo1))) [].
Definition demo3 : sys := Eval vm_compute in demo_sys (demo_arm 1000 16 (here demo2)) [].
Definition demo4 : sys := Eval vm_compute in
  let '(t, cbs) := listExpiredCb 1100 24 (timers (here demo3)) [] in
  mkSys (point demo3) (with_timers t (here demo3)) ((λ c, (1100, c)) <$> omap id cbs).
Definition demo5 : sys := Eval vm_compute in
  match idle_event 0 5 EPOLLIN (iom (here demo4)) with
  | Ret (m, _) => mkSys (point demo4) (with_iom m (here demo4)) (taken demo4)
  | _ => demo4
  end.
Definition demo6 : sys := Eval vm_compute in demo_sys (do_io_wake 100 1 (Some 16) (here demo5)) (taken demo5).
Definition demo7 : sys := Eval vm_compute in demo_sys (Ret (do_io_called (-1) EAGAIN 100 1 (here demo6))) (taken demo6).
Definition demo8 : sys := Eval vm_compute in demo_sys (demo_arm 1101 32 (here demo7)) (taken demo7).
Definition demo9 : sys := Eval vm_compute in
  match run_expired 1 0 (cancel_wait 5 READ 1) (here demo8) with
  | Ret (w, _) => mkSys (point demo8) w []
  | _ => demo8
  end.
Definition demo10 : sys := Eval vm_compute in demo_sys (do_io_wake 100 1 (Some 32) (here demo9)) [].

Definition demo_trace : list label :=
  [LCall (-1) EAGAIN; LArm 1000 16 0 0; LExpire 1100; LOther; LWake;
   LCall (-1) EAGAIN; LArm 1101 32 0 0; LRun 1100; LWake].

Lemma demo_wf : tm_wf (timers (here demo4)).
Proof.
  destruct (addTimer_fresh (TimerManager_new 0 : TimerManager timer_fn Z) 1000 16 100 (cancel_wait 5 READ 1) false)
    as (s1 & f1 & E1 & H1 & _); [apply TimerManager_new_wf|done..|].
  assert (E : timers (here demo3) = s1).
  { apply (f_equal fst) in E1. cbn [fst] in E1. rewrite <-E1. by vm_compute. }
  assert (timers (here demo4) = (listExpiredCb 1100 24 s1 []).1) as -> by (rewrite <-E; by vm_compute).
  destruct (listExpiredCb 1100 24 s1 []) as [t cbs] eqn:El.
  eapply listExpiredCb_refines in El as [? _]; [done|done|done|]. rewrite <-E. by vm_compute.
Qed.

Lemma demo_steps : steps 5 READ true (Some 1) (64, true) 1 demo_trace demo1 demo10.
Proof.
  unfold demo_trace.
  apply (steps_snoc _ _ _ _ _ _ (take 8 demo_trace) _ _ demo9);
    [|by apply (step_wake _ _ _ _ _ _ 100 1 (Some 32))].
  apply (steps_snoc _ _ _ _ _ _ (take 7 demo_trace) _ _ demo8);
    [|by apply (step_run _ _ _ _ _ _ 1 0 1100 (cancel_wait 5 READ 1) (point demo8) _ _ [] []
                  [(1, TFiber (Some 64))])].
  apply (steps_snoc _ _ _ _ _ _ (take 6 demo_trace) _ _ demo7);
    [|by apply (step_arm _ _ _ _ _ _ 1101 32 0 0 100 1)].
  apply (steps_snoc _ _ _ _ _ _ (take 5 demo_trace) _ _ demo6);
    [|by apply (step_call _ _ _ _ _ _ (-1) EAGAIN 100 1)].
  apply (steps_snoc _ _ _ _ _ _ (take 4 demo_trace) _ _ demo5);
    [|by apply (step_wake _ _ _ _ _ _ 100 1 (Some 16))].
  apply (steps_snoc _ _ _ _ _ _ (take 3 demo_trace) _ _ demo4); [|].
  2: { apply (step_other _ _ _ _ _ _ (point demo4) (here demo4) (here demo5) (taken demo4)).
       split; [exact demo_wf|]. split; [intros p; exact id|]. done. }
  apply (steps_snoc _ _ _ _ _ _ (take 2 demo_trace) _ _ demo3);
    [|by apply (step_expire _ _ _ _ _ _ 1100 24 (point demo3) (here demo3) [] _
                  (listExpiredCb 1100 24 (timers (here demo3)) []).2)].
  apply (steps_snoc _ _ _ _ _ _ (take 1 demo_trace) _ _ demo2);
    [|by apply (step_arm _ _ _ _ _ _ 1000 16 0 0 100 1)].
  apply (steps_snoc _ _ _ _ _ _ [] _ _ demo1);
    [|by apply (step_call _ _ _ _ _ _ (-1) EAGAIN 100 1)].
  constructor.
Qed.

Lemma do_io_outcome_witness :
  ended 100 (-1) ETIMEDOUT demo_trace ∧ infos (here demo10) !! 1 = None.
Proof.
  assert (He : do_io_enter 5 SO_RCVTIMEO true 1 demo_world = Ret (Calling 100 1, here demo1))
    by (by vm_compute).
  assert (Hp : ∀ p t, pending (timers demo_world) !! p = Some t → ¬ owned 1 (cb_ t)).
  { intros p t Ht. assert (E : pending (timers demo_world) = ∅) by (by vm_compute).
    by rewrite E in Ht. }
  pose proof (do_io_outcome 5 READ SO_RCVTIMEO true (Some 1) (64, true) 1 100 demo_world (here demo1) []
    demo_trace demo10 (TimerManager_new_wf 0) eq_refl Hp ltac:(by intros ? ?%elem_of_nil) ltac:(lia)
    He demo_steps) as H.
  exact (conj (proj1 H) (proj1 (proj2 (proj2 H)))).
Defined.

(** The 100 ms of a timeout are not counted from the attempt that is cut
    short.  All attempts of a call share one [timer_info], and a timer that
    expired just before the descriptor became ready still has its callback
    queued: here the attempt of time 1101 is cancelled with [ETIMEDOUT] by the
    timer of time 1000, though the only scan of the timers was at 1100. *)
Theorem do_io_stale_timeout :
  do_io_enter 5 SO_RCVTIMEO true 1 demo_world = Ret (Calling 100 1, here demo1) ∧
  steps 5 READ true (Some 1) (64, true) 1
    [LCall (-1) EAGAIN; LArm 1000 16 0 0; LExpire 1100; LOther; LWake;
     LCall (-1) EAGAIN; LArm 1101 32 0 0; LRun 1100; LWake]
    (mkSys (Calling 100 1) (here demo1) []) demo10 ∧
  point demo10 = Finished (-1) ETIMEDOUT ∧ 1100 < 1101 + 100.
Proof. split; [by vm_compute|]. split; [exact demo_steps|]. split; [by vm_compute|lia]. Qed.

(** ** connect *)

(** When the kernel refuses the event, [connect_with_timeout] does not
    fail: it logs, withdraws its timer and asks for [SO_ERROR] at once, and
    since a connection in progress has none, the caller is told 0, connected,
    with nobody waiting for the connection. *)
Theorem connect_refused_event (fd s f now p rt err err' to info : Z) (w : world)
    (W : gmap (Z * which) (Z * task timer_fn)) :
  implements (iom w) W → W !! (fd, CWrite) = None → tm_wf (timers w) →
  0 ≤ fd < 2 ^ 30 → fd ≠ (tickleFds_ (iom w)).1 → 0 ≤ to < 2 ^ 64 →
  0 < p → heap_ (timers w) !! p = None → err = EINPROGRESS → rt ≠ 0 →
  ∃ w1 w2 w3,
    connect_called (-1) err to info w = (Arming to info, w1) ∧
    connect_arm fd true (Some s) (f, true) now p rt to info w1 = Ret (Asking, w2) ∧
    connect_finish 0 0 err' info w2 = (Finished 0 err', w3) ∧
    implements (iom w3) W ∧ pending (timers w3) !! p = None.
Proof.
  intros Himp HW Hwf Hfd Htfd Hto Hp Hfr -> Hrt.
  set (w1 := with_infos (<[info := 0]> (infos w)) w).
  destruct (run_op_refines (iom w) W (OpAdd rt (Some s) (f, true) fd CWrite None) Himp)
    as (m1 & Hrun & Himp1 & _).
  { cbn. split_and!; done || lia. }
  cbn in Hrun, Himp1. rewrite (proj2 (Z.eqb_neq _ _) Hrt) in Hrun, Himp1. cbn in Hrun, Himp1.
  apply bind_Ret in Hrun as ([m r] & Hadd & [= -> ->]).
  assert (Harm : ∃ t timer, arm fd WRITE true (Some s) (f, true) now p rt to info w1 =
                      Ret (with_timers t (with_iom m1 w1), timer, -1)).
  { unfold arm. cbn [negb]. change (iom w1) with (iom w).
    rewrite Hadd. destruct (negb (to =? u64_max)); do 2 eexists; done. }
  destruct Harm as (t & timer & Harm). set (wa := with_timers t (with_iom m1 w1)) in *.
  destruct (arm_spec fd WRITE true (Some s) (f, true) info to Hto now p rt w1 wa timer (-1) Hwf Hp Hfr Harm)
    as (Hwfa & _ & _ & _ & Hcase).
  destruct (cancel_timer_ok timer wa Hwfa) as (w2 & Hc & _ & _ & Hiom & Hpd).
  { intros q ->. by destruct Hcase as [[[=] _]|(_ & [= ->] & ? & _)]. }
  exists w1, w2, (with_infos (delete info (infos w2)) w2). split; [done|]. split; [|split; [done|split]].
  - unfold connect_arm. rewrite Harm. cbn. by rewrite Hc.
  - cbn. by rewrite Hiom.
  - cbn [timers with_infos]. rewrite Hpd. destruct Hcase as [[-> E]|(_ & -> & _ & E)]; rewrite E.
    + destruct (pending (timers w1) !! p) as [x|] eqn:Ex; [|done].
      apply pending_heap in Ex. change (timers w1) with (timers w) in Ex. congruence.
    + by rewrite lookup_delete_eq.
Qed.

Lemma demo_implements : implements (iom demo_world) ∅.
Proof.
  destruct (IOManager_new_wf (S := Z) (C := timer_fn) (3, 4)) as [Hwf HW].
  split; [exact Hwf|]. intros fd w _. cbn [iom demo_world]. by rewrite HW.
Qed.

Lemma connect_refused_event_witness :
  implements (iom demo_world) ∅ ∧
  ∃ w1 w2 w3,
    connect_called (-1) EINPROGRESS 5000 1 demo_world = (Arming 5000 1, w1) ∧
    connect_arm 5 true (Some 1) (64, true) 1000 16 (-1) 5000 1 w1 = Ret (Asking, w2) ∧
    connect_finish 0 0 9 1 w2 = (Finished 0 9, w3) ∧
    implements (iom w3) ∅ ∧ pending (timers w3) !! 16 = None.
Proof.
  split; [exact demo_implements|].
  apply (connect_refused_event 5 1 64 1000 16 (-1) EINPROGRESS 9 5000 1 demo_world ∅ demo_implements);
    [done|apply TimerManager_new_wf|lia|done|lia|lia|done|done|lia].
Defined.

(** ** The sleeping calls *)

(** C38: a hooked sleep arms one timer that will schedule the calling fiber, and
    how long it sleeps is right only within bounds: [sleep] up to 4294967
    seconds (the product is 32 bits), [nanosleep] below 2^31 ms (beyond, up to
    2^32 ms, the negative [int] becomes more than 2^63 ms), both rounding down;
    [usleep] sleeps the whole milliseconds and never longer than asked. *)
Theorem sleep_deadline now p fiber (w : world) :
  tm_wf (timers w) → 0 < p → heap_ (timers w) !! p = None →
  let armed ms w' := tm_wf (timers w') ∧
    pending (timers w') = <[p := Timer_new now ms (Some (Fun (Schedule fiber))) false]> (pending (timers w)) in
  (∀ seconds, 0 ≤ seconds < 2 ^ 32 → ∃ w' ms,
     sleep true seconds now p fiber true w = Ret (Some w') ∧ armed ms w' ∧
     (ms = seconds * 1000 ↔ seconds ≤ 4294967)) ∧
  (∀ usec, 0 ≤ usec < 2 ^ 32 → ∃ w' ms,
     usleep true usec now p fiber true w = Ret (Some w') ∧ armed ms w' ∧
     ms * 1000 ≤ usec < ms * 1000 + 1000) ∧
  (∀ sec nsec, 0 ≤ sec < 2 ^ 31 → 0 ≤ nsec < 1000000000 → ∃ w' ms,
     let asked := sec * 1000 + nsec / 1000000 in
     nanosleep true sec nsec now p fiber true w = Ret (Some w') ∧ armed ms w' ∧
     (asked < 2 ^ 31 → ms = asked) ∧ (2 ^ 31 ≤ asked < 2 ^ 32 → 2 ^ 63 ≤ ms)).
Proof.
  intros Hwf Hp Hfr armed.
  assert (Harm : ∀ ms, 0 ≤ ms < 2 ^ 64 → ∃ w', sleep_arm now p ms fiber true w = Ret w' ∧ armed ms w').
  { intros ms Hms. destruct (addTimer_fresh (timers w) now p ms (Fun (Schedule fiber)) false Hwf Hfr Hp Hms)
      as (s & front & Ha & Hw & Hpd & _). exists (with_timers s w). unfold sleep_arm. by rewrite Ha. }
  split; [|split].
  - intros sec Hs. destruct (Harm (sleep_ms sec)) as (w' & Hr & Ha); [unfold sleep_ms; solve_int|].
    exists w', (sleep_ms sec). unfold sleep. rewrite Hr. split; [done|]. split; [done|].
    unfold sleep_ms. solve_int.
  - intros us Hs. destruct (Harm (usleep_ms us)) as (w' & Hr & Ha); [unfold usleep_ms; solve_int|].
    exists w', (usleep_ms us). unfold usleep. rewrite Hr. split; [done|]. split; [done|].
    unfold usleep_ms. solve_int.
  - intros sec ns Hs Hn. set (asked := sec * 1000 + ns / 1000000).
    assert (Hms : nanosleep_ms sec ns = Ret (u64 (i32 asked))).
    { unfold nanosleep_ms. rewrite (Z.quot_div_nonneg ns), Z.quot_div_nonneg by (try apply Z.div_pos; lia).
      rewrite Z.div_div by lia. change (1000 * 1000) with 1000000. fold asked.
      assert (0 ≤ ns / 1000000 < 1000) by solve_int.
      assert (0 ≤ asked < 2 ^ 63) by (unfold asked; lia).
      assert (E : ((asked <? - 2 ^ 63) || (2 ^ 63 <=? asked) || (sec * 1000 <? - 2 ^ 63) || (2 ^ 63 <=? sec * 1000)) = false) by lia.
      by rewrite E. }
    destruct (Harm (u64 (i32 asked)) (u64_range _)) as (w' & Hr & Ha).
    exists w', (u64 (i32 asked)). unfold nanosleep. cbn [negb]. rewrite Hms. cbn [mbind outcome_bind]. rewrite Hr.
    split; [done|]. split; [done|]. assert (0 ≤ ns / 1000000) by (apply Z.div_pos; lia).
    assert (0 ≤ asked) by (unfold asked; lia). clearbody asked.
    split; solve_int.
Qed.

Lemma sleep_deadline_witness :
  (∃ w' ms, sleep true 4294968 0 16 64 true demo_world = Ret (Some w') ∧
            (ms = 4294968 * 1000 ↔ 4294968 ≤ 4294967)) ∧
  (∃ w' ms, nanosleep true 3000000 0 0 16 64 true demo_world = Ret (Some w') ∧ 2 ^ 63 ≤ ms).
Proof.
  destruct (sleep_deadline 0 16 64 demo_world (TimerManager_new_wf 0) eq_refl eq_refl) as (H1 & _ & H3).
  split.
  - destruct (H1 4294968 ltac:(lia)) as (w' & ms & Hr & _ & Hm). by exists w', ms.
  - destruct (H3 3000000 0 ltac:(lia) ltac:(lia)) as (w' & ms & Hr & _ & _ & Hm).
    exists w', ms. split; [exact Hr|]. apply Hm. split; vm_compute; congruence.
Defined.

(** ** Descriptors made non-blocking *)

(** What fcntl(2) and ioctl(2) document of the flag [O_NONBLOCK]. *)
Class LibcLaws (K : Type) `{Libc K} : Type := {
  nonblocking : K → Z → bool;
  fcntl_setfl fd arg k k' :
    fcntl_f fd F_SETFL (Some arg) k = (k', 0) → nonblocking k' fd = Z.testbit arg 11;
  fcntl_getfl fd k k' r :
    fcntl_f fd F_GETFL None k = (k', r) → 0 ≤ r → k' = k ∧ Z.testbit r 11 = nonblocking k fd;
  ioctl_fionbio fd arg k k' :
    ioctl_f fd FIONBIO arg k = (k', 0) → nonblocking k' fd = negb (arg =? 0) }.

Lemma O_NONBLOCK_bit i : 0 ≤ i → Z.testbit O_NONBLOCK i = (11 =? i).
Proof. intros. change O_NONBLOCK with (2 ^ 11). by rewrite Z.pow2_bits_eqb. Qed.

Lemma land_O_NONBLOCK arg : negb (Z.land arg O_NONBLOCK =? 0) = Z.testbit arg 11.
Proof.
  assert (Z.land arg O_NONBLOCK = if Z.testbit arg 11 then O_NONBLOCK else 0) as ->.
  { apply Z.bits_inj'. intros i Hi. rewrite Z.land_spec, O_NONBLOCK_bit by done.
    destruct (Z.eqb_spec 11 i) as [<-|Hne].
    - destruct (Z.testbit arg 11); [done|]. by rewrite Z.bits_0.
    - rewrite andb_false_r. destruct (Z.testbit arg 11); [|by rewrite Z.bits_0].
      rewrite O_NONBLOCK_bit by done. lia. }
  by destruct (Z.testbit arg 11).
Qed.

Section NonBlocking.
Context {K : Type} `{LibcLaws K}.

(** The descriptor has a context that is open, and a socket's. *)
Record hooked (fd p : Z) (c : FdCtx) (w : world) : Prop := mk_hooked {
  hk_wf : fdm_wf (fds w);
  hk_fd : fd_ok fd;
  hk_ctx : ctx_of (fds w) fd = Some p;
  hk_obj : FdManager.ctxs_ (fds w) !! p = Some c;
  hk_open : unhooked (Some c) = false }.

Lemma hooked_get fd p c w : hooked fd p c w → get_ctx fd w = Ret (Some c).
Proof.
  intros [Hwf Hfd Hp Hc _]. unfold get_ctx. rewrite get_read_spec by auto. rewrite Hp. cbn.
  by rewrite Hc.
Qed.

(** Changing a context in place keeps the manager's shape. *)
Lemma hooked_update fd p c w f :
  (∀ c, fd_ (f c) = fd_ c) → unhooked (Some (f c)) = false →
  hooked fd p c w → hooked fd p (f c) (update_ctx fd f w).
Proof.
  intros Hf Ho [Hwf Hfd Hp Hc _]. unfold update_ctx. rewrite Hp. split; cbn; [|done..| |done].
  - destruct Hwf as [Hs Hx]. split; [done|]. intros fd' q Hq. cbn.
    destruct (Hx fd' q Hq) as (c' & Hc' & Hfd'). destruct (decide (q = p)) as [->|].
    + rewrite lookup_alter_eq, Hc'. exists (f c'). split; [done|]. by rewrite Hf.
    + rewrite lookup_alter_ne by done. eauto.
  - by rewrite lookup_alter_eq, Hc.
Qed.

(** What the user asked for is what the hooked [F_GETFL] shows. *)
Lemma fcntl_getfl_hooked fd p c w k k' r :
  hooked fd p c w → fcntl_f fd F_GETFL None k = (k', r) →
  ∃ r', fcntl fd F_GETFL 0 (w, k) = Ret ((w, k'), r') ∧
    Z.testbit r' 11 = userNonblock_ c ∧ ∀ i, 0 ≤ i → i ≠ 11 → Z.testbit r' i = Z.testbit r i.
Proof.
  intros Hh Hk. unfold fcntl. cbn [Z.eqb F_GETFL F_SETFL Pos.eqb]. rewrite Hk.
  rewrite (hooked_get fd p c w Hh). cbn [mbind outcome_bind]. rewrite (hk_open _ _ _ _ Hh).
  destruct (userNonblock_ c); eexists; (split; [done|split; [|intros i Hi Hne]]).
  - by rewrite Z.lor_spec, O_NONBLOCK_bit, orb_true_r.
  - rewrite Z.lor_spec, O_NONBLOCK_bit by done. by rewrite (proj2 (Z.eqb_neq 11 i)), orb_false_r by done.
  - by rewrite Z.land_spec, Z.lnot_spec, O_NONBLOCK_bit, andb_false_r.
  - rewrite Z.land_spec, Z.lnot_spec, O_NONBLOCK_bit by done.
    by rewrite (proj2 (Z.eqb_neq 11 i)), andb_true_r by done.
Qed.

Lemma fcntl_setfl_hooked fd p c w k k1 arg :
  hooked fd p c w → sysNonblock_ c = true →
  fcntl_f fd F_SETFL (Some (Z.lor arg O_NONBLOCK)) k = (k1, 0) →
  ∃ w1, fcntl fd F_SETFL arg (w, k) = Ret ((w1, k1), 0) ∧ nonblocking k1 fd = true ∧
        hooked fd p (setUserNonblock (Z.testbit arg 11) c) w1.
Proof.
  intros Hh Hsys Hk. unfold fcntl. cbn [Z.eqb F_GETFL F_SETFL Pos.eqb].
  rewrite (hooked_get fd p c w Hh). cbn [mbind outcome_bind]. rewrite (hk_open _ _ _ _ Hh), Hsys, Hk.
  eexists. split; [done|]. split.
  - rewrite (fcntl_setfl _ _ _ _ Hk), Z.lor_spec, O_NONBLOCK_bit by done. by rewrite orb_true_r.
  - rewrite land_O_NONBLOCK. apply hooked_update; [done| |done]. apply (hk_open _ _ _ _ Hh).
Qed.

(** On a hooked socket [fcntl] keeps two truths apart.  Setting the
    flags leaves the kernel's descriptor non-blocking whatever the user
    passed, and reading them back shows the user's own choice and otherwise
    the kernel's flags.  [ioctl(FIONBIO)] does not: clearing the flag reaches
    the kernel, whose descriptor now blocks, while the next hooked read still
    takes the path that counts on [EAGAIN]. *)
Theorem nonblock_hooks fd p c w k arg info timeout_so :
  hooked fd p c w → sysNonblock_ c = true →
  (∀ k1, fcntl_f fd F_SETFL (Some (Z.lor arg O_NONBLOCK)) k = (k1, 0) →
    ∃ w1, fcntl fd F_SETFL arg (w, k) = Ret ((w1, k1), 0) ∧ nonblocking k1 fd = true ∧
      ∀ k2 r, fcntl_f fd F_GETFL None k1 = (k2, r) →
        ∃ r', fcntl fd F_GETFL 0 (w1, k1) = Ret ((w1, k2), r') ∧
          Z.testbit r' 11 = Z.testbit arg 11 ∧ ∀ i, 0 ≤ i → i ≠ 11 → Z.testbit r' i = Z.testbit r i) ∧
  (∀ k1, ioctl_f fd FIONBIO 0 k = (k1, 0) →
    ∃ w1 w2, ioctl fd FIONBIO 0 (w, k) = Ret ((w1, k1), 0) ∧ nonblocking k1 fd = false ∧
      do_io_enter fd timeout_so true info w1 = Ret (Calling (getTimeout timeout_so c) info, w2)).
Proof.
  intros Hh Hsys. split.
  - intros k1 Hk. destruct (fcntl_setfl_hooked fd p c w k k1 arg Hh Hsys Hk) as (w1 & Hr & Hn & Hh1).
    exists w1. split; [done|]. split; [done|]. intros k2 r Hg.
    destruct (fcntl_getfl_hooked _ _ _ _ _ _ _ Hh1 Hg) as (r' & ? & ? & ?). by exists r'.
  - intros k1 Hk. assert (Hh1 : hooked fd p (setUserNonblock false c) (update_ctx fd (setUserNonblock false) w)).
    { apply hooked_update; [done| |done]. apply (hk_open _ _ _ _ Hh). }
    pose proof (hk_open _ _ _ _ Hh) as Hopen. pose proof Hopen as [Hcl Hso]%orb_false_iff.
    exists (update_ctx fd (setUserNonblock false) w). eexists. split; [|split].
    + unfold ioctl. rewrite Z.eqb_refl, (hooked_get fd p c w Hh). cbn [mbind outcome_bind].
      by rewrite Hopen, Hk.
    + by rewrite (ioctl_fionbio _ _ _ _ Hk).
    + unfold do_io_enter. cbn [negb]. rewrite (hooked_get _ _ _ _ Hh1). cbn [mbind outcome_bind].
      cbn [isClosed_ isSocket_ userNonblock_ setUserNonblock]. rewrite Hcl, Hso. done.
Qed.

(** The hooked [SO_RCVTIMEO] or [SO_SNDTIMEO]: the milliseconds, rounded down.
    A zero [timeval], which asks the kernel for no timeout at all, becomes a
    timeout of 0 ms. *)
Lemma setsockopt_timeout fd p c w k k1 r optname sec usec :
  hooked fd p c w → optname = SO_RCVTIMEO ∨ optname = SO_SNDTIMEO →
  0 ≤ sec < 2 ^ 50 → 0 ≤ usec < 1000000 →
  setsockopt_f fd SOL_SOCKET optname (sec, usec) k = (k1, r) →
  ∃ w1, setsockopt true fd SOL_SOCKET optname (sec, usec) (w, k) = Ret ((w1, k1), r) ∧
    hooked fd p (setTimeout optname (sec * 1000 + usec / 1000) c) w1.
Proof.
  intros Hh Hopt Hs Hu Hk. unfold setsockopt. cbn [negb].
  assert (E : (SOL_SOCKET =? SOL_SOCKET) && ((optname =? SO_RCVTIMEO) || (optname =? SO_SNDTIMEO)) = true)
    by (destruct Hopt as [->| ->]; done).
  rewrite E, (hooked_get fd p c w Hh). cbn [mbind outcome_bind null]. rewrite Hk. eexists. split; [done|].
  cbn [fst snd]. rewrite Z.quot_div_nonneg by lia.
  assert (0 ≤ usec / 1000 < 1000) by solve_int.
  rewrite u64_small by lia. apply hooked_update; [|by destruct Hopt as [->| ->]; apply (hk_open _ _ _ _ Hh)|done].
  intros c'. unfold setTimeout. by case_step.
Qed.
End NonBlocking.

(** A C library over a map of flags, on which every call succeeds. *)
#[export] Instance flags_libc : Libc (gmap Z Z) := {
  fcntl_f fd cmd arg k :=
    if cmd =? F_SETFL then (<[fd := default 0 arg]> k, 0)
    else (k, Z.land (k !!! fd) (2 ^ 31 - 1));
  ioctl_f fd req arg k := (<[fd := if arg =? 0 then 0 else O_NONBLOCK]> k, 0);
  setsockopt_f _ _ _ _ k := (k, 0);
  socket_f k := (k, 9);
  close_f _ k := (k, 0);
  fstat_f _ _ := Some true }.

#[export] Instance flags_libc_laws : LibcLaws (gmap Z Z).
Proof.
  refine (Build_LibcLaws _ _ (λ k fd, Z.testbit (k !!! fd) 11) _ _ _).
  - intros fd arg k k' [= <-]. by rewrite lookup_total_insert_eq.
  - intros fd k k' r [= <- <-] _. split; [done|]. rewrite Z.land_spec.
    change (2 ^ 31 - 1) with (Z.ones 31). rewrite Z.ones_spec_low by lia. by rewrite andb_true_r.
  - intros fd arg k k' [= <-]. rewrite lookup_total_insert_eq. by destruct (arg =? 0).
Defined.

Lemma demo_hooked : hooked 5 8 (mkFdCtx true true true false false 5 100 u64_max) demo_world.
Proof.
  split; [|by vm_compute|done|done|done]. split; [by vm_compute|]. intros fd q Hq.
  assert (fd = 5 ∧ q = 8) as [-> ->]; [|by eexists].
  unfold ctx_of in Hq. destruct (Z.ltb_spec fd 0); [done|]. cbn [fds demo_world datas_] in Hq.
  destruct (decide (fd = 5)) as [->|Hne]; [by injection Hq as <-|].
  rewrite list_lookup_insert_ne in Hq by lia.
  destruct (replicate 64 None !! Z.to_nat fd) as [o|] eqn:E; [|done].
  apply lookup_replicate in E as [-> _]. done.
Qed.

Lemma nonblock_hooks_witness :
  let k : gmap Z Z := {[5 := 2050]} in
  (∃ w1 k1, fcntl 5 F_SETFL 2 (demo_world, k) = Ret ((w1, k1), 0) ∧ nonblocking k1 5 = true) ∧
  (∃ w1 k1 w2, ioctl 5 FIONBIO 0 (demo_world, k) = Ret ((w1, k1), 0) ∧ nonblocking k1 5 = false ∧
     do_io_enter 5 SO_RCVTIMEO true 1 w1 = Ret (Calling 100 1, w2)).
Proof.
  intros k.
  destruct (nonblock_hooks 5 8 _ demo_world k 2 1 SO_RCVTIMEO demo_hooked eq_refl) as [H1 H2]. split.
  - destruct (H1 _ eq_refl) as (w1 & Hr & Hn & _). exists w1. eexists. split; [exact Hr|exact Hn].
  - destruct (H2 _ eq_refl) as (w1 & w2 & Hr & Hn & He). exists w1. eexists. exists w2.
    split; [exact Hr|]. split; [exact Hn|exact He].
Defined.
