(* ===== verification/HookRun.v ===== *)
(** * A hooked call run to its end (hook.cpp)

    Hook cuts [do_io] and [connect_with_timeout] where the fiber may be
    suspended.  Here the pieces are put together again: a script says what the
    call meets - the results of the original function, the clock and the answer
    of [epoll_ctl] when it registers its wait, its resumption, and what the rest
    of the program has done meanwhile - and the call runs through it.  The
    theorems say when a call comes back and what it leaves alone; Socket builds
    on them. *)
From S2P Require Import Prelude Timer FdManager IOManager Hook.

Section HookRun.
Context {K : Type}.

Abbreviation state := (Hook.state (K := K)).

(** What a call under way meets.  [Meanwhile]: the rest of the program has left
    this state, and [others] is what it has open.  [Came]: the original function
    came back.  [Armed]: the call registers its wait.  [Resumed]: the scheduler
    has switched the fiber in again.  [Status]: [getsockopt(SO_ERROR)]. *)
Inductive news : Type :=
  | Meanwhile (st : state) (others : gset Z)
  | Came (n err : Z) (k : K)
  | Armed (now p rt err : Z)
  | Resumed
  | Status (rt error err : Z).

Section Call.
(** The descriptor and the thread, as in Hook. *)
Context (fd : Z) (has_iom : bool) (cur_s : option Z) (cur_f : Z * bool) (info : Z).

(** [do_io] from one point to the next; [event]: what it waits for. *)
Definition io_step (event : Z) (x : news) (c : pc) (st : state) : outcome (pc * state) :=
  let '(w, k) := st in
  match x, c with
  | Meanwhile st' _, _ => Ret (c, st')
  | Came n err k', Direct => Ret (Finished n err, (w, k'))
  | Came n err k', Calling to i => let '(c', w') := do_io_called n err to i w in Ret (c', (w', k'))
  | Armed now p rt err, Arming to i =>
      '(c', w') ← do_io_arm fd event has_iom cur_s cur_f now p rt err to i w; Ret (c', (w', k))
  | Resumed, Holding to i timer => '(c', w') ← do_io_wake to i timer w; Ret (c', (w', k))
  | _, _ => Undefined
  end.

(** The same of [connect] and [connect_with_timeout]. *)
Definition connect_step (x : news) (c : pc) (st : state) : outcome (pc * state) :=
  let '(w, k) := st in
  match x, c with
  | Meanwhile st' _, _ => Ret (c, st')
  | Came n err k', Direct => Ret (Finished n err, (w, k'))
  | Came n err k', Calling to i => let '(c', w') := connect_called n err to i w in Ret (c', (w', k'))
  | Armed now p rt err, Arming to i =>
      '(c', w') ← connect_arm fd has_iom cur_s cur_f now p rt to i w; Ret (c', (w', k))
  | Resumed, Holding to i timer => '(c', w') ← connect_wake i timer w; Ret (c', (w', k))
  | Status rt error err, Asking => let '(c', w') := connect_finish rt error err info w in Ret (c', (w', k))
  | _, _ => Undefined
  end.

(** A call run through a script, to its result; there is none when the script
    ends before the call has returned. *)
Fixpoint run_script (step : news → pc → state → outcome (pc * state)) (script : list news) (c : pc) (st : state) :
    outcome (state * Z) :=
  match c, script with
  | Finished n _, _ => Ret (st, n)
  | _, [] => Undefined
  | _, x :: script' => '(c', st') ← step x c st; run_script step script' c' st'
  end.

(** A hooked reading or writing call. *)
Definition hooked_io (hook : bool) (f : io_fun) (script : list news) (st : state) : outcome (state * Z) :=
  '(c, w) ← do_io_enter fd (io_timeout f) hook info st.1;
  run_script (io_step (io_event f)) script c (w, st.2).

(** [connect_with_timeout]. *)
Definition hooked_connect (hook : bool) (timeout_ms : Z) (script : list news) (st : state) : outcome (state * Z) :=
  c ← connect_enter fd hook timeout_ms info st.1;
  run_script connect_step script c st.
End Call.

(** What the rest of the program has open when the script is over. *)
Fixpoint others_after (script : list news) (others : gset Z) : gset Z :=
  match script with
  | [] => others
  | Meanwhile _ o :: r => others_after r o
  | _ :: r => others_after r others
  end.

(** ** When a call comes back *)
Section Returns.
(** The open descriptors; the reading end of the event manager's pipe. *)
Context (open : K → gset Z) (pipe : Z).

(** The descriptor contexts, the timers and the event manager are well-formed,
    and the event manager's pipe is [pipe] and open. *)
Definition good (st : state) : Prop :=
  fdm_wf (fds st.1) ∧ (∃ W, implements (iom st.1) W) ∧
  (tickleFds_ (iom st.1)).1 = pipe ∧ pipe ∈ open st.2 ∧ tm_wf (timers st.1).

(** Open is what the others have, and [mine], which they leave alone. *)
Record shares (mine others : gset Z) (st : state) : Prop := mk_shares {
  sh_good : good st;
  sh_open : open st.2 = others ∪ mine;
  sh_apart : mine ## others;
  sh_pipe : pipe ∈ others }.

Section Fits.
Context (fd : Z) (has_iom : bool) (cur_s : option Z) (cur_f : Z * bool) (info : Z) (mine : gset Z) (w : which).

(** What the call may meet at a point.  The rest of the program keeps what it
    shares with the call: it leaves the call's descriptors open, does not take
    them for its own, frees no timer object that is still referenced and not the
    call's [timer_info].  The original function opens and closes nothing.  The
    wait is registered on a thread with an event manager, by a running fiber,
    with a new timer object, while nobody else waits for the same. *)
Definition meets (x : news) (c : pc) (st : state) : Prop :=
  match x, c with
  | Meanwhile st' o, _ =>
      shares mine o st' ∧ keeps (timers st.1) (timers st'.1) ∧
      (is_Some (infos st.1 !! info) → is_Some (infos st'.1 !! info))
  | Came _ _ k', (Direct | Calling _ _) => open k' = open st.2
  | Armed now p rt err, Arming to i =>
      has_iom = true ∧ is_Some cur_s ∧ cur_f.2 = true ∧ 0 < p ∧ heap_ (timers st.1) !! p = None ∧
      0 ≤ to < 2 ^ 64 ∧ ∃ W, implements (iom st.1) W ∧ W !! (fd, w) = None
  | Resumed, Holding _ _ _ => True
  | Status _ _ _, Asking => True
  | _, _ => False
  end.

(** The script takes the call to its end, and every item is met in place. *)
Fixpoint fits (step : news → pc → state → outcome (pc * state)) (script : list news) (c : pc) (st : state) : Prop :=
  match c, script with
  | Finished _ _, _ => script = []
  | _, [] => False
  | _, x :: r => meets x c st ∧ ∀ c' st', step x c st = Ret (c', st') → fits step r c' st'
  end.

(** What the call relies on at a point: its [timer_info], made at once by
    [do_io], which never asks for [SO_ERROR], and after the first [connect_f] by
    [connect]; and its timer. *)
Definition held (made : bool) (c : pc) (x : world) : Prop :=
  match c with
  | Calling _ i => i = info ∧ (made = true → is_Some (infos x !! info))
  | Arming _ i => i = info ∧ is_Some (infos x !! info)
  | Holding _ i timer =>
      i = info ∧ is_Some (infos x !! info) ∧ ∀ p, timer = Some p → is_Some (heap_ (timers x) !! p)
  | Asking => made = false
  | _ => True
  end.

Lemma held_meanwhile made c x x' :
  held made c x → keeps (timers x) (timers x') → (is_Some (infos x !! info) → is_Some (infos x' !! info)) →
  held made c x'.
Proof. intros H Hk Hi. destruct c; cbn in *; naive_solver. Qed.

Lemma shares_kernel others x k k' : shares mine others (x, k) → open k' = open k → shares mine others (x, k').
Proof.
  intros [(? & ? & ? & ? & ?) ? ? ?] E. split; try done; cbn in *; [|by rewrite E].
  split_and!; try done. cbn. by rewrite E.
Qed.

(** Other timers and [timer_info] objects. *)
Lemma shares_timers others x k t i : shares mine others (x, k) → tm_wf t →
  shares mine others (with_infos i (with_timers t x), k).
Proof. intros [(? & ? & ? & ? & ?) ? ? ?] Ht. split; try done. Qed.
Lemma shares_infos others x k i : shares mine others (x, k) → shares mine others (with_infos i x, k).
Proof. by intros [(? & ? & ? & ? & ?) ? ? ?]. Qed.

(** Registering the wait. *)
Lemma arm_shares others x k now p rt to :
  shares mine others (x, k) → 0 ≤ fd < 2 ^ 30 → fd ≠ pipe → meets (Armed now p rt 0) (Arming to info) (x, k) →
  ∃ x1 timer r, arm fd (ev_of w) has_iom cur_s cur_f now p rt to info x = Ret (x1, timer, r) ∧
    shares mine others (x1, k) ∧ infos x1 = infos x ∧ ∀ q, timer = Some q → is_Some (heap_ (timers x1) !! q).
Proof.
  intros [(Hw & _ & Ht & Hin & Htm) Ho Ha Hp] Hfd Hne (Hiom & [s Hs] & Hf & Hp0 & Hfr & Hto & W & HW & Hnone).
  cbn [fst snd] in *. subst cur_s.
  destruct (run_op_refines (iom x) W (OpAdd rt (Some s) cur_f fd w None) HW) as (m1 & Hrun & HW1 & Ht1 & _).
  { cbn. rewrite Ht. split_and!; try done; lia. }
  cbn [run_op] in Hrun. apply bind_Ret in Hrun as ([m r] & Hadd & [= -> Hr]).
  assert (Harm : ∃ t timer, arm fd (ev_of w) has_iom (Some s) cur_f now p rt to info x =
                              Ret (with_timers t (with_iom m1 x), timer, r)).
  { unfold arm. rewrite Hiom. cbn [negb]. rewrite Hadd. destruct (negb (to =? u64_max)); do 2 eexists; done. }
  destruct Harm as (t & timer & Harm). eexists _, timer, r. split; [exact Harm|].
  destruct (arm_spec fd (ev_of w) has_iom (Some s) cur_f info to Hto now p rt x _ timer r Htm Hp0 Hfr Harm)
    as (Hwf1 & Hi1 & _ & _ & Hcase).
  split; [|split; [exact Hi1|]].
  - split; [|done|done|done]. split; [done|]. split; [by eexists|]. split; [cbn; by rewrite Ht1|]. by split.
  - intros q ->. by destruct Hcase as [[[=] _]|(_ & [= ->] & ? & _)].
Qed.

Lemma cancel_shares others x k timer :
  shares mine others (x, k) → (∀ p, timer = Some p → is_Some (heap_ (timers x) !! p)) →
  ∃ x', cancel_timer timer x = Ret x' ∧ shares mine others (x', k) ∧ infos x' = infos x.
Proof.
  intros Hsh Ht. pose proof (sh_good _ _ _ Hsh) as (_ & _ & _ & _ & Htm).
  destruct timer as [p|]; cbn [cancel_timer]; [|by exists x].
  destruct (cancel_ok p (timers x) Htm (Ht p eq_refl)) as (t & b & -> & Hwf & _). cbn.
  exists (with_timers t x). split; [done|]. split; [|done]. by apply (shares_timers _ _ _ t (infos x)).
Qed.

(** Waking up: on to [again], or back with the reason. *)
Lemma wake_shares others x k again timer :
  shares mine others (x, k) → is_Some (infos x !! info) →
  (∀ p, timer = Some p → is_Some (heap_ (timers x) !! p)) →
  ∃ c' x', wake again info timer x = Ret (c', x') ∧ shares mine others (x', k) ∧
    ((∃ n err, c' = Finished n err) ∨ c' = again ∧ is_Some (infos x' !! info)).
Proof.
  intros Hsh [v Hv] Ht. destruct (cancel_shares others x k timer Hsh Ht) as (x1 & Hc & Hsh1 & Hi).
  unfold wake. rewrite Hc. cbn [mbind outcome_bind]. rewrite Hi, Hv. destruct (negb (v =? 0)).
  - eexists _, _. split; [done|]. split; [by apply shares_infos|]. left. by eexists _, _.
  - eexists _, _. split; [done|]. split; [done|]. right. split; [done|]. rewrite Hi. eauto.
Qed.

(** One item of the script. *)
Definition keeps_on (made : bool) (step : news → pc → state → outcome (pc * state)) : Prop :=
  ∀ x c st others, shares mine others st → held made c st.1 → meets x c st →
    (∀ n err, c ≠ Finished n err) →
    ∃ c' st', step x c st = Ret (c', st') ∧ shares mine (others_after [x] others) st' ∧ held made c' st'.1.

Lemma io_step_keeps_on : 0 ≤ fd < 2 ^ 30 → fd ≠ pipe →
  keeps_on true (io_step fd has_iom cur_s cur_f (ev_of w)).
Proof.
  intros Hfd Hne x c [y k] others Hsh Hh Hm Hnf. cbn [fst snd] in *.
  destruct x as [st' o|n err k'|now p rt err| |rt error err]; cbn [others_after].
  - destruct Hm as (Hsh' & Hk & Hi). exists c, st'. split; [done|]. split; [done|]. by eapply held_meanwhile.
  - destruct c as [|to i| | | |]; try done; cbn [io_step] in *; cbn in Hm.
    + eexists _, _. split; [done|]. split; [by eapply shares_kernel|done].
    + destruct Hh as [-> Hi]. unfold do_io_called. destruct (_ && _); [|destruct (_ && _)].
      * eexists _, _. split; [done|]. split; [by eapply shares_kernel|]. by split.
      * eexists _, _. split; [done|]. split; [by eapply shares_kernel|]. split; [done|auto].
      * eexists _, _. split; [done|]. split; [|done]. cbn [snd]. by eapply shares_infos, shares_kernel.
  - destruct c as [| |to i| | |]; try done. destruct Hh as [-> Hi]. cbn [io_step].
    destruct (arm_shares others y k now p rt to Hsh Hfd Hne Hm) as (y1 & timer & r & Harm & Hsh1 & Hi1 & Ht1).
    unfold do_io_arm. rewrite Harm. cbn [mbind outcome_bind]. destruct (negb (r =? 0)).
    + destruct (cancel_shares others y1 k timer Hsh1 Ht1) as (y2 & -> & Hsh2 & _). cbn [mbind outcome_bind].
      eexists _, _. split; [done|]. split; [by apply shares_infos|done].
    + cbn [mbind outcome_bind]. eexists _, _. split; [done|]. split; [done|]. cbn. by rewrite Hi1.
  - destruct c as [| | |to i timer| |]; try done. destruct Hh as (-> & Hi & Ht). cbn [io_step].
    destruct (wake_shares others y k (Calling to info) timer Hsh Hi Ht) as (c' & y' & Hw & Hsh' & Hc).
    unfold do_io_wake. rewrite Hw. cbn [mbind outcome_bind]. eexists _, _. split; [done|]. split; [done|].
    destruct Hc as [(n & err & ->)|[-> Hi']]; [done|]. by split.
  - destruct c; done.
Qed.

Lemma connect_step_keeps_on : 0 ≤ fd < 2 ^ 30 → fd ≠ pipe → w = CWrite →
  keeps_on false (connect_step fd has_iom cur_s cur_f info).
Proof.
  intros Hfd Hne Hw x c [y k] others Hsh Hh Hm Hnf. cbn [fst snd] in *.
  destruct x as [st' o|n err k'|now p rt err| |rt error err]; cbn [others_after].
  - destruct Hm as (Hsh' & Hk & Hi). exists c, st'. split; [done|]. split; [done|]. by eapply held_meanwhile.
  - destruct c as [|to i| | | |]; try done; cbn [connect_step] in *; cbn in Hm.
    + eexists _, _. split; [done|]. split; [by eapply shares_kernel|done].
    + destruct Hh as [-> Hi]. unfold connect_called. destruct (n =? 0); [|destruct (_ || _)].
      * eexists _, _. split; [done|]. split; [by eapply shares_kernel|done].
      * eexists _, _. split; [done|]. split; [by eapply shares_kernel|done].
      * eexists _, _. split; [done|]. split; [by eapply shares_infos, shares_kernel|].
        split; [done|]. cbn. rewrite lookup_insert_eq. eauto.
  - destruct c as [| |to i| | |]; try done. destruct Hh as [-> Hi]. cbn [connect_step].
    destruct (arm_shares others y k now p rt to Hsh Hfd Hne Hm) as (y1 & timer & r & Harm & Hsh1 & Hi1 & Ht1).
    unfold connect_arm. change WRITE with (ev_of CWrite). rewrite <-Hw, Harm. cbn [mbind outcome_bind]. destruct (r =? 0).
    + cbn [mbind outcome_bind]. eexists _, _. split; [done|]. split; [done|]. cbn. by rewrite Hi1.
    + destruct (cancel_shares others y1 k timer Hsh1 Ht1) as (y2 & -> & Hsh2 & _). cbn [mbind outcome_bind].
      by eexists _, _.
  - destruct c as [| | |to i timer| |]; try done. destruct Hh as (-> & Hi & Ht). cbn [connect_step].
    destruct (wake_shares others y k Asking timer Hsh Hi Ht) as (c' & y' & Hwk & Hsh' & Hc).
    unfold connect_wake. rewrite Hwk. cbn [mbind outcome_bind]. eexists _, _. split; [done|]. split; [done|].
    by destruct Hc as [(n & err & ->)|[-> _]].
  - destruct c; try done. cbn [connect_step]. unfold connect_finish.
    destruct (rt =? -1); [|destruct (error =? 0)]; eexists _, _; (split; [done|]); (split; [by apply shares_infos|done]).
Qed.

(** The whole script. *)
Lemma run_script_returns made step script c st others :
  keeps_on made step → shares mine others st → held made c st.1 → fits step script c st →
  ∃ st' n, run_script step script c st = Ret (st', n) ∧ shares mine (others_after script others) st'.
Proof.
  intros Hk. revert c st others. induction script as [|x r IH]; intros c st others Hsh Hh Hf.
  - destruct c; try done. by eexists _, _.
  - assert (Hgo : (∀ n err, c ≠ Finished n err) → meets x c st → (∀ c' st', step x c st = Ret (c', st') → fits step r c' st') →
      ∃ st' n, ('(c', st') ← step x c st; run_script step r c' st') = Ret (st', n) ∧
        shares mine (others_after (x :: r) others) st').
    { intros Hnf Hm Hr. destruct (Hk x c st others Hsh Hh Hm Hnf) as (c' & st' & E & Hsh' & Hh'). rewrite E. cbn [mbind outcome_bind].
      destruct (IH c' st' _ Hsh' Hh' (Hr _ _ E)) as (st2 & n & E2 & Hsh2). eexists _, _. split; [exact E2|].
      by destruct x. }
    destruct c; cbn [run_script fits] in *; [by (destruct Hf as [Hm Hr]; apply Hgo)..|done].
Qed.
End Fits.

(** A context exists for every registered descriptor. *)
Lemma get_ctx_ok fd x : fdm_wf (fds x) → fd_ok fd ∨ fd = -1 →
  ∃ o, get_ctx fd x = Ret o ∧ ∀ c, o = Some c → ∃ p, ctx_of (fds x) fd = Some p.
Proof.
  intros Hw Hfd. unfold get_ctx. rewrite get_read_spec by done.
  destruct (ctx_of (fds x) fd) as [p|] eqn:E; cbn; [|by eexists].
  destruct (fdm_ctx _ Hw fd p E) as (c & -> & _). eauto.
Qed.

(** What a reading or writing call, and [connect], must meet. *)
Definition io_fits (fd : Z) has_iom cur_s cur_f (info : Z) (mine : gset Z) (hook : bool) (f : io_fun)
    (script : list news) (st : state) : Prop :=
  ∀ c x, do_io_enter fd (io_timeout f) hook info st.1 = Ret (c, x) →
    ∃ w, io_event f = ev_of w ∧
      fits fd has_iom cur_s cur_f info mine w (io_step fd has_iom cur_s cur_f (io_event f)) script c (x, st.2).
Definition connect_fits (fd : Z) has_iom cur_s cur_f (info : Z) (mine : gset Z) (hook : bool) (timeout_ms : Z)
    (script : list news) (st : state) : Prop :=
  ∀ c, connect_enter fd hook timeout_ms info st.1 = Ret c →
    fits fd has_iom cur_s cur_f info mine CWrite (connect_step fd has_iom cur_s cur_f info) script c st.

(** A hooked call comes back: whatever the original function answers and
    however often the fiber waits, no assertion fails and nothing is undefined,
    and what is the caller's is open as before. *)
Lemma hooked_io_returns fd has_iom cur_s cur_f info mine hook f script st others :
  shares mine others st → fd_ok fd → fd ≠ pipe →
  io_fits fd has_iom cur_s cur_f info mine hook f script st →
  ∃ st' n, hooked_io fd has_iom cur_s cur_f info hook f script st = Ret (st', n) ∧
    shares mine (others_after script others) st'.
Proof.
  intros Hsh Hfd Hne Hf. destruct st as [y k]. unfold hooked_io, io_fits in *. cbn [fst snd] in *.
  pose proof (sh_good _ _ _ Hsh) as (Hw & _).
  assert (He : ∃ c x, do_io_enter fd (io_timeout f) hook info y = Ret (c, x) ∧ shares mine others (x, k) ∧ held info true c x).
  { unfold do_io_enter. destruct hook; cbn [negb]; [|by exists Direct, y].
    destruct (get_ctx_ok fd y Hw (or_introl Hfd)) as (o & -> & _). cbn [mbind outcome_bind].
    destruct o as [c|]; [|by eexists _, _]. destruct (isClosed_ c); [by eexists _, _|].
    destruct (_ || _); [by eexists _, _|]. eexists _, _. split; [done|]. split; [by apply shares_infos|].
    split; [done|]. intros _. cbn. rewrite lookup_insert_eq. eauto. }
  destruct He as (c & x & He & Hsh1 & Hh). destruct (Hf c x He) as (w & Hev & Hfits). rewrite He. cbn [mbind outcome_bind].
  rewrite Hev in *. eapply run_script_returns; [apply io_step_keeps_on; [apply Hfd|done]|done|exact Hh|exact Hfits].
Qed.

Lemma hooked_connect_returns fd has_iom cur_s cur_f info mine hook ms script st others :
  shares mine others st → fd_ok fd → fd ≠ pipe →
  connect_fits fd has_iom cur_s cur_f info mine hook ms script st →
  ∃ st' n, hooked_connect fd has_iom cur_s cur_f info hook ms script st = Ret (st', n) ∧
    shares mine (others_after script others) st'.
Proof.
  intros Hsh Hfd Hne Hf. unfold hooked_connect, connect_fits in *. pose proof (sh_good _ _ _ Hsh) as (Hw & _).
  assert (He : ∃ c, connect_enter fd hook ms info st.1 = Ret c ∧ held info false c st.1).
  { unfold connect_enter. destruct hook; cbn [negb]; [|by exists Direct].
    destruct (get_ctx_ok fd st.1 Hw (or_introl Hfd)) as (o & -> & _). cbn [mbind outcome_bind].
    destruct o as [c|]; [|by eexists]. destruct (isClosed_ c); [by eexists|].
    destruct (negb _); [by eexists|]. destruct (userNonblock_ c); by eexists. }
  destruct He as (c & He & Hh). rewrite He. cbn [mbind outcome_bind].
  eapply run_script_returns; [by apply connect_step_keeps_on; [apply Hfd|..]|done|exact Hh|by apply Hf].
Qed.
End Returns.
End HookRun.
