(* ===== verification/Waiting.v ===== *)
(** * A suspended call is not forgotten (hook.cpp with timer.cpp and iomanager.cpp)

    Hook shows what a hooked call may return.  This file shows that it is woken:
    from the moment [do_io] has registered its wait, whatever events, timers
    and scans of the rest of the program come, the fiber either still waits in
    the event manager or was handed to the scheduler, and its timer sees to the
    latter. *)
From S2P Require Import Prelude StdSet Timer FdManager IOManager Hook.

(** The world, the callbacks a scan took that have not run yet, and everything
    that was handed to [schedule] since the call was suspended. *)
Record wsys : Type := mkWait {
  wworld : world;
  wtaken : list (Z * callback timer_fn Z);
  woken : list (Z * task timer_fn) }.

Inductive wlabel : Type := WEvent | WOther | WScan (now : Z) | WRun.

Section Waiting.
(** The descriptor, the event and the fiber of the call, its scheduler, its
    [timer_info] and its timeout. *)
Context (fd : Z) (w : which) (this f info to : Z).

Definition me : Z * task timer_fn := (this, TFiber (Some f)).
Abbreviation waiters := (gmap (Z * which) (Z * task timer_fn)).
Abbreviation cw := (cancel_wait fd (ev_of w) info).

(** What the rest of the program keeps to: the promises of the event manager,
    and nobody deletes the event another call waits for. *)
Definition permitted_op (o : IOManager.op (S := Z) (C := timer_fn)) (m : IOManager Z timer_fn) : Prop :=
  (∀ W, implements m W → op_ok (tickleFds_ m).1 (isize m) o W) ∧ ∀ rt, o ≠ OpDel rt fd w.

(** The functions of timers are those hook.cpp makes, about its descriptors. *)
Definition fn_ok (c : callback timer_fn Z) (m : IOManager Z timer_fn) : Prop :=
  match c with
  | Fun (CancelWait _ fd' ev) | OnTimer _ (Some (CancelWait _ fd' ev)) =>
      0 ≤ fd' ∧ fd' ≠ (tickleFds_ m).1 ∧ ∃ w', ev = ev_of w'
  | _ => True
  end.

(** A step of the rest of the program while the call is suspended: an event
    call, anything that leaves the events and what belongs to the call alone, a
    scan of the timers, a taken callback that runs and whose [epoll_ctl], if it
    comes to one, succeeds. *)
Inductive wstep : wlabel → wsys → wsys → Prop :=
  | wstep_event o r m ks x l k :
      permitted_op o (iom x) → IOManager.run_op o (iom x) = Ret (m, (r, ks)) →
      wstep WEvent (mkWait x l k) (mkWait (with_iom m x) l (k ++ ks))
  | wstep_other x x' l k :
      other info x x' → iom x' = iom x → wstep WOther (mkWait x l k) (mkWait x' l k)
  | wstep_scan now q x l k t cbs :
      previouseTime_ (timers x) ≤ now → 0 < q → heap_ (timers x) !! q = None →
      listExpiredCb now q (timers x) [] = (t, cbs) →
      wstep (WScan now) (mkWait x l k) (mkWait (with_timers t x) (l ++ ((λ c, (now, c)) <$> omap id cbs)) k)
  | wstep_run th t c x x' l1 l2 k ks :
      fn_ok c (iom x) → run_expired th 0 c x = Ret (x', ks) →
      wstep WRun (mkWait x (l1 ++ (t, c) :: l2) k) (mkWait x' (l1 ++ l2) (k ++ ks)).

Inductive wsteps : list wlabel → wsys → wsys → Prop :=
  | wsteps_nil s : wsteps [] s s
  | wsteps_snoc tr lb s s1 s2 : wsteps tr s s1 → wstep lb s1 s2 → wsteps (tr ++ [lb]) s s2.

(** ** The event manager keeps or wakes a waiter *)

Lemma drop_lookup {A} (W : gmap (Z * which) A) fd' l k : k.1 ≠ fd' ∨ k.2 ∉ l →
  foldr (λ v, delete (fd', v)) W l !! k = W !! k.
Proof.
  induction l as [|v l IH]; intros Hk; cbn; [done|]. rewrite lookup_delete_ne.
  - apply IH. set_solver.
  - intros <-. cbn in Hk. set_solver.
Qed.

Lemma spec_act_keeps (rt fd' yes : Z) (l : list which) (W : waiters) (x : Z * task timer_fn) : W !! (fd, w) = Some x →
  (spec_act rt fd' yes l W).1 !! (fd, w) = Some x ∨ x ∈ (spec_act rt fd' yes l W).2.2.
Proof.
  intros Hx. unfold spec_act. destruct (_ || _); cbn; [by left|].
  destruct (decide (fd = fd' ∧ w ∈ l)) as [[<- Hl]|Hn].
  - right. apply list_elem_of_omap. eauto.
  - left. unfold drop. rewrite drop_lookup; [done|]. cbn. destruct (decide (fd = fd')); [right|left]; naive_solver.
Qed.

Lemma spec_op_keeps (o : IOManager.op (S := Z) (C := timer_fn)) (m : IOManager Z timer_fn) (W : waiters) x : op_ok (tickleFds_ m).1 (isize m) o W → (∀ rt, o ≠ OpDel rt fd w) → W !! (fd, w) = Some x →
  (spec_op o W).1 !! (fd, w) = Some x ∨ x ∈ (spec_op o W).2.2.
Proof.
  intros Hok Hdel Hx. destruct o as [rt cs cf fd' w' k|rt fd' w'|rt fd' w'|rt fd'|rt fd' ev]; cbn [spec_op].
  - destruct Hok as (_ & _ & Hnone & _). left. destruct cs as [s|]; [|done]. destruct (rt =? 0); [|done].
    cbn. rewrite lookup_insert_ne; [done|]. intros [= -> ->]. congruence.
  - destruct (decide ((fd', w') = (fd, w))) as [[= -> ->]|Hne]; [by destruct (Hdel rt)|]. left.
    unfold spec_act. destruct (_ || _); cbn; [done|]. rewrite lookup_delete_ne; done.
  - by apply spec_act_keeps.
  - by apply spec_act_keeps.
  - by apply spec_act_keeps.
Qed.

(** ** The invariant *)

(** The timer of the call has yet to be found due, or its callback to run. *)
Definition armed (deadline : Z) (tr : list wlabel) (s : wsys) : Prop :=
  to = u64_max ∨
  (∃ p t, pending (timers (wworld s)) !! p = Some t ∧ cb_ t = Some cw ∧ next_ t = deadline ∧
     ∀ n, WScan n ∈ tr → n < deadline) ∨
  (∃ t, (t, cw) ∈ wtaken s).

Record WInv (deadline : Z) (tr : list wlabel) (s : wsys) : Prop := mk_winv {
  winv_wf : tm_wf (timers (wworld s));
  winv_pending : ∀ p t, pending (timers (wworld s)) !! p = Some t → owned info (cb_ t) → cb_ t = Some cw;
  winv_taken : ∀ x, x ∈ wtaken s → owned info (Some x.2) → x.2 = cw;
  winv_waits : ∃ W, implements (iom (wworld s)) W ∧ W !! (fd, w) = Some me;
  winv_info : infos (wworld s) !! info = Some 0;
  winv_armed : armed deadline tr s }.

Lemma due_callback (d : Timer timer_fn Z → bool) tm k : tm_wf tm →
  k ∈ omap id (due_callbacks d tm) ↔ ∃ p t, pending tm !! p = Some t ∧ cb_ t = Some k ∧ d t = true.
Proof.
  intros Hwf. rewrite list_elem_of_omap. unfold due_callbacks. split.
  - intros (o & Ho & Hk). cbn in Hk. subst o.
    apply list_elem_of_In, in_map_iff in Ho as (p & Hcb & Hin). apply list_elem_of_In, list_elem_of_filter in Hin as [Hd _].
    destruct (heap_ tm !! p) as [t|] eqn:Eh; [|done]. cbn in Hcb, Hd. exists p, t. split; [|done].
    apply pending_Some. rewrite Hcb. eauto.
  - intros (p & t & Hp & Hk & Hd). exists (Some k). split; [|done].
    pose proof (proj1 (pending_Some _ _ _) Hp) as [Hh _].
    apply list_elem_of_In, in_map_iff. exists p. rewrite Hh. split; [done|].
    apply list_elem_of_In, list_elem_of_filter. rewrite Hh. split; [done|]. apply (wf_live _ Hwf). eauto.
Qed.

Definition ok (deadline : Z) (tr : list wlabel) (s : wsys) : Prop := me ∈ woken s ∨ WInv deadline tr s.

Lemma armed_snoc deadline tr lb s s' :
  (∀ p t, pending (timers (wworld s)) !! p = Some t → owned info (cb_ t) → pending (timers (wworld s')) !! p = Some t) →
  (∀ x, x ∈ wtaken s → x ∈ wtaken s') → (∀ n, lb = WScan n → n < deadline) →
  armed deadline tr s → armed deadline (tr ++ [lb]) s'.
Proof.
  intros Hp Ht Hlb [?|[(p & t & Hpt & Hcb & Hnext & Hn)|[t Hin]]]; [by left| |right; right; eauto].
  right; left. exists p, t. split_and!; [|done..|].
  - apply Hp; [done|]. rewrite Hcb. by left.
  - intros n [Hin|Hin%list_elem_of_singleton]%elem_of_app; auto.
Qed.

Lemma ok_event deadline tr s s' : WInv deadline tr s → wstep WEvent s s' → ok deadline (tr ++ [WEvent]) s'.
Proof.
  intros [Hwf Hp Ht (W & Him & HW) Hi Ha] Hs. inversion Hs as [o r m ks x l k [Hok Hdel] Hrun| | |]; subst. cbn in *.
  destruct (run_op_refines (iom x) W o Him (Hok W Him)) as (m' & Hrun' & Him' & _).
  rewrite Hrun in Hrun'. injection Hrun' as -> Hr.
  destruct (spec_op_keeps o (iom x) W me (Hok W Him) Hdel HW) as [HW'|Hin].
  - right. split; cbn; eauto. apply (armed_snoc deadline tr WEvent (mkWait x l k)); [done..|exact Ha].
  - left. cbn. apply elem_of_app. right. by rewrite <-Hr in Hin.
Qed.

Lemma ok_other deadline tr s s' : WInv deadline tr s → wstep WOther s s' → ok deadline (tr ++ [WOther]) s'.
Proof.
  intros [Hwf Hp Ht (W & Him & HW) Hi Ha] Hs. inversion Hs as [|x x' l k (Hwf' & _ & Hi' & Hpd) Hm| |]; subst. cbn in *.
  right. split; cbn; [done| |done| | |].
  - intros p t Hpt Ho. apply (Hp p t); [by apply Hpd|done].
  - exists W. by rewrite Hm.
  - by rewrite Hi'.
  - apply (armed_snoc deadline tr WOther (mkWait x l k)); [|done..|exact Ha]. cbn. intros p t Hpt Ho. by apply Hpd.
Qed.

Lemma ok_scan deadline tr now s s' : WInv deadline tr s → wstep (WScan now) s s' → ok deadline (tr ++ [WScan now]) s'.
Proof.
  intros [Hwf Hp Ht (W & Him & HW) Hi Ha] Hs. inversion Hs as [| |now' q x l k t cbs Hprev Hq Hqn E|]; subst. cbn in *.
  destruct (listExpiredCb_refines now q (timers x) [] t cbs Hwf Hq Hqn E) as (Hwf' & Hpd & Hcbs).
  assert (Hroll : (detectClockRollover now (previouseTime_ (timers x))).1 = false) by (unfold detectClockRollover; cbn; lia).
  rewrite Hroll in Hpd, Hcbs. cbn in Hcbs. right. split; cbn; [done| | |by eauto|done|].
  - intros p t'. rewrite Hpd. unfold expire_spec. rewrite lookup_omap. intros (t0 & Ht0 & Hcase)%bind_Some.
    destruct (due false now t0); [|injection Hcase as <-; by eapply Hp].
    destruct (recurring_ t0) eqn:Er; [|done]. injection Hcase as <-.
    assert (cb_ (Timer.fired now t0) = cb_ t0) as -> by (unfold Timer.fired; by rewrite Er). by eapply Hp.
  - intros y [Hy|Hy]%elem_of_app; [by apply Ht|]. apply list_elem_of_fmap in Hy as (c & -> & Hc). cbn. rewrite Hcbs in Hc.
    apply (due_callback _ _ _ Hwf) in Hc as (p & t0 & Hpt & Hcb & _). intros Ho.
    specialize (Hp p t0 Hpt). rewrite Hcb in Hp. by injection (Hp Ho).
  - destruct Ha as [?|[(p & t0 & Hpt & Hcb & Hnext & Hn)|[t0 Hin]]]; [by left|right|right; right].
    + cbn in Hpt. destruct (due false now t0) eqn:Hd.
      * right. exists now. cbn. apply elem_of_app. right. apply list_elem_of_fmap. exists cw. split; [done|].
        rewrite Hcbs. apply (due_callback _ _ _ Hwf). eauto.
      * left. exists p, t0. cbn. split_and!; [|done..|].
        -- rewrite Hpd. unfold expire_spec. rewrite lookup_omap. apply bind_Some. exists t0. by rewrite Hd.
        -- intros n [Hin|[= ->]%list_elem_of_singleton]%elem_of_app; [auto|]. unfold due in Hd. cbn in Hd. lia.
    + exists t0. cbn. apply elem_of_app. by left.
Qed.

(** The function a callback runs, when it runs one. *)
Lemma run_expired_fn th c x x' ks : run_expired th 0 c x = Ret (x', ks) →
  (x' = x ∧ ks = [] ∧ ∃ i g, c = OnTimer i g ∧ infos x !! i = None) ∨
  ∃ g, (c = Fun g ∨ ∃ i, c = OnTimer i (Some g)) ∧ run_timer_fn th 0 g x = Ret (x', ks).
Proof.
  unfold run_expired. destruct c as [g|i [g|]]; cbn; intros H.
  - right. eauto.
  - case_bool_decide as Hi; [right; eauto|left]. injection H as <- <-. split_and!; [done..|].
    exists i, (Some g). split; [done|]. by apply eq_None_not_Some.
  - case_bool_decide as Hi; [done|left]. injection H as <- <-. split_and!; [done..|].
    exists i, None. split; [done|]. by apply eq_None_not_Some.
Qed.

Lemma run_fn_keeps th g x x' ks W : (∀ i fd' ev, g = CancelWait i fd' ev → 0 ≤ fd' ∧ fd' ≠ (tickleFds_ (iom x)).1 ∧ ∃ w', ev = ev_of w') →
  (∀ fd' ev, g = CancelWait info fd' ev → fd' = fd ∧ ev = ev_of w) →
  implements (iom x) W → W !! (fd, w) = Some me → infos x !! info = Some 0 → run_timer_fn th 0 g x = Ret (x', ks) →
  timers x' = timers x ∧
  (me ∈ ks ∨ (∃ W', implements (iom x') W' ∧ W' !! (fd, w) = Some me) ∧ infos x' !! info = Some 0 ∧
     g ≠ CancelWait info fd (ev_of w)).
Proof.
  intros Hok Hown Him HW Hi Hrun. destruct (run_timer_fn_frame th 0 g x x' ks Hrun) as [Ht _]. split; [done|].
  destruct g as [i fd' ev|g]; cbn in Hrun; [|injection Hrun as <- _; right; eauto].
  destruct (infos x !! i) as [c|] eqn:Ei; [|injection Hrun as <- _; right; split_and!; [by eauto|done|]; intros [= -> ]; congruence].
  destruct (Z.eqb_spec c 0) as [->|Hc]; cbn in Hrun.
  2: { injection Hrun as <- _. right. split_and!; [by eauto|done|]. intros [= ->]. congruence. }
  apply bind_Ret in Hrun as ([[m b] ks'] & Hcancel & Hrun). injection Hrun as <- <-.
  destruct (Hok i fd' ev eq_refl) as (Hfd & Htf & w' & ->).
  destruct (run_op_refines (iom x) W (OpCancel 0 fd' w') Him (conj Hfd Htf)) as (m' & Hrun' & Him' & _).
  cbn [IOManager.run_op] in Hrun'. rewrite Hcancel in Hrun'. cbn in Hrun'. injection Hrun' as <- Hr.
  destruct (spec_op_keeps (OpCancel 0 fd' w') (iom x) W me (conj Hfd Htf)) as [HW'|Hin]; [done|done| |left].
  - destruct (decide (i = info)) as [->|Hne].
    + destruct (Hown fd' (ev_of w') eq_refl) as [-> Hev]. assert (w' = w) as -> by (by destruct w', w).
      left. cbn in HW'. rewrite (spec_act_cons _ _ _ _ _ me) in HW' by done. cbn in HW'. by rewrite lookup_delete_eq in HW'.
    + right. cbn. split_and!; [by eauto| |by intros [= ->]]. by rewrite lookup_insert_ne.
  - cbn [IOManager.spec_op] in Hr, Hin. rewrite <-Hr in Hin. exact Hin.
Qed.

Lemma ok_run deadline tr s s' : WInv deadline tr s → wstep WRun s s' → ok deadline (tr ++ [WRun]) s'.
Proof.
  intros [Hwf Hp Ht (W & Him & HW) Hi Ha] Hs. inversion Hs as [| | |th t c x x' l1 l2 k ks Hfn Hrun]; subst. cbn in *.
  assert (Hsub : ∀ y, y ∈ l1 ++ l2 → y ∈ l1 ++ (t, c) :: l2) by set_solver.
  assert (Hc : owned info (Some c) → c = cw) by (apply (Ht (t, c)); set_solver).
  assert (Hdone : ∀ W', timers x' = timers x → implements (iom x') W' → W' !! (fd, w) = Some me → infos x' !! info = Some 0 →
    c ≠ cw → ok deadline (tr ++ [WRun]) (mkWait x' (l1 ++ l2) (k ++ ks))).
  { intros W' Htm Him' HW' Hi' Hne. right. split; cbn; rewrite ?Htm; eauto.
    destruct Ha as [?|[(p & t0 & Hpt & Hcb & Hnext & Hn)|[t0 Hin]]]; [by left|right|right; right].
    - left. exists p, t0. cbn. rewrite Htm. split_and!; [done..|]. intros n [|[=]%list_elem_of_singleton]%elem_of_app; auto.
    - exists t0. cbn in *. set_solver. }
  destruct (run_expired_fn th c x x' ks Hrun) as [(-> & -> & i & g & -> & Hdead)|(g & Hg & Hr)].
  - apply (Hdone W); try done. intros [= -> _]. congruence.
  - destruct (run_fn_keeps th g x x' ks W) as [Htm [Hin|((W' & Him' & HW') & Hi' & Hne)]]; try done.
    + intros i fd' ev ->. by destruct Hg as [->|[j ->]].
    + intros fd' ev ->. assert (owned info (Some c)) as Ho by (destruct Hg as [->|[j ->]]; cbn; eauto).
      specialize (Hc Ho). destruct Hg as [->|[j ->]]; [done|]. by injection Hc.
    + left. cbn. apply elem_of_app. by right.
    + apply (Hdone W'); try done. destruct Hg as [->|[j ->]]; [done|]. by intros [= _ ->].
Qed.

Lemma ok_steps deadline tr s s' : ok deadline [] s → wsteps tr s s' → ok deadline tr s'.
Proof.
  intros H0. induction 1 as [|tr lb s s1 s2 _ IH Hst]; [done|]. destruct (IH H0) as [Hin|HI].
  - left. inversion Hst; subst; cbn in *; try done; apply elem_of_app; by left.
  - destruct lb; eauto using ok_event, ok_other, ok_scan, ok_run.
Qed.
End Waiting.

(** The invariant holds when the wait has been registered. *)
Lemma arm_WInv (fd : Z) (w : which) (this f info to now p rt : Z) (w0 w1 : world) (timer : option Z)
    (l0 : list (Z * callback timer_fn Z)) (W0 : gmap (Z * which) (Z * task timer_fn)) :
  0 ≤ to < 2 ^ 64 → 0 ≤ fd < 2 ^ 30 → fd ≠ (tickleFds_ (iom w0)).1 →
  tm_wf (timers w0) → 0 < p → heap_ (timers w0) !! p = None → infos w0 !! info = Some 0 →
  (∀ q t, pending (timers w0) !! q = Some t → owned info (cb_ t) → cb_ t = Some (cancel_wait fd (ev_of w) info)) →
  (∀ x, x ∈ l0 → owned info (Some x.2) → x.2 = cancel_wait fd (ev_of w) info) →
  implements (iom w0) W0 → W0 !! (fd, w) = None →
  arm fd (ev_of w) true (Some this) (f, true) now p rt to info w0 = Ret (w1, timer, 0) →
  WInv fd w this f info to (u64 (now + to)) [] (mkWait w1 l0 []).
Proof.
  intros Hto Hfd Htf Hwf Hp0 Hfr Hi Hpend Htaken Him Hnone Harm.
  edestruct arm_spec as (Hwf1 & Hi1 & _ & _ & Hcase); [exact Hto|exact Hwf|exact Hp0|exact Hfr|exact Harm|].
  assert (Hiom : ∃ W, implements (iom w1) W ∧ W !! (fd, w) = Some (me this f)).
  { unfold arm in Harm. cbn [negb] in Harm. case_match. apply bind_Ret in Harm as ([m r] & Hadd & Harm).
    injection Harm as <- _ ->. cbn [iom with_timers with_iom].
    destruct (run_op_refines (iom w0) W0 (OpAdd rt (Some this) (f, true) fd w None) Him) as (m' & Hrun & Him' & _); [done|].
    cbn [IOManager.run_op] in Hrun. rewrite Hadd in Hrun. cbn in Hrun. injection Hrun as <- Hres. cbn in Him'.
    destruct (rt =? 0); [|done]. eexists. split; [exact Him'|]. apply lookup_insert_eq. }
  split; cbn; [done| |done|done|by rewrite Hi1|].
  - intros q t Hq Ho. destruct Hcase as [[_ Hpd]|(_ & _ & _ & Hpd)]; rewrite Hpd in Hq; [by eapply Hpend|].
    apply lookup_insert_Some in Hq as [[<- <-]|[_ Hq]]; [done|by eapply Hpend].
  - destruct Hcase as [[-> Hpd]|(Hmax & -> & _ & Hpd)].
    + left. unfold arm in Harm. cbn [negb] in Harm. destruct (Z.eqb_spec to u64_max); [done|]. cbn in Harm.
      apply bind_Ret in Harm as ([m r] & _ & Harm). done.
    + right; left. exists p, (Timer_new now to (Some (cancel_wait fd (ev_of w) info)) false). cbn. rewrite Hpd, lookup_insert_eq.
      split_and!; [done..|]. by intros n ?%elem_of_nil.
Qed.

(** C11: a suspended call is never forgotten.  From the moment a hooked read or
    write has registered its wait, and whatever events, scans and callbacks of
    the rest of the program follow - calls of [cancelEvent] and [cancelAll] and
    stale timers included - its fiber is either still waiting in the event
    manager or has been handed to the scheduler; and when the call has a
    timeout, a scan came at or after its deadline and the callbacks that scans
    took have run, it has been handed to the scheduler.  The rest of the program
    may not delete the event, the [epoll_ctl] of a timer's [cancelEvent] has to
    succeed ([failed_cancel_forgets]), and the timer is not found due before the
    event is added ([early_timer_forgets]). *)
Theorem wait_not_forgotten (fd : Z) (w : which) (this f info to now p rt err : Z) (w0 w1 : world) (timer : option Z)
    (l0 : list (Z * callback timer_fn Z)) (W0 : gmap (Z * which) (Z * task timer_fn)) (tr : list wlabel) (s : wsys) :
  0 ≤ to < 2 ^ 64 → 0 ≤ fd < 2 ^ 30 → fd ≠ (tickleFds_ (iom w0)).1 →
  tm_wf (timers w0) → 0 < p → heap_ (timers w0) !! p = None → infos w0 !! info = Some 0 →
  (∀ q t, pending (timers w0) !! q = Some t → owned info (cb_ t) → cb_ t = Some (cancel_wait fd (ev_of w) info)) →
  (∀ x, x ∈ l0 → owned info (Some x.2) → x.2 = cancel_wait fd (ev_of w) info) →
  implements (iom w0) W0 → W0 !! (fd, w) = None →
  do_io_arm fd (ev_of w) true (Some this) (f, true) now p rt err to info w0 = Ret (Holding to info timer, w1) →
  wsteps fd w info tr (mkWait w1 l0 []) s →
  (me this f ∈ woken s ∨ waiter (iom (wworld s)) fd w = Some (me this f)) ∧
  (to ≠ u64_max → (∃ n, WScan n ∈ tr ∧ u64 (now + to) ≤ n) → wtaken s = [] → me this f ∈ woken s).
Proof.
  intros Hto Hfd Htf Hwf Hp0 Hfr Hi Hpend Htaken Him Hnone Harm Hsteps.
  unfold do_io_arm in Harm. apply bind_Ret in Harm as ([[w1' timer'] r] & Harm & Hr).
  destruct (Z.eqb_spec r 0) as [->|Hr0]; cbn [negb] in Hr.
  2: { apply bind_Ret in Hr as (w2 & _ & Hr). done. }
  injection Hr as -> ->.
  assert (HI : WInv fd w this f info to (u64 (now + to)) [] (mkWait w1 l0 [])) by by eapply arm_WInv.
  destruct (ok_steps fd w this f info to (u64 (now + to)) tr _ s (or_intror HI) Hsteps) as [Hin|HI']; [by split; [left|]|].
  split.
  - right. destruct (winv_waits _ _ _ _ _ _ _ _ _ HI') as (W & [_ HW] & Hme). by rewrite HW by lia.
  - intros Hmax (n & Hn & Hle) Hnil. destruct (winv_armed _ _ _ _ _ _ _ _ _ HI') as [?|[(q & t & _ & _ & _ & Hno)|[t Hin]]]; [done| |].
    + specialize (Hno n Hn). lia.
    + rewrite Hnil in Hin. by apply elem_of_nil in Hin.
Qed.

(** The read of Hook's example: armed at 1000 for 100 ms, no data; a scan at
    1100 takes its callback, which runs. *)
Lemma wait_not_forgotten_witness :
  ∃ s, wsteps 5 CRead 1 [WScan 1100; WRun] (mkWait (here demo3) [] []) s ∧ (1, TFiber (Some 64)) ∈ woken s.
Proof.
  destruct (run_expired 1 0 (cancel_wait 5 READ 1) (here demo4)) as [[w' ks]| | |] eqn:Hrun; [|by vm_compute in Hrun..].
  exists (mkWait w' [] ks).
  assert (Hsteps : wsteps 5 CRead 1 [WScan 1100; WRun] (mkWait (here demo3) [] []) (mkWait w' [] ks)).
  { apply (wsteps_snoc _ _ _ [WScan 1100] _ _ (mkWait (here demo4) [(1100, cancel_wait 5 READ 1)] [])).
    - apply (wsteps_snoc _ _ _ [] _ _ (mkWait (here demo3) [] [])); [constructor|].
      by apply (wstep_scan _ _ _ 1100 24 (here demo3) [] [] _ (listExpiredCb 1100 24 (timers (here demo3)) []).2).
    - apply (wstep_run _ _ _ 1 1100 (cancel_wait 5 READ 1) (here demo4) w' [] [] [] ks); [|exact Hrun].
      cbn. split_and!; [lia|by vm_compute|by exists CRead]. }
  split; [exact Hsteps|].
  refine (proj2 (wait_not_forgotten 5 CRead 1 64 1 100 1000 16 0 0 (here demo2) (here demo3) (Some 16) [] ∅
    [WScan 1100; WRun] _ _ _ _ _ _ _ _ _ _ _ _ _ Hsteps) _ _ _); try done.
  - assert (timers (here demo2) = timers demo_world) as -> by done. apply TimerManager_new_wf.
  - by intros x ?%elem_of_nil.
  - assert (iom (here demo2) = iom demo_world) as -> by done. apply demo_implements.
  - exists 1100. split; [by left|by vm_compute].
Defined.

(** If [epoll_ctl] fails in the timer's [cancelEvent], the call is forgotten: it
    is marked as timed out, but nobody is scheduled and no timer is left. *)
Lemma failed_cancel_forgets :
  ∃ x, run_expired 1 1 (cancel_wait 5 READ 1) (here demo4) = Ret (x, []) ∧
    infos x !! 1 = Some ETIMEDOUT ∧ timers_ (timers x) = [] ∧ waiter (iom x) 5 CRead = Some (me 1 64).
Proof. eexists. by vm_compute. Qed.

(** So it is when another thread finds the timer due before the call has added
    its event, because the timer is armed first: the two halves of [arm] with a
    scan between them. *)
Lemma early_timer_forgets :
  let w1 := with_timers (addConditionTimer 1000 16 100 (Some (CancelWait 1 5 READ)) 1 false (timers (here demo2))).1 (here demo2) in
  let scan := listExpiredCb 1100 24 (timers w1) [] in
  scan.2 = [Some (cancel_wait 5 READ 1)] ∧
  match run_expired 1 0 (cancel_wait 5 READ 1) (with_timers scan.1 w1) with
  | Ret (w2, ks) =>
      ks = [] ∧ infos w2 !! 1 = Some ETIMEDOUT ∧ timers_ (timers w2) = [] ∧
      match addEvent 0 (Some 1) (64, true) 5 READ None (iom w2) with
      | Ret (m, r) => r = 0 ∧ waiter m 5 CRead = Some (me 1 64)
      | _ => False
      end
  | _ => False
  end.
Proof. vm_compute. by split_and!. Qed.
