(* ===== verification/Socket.v ===== *)
(** * Sockets: socket.h, socket.cpp

    A [Socket] is the record of its fields; a method takes it and the state the
    hooked calls work on, and returns both.  The calls that suspend the fiber -
    [connect], [accept] and the reading and writing ones - are arguments: each
    stands for the hooked call run to its end, whatever the rest of the program
    does meanwhile.  For a socket's life they are the calls of HookRun, each with
    a script of what it meets. *)
From S2P Require Import Prelude JsonUtil Timer FdManager IOManager Hook HookRun Address.

(** <sys/socket.h>, <netinet/in.h>, <netinet/tcp.h>. *)
Definition TCP : Z := 1.
Definition UDP : Z := 2.
Definition SO_REUSEADDR : Z := 2.
Definition IPPROTO_TCP : Z := 6.
Definition TCP_NODELAY : Z := 1.

(** The rest of the C library: calls on a descriptor that do not suspend.
    [getsockname_f] and [getpeername_f] give the address as it stands in a buffer
    for addresses of the family, its length included; [so_error_f] is
    [getsockopt(SO_ERROR)]. *)
Class NetLibc (K : Type) : Type := {
  bind_f : Z → list Z → K → K * Z;
  listen_f : Z → Z → K → K * Z;
  setsockopt_int_f : Z → Z → Z → Z → K → K * Z;
  so_error_f : Z → K → option Z;
  getsockname_f : Z → Z → K → option Address;
  getpeername_f : Z → Z → K → option Address;
  unlink_f : list Z → K → K;
  errno : K → Z }.

Record Socket : Type := mkSocket {
  sock_ : Z;
  family_ : Z;
  type_ : Z;
  protocol_ : Z;
  isConnected_ : bool;
  localAddress_ : option Address;
  remoteAddress_ : option Address }.

Definition set_sock (v : Z) (s : Socket) : Socket :=
  mkSocket v (family_ s) (type_ s) (protocol_ s) (isConnected_ s) (localAddress_ s) (remoteAddress_ s).
Definition set_connected (v : bool) (s : Socket) : Socket :=
  mkSocket (sock_ s) (family_ s) (type_ s) (protocol_ s) v (localAddress_ s) (remoteAddress_ s).
Definition set_local (v : option Address) (s : Socket) : Socket :=
  mkSocket (sock_ s) (family_ s) (type_ s) (protocol_ s) (isConnected_ s) v (remoteAddress_ s).
Definition set_remote (v : option Address) (s : Socket) : Socket :=
  mkSocket (sock_ s) (family_ s) (type_ s) (protocol_ s) (isConnected_ s) (localAddress_ s) v.

(** [Socket::Socket]. *)
Definition Socket_new (family type protocol : Z) : Socket := mkSocket (-1) family type protocol false None None.

Definition isValid (s : Socket) : bool := negb (sock_ s =? -1).
Definition isConnected (s : Socket) : bool := isConnected_ s.

(** [UnknownAddress::UnknownAddress(family)]. *)
Definition UnknownAddress_new (family : Z) : Address := UnknownAddress (mkSa (u16 family) (zero_bytes 14)).

Section Socket.
Context {K : Type} `{Libc K, NetLibc K}.
(** [t_hook_enable] of the thread. *)
Context (hook : bool).

Abbreviation state := (Hook.state (K := K)).

(** ** Options *)

(** [Socket::setOption] with an [int], none of them a timeout: the hooked
    [setsockopt] passes it on. *)
Definition setOption_int (level option value : Z) (s : Socket) (st : state) : state * bool :=
  let '(k, r) := setsockopt_int_f (sock_ s) level option value st.2 in ((st.1, k), r =? 0).

(** [Socket::getOption]. *)
Definition getOption {V} (getsockopt_f : Z → Z → Z → K → option V) (level opt : Z) (s : Socket) (st : state) : option V :=
  Hook.getsockopt getsockopt_f (sock_ s) level opt st.

(** [Socket::initSock]. *)
Definition initSock (s : Socket) (st : state) : state :=
  let st := (setOption_int SOL_SOCKET SO_REUSEADDR 1 s st).1 in
  if type_ s =? TCP then (setOption_int IPPROTO_TCP TCP_NODELAY 1 s st).1 else st.

(** [Socket::newSock]; [p] is the address of the new descriptor context. *)
Definition newSock (p : Z) (s : Socket) (st : state) : outcome (Socket * state) :=
  '(st, fd) ← Hook.socket hook p st;
  let s := set_sock fd s in
  Ret (s, if negb (fd =? -1) then initSock s st else st).

(** [getSendTimeout] and [getRecvTimeout]: the value is [int64_t]. *)
Definition getTimeout_of (option : Z) (s : Socket) (st : state) : outcome Z :=
  o ← get_ctx (sock_ s) st.1;
  match o with Some c => Ret (i64 (FdManager.getTimeout option c)) | None => Ret (-1) end.
Definition getSendTimeout : Socket → state → outcome Z := getTimeout_of SO_SNDTIMEO.
Definition getRecvTimeout : Socket → state → outcome Z := getTimeout_of SO_RCVTIMEO.

(** [setSendTimeout] and [setRecvTimeout]. *)
Definition timeval_of (v : Z) : Z * Z := (i32 (Z.quot v 1000), i32 (Z.rem v 1000 * 1000)).
Definition setTimeout_of (option v : Z) (s : Socket) (st : state) : outcome state :=
  '(st, _) ← Hook.setsockopt hook (sock_ s) SOL_SOCKET option (timeval_of v) st; Ret st.
Definition setSendTimeout : Z → Socket → state → outcome state := setTimeout_of SO_SNDTIMEO.
Definition setRecvTimeout : Z → Socket → state → outcome state := setTimeout_of SO_RCVTIMEO.

(** [Socket::getError]. *)
Definition getError (s : Socket) (st : state) : Z :=
  match so_error_f (sock_ s) st.2 with Some e => e | None => errno st.2 end.

(** ** Addresses *)

(** [getRemoteAddress] and [getLocalAddress]: cached once known. *)
Definition getRemoteAddress (s : Socket) (st : state) : Socket * Address :=
  match remoteAddress_ s with
  | Some a => (s, a)
  | None => match getpeername_f (sock_ s) (family_ s) st.2 with
            | Some a => (set_remote (Some a) s, a)
            | None => (s, UnknownAddress_new (family_ s))
            end
  end.
Definition getLocalAddress (s : Socket) (st : state) : Socket * Address :=
  match localAddress_ s with
  | Some a => (s, a)
  | None => match getsockname_f (sock_ s) (family_ s) st.2 with
            | Some a => (set_local (Some a) s, a)
            | None => (s, UnknownAddress_new (family_ s))
            end
  end.

(** ** Creation *)

Definition CreateTCP (address : Address) : Socket := Socket_new (getFamily address) TCP 0.
Definition CreateTCPSocket : Socket := Socket_new AF_INET TCP 0.
Definition CreateTCPSocket6 : Socket := Socket_new AF_INET6 TCP 0.
Definition CreateUnixTCPSocket : Socket := Socket_new AF_UNIX TCP 0.
Definition CreateUnixUDPSocket : Socket := Socket_new AF_UNIX UDP 0.

(** [CreateUDP] and its kin: connected whether or not there is a descriptor. *)
Definition Create_udp (family p : Z) (st : state) : outcome (Socket * state) :=
  '(s, st) ← newSock p (Socket_new family UDP 0) st; Ret (set_connected true s, st).
Definition CreateUDP (address : Address) : Z → state → outcome (Socket * state) := Create_udp (getFamily address).
Definition CreateUDPSocket : Z → state → outcome (Socket * state) := Create_udp AF_INET.
Definition CreateUDPSocket6 : Z → state → outcome (Socket * state) := Create_udp AF_INET6.

(** ** Closing *)

(** [Socket::close], also the destructor's; [has_iom], [rt]: what the hooked
    [close] needs.  The answer is [false] when there was something to close. *)
Definition close (has_iom : bool) (rt : Z) (s : Socket) (st : state) : outcome (Socket * state * bool) :=
  if negb (isConnected_ s) && (sock_ s =? -1) then Ret (s, st, true)
  else
    let s := set_connected false s in
    if negb (sock_ s =? -1) then
      '(st, _, _) ← Hook.close hook has_iom (sock_ s) rt st; Ret (set_sock (-1) s, st, false)
    else Ret (s, st, false).

(** [Socket::~Socket]. *)
Definition Socket_delete (has_iom : bool) (rt : Z) (s : Socket) (st : state) : outcome state :=
  '(_, st, _) ← close has_iom rt s st; Ret st.

(** [Socket::listen]. *)
Definition listen (backlog : Z) (s : Socket) (st : state) : state * bool :=
  if negb (isValid s) then (st, false)
  else let '(k, r) := listen_f (sock_ s) backlog st.2 in ((st.1, k), r =? 0).

Section Suspending.
(** The hooked [connect(fd, addr)] ([None]) and [connect_with_timeout(fd, addr,
    ms)], [accept(fd)] and the reading and writing calls. *)
Context (connect_call : Z → Address → option Z → state → outcome (state * Z)).
Context (accept_call : Z → state → outcome (state * Z)).
Context (io_call : io_fun → Z → state → outcome (state * Z)).
Context (has_iom : bool) (rt : Z).

(** [Socket::connect]; [p]: the address of a descriptor context, should one be
    made. *)
Definition connect (addr : Address) (timeout_ms p : Z) (s : Socket) (st : state) :
    outcome (Socket * state * bool) :=
  let s := set_remote (Some addr) s in
  '(s, st) ← (if negb (isValid s) then newSock p s st else Ret (s, st));
  if negb (isValid s) then Ret (s, st, false)
  else if negb (getFamily addr =? family_ s) then Ret (s, st, false)
  else
    '(st, r) ← connect_call (sock_ s) addr (if timeout_ms =? u64_max then None else Some timeout_ms) st;
    if negb (r =? 0) then '(s, st, _) ← close has_iom rt s st; Ret (s, st, false)
    else
      let s := set_connected true s in
      let s := (getRemoteAddress s st).1 in
      Ret ((getLocalAddress s st).1, st, true).

(** [Socket::reconnect]. *)
Definition reconnect (timeout_ms p : Z) (s : Socket) (st : state) : outcome (Socket * state * bool) :=
  match remoteAddress_ s with
  | None => Ret (s, st, false)
  | Some a => connect a timeout_ms p (set_local None s) st
  end.

(** The probe of [Socket::bind] for a Unix address: does anybody listen there?
    If not, the file is removed; the probing socket is destroyed.  [p]: its
    descriptor context. *)
Definition unix_probe (u : sockaddr_un) (len p : Z) (st : state) : outcome (state * bool) :=
  '(sock, st, ok) ← connect (UnixAddress u len) u64_max p CreateUnixTCPSocket st;
  st ← (if ok : bool then Ret st
        else path ← getPath u len; Ret (st.1, unlink_f path st.2));
  '(_, st, _) ← close has_iom rt sock st; Ret (st, ok).

(** [Socket::bind]; [p], [q]: addresses of new descriptor contexts. *)
Definition bind (addr : Address) (p q : Z) (s : Socket) (st : state) : outcome (Socket * state * bool) :=
  '(s, st) ← (if negb (isValid s) then newSock p s st else Ret (s, st));
  if negb (isValid s) then Ret (s, st, false)
  else if negb (getFamily addr =? family_ s) then Ret (s, st, false)
  else
    '(st, taken) ← (match addr with
                    | UnixAddress u len => unix_probe u len q st
                    | _ => Ret (st, false)
                    end);
    if taken : bool then Ret (s, st, false)
    else
      let '(k, r) := bind_f (sock_ s) (take (Z.to_nat (getAddrLen addr)) (getAddr addr)) st.2 in
      let st := (st.1, k) in
      if negb (r =? 0) then Ret (s, st, false)
      else Ret ((getLocalAddress s st).1, st, true).

(** [Socket::init] for a descriptor that [accept] gave. *)
Definition init (sock : Z) (s : Socket) (st : state) : outcome (Socket * state * bool) :=
  o ← get_ctx sock st.1;
  match o with
  | Some c =>
      if isSocket_ c && negb (isClosed_ c) then
        let s := set_connected true (set_sock sock s) in
        let st := initSock s st in
        let s := (getLocalAddress s st).1 in
        Ret ((getRemoteAddress s st).1, st, true)
      else Ret (s, st, false)
  | None => Ret (s, st, false)
  end.

(** [Socket::accept]: the new object, or the null pointer. *)
Definition accept (s : Socket) (st : state) : outcome (option Socket * state) :=
  '(st, newsock) ← accept_call (sock_ s) st;
  if newsock =? -1 then Ret (None, st)
  else
    '(sock, st, ok) ← init newsock (Socket_new (family_ s) (type_ s) (protocol_ s)) st;
    Ret (if ok : bool then Some sock else None, st).

(** [send], [sendTo], [recv] and [recvFrom], each with a buffer or with several:
    only on a connected socket; the [ssize_t] becomes an [int]. *)
Definition guarded (f : io_fun) (s : Socket) (st : state) : outcome (state * Z) :=
  if isConnected s then '(st, n) ← io_call f (sock_ s) st; Ret (st, i32 n) else Ret (st, -1).
Definition send : Socket → state → outcome (state * Z) := guarded Send.
Definition send_iov : Socket → state → outcome (state * Z) := guarded Sendmsg.
Definition sendTo : Socket → state → outcome (state * Z) := guarded Sendto.
Definition sendTo_iov : Socket → state → outcome (state * Z) := guarded Sendmsg.
Definition recv : Socket → state → outcome (state * Z) := guarded Recv.
Definition recv_iov : Socket → state → outcome (state * Z) := guarded Recvmsg.
Definition recvFrom : Socket → state → outcome (state * Z) := guarded Recvfrom.
Definition recvFrom_iov : Socket → state → outcome (state * Z) := guarded Recvmsg.
End Suspending.

(** ** Cancelling: the event manager of the thread; the list holds the
    [schedule] calls *)
Definition cancel_io (has_iom : bool) (rt event : Z) (s : Socket) (st : state) :
    outcome (state * bool * list (Z * task timer_fn)) :=
  if negb has_iom then Undefined
  else '(m, b, l) ← cancelEvent rt (sock_ s) event (iom st.1); Ret ((with_iom m st.1, st.2), b, l).
Definition cancelRead (has_iom : bool) (rt : Z) := cancel_io has_iom rt IOManager.READ.
Definition cancelWrite (has_iom : bool) (rt : Z) := cancel_io has_iom rt IOManager.WRITE.
Definition cancelAccept (has_iom : bool) (rt : Z) := cancel_io has_iom rt IOManager.READ.
Definition cancelAll (has_iom : bool) (rt : Z) (s : Socket) (st : state) :
    outcome (state * bool * list (Z * task timer_fn)) :=
  if negb has_iom then Undefined
  else '(m, b, l) ← IOManager.cancelAll rt (sock_ s) (iom st.1); Ret ((with_iom m st.1, st.2), b, l).
End Socket.

(** [Socket::dump] and [SSLSocket::dump]. *)
Definition dump_as (class : str) (s : Socket) : outcome str :=
  l ← match localAddress_ s with Some a => t ← insert a; Ret ($" local_address=" ++ t) | None => Ret [] end;
  r ← match remoteAddress_ s with Some a => t ← insert a; Ret ($" remote_address=" ++ t) | None => Ret [] end;
  Ret ($"[" ++ class ++ $" sock=" ++ decimal (sock_ s) ++
       $" is_connected=" ++ (if isConnected_ s then $"1" else $"0") ++
       $" family=" ++ decimal (family_ s) ++ $" type=" ++ decimal (type_ s) ++
       $" protocol=" ++ decimal (protocol_ s) ++ l ++ r ++ $"]").
Definition dump : Socket → outcome str := dump_as ($"Socket").
(** [toString] and [operator<<]. *)
Definition toString (s : Socket) : outcome str := dump s.
Definition insert_socket (os : str) (s : Socket) : outcome str := t ← dump s; Ret (os ++ t).

(** ** SSLSocket *)

(** OpenSSL, on handles; [None] is the null pointer.  The calls on a connection
    read and write its descriptor, so they work on the whole state. *)
Class OpenSSL (K : Type) : Type := {
  SSL_CTX_new : bool → K → K * option Z;
  SSL_new : option Z → K → K * option Z;
  SSL_set_fd : Z → Z → K → K;
  SSL_connect : Z → Hook.state (K := K) → outcome (Hook.state (K := K) * Z);
  SSL_accept : Z → Hook.state (K := K) → outcome (Hook.state (K := K) * Z);
  SSL_write : Z → list Z → Hook.state (K := K) → outcome (Hook.state (K := K) * Z);
  SSL_read : Z → Z → Hook.state (K := K) → outcome (Hook.state (K := K) * Z);
  SSL_CTX_use_certificate_chain_file : option Z → str → K → K * Z;
  SSL_CTX_use_PrivateKey_file : option Z → str → K → K * Z;
  SSL_CTX_check_private_key : option Z → K → Z }.

(** The part of [Socket], [ctx_] and [ssl_]. *)
Record SSLSocket : Type := mkSSL { base : Socket; ctx_ : option Z; ssl_ : option Z }.

Definition SSLSocket_new (family type protocol : Z) : SSLSocket :=
  mkSSL (Socket_new family type protocol) None None.
Definition SSLSocket_CreateTCP (address : Address) : SSLSocket := SSLSocket_new (getFamily address) TCP 0.
Definition SSLSocket_CreateTCPSocket : SSLSocket := SSLSocket_new AF_INET TCP 0.
Definition SSLSocket_CreateTCPSocket6 : SSLSocket := SSLSocket_new AF_INET6 TCP 0.
Definition SSLSocket_dump (s : SSLSocket) : outcome str := dump_as ($"SSLSocket") (base s).

Section SSL.
Context {K : Type} `{Libc K, NetLibc K, OpenSSL K}.
Context (hook : bool).

Abbreviation state := (Hook.state (K := K)).

(** A new connection object on the descriptor: [SSL_new] and [SSL_set_fd]. *)
Definition attach (s : SSLSocket) (st : state) : outcome (SSLSocket * state * Z) :=
  let '(k, ssl) := SSL_new (ctx_ s) st.2 in
  match ssl with
  | None => Undefined
  | Some x => Ret (mkSSL (base s) (ctx_ s) ssl, (st.1, SSL_set_fd x (sock_ (base s)) k), x)
  end.

(** [SSLSocket::connect] once [Socket::connect] is back with [v]. *)
Definition ssl_connected (v : bool) (s : SSLSocket) (st : state) : outcome (SSLSocket * state * bool) :=
  if v then
    let '(k, c) := SSL_CTX_new false st.2 in
    '(s, st, x) ← attach (mkSSL (base s) c (ssl_ s)) (st.1, k);
    '(st, r) ← SSL_connect x st; Ret (s, st, r =? 1)
  else Ret (s, st, v).
Definition SSLSocket_connect connect_call (has_iom : bool) (rt : Z) (addr : Address) (timeout_ms p : Z)
    (s : SSLSocket) (st : state) : outcome (SSLSocket * state * bool) :=
  '(b, st, v) ← connect hook connect_call has_iom rt addr timeout_ms p (base s) st;
  ssl_connected v (mkSSL b (ctx_ s) (ssl_ s)) st.

(** [bind], [listen] and [close] are the base class's. *)
Definition on_base {A} (f : Socket → state → outcome (Socket * state * A)) (s : SSLSocket) (st : state) :
    outcome (SSLSocket * state * A) :=
  '(b, st, r) ← f (base s) st; Ret (mkSSL b (ctx_ s) (ssl_ s), st, r).
Definition SSLSocket_bind bind_call (has_iom : bool) (rt : Z) (addr : Address) (p q : Z) : SSLSocket → state → outcome (SSLSocket * state * bool) :=
  on_base (bind hook bind_call has_iom rt addr p q).
Definition SSLSocket_listen (backlog : Z) (s : SSLSocket) (st : state) : state * bool := listen backlog (base s) st.
Definition SSLSocket_close (has_iom : bool) (rt : Z) : SSLSocket → state → outcome (SSLSocket * state * bool) :=
  on_base (close hook has_iom rt).

(** [SSLSocket::init] and [SSLSocket::accept]: the new object shares [ctx_]. *)
Definition SSLSocket_init (sock : Z) (s : SSLSocket) (st : state) : outcome (SSLSocket * state * bool) :=
  '(b, st, v) ← init sock (base s) st;
  let s := mkSSL b (ctx_ s) (ssl_ s) in
  if v : bool then '(s, st, x) ← attach s st; '(st, r) ← SSL_accept x st; Ret (s, st, r =? 1)
  else Ret (s, st, v).
Definition SSLSocket_accept (accept_call : Z → state → outcome (state * Z)) (s : SSLSocket) (st : state) :
    outcome (option SSLSocket * state) :=
  '(st, newsock) ← accept_call (sock_ (base s)) st;
  if newsock =? -1 then Ret (None, st)
  else
    '(sock, st, ok) ← SSLSocket_init newsock
      (mkSSL (Socket_new (family_ (base s)) (type_ (base s)) (protocol_ (base s))) (ctx_ s) None) st;
    Ret (if ok : bool then Some sock else None, st).

(** [SSLSocket::send] and [recv]. *)
Definition SSLSocket_send (buffer : list Z) (s : SSLSocket) (st : state) : outcome (state * Z) :=
  match ssl_ s with Some x => SSL_write x buffer st | None => Ret (st, -1) end.
Definition SSLSocket_recv (length : Z) (s : SSLSocket) (st : state) : outcome (state * Z) :=
  match ssl_ s with Some x => SSL_read x length st | None => Ret (st, -1) end.

(** Their loops over several buffers: each buffer is what one call moves, of its
    length, and the total so far. *)
Fixpoint iov_loop {B} (move : B → state → outcome (state * Z)) (len : B → Z) (buffers : list B)
    (total : Z) (st : state) : outcome (state * Z) :=
  match buffers with
  | [] => Ret (st, total)
  | b :: r =>
      '(st, tmp) ← move b st;
      if tmp <=? 0 then Ret (st, tmp)
      else
        let total := total + tmp in
        if 2 ^ 31 <=? total then Undefined
        else if negb (tmp =? i32 (len b)) then Ret (st, total) else iov_loop move len r total st
  end.
Definition SSLSocket_send_iov (buffers : list (list Z)) (s : SSLSocket) (st : state) : outcome (state * Z) :=
  match ssl_ s with
  | None => Ret (st, -1)
  | Some x => iov_loop (SSL_write x) (λ b, Z.of_nat (length b)) buffers 0 st
  end.
Definition SSLSocket_recv_iov (lengths : list Z) (s : SSLSocket) (st : state) : outcome (state * Z) :=
  match ssl_ s with
  | None => Ret (st, -1)
  | Some x => iov_loop (SSL_read x) id lengths 0 st
  end.

(** [sendTo] and [recvFrom] assert. *)
Definition SSLSocket_sendTo : outcome Z := _ ← sylar_assert false; Ret (-1).
Definition SSLSocket_recvFrom : outcome Z := _ ← sylar_assert false; Ret (-1).

(** [SSLSocket::loadCertificates]. *)
Definition loadCertificates (cert_file key_file : str) (s : SSLSocket) (k : K) : SSLSocket * K * bool :=
  let '(k, c) := SSL_CTX_new true k in
  let s := mkSSL (base s) c (ssl_ s) in
  let '(k, r) := SSL_CTX_use_certificate_chain_file c cert_file k in
  if negb (r =? 1) then (s, k, false)
  else
    let '(k, r) := SSL_CTX_use_PrivateKey_file c key_file k in
    if negb (r =? 1) then (s, k, false)
    else (s, k, SSL_CTX_check_private_key c k =? 1).
End SSL.

(** ** Descriptors and their owners *)

(** What the kernel documents of descriptors: [open] is the set of the open
    ones; [socket] opens a new one or fails, [close] closes the one it is given
    in any case, and the other calls leave them alone. *)
Class DescriptorLaws (K : Type) `{Libc K, NetLibc K} : Type := {
  open : K → gset Z;
  socket_opens k k' fd : socket_f k = (k', fd) →
    fd = -1 ∧ open k' = open k ∨ fd_ok fd ∧ fd ∉ open k ∧ open k' = {[fd]} ∪ open k;
  close_closes fd k : open (close_f fd k).1 = open k ∖ {[fd]};
  setfl_keeps fd v k : open (fcntl_f fd F_SETFL v k).1 = open k;
  setsockopt_keeps fd l o v k : open (setsockopt_f fd l o v k).1 = open k;
  setsockopt_int_keeps fd l o v k : open (setsockopt_int_f fd l o v k).1 = open k;
  bind_keeps fd a k : open (bind_f fd a k).1 = open k;
  listen_keeps fd n k : open (listen_f fd n k).1 = open k;
  unlink_keeps p k : open (unlink_f p k) = open k }.

Section Ownership.
Context {K : Type} `{DescriptorLaws K}.
Context (hook has_iom : bool) (rt pipe : Z).

Abbreviation state := (Hook.state (K := K)).

Abbreviation good := (HookRun.good open pipe).

(** The address is not that of an existing descriptor context. *)
Definition fresh (p : Z) (st : state) : Prop := FdManager.ctxs_ (fds st.1) !! p = None.

(** What a socket has open; and: it owns that besides [base], which is open
    anyway. *)
Definition own (s : Socket) : gset Z := if sock_ s =? -1 then ∅ else {[sock_ s]}.
Record owns (base : gset Z) (s : Socket) (st : state) : Prop := mk_owns {
  ow_good : good st;
  ow_sock : sock_ s = -1 ∨ fd_ok (sock_ s);
  ow_open : open st.2 = base ∪ own s;
  ow_apart : own s ## base;
  ow_pipe : pipe ∈ base }.

(** A step that opens and closes nothing. *)
Definition quiet (st st' : state) : Prop := good st' ∧ open st'.2 = open st.2.

Lemma quiet_refl st : good st → quiet st st.
Proof. by split. Qed.

Lemma quiet_trans st1 st2 st3 : quiet st1 st2 → quiet st2 st3 → quiet st1 st3.
Proof. intros (_ & E1) (? & E3). split; [done|]. by rewrite E3. Qed.

Lemma good_kernel w k k' : good (w, k) → pipe ∈ open k' → good (w, k').
Proof. intros (? & ? & ? & _ & ?) E. by split_and!. Qed.
Lemma quiet_kernel w k k' : good (w, k) → open k' = open k → quiet (w, k) (w, k').
Proof.
  intros Hg E. split; [|done]. eapply good_kernel; [exact Hg|]. rewrite E. apply Hg.
Qed.

(** Changing the descriptor contexts, or the other objects. *)
Lemma quiet_fds w k f : good (w, k) → fdm_wf f → quiet (w, k) (with_fds f w, k).
Proof. by intros (? & ? & ? & ? & ?) ?. Qed.

Lemma owns_quiet base s st st' : owns base s st → quiet st st' → owns base s st'.
Proof.
  intros [? ? Ho ? ?] (? & E1). split; try done. by rewrite E1.
Qed.

Lemma initSock_quiet s st : good st → quiet st (initSock s st).
Proof.
  intros Hg. assert (Hset : ∀ l o st, good st → quiet st (setOption_int l o 1 s st).1).
  { intros l o [w k] Hgs. unfold setOption_int. cbn [snd fst].
    destruct (setsockopt_int_f _ _ _ _ _) as [k' r] eqn:E. cbn.
    apply quiet_kernel; [done|]. by rewrite <- (setsockopt_int_keeps (sock_ s) l o 1 k), E. }
  unfold initSock. set (st1 := (setOption_int SOL_SOCKET SO_REUSEADDR 1 s st).1).
  assert (Hq : quiet st st1) by by apply Hset. destruct (type_ s =? TCP); [|done].
  eapply quiet_trans; [exact Hq|]. apply Hset. apply Hq.
Qed.

Lemma initSock_fds s (st : state) : fds (initSock s st).1 = fds st.1.
Proof.
  assert (Hset : ∀ l o st, fds (setOption_int l o 1 s st).1.1 = fds st.1).
  { intros l o st'. unfold setOption_int. by destruct (setsockopt_int_f _ _ _ _ _). }
  unfold initSock. destruct (type_ s =? TCP); by rewrite !Hset.
Qed.

(** Only the address given becomes that of a context. *)
Lemma get_fresh fstat getfl fd auto p (m m' : FdManager) r calls q :
  FdManager.get fstat getfl fd auto p m = Ret (m', r, calls) → q ≠ p →
  FdManager.ctxs_ m !! q = None → FdManager.ctxs_ m' !! q = None.
Proof.
  intros E Hq Hn. unfold FdManager.get in E. destruct (get_read fd auto m) as [[o|]| | |]; try done; cbn in E.
  - by injection E as <- _ _.
  - unfold get_create in E. destruct (FdCtx_new _ _ _) as [c l]. destruct (_ || _); [done|].
    cbn in E. injection E as <- _ _. cbn. by rewrite lookup_insert_ne.
Qed.

(** [FdMgr::GetInstance()->get(fd, true)]. *)
Lemma create_ctx_ok fd p st :
  good st → fd_ok fd → fresh p st →
  ∃ st', create_ctx fd p st = Ret st' ∧ quiet st st' ∧ ∀ q, q ≠ p → fresh q st → fresh q st'.
Proof.
  destruct st as [w k]. intros Hg Hfd Hp. pose proof Hg as (Hw & _). unfold create_ctx.
  destruct (get_spec (fstat_f k) (λ fd, (fcntl_f fd F_GETFL (Some 0) k).2) (fds w) fd true p Hw
              (or_introl Hfd) Hp) as (m & r & calls & E & Hwf & _). rewrite E.
  eexists. split; [reflexivity|]. split; [|by intros q Hq Hn; exact (get_fresh _ _ _ _ _ _ _ _ _ _ E Hq Hn)].
  eapply quiet_trans; [by apply quiet_fds|].
  apply quiet_kernel; [by apply quiet_fds|].
  clear. revert k. induction calls as [|c l IH]; intros k; cbn; [done|]. by rewrite IH, setfl_keeps.
Qed.

(** The hooked [socket]: a new descriptor that was not open, or none. *)
Lemma hook_socket_ok p st :
  good st → fresh p st →
  ∃ st' fd, Hook.socket hook p st = Ret (st', fd) ∧ good st' ∧
    (fd = -1 ∧ open st'.2 = open st.2 ∨ fd_ok fd ∧ fd ∉ open st.2 ∧ open st'.2 = {[fd]} ∪ open st.2) ∧
    ∀ q, q ≠ p → fresh q st → fresh q st'.
Proof.
  destruct st as [w k]. intros Hg Hp. unfold Hook.socket. destruct (socket_f k) as [k1 fd] eqn:E.
  assert (Hg1 : good (w, k1)).
  { eapply good_kernel; [exact Hg|]. destruct Hg as (_ & _ & _ & Hin & _). cbn in *.
    destruct (socket_opens _ _ _ E) as [[_ ->]|(_ & _ & ->)]; set_solver. }
  pose proof (socket_opens _ _ _ E) as Hopen. destruct hook; cbn [negb]; [|by exists (w, k1), fd].
  destruct (Z.eqb_spec fd (-1)) as [->|Hne]; [by exists (w, k1), (-1)|].
  destruct Hopen as [[-> _]|(Hfd & Hn & Hk)]; [done|].
  destruct (create_ctx_ok fd p (w, k1) Hg1 Hfd Hp) as (st1 & -> & (Hg2 & Ho2) & Hfr).
  exists st1, fd. split; [done|]. split; [done|]. split; [|exact Hfr]. right. by rewrite Ho2.
Qed.

(** [newSock] opens a descriptor of its own, or none. *)
Lemma newSock_owns base p s st :
  owns base s st → sock_ s = -1 → fresh p st →
  ∃ s' st', newSock hook p s st = Ret (s', st') ∧ owns base s' st' ∧ s' = set_sock (sock_ s') s ∧
    ∀ q, q ≠ p → fresh q st → fresh q st'.
Proof.
  intros [Hg _ Ho _ Hpipe] Hs Hp. unfold newSock.
  assert (Hb : open st.2 = base) by (unfold own in Ho; rewrite Hs in Ho; set_solver).
  destruct (hook_socket_ok p st Hg Hp) as (st1 & fd & -> & Hg1 & Hk & Hfr). cbn [mbind outcome_bind].
  assert (owns base (set_sock fd s) st1) as Hown.
  { destruct Hk as [[-> Hk]|(Hfd & Hn & Hk)].
    - split; [done|by left|..|done]; unfold own; cbn; [rewrite Hk|]; set_solver.
    - assert (fd ≠ -1) by (destruct Hfd; lia).
      split; [done|by right|..|done]; unfold own; cbn;
        rewrite (proj2 (Z.eqb_neq fd (-1))) by done; [rewrite Hk|rewrite Hb in Hn]; set_solver. }
  eexists _, _. split; [reflexivity|]. split; [|split; [done|]].
  - cbn. destruct (negb _); [|done]. by eapply owns_quiet, initSock_quiet.
  - intros q Hq Hn. destruct (negb _); [|by apply Hfr]. unfold fresh. rewrite initSock_fds. by apply Hfr.
Qed.

(** The hooked [close] of a descriptor that is not the event manager's. *)
Lemma hook_close_ok fd st :
  good st → fd_ok fd → fd ≠ pipe →
  ∃ st' r l, Hook.close hook has_iom fd rt st = Ret (st', r, l) ∧ good st' ∧
    open st'.2 = open st.2 ∖ {[fd]}.
Proof.
  destruct st as [w k]. intros Hg Hfd Hne. unfold Hook.close. cbn [fst snd].
  assert (Hend : ∀ w1 (l : list (Z * task timer_fn)), good (w1, k) →
    ∃ (st' : state) r l', (let '(k1, r) := close_f fd k in Ret ((w1, k1), r, l)) = Ret (st', r, l') ∧ good st' ∧
      open st'.2 = open k ∖ {[fd]}).
  { intros w1 l Hg1. destruct (close_f fd k) as [k1 r] eqn:E.
    pose proof (close_closes fd k) as Hc. rewrite E in Hc. cbn in Hc.
    exists (w1, k1), r, l. split; [done|]. split; [|done]. eapply good_kernel; [exact Hg1|].
    destruct Hg1 as (_ & _ & _ & Hin & _). cbn in *. rewrite Hc. set_solver. }
  destruct hook; cbn [negb].
  2: { destruct (Hend w [] Hg) as (st' & r & l & E & ?). destruct (close_f fd k). by exists st', r, l. }
  pose proof Hg as (Hw & (W & HW) & Ht & Hin & Htm). destruct (get_ctx_ok fd w Hw (or_introl Hfd)) as (o & -> & _).
  cbn [mbind outcome_bind]. destruct o as [c|]; [|by apply Hend].
  assert (∃ w1 l, (if has_iom then '(m, _, l) ← IOManager.cancelAll rt fd (iom w); Ret (with_iom m w, l)
                   else Ret (w, [])) = Ret (w1, l) ∧ fds w1 = fds w ∧ timers w1 = timers w ∧
                  (∃ W, implements (iom w1) W) ∧ tickleFds_ (iom w1) = tickleFds_ (iom w)) as (w1 & l & -> & Ef & Em & HW1 & Et).
  { destruct has_iom; [|exists w, []; split_and!; by eauto].
    destruct (spec_op_steps_cancelAll (iom w) W rt fd HW) as (m' & Hr & Hi & Htk & _);
      [apply Hfd|cbn in Ht; by rewrite Ht|].
    cbn [run_op] in Hr. destruct (IOManager.cancelAll rt fd (iom w)) as [[[m b] l]| | |]; try done.
    cbn in Hr. injection Hr as -> _. exists (with_iom m' w), l. split_and!; by eauto. }
  cbn [mbind outcome_bind]. destruct (del_spec (fds w1) fd) as (f & Hf & Hwf & _); [by rewrite Ef|done|].
  rewrite Hf. cbn [mbind outcome_bind]. apply Hend. split_and!; try done; cbn in *; [by rewrite Et|by rewrite Em].
Qed.

(** [Socket::close]. *)
Lemma close_owns base s st :
  owns base s st →
  ∃ st', close hook has_iom rt s st =
           Ret (set_connected false (set_sock (-1) s), st', negb (isConnected_ s) && (sock_ s =? -1)) ∧
         owns base (set_connected false (set_sock (-1) s)) st' ∧ open st'.2 = base.
Proof.
  intros Ho. pose proof Ho as [Hg Hs Hop Hap Hpipe]. unfold close.
  assert (Hnone : sock_ s = -1 → owns base (set_connected false (set_sock (-1) s)) st ∧ open st.2 = base).
  { intros E. unfold own in *. rewrite E in *. cbn in *. assert (open st.2 = base) as E2 by set_solver.
    split; [|done]. split; [done|by left|..|done]; unfold own; cbn; set_solver. }
  destruct (Z.eqb_spec (sock_ s) (-1)) as [E|Hne]; cbn [negb].
  - rewrite andb_true_r. exists st. split; [|by apply Hnone].
    destruct s as [? ? ? ? c ? ?]; cbn in *; subst. by destruct c.
  - rewrite andb_false_r. cbn [sock_ set_connected]. rewrite (proj2 (Z.eqb_neq (sock_ s) (-1))) by done.
    destruct Hs as [?|Hfd]; [done|].
    assert (Hown : own s = {[sock_ s]}) by (unfold own; by rewrite (proj2 (Z.eqb_neq _ _) Hne)).
    rewrite Hown in *. destruct (hook_close_ok (sock_ s) st Hg Hfd) as (st' & r & l & -> & Hg' & Hc);
      [intros E; rewrite E in *; set_solver|].
    assert (open st'.2 = base) as E2 by (rewrite Hc, Hop; set_solver).
    exists st'. split; [done|]. split; [|done].
    split; [done|by left|..|done]; unfold own; cbn; set_solver.
Qed.

(** The object's other fields do not matter. *)
Lemma owns_fields base s s' st : sock_ s' = sock_ s → owns base s st → owns base s' st.
Proof. intros E [? ? Ho Ha ?]. split; try done; unfold own in *; by rewrite E. Qed.

Lemma getRemoteAddress_sock s (st : state) :
  sock_ (getRemoteAddress s st).1 = sock_ s ∧ isConnected_ (getRemoteAddress s st).1 = isConnected_ s.
Proof. unfold getRemoteAddress. by repeat case_match. Qed.
Lemma getLocalAddress_sock s (st : state) :
  sock_ (getLocalAddress s st).1 = sock_ s ∧ isConnected_ (getLocalAddress s st).1 = isConnected_ s.
Proof. unfold getLocalAddress. by repeat case_match. Qed.

(** The start [connect] and [bind] share. *)
Lemma ensure_owns base p s st :
  owns base s st → fresh p st →
  ∃ s' st', (if negb (isValid s) then newSock hook p s st else Ret (s, st)) = Ret (s', st') ∧
    owns base s' st' ∧ s' = set_sock (sock_ s') s ∧ (isValid s = true → isValid s' = true) ∧
    ∀ q, q ≠ p → fresh q st → fresh q st'.
Proof.
  intros Ho Hp. unfold isValid. destruct (Z.eqb_spec (sock_ s) (-1)) as [E|Hne]; cbn [negb].
  - destruct (newSock_owns base p s st Ho E Hp) as (s' & st' & -> & ? & ? & ?). by exists s', st'.
  - exists s, st. split; [done|]. split; [done|]. split; [by destruct s|]. split; [|done].
    intros _. by rewrite (proj2 (Z.eqb_neq _ _) Hne).
Qed.

Section Calls.
(** The thread the calls run on, and [tcp.connect.timeout]. *)
Context (cur_s : option Z) (cur_f : Z * bool) (g_tcp_connect_timeout : Z).

Abbreviation news := (HookRun.news (K := K)).
Abbreviation shares := (HookRun.shares open pipe).

(** The hooked calls of HookRun; [info]: the address of the call's
    [timer_info]. *)
Definition connect_ms (timeout : option Z) : Z :=
  match timeout with None => connect_timeout g_tcp_connect_timeout | Some ms => ms end.
Definition connect_with (info : Z) (script : list news) (fd : Z) (addr : Address) (timeout : option Z) (st : state) :
    outcome (state * Z) :=
  hooked_connect fd has_iom cur_s cur_f info hook (connect_ms timeout) script st.
Definition io_with (info : Z) (script : list news) (f : io_fun) (fd : Z) (st : state) : outcome (state * Z) :=
  hooked_io fd has_iom cur_s cur_f info hook f script st.

(** A connected socket has a descriptor. *)
Definition conn_ok (s : Socket) : Prop := isConnected_ s = true → isValid s = true.

(** Owning beside a set that is shared and one that is somebody else's, and
    sharing. *)
Lemma owns_shares others also s st :
  owns (others ∪ also) s st → also ## others → pipe ∈ others → shares (also ∪ own s) others st.
Proof. intros [Hg _ Ho Ha _] Hd Hp. split; [done|by rewrite Ho; set_solver|set_solver|done]. Qed.
Lemma shares_owns others also s st :
  shares (also ∪ own s) others st → also ## own s → sock_ s = -1 ∨ fd_ok (sock_ s) →
  owns (others ∪ also) s st ∧ also ## others ∧ pipe ∈ others.
Proof.
  intros [Hg Ho Ha Hp] Hd Hs. split; [|by split; [set_solver|]].
  split; [done|done|by rewrite Ho; set_solver|set_solver|set_solver].
Qed.

(** The descriptor [connect] and [bind] work on. *)
Definition ready (p : Z) (s : Socket) (st : state) : outcome (Socket * state) :=
  if negb (isValid s) then newSock hook p s st else Ret (s, st).

(** What the hooked [connect] of [Socket::connect] must meet, if it is called
    at all. *)
Definition connect_ok (also : gset Z) (info : Z) (script : list news) (addr : Address) (ms p : Z) (s : Socket) (st : state) : Prop :=
  ∀ s1 st1, ready p (set_remote (Some addr) s) st = Ret (s1, st1) →
    if isValid s1 && (getFamily addr =? family_ s1)
    then connect_fits open pipe (sock_ s1) has_iom cur_s cur_f info (also ∪ own s1) hook
           (connect_ms (if ms =? u64_max then None else Some ms)) script st1
    else script = [].

Lemma connect_owns others also info script addr ms p s st :
  owns (others ∪ also) s st → also ## others → pipe ∈ others → conn_ok s → fresh p st →
  connect_ok also info script addr ms p s st →
  ∃ s' st' b, connect hook (connect_with info script) has_iom rt addr ms p s st = Ret (s', st', b) ∧
    owns (others_after script others ∪ also) s' st' ∧ also ## others_after script others ∧
    pipe ∈ others_after script others ∧ conn_ok s' ∧ (b = true → isConnected_ s' = true).
Proof.
  intros Ho Hd Hpipe Hc Hp Hok. unfold connect_ok, ready in Hok. unfold connect. set (s0 := set_remote (Some addr) s) in *.
  assert (Ho0 : owns (others ∪ also) s0 st) by by eapply owns_fields; [|exact Ho].
  destruct (ensure_owns (others ∪ also) p s0 st Ho0 Hp) as (s1 & st1 & E & Ho1 & Hs1 & Hv1 & _).
  specialize (Hok s1 st1 E). rewrite E.
  cbn [mbind outcome_bind]. assert (Hc1 : conn_ok s1).
  { intros Hx. apply Hv1. apply Hc. rewrite Hs1 in Hx. exact Hx. }
  destruct (isValid s1) eqn:Hv; cbn [negb andb] in *; [|rewrite Hok; by exists s1, st1, false].
  destruct (getFamily addr =? family_ s1); cbn [negb] in *; [|rewrite Hok; by exists s1, st1, false].
  assert (Hne1 : sock_ s1 ≠ -1) by (intros E1; unfold isValid in Hv; by rewrite E1 in Hv).
  assert (Hown : own s1 = {[sock_ s1]}) by (unfold own; by rewrite (proj2 (Z.eqb_neq _ _) Hne1)).
  assert (Hfd : fd_ok (sock_ s1)) by (by destruct (ow_sock _ _ _ Ho1)).
  pose proof (ow_apart _ _ _ Ho1) as Hap. rewrite Hown in Hap.
  destruct (hooked_connect_returns open pipe (sock_ s1) has_iom cur_s cur_f info (also ∪ own s1) hook _ script st1 others
    (owns_shares _ _ _ _ Ho1 Hd Hpipe) Hfd ltac:(intros E1; rewrite E1 in Hap; set_solver) Hok) as (st2 & r & Hr & Hsh).
  unfold connect_with at 1. rewrite Hr. cbn [mbind outcome_bind].
  destruct (shares_owns _ _ _ _ Hsh ltac:(rewrite Hown; set_solver) (or_intror Hfd)) as (Ho2 & Hd2 & Hp2).
  destruct (negb (r =? 0)).
  - destruct (close_owns _ s1 st2 Ho2) as (st3 & -> & Ho3 & _). cbn [mbind outcome_bind].
    eexists _, st3, false. split; [reflexivity|]. split; [done|]. by repeat split.
  - eexists _, st2, true. split; [reflexivity|].
    destruct (getLocalAddress_sock (getRemoteAddress (set_connected true s1) st2).1 st2) as [E1 E2].
    destruct (getRemoteAddress_sock (set_connected true s1) st2) as [E3 E4].
    rewrite E3 in E1. rewrite E4 in E2. split; [exact (owns_fields _ s1 _ st2 E1 Ho2)|].
    do 2 (split; [done|]). split; [|done]. intros _. unfold isValid. rewrite E1. exact Hv.
Qed.

Lemma probe_owns others info script u len p s st :
  owns others s st → fresh p st → returns (getPath u len) →
  connect_ok (own s) info script (UnixAddress u len) u64_max p CreateUnixTCPSocket st →
  ∃ st' b, unix_probe hook (connect_with info script) has_iom rt u len p st = Ret (st', b) ∧
    owns (others_after script others) s st'.
Proof.
  intros Ho Hp [path Hpath] Hok. pose proof Ho as [Hg Hs Hop Hap Hpipe]. unfold unix_probe.
  assert (Ho0 : owns (others ∪ own s) CreateUnixTCPSocket st).
  { split; [done|by left| | |set_solver]; change (own CreateUnixTCPSocket) with (∅ : gset Z);
      [rewrite Hop|]; set_solver. }
  destruct (connect_owns others (own s) info script (UnixAddress u len) u64_max p _ st Ho0 Hap Hpipe ltac:(done) Hp Hok)
    as (s1 & st1 & b & -> & Ho1 & Hd1 & Hp1 & _ & _). cbn [mbind outcome_bind].
  assert (Hend : ∀ st2, quiet st1 st2 → ∃ st', ('(_, st, _) ← close hook has_iom rt s1 st2; Ret (st, b)) = Ret (st', b) ∧
                          owns (others_after script others) s st').
  { intros st2 Hq2. destruct (close_owns _ s1 st2 (owns_quiet _ _ _ _ Ho1 Hq2)) as (st3 & -> & Ho3 & Hop3).
    exists st3. split; [done|]. split; [apply Ho3|done|done|done|done]. }
  destruct b.
  - destruct (Hend st1 (quiet_refl _ (ow_good _ _ _ Ho1))) as (st' & ? & ?). by exists st', true.
  - rewrite Hpath. cbn [mbind outcome_bind].
    destruct (Hend (st1.1, unlink_f path st1.2)) as (st' & ? & ?); [|by exists st', false].
    destruct st1 as [w k]. apply quiet_kernel; [apply Ho1|apply unlink_keeps].
Qed.

(** What the probe of [Socket::bind] must meet, if there is one; the path of a
    Unix address ends. *)
Definition bind_ok (info : Z) (script : list news) (addr : Address) (p q : Z) (s : Socket) (st : state) : Prop :=
  ∀ s1 st1, ready p s st = Ret (s1, st1) →
    match addr with
    | UnixAddress u len =>
        if isValid s1 && (getFamily addr =? family_ s1)
        then returns (getPath u len) ∧ connect_ok (own s1) info script addr u64_max q CreateUnixTCPSocket st1
        else script = []
    | _ => script = []
    end.

(** [Socket::bind]. *)
Lemma bind_owns others info script addr p q s st :
  owns others s st → conn_ok s → fresh p st → fresh q st → q ≠ p → bind_ok info script addr p q s st →
  ∃ s' st' b, bind hook (connect_with info script) has_iom rt addr p q s st = Ret (s', st', b) ∧
    owns (others_after script others) s' st' ∧ conn_ok s'.
Proof.
  intros Ho Hc Hp Hq Hqp Hok. unfold bind_ok, ready in Hok. unfold bind.
  destruct (ensure_owns others p s st Ho Hp) as (s1 & st1 & E & Ho1 & Hs1 & Hv1 & Hf1).
  specialize (Hok s1 st1 E). rewrite E.
  cbn [mbind outcome_bind]. assert (Hc1 : conn_ok s1).
  { intros Hx. apply Hv1. apply Hc. rewrite Hs1 in Hx. exact Hx. }
  assert (Hnone : script = [] → ∃ s' st' b, Ret (s1, st1, false) = Ret (s', st', b) ∧
    owns (others_after script others) s' st' ∧ conn_ok s') by (intros ->; by exists s1, st1, false).
  destruct (isValid s1) eqn:Hv; cbn [negb andb] in *; [|apply Hnone; by destruct addr].
  destruct (getFamily addr =? family_ s1); cbn [negb] in *; [|apply Hnone; by destruct addr].
  assert (Hend : ∀ st2 (taken : bool), owns (others_after script others) s1 st2 →
    ∃ s' st' b,
      (if taken then Ret (s1, st2, false)
       else let '(k, r) := bind_f (sock_ s1) (take (Z.to_nat (getAddrLen addr)) (getAddr addr)) st2.2 in
            let st := (st2.1, k) in
            if negb (r =? 0) then Ret (s1, st, false)
            else Ret ((getLocalAddress s1 st).1, st, true)) = Ret (s', st', b) ∧
      owns (others_after script others) s' st' ∧ conn_ok s').
  { intros [w k] taken Ho2. destruct taken; [by eexists _, _, _|]. cbn [fst snd].
    destruct (bind_f _ _ k) as [k' r] eqn:Eb.
    assert (Ho3 : owns (others_after script others) s1 (w, k')).
    { eapply owns_quiet; [exact Ho2|]. apply quiet_kernel; [apply Ho2|].
      by rewrite <- (bind_keeps (sock_ s1) (take (Z.to_nat (getAddrLen addr)) (getAddr addr)) k), Eb. }
    destruct (negb (r =? 0)); [by eexists _, _, _|].
    destruct (getLocalAddress_sock s1 (w, k')) as [E1 E2]. eexists _, _, _. split; [reflexivity|].
    split; [by eapply owns_fields; [exact E1|]|]. unfold conn_ok, isValid. by rewrite E1, E2. }
  destruct addr as [i|i|u len|a]; try (rewrite Hok in *; by apply (Hend st1 false)). destruct Hok as [Hpath Hok].
  destruct (probe_owns others info script u len q s1 st1 Ho1 (Hf1 q Hqp Hq) Hpath Hok) as (st2 & b & -> & Ho2).
  cbn [mbind outcome_bind]. by apply (Hend st2 b).
Qed.

(** [FdCtx::setTimeout] on a registered context. *)
Lemma update_ctx_wf fd f w :
  (∀ c, fd_ (f c) = fd_ c) → fdm_wf (fds w) → fdm_wf (fds (update_ctx fd f w)).
Proof.
  intros Hf [Hs Hx]. unfold update_ctx. destruct (ctx_of (fds w) fd) as [p|]; [|by split].
  split; [done|]. intros fd' q Hq. cbn. destruct (Hx fd' q Hq) as (c & Hc & Hfd).
  destruct (decide (q = p)) as [->|].
  - rewrite lookup_alter_eq, Hc. exists (f c). split; [done|]. by rewrite Hf.
  - rewrite lookup_alter_ne by done. eauto.
Qed.

Lemma setTimeout_quiet base option v s st :
  owns base s st → ∃ st', setTimeout_of hook option v s st = Ret st' ∧ quiet st st'.
Proof.
  intros Ho. pose proof (ow_good _ _ _ Ho) as Hg. destruct st as [w k].
  unfold setTimeout_of, Hook.setsockopt. cbn [fst snd].
  assert (Hend : ∀ w1, good (w1, k) → ∃ st',
    (let '(k1, r) := setsockopt_f (sock_ s) SOL_SOCKET option (timeval_of v) k in
     Ret ((w1, k1), r)) ≫= (λ '(st, _), Ret st) = Ret st' ∧ quiet (w1, k) st').
  { intros w1 Hg1. destruct (setsockopt_f _ _ _ _ k) as [k1 r] eqn:E. exists (w1, k1). split; [done|].
    apply quiet_kernel; [done|]. by rewrite <- (setsockopt_keeps (sock_ s) SOL_SOCKET option (timeval_of v) k), E. }
  destruct hook; cbn [negb]; [|by apply Hend].
  destruct (_ && _); [|by apply Hend].
  destruct (get_ctx_ok (sock_ s) w (proj1 Hg) (proj1 (or_comm _ _) (ow_sock _ _ _ Ho))) as (o & -> & _).
  cbn [mbind outcome_bind]. destruct (null o); [by apply Hend|].
  set (w1 := update_ctx _ _ w). assert (Hg1 : good (w1, k)).
  { destruct Hg as (Hw & HW & Ht & Hin). split.
    - apply update_ctx_wf; [|done]. intros c. unfold FdManager.setTimeout. by case_step.
    - unfold w1, update_ctx. by destruct (ctx_of _ _). }
  destruct (Hend w1 Hg1) as (st' & E & Hq & Ho'). by exists st'.
Qed.

(** ** A socket's life *)

(** What a program does with a socket; a socket that accepts stays as it is,
    the new one is another.  A call that may suspend has the address of its
    [timer_info] and its script. *)
Inductive op : Type :=
  | OBind (addr : Address) (p q info : Z) (script : list news)
  | OConnect (addr : Address) (ms p info : Z) (script : list news)
  | OReconnect (ms p info : Z) (script : list news)
  | OListen (backlog : Z)
  | OIo (f : io_fun) (info : Z) (script : list news)
  | OTimeout (option v : Z)
  | OClose.

Definition run_op (o : op) (s : Socket) (st : state) : outcome (Socket * state) :=
  match o with
  | OBind a p q i sc => '(s, st, _) ← bind hook (connect_with i sc) has_iom rt a p q s st; Ret (s, st)
  | OConnect a ms p i sc => '(s, st, _) ← connect hook (connect_with i sc) has_iom rt a ms p s st; Ret (s, st)
  | OReconnect ms p i sc => '(s, st, _) ← reconnect hook (connect_with i sc) has_iom rt ms p s st; Ret (s, st)
  | OListen n => Ret (s, (listen n s st).1)
  | OIo f i sc => '(st, _) ← guarded (io_with i sc) f s st; Ret (s, st)
  | OTimeout o v => st ← setTimeout_of hook o v s st; Ret (s, st)
  | OClose => '(s, st, _) ← close hook has_iom rt s st; Ret (s, st)
  end.

(** New objects get new addresses, and a suspended call meets what its script
    says, to its end. *)
Definition op_ok (o : op) (s : Socket) (st : state) : Prop :=
  match o with
  | OBind a p q i sc => fresh p st ∧ fresh q st ∧ q ≠ p ∧ bind_ok i sc a p q s st
  | OConnect a ms p i sc => fresh p st ∧ connect_ok ∅ i sc a ms p s st
  | OReconnect ms p i sc =>
      fresh p st ∧ match remoteAddress_ s with
                   | Some a => connect_ok ∅ i sc a ms p (set_local None s) st
                   | None => sc = []
                   end
  | OIo f i sc =>
      if isConnected s then io_fits open pipe (sock_ s) has_iom cur_s cur_f i (own s) hook f sc st else sc = []
  | _ => True
  end.

(** What the rest of the program has open after it. *)
Definition op_others (o : op) (others : gset Z) : gset Z :=
  match o with
  | OBind _ _ _ _ sc | OConnect _ _ _ _ sc | OReconnect _ _ _ sc | OIo _ _ sc => others_after sc others
  | _ => others
  end.

Fixpoint run_ops (l : list op) (s : Socket) (st : state) : outcome (Socket * state) :=
  match l with [] => Ret (s, st) | o :: l' => '(s, st) ← run_op o s st; run_ops l' s st end.
Fixpoint ops_ok (l : list op) (s : Socket) (st : state) : Prop :=
  match l with
  | [] => True
  | o :: l' => op_ok o s st ∧ ∀ s' st', run_op o s st = Ret (s', st') → ops_ok l' s' st'
  end.

(** The connecting calls, with nothing of somebody else's. *)
Lemma connect_owns_alone others info script addr ms p s st :
  owns others s st → conn_ok s → fresh p st → connect_ok ∅ info script addr ms p s st →
  ∃ s' st' b, connect hook (connect_with info script) has_iom rt addr ms p s st = Ret (s', st', b) ∧
    owns (others_after script others) s' st' ∧ conn_ok s'.
Proof.
  intros Ho Hc Hp Hok. pose proof (ow_pipe _ _ _ Ho) as Hpipe. rewrite <-(union_empty_r_L others) in Ho.
  destruct (connect_owns others ∅ info script addr ms p s st Ho ltac:(set_solver) Hpipe Hc Hp Hok)
    as (s' & st' & b & E & Ho' & _ & _ & Hc' & _).
  rewrite union_empty_r_L in Ho'. by exists s', st', b.
Qed.

Lemma run_op_owns others o s st :
  owns others s st → conn_ok s → op_ok o s st →
  ∃ s' st', run_op o s st = Ret (s', st') ∧ owns (op_others o others) s' st' ∧ conn_ok s'.
Proof.
  intros Ho Hc Hok. destruct o as [a p q i sc|a ms p i sc|ms p i sc|n|f i sc|option v|]; cbn [run_op op_ok op_others] in *.
  - destruct Hok as (Hp & Hq & Hqp & Hok).
    destruct (bind_owns others i sc a p q s st Ho Hc Hp Hq Hqp Hok) as (s' & st' & b & -> & ? & ?). by exists s', st'.
  - destruct Hok as [Hp Hok].
    destruct (connect_owns_alone others i sc a ms p s st Ho Hc Hp Hok) as (s' & st' & b & -> & ? & ?). by exists s', st'.
  - destruct Hok as [Hp Hok]. unfold reconnect. destruct (remoteAddress_ s) as [a|]; [|rewrite Hok; by exists s, st].
    assert (Ho1 : owns others (set_local None s) st) by by eapply owns_fields; [|exact Ho].
    destruct (connect_owns_alone others i sc a ms p _ st Ho1 Hc Hp Hok) as (s' & st' & b & -> & ? & ?). by exists s', st'.
  - exists s, (listen n s st).1. split; [done|]. split; [|done]. unfold listen.
    destruct (negb (isValid s)); [done|]. destruct st as [w k]. cbn [fst snd].
    destruct (listen_f _ _ k) as [k' r] eqn:E. eapply owns_quiet; [exact Ho|].
    apply quiet_kernel; [apply Ho|]. by rewrite <- (listen_keeps (sock_ s) n k), E.
  - unfold guarded. destruct (isConnected s) eqn:Ec; [|rewrite Hok; by exists s, st].
    assert (Hv : sock_ s ≠ -1) by (intros E; specialize (Hc Ec); unfold isValid in Hc; by rewrite E in Hc).
    pose proof Ho as [Hg Hs Hop Hap Hpipe]. destruct Hs as [?|Hfd]; [done|].
    assert (Hown : own s = {[sock_ s]}) by (unfold own; by rewrite (proj2 (Z.eqb_neq _ _) Hv)).
    destruct (hooked_io_returns open pipe (sock_ s) has_iom cur_s cur_f i (own s) hook f sc st others
      (mk_shares _ _ _ _ _ Hg Hop Hap Hpipe) Hfd ltac:(intros E; rewrite Hown, E in Hap; set_solver) Hok) as (st' & r & E & Hsh).
    unfold io_with. rewrite E. exists s, st'. split; [done|]. split; [|done].
    destruct Hsh. by split; [|right|..].
  - destruct (setTimeout_quiet others option v s st Ho) as (st' & -> & Hq).
    exists s, st'. split; [done|]. split; [by eapply owns_quiet|done].
  - destruct (close_owns others s st Ho) as (st' & -> & Ho' & _). eexists _, st'. split; [done|]. by split.
Qed.

End Calls.

Section Accepting.
(** [accept] comes back, and may have opened a descriptor. *)
Context (accept_call : Z → state → outcome (state * Z)).

Definition opening_call (call : state → outcome (state * Z)) : Prop :=
  ∀ st, good st → ∃ st' r, call st = Ret (st', r) ∧ good st' ∧
    (r = -1 ∧ open st'.2 = open st.2 ∨ fd_ok r ∧ r ∉ open st.2 ∧ open st'.2 = {[r]} ∪ open st.2).

Context (accept_opens : ∀ fd, opening_call (accept_call fd)).

(** Does the manager know the descriptor as an open socket? *)
Definition usable (fd : Z) (w : world) : Prop :=
  ∃ c, get_ctx fd w = Ret (Some c) ∧ isSocket_ c = true ∧ isClosed_ c = false.

(** [accept] hands the new descriptor to a new object, or loses it.  When
    the kernel gives one and the descriptor manager knows it as an open socket,
    the result is a connected object that owns it.  When the manager does not -
    as on a thread without hooks, where nobody registers it - the result is the
    null pointer and the descriptor stays open with no owner. *)
Theorem accept_owns_or_leaks base s st st1 fd :
  owns base s st → accept_call (sock_ s) st = Ret (st1, fd) →
  ∃ o st', accept accept_call s st = Ret (o, st') ∧
    (fd = -1 → o = None ∧ open st'.2 = open st.2) ∧
    (fd ≠ -1 → usable fd st1.1 → ∃ n, o = Some n ∧ owns (base ∪ own s) n st' ∧
       sock_ n = fd ∧ isConnected_ n = true) ∧
    (fd ≠ -1 → ¬ usable fd st1.1 → o = None ∧ fd ∈ open st'.2 ∧ fd ∉ base ∪ own s).
Proof.
  intros [Hg Hs Hop Hap Hpipe] Hcall. unfold accept.
  destruct (accept_opens (sock_ s) st Hg) as (st1' & fd' & E & Hg1 & Hk). rewrite Hcall in E |- *.
  injection E as <- <-. cbn [mbind outcome_bind]. destruct (Z.eqb_spec fd (-1)) as [->|Hne].
  { exists None, st1. split; [done|]. split; [|by split]. split; [done|]. by destruct Hk as [[_ ?]|([] & _)]. }
  destruct Hk as [[? _]|(Hfd & Hn & Hk)]; [done|]. unfold init.
  destruct (get_ctx_ok fd st1.1 (proj1 Hg1) (or_introl Hfd)) as (o & Ec & _). rewrite Ec. cbn [mbind outcome_bind].
  assert (Hleak : ¬ usable fd st1.1 → ∃ o st', Ret (@None Socket, st1) = Ret (o, st') ∧ (fd = -1 → o = None ∧ open st'.2 = open st.2) ∧
    (fd ≠ -1 → usable fd st1.1 → ∃ n, o = Some n ∧ owns (base ∪ own s) n st' ∧
       sock_ n = fd ∧ isConnected_ n = true) ∧
    (fd ≠ -1 → ¬ usable fd st1.1 → o = None ∧ fd ∈ open st'.2 ∧ fd ∉ base ∪ own s)).
  { intros Hu. exists None, st1. do 3 (split; [done|]). intros _ _. split; [done|]. rewrite Hk, <- Hop. set_solver. }
  destruct o as [c|]; [|by apply Hleak; intros (? & ? & ?); congruence].
  destruct (isSocket_ c && negb (isClosed_ c)) eqn:Eu; cbn [mbind outcome_bind].
  2: { apply Hleak. intros (c' & Ec' & E1 & E2). rewrite Ec in Ec'. injection Ec' as <-. by rewrite E1, E2 in Eu. }
  apply andb_prop in Eu as [Es Ecl%negb_true_iff].
  set (n := set_connected true (set_sock fd _)). set (st2 := initSock n st1).
  destruct (getRemoteAddress_sock (getLocalAddress n st2).1 st2) as [E1 E2].
  destruct (getLocalAddress_sock n st2) as [E3 E4]. rewrite E3 in E1. rewrite E4 in E2.
  eexists (Some _), st2. split; [reflexivity|]. split; [done|]. split; [|by intros _ []; exists c].
  intros _ _. eexists. split; [reflexivity|]. split; [|by rewrite E1, E2].
  eapply (owns_fields _ n); [exact E1|]. eapply owns_quiet; [|by apply initSock_quiet].
  assert (own n = {[fd]}) as En by (unfold own; cbn; by rewrite (proj2 (Z.eqb_neq _ _) Hne)).
  split; [done|by right|..]; rewrite ?En; [rewrite Hk, Hop|rewrite Hop in Hn|]; set_solver.
Qed.
End Accepting.
End Ownership.

(** ** Timeouts and addresses *)
Section Values.
Context {K : Type} `{Libc K, NetLibc K}.

Abbreviation state := (Hook.state (K := K)).

Lemma quot_rem_1000 v :
  Z.quot v 1000 * 1000 + Z.rem v 1000 = v ∧ -1000 < Z.rem v 1000 < 1000 ∧
  (0 ≤ v → 0 ≤ Z.rem v 1000) ∧ (v ≤ 0 → Z.rem v 1000 ≤ 0).
Proof.
  split; [pose proof (Z.quot_rem' v 1000); lia|].
  split; [pose proof (Z.rem_bound_abs v 1000 ltac:(done)); lia|].
  split; intros; [by apply Z.rem_nonneg|by apply Z.rem_nonpos].
Qed.

(** The milliseconds that reach the context: the seconds pass through an [int]. *)
Lemma timeval_ms v :
  (timeval_of v).1 * 1000 + Z.quot (timeval_of v).2 1000 = i32 (Z.quot v 1000) * 1000 + Z.rem v 1000.
Proof.
  unfold timeval_of. cbn [fst snd]. destruct (quot_rem_1000 v) as (_ & Hr & _).
  rewrite (i32_small (Z.rem v 1000 * 1000)) by lia. by rewrite Z.quot_mul.
Qed.

(** A timeout set is the timeout read, within the range of an [int] of
    seconds.  On a hooked socket, [setRecvTimeout] and [setSendTimeout] followed
    by the getter give the value back, negative ones and the -1 that stands for
    no timeout included, and leave the other direction alone; from 2^31 seconds
    on the value read is negative.  On a thread without hooks the value never
    reaches the descriptor's context, and the getter goes on showing the old
    one. *)
Theorem timeout_round_trip hook option v p c s w k :
  option = SO_RCVTIMEO ∨ option = SO_SNDTIMEO → hooked (sock_ s) p c w →
  -2 ^ 31 * 1000 ≤ v < 2 ^ 32 * 1000 →
  ∃ st', setTimeout_of hook option v s (w, k) = Ret st' ∧
    getTimeout_of option s st' =
      Ret (if hook then (if v <? 2 ^ 31 * 1000 then v else v - 2 ^ 32 * 1000)
           else i64 (FdManager.getTimeout option c)) ∧
    ∀ other, other = SO_RCVTIMEO ∨ other = SO_SNDTIMEO → other ≠ option →
      getTimeout_of other s st' = Ret (i64 (FdManager.getTimeout other c)).
Proof.
  intros Hopt Hh Hv. unfold setTimeout_of, Hook.setsockopt.
  destruct (setsockopt_f (sock_ s) SOL_SOCKET option (timeval_of v) k) as [k1 r] eqn:Ek.
  assert (Eb : (SOL_SOCKET =? SOL_SOCKET) && ((option =? SO_RCVTIMEO) || (option =? SO_SNDTIMEO)) = true)
    by (by destruct Hopt as [->| ->]).
  destruct hook; cbn [negb].
  2: { exists (w, k1). split; [done|]. unfold getTimeout_of. cbn [fst]. by rewrite (hooked_get _ _ _ _ Hh). }
  rewrite Eb, (hooked_get _ _ _ _ Hh). cbn [mbind outcome_bind null]. rewrite timeval_ms.
  set (ms := u64 _). eexists. split; [reflexivity|].
  assert (Hh1 : hooked (sock_ s) p (FdManager.setTimeout option ms c)
                  (update_ctx (sock_ s) (FdManager.setTimeout option ms) w)).
  { apply hooked_update; [intros c'; unfold FdManager.setTimeout; by case_step| |done].
    pose proof (hk_open _ _ _ _ Hh). by destruct Hopt as [->| ->]. }
  unfold getTimeout_of. cbn [fst]. rewrite (hooked_get _ _ _ _ Hh1). cbn [mbind outcome_bind].
  split.
  - f_equal. assert (FdManager.getTimeout option (FdManager.setTimeout option ms c) = ms) as ->
      by (by destruct Hopt as [->| ->]).
    destruct (quot_rem_1000 v) as (Hq & Hr & Hp & Hn). unfold ms. destruct (Z.ltb_spec v (2 ^ 31 * 1000)) as [Hlt|Hge].
    + rewrite i32_small by lia. rewrite Hq. solve_int.
    + assert (i32 (Z.quot v 1000) = Z.quot v 1000 - 2 ^ 32) as -> by solve_int. solve_int.
  - intros other Ho Hne. by destruct Hopt as [->| ->], Ho as [->| ->].
Qed.

(** What [close] and [connect] do to the two addresses. *)
Lemma close_addresses hook has_iom rt (s s1 : Socket) (st st1 : state) b :
  close hook has_iom rt s st = Ret (s1, st1, b) →
  localAddress_ s1 = localAddress_ s ∧ remoteAddress_ s1 = remoteAddress_ s.
Proof.
  intros E. unfold close in E. destruct (_ && _); [by injection E as <- _ _|].
  destruct (negb _); [|by injection E as <- _ _].
  destruct (Hook.close _ _ _ _ _) as [[[st2 r] l]| | |]; try done. by injection E as <- _ _.
Qed.

Lemma connect_addresses hook connect_call has_iom rt addr ms p (s s' : Socket) (st st' : state) b :
  connect hook connect_call has_iom rt addr ms p s st = Ret (s', st', b) →
  remoteAddress_ s' = Some addr ∧
  (∀ a, localAddress_ s = Some a → localAddress_ s' = Some a) ∧
  (localAddress_ s = None → b = true →
   localAddress_ s' = getsockname_f (sock_ s') (family_ s') st'.2).
Proof.
  intros E. unfold connect in E. apply bind_Ret in E as ([s3 st3] & E3 & E).
  assert (localAddress_ s3 = localAddress_ s ∧ remoteAddress_ s3 = Some addr) as [Hl Hr].
  { destruct (negb _); [|by injection E3 as <- _]. unfold newSock in E3.
    apply bind_Ret in E3 as ([st4 fd] & _ & E3). by injection E3 as <- _. }
  destruct (negb (isValid s3)); [injection E as <- <- <-; rewrite Hl; naive_solver|].
  destruct (negb (_ =? _)); [injection E as <- <- <-; rewrite Hl; naive_solver|].
  apply bind_Ret in E as ([st4 r] & _ & E). destruct (negb (r =? 0)).
  - apply bind_Ret in E as ([[s5 st5] b5] & E5 & E). injection E as <- <- <-.
    destruct (close_addresses _ _ _ _ _ _ _ _ E5) as [-> ->]. rewrite Hl. naive_solver.
  - unfold getRemoteAddress in E. cbn [remoteAddress_ set_connected] in E. rewrite Hr in E.
    cbn [fst] in E. unfold getLocalAddress in E. cbn [localAddress_ set_connected sock_ family_] in E.
    rewrite Hl in E.
    destruct (localAddress_ s) as [a0|]; [injection E as <- <- <-; cbn; rewrite Hl; naive_solver|].
    destruct (getsockname_f _ _ _) eqn:En; injection E as <- <- <-; cbn; rewrite ?Hl, ?En; naive_solver.
Qed.

(** A socket's local address outlives its connection.  Once known it is
    never asked for again: after [close] and a successful [connect] it is still
    that of the old connection, whatever [getsockname] would now say; only
    [reconnect] drops it.  The remote address is the one asked for, also when
    the connection fails. *)
Theorem local_address_stale hook connect_call has_iom rt addr ms p a (s s1 s' : Socket) (st st1 st' : state) b0 b :
  localAddress_ s = Some a → close hook has_iom rt s st = Ret (s1, st1, b0) →
  connect hook connect_call has_iom rt addr ms p s1 st1 = Ret (s', st', b) →
  localAddress_ s' = Some a ∧ remoteAddress_ s' = Some addr ∧
  ∀ s2 st2, reconnect hook connect_call has_iom rt ms p s' st' = Ret (s2, st2, true) →
    localAddress_ s2 = getsockname_f (sock_ s2) (family_ s2) st2.2 ∧ remoteAddress_ s2 = Some addr.
Proof.
  intros Ha Ec E. destruct (close_addresses _ _ _ _ _ _ _ _ Ec) as [El _]. rewrite Ha in El.
  destruct (connect_addresses _ _ _ _ _ _ _ _ _ _ _ _ E) as (Hr & Hl & _).
  split; [by apply Hl|]. split; [done|]. intros s2 st2 E2. unfold reconnect in E2. rewrite Hr in E2.
  destruct (connect_addresses _ _ _ _ _ _ _ _ _ _ _ _ E2) as (Hr2 & _ & Hn). split; [by apply Hn|done].
Qed.
End Values.

(** ** A small kernel *)

(** The open descriptors are all there is; [socket] has one to give, 7. *)
#[export] Instance set_libc : Libc (gset Z) := {
  fcntl_f _ _ _ k := (k, 0);
  ioctl_f _ _ _ k := (k, 0);
  setsockopt_f _ _ _ _ k := (k, 0);
  socket_f k := if decide (7 ∈ k) then (k, -1) else ({[7]} ∪ k, 7);
  close_f fd k := (k ∖ {[fd]}, if decide (fd ∈ k) then 0 else -1);
  fstat_f _ _ := Some true }.

#[export] Instance set_netlibc : NetLibc (gset Z) := {
  bind_f _ _ k := (k, 0);
  listen_f _ _ k := (k, 0);
  setsockopt_int_f _ _ _ _ k := (k, 0);
  so_error_f _ _ := Some 0;
  getsockname_f _ _ _ := Some (IPv4Address (IPv4Address_new 0 80));
  getpeername_f _ _ _ := None;
  unlink_f _ k := k;
  errno _ := 0 }.

#[export] Instance set_descriptors : DescriptorLaws (gset Z).
Proof.
  refine (Build_DescriptorLaws _ _ _ id _ _ _ _ _ _ _ _); try done.
  intros k k' fd E. cbn in E. destruct (decide (7 ∈ k)); injection E as <- <-; [by left|right].
  by split; [vm_compute|].
Defined.

(** The suspended calls at their simplest: everything succeeds at once, and the
    descriptor accepted is 7, as [socket] would give it. *)
Definition demo_connect (fd : Z) (a : Address) (t : option Z) (st : Hook.state (K := gset Z)) :
    outcome (Hook.state (K := gset Z) * Z) :=
  Ret (st, 0).
Definition demo_accept (fd : Z) (st : Hook.state (K := gset Z)) : outcome (Hook.state (K := gset Z) * Z) :=
  let '(k, r) := socket_f st.2 in Ret ((st.1, k), r).

Definition demo_addr : Address := IPv4Address (IPv4Address_new 0 80).
Definition demo_kernel : Hook.state (K := gset Z) := (demo_world, {[3; 4; 5]}).

Lemma demo_good : good open 3 demo_kernel.
Proof.
  split; [exact (hk_wf _ _ _ _ demo_hooked)|]. split; [exists ∅; exact demo_implements|].
  split; [done|]. split; [cbn; set_solver|apply TimerManager_new_wf].
Qed.
Lemma demo_owns : owns 3 {[3; 4; 5]} CreateTCPSocket demo_kernel.
Proof.
  split; [exact demo_good|by left|..]; unfold own; cbn; set_solver.
Qed.
Lemma demo_accept_opens fd : opening_call 3 (demo_accept fd).
Proof.
  intros [w k] Hg. unfold demo_accept. destruct (socket_f k) as [k' r] eqn:E. cbn [snd]. rewrite E.
  eexists _, r. split; [reflexivity|]. pose proof (socket_opens _ _ _ E) as Hk. split; [|exact Hk].
  eapply good_kernel; [exact Hg|]. destruct Hg as (_ & _ & _ & Hp & _). cbn in *.
  destruct Hk as [[_ ->]|(_ & _ & ->)]; set_solver.
Qed.

(** A connection that waits: the kernel has it in progress, the event is
    registered, the rest of the program opens descriptor 9, the fiber is resumed
    and the connection stands. *)
Definition demo_sock : Socket * Hook.state (K := gset Z) := Eval vm_compute in
  match ready true 16 (set_remote (Some demo_addr) CreateTCPSocket) demo_kernel with
  | Ret x => x | _ => (CreateTCPSocket, demo_kernel) end.
Definition demo_came : news (K := gset Z) := Came (-1) EINPROGRESS demo_sock.2.2.
Definition demo_step (x : news) (c : pc * Hook.state (K := gset Z)) : pc * Hook.state :=
  match connect_step 7 true (Some 1) (64, true) 1 x c.1 c.2 with Ret y => y | _ => c end.
Definition demo_c1 : pc * Hook.state := Eval vm_compute in demo_step demo_came (Calling 5000 1, demo_sock.2).
Definition demo_c2 : pc * Hook.state := Eval vm_compute in demo_step (Armed 1000 200 0 0) demo_c1.
Definition demo_others : gset Z := {[3; 4; 5; 9]}.
Definition demo_met : Hook.state (K := gset Z) := (demo_c2.2.1, demo_others ∪ {[7]}).
Definition demo_script : list (news (K := gset Z)) :=
  [demo_came; Armed 1000 200 0 0; Meanwhile demo_met demo_others; Resumed; Status 0 0 0].
Definition demo_ops : list (op (K := gset Z)) :=
  [OConnect demo_addr 5000 16 1 demo_script; OTimeout SO_RCVTIMEO 500; OIo Recv 2 [Came 10 0 demo_met.2]; OClose].

Lemma demo_shares : shares open 3 {[7]} {[3; 4; 5]} demo_sock.2.
Proof.
  destruct (newSock_owns true 3 {[3; 4; 5]} 16 (set_remote (Some demo_addr) CreateTCPSocket) demo_kernel)
    as (s' & st' & E & Ho & _); [by eapply owns_fields; [|exact demo_owns]|done|by vm_compute|].
  assert (En : newSock true 16 (set_remote (Some demo_addr) CreateTCPSocket) demo_kernel = Ret demo_sock) by (by vm_compute).
  rewrite En in E. assert (E1 : demo_sock = (s', st')) by congruence. destruct Ho as [Hg _ Hop _ _].
  replace st' with demo_sock.2 in * by (by rewrite E1). split; [exact Hg| |clear; set_solver..].
  by apply (bool_decide_unpack _); vm_compute.
Qed.

Lemma demo_fits : fits open 3 7 true (Some 1) (64, true) 1 {[7]} CWrite
  (connect_step 7 true (Some 1) (64, true) 1) demo_script (Calling 5000 1) demo_sock.2.
Proof.
  assert (Hk := connect_step_keeps_on open 3 7 true (Some 1) (64, true) 1 {[7]} CWrite ltac:(lia) ltac:(done) eq_refl).
  assert (M1 : meets open 3 7 true (Some 1) (64, true) 1 {[7]} CWrite demo_came (Calling 5000 1) demo_sock.2) by done.
  assert (E1 : connect_step 7 true (Some 1) (64, true) 1 demo_came (Calling 5000 1) demo_sock.2 = Ret demo_c1) by (by vm_compute).
  assert (M2 : meets open 3 7 true (Some 1) (64, true) 1 {[7]} CWrite (Armed 1000 200 0 0) demo_c1.1 demo_c1.2).
  { split_and!; try done. exists ∅. split; [exact demo_implements|done]. }
  assert (E2 : connect_step 7 true (Some 1) (64, true) 1 (Armed 1000 200 0 0) demo_c1.1 demo_c1.2 = Ret demo_c2) by (by vm_compute).
  assert (H0 : held 1 false (Calling 5000 1) demo_sock.2.1) by (by split).
  destruct (Hk _ _ _ _ demo_shares H0 M1 ltac:(done)) as (c1 & st1 & E & S1 & H1).
  rewrite E1 in E. assert (X1 : (c1, st1) = demo_c1) by congruence. clear E.
  replace c1 with demo_c1.1 in * by (by rewrite <-X1). replace st1 with demo_c1.2 in * by (by rewrite <-X1).
  destruct (Hk _ _ _ _ S1 H1 M2 ltac:(done)) as (c2 & st2 & E & S2 & H2).
  rewrite E2 in E. assert (X2 : (c2, st2) = demo_c2) by congruence. clear E.
  replace st2 with demo_c2.2 in * by (by rewrite <-X2). clear X1 X2 H1 H2 Hk.
  assert (M3 : meets open 3 7 true (Some 1) (64, true) 1 {[7]} CWrite (Meanwhile demo_met demo_others) demo_c2.1 demo_c2.2).
  { split; [|split; [by intros p|done]]. split.
    - eapply (good_kernel 3 demo_c2.2.1 demo_c2.2.2); [apply S2|]. change (3 ∈ demo_others ∪ {[7]}). clear. unfold demo_others. set_solver.
    - done.
    - clear. unfold demo_others. set_solver.
    - clear. unfold demo_others. set_solver. }
  split; [exact M1|]. intros c' st' E. rewrite E1 in E. injection E as <- <-.
  split; [exact M2|]. intros c' st' E. change (connect_step 7 true (Some 1) (64, true) 1 (Armed 1000 200 0 0) demo_c1.1 demo_c1.2 = Ret (c', st')) in E.
  rewrite E2 in E. injection E as <- <-.
  split; [exact M3|]. intros c' st' E. vm_compute in E. injection E as <- <-.
  split; [done|]. intros c' st' E. vm_compute in E. injection E as <- <-.
  split; [done|]. intros c' st' E. vm_compute in E. by injection E as <- <-.
Qed.


Lemma accept_owns_or_leaks_witness :
  ∃ o st', accept demo_accept CreateTCPSocket demo_kernel = Ret (o, st') ∧
    o = None ∧ 7 ∈ open st'.2 ∧ 7 ∉ {[3; 4; 5]} ∪ own CreateTCPSocket.
Proof.
  destruct (accept_owns_or_leaks 3 demo_accept demo_accept_opens {[3; 4; 5]} CreateTCPSocket
    demo_kernel (demo_world, {[7; 3; 4; 5]}) 7 demo_owns) as (o & st' & E & _ & _ & H).
  - by vm_compute.
  - exists o, st'. split; [exact E|]. apply H; [done|].
    assert (get_ctx 7 demo_world = Ret None) as Hn by by vm_compute.
    intros (c & Hc & _). cbn [fst] in Hc. by rewrite Hn in Hc.
Defined.

Lemma timeout_round_trip_witness :
  ∃ st', setTimeout_of true SO_RCVTIMEO (-1) (set_sock 5 CreateTCPSocket) demo_kernel = Ret st' ∧
    getTimeout_of SO_RCVTIMEO (set_sock 5 CreateTCPSocket) st' = Ret (-1).
Proof.
  destruct (timeout_round_trip true SO_RCVTIMEO (-1) 8 _ (set_sock 5 CreateTCPSocket) demo_world {[3; 4; 5]}
    (or_introl eq_refl) demo_hooked) as (st' & E & Hg & _); [lia|].
  exists st'. split; [exact E|exact Hg].
Defined.

(** A connected socket that was at port 8080. *)
Definition demo_connected : Socket :=
  set_connected true (set_local (Some (IPv4Address (IPv4Address_new 0 8080))) (set_sock 5 CreateTCPSocket)).

Definition demo_closed : Socket * Hook.state (K := gset Z) := Eval vm_compute in
  match close true false 0 demo_connected demo_kernel with
  | Ret (s, st, _) => (s, st) | _ => (demo_connected, demo_kernel) end.
Definition demo_again : Socket * Hook.state (K := gset Z) := Eval vm_compute in
  match connect true demo_connect false 0 demo_addr u64_max 16 demo_closed.1 demo_closed.2 with
  | Ret (s, st, _) => (s, st) | _ => demo_closed end.

Lemma demo_close : close true false 0 demo_connected demo_kernel = Ret (demo_closed, false).
Proof. by vm_compute. Qed.
Lemma demo_reconnected :
  connect true demo_connect false 0 demo_addr u64_max 16 demo_closed.1 demo_closed.2 = Ret (demo_again, true).
Proof. by vm_compute. Qed.

Lemma local_address_stale_witness :
  localAddress_ demo_again.1 = Some (IPv4Address (IPv4Address_new 0 8080)) ∧
  remoteAddress_ demo_again.1 = Some demo_addr.
Proof.
  destruct (local_address_stale true demo_connect false 0 demo_addr u64_max 16
    (IPv4Address (IPv4Address_new 0 8080)) demo_connected demo_closed.1 demo_again.1 demo_kernel
    demo_closed.2 demo_again.2 false true eq_refl demo_close demo_reconnected) as (H1 & H2 & _).
  split; [exact H1|exact H2].
Defined.
