(* ===== verification/LogFormat.v ===== *)
(** * Log levels, events and formats: log.h, log.cpp

    [LogFormatter::init] walks the pattern with an index and takes substrings;
    here the walk is over the characters that are left, and the substring taken
    so far is an argument.  What an item writes to the stream is a string. *)
From S2P Require Import Prelude StringUtil JsonUtil.

(** ** Levels *)

(** [LogLevel::Level], in the order of its values. *)
Inductive Level : Type := UNKNOW | DEBUG | INFO | WARN | ERROR | FATAL.

#[export] Instance Level_eq_dec : EqDecision Level.
Proof. solve_decision. Defined.

Definition level_value (l : Level) : Z :=
  match l with UNKNOW => 0 | DEBUG => 1 | INFO => 2 | WARN => 3 | ERROR => 4 | FATAL => 5 end.

(** [a <= b] on levels. *)
Definition level_le (a b : Level) : bool := level_value a <=? level_value b.

Definition ToString (level : Level) : str :=
  match level with
  | DEBUG => $"DEBUG"
  | INFO => $"INFO"
  | WARN => $"WARN"
  | ERROR => $"ERROR"
  | FATAL => $"FATAL"
  | UNKNOW => $"UNKNOW"
  end.

Definition level_names : list (str * Level) :=
  [($"DEBUG", DEBUG); ($"INFO", INFO); ($"WARN", WARN); ($"ERROR", ERROR); ($"FATAL", FATAL);
   ($"debug", DEBUG); ($"info", INFO); ($"warn", WARN); ($"error", ERROR); ($"fatal", FATAL)].

Definition FromString (s : str) : Level :=
  match list_find (λ x, x.1 = s) level_names with Some (_, (_, l)) => l | None => UNKNOW end.

(** ** Events *)

(** [LogEvent]; [logger_name] is the name of its [logger_] and [ss_] what was
    streamed into it. *)
Record LogEvent : Type := mkEvent {
  file_ : str;
  line_ : Z;
  elapse_ : Z;
  thread_id_ : Z;
  fiber_id_ : Z;
  time_ : Z;
  thread_name_ : str;
  ss_ : str;
  logger_name : str;
  level_ : Level }.

(** The condition of [SYLAR_LOG_LEVEL]: is an event of this level made at all? *)
Definition log_enabled (logger_level level : Level) : bool := level_le logger_level level.

(** [LogEvent::format]: what [vasprintf] printed is appended, and nothing when
    it failed. *)
Definition event_format (printed : option str) (e : LogEvent) : LogEvent :=
  match printed with
  | Some s => mkEvent (file_ e) (line_ e) (elapse_ e) (thread_id_ e) (fiber_id_ e) (time_ e)
                (thread_name_ e) (ss_ e ++ s) (logger_name e) (level_ e)
  | None => e
  end.

(** ** Format items *)

(** The classes derived from [FormatItem]. *)
Inductive FormatItem : Type :=
  | MessageItem | LevelItem | ElapseItem | NameItem | ThreadIdItem | NewLineItem
  | DateTimeItem (format : str)
  | FilenameItem | LineItem | TabItem | FiberIdItem | ThreadNameItem
  | StringItem (s : str).

(** The constructor of [DateTimeFormatItem]. *)
Definition DateTime_new (format : str) : FormatItem :=
  DateTimeItem (if bool_decide (format = []) then $"%Y-%m-%d %H:%M:%S" else format).

(** The table [format_items]: the item of a conversion, given its braces' text. *)
Definition format_items (s fmt : str) : option FormatItem :=
  match s with
  | ["m"%char] => Some MessageItem
  | ["p"%char] => Some LevelItem
  | ["r"%char] => Some ElapseItem
  | ["c"%char] => Some NameItem
  | ["t"%char] => Some ThreadIdItem
  | ["n"%char] => Some NewLineItem
  | ["d"%char] => Some (DateTime_new fmt)
  | ["f"%char] => Some FilenameItem
  | ["l"%char] => Some LineItem
  | ["T"%char] => Some TabItem
  | ["F"%char] => Some FiberIdItem
  | ["N"%char] => Some ThreadNameItem
  | _ => None
  end.

Section Format.
(** [strftime(buf, 64, format, localtime_r(time))]: [None] when the text does
    not fit the buffer, whose contents are then indeterminate. *)
Context (strftime : str → Z → option str).

(** [FormatItem::format] of each class. *)
Definition item_format (level : Level) (e : LogEvent) (i : FormatItem) : outcome str :=
  match i with
  | MessageItem => Ret (ss_ e)
  | LevelItem => Ret (ToString level)
  | ElapseItem => Ret (decimal (elapse_ e))
  | NameItem => Ret (logger_name e)
  | ThreadIdItem => Ret (decimal (thread_id_ e))
  | NewLineItem => Ret ["010"%char]
  | DateTimeItem f => match strftime f (time_ e) with Some s => Ret s | None => Undefined end
  | FilenameItem => Ret (file_ e)
  | LineItem => Ret (decimal (line_ e))
  | TabItem => Ret ["009"%char]
  | FiberIdItem => Ret (decimal (fiber_id_ e))
  | ThreadNameItem => Ret (thread_name_ e)
  | StringItem s => Ret s
  end.

(** [LogFormatter::format]: both overloads write the items in order. *)
Fixpoint format (items : list FormatItem) (level : Level) (e : LogEvent) : outcome str :=
  match items with
  | [] => Ret []
  | i :: r => s ← item_format level e i; t ← format r level e; Ret (s ++ t)
  end.
End Format.

(** ** Parsing a pattern *)

Definition isalpha (c : ascii) : bool :=
  ((65 <=? code c) && (code c <=? 90)) || ((97 <=? code c) && (code c <=? 122)).

(** The [while] loop of [init].  [all] is the pattern after the [%], [acc] the
    substring from there (or from the opening brace when [fmt_status] is set) up
    to the current character.  The result: [fmt_status], [str], [fmt], and the
    pattern from index [n] on. *)
Fixpoint item_loop (all : str) (fmt_status : bool) (acc s : str) (rest : str) : bool * str * str * str :=
  match rest with
  | [] => (fmt_status, s, [], [])
  | c :: rest' =>
      if negb fmt_status && negb (isalpha c) && negb (Ascii.eqb c "{") && negb (Ascii.eqb c "}")
      then (fmt_status, acc, [], rest)
      else if negb fmt_status && Ascii.eqb c "{" then item_loop all true [] acc rest'
      else if fmt_status && Ascii.eqb c "}" then (false, s, acc, rest')
      else match rest' with
           | [] => (fmt_status, if bool_decide (s = []) then all else s, [], [])
           | _ => item_loop all fmt_status (acc ++ [c]) s rest'
           end
  end.

(** An entry of [vec]: string, format, type. *)
Definition piece : Type := str * str * Z.

Definition flush (nstr : str) : list piece :=
  if bool_decide (nstr = []) then [] else [(nstr, [], 0)].

(** The [for] loop of [init], with the text [nstr] collected so far: [vec] and
    whether [error_] was set. *)
Fixpoint parse (fuel : nat) (nstr : str) (pattern : str) : list piece * bool :=
  match fuel with
  | O => ([], false)
  | S fuel =>
      match pattern with
      | [] => (flush nstr, false)
      | c :: r =>
          if negb (Ascii.eqb c "%") then parse fuel (nstr ++ [c]) r
          else if bool_decide (head r = Some "%"%char) then parse fuel (nstr ++ ["%"%char]) r
          else
            let '(fmt_status, s, fmt, rest) := item_loop r false [] [] r in
            if fmt_status : bool then
              let '(vec, _) := parse fuel nstr r in (($"<<pattern_error>>", fmt, 0) :: vec, true)
            else
              let '(vec, error) := parse fuel [] rest in
              (flush nstr ++ (s, fmt, 1) :: vec, error)
      end
  end.

(** The last loop of [init]. *)
Definition make_item (p : piece) : FormatItem * bool :=
  let '(s, fmt, type) := p in
  if type =? 0 then (StringItem s, false)
  else match format_items s fmt with
       | Some i => (i, false)
       | None => (StringItem ($"<<error_format %" ++ s ++ $">>"), true)
       end.

Record LogFormatter : Type := mkFormatter { pattern_ : str; items_ : list FormatItem; error_ : bool }.

(** [LogFormatter::LogFormatter] with [init]: every turn of the loop takes at
    least one character. *)
Definition LogFormatter_new (pattern : str) : LogFormatter :=
  let '(vec, error) := parse (S (length pattern)) [] pattern in
  mkFormatter pattern (fst <$> (make_item <$> vec)) (error || existsb snd (make_item <$> vec)).

Definition default_pattern : str :=
  $"%d{%Y-%m-%d %H:%M:%S}%T%t%T%N%T%F%T[%p]%T[%c]%T%f:%l%T%m%n".

Example default_items :
  items_ (LogFormatter_new default_pattern) =
  [DateTimeItem ($"%Y-%m-%d %H:%M:%S"); TabItem; ThreadIdItem; TabItem; ThreadNameItem; TabItem;
   FiberIdItem; TabItem; StringItem ($"["); LevelItem; StringItem ($"]"); TabItem; StringItem ($"[");
   NameItem; StringItem ($"]"); TabItem; FilenameItem; StringItem ($":"); LineItem; TabItem;
   MessageItem; NewLineItem] ∧ error_ (LogFormatter_new default_pattern) = false.
Proof. by vm_compute. Qed.

(** ** Patterns and their items *)

(** What a pattern is made of: text, a conversion by its letter, a date with its
    own format. *)
Inductive token : Type := TText (s : str) | TItem (c : ascii) | TDate (fmt : str).

Definition unparse1 (t : token) : str :=
  match t with
  | TText s => s
  | TItem c => ["%"%char; c]
  | TDate f => "%"%char :: "d"%char :: "{"%char :: f ++ ["}"%char]
  end.
Definition unparse (ts : list token) : str := concat (unparse1 <$> ts).

Definition token_item (t : token) : FormatItem :=
  match t with
  | TText s => StringItem s
  | TItem c => default (StringItem []) (format_items [c] [])
  | TDate f => DateTime_new f
  end.

(** A conversion reaches as far as letters and braces go. *)
Definition ends_item (c : ascii) : Prop := isalpha c = false ∧ c ≠ "{"%char ∧ c ≠ "}"%char.

(** What may follow: texts do not touch, and a text after a conversion letter
    starts with a character that ends it. *)
Fixpoint tokens_ok (ts : list token) : Prop :=
  match ts with
  | [] => True
  | TText s :: r =>
      s ≠ [] ∧ "%"%char ∉ s ∧ (match r with TText _ :: _ => False | _ => True end) ∧ tokens_ok r
  | TItem c :: r =>
      is_Some (format_items [c] []) ∧
      (match r with TText (x :: _) :: _ => ends_item x | _ => True end) ∧ tokens_ok r
  | TDate f :: r => "}"%char ∉ f ∧ tokens_ok r
  end.

Definition token_piece (t : token) : piece :=
  match t with
  | TText s => (s, [], 0)
  | TItem c => ([c], [], 1)
  | TDate f => (["d"%char], f, 1)
  end.

Lemma eqb_false (c d : ascii) : c ≠ d → Ascii.eqb c d = false.
Proof. apply Ascii.eqb_neq. Qed.

Lemma format_items_alpha c : is_Some (format_items [c] []) → isalpha c = true.
Proof. destruct c as [[] [] [] [] [] [] [] []]; cbn; intros [? [=]]; done. Qed.

Lemma isalpha_not c d : isalpha c = true → isalpha d = false → c ≠ d.
Proof. by intros Hc Hd ->; rewrite Hc in Hd. Qed.

(** Plain characters are collected. *)
Lemma parse_text s p nstr fuel :
  "%"%char ∉ s → parse (length s + fuel) nstr (s ++ p) = parse fuel (nstr ++ s) p.
Proof.
  revert nstr. induction s as [|c s IH]; intros nstr Hs; cbn [length Nat.add app].
  - by rewrite app_nil_r.
  - apply not_elem_of_cons in Hs as [Hc Hs]. cbn [parse]. rewrite eqb_false by done. cbn [negb].
    rewrite IH by done. by rewrite <-app_assoc.
Qed.

(** The inner loop on a conversion letter. *)
Lemma item_loop_letter c u :
  isalpha c = true → match u with [] => True | x :: _ => ends_item x end →
  item_loop (c :: u) false [] [] (c :: u) = (false, [c], [], u).
Proof.
  intros Hc Hu. assert (c ≠ "{"%char ∧ c ≠ "}"%char) as [H1 H2] by (split; by apply isalpha_not).
  cbn [item_loop]. rewrite Hc, !(eqb_false c) by done. cbn [negb andb app].
  destruct u as [|x u]; [done|]. cbn [item_loop].
  destruct Hu as (Hx & Hx1 & Hx2). by rewrite Hx, !(eqb_false x) by done.
Qed.

(** ... and inside the braces. *)
Lemma item_loop_braces all acc s f u :
  "}"%char ∉ f → item_loop all true acc s (f ++ "}"%char :: u) = (false, s, acc ++ f, u).
Proof.
  revert acc. induction f as [|c f IH]; intros acc Hf; cbn [app].
  - cbn. by rewrite app_nil_r.
  - apply not_elem_of_cons in Hf as [Hc Hf]. cbn [item_loop negb andb].
    rewrite (eqb_false c) by done. rewrite IH by done. rewrite <-app_assoc. by destruct f.
Qed.

Lemma item_loop_date f u all :
  "}"%char ∉ f →
  item_loop all false [] [] ("d"%char :: "{"%char :: f ++ "}"%char :: u) = (false, ["d"%char], f, u).
Proof. intros Hf. cbn. by rewrite item_loop_braces. Qed.

Lemma parse_item fuel nstr r s fmt rest :
  head r ≠ Some "%"%char → item_loop r false [] [] r = (false, s, fmt, rest) →
  parse (S fuel) nstr ("%"%char :: r) =
    (flush nstr ++ (s, fmt, 1) :: (parse fuel [] rest).1, (parse fuel [] rest).2).
Proof.
  intros Hh Hl. cbn [parse]. rewrite Ascii.eqb_refl. cbn [negb].
  rewrite bool_decide_false by done. rewrite Hl. by destruct (parse fuel [] rest).
Qed.

Lemma unparse_head ts : tokens_ok ts → match ts with TText _ :: _ => False | _ => True end →
  match unparse ts with [] => True | x :: _ => ends_item x end.
Proof.
  destruct ts as [|[s|c|f] ts]; cbn; [done|done| |]; intros _ _; (split; [done|split; by intros [=]]).
Qed.

Lemma unparse_cons t ts : unparse (t :: ts) = unparse1 t ++ unparse ts.
Proof. done. Qed.

Lemma parse_tokens ts : ∀ nstr fuel,
  tokens_ok ts → (length (unparse ts) < fuel)%nat →
  nstr = [] ∨ match ts with TText _ :: _ => False | _ => True end →
  parse fuel nstr (unparse ts) = (flush nstr ++ (token_piece <$> ts), false).
Proof.
  induction ts as [|t ts IH]; intros nstr fuel Hok Hf Hn.
  - destruct fuel; [cbn in Hf; lia|]. cbn. by rewrite app_nil_r.
  - rewrite unparse_cons in *. rewrite length_app in Hf. destruct t as [s|c|f]; cbn in Hok.
    + destruct Hok as (Hs & Hp & Ht & Hok). destruct Hn as [->|[]]. cbn [unparse1] in *.
      replace fuel with (length s + (fuel - length s))%nat by lia. rewrite parse_text by done.
      rewrite IH by (done || lia || by right). cbn [app]. unfold flush at 1 2.
      by rewrite bool_decide_false, bool_decide_true by done.
    + destruct Hok as (Hc & Ht & Hok). pose proof (format_items_alpha c Hc) as Ha.
      destruct fuel as [|fuel]; [lia|]. cbn [unparse1 app length] in *.
      rewrite (parse_item fuel nstr (c :: unparse ts) [c] [] (unparse ts)).
      * by rewrite IH by (done || lia || by left).
      * intros [= ->]. done.
      * apply item_loop_letter; [done|]. destruct ts as [|[[|x s]|c'|f'] ts]; [by apply unparse_head| | |by apply unparse_head..].
        -- by destruct Hok.
        -- by destruct Hok.
    + destruct Hok as (Hfmt & Hok). destruct fuel as [|fuel]; [cbn in Hf; lia|].
      cbn [unparse1 app length] in *. rewrite <-!app_assoc. cbn [app].
      rewrite length_app in Hf. cbn [length] in Hf.
      rewrite (parse_item fuel nstr _ ["d"%char] f (unparse ts)); [|done|by apply item_loop_date].
      by rewrite IH by (done || lia || by left).
Qed.

(** C16: a pattern is read back as what it was written from.  For every
    sequence of texts, conversions and dates that can be told apart, the
    formatter of their concatenation has exactly the corresponding items, in
    order, and no error. *)
Theorem formatter_of_tokens (ts : list token) :
  tokens_ok ts → LogFormatter_new (unparse ts) = mkFormatter (unparse ts) (token_item <$> ts) false.
Proof.
  intros Hok. unfold LogFormatter_new. rewrite parse_tokens by (done || lia || by left).
  unfold flush. rewrite bool_decide_true by done. cbn [app orb]. enough (E : make_item <$> (token_piece <$> ts) = (λ t, (token_item t, false)) <$> ts).
  { rewrite E. rewrite <-list_fmap_compose. cbn. f_equal. clear. by induction ts. }
  clear -Hok. induction ts as [|t ts IH]; [done|]. cbn [fmap list_fmap].
  assert (make_item (token_piece t) = (token_item t, false)) as ->.
  { destruct t as [s|c|f]; cbn; [done| |done]. destruct Hok as ([i Hi] & _).
    cbn in Hi. unfold token_item, make_item. cbn. by rewrite Hi. }
  f_equal. apply IH. destruct t; cbn in Hok; tauto.
Qed.

Lemma formatter_of_tokens_witness :
  let ts := [TDate ($"%H:%M"); TText ($" ["); TItem "p"; TText ($"] "); TItem "m"; TItem "n"] in
  tokens_ok ts ∧ unparse ts = ($"%d{%H:%M} [%p] %m%n") ∧
  LogFormatter_new ($"%d{%H:%M} [%p] %m%n") =
    mkFormatter ($"%d{%H:%M} [%p] %m%n")
      [DateTimeItem ($"%H:%M"); StringItem ($" ["); LevelItem; StringItem ($"] "); MessageItem; NewLineItem]
      false.
Proof.
  intros ts. assert (Hok : tokens_ok ts).
  { cbn. split_and!; try done; try (by eexists); try (vm_compute; set_solver). }
  split; [exact Hok|]. split; [reflexivity|]. exact (formatter_of_tokens ts Hok).
Defined.

(** ** The two error paths *)

Lemma parse_percent fuel nstr rest :
  parse (S fuel) nstr ("%"%char :: "%"%char :: rest) = parse fuel (nstr ++ ["%"%char]) ("%"%char :: rest).
Proof. done. Qed.

Lemma item_loop_open all acc letters f :
  Forall (λ c, isalpha c = true) letters →
  item_loop all false acc [] (letters ++ "{"%char :: f) = item_loop all true [] (acc ++ letters) f.
Proof.
  intros Ha. revert acc. induction Ha as [|c l Hc Ha IH]; intros acc; cbn [app].
  - cbn [item_loop]. by rewrite app_nil_r.
  - assert (c ≠ "{"%char ∧ c ≠ "}"%char) as [H1 H2] by (split; by apply isalpha_not).
    cbn [item_loop]. rewrite Hc, !(eqb_false c) by done. cbn [negb andb]. rewrite IH.
    rewrite <-app_assoc. by destruct l.
Qed.

Lemma item_loop_no_close all acc s f :
  "}"%char ∉ f → ∃ s', item_loop all true acc s f = (true, s', [], []).
Proof.
  revert acc. induction f as [|c f IH]; intros acc Hf; cbn [item_loop]; [by eexists|].
  apply not_elem_of_cons in Hf as [Hc Hf]. rewrite (eqb_false c "}") by done. cbn [negb andb].
  destruct f as [|x f]; [by eexists|]. by apply IH.
Qed.

Lemma item_loop_unclosed letters f all :
  Forall (λ c, isalpha c = true) letters → "}"%char ∉ f →
  ∃ s', item_loop all false [] [] (letters ++ "{"%char :: f) = (true, s', [], []).
Proof. intros Ha Hf. rewrite item_loop_open by done. by apply item_loop_no_close. Qed.

Definition is_text (s : str) : Prop := "%"%char ∉ s.

(** [%%] never stands for a percent sign, and an unclosed brace moves text.
    After [%%] the scan resumes at the second [%], which then starts a
    conversion of its own: whatever the text before, a pattern that goes on
    with a character ending a conversion, or stops there, is an error and
    prints [<<error_format %>>] after the sign.  And of a pattern with an
    unclosed brace the text before the conversion comes out after the error
    mark. *)
Theorem formatter_percent_brace (s letters f rest : str) :
  is_text s → is_text letters → is_text f → "}"%char ∉ f → s ≠ [] →
  Forall (λ c, isalpha c = true) letters →
  (match rest with [] => True | x :: _ => ends_item x ∧ x ≠ "%"%char end →
   let F := LogFormatter_new (s ++ "%"%char :: "%"%char :: rest) in
   error_ F = true ∧
   ∃ more, items_ F = StringItem (s ++ ["%"%char]) :: StringItem ($"<<error_format %>>") :: more) ∧
  (let F := LogFormatter_new (s ++ "%"%char :: letters ++ "{"%char :: f) in
   error_ F = true ∧
   items_ F = [StringItem ($"<<pattern_error>>"); StringItem (s ++ letters ++ "{"%char :: f)]).
Proof.
  intros Hs Hl Hf Hb Hne Ha.
  assert (Hfl : ∀ t, flush (s ++ t) = [(s ++ t, [], 0)]).
  { intros t. unfold flush. rewrite bool_decide_false; [done|]. by destruct s. }
  split.
  - intros Hr. unfold LogFormatter_new. rewrite length_app. cbn [length].
    replace (S (length s + S (S (length rest)))) with (length s + S (S (S (length rest))))%nat by lia.
    rewrite parse_text by done. cbn [app].
    rewrite parse_percent, (parse_item (S (length rest)) (s ++ ["%"%char]) rest [] [] rest).
    + rewrite Hfl. cbn -[parse]. split; [by rewrite orb_true_r|]. by eexists.
    + destruct rest as [|x rest]; [done|]. destruct Hr as [_ ?]. by intros [= ->].
    + destruct rest as [|x rest]; [done|]. destruct Hr as [(Hx & Hx1 & Hx2) _].
      cbn [item_loop]. by rewrite Hx, !(eqb_false x) by done.
  - assert (Hh : head (letters ++ "{"%char :: f) ≠ Some "%"%char).
    { destruct letters as [|x l]; [done|]. apply not_elem_of_cons in Hl as [? _]. by intros [= ->]. }
    unfold LogFormatter_new. rewrite length_app. cbn [length]. set (r := letters ++ "{"%char :: f) in *.
    replace (S (length s + S (length r))) with (length s + S (length r + 1))%nat by lia.
    rewrite parse_text by done. cbn [app]. destruct (item_loop_unclosed letters f r) as (str & Hloop); [done..|].
    cbn [parse]. rewrite Ascii.eqb_refl. cbn [negb]. rewrite bool_decide_false by done.
    fold r in Hloop. rewrite Hloop.
    assert (Hr : is_text r) by (unfold is_text, r; rewrite not_elem_of_app, not_elem_of_cons; done).
    pose proof (parse_text r [] s 1 Hr) as E. rewrite app_nil_r in E. rewrite E. cbn [parse].
    rewrite Hfl. done.
Qed.

Lemma formatter_percent_brace_witness :
  (let F := LogFormatter_new ($"100%% done") in
   error_ F = true ∧
   ∃ more, items_ F = StringItem ($"100%") :: StringItem ($"<<error_format %>>") :: more) ∧
  items_ (LogFormatter_new ($"at %d{H")) =
    [StringItem ($"<<pattern_error>>"); StringItem ($"at d{H")].
Proof.
  assert (∀ x y z : str, x = ($"at ") → y = ($"d") → z = ($"H") →
    is_text x ∧ is_text y ∧ is_text z ∧ "}"%char ∉ z ∧ x ≠ [] ∧ Forall (λ c, isalpha c = true) y) as Hs.
  { intros x y z -> -> ->. split_and!; [unfold is_text; vm_compute; set_solver..|by repeat constructor]. }
  destruct (Hs _ _ _ eq_refl eq_refl eq_refl) as (H1 & H2 & H3 & H4 & H5 & H6).
  assert (H0 : is_text ($"100")) by (unfold is_text; vm_compute; set_solver).
  split.
  - apply (formatter_percent_brace ($"100") ($"d") ($"H") ($" done") H0 H2 H3 H4); [done|exact H6|].
    split; [split; [done|split; by intros [=]]|by intros [=]].
  - exact (proj2 (proj2 (formatter_percent_brace ($"at ") ($"d") ($"H") [] H1 H2 H3 H4 H5 H6))).
Defined.
