(* ===== verification/Logger.v ===== *)
(** * Appenders, loggers, their manager and configuration: log.h, log.cpp

    Loggers and appenders are shared objects: both live in stores indexed by
    address, and addresses are handed out in order.  Locking plays no part: each
    method is one critical section.  What is written to the console or a file is
    the list of those actions. *)
From S2P Require Import Prelude LogFormat.

Inductive sink : Type := Console | ToFile (filename : str).

#[export] Instance sink_eq_dec : EqDecision sink.
Proof. solve_decision. Defined.

(** [FileLogAppender::reopen], and what [LogFormatter::format] streams. *)
Inductive io : Type := Reopen (filename : str) | Write (s : sink) (text : str).

(** [LogAppender] with the fields of its two classes. *)
Record LogAppender : Type := mkAppender {
  sink_ : sink;
  alevel_ : Level;
  has_formatter_ : bool;
  aformatter_ : option LogFormatter;
  last_time_ : Z }.

Record Logger : Type := mkLogger {
  name_ : str;
  llevel_ : Level;
  appenders_ : list Z;
  lformatter_ : option LogFormatter;
  root_ : option Z }.

(** The manager and every object: [loggers_] of the code is [names]. *)
Record logs : Type := mkLogs {
  apps : gmap Z LogAppender;
  loggers : gmap Z Logger;
  names : gmap str Z;
  root : Z;
  next : Z }.

(** ** Appenders *)

Definition StdoutLogAppender_new : LogAppender := mkAppender Console DEBUG false None 0.
(** The constructor also opens the file. *)
Definition FileLogAppender_new (filename : str) : LogAppender * list io :=
  (mkAppender (ToFile filename) DEBUG false None 0, [Reopen filename]).

Definition appender_setLevel (v : Level) (a : LogAppender) : LogAppender :=
  mkAppender (sink_ a) v (has_formatter_ a) (aformatter_ a) (last_time_ a).

(** [LogAppender::setFormatter]. *)
Definition appender_setFormatter (v : option LogFormatter) (a : LogAppender) : LogAppender :=
  mkAppender (sink_ a) (alevel_ a) (negb (null v)) v (last_time_ a).

(** [appender->formatter_ = v], as [Logger] does it. *)
Definition inherit_formatter (v : option LogFormatter) (a : LogAppender) : LogAppender :=
  mkAppender (sink_ a) (alevel_ a) (has_formatter_ a) v (last_time_ a).

Section Log.
Context (strftime : str → Z → option str).

(** [StdoutLogAppender::log] and [FileLogAppender::log]. *)
Definition appender_log (level : Level) (e : LogEvent) (a : LogAppender) :
    outcome (LogAppender * list io) :=
  if level_le (alevel_ a) level then
    let '(a1, opened) :=
      match sink_ a with
      | Console => (a, [])
      | ToFile f =>
          if u64 (last_time_ a + 3) <=? time_ e
          then (mkAppender (sink_ a) (alevel_ a) (has_formatter_ a) (aformatter_ a) (time_ e), [Reopen f])
          else (a, [])
      end in
    match aformatter_ a1 with
    | None => Undefined
    | Some f => s ← format strftime (items_ f) level e; Ret (a1, opened ++ [Write (sink_ a1) s])
    end
  else Ret (a, []).

(** The loop of [Logger::log] over the appenders. *)
Fixpoint log_all (level : Level) (e : LogEvent) (l : list Z) (s : logs) : outcome (logs * list io) :=
  match l with
  | [] => Ret (s, [])
  | q :: r =>
      match apps s !! q with
      | None => Undefined
      | Some a =>
          '(a', w) ← appender_log level e a;
          '(s', ws) ← log_all level e r
            (mkLogs (<[q := a']> (apps s)) (loggers s) (names s) (root s) (next s));
          Ret (s', w ++ ws)
      end
  end.

(** [Logger::log]; [fuel] bounds the chain of [root_] pointers, which has at
    most two links. *)
Fixpoint log (fuel : nat) (p : Z) (level : Level) (e : LogEvent) (s : logs) : outcome (logs * list io) :=
  match fuel, loggers s !! p with
  | S fuel, Some l =>
      if level_le (llevel_ l) level then
        match appenders_ l, root_ l with
        | [], Some r => log fuel r level e s
        | [], None => Ret (s, [])
        | as_, _ => log_all level e as_ s
        end
      else Ret (s, [])
  | _, _ => Undefined
  end.

(** [Logger::debug] to [Logger::fatal]. *)
Definition debug (fuel : nat) (p : Z) : LogEvent → logs → outcome (logs * list io) := log fuel p DEBUG.
Definition info (fuel : nat) (p : Z) : LogEvent → logs → outcome (logs * list io) := log fuel p INFO.
Definition warn (fuel : nat) (p : Z) : LogEvent → logs → outcome (logs * list io) := log fuel p WARN.
Definition error (fuel : nat) (p : Z) : LogEvent → logs → outcome (logs * list io) := log fuel p ERROR.
Definition fatal (fuel : nat) (p : Z) : LogEvent → logs → outcome (logs * list io) := log fuel p FATAL.

(** [LogEventWrap::~LogEventWrap]: the event goes to the logger it was made for,
    at [p], at its own level. *)
Definition LogEventWrap_delete (fuel : nat) (p : Z) (e : LogEvent) : logs → outcome (logs * list io) :=
  log fuel p (level_ e) e.
End Log.

(** ** Loggers *)

Definition update (p : Z) (f : Logger → Logger) (s : logs) : logs :=
  mkLogs (apps s) (alter f p (loggers s)) (names s) (root s) (next s).

Definition Logger_new (name : str) (root : option Z) : Logger :=
  mkLogger name DEBUG [] (Some (LogFormatter_new default_pattern)) root.

Definition logger_setLevel (v : Level) (l : Logger) : Logger :=
  mkLogger (name_ l) v (appenders_ l) (lformatter_ l) (root_ l).
Definition logger_setAppenders (v : list Z) (l : Logger) : Logger :=
  mkLogger (name_ l) (llevel_ l) v (lformatter_ l) (root_ l).

Definition setLevel (p : Z) (v : Level) : logs → logs := update p (logger_setLevel v).
Definition clearAppenders (p : Z) : logs → logs := update p (logger_setAppenders []).

(** [Logger::setFormatter(LogFormatter::ptr)]: the appenders that have no
    formatter of their own follow. *)
Definition setFormatter (p : Z) (v : option LogFormatter) (s : logs) : logs :=
  match loggers s !! p with
  | None => s
  | Some l =>
      mkLogs
        (foldl (λ m q, alter (λ a, if has_formatter_ a then a else inherit_formatter v a) q m)
               (apps s) (appenders_ l))
        (<[p := mkLogger (name_ l) (llevel_ l) (appenders_ l) v (root_ l)]> (loggers s))
        (names s) (root s) (next s)
  end.

(** [Logger::setFormatter(const std::string&)]. *)
Definition setFormatter_pattern (p : Z) (v : str) (s : logs) : logs :=
  let f := LogFormatter_new v in
  if error_ f then s else setFormatter p (Some f) s.

(** [Logger::addAppender] on the logger at [p] and the appender at [q]. *)
Definition addAppender (p q : Z) (s : logs) : logs :=
  match loggers s !! p with
  | None => s
  | Some l =>
      mkLogs (alter (λ a, if null (aformatter_ a) then inherit_formatter (lformatter_ l) a else a) q (apps s))
             (<[p := logger_setAppenders (appenders_ l ++ [q]) l]> (loggers s))
             (names s) (root s) (next s)
  end.

(** [Logger::delAppender]: the first occurrence. *)
Fixpoint remove_first (q : Z) (l : list Z) : list Z :=
  match l with
  | [] => []
  | x :: r => if x =? q then r else x :: remove_first q r
  end.
Definition delAppender (p q : Z) : logs → logs :=
  update p (λ l, logger_setAppenders (remove_first q (appenders_ l)) l).

(** ** The manager *)

(** [new] of an appender. *)
Definition alloc (a : LogAppender) (s : logs) : logs * Z :=
  (mkLogs (<[next s := a]> (apps s)) (loggers s) (names s) (root s) (next s + 1), next s).

Definition LoggerManager_new : logs :=
  let s := mkLogs ∅ {[ 1 := Logger_new ($"root") None ]} {[ ($"root") := 1 ]} 1 2 in
  let '(s1, q) := alloc StdoutLogAppender_new s in addAppender 1 q s1.

Definition getLogger (name : str) (s : logs) : logs * Z :=
  match names s !! name with
  | Some p => (s, p)
  | None =>
      let p := next s in
      (mkLogs (apps s) (<[p := Logger_new name (Some (root s))]> (loggers s)) (<[name := p]> (names s))
              (root s) (next s + 1), p)
  end.

(** ** The configuration *)

Record LogAppenderDefine : Type := mkLAD {
  atype : Z;
  alevel : Level;
  aformatter : str;
  afile : str }.

Record LogDefine : Type := mkLD {
  dname : str;
  dlevel : Level;
  dformatter : str;
  dappenders : list LogAppenderDefine }.

(** [operator==] of both. *)
#[export] Instance LogAppenderDefine_eq_dec : EqDecision LogAppenderDefine.
Proof. solve_decision. Defined.
#[export] Instance LogDefine_eq_dec : EqDecision LogDefine.
Proof. solve_decision. Defined.

Definition isValid (d : LogDefine) : bool := negb (bool_decide (dname d = [])).

(** [std::set<LogDefine>::find]: the order, and so the equivalence, looks at the
    name only.  The set is the list of its elements, of distinct names. *)
Definition find_define (n : str) (l : list LogDefine) : option LogDefine :=
  snd <$> list_find (λ d, dname d = n) l.

Section Listener.
(** [EnvMgr::GetInstance()->has("d")]: is this a daemon? *)
Context (strftime : str → Z → option str) (has_d : bool).

(** The formatter a definition names: none when empty or invalid. *)
Definition own_formatter (v : str) : option LogFormatter :=
  let f := LogFormatter_new v in
  if bool_decide (v = []) || error_ f then None else Some f.

(** The inner loop of the listener: the appenders of a definition. *)
Fixpoint add_appenders (p : Z) (ds : list LogAppenderDefine) (s : logs) : outcome (logs * list io) :=
  match ds with
  | [] => Ret (s, [])
  | d :: r =>
      let add ap :=
        let ap1 := appender_setLevel (alevel d) ap in
        let ap2 := match own_formatter (aformatter d) with
                   | Some f => appender_setFormatter (Some f) ap1
                   | None => ap1
                   end in
        let '(s1, q) := alloc ap2 s in addAppender p q s1 in
      if atype d =? 1 then
        let '(ap, w) := FileLogAppender_new (afile d) in
        '(s', ws) ← add_appenders p r (add ap); Ret (s', w ++ ws)
      else if atype d =? 2 then
        if has_d then add_appenders p r s
        else add_appenders p r (add StdoutLogAppender_new)
      else Undefined
  end.

(** The body of the first loop for a definition that is new or changed. *)
Definition apply_define (d : LogDefine) (s : logs) : outcome (logs * list io) :=
  let '(s1, p) := getLogger (dname d) s in
  let s2 := setLevel p (dlevel d) s1 in
  let s3 := if bool_decide (dformatter d = []) then s2 else setFormatter_pattern p (dformatter d) s2 in
  add_appenders p (dappenders d) (clearAppenders p s3).

Fixpoint apply_new (old_value new_value : list LogDefine) (s : logs) : outcome (logs * list io) :=
  match new_value with
  | [] => Ret (s, [])
  | d :: r =>
      if bool_decide (find_define (dname d) old_value = Some d)
      then apply_new old_value r s
      else
        '(s1, w) ← apply_define d s;
        '(s2, ws) ← apply_new old_value r s1;
        Ret (s2, w ++ ws)
  end.

(** The second loop: loggers that left the configuration. *)
Fixpoint drop_old (old_value new_value : list LogDefine) (s : logs) : logs :=
  match old_value with
  | [] => s
  | d :: r =>
      let s' := if null (find_define (dname d) new_value)
                then let '(s1, p) := getLogger (dname d) s in clearAppenders p (setLevel p UNKNOW s1)
                else s in
      drop_old r new_value s'
  end.

(** The listener of [LogIniter]; [e]: the event of its own log message, which
    goes to the root logger when its level admits it. *)
Definition on_logger_conf_changed (old_value new_value : list LogDefine) (e : LogEvent) (s : logs) :
    outcome (logs * list io) :=
  let enabled := match loggers s !! root s with Some l => log_enabled (llevel_ l) INFO | None => false end in
  '(s0, w0) ← (if enabled then log strftime 2 (root s) INFO e s else Ret (s, []));
  '(s1, w1) ← apply_new old_value new_value s0;
  Ret (drop_old old_value new_value s1, w0 ++ w1).
End Listener.

(** ** The invariant *)

(** Names lead to their own loggers, an appender belongs to one logger, which
    lists it once, everything has a formatter, and the chain of [root_] pointers
    ends at the root. *)
Record wf (s : logs) : Prop := mk_wf {
  wf_names : ∀ n p, names s !! n = Some p → ∃ l, loggers s !! p = Some l ∧ name_ l = n;
  wf_loggers : ∀ p l, loggers s !! p = Some l →
    p < next s ∧ is_Some (lformatter_ l) ∧ NoDup (appenders_ l) ∧
    (root_ l = None ∨ root_ l = Some (root s));
  wf_apps : ∀ p l q, loggers s !! p = Some l → q ∈ appenders_ l →
    ∃ a, apps s !! q = Some a ∧ is_Some (aformatter_ a);
  wf_next : ∀ q a, apps s !! q = Some a → q < next s;
  wf_disjoint : ∀ p p' l l' q, loggers s !! p = Some l → loggers s !! p' = Some l' →
    q ∈ appenders_ l → q ∈ appenders_ l' → p = p';
  wf_root : ∃ l, loggers s !! root s = Some l ∧ root_ l = None }.

(** What only the logger at [p] and its appenders may have changed. *)
Record touches (p : Z) (s s' : logs) : Prop := mk_touches {
  to_names : names s' = names s;
  to_root : root s' = root s;
  to_loggers : ∀ p', p' ≠ p → loggers s' !! p' = loggers s !! p';
  to_apps : ∀ p' l q, p' ≠ p → loggers s !! p' = Some l → q ∈ appenders_ l → apps s' !! q = apps s !! q }.

Lemma touches_refl p s : touches p s s.
Proof. by split. Qed.

Lemma touches_trans p s s1 s2 : touches p s s1 → touches p s1 s2 → touches p s s2.
Proof.
  intros [H1 H2 H3 H4] [G1 G2 G3 G4]. split; [congruence..| |].
  - intros p' Hp. by rewrite G3, H3.
  - intros p' l q Hp Hl Hq. rewrite (G4 p' l), (H4 p' l); [done..| |done]. by rewrite H3.
Qed.

(** One logger changes: the invariant is a matter of that logger. *)
Lemma wf_change s p l apps' l' next' :
  wf s → loggers s !! p = Some l → next s ≤ next' →
  name_ l' = name_ l → root_ l' = root_ l → is_Some (lformatter_ l') → NoDup (appenders_ l') →
  (∀ q, q ∈ appenders_ l' → q ∈ appenders_ l ∨
     next s ≤ q ∧ ∃ a, apps' !! q = Some a ∧ is_Some (aformatter_ a)) →
  (∀ q a, apps' !! q = Some a → q < next') →
  (∀ q a, apps s !! q = Some a → is_Some (aformatter_ a) →
     ∃ a', apps' !! q = Some a' ∧ is_Some (aformatter_ a')) →
  wf (mkLogs apps' (<[p := l']> (loggers s)) (names s) (root s) next').
Proof.
  intros [H1 H2 H3 H4 H5 H6] Hl Hn En Er Hf Hnd Hin Hlt Hkeep.
  assert (Hlk : ∀ p' k, <[p := l']> (loggers s) !! p' = Some k →
    p' = p ∧ k = l' ∨ p' ≠ p ∧ loggers s !! p' = Some k).
  { intros p' k. destruct (decide (p' = p)) as [->|]; [rewrite lookup_insert_eq|rewrite lookup_insert_ne by done];
      naive_solver. }
  assert (Hfresh : ∀ p' k q, loggers s !! p' = Some k → q ∈ appenders_ k → next s ≤ q → False).
  { intros p' k q Hk Hq Hle. destruct (H3 p' k q Hk Hq) as (a & Ha & _). pose proof (H4 q a Ha). lia. }
  split; cbn [apps loggers names root next].
  - intros n p' Hp'. destruct (H1 n p' Hp') as (k & Hk & Hnk). destruct (decide (p' = p)) as [->|].
    + exists l'. rewrite lookup_insert_eq. split; [done|]. congruence.
    + exists k. by rewrite lookup_insert_ne.
  - intros p' k [[-> ->]|[_ Hk]]%Hlk; [|destruct (H2 p' k Hk) as (? & ? & ? & ?); split_and!; [lia|done..]].
    destruct (H2 p l Hl) as (? & _ & _ & ?). split_and!; [lia|done|done|by rewrite Er].
  - intros p' k q [[-> ->]|[_ Hk]]%Hlk Hq.
    + destruct (Hin q Hq) as [Hq'|[_ ?]]; [|done]. destruct (H3 p l q Hl Hq') as (a & Ha & Hfa). eauto.
    + destruct (H3 p' k q Hk Hq) as (a & Ha & Hfa). eauto.
  - done.
  - intros p1 p2 k1 k2 q [[-> ->]|[Hne1 Hk1]]%Hlk [[-> ->]|[Hne2 Hk2]]%Hlk Hq1 Hq2.
    + done.
    + destruct (Hin q Hq1) as [Hq'|[Hle _]]; [by apply (H5 p p2 l k2 q)|by destruct (Hfresh p2 k2 q)].
    + destruct (Hin q Hq2) as [Hq'|[Hle _]]; [by apply (H5 p1 p k1 l q)|by destruct (Hfresh p1 k1 q)].
    + by apply (H5 p1 p2 k1 k2 q).
  - destruct H6 as (k & Hk & Hrk). destruct (decide (root s = p)) as [E|].
    + exists l'. rewrite E in *. rewrite lookup_insert_eq. split; [done|]. congruence.
    + exists k. by rewrite lookup_insert_ne.
Qed.

Lemma update_eq p f s l : loggers s !! p = Some l →
  update p f s = mkLogs (apps s) (<[p := f l]> (loggers s)) (names s) (root s) (next s).
Proof.
  intros Hl. unfold update. f_equal. apply map_eq. intros p'. destruct (decide (p = p')) as [<-|].
  - by rewrite lookup_alter_eq, lookup_insert_eq, Hl.
  - by rewrite lookup_alter_ne, lookup_insert_ne.
Qed.

(** Each operation on the logger at [p]: it keeps the invariant, touches only
    that logger, and leaves it as said. *)
Definition becomes (p : Z) (s s' : logs) (l' : Logger) : Prop :=
  wf s' ∧ touches p s s' ∧ loggers s' !! p = Some l' ∧ next s ≤ next s'.

Lemma becomes_trans p s s1 s2 l1 l2 : becomes p s s1 l1 → becomes p s1 s2 l2 → becomes p s s2 l2.
Proof.
  intros (_ & T1 & _ & ?) (? & T2 & ? & ?). split_and!; [done| |done|lia].
  by eapply touches_trans.
Qed.

Lemma touches_insert p s apps' l' next' :
  (∀ p' l q, p' ≠ p → loggers s !! p' = Some l → q ∈ appenders_ l → apps' !! q = apps s !! q) →
  touches p s (mkLogs apps' (<[p := l']> (loggers s)) (names s) (root s) next').
Proof. intros H. split; cbn; [done..| |done]. intros. by rewrite lookup_insert_ne. Qed.

Lemma setLevel_becomes p v s l :
  wf s → loggers s !! p = Some l → becomes p s (setLevel p v s) (logger_setLevel v l).
Proof.
  intros Hwf Hl. unfold setLevel. rewrite (update_eq _ _ _ l) by done.
  destruct (wf_loggers s Hwf p l Hl) as (? & ? & ? & ?). split_and!; [|by apply touches_insert| |cbn; lia].
  - apply (wf_change s p l); try done; try lia; try (by eauto). intros; by eapply wf_next.
  - cbn. by rewrite lookup_insert_eq.
Qed.

Lemma clearAppenders_becomes p s l :
  wf s → loggers s !! p = Some l → becomes p s (clearAppenders p s) (logger_setAppenders [] l).
Proof.
  intros Hwf Hl. unfold clearAppenders. rewrite (update_eq _ _ _ l) by done.
  destruct (wf_loggers s Hwf p l Hl) as (? & ? & ? & ?). split_and!; [|by apply touches_insert| |cbn; lia].
  - apply (wf_change s p l); try done; try lia; try (by eauto).
    + constructor.
    + by intros q ?%elem_of_nil.
    + intros; by eapply wf_next.
  - cbn. by rewrite lookup_insert_eq.
Qed.

(** The formatter an appender without one of its own takes over. *)
Definition follow (v : option LogFormatter) (a : LogAppender) : LogAppender :=
  if has_formatter_ a then a else inherit_formatter v a.

Lemma follow_lookup v l (m : gmap Z LogAppender) q :
  NoDup l → foldl (λ m q, alter (follow v) q m) m l !! q =
            (if decide (q ∈ l) then follow v <$> m !! q else m !! q).
Proof.
  revert m. induction l as [|x l IH]; intros m Hnd; cbn [foldl].
  - by rewrite decide_False by (by intros ?%elem_of_nil).
  - apply NoDup_cons in Hnd as [Hx Hnd]. rewrite IH by done.
    destruct (decide (x = q)) as [->|Hne].
    + rewrite decide_False by done. rewrite decide_True by (by left). by rewrite lookup_alter_eq.
    + rewrite lookup_alter_ne by done. apply decide_ext. rewrite elem_of_cons. naive_solver.
Qed.

Lemma setFormatter_becomes p f s l :
  wf s → loggers s !! p = Some l →
  becomes p s (setFormatter p (Some f) s) (mkLogger (name_ l) (llevel_ l) (appenders_ l) (Some f) (root_ l)).
Proof.
  intros Hwf Hl. unfold setFormatter. rewrite Hl.
  destruct (wf_loggers s Hwf p l Hl) as (? & ? & Hnd & ?).
  fold (follow (Some f)). split_and!; [| | |cbn; lia].
  - apply (wf_change s p l); try done; try lia.
    + intros q Hq. by left.
    + intros q a. rewrite follow_lookup by done. case_decide; [|apply (wf_next s Hwf)].
      intros (a0 & Ha0 & _)%fmap_Some. by apply (wf_next s Hwf q a0).
    + intros q a Ha Hfa. rewrite follow_lookup, Ha by done. case_decide; [|by eauto].
      cbn. exists (follow (Some f) a). split; [done|]. unfold follow. by destruct (has_formatter_ a).
  - apply touches_insert. intros p' k q Hne Hk Hq. rewrite follow_lookup by done.
    rewrite decide_False; [done|]. intros Hq'. by destruct Hne; apply (wf_disjoint s Hwf p' p k l q).
  - cbn. by rewrite lookup_insert_eq.
Qed.

Lemma add_becomes p ap s l :
  wf s → loggers s !! p = Some l →
  let q := next s in
  let s' := addAppender p q (alloc ap s).1 in
  becomes p s s' (logger_setAppenders (appenders_ l ++ [q]) l) ∧
  apps s' = <[q := if null (aformatter_ ap) then inherit_formatter (lformatter_ l) ap else ap]> (apps s).
Proof.
  intros Hwf Hl q s'. destruct (wf_loggers s Hwf p l Hl) as (Hp & Hf & Hnd & ?).
  set (ap' := if null (aformatter_ ap) then inherit_formatter (lformatter_ l) ap else ap).
  assert (Hfresh : apps s !! q = None).
  { destruct (apps s !! q) as [a|] eqn:E; [|done]. apply (wf_next s Hwf) in E. subst q. lia. }
  assert (Hs' : s' = mkLogs (<[q := ap']> (apps s))
                       (<[p := logger_setAppenders (appenders_ l ++ [q]) l]> (loggers s)) (names s) (root s) (next s + 1)).
  { unfold s', addAppender. cbn [alloc fst loggers]. rewrite Hl. cbn [apps names root next]. f_equal.
    apply map_eq. intros q'. fold q. destruct (decide (q = q')) as [<-|].
    - by rewrite lookup_alter_eq, !lookup_insert_eq.
    - by rewrite lookup_alter_ne, !lookup_insert_ne. }
  assert (Hnew : ∀ q', q' ∈ appenders_ l → q' ≠ q).
  { intros q' Hq' ->. destruct (wf_apps s Hwf p l q Hl Hq') as (a & Ha & _). congruence. }
  rewrite Hs'. split; [|done]. split_and!; [| |cbn; by rewrite lookup_insert_eq|cbn; lia].
  - apply (wf_change s p l); try done; try lia.
    + cbn. apply NoDup_app. split; [done|]. split; [|apply NoDup_singleton].
      intros q' Hq' ->%list_elem_of_singleton. by apply (Hnew q).
    + intros q' [?| ->%list_elem_of_singleton]%elem_of_app; [by left|]. right. split; [lia|].
      exists ap'. rewrite lookup_insert_eq. split; [done|]. unfold ap'. destruct (aformatter_ ap) eqn:E; cbn; [by rewrite E|done].
    + intros q' a [[<- _]|[_ Ha]]%lookup_insert_Some; [lia|]. apply (wf_next s Hwf) in Ha. lia.
    + intros q' a Ha Hfa. exists a. split; [|done]. rewrite lookup_insert_ne; [done|]. congruence.
  - apply touches_insert. intros p' k q' Hne Hk Hq'. rewrite lookup_insert_ne; [done|]. intros <-.
    destruct (wf_apps s Hwf p' k q Hk Hq') as (a & Ha & _). congruence.
Qed.

(** ** What a configuration asks for *)

(** An appender and a logger as their users see them. *)
Definition look (a : LogAppender) : sink * Level * bool * option LogFormatter :=
  (sink_ a, alevel_ a, has_formatter_ a, aformatter_ a).
Definition looks (s : logs) (l : list Z) : list (option (sink * Level * bool * option LogFormatter)) :=
  (λ q, look <$> apps s !! q) <$> l.
Definition view_of (s : logs) (l : Logger) : Level * option LogFormatter * list (option (sink * Level * bool * option LogFormatter)) :=
  (llevel_ l, lformatter_ l, looks s (appenders_ l)).
Definition view (s : logs) (n : str) := names s !! n ≫= λ p, view_of s <$> loggers s !! p.

Lemma looks_app s l l' : looks s (l ++ l') = looks s l ++ looks s l'.
Proof. apply fmap_app. Qed.

Lemma looks_ext s s' l : (∀ q, q ∈ l → apps s' !! q = apps s !! q) → looks s' l = looks s l.
Proof. intros H. unfold looks. apply list_fmap_ext. intros i q Hq%list_elem_of_lookup_2. by rewrite H. Qed.

Lemma touches_view p s s' n : wf s → touches p s s' → names s !! n ≠ Some p → view s' n = view s n.
Proof.
  intros Hwf [H1 H2 H3 H4] Hn. unfold view. rewrite H1. destruct (names s !! n) as [p'|] eqn:En; [|done].
  cbn. rewrite H3 by congruence. destruct (wf_names s Hwf n p' En) as (k & Hk & _). rewrite Hk. cbn. f_equal.
  unfold view_of. f_equal. apply looks_ext. intros q Hq. apply (H4 p' k); congruence.
Qed.

Section ConfSpec.
Context (has_d : bool).

(** The appender a definition asks for, in a logger whose formatter is [f]. *)
Definition expected1 (f : option LogFormatter) (d : LogAppenderDefine) :
    option (sink * Level * bool * option LogFormatter) :=
  let own := own_formatter (aformatter d) in
  let v k := (k, alevel d, negb (null own), match own with Some g => Some g | None => f end) in
  if atype d =? 1 then Some (v (ToFile (afile d)))
  else if (atype d =? 2) && negb has_d then Some (v Console)
  else None.
Definition expected (f : option LogFormatter) (ds : list LogAppenderDefine) :=
  Some <$> omap (expected1 f) ds.

Definition types_ok (d : LogDefine) : Prop := Forall (λ a, atype a = 1 ∨ atype a = 2) (dappenders d).

Lemma add_step p ap s l :
  wf s → loggers s !! p = Some l →
  let s' := addAppender p (next s) (alloc ap s).1 in
  ∃ l', becomes p s s' l' ∧ llevel_ l' = llevel_ l ∧ lformatter_ l' = lformatter_ l ∧
    looks s' (appenders_ l') = looks s (appenders_ l) ++
      [Some (look (if null (aformatter_ ap) then inherit_formatter (lformatter_ l) ap else ap))].
Proof.
  intros Hwf Hl s'. destruct (add_becomes p ap s l Hwf Hl) as [Hb Ha]. fold s' in Hb, Ha.
  eexists. split; [exact Hb|]. split; [done|]. split; [done|]. cbn [appenders_ logger_setAppenders].
  rewrite looks_app. f_equal; [|unfold looks; cbn; by rewrite Ha, lookup_insert_eq].
  apply looks_ext. intros q Hq. rewrite Ha, lookup_insert_ne; [done|]. intros <-.
  destruct (wf_apps s Hwf p l _ Hl Hq) as (a & Haq & _). apply (wf_next s Hwf) in Haq. lia.
Qed.

Lemma add_appenders_spec p ds : ∀ s l,
  wf s → loggers s !! p = Some l → Forall (λ a, atype a = 1 ∨ atype a = 2) ds →
  ∃ s' w l', add_appenders has_d p ds s = Ret (s', w) ∧ becomes p s s' l' ∧
    llevel_ l' = llevel_ l ∧ lformatter_ l' = lformatter_ l ∧
    looks s' (appenders_ l') = looks s (appenders_ l) ++ expected (lformatter_ l) ds.
Proof.
  induction ds as [|d ds IH]; intros s l Hwf Hl Hty.
  - exists s, [], l. split; [done|]. split; [split_and!; [done|apply touches_refl|done|lia]|].
    split_and!; try done. by rewrite app_nil_r.
  - apply Forall_cons in Hty as [Ht Hty]. destruct (wf_loggers s Hwf p l Hl) as (_ & [lf Hlf] & _).
    set (mk ap := let ap1 := appender_setLevel (alevel d) ap in
                  match own_formatter (aformatter d) with
                  | Some f => appender_setFormatter (Some f) ap1
                  | None => ap1
                  end).
    assert (Hgo : ∀ ap, aformatter_ ap = None → has_formatter_ ap = false →
      expected1 (lformatter_ l) d =
        Some (look (if null (aformatter_ (mk ap)) then inherit_formatter (lformatter_ l) (mk ap) else mk ap)) →
      ∃ s' w l', add_appenders has_d p ds (addAppender p (next s) (alloc (mk ap) s).1) = Ret (s', w) ∧
        becomes p s s' l' ∧ llevel_ l' = llevel_ l ∧ lformatter_ l' = lformatter_ l ∧
        looks s' (appenders_ l') = looks s (appenders_ l) ++ expected (lformatter_ l) (d :: ds)).
    { intros ap _ _ He. destruct (add_step p (mk ap) s l Hwf Hl) as (l1 & Hb & Hlv & Hf & Hlk).
      destruct Hb as (Hwf1 & Ht1 & Hl1 & Hn1).
      destruct (IH _ l1 Hwf1 Hl1 Hty) as (s' & w & l' & Hr & Hb' & Hlv' & Hf' & Hlk').
      exists s', w, l'. split; [done|]. split; [by eapply becomes_trans; [split_and!|]|].
      split_and!; [congruence..|]. rewrite Hlk', Hlk, <-app_assoc, Hf. f_equal.
      unfold expected. cbn. by rewrite He. }
    assert (Hmk : ∀ ap, aformatter_ ap = None → has_formatter_ ap = false →
      look (if null (aformatter_ (mk ap)) then inherit_formatter (lformatter_ l) (mk ap) else mk ap) =
      (sink_ ap, alevel d, negb (null (own_formatter (aformatter d))),
       match own_formatter (aformatter d) with Some g => Some g | None => lformatter_ l end)).
    { intros [k lv h f t]. cbn [aformatter_ has_formatter_ sink_]. intros -> ->. unfold mk.
      by destruct (own_formatter (aformatter d)). }
    cbn [add_appenders]. unfold expected1 in Hgo. destruct (Z.eqb_spec (atype d) 1) as [E1|E1].
    + destruct (Hgo (FileLogAppender_new (afile d)).1) as (s' & w & l' & Hr & Hrest); [done..| |].
      { by rewrite Hmk. }
      exists s', (Reopen (afile d) :: w), l'. split; [|done]. cbn [FileLogAppender_new fst] in *.
      cbn [alloc fst] in Hr |- *. fold (mk (mkAppender (ToFile (afile d)) DEBUG false None 0)). by rewrite Hr.
    + destruct Ht as [Ht|Ht]; [done|]. rewrite Ht in Hgo |- *. cbn [Z.eqb Pos.eqb andb] in Hgo |- *.
      destruct has_d eqn:Ed.
      * destruct (IH s l Hwf Hl Hty) as (s' & w & l' & Hr & Hb & Hlv & Hf & Hlk).
        exists s', w, l'. split; [done|]. split_and!; try done. rewrite Hlk. f_equal.
        unfold expected. cbn [omap list_omap].
        assert (expected1 (lformatter_ l) d = None) as ->; [unfold expected1; by rewrite Ht, Ed|done].
      * destruct (Hgo StdoutLogAppender_new) as (s' & w & l' & Hr & Hrest); [done..| |].
        { by rewrite Hmk. }
        exists s', w, l'. split; [|done]. by apply Hr.
Qed.

(** The formatter a logger of this name has, or would be made with. *)
Definition kept (s : logs) (n : str) : option LogFormatter :=
  match view s n with Some (_, f, _) => f | None => Some (LogFormatter_new default_pattern) end.

Lemma getLogger_new_wf n s : wf s → names s !! n = None → wf (getLogger n s).1.
Proof.
  intros [H1 H2 H3 H4 H5 H6] Hn. unfold getLogger. rewrite Hn. cbn [fst].
  assert (Hfr : loggers s !! next s = None).
  { destruct (loggers s !! next s) as [l|] eqn:E; [|done]. destruct (H2 _ _ E). lia. }
  assert (Hlk : ∀ p k, <[next s := Logger_new n (Some (root s))]> (loggers s) !! p = Some k →
    k = Logger_new n (Some (root s)) ∧ p = next s ∨ loggers s !! p = Some k).
  { intros p k [[<- <-]|[_ ?]]%lookup_insert_Some; auto. }
  split; cbn [apps loggers names root next].
  - intros m p. destruct (decide (m = n)) as [->|].
    + rewrite lookup_insert_eq. intros [= <-]. exists (Logger_new n (Some (root s))). by rewrite lookup_insert_eq.
    + rewrite lookup_insert_ne by done. intros Hp. destruct (H1 m p Hp) as (l & Hl & Hnl). exists l.
      rewrite lookup_insert_ne by congruence. done.
  - intros p k [[-> ->]|Hk]%Hlk.
    + split_and!; [lia|done|constructor|by right].
    + destruct (H2 p k Hk) as (? & ? & ? & ?). split_and!; [lia|done..].
  - intros p k q [[-> ->]|Hk]%Hlk Hq; [by apply elem_of_nil in Hq|by eapply H3].
  - intros q a Ha. specialize (H4 q a Ha). lia.
  - intros p p' k k' q [[-> ->]|Hk]%Hlk [[-> ->]|Hk']%Hlk Hq Hq';
      [by apply elem_of_nil in Hq|by apply elem_of_nil in Hq|by apply elem_of_nil in Hq'|].
    by apply (H5 p p' k k' q).
  - destruct H6 as (l & Hl & Hr). exists l. rewrite lookup_insert_ne by congruence. done.
Qed.

(** Looking a logger up by name, made if need be. *)
Lemma getLogger_spec n s : wf s →
  let '(s', p) := getLogger n s in
  wf s' ∧ names s' !! n = Some p ∧ root s' = root s ∧
  (∃ l, loggers s' !! p = Some l ∧ lformatter_ l = kept s n) ∧
  (∀ m, m ≠ n → view s' m = view s m ∧ names s' !! m ≠ Some p).
Proof.
  intros Hwf. pose proof (getLogger_new_wf n s Hwf) as Hnew. unfold getLogger in *.
  destruct (names s !! n) as [p|] eqn:En.
  - destruct (wf_names s Hwf n p En) as (l & Hl & Hnl). split_and!; try done.
    + exists l. split; [done|]. unfold kept, view. rewrite En. cbn. by rewrite Hl.
    + intros m Hm. split; [done|]. intros Hmp. destruct (wf_names s Hwf m p Hmp) as (l' & Hl' & Hnl'). congruence.
  - specialize (Hnew eq_refl). cbn [fst] in Hnew. cbn [names root loggers].
    assert (Hne : ∀ m p l, names s !! m = Some p → loggers s !! p = Some l → p ≠ next s).
    { intros m p l _ Hl ->. destruct (wf_loggers s Hwf _ _ Hl). lia. }
    split_and!; [done|by rewrite lookup_insert_eq|done| |].
    + eexists. rewrite lookup_insert_eq. split; [done|]. unfold kept, view. by rewrite En.
    + intros m Hm. rewrite lookup_insert_ne by done. unfold view. cbn [names loggers].
      rewrite lookup_insert_ne by done. destruct (names s !! m) as [p|] eqn:Em; [|done]. cbn.
      destruct (wf_names s Hwf m p Em) as (l & Hl & _). specialize (Hne m p l Em Hl).
      rewrite lookup_insert_ne by done. split; [done|congruence].
Qed.

Lemma view_at s n p l : names s !! n = Some p → loggers s !! p = Some l → view s n = Some (view_of s l).
Proof. intros Hn Hl. unfold view. rewrite Hn. cbn. by rewrite Hl. Qed.

(** The formatter step of [apply_define]. *)
Lemma define_formatter_becomes p v s l :
  wf s → loggers s !! p = Some l →
  ∃ l', becomes p s (if bool_decide (v = []) then s else setFormatter_pattern p v s) l' ∧
        llevel_ l' = llevel_ l ∧
        lformatter_ l' = match own_formatter v with Some g => Some g | None => lformatter_ l end.
Proof.
  intros Hwf Hl. assert (Hid : becomes p s s l) by (split_and!; [done|apply touches_refl|done|lia]).
  unfold own_formatter, setFormatter_pattern. destruct (bool_decide (v = [])); cbn [orb]; [by exists l|].
  destruct (error_ (LogFormatter_new v)); [by exists l|].
  eexists. split; [by apply setFormatter_becomes|]. done.
Qed.

(** Applying a definition sets its logger, and no other, to what it asks for. *)
Lemma apply_define_spec d s :
  wf s → types_ok d →
  ∃ s' w, apply_define has_d d s = Ret (s', w) ∧ wf s' ∧ root s' = root s ∧
    let f := match own_formatter (dformatter d) with Some g => Some g | None => kept s (dname d) end in
    view s' (dname d) = Some (dlevel d, f, expected f (dappenders d)) ∧
    ∀ n, n ≠ dname d → view s' n = view s n.
Proof.
  intros Hwf Hty. unfold apply_define. pose proof (getLogger_spec (dname d) s Hwf) as Hg.
  destruct (getLogger (dname d) s) as [s1 p]. destruct Hg as (Hwf1 & Hn1 & Hr1 & (l1 & Hl1 & Hf1) & Ho1).
  pose proof (setLevel_becomes p (dlevel d) s1 l1 Hwf1 Hl1) as B2. pose proof B2 as (Hwf2 & _ & Hl2 & _).
  destruct (define_formatter_becomes p (dformatter d) _ _ Hwf2 Hl2) as (l3 & B3 & Hlv3 & Hf3).
  pose proof B3 as (Hwf3 & _ & Hl3 & _).
  pose proof (clearAppenders_becomes p _ _ Hwf3 Hl3) as B4. pose proof B4 as (Hwf4 & _ & Hl4 & _).
  destruct (add_appenders_spec p (dappenders d) _ _ Hwf4 Hl4 Hty) as (s5 & w & l5 & Hrun & B5 & Hlv5 & Hf5 & Hlk).
  pose proof (becomes_trans _ _ _ _ _ _ (becomes_trans _ _ _ _ _ _ (becomes_trans _ _ _ _ _ _ B2 B3) B4) B5) as B.
  destruct B as (Hwf5 & Ht & Hl5 & _). exists s5, w. split; [done|]. split; [done|].
  split; [by rewrite (to_root _ _ _ Ht)|]. split.
  - rewrite (view_at s5 (dname d) p l5); [|by rewrite (to_names _ _ _ Ht)|done]. unfold view_of.
    cbn in Hlv5, Hf5, Hlk, Hlv3, Hf3. rewrite Hlk, Hlv5, Hf5, Hf3, Hf1, Hlv3. done.
  - intros n Hn. destruct (Ho1 n Hn) as [Hv Hne]. rewrite <-Hv. by apply (touches_view p).
Qed.

(** What the listener promises for the logger of a definition. *)
Definition shows (s : logs) (d : LogDefine) : Prop :=
  ∃ f, view s (dname d) = Some (dlevel d, f, expected f (dappenders d)) ∧ is_Some f ∧
       ∀ g, own_formatter (dformatter d) = Some g → f = Some g.

Lemma find_define_in n l d : find_define n l = Some d → d ∈ l ∧ dname d = n.
Proof.
  unfold find_define. intros ([i d'] & Hf & [= <-])%fmap_Some. cbn.
  apply list_find_Some in Hf as (Hl & Hn & _). split; [|done]. by eapply list_elem_of_lookup_2.
Qed.

Lemma find_define_None n l : find_define n l = None ↔ n ∉ dname <$> l.
Proof.
  unfold find_define. rewrite fmap_None, list_find_None, Forall_forall. split.
  - intros H (d & -> & Hd)%list_elem_of_fmap. by apply (H d Hd).
  - intros H d Hd <-. apply H. apply list_elem_of_fmap. eauto.
Qed.

Lemma find_define_NoDup l d : NoDup (dname <$> l) → d ∈ l → find_define (dname d) l = Some d.
Proof.
  intros Hnd Hd. destruct (find_define (dname d) l) as [d'|] eqn:E.
  - apply find_define_in in E as [Hd' Hn]. f_equal.
    apply list_elem_of_lookup in Hd as [i Hi], Hd' as [j Hj].
    assert (i = j) as <-; [|congruence].
    apply (NoDup_lookup (dname <$> l) i j (dname d)); [done|by rewrite list_lookup_fmap, Hi|].
    rewrite list_lookup_fmap, Hj. cbn. by rewrite Hn.
  - apply find_define_None in E. destruct E. apply list_elem_of_fmap. eauto.
Qed.

Lemma kept_Some s n : wf s → is_Some (kept s n).
Proof.
  intros Hwf. unfold kept, view. destruct (names s !! n) as [p|] eqn:En; [|done]. cbn.
  destruct (wf_names s Hwf n p En) as (l & Hl & _). rewrite Hl. cbn. by destruct (wf_loggers s Hwf p l Hl) as (_ & ? & _).
Qed.

Lemma apply_new_spec old new : ∀ s,
  wf s → Forall types_ok new → NoDup (dname <$> new) →
  ∃ s' w, apply_new has_d old new s = Ret (s', w) ∧ wf s' ∧ root s' = root s ∧
    (∀ d, d ∈ new → find_define (dname d) old ≠ Some d → shows s' d) ∧
    (∀ n, (∀ d, d ∈ new → find_define (dname d) old ≠ Some d → dname d ≠ n) → view s' n = view s n).
Proof.
  induction new as [|d new IH]; intros s Hwf Hty Hnd.
  - exists s, []. split_and!; try done. by intros d ?%elem_of_nil.
  - apply Forall_cons in Hty as [Ht Hty]. cbn in Hnd. apply NoDup_cons in Hnd as [Hd Hnd].
    cbn [apply_new]. case_bool_decide as E.
    + destruct (IH s Hwf Hty Hnd) as (s' & w & Hr & Hwf' & Hroot & Hs & Hv). exists s', w.
      split_and!; try done.
      * intros d' [->|Hd']%elem_of_cons Hf; [done|by apply Hs].
      * intros n Hn. apply Hv. intros d' Hd' Hf. apply Hn; [by right|done].
    + destruct (apply_define_spec d s Hwf Ht) as (s1 & w1 & Hr1 & Hwf1 & Hroot1 & Hv1 & Ho1).
      destruct (IH s1 Hwf1 Hty Hnd) as (s' & w & Hr & Hwf' & Hroot & Hs & Hv).
      exists s', (w1 ++ w). rewrite Hr1. cbn. rewrite Hr. split; [done|]. split; [done|].
      split; [congruence|]. split.
      * intros d' [->|Hd']%elem_of_cons Hf; [|by apply Hs]. unfold shows. rewrite Hv.
        -- eexists. split; [exact Hv1|]. split; [|by intros g ->].
           destruct (own_formatter (dformatter d)); [done|by apply kept_Some].
        -- intros d' Hd' _ Hn. apply Hd. rewrite <-Hn. apply list_elem_of_fmap. eauto.
      * intros n Hn. rewrite Hv by (intros d' Hd' Hf'; apply Hn; [by right|done]). apply Ho1.
        intros ->. by apply (Hn d); [left|..].
Qed.

Lemma drop_one_spec d s : wf s →
  let s' := (let '(s1, p) := getLogger (dname d) s in clearAppenders p (setLevel p UNKNOW s1)) in
  wf s' ∧ (∃ f, view s' (dname d) = Some (UNKNOW, f, [])) ∧ ∀ n, n ≠ dname d → view s' n = view s n.
Proof.
  intros Hwf. pose proof (getLogger_spec (dname d) s Hwf) as Hg.
  destruct (getLogger (dname d) s) as [s1 p]. destruct Hg as (Hwf1 & Hn1 & _ & (l1 & Hl1 & Hf1) & Ho1).
  pose proof (setLevel_becomes p UNKNOW s1 l1 Hwf1 Hl1) as B2. pose proof B2 as (Hwf2 & _ & Hl2 & _).
  pose proof (clearAppenders_becomes p _ _ Hwf2 Hl2) as B3.
  pose proof (becomes_trans _ _ _ _ _ _ B2 B3) as (Hwf3 & Ht & Hl3 & _).
  split; [done|]. split.
  - eexists. erewrite view_at; [|by rewrite (to_names _ _ _ Ht)|exact Hl3]. done.
  - intros n Hn. destruct (Ho1 n Hn) as [Hv Hne]. rewrite <-Hv. by apply (touches_view p).
Qed.

Lemma drop_old_spec old new : ∀ s, wf s →
  let s' := drop_old old new s in
  wf s' ∧
  (∀ d, d ∈ old → find_define (dname d) new = None → ∃ f, view s' (dname d) = Some (UNKNOW, f, [])) ∧
  (∀ n, n ∉ dname <$> old ∨ n ∈ dname <$> new → view s' n = view s n).
Proof.
  induction old as [|d old IH]; intros s Hwf; cbn [drop_old].
  - split_and!; [done|by intros d ?%elem_of_nil|done].
  - destruct (find_define (dname d) new) as [d'|] eqn:E; cbn [null].
    + destruct (IH s Hwf) as (Hw & Hd & Ho). split_and!; [done| |].
      * intros x [->|Hx]%elem_of_cons Hf; [congruence|auto].
      * intros n [Hn|Hn]; apply Ho; [|by right]. left. cbn in Hn. set_solver.
    + destruct (drop_one_spec d s Hwf) as (Hw1 & [f Hv1] & Ho1).
      set (s1 := let '(s1, p) := getLogger (dname d) s in _) in *.
      destruct (IH s1 Hw1) as (Hw & Hd & Ho). split_and!; [done| |].
      * intros x [->|Hx]%elem_of_cons Hf; [|auto].
        destruct (decide (dname d ∈ dname <$> old)) as [(y & Hy & Hin)%list_elem_of_fmap|Hnin].
        -- rewrite Hy. apply Hd; [done|]. by rewrite <-Hy.
        -- exists f. rewrite Ho; [done|by left].
      * intros n Hn. rewrite Ho by (cbn in Hn; set_solver). apply Ho1. intros ->.
        destruct Hn as [Hn|Hn]; [cbn in Hn; set_solver|]. by apply find_define_None in E.
Qed.
End ConfSpec.

(** ** Logging *)
Section LogSpec.
Context (strftime : str → Z → option str).

(** The text of every date of the formatter fits the buffer of
    [DateTimeFormatItem::format] at the event's time. *)
Definition dates_fit (e : LogEvent) (f : LogFormatter) : Prop :=
  ∀ g, DateTimeItem g ∈ items_ f → is_Some (strftime g (time_ e)).
(** That of the formatters of the root logger's appenders. *)
Definition root_dates_fit (e : LogEvent) (s : logs) : Prop :=
  ∀ l q a f, loggers s !! root s = Some l → q ∈ appenders_ l → apps s !! q = Some a →
    aformatter_ a = Some f → dates_fit e f.

Lemma format_total l level e : (∀ g, DateTimeItem g ∈ l → is_Some (strftime g (time_ e))) →
  ∃ t, format strftime l level e = Ret t.
Proof.
  induction l as [|i l IH]; intros Hfit; cbn; [by eexists|].
  assert (∃ x, item_format strftime level e i = Ret x) as [x ->].
  { destruct i as [| | | | | |f| | | | | |]; cbn; try by eexists.
    destruct (Hfit f ltac:(by left)) as [x ->]. eauto. }
  destruct IH as [t IH]; [intros g Hg; apply Hfit; by right|]. cbn. rewrite IH. cbn. eauto.
Qed.

(** Logging moves only the time of the last reopening of file appenders. *)
Lemma appender_log_ok level e a f :
  aformatter_ a = Some f → dates_fit e f →
  ∃ a' w, appender_log strftime level e a = Ret (a', w) ∧ look a' = look a.
Proof.
  intros Hf Hfit. unfold appender_log. destruct (level_le _ _); [|by do 2 eexists].
  destruct (format_total (items_ f) level e Hfit) as [t Ht].
  destruct (sink_ a) as [|fn] eqn:Es.
  - rewrite Hf, Ht. cbn. by do 2 eexists.
  - destruct (_ <=? _); cbn [aformatter_]; rewrite Hf, Ht; cbn [mbind outcome_bind];
      do 2 eexists; (split; [done|]); unfold look; cbn; by rewrite ?Es, ?Hf.
Qed.

Definition with_apps (m : gmap Z LogAppender) (s : logs) : logs :=
  mkLogs m (loggers s) (names s) (root s) (next s).

Lemma same_looks_wf s m :
  wf s → (∀ q, look <$> m !! q = look <$> apps s !! q) →
  wf (with_apps m s) ∧ ∀ n, view (with_apps m s) n = view s n.
Proof.
  intros [H1 H2 H3 H4 H5 H6] Hm. split.
  - split; cbn; [done|done| | |done|done].
    + intros p l q Hl Hq. destruct (H3 p l q Hl Hq) as (a & Ha & Hf). specialize (Hm q). rewrite Ha in Hm.
      destruct (m !! q) as [a'|]; [|done]. exists a'. split; [done|]. cbn in Hm.
      injection Hm as _ _ _ Hfa. by rewrite Hfa.
    + intros q a Ha. specialize (Hm q). rewrite Ha in Hm. destruct (apps s !! q) as [a'|] eqn:E; [|done].
      by apply (H4 q a').
  - intros n. unfold view. cbn. destruct (names s !! n) as [p|]; [|done]. cbn.
    destruct (loggers s !! p) as [l|]; [|done]. cbn. unfold view_of, looks. do 2 f_equal.
    apply list_fmap_ext. intros i q _. cbn. apply Hm.
Qed.

Lemma log_all_ok level e l s :
  (∀ q, q ∈ l → ∃ a f, apps s !! q = Some a ∧ aformatter_ a = Some f ∧ dates_fit e f) →
  ∃ m w, log_all strftime level e l s = Ret (with_apps m s, w) ∧ ∀ q, look <$> m !! q = look <$> apps s !! q.
Proof.
  revert s. induction l as [|q l IH]; intros s Hl; cbn [log_all].
  - exists (apps s), []. by destruct s.
  - destruct (Hl q) as (a & f & Ha & Hf & Hfit); [by left|]. rewrite Ha.
    destruct (appender_log_ok level e a f Hf Hfit) as (a' & w & Hr & Hk). rewrite Hr. cbn [mbind outcome_bind].
    fold (with_apps (<[q:=a']> (apps s)) s).
    assert (Hm : ∀ q', look <$> <[q:=a']> (apps s) !! q' = look <$> apps s !! q').
    { intros q'. destruct (decide (q = q')) as [<-|]; [rewrite lookup_insert_eq, Ha; cbn; by rewrite Hk|].
      by rewrite lookup_insert_ne. }
    destruct (IH (with_apps (<[q:=a']> (apps s)) s)) as (m & ws & Hr' & Hm').
    { intros q' Hq'. destruct (Hl q') as (b & fb & Hb & Hfb & Hfitb); [by right|]. specialize (Hm q'). rewrite Hb in Hm.
      cbn [apps with_apps]. destruct (<[q:=a']> (apps s) !! q') as [b'|]; [|done]. exists b', fb. split; [done|].
      injection Hm as _ _ _ Hfb'. by rewrite Hfb'. }
    rewrite Hr'. cbn. exists m, (w ++ ws). split; [done|]. intros q'. by rewrite Hm', <-Hm.
Qed.

Lemma log_root_ok level e s : wf s → root_dates_fit e s →
  ∃ s' w, log strftime 2 (root s) level e s = Ret (s', w) ∧ wf s' ∧ root s' = root s ∧
          ∀ n, view s' n = view s n.
Proof.
  intros Hwf Hfit. destruct (wf_root s Hwf) as (l & Hl & Hr). cbn [log]. rewrite Hl.
  destruct (level_le _ _); [|by do 2 eexists].
  destruct (appenders_ l) as [|q r] eqn:Ea; [rewrite Hr; by do 2 eexists|].
  destruct (log_all_ok level e (q :: r) s) as (m & w & Hrun & Hm).
  { intros q' Hq'. rewrite <-Ea in Hq'. destruct (wf_apps s Hwf (root s) l q' Hl Hq') as (a & Ha & [f Hf]).
    exists a, f. split; [done|]. split; [done|]. by apply (Hfit l q' a f). }
  destruct (same_looks_wf s m Hwf Hm) as [Hwf' Hv]. rewrite Hrun. do 2 eexists. done.
Qed.
End LogSpec.

(** C15: after a configuration change the loggers show the new configuration.
    The listener comes back, provided the dates in the formats of the root
    logger's appenders fit the 64 bytes of their buffer when it logs its own
    message (otherwise the buffer is printed as it happens to be,
    [long_date_undefined]); a definition that is new or changed gives
    its logger its level, its formatter when it names a valid one, and exactly
    the appenders it asks for (a daemon skips the console ones); an unchanged
    one leaves its logger alone; a logger that left the configuration gets the
    lowest level and no appenders; and no other logger is touched. *)
Theorem logger_configuration strftime has_d old new e s :
  root_dates_fit strftime e s → wf s → NoDup (dname <$> new) → Forall types_ok new →
  ∃ s' w, on_logger_conf_changed strftime has_d old new e s = Ret (s', w) ∧ wf s' ∧
    (∀ d, d ∈ new → find_define (dname d) old ≠ Some d → shows has_d s' d) ∧
    (∀ d, d ∈ new → find_define (dname d) old = Some d → view s' (dname d) = view s (dname d)) ∧
    (∀ d, d ∈ old → find_define (dname d) new = None → ∃ f, view s' (dname d) = Some (UNKNOW, f, [])) ∧
    (∀ n, n ∉ dname <$> old → n ∉ dname <$> new → view s' n = view s n).
Proof.
  intros Hst Hwf Hnd Hty.
  assert (∃ s0 w0, (if match loggers s !! root s with Some l => log_enabled (llevel_ l) INFO | None => false end
                    then log strftime 2 (root s) INFO e s else Ret (s, [])) = Ret (s0, w0) ∧
                   wf s0 ∧ ∀ n, view s0 n = view s n) as (s0 & w0 & Hlog & Hwf0 & Hv0).
  { destruct (match loggers s !! root s with Some l => _ | None => _ end); [|by do 2 eexists].
    destruct (log_root_ok strftime INFO e s Hwf Hst) as (s0 & w0 & ? & ? & _ & ?). eauto. }
  destruct (apply_new_spec has_d old new s0 Hwf0 Hty Hnd) as (s1 & w1 & Hrun & Hwf1 & _ & Hs & Ho).
  destruct (drop_old_spec old new s1 Hwf1) as (Hwf2 & Hd & Ho2).
  exists (drop_old old new s1), (w0 ++ w1). unfold on_logger_conf_changed. rewrite Hlog. cbn. rewrite Hrun. cbn.
  assert (Hin : ∀ d, d ∈ new → dname d ∈ dname <$> new) by (intros; apply list_elem_of_fmap; eauto).
  split; [done|]. split; [done|]. split_and!.
  - intros d Hdn Hf. destruct (Hs d Hdn Hf) as (f & Hv & Hrest). exists f.
    rewrite Ho2 by (right; auto). by split.
  - intros d Hdn Hf. rewrite Ho2 by (right; auto). rewrite Ho, Hv0; [done|].
    intros d' Hd' Hf' Hn. apply Hf'. rewrite Hn, Hf. f_equal.
    pose proof (find_define_NoDup new d Hnd Hdn) as E1. pose proof (find_define_NoDup new d' Hnd Hd') as E2.
    rewrite Hn in E2. congruence.
  - done.
  - intros n Hno Hnn. rewrite Ho2 by (by left). rewrite Ho, Hv0; [done|]. intros d Hdn _ <-. auto.
Qed.

(** The manager starts out well-formed. *)
Lemma LoggerManager_new_wf : wf LoggerManager_new.
Proof.
  set (l := Logger_new ($"root") None).
  set (s := mkLogs ∅ {[ 1 := l ]} {[ ($"root") := 1 ]} 1 2).
  assert (Hl : loggers s !! 1 = Some l) by (by cbn; rewrite lookup_singleton_eq).
  assert (Hwf : wf s).
  { assert (Hlk : ∀ p k, loggers s !! p = Some k → p = 1 ∧ k = l).
    { intros p k Hk. change (({[1 := l]} : gmap Z Logger) !! p = Some k) in Hk.
      by apply lookup_singleton_Some in Hk as [<- <-]. }
    split.
    - intros n p Hp. change (({[($"root") := 1]} : gmap str Z) !! n = Some p) in Hp.
      apply lookup_singleton_Some in Hp as [<- <-]. by exists l.
    - intros p k [-> ->]%Hlk. split_and!; [by cbn|done|constructor|by left].
    - intros p k q [-> ->]%Hlk Hq. by apply elem_of_nil in Hq.
    - intros q a Ha. cbn in Ha. by rewrite lookup_empty in Ha.
    - intros p p' k k' q [-> ->]%Hlk [-> ->]%Hlk _ _. done.
    - by exists l. }
  destruct (add_becomes 1 StdoutLogAppender_new s l Hwf Hl) as [(Hwf' & _) _]. exact Hwf'.
Qed.

(** [strftime] for a clock that stands at 1970-01-01 00:00:00, with the
    directives of the default format: a text and its end have to fit 64 bytes. *)
Fixpoint expand_date (f : str) : str :=
  match f with
  | "%"%char :: c :: r =>
      (if bool_decide (c ∈ ["Y"%char]) then $"1970"
       else if bool_decide (c ∈ ["m"; "d"]%char) then $"01"
       else if bool_decide (c ∈ ["H"; "M"; "S"]%char) then $"00" else ["%"%char; c]) ++ expand_date r
  | c :: r => c :: expand_date r
  | [] => []
  end.
Definition epoch_strftime (f : str) (t : Z) : option str :=
  let s := expand_date f in if (length s <? 64)%nat then Some s else None.

Lemma logger_configuration_witness :
  let d := mkLD ($"web") WARN ($"%m%n") [mkLAD 1 UNKNOW [] ($"web.log"); mkLAD 2 UNKNOW [] []] in
  let e := mkEvent [] 0 0 0 0 0 [] [] ($"root") INFO in
  ∃ s' w, on_logger_conf_changed epoch_strftime false [] [d] e LoggerManager_new = Ret (s', w) ∧
    shows false s' d ∧ wf s'.
Proof.
  intros d e.
  destruct (logger_configuration epoch_strftime false [] [d] e LoggerManager_new)
    as (s' & w & Hr & Hwf & Hs & _).
  - intros l q a f Hl Hq Ha Hf g Hg.
    assert (Hall : forallb (λ i, match i with DateTimeItem g => negb (null (epoch_strftime g 0)) | _ => true end) (items_ f) = true).
    { vm_compute in Hl. injection Hl as <-. vm_compute in Hq. apply list_elem_of_singleton in Hq as ->.
      vm_compute in Ha. injection Ha as <-. vm_compute in Hf. injection Hf as <-. by vm_compute. }
    apply list_elem_of_In in Hg. pose proof (proj1 (forallb_forall _ _) Hall _ Hg) as Hfit. cbn beta iota in Hfit.
    change (time_ e) with 0. destruct (epoch_strftime g 0) as [x|]; [by exists x|done].
  - exact LoggerManager_new_wf.
  - apply NoDup_singleton.
  - apply Forall_singleton. constructor; [by left|]. constructor; [by right|constructor].
  - exists s', w. split; [exact Hr|]. split; [|exact Hwf]. apply Hs; [by left|]. done.
Defined.

(** A date of 64 characters: the message prints a buffer with indeterminate
    contents. *)
Theorem long_date_undefined :
  let a := mkAppender Console DEBUG true (Some (LogFormatter_new ($"%d{" ++ replicate 64 "-"%char ++ $"}"))) 0 in
  let e := mkEvent [] 0 0 0 0 0 [] [] ($"root") INFO in
  appender_log epoch_strftime INFO e a = Undefined.
Proof. vm_compute. reflexivity. Qed.
