(* ===== verification/Config.v ===== *)
(** * Configuration variables: config.h, config.cpp

    A YAML document is what [YAML::Node] can hold (the kinds of
    yaml-cpp/node/type.h in the vendored headers); reading and printing one are
    the library's, so they are parameters.  The registry maps a name to its
    variable: variables are never removed, so a pointer to one is its name.  The
    type of a variable is a tag, its [FromStr] the cast of that tag. *)
From S2P Require Import Prelude StringUtil StdSet.

(** ** Keys *)

(** [operator<] of [std::string]: bytes are compared as unsigned. *)
Fixpoint str_lt (a b : str) : bool :=
  match a, b with
  | _, [] => false
  | [], _ => true
  | x :: a', y :: b' => (code x <? code y) || ((code x =? code y) && str_lt a' b')
  end.

Lemma code_inj x y : code x = code y → x = y.
Proof.
  unfold code. intros E%(inj Z.of_N). rewrite <-(ascii_N_embedding x), <-(ascii_N_embedding y). by rewrite E.
Qed.

#[export] Instance str_lt_total : StrictTotal (λ _, True) str_lt.
Proof.
  split.
  - induction x as [|x l IH]; cbn; [done|]. by rewrite Z.ltb_irrefl, Z.eqb_refl, IH.
  - induction x as [|x a IH]; intros [|y b] [|z c]; cbn; try done.
    rewrite !orb_true_iff, !andb_true_iff, !Z.ltb_lt, !Z.eqb_eq.
    intros [?|[E1 H1]] [?|[E2 H2]]; [left; lia..|]. right. split; [congruence|]. by eapply IH.
  - induction x as [|x a IH]; intros [|y b]; cbn; try done. intros _ _.
    rewrite !orb_false_iff, !andb_false_iff, !Z.ltb_ge, !Z.eqb_neq.
    intros [H1 [?|H2]] [H3 [?|H4]]; try lia. assert (x = y) as -> by (apply code_inj; lia).
    f_equal. by apply IH.
Qed.

(** The keys of a [std::map<std::string, T>] as it is iterated over. *)
Definition in_order {T} (m : gmap str T) : list str :=
  foldl (λ l n, (set_insert str_lt n l).1) [] (map_to_list m).*1.

Lemma in_order_spec {T} (m : gmap str T) :
  sorted str_lt (in_order m) ∧ ∀ n, n ∈ in_order m ↔ is_Some (m !! n).
Proof.
  destruct (insert_all_fresh (P := λ _, True) (lt := str_lt) (map_to_list m).*1 []) as [H1 H2].
  - constructor.
  - by apply Forall_forall.
  - apply NoDup_fst_map_to_list.
  - split; [exact H1|]. intros n. etransitivity; [apply H2|]. cbn. rewrite list_elem_of_fmap. split.
    + intros ([k x] & -> & Hk%elem_of_map_to_list). cbn. by rewrite Hk.
    + intros [x Hx]. exists (n, x). split; [done|]. by apply elem_of_map_to_list.
Qed.

(** ** YAML nodes *)

(** A map node lists its entries in order, a key being its [Scalar()]. *)
Inductive Node : Type :=
  | NNull
  | NScalar (s : str)
  | NSequence (l : list Node)
  | NMap (l : list (str * Node)).

Definition IsMap (n : Node) : bool := match n with NMap _ => true | _ => false end.
Definition IsScalar (n : Node) : bool := match n with NScalar _ => true | _ => false end.

(** [Node::size]. *)
Definition nsize (n : Node) : nat :=
  match n with NSequence l => length l | NMap l => length l | _ => 0 end.

(** [node["key"]], undefined when [None]. *)
Definition member (n : Node) (k : str) : option Node :=
  match n with NMap l => snd <$> (snd <$> list_find (λ x, x.1 = k) l) | _ => None end.

(** yaml-cpp: [Load] parses a text, [Emit] is [ss << node], and [map_index] what
    [node[i]] is for a number [i] and a map. *)
Class Yaml : Type := {
  Load : str → outcome Node;
  Emit : Node → str;
  map_index : list (str * Node) → nat → outcome Node }.

Definition nindex `{Yaml} (n : Node) (i : nat) : outcome Node :=
  match n with
  | NSequence l => match l !! i with Some x => Ret x | None => Undefined end
  | NMap l => map_index l i
  | _ => Undefined
  end.

(** ** LexicalCast *)

(** The two functors of a type: [LexicalCast<std::string, T>] and
    [LexicalCast<T, std::string>]. *)
Class LexicalCast (T : Type) : Type := {
  from_string : str → outcome T;
  to_string : T → outcome str }.

(** A loop that casts one by one. *)
Fixpoint each {A B} (f : A → outcome B) (l : list A) : outcome (list B) :=
  match l with
  | [] => Ret []
  | x :: r => y ← f x; ys ← each f r; Ret (y :: ys)
  end.

Section Casts.
Context `{Yaml} {T : Type} `{LexicalCast T}.

(** The elements of [node], each printed and cast. *)
Definition elements_of_string (v : str) : outcome (list T) :=
  node ← Load v;
  each (λ i, x ← nindex node i; from_string (Emit x)) (seq 0 (nsize node)).

(** A sequence of the elements, each cast and parsed. *)
Definition elements_to_string (v : list T) : outcome str :=
  l ← each (λ i, s ← to_string i; Load s) v; Ret (Emit (NSequence l)).

(** [std::vector<T>]. *)
#[export] Instance cast_vector : LexicalCast (list T) := {
  from_string := elements_of_string;
  to_string := elements_to_string }.

(** [std::set<T>] over the order [lt]: the list of its elements in order. *)
Definition set_of_string (lt : T → T → bool) (v : str) : outcome (list T) :=
  l ← elements_of_string v; Ret (foldl (λ s x, (set_insert lt x s).1) [] l).

(** [std::unordered_set<T>]: without an order, the elements kept. *)
Definition unordered_set_of_string `{!EqDecision T} (v : str) : outcome (list T) :=
  l ← elements_of_string v;
  Ret (foldl (λ s x, if bool_decide (x ∈ s) then s else s ++ [x]) [] l).

(** [std::map<std::string, T>]; [insert] keeps the first value of a key.  The
    entries of a sequence have no key, and [Scalar()] of it throws. *)
Definition map_of_string (v : str) : outcome (gmap str T) :=
  node ← Load v;
  match node with
  | NMap l =>
      xs ← each (λ kx : str * Node, t ← from_string (Emit kx.2); Ret (kx.1, t)) l;
      Ret (foldl (λ (m : gmap str T) kt, if bool_decide (is_Some (m !! kt.1)) then m else <[kt.1 := kt.2]> m) ∅ xs)
  | NSequence (_ :: _) => Throw ($"invalid node")
  | _ => Ret ∅
  end.

(** [std::unordered_map<std::string, T>] is read in the same way. *)
Definition unordered_map_of_string (v : str) : outcome (gmap str T) := map_of_string v.

(** The loop over the entries in an order of the keys. *)
Definition entries (v : gmap str T) (keys : list str) : list (str * T) :=
  omap (λ k, pair k <$> v !! k) keys.
Definition entries_to_string (l : list (str * T)) : outcome str :=
  l ← each (λ kt : str * T, s ← to_string kt.2; n ← Load s; Ret (kt.1, n)) l;
  Ret (Emit (NMap l)).

(** A map is written in the order of its keys, an unordered one in that of the
    hash table, [keys]. *)
Definition map_to_string (v : gmap str T) : outcome str := entries_to_string (entries v (in_order v)).
Definition unordered_map_to_string (keys : list str) (v : gmap str T) : outcome str :=
  entries_to_string (entries v keys).

(** [std::list<T>] is cast like a vector, and the sets are written so. *)
Definition list_of_string (v : str) : outcome (list T) := elements_of_string v.
Definition list_to_string (v : list T) : outcome str := elements_to_string v.
Definition set_to_string (v : list T) : outcome str := elements_to_string v.
Definition unordered_set_to_string (v : list T) : outcome str := elements_to_string v.

#[export] Instance cast_map : LexicalCast (gmap str T) := {
  from_string := map_of_string;
  to_string := map_to_string }.
End Casts.

(** ** Variables *)

(** [V]: the values of all types; [C]: the listeners; [TY]: the types. *)
Record ConfigVar (V C TY : Type) : Type := mkVar {
  name_ : str;
  description_ : str;
  type_ : TY;
  val_ : V;
  cbs_ : list (Z * C) }.
Arguments mkVar {V C TY}.
Arguments name_ {V C TY}.
Arguments description_ {V C TY}.
Arguments type_ {V C TY}.
Arguments val_ {V C TY}.
Arguments cbs_ {V C TY}.

Section Config.
Context `{Yaml} {V C TY : Type} `{!EqDecision V, !EqDecision TY}.
(** [FromStr] of a type, and what calling a listener does. *)
Context (FromStr : TY → str → outcome V) (call : C → V → V → outcome unit).

Abbreviation Var := (ConfigVar V C TY).

(** [ConfigVar::ConfigVar]. *)
Definition ConfigVar_new (name description : str) (type : TY) (default_value : V) : Var :=
  mkVar (tolower <$> name) description type default_value [].

Definition with_val (v : V) (x : Var) : Var :=
  mkVar (name_ x) (description_ x) (type_ x) v (cbs_ x).
Definition with_cbs (l : list (Z * C)) (x : Var) : Var :=
  mkVar (name_ x) (description_ x) (type_ x) (val_ x) l.

(** The loop of [setValue] over the listeners: those called, and how it ends. *)
Fixpoint notify (old_value new_value : V) (l : list (Z * C)) : list C * outcome unit :=
  match l with
  | [] => ([], Ret ())
  | (_, c) :: r =>
      match call c old_value new_value with
      | Ret _ => let '(called, o) := notify old_value new_value r in (c :: called, o)
      | o => ([c], o)
      end
  end.

(** [ConfigVar::setValue] under the read lock: whether it goes on to write. *)
Definition setValue_notify (v : V) (x : Var) : list C * outcome bool :=
  if decide (v = val_ x) then ([], Ret false)
  else let '(called, o) := notify (val_ x) v (cbs_ x) in (called, _ ← o; Ret true).

(** ... and under the write lock. *)
Definition setValue_write (v : V) (x : Var) : Var := with_val v x.

(** [ConfigVar::setValue], nothing else running in between. *)
Definition setValue (v : V) (x : Var) : Var * list C * outcome unit :=
  let '(called, o) := setValue_notify v x in
  match o with
  | Ret true => (setValue_write v x, called, Ret ())
  | Ret false => (x, called, Ret ())
  | Assert_fail => (x, called, Assert_fail)
  | Throw w => (x, called, Throw w)
  | Undefined => (x, called, Undefined)
  end.

(** [ConfigVar::fromString]: an exception of the cast or of a listener is
    caught; the result is always [false]. *)
Definition fromString (val : str) (x : Var) : Var * list C * outcome bool :=
  match FromStr (type_ x) val with
  | Ret v =>
      let '(x', called, o) := setValue v x in
      match o with
      | Ret _ | Throw _ => (x', called, Ret false)
      | Assert_fail => (x', called, Assert_fail)
      | Undefined => (x', called, Undefined)
      end
  | Throw _ => (x, [], Ret false)
  | Assert_fail => (x, [], Assert_fail)
  | Undefined => (x, [], Undefined)
  end.

(** [ConfigVar::toString]: an exception of the cast is caught. *)
Definition toString (ToStr : V → outcome str) (x : Var) : outcome str :=
  match ToStr (val_ x) with Throw _ => Ret [] | o => o end.

(** [addListener], with the counter that all variables of a type share;
    [delListener], [getListener] and [clearListener]. *)
Definition addListener (cb : C) (s_fun_id : Z) (x : Var) : Var * Z * Z :=
  let id := u64 (s_fun_id + 1) in
  (with_cbs (filter (λ kc, kc.1 ≠ id) (cbs_ x) ++ [(id, cb)]) x, id, id).
Definition delListener (key : Z) (x : Var) : Var :=
  with_cbs (filter (λ kc, kc.1 ≠ key) (cbs_ x)) x.
Definition getListener (key : Z) (x : Var) : option C :=
  snd <$> (snd <$> list_find (λ kc, kc.1 = key) (cbs_ x)).
Definition clearListener (x : Var) : Var := with_cbs [] x.

(** ** The registry *)

(** [name.find_first_not_of(...) == npos]. *)
Definition name_chars : str := $"abcdefghikjlmnopqrstuvwxyz._012345678".
Definition valid_name (name : str) : bool := forallb (λ c, bool_decide (c ∈ name_chars)) name.

(** [Config::Lookup(name, default_value, description)]; [None] is the null
    pointer. *)
Definition Lookup_create (name description : str) (type : TY) (default_value : V)
    (datas : gmap str Var) : outcome (gmap str Var * option str) :=
  match datas !! name with
  | Some x => Ret (datas, if decide (type_ x = type) then Some name else None)
  | None =>
      if negb (valid_name name) then Throw name
      else Ret (<[name := ConfigVar_new name description type default_value]> datas, Some name)
  end.

(** [Config::Lookup(name)] and [Config::LookupBase]. *)
Definition Lookup (name : str) (type : TY) (datas : gmap str Var) : option Var :=
  x ← datas !! name; if decide (type_ x = type) then Some x else None.
Definition LookupBase (name : str) (datas : gmap str Var) : option Var := datas !! name.

(** [Config::Visit]; [m]: the registry in the order of its iteration, which
    [unordered_map] leaves open; the state is whatever the callback changes. *)
Fixpoint Visit {St} (cb : Var → St → outcome St) (m : list (str * Var)) (st : St) : outcome St :=
  match m with
  | [] => Ret st
  | it :: r => st' ← cb it.2 st; Visit cb r st'
  end.

(** [ListAllMember], its output list from the call on. *)
Fixpoint ListAllMember (prefix : str) (node : Node) : list (str * Node) :=
  if valid_name prefix then
    (prefix, node) ::
    match node with
    | NMap l =>
        (fix go (l : list (str * Node)) : list (str * Node) :=
           match l with
           | [] => []
           | (k, x) :: r =>
               ListAllMember (if bool_decide (prefix = []) then k else prefix ++ "."%char :: k) x ++ go r
           end) l
    | _ => []
    end
  else [].

(** The text a variable is set from. *)
Definition text_of (n : Node) : str := match n with NScalar s => s | _ => Emit n end.

(** The loop of [Config::LoadFromYaml]: the registry, the listeners called,
    and how it ended. *)
Fixpoint load_members (l : list (str * Node)) (datas : gmap str Var) :
    gmap str Var * list C * outcome unit :=
  match l with
  | [] => (datas, [], Ret ())
  | (key, node) :: r =>
      if bool_decide (key = []) then load_members r datas
      else
        let key := tolower <$> key in
        match LookupBase key datas with
        | None => load_members r datas
        | Some x =>
            let '(x', called, o) := fromString (text_of node) x in
            match o with
            | Ret _ =>
                let '(datas', called', o') := load_members r (<[key := x']> datas) in
                (datas', called ++ called', o')
            | Assert_fail => (<[key := x']> datas, called, Assert_fail)
            | Throw w => (<[key := x']> datas, called, Throw w)
            | Undefined => (<[key := x']> datas, called, Undefined)
            end
        end
  end.

Definition LoadFromYaml (root : Node) (datas : gmap str Var) : gmap str Var * list C * outcome unit :=
  load_members (ListAllMember [] root) datas.

(** The loop of [Config::LoadFromConfDir] over the files found, with what
    [lstat] and [YAML::LoadFile] give for each; [s_file2modifytime]: a file
    not in the map counts as time 0.  Every exception is caught. *)
Fixpoint load_files (mtime : str → Z) (LoadFile : str → outcome Node) (force : bool) (files : list str)
    (times : gmap str Z) (datas : gmap str Var) : outcome (gmap str Z * gmap str Var) :=
  match files with
  | [] => Ret (times, datas)
  | f :: r =>
      if negb force && (default 0 (times !! f) =? u64 (mtime f))
      then load_files mtime LoadFile force r (if bool_decide (is_Some (times !! f)) then times else <[f := 0]> times) datas
      else
        let times := <[f := u64 (mtime f)]> times in
        match LoadFile f with
        | Ret root =>
            let '(datas', _, o) := LoadFromYaml root datas in
            match o with
            | Ret _ | Throw _ => load_files mtime LoadFile force r times datas'
            | Assert_fail => Assert_fail
            | Undefined => Undefined
            end
        | Throw _ => load_files mtime LoadFile force r times datas
        | Assert_fail => Assert_fail
        | Undefined => Undefined
        end
  end.
End Config.

(** ** Casts that lose nothing *)

(** Every value of the type is printed as a text that parses, and the node it
    parses to, printed again, casts back to the value. *)
Class RoundTrips (T : Type) `{Yaml, LexicalCast T} : Prop :=
  round_trips : ∀ x : T, ∃ s n,
    to_string x = Ret s ∧ Load s = Ret n ∧ from_string (Emit n) = Ret x.

Lemma each_Ret {A B} (f : A → outcome B) l l' :
  Forall2 (λ x y, f x = Ret y) l l' → each f l = Ret l'.
Proof. induction 1 as [|x y l l' Hx _ IH]; cbn; [done|]. by rewrite Hx, IH. Qed.

Lemma each_exists {A B} (f : A → outcome B) (P : A → B → Prop) l :
  (∀ x, x ∈ l → ∃ y, f x = Ret y ∧ P x y) → ∃ l', each f l = Ret l' ∧ Forall2 P l l'.
Proof.
  induction l as [|x l IH]; intros Hl; cbn; [by exists []|].
  destruct (Hl x) as (y & -> & Hy); [by left|]. destruct IH as (l' & -> & Hl'); [intros; apply Hl; by right|].
  cbn. eauto.
Qed.

Section CastLaws.
Context `{Yaml} {T : Type} `{LexicalCast T, !RoundTrips T}.
(** What yaml-cpp promises: a printed node parses to itself. *)
Context (Load_Emit : ∀ n, Load (Emit n) = Ret n).

(** The node an element becomes, and that it is read back. *)
Definition node_for (x : T) (n : Node) : Prop := from_string (Emit n) = Ret x.

Lemma element_node (x : T) : ∃ n, (s ← to_string x; Load s) = Ret n ∧ node_for x n.
Proof. destruct (round_trips x) as (s & n & Hs & Hn & Hx). exists n. rewrite Hs. by cbn. Qed.

Lemma read_sequence (l : list Node) (v : list T) :
  Forall2 node_for v l → elements_of_string (Emit (NSequence l)) = Ret v.
Proof.
  intros Hv. unfold elements_of_string. rewrite Load_Emit. cbn [mbind outcome_bind nsize].
  apply each_Ret, Forall2_same_length_lookup_2.
  - rewrite length_seq. symmetry. by eapply Forall2_length.
  - intros i j x Hi Hx. apply lookup_seq in Hi as [-> Hlt]. cbn [nindex Nat.add].
    destruct (lookup_lt_is_Some_2 l i Hlt) as [n Hn]. rewrite Hn. cbn.
    by apply (Forall2_lookup_lr _ _ _ _ _ _ Hv Hx Hn).
Qed.

Lemma write_sequence (v : list T) :
  ∃ l, elements_to_string v = Ret (Emit (NSequence l)) ∧ Forall2 node_for v l.
Proof.
  destruct (each_exists (λ i, s ← to_string i; Load s) node_for v) as (l & Hl & Hv).
  { intros x _. apply element_node. }
  exists l. unfold elements_to_string. by rewrite Hl.
Qed.

Lemma cast_vector_round_trips : RoundTrips (list T).
Proof.
  intros v. destruct (write_sequence v) as (l & Hw & Hv). exists (Emit (NSequence l)), (NSequence l).
  split; [done|]. split; [apply Load_Emit|]. by apply read_sequence.
Qed.

(** The entries in any order of the keys are those of the map. *)
Lemma entries_perm {X} (v : gmap str X) (keys : list str) :
  NoDup keys → (∀ k, k ∈ keys ↔ is_Some (v !! k)) → omap (λ k, pair k <$> v !! k) keys ≡ₚ map_to_list v.
Proof.
  intros Hnd Hk. apply NoDup_Permutation; [|apply NoDup_map_to_list|].
  - clear Hk. induction Hnd as [|k keys Hn _ IH]; cbn; [constructor|].
    destruct (v !! k) as [x|]; cbn; [|done]. constructor; [|done].
    intros (k' & Hk' & Hp)%list_elem_of_omap. destruct (v !! k'); [|done]. injection Hp as -> _. done.
  - intros [k x]. rewrite elem_of_map_to_list, list_elem_of_omap. split.
    + intros (k' & _ & Hp). destruct (v !! k') as [y|] eqn:Hy; [|done]. by injection Hp as -> ->.
    + intros Hx. exists k. rewrite Hk, Hx. split; [by eexists|done].
Qed.

(** A map node of the entries, in whatever order, is read back. *)
Lemma entries_round_trip (v : gmap str T) (kts : list (str * T)) : kts ≡ₚ map_to_list v →
  ∃ l, entries_to_string kts = Ret (Emit (NMap l)) ∧ map_of_string (Emit (NMap l)) = Ret v.
Proof.
  intros Hkts.
  destruct (each_exists (λ kt : str * T, s ← to_string kt.2; n ← Load s; Ret (kt.1, n))
              (λ kt kn, kn.1 = kt.1 ∧ node_for kt.2 kn.2) kts) as (l & Hl & Hv).
  { intros [k x] _. destruct (round_trips x) as (s & n & Hs & Hn & Hx). exists (k, n). cbn.
    rewrite Hs. cbn. by rewrite Hn. }
  exists l. split; [unfold entries_to_string; by rewrite Hl|].
  unfold map_of_string. rewrite Load_Emit. cbn [mbind outcome_bind].
  assert (He : each (λ kx : str * Node, t ← from_string (Emit kx.2); Ret (kx.1, t)) l = Ret kts).
  { apply each_Ret. apply Forall2_flip. eapply Forall2_impl; [exact Hv|].
    intros [k x] [k' n] [E Hn]. cbn in *. rewrite Hn. cbn. by rewrite E. }
  rewrite He. cbn. f_equal.
  assert (Hf : ∀ (kts : list (str * T)) (m : gmap str T), NoDup kts.*1 → (∀ k, k ∈ kts.*1 → m !! k = None) →
    foldl (λ (m : gmap str T) kt, if bool_decide (is_Some (m !! kt.1)) then m else <[kt.1:=kt.2]> m) m kts =
    list_to_map kts ∪ m).
  { clear. induction kts as [|[k x] kts IH]; intros m Hnd Hm; cbn; [by rewrite (left_id_L ∅ (∪))|].
    apply NoDup_cons in Hnd as [Hk Hnd]. rewrite bool_decide_false.
    2: { rewrite (Hm k) by (by left). by intros [? ?]. }
    rewrite IH; [|done|].
    - rewrite <-insert_union_r by (by apply not_elem_of_list_to_map_1).
      by rewrite insert_union_l.
    - intros k' Hk'. rewrite lookup_insert_ne by (by intros ->). apply Hm. by right. }
  assert (Hnd : NoDup kts.*1) by (rewrite Hkts; apply NoDup_fst_map_to_list).
  rewrite Hf; [|done..]. rewrite (list_to_map_proper _ _ Hnd Hkts).
  by rewrite list_to_map_to_list, (right_id_L ∅ (∪)).
Qed.

Lemma cast_map_round_trips : RoundTrips (gmap str T).
Proof.
  intros v. destruct (in_order_spec v) as [Hs Hin].
  destruct (entries_round_trip v (entries v (in_order v))) as (l & Hw & Hr).
  { apply entries_perm; [by eapply (sorted_NoDup (P := λ _, True))|done]. }
  exists (Emit (NMap l)), (NMap l). split; [exact Hw|]. split; [apply Load_Emit|exact Hr].
Qed.

(** A set in the order of a hash table. *)
Lemma unordered_set_round_trips `{!EqDecision T} (v : list T) : NoDup v →
  ∃ s, unordered_set_to_string v = Ret s ∧ unordered_set_of_string s = Ret v.
Proof.
  intros Hnd. destruct (write_sequence v) as (l & Hw & Hv). exists (Emit (NSequence l)). split; [done|].
  unfold unordered_set_of_string. rewrite (read_sequence l v Hv). cbn. f_equal. clear Hw Hv l.
  assert (Hall : ∀ u, (∀ x, x ∈ v → x ∉ u) → foldl (λ s x, if bool_decide (x ∈ s) then s else s ++ [x]) u v = u ++ v).
  { induction Hnd as [|x v Hx _ IH]; intros u Hu; cbn; [by rewrite app_nil_r|].
    rewrite bool_decide_eq_false_2 by (apply Hu; by left). rewrite IH; [by rewrite <-app_assoc|].
    intros y Hy [Hin| ->%list_elem_of_singleton]%elem_of_app; [|done]. by apply (Hu y); [right|]. }
  apply Hall. intros x _. apply not_elem_of_nil.
Qed.

(** A set in the order of its comparator. *)
Lemma set_round_trips (lt : T → T → bool) `{!StrictTotal (λ _, True) lt} (v : list T) :
  sorted lt v → ∃ l, set_to_string v = Ret (Emit (NSequence l)) ∧
                     set_of_string lt (Emit (NSequence l)) = Ret v.
Proof.
  intros Hs. destruct (write_sequence v) as (l & Hw & Hv). exists l. split; [done|].
  unfold set_of_string. rewrite (read_sequence l v Hv). cbn. f_equal.
  exact (insert_all_sorted (P := λ _, True) v [] Hs).
Qed.
End CastLaws.

(** ** Members *)

(** [p] names the member [n] of the document below [prefix]: keys joined by
    dots, every name on the way being valid. *)
Inductive reaches : str → Node → str → Node → Prop :=
  | reaches_here prefix n : valid_name prefix = true → reaches prefix n prefix n
  | reaches_below prefix l k x p n :
      valid_name prefix = true → (k, x) ∈ l →
      reaches (if bool_decide (prefix = []) then k else prefix ++ "."%char :: k) x p n →
      reaches prefix (NMap l) p n.

(** Induction on documents that reaches into their lists. *)
Fixpoint Node_ind' (P : Node → Prop) (HN : P NNull) (HS : ∀ s, P (NScalar s))
    (HQ : ∀ l, Forall P l → P (NSequence l)) (HM : ∀ l, Forall (λ kx, P kx.2) l → P (NMap l)) (n : Node) : P n :=
  match n with
  | NNull => HN
  | NScalar s => HS s
  | NSequence l =>
      HQ l ((fix go l : Forall P l :=
               match l with
               | [] => Forall_nil_2 _
               | x :: r => Forall_cons_2 _ _ _ (Node_ind' P HN HS HQ HM x) (go r)
               end) l)
  | NMap l =>
      HM l ((fix go l : Forall (λ kx, P kx.2) l :=
               match l with
               | [] => Forall_nil_2 _
               | kx :: r => Forall_cons_2 _ _ _ (Node_ind' P HN HS HQ HM kx.2) (go r)
               end) l)
  end.

(** Every variable of the registry is visited once, whatever the order: a
    callback that collects them yields them all. *)
Lemma Visit_collects {V C TY} (m : list (str * ConfigVar V C TY)) (datas : gmap str (ConfigVar V C TY)) :
  m ≡ₚ map_to_list datas →
  ∃ l, Visit (λ x st, Ret (st ++ [x])) m [] = Ret l ∧ l ≡ₚ (map_to_list datas).*2.
Proof.
  intros Hm. exists m.*2. split; [|by rewrite Hm].
  enough (∀ st, Visit (λ x st, Ret (st ++ [x])) m st = Ret (st ++ m.*2)) as E by exact (E []).
  clear Hm. induction m as [|it m IH]; intros st; cbn; [by rewrite app_nil_r|].
  by rewrite IH, <-app_assoc.
Qed.

(** A callback that fails ends the visit. *)
Lemma Visit_fails {V C TY St} (cb : ConfigVar V C TY → St → outcome St) m1 it m2 st st' w :
  Visit cb m1 st = Ret st' → cb it.2 st' = Throw w → Visit cb (m1 ++ it :: m2) st = Throw w.
Proof.
  revert st. induction m1 as [|i m1 IH]; intros st; cbn.
  - intros [= ->] ->. done.
  - destruct (cb i.2 st); cbn; [|done..]. apply IH.
Qed.

Lemma ListAllMember_leaf node prefix p n : IsMap node = false →
  (p, n) ∈ ListAllMember prefix node ↔ reaches prefix node p n.
Proof.
  intros Hm. assert (ListAllMember prefix node = if valid_name prefix then [(prefix, node)] else []) as ->
    by (destruct node; done).
  destruct (valid_name prefix) eqn:Hv; split.
  - intros [= -> ->]%list_elem_of_singleton. by constructor.
  - intros H. inversion H; subst; [by left|done].
  - by intros ?%elem_of_nil.
  - intros H. inversion H; congruence.
Qed.

Lemma ListAllMember_reaches node : ∀ prefix p n,
  (p, n) ∈ ListAllMember prefix node ↔ reaches prefix node p n.
Proof.
  induction node as [|s|l _|l IH] using Node_ind'; intros prefix p n.
  1-3: by apply ListAllMember_leaf.
  cbn [ListAllMember]. destruct (valid_name prefix) eqn:Hv.
  2: { split; [by intros ?%elem_of_nil|]. intros H. inversion H; congruence. }
  set (go := fix go (l : list (str * Node)) : list (str * Node) := match l with [] => [] | _ => _ end).
  assert (Hgo : (p, n) ∈ go l ↔ ∃ k x, (k, x) ∈ l ∧
            reaches (if bool_decide (prefix = []) then k else prefix ++ "."%char :: k) x p n).
  { clear -IH. induction IH as [|[k x] l Hx Hl IHl]; cbn [go].
    - split; [by intros ?%elem_of_nil|]. by intros (k & x & ?%elem_of_nil & _).
    - rewrite elem_of_app, Hx, IHl. cbn. split.
      + intros [?|(k' & x' & ? & ?)]; [exists k, x|exists k', x']; split; try done; [by left|by right].
      + intros (k' & x' & [[= -> ->]|?]%elem_of_cons & ?); [by left|right]. eauto. }
  rewrite elem_of_cons, Hgo. split.
  - intros [[= -> ->]|(k & x & Hin & Hr)]; [by constructor|by econstructor].
  - intros H. inversion H; subst; [by left|]. right. eauto.
Qed.

(** ** Variables and documents *)
Section ConfigLaws.
Context `{Yaml} {V C TY : Type} `{!EqDecision V, !EqDecision TY}.
Context (FromStr : TY → str → outcome V) (call : C → V → V → outcome unit).
(** Casts and listeners throw at most. *)
Context (FromStr_ok : ∀ t s, (∃ v, FromStr t s = Ret v) ∨ ∃ w, FromStr t s = Throw w).
Context (call_ok : ∀ c v v', call c v v' = Ret () ∨ ∃ w, call c v v' = Throw w).
Implicit Types (x : ConfigVar V C TY) (datas : gmap str (ConfigVar V C TY)).

Lemma notify_ends old new l : snd (notify call old new l) = Ret () ∨ ∃ w, snd (notify call old new l) = Throw w.
Proof.
  induction l as [|[i c] l IH]; cbn; [by left|].
  destruct (call_ok c old new) as [->|[w ->]]; [|right; by exists w]. by destruct (notify call old new l).
Qed.

(** Setting from a text never fails outright; it leaves the variable as it was
    or with the cast value, and everything else about it untouched. *)
Lemma fromString_ends s x : ∃ x' called,
  fromString FromStr call s x = (x', called, Ret false) ∧
  (x' = x ∨ ∃ v, FromStr (type_ x) s = Ret v ∧ x' = with_val v x).
Proof.
  unfold fromString. destruct (FromStr_ok (type_ x) s) as [[v Hv]|[w Hw]].
  - rewrite Hv. unfold setValue, setValue_notify. destruct (decide (v = val_ x)); [do 2 eexists; by auto|].
    pose proof (notify_ends (val_ x) v (cbs_ x)) as Hn. destruct (notify call (val_ x) v (cbs_ x)) as [called o].
    cbn in Hn |- *. destruct Hn as [->|[w ->]]; cbn; do 2 eexists; (split; [done|]); [right; eauto|by left].
  - rewrite Hw. do 2 eexists. auto.
Qed.

Lemma fromString_name s x x' called o : fromString FromStr call s x = (x', called, o) → name_ x' = name_ x.
Proof.
  destruct (fromString_ends s x) as (x1 & c1 & -> & [->|(v & _ & ->)]); by intros [= <- _ _].
Qed.

(** The texts a document has for a variable. *)
Definition texts_for (name : str) (l : list (str * Node)) : list str :=
  (λ pn, text_of pn.2) <$> filter (λ pn, pn.1 ≠ [] ∧ tolower <$> pn.1 = name) l.

(** A variable set from several texts in turn. *)
Definition set_from (x : ConfigVar V C TY) (l : list str) : ConfigVar V C TY :=
  foldl (λ x s, (fromString FromStr call s x).1.1) x l.

Lemma load_members_spec l : ∀ datas,
  ∃ datas' called, load_members FromStr call l datas = (datas', called, Ret ()) ∧
    ∀ name, datas' !! name = (λ x, set_from x (texts_for name l)) <$> datas !! name.
Proof.
  induction l as [|[key node] l IH]; intros datas; cbn [load_members].
  - exists datas, []. split; [done|]. intros name. cbn. by destruct (datas !! name).
  - destruct (decide (key = [])) as [->|Hk].
    + rewrite bool_decide_true by done. destruct (IH datas) as (d & c & Hr & Hd). exists d, c. split; [done|].
      intros name. rewrite Hd. unfold texts_for. rewrite filter_cons_False; [done|]. by intros [? _].
    + rewrite bool_decide_false by done. unfold LookupBase. set (key' := tolower <$> key).
      destruct (datas !! key') as [x|] eqn:Ex.
      * destruct (fromString_ends (text_of node) x) as (x' & called & Hf & _). rewrite Hf.
        destruct (IH (<[key' := x']> datas)) as (d & c & Hr & Hd). rewrite Hr.
        do 2 eexists. split; [done|]. intros name. rewrite Hd. unfold texts_for.
        destruct (decide (key' = name)) as [<-|Hne].
        -- rewrite lookup_insert_eq, Ex. rewrite filter_cons_True by done. cbn. by rewrite Hf.
        -- rewrite lookup_insert_ne by done. rewrite filter_cons_False; [done|]. by intros [_ ?].
      * destruct (IH datas) as (d & c & Hr & Hd). exists d, c. split; [done|]. intros name. rewrite Hd.
        unfold texts_for. destruct (decide (key' = name)) as [<-|Hne]; [by rewrite Ex|].
        rewrite filter_cons_False; [done|]. by intros [_ ?].
Qed.
End ConfigLaws.

(** C25: the casts of containers lose nothing.  If every value of [T] survives
    being printed, parsed, printed and cast back, so does every vector and list of
    them, every map from strings to them, every nesting of vectors and maps,
    every set, whatever its comparator, and every unordered set or map, whatever
    the order of its hash table. *)
Theorem casts_round_trip `{Yaml} {T : Type} `{LexicalCast T, !RoundTrips T} :
  (∀ n, Load (Emit n) = Ret n) →
  RoundTrips (list T) ∧ RoundTrips (gmap str T) ∧ RoundTrips (list (gmap str (list T))) ∧
  (∀ v : list T, ∃ s, list_to_string v = Ret s ∧ list_of_string s = Ret v) ∧
  (∀ lt, StrictTotal (λ _ : T, True) lt → ∀ v, sorted lt v →
    ∃ s, set_to_string v = Ret s ∧ set_of_string lt s = Ret v) ∧
  (∀ `{!EqDecision T} (v : list T), NoDup v →
    ∃ s, unordered_set_to_string v = Ret s ∧ unordered_set_of_string s = Ret v) ∧
  (∀ (v : gmap str T) keys, NoDup keys → (∀ k, k ∈ keys ↔ is_Some (v !! k)) →
    ∃ s, unordered_map_to_string keys v = Ret s ∧ unordered_map_of_string s = Ret v).
Proof.
  intros HL. split; [by apply cast_vector_round_trips|]. split; [by apply cast_map_round_trips|]. split.
  { assert (RoundTrips (list T)) by (by apply cast_vector_round_trips).
    assert (RoundTrips (gmap str (list T))) by (by apply cast_map_round_trips).
    by apply cast_vector_round_trips. }
  split; [|split; [|split]].
  - intros v. destruct (write_sequence v) as (l & Hw & Hv). eexists. split; [exact Hw|]. by apply read_sequence.
  - intros lt Hlt v Hv. destruct (set_round_trips HL lt v Hv) as (l & ? & ?). eauto.
  - intros ? v Hv. by apply unordered_set_round_trips.
  - intros v keys Hnd Hk. destruct (entries_round_trip HL v (entries v keys)) as (l & Hw & Hr); [by apply entries_perm|].
    by exists (Emit (NMap l)).
Qed.

(** A document written in unary. *)
Fixpoint Node_tree (n : Node) : gen_tree str :=
  match n with
  | NNull => GenNode 0 []
  | NScalar s => GenNode 1 [GenLeaf s]
  | NSequence l => GenNode 2 (Node_tree <$> l)
  | NMap l => GenNode 3 ((λ kx : str * Node, GenNode 4 [GenLeaf kx.1; Node_tree kx.2]) <$> l)
  end.
Fixpoint tree_Node (t : gen_tree str) : Node :=
  match t with
  | GenNode 1 [GenLeaf s] => NScalar s
  | GenNode 2 l => NSequence (tree_Node <$> l)
  | GenNode 3 l =>
      NMap ((λ t : gen_tree str, match t with
                                 | GenNode 4 [GenLeaf k; x] => (k, tree_Node x)
                                 | _ => ([], NNull)
                                 end) <$> l)
  | _ => NNull
  end.

Lemma tree_Node_tree n : tree_Node (Node_tree n) = n.
Proof.
  induction n as [|s|l IH|l IH] using Node_ind'; cbn; [done|done|f_equal..].
  - induction IH as [|x l Hx _ IH]; cbn; [done|]. by rewrite Hx, IH.
  - induction IH as [|[k x] l Hx _ IH]; cbn in *; [done|]. by rewrite Hx, IH.
Qed.

Definition unary_yaml : Yaml := {|
  Load s := Ret (tree_Node (default (GenNode 0 []) (decode (Pos.of_nat (length s)))));
  Emit n := replicate (Pos.to_nat (encode (Node_tree n))) "x"%char;
  map_index _ _ := Throw [] |}.

(** A flag printed as a scalar. *)
Definition flag_cast : LexicalCast bool := {|
  from_string s := n ← @Load unary_yaml s; Ret (match n with NScalar _ => true | _ => false end);
  to_string b := Ret (@Emit unary_yaml (if b : bool then NScalar [] else NNull)) |}.

Lemma unary_Load_Emit n : @Load unary_yaml (@Emit unary_yaml n) = Ret n.
Proof.
  unfold unary_yaml. cbn [Load Emit]. rewrite length_replicate, Pos2Nat.id, decode_encode. cbn.
  by rewrite tree_Node_tree.
Qed.

Lemma flag_round_trips : @RoundTrips bool unary_yaml flag_cast.
Proof.
  intros b. do 2 eexists. split; [done|]. split; [apply unary_Load_Emit|].
  cbn [from_string flag_cast]. rewrite unary_Load_Emit. by destruct b.
Qed.

Lemma casts_round_trip_witness :
  (∀ n, @Load unary_yaml (@Emit unary_yaml n) = Ret n) ∧
  @RoundTrips (list bool) unary_yaml (@cast_vector unary_yaml bool flag_cast).
Proof.
  split; [exact unary_Load_Emit|].
  exact (proj1 (@casts_round_trip unary_yaml bool flag_cast flag_round_trips unary_Load_Emit)).
Defined.

(** C17: loading a document sets exactly the variables it names.  It always
    completes; every variable is set, in document order, from the text of each
    member whose path - keys joined by dots, each step a valid name - is its
    name; one the document does not name is untouched; a text that does not
    cast, or a listener that throws, leaves the value of the moment; and a
    variable named once, whose listeners come back, has the value of that text. *)
Theorem LoadFromYaml_spec `{Yaml} {V C TY : Type} `{!EqDecision V, !EqDecision TY}
    (FromStr : TY → str → outcome V) (call : C → V → V → outcome unit) (root : Node)
    (datas : gmap str (ConfigVar V C TY)) :
  (∀ t s, (∃ v, FromStr t s = Ret v) ∨ ∃ w, FromStr t s = Throw w) →
  (∀ c v v', call c v v' = Ret () ∨ ∃ w, call c v v' = Throw w) →
  ∃ datas' called, LoadFromYaml FromStr call root datas = (datas', called, Ret ()) ∧
    (∀ p n, (p, n) ∈ ListAllMember [] root ↔ reaches [] root p n) ∧
    (∀ name, datas' !! name =
       (λ x, set_from FromStr call x (texts_for name (ListAllMember [] root))) <$> datas !! name) ∧
    (∀ name, (∀ p n, reaches [] root p n → p ≠ [] → tolower <$> p ≠ name) → datas' !! name = datas !! name) ∧
    (∀ name x s v, datas !! name = Some x → texts_for name (ListAllMember [] root) = [s] →
       FromStr (type_ x) s = Ret v → (∀ c a b, call c a b = Ret ()) →
       datas' !! name = Some (if decide (v = val_ x) then x else with_val v x)).
Proof.
  intros HF Hc. destruct (load_members_spec FromStr call HF Hc (ListAllMember [] root) datas)
    as (d & c & Hr & Hd).
  exists d, c. split; [done|]. split; [intros; apply ListAllMember_reaches|]. split; [done|]. split.
  - intros name Hn. rewrite Hd. assert (texts_for name (ListAllMember [] root) = []) as ->.
    { unfold texts_for. rewrite list_filter_none; [done|]. apply Forall_forall. intros [p n] Hin [Hp E].
      apply ListAllMember_reaches in Hin. by apply (Hn p n). }
    by destruct (datas !! name).
  - intros name x s v Hx Ht Hv Hall. rewrite Hd, Hx, Ht. cbn. unfold fromString. rewrite Hv.
    unfold setValue, setValue_notify. destruct (decide (v = val_ x)); [done|].
    assert (Hn : ∀ l, snd (notify call (val_ x) v l) = Ret ()).
    { induction l as [|[i k] l IH]; cbn; [done|]. rewrite Hall. by destruct (notify call (val_ x) v l). }
    specialize (Hn (cbs_ x)). destruct (notify call (val_ x) v (cbs_ x)) as [cs o]. cbn in Hn |- *. by rewrite Hn.
Qed.

(** Variables holding flags, whose casts and listeners do nothing special. *)
Definition flag_var (name : str) : ConfigVar bool unit unit := ConfigVar_new name [] () false.

Lemma LoadFromYaml_spec_witness :
  let doc := NMap [(($"log"), NMap [(($"on"), NScalar ($"y")); (($"v9"), NScalar ($"y"))])] in
  let datas := <[($"log.on") := flag_var ($"log.on")]> (<[($"log.v9") := flag_var ($"log.v9")]> ∅) in
  ∃ datas' called,
    @LoadFromYaml unary_yaml bool unit unit _ (λ _ _, Ret true) (λ _ _ _, Ret ()) doc datas = (datas', called, Ret ()) ∧
    val_ <$> datas' !! ($"log.on") = Some true ∧ val_ <$> datas' !! ($"log.v9") = Some false.
Proof.
  intros doc datas.
  destruct (@LoadFromYaml_spec unary_yaml bool unit unit _ _ (λ _ _, Ret true) (λ _ _ _, Ret ()) doc datas)
    as (d & c & Hr & _ & Hd & _).
  - intros t s. left. by eexists.
  - by left.
  - exists d, c. split; [exact Hr|]. rewrite !Hd. split; reflexivity.
Defined.

(** [setValue] is right alone and loses its order when raced.  Alone, it
    writes the value and calls every listener once, in the order of their ids,
    if the value is new, and does nothing otherwise.  But the listeners run
    before the write and the lock is released in between: two calls may both
    notify from the same old value and then write in the other order, so the
    variable ends with the value the listeners were told of first. *)
Theorem setValue_contract {V C TY : Type} `{!EqDecision V} (call : C → V → V → outcome unit)
    (x : ConfigVar V C TY) (v1 v2 : V) :
  (∀ c a b, call c a b = Ret ()) → v1 ≠ val_ x → v2 ≠ val_ x →
  setValue call v1 x = (with_val v1 x, snd <$> cbs_ x, Ret ()) ∧
  setValue call (val_ x) x = (x, [], Ret ()) ∧
  setValue_notify call v1 x = (snd <$> cbs_ x, Ret true) ∧
  setValue_notify call v2 x = (snd <$> cbs_ x, Ret true) ∧
  val_ (setValue_write v1 (setValue_write v2 x)) = v1.
Proof.
  intros Hc H1 H2.
  assert (Hn : ∀ v l, notify call (val_ x) v l = (snd <$> l, Ret ())).
  { intros v l. induction l as [|[i c] l IH]; cbn; [done|]. by rewrite Hc, IH. }
  assert (Hs : ∀ v, v ≠ val_ x → setValue_notify call v x = (snd <$> cbs_ x, Ret true)).
  { intros v Hv. unfold setValue_notify. rewrite decide_False by done. by rewrite Hn. }
  unfold setValue. rewrite (Hs v1), (Hs v2) by done. unfold setValue_notify. by rewrite decide_True.
Qed.

Lemma setValue_contract_witness :
  let x : ConfigVar Z nat unit := mkVar ($"n") [] () 0 [(1, 7%nat)] in
  setValue_notify (λ _ _ _, Ret ()) 1 x = ([7%nat], Ret true) ∧
  setValue_notify (λ _ _ _, Ret ()) 2 x = ([7%nat], Ret true) ∧
  val_ (setValue_write 1 (setValue_write 2 x)) = 1.
Proof.
  intros x. exact (proj2 (proj2 (setValue_contract (λ _ _ _, Ret ()) x 1 2 (λ _ _ _, eq_refl) ltac:(done) ltac:(done)))).
Defined.

(** The characters a name may have are the lower-case letters, the dot, the
    underscore and the digits - except 9. *)
Lemma name_chars_nine (c : ascii) :
  c ∈ name_chars ↔
    c = "."%char ∨ c = "_"%char ∨ 97 ≤ code c ≤ 122 ∨ 48 ≤ code c ≤ 56.
Proof.
  assert (H : forallb (λ n, eqb (bool_decide (ascii_of_nat n ∈ name_chars))
    (bool_decide (ascii_of_nat n = "."%char) || bool_decide (ascii_of_nat n = "_"%char) ||
     ((97 <=? Z.of_nat n) && (Z.of_nat n <=? 122)) || ((48 <=? Z.of_nat n) && (Z.of_nat n <=? 56))))
    (seq 0 256) = true) by (vm_compute; reflexivity).
  rewrite forallb_forall in H. specialize (H (nat_of_ascii c)).
  rewrite in_seq in H. pose proof (nat_ascii_bounded c). specialize (H ltac:(lia)).
  apply eqb_prop in H. rewrite ascii_nat_embedding in H.
  assert (E : code c = Z.of_nat (nat_of_ascii c)) by (unfold code, nat_of_ascii; lia).
  rewrite E. rewrite <-(bool_decide_eq_true (c ∈ name_chars)), H.
  rewrite !orb_true_iff, !andb_true_iff, !Z.leb_le, !bool_decide_eq_true. tauto.
Qed.
