(* ===== verification/HookInit.v ===== *)
(** * Setting up the hooks: [_HookIniter] of hook.cpp

    When the program starts, the original functions are looked up behind the
    hooked names, and the timeout of [connect] begins to follow the variable
    "tcp.connect.timeout" (config.h) through a listener.  What [dlsym] finds is
    a parameter. *)
From S2P Require Import Prelude StringUtil StdSet Config Hook.

(** The names of [HOOK_FUN]. *)
Definition HOOK_FUN : list str :=
  [ $"sleep"; $"usleep"; $"nanosleep"; $"socket"; $"connect"; $"accept"; $"read"; $"readv"; $"recv";
    $"recvfrom"; $"recvmsg"; $"write"; $"writev"; $"send"; $"sendto"; $"sendmsg"; $"close"; $"fcntl";
    $"ioctl"; $"getsockopt"; $"setsockopt" ].

(** The statics of hook.cpp: [is_inited], the pointers [name_f] that are not
    null, and [s_connect_timeout]. *)
Record statics : Type := mkStatics {
  is_inited : bool;
  originals : gmap str Z;
  s_connect_timeout : Z }.

Definition statics0 : statics := mkStatics false ∅ (u64 (-1)).

Definition set_timeout (ms : Z) (h : statics) : statics := mkStatics (is_inited h) (originals h) (u64 ms).

(** [name_f(...)]: a call through a null pointer is undefined. *)
Definition original (h : statics) (name : str) : outcome Z :=
  match originals h !! name with Some f => Ret f | None => Undefined end.

Section Init.
Context (dlsym : str → option Z).

Definition resolve (name : str) (m : gmap str Z) : gmap str Z :=
  match dlsym name with Some f => <[name := f]> m | None => delete name m end.

(** [hook_init]; nothing ever sets [is_inited]. *)
Definition hook_init (h : statics) : statics :=
  if is_inited h then h
  else mkStatics (is_inited h) (foldl (λ m n, resolve n m) (originals h) HOOK_FUN) (s_connect_timeout h).

(** The listeners of "tcp.connect.timeout": the one of hook.cpp, and others,
    which may throw. *)
Context {L TY : Type} (other : L → Z → Z → outcome unit) (FromStr : TY → str → outcome Z).

Inductive listener : Type :=
  | OnTimeout
  | Other (l : L).

Definition call (c : listener) (old_value new_value : Z) : outcome unit :=
  match c with OnTimeout => Ret () | Other l => other l old_value new_value end.

(** What the listeners that were called did to the statics. *)
Definition heard (new_value : Z) (called : list listener) (h : statics) : statics :=
  foldl (λ h c, match c with OnTimeout => set_timeout new_value h | Other _ => h end) h called.

Abbreviation Var := (ConfigVar Z listener TY).

(** [_HookIniter::_HookIniter]; also the counter of listeners and the new
    listener's key. *)
Definition HookIniter (s_fun_id : Z) (x : Var) (h : statics) : Var * statics * Z * Z :=
  let h1 := set_timeout (val_ x) (hook_init h) in
  let '(x', n, key) := addListener OnTimeout s_fun_id x in
  (x', h1, n, key).

(** What others do with the variable. *)
Inductive use : Type :=
  | SetValue (v : Z)
  | SetText (text : str)
  | Listen (l : L)
  | Unlisten (key : Z).

Definition set_value (v : Z) (x : Var) (h : statics) : Var * statics * outcome unit :=
  let '(x', called, o) := setValue call v x in (x', heard v called h, o).

Definition set_text (text : str) (x : Var) (h : statics) : Var * statics * outcome bool :=
  let '(x', called, o) := fromString FromStr call text x in
  (x', match FromStr (type_ x) text with Ret v => heard v called h | _ => h end, o).

(** One use; the counter of listeners is threaded through. *)
Definition use_step (u : use) (st : Var * statics * Z) : Var * statics * Z :=
  let '(x, h, n) := st in
  match u with
  | SetValue v => let '(x', h', _) := set_value v x h in (x', h', n)
  | SetText s => let '(x', h', _) := set_text s x h in (x', h', n)
  | Listen l => let '(x', n', _) := addListener (Other l) n x in (x', h, n')
  | Unlisten k => (delListener k x, h, n)
  end.

(** [connect]: the timeout in force is read at the call. *)
Definition connect (fd : Z) (t_hook_enable : bool) (info : Z) (h : statics) (w : world) : outcome pc :=
  connect_enter fd t_hook_enable (s_connect_timeout h) info w.

(** ** What is true after any uses *)

Lemma resolve_all names m : NoDup names → ∀ n, foldl (λ m n, resolve n m) m names !! n =
  if decide (n ∈ names) then dlsym n else m !! n.
Proof.
  revert m. induction names as [|a names IH]; intros m Hnd n; [done|].
  apply NoDup_cons in Hnd as [Ha Hnd]. cbn. rewrite IH by done.
  assert (Hr : resolve a m !! n = if decide (n = a) then dlsym a else m !! n).
  { unfold resolve. destruct (decide (n = a)) as [->|Hne].
    - destruct (dlsym a); [apply lookup_insert_eq|apply lookup_delete_eq].
    - destruct (dlsym a); [by apply lookup_insert_ne|by apply lookup_delete_ne]. }
  rewrite Hr. destruct (decide (n ∈ names)), (decide (n = a)) as [->|]; try done; case_decide as H; set_solver.
Qed.

Context (other_ok : ∀ l a b, other l a b = Ret () ∨ ∃ w, other l a b = Throw w).

(** Our listener is the first, and the others are not ours. *)
Definition listening (key : Z) (n : Z) (x : Var) : Prop :=
  ∃ r, cbs_ x = (key, OnTimeout) :: r ∧ Forall (λ kc, kc.1 ≠ key ∧ ∃ l, kc.2 = Other l) r ∧ 0 ≤ key ≤ n.

Definition resolved (h : statics) : Prop :=
  ∀ name, name ∈ HOOK_FUN → original h name = match dlsym name with Some f => Ret f | None => Undefined end.

Lemma heard_originals v l h : originals (heard v l h) = originals h.
Proof. revert h. induction l as [|[|l0] l IH]; intros h; [done|exact (IH (set_timeout v h))|exact (IH h)]. Qed.

Lemma heard_others v l h : Forall (λ c, ∃ l0, c = Other l0) l → heard v l h = h.
Proof. induction 1 as [|c l [l0 ->] _ IH]; cbn; done. Qed.

(** Others are told in order, up to the first that throws. *)
Lemma notify_others old v r : Forall (λ kc : Z * listener, ∃ l, kc.2 = Other l) r →
  Forall (λ c, ∃ l0, c = Other l0) (notify call old v r).1 ∧
  ((notify call old v r).2 = Ret () ∨ ∃ w, (notify call old v r).2 = Throw w).
Proof.
  induction 1 as [|[k c] r [l Hl] _ IH]; cbn in *; [by split; [constructor|left]|]. subst c. cbn.
  destruct (other_ok l old v) as [-> | [w ->]].
  - destruct (notify call old v r) as [called o]. cbn in *. destruct IH as [H1 H2]. split; [|done].
    constructor; [by eexists|done].
  - cbn. split; [constructor; [by eexists|done]|]. right. by eexists.
Qed.

Lemma set_value_new key n x h v :
  listening key n x → v ≠ val_ x →
  ∃ x' o, set_value v x h = (x', set_timeout v h, o) ∧ cbs_ x' = cbs_ x ∧ type_ x' = type_ x ∧
    (o = Ret () ∧ val_ x' = v ∨ ∃ w, o = Throw w ∧ x' = x).
Proof.
  intros (r & Hc & Hr & _) Hv. unfold set_value, setValue, setValue_notify. rewrite decide_False by done.
  rewrite Hc. cbn -[heard]. pose proof (notify_others (val_ x) v r) as Hn. destruct (notify call (val_ x) v r) as [called o].
  cbn -[heard] in Hn |- *. destruct Hn as [Hoth Ho]; [eapply Forall_impl; [exact Hr|naive_solver]|].
  pose proof (heard_others v called (set_timeout v h) Hoth) as Hh. change (heard v called (set_timeout v h)) with (heard v (OnTimeout :: called) h) in Hh.
  destruct Ho as [-> | [w ->]]; cbn -[heard]; rewrite Hh.
  - eexists _, _. split; [done|]. split; [done|]. split; [done|]. by left.
  - eexists _, _. split; [done|]. split; [done|]. split; [done|]. right. by eexists.
Qed.

Lemma set_value_same x h : set_value (val_ x) x h = (x, h, Ret ()).
Proof. unfold set_value, setValue, setValue_notify. by rewrite decide_True. Qed.

(** No listener throws. *)
Definition quiet : Prop := ∀ l a b, other l a b = Ret ().

(** The timeout is the variable's value. *)
Definition agree (x : Var) (h : statics) : Prop := s_connect_timeout h = u64 (val_ x).

Lemma notify_quiet old v r : quiet → (notify call old v r).2 = Ret ().
Proof.
  intros Hq. induction r as [|[k c] r IH]; cbn; [done|].
  assert (call c old v = Ret ()) as -> by (destruct c; [done|apply Hq]). by destruct (notify call old v r).
Qed.

Lemma set_value_quiet v x h : quiet → (set_value v x h).2 = Ret ().
Proof.
  intros Hq. unfold set_value, setValue, setValue_notify. destruct (decide (v = val_ x)); [done|].
  pose proof (notify_quiet (val_ x) v (cbs_ x) Hq) as Hn. destruct (notify call (val_ x) v (cbs_ x)) as [called o].
  cbn in Hn. by subst o.
Qed.

(** What any setting of the variable leaves. *)
Lemma set_value_keeps key n v x h :
  listening key n x →
  ∃ x' h' o, set_value v x h = (x', h', o) ∧ (o = Ret () ∨ ∃ w, o = Throw w) ∧
    cbs_ x' = cbs_ x ∧ originals h' = originals h ∧ (quiet → agree x h → agree x' h').
Proof.
  intros Hl. destruct (decide (v = val_ x)) as [->|Hv].
  - rewrite set_value_same. eexists _, _, _. split; [done|]. split; [by left|done].
  - destruct (set_value_new key n x h v Hl Hv) as (x' & o & Hs & Hc & _ & Ho). exists x', (set_timeout v h), o.
    split; [done|]. split; [naive_solver|]. split; [done|]. split; [done|]. intros Hq _.
    pose proof (set_value_quiet v x h Hq) as Hr. rewrite Hs in Hr. cbn in Hr. subst o.
    destruct Ho as [[_ Hval]|(w & ? & _)]; [|done]. unfold agree. by rewrite Hval.
Qed.

Context (FromStr_ok : ∀ t s, (∃ v, FromStr t s = Ret v) ∨ ∃ w, FromStr t s = Throw w).

(** [fromString] swallows whatever went wrong. *)
Lemma set_text_keeps key n text x h :
  listening key n x →
  ∃ x' h', set_text text x h = (x', h', Ret false) ∧
    cbs_ x' = cbs_ x ∧ originals h' = originals h ∧ (quiet → agree x h → agree x' h').
Proof.
  intros Hl. unfold set_text, fromString. destruct (FromStr_ok (type_ x) text) as [[v ->] | [w ->]]; [|by eexists _, _].
  destruct (set_value_keeps key n v x h Hl) as (x' & h' & o & Hs & Ho & Hkeep). unfold set_value in Hs.
  destruct (setValue call v x) as [[x1 called] o1]. injection Hs as -> Hh ->.
  exists x', h'. split; [|done]. rewrite <-Hh. by destruct Ho as [-> | [w ->]].
Qed.

(** ** After any uses *)
Definition tuned (key : Z) (st : Var * statics * Z) : Prop :=
  let '(x, h, n) := st in listening key n x ∧ resolved h ∧ (quiet → agree x h).

Lemma listening_cbs key n x x' : cbs_ x' = cbs_ x → listening key n x → listening key n x'.
Proof. intros E (r & Hc & Hr). exists r. by rewrite E. Qed.

Lemma resolved_originals h h' : originals h' = originals h → resolved h → resolved h'.
Proof. intros E Hr name Hn. unfold original. rewrite E. by apply Hr. Qed.

Lemma Forall_kept {A} (P Q : A → Prop) `{∀ a, Decision (Q a)} l : Forall P l → Forall P (filter Q l).
Proof. rewrite !Forall_forall. intros Hl a [_ Ha]%list_elem_of_filter. auto. Qed.

Lemma use_tuned key u x h n :
  tuned key (x, h, n) → n + 1 < 2 ^ 64 → u ≠ Unlisten key →
  tuned key (use_step u (x, h, n)) ∧ (use_step u (x, h, n)).2 ≤ n + 1.
Proof.
  intros (Hl & Hr & Ha) Hn Hu. unfold use_step. destruct u as [v|text|l|k].
  - destruct (set_value_keeps key n v x h Hl) as (x' & h' & o & -> & _ & Hc & Ho & Hq). cbn. split; [|lia].
    split; [by eapply listening_cbs|]. split; [by eapply resolved_originals|auto].
  - destruct (set_text_keeps key n text x h Hl) as (x' & h' & -> & Hc & Ho & Hq). cbn. split; [|lia].
    split; [by eapply listening_cbs|]. split; [by eapply resolved_originals|auto].
  - destruct Hl as (r & Hc & Hoth & Hk). unfold addListener. cbn. rewrite u64_small by lia. split; [|lia].
    split; [|done]. exists (filter (λ kc, kc.1 ≠ n + 1) r ++ [(n + 1, Other l)]). cbn. rewrite Hc, filter_cons.
    rewrite decide_True by (cbn; lia). split; [done|]. split; [|lia]. apply Forall_app. split.
    + by apply Forall_kept.
    + apply Forall_singleton. cbn. split; [lia|by eexists].
  - destruct Hl as (r & Hc & Hoth & Hk). cbn. split; [|lia]. split; [|done].
    exists (filter (λ kc, kc.1 ≠ k) r). cbn. rewrite Hc, filter_cons.
    rewrite decide_True by (cbn; congruence). split; [done|]. split; [by apply Forall_kept|done].
Qed.

Lemma uses_tuned key uses : ∀ st,
  tuned key st → st.2 + Z.of_nat (length uses) < 2 ^ 64 → Forall (λ u, u ≠ Unlisten key) uses →
  tuned key (foldl (λ st u, use_step u st) st uses).
Proof.
  induction uses as [|u uses IH]; intros [[x h] n] Ht Hn Hu; [done|]. apply Forall_cons in Hu as [Hu Hus].
  cbn -[use_step] in Hn |- *. destruct (use_tuned key u x h n Ht) as [Ht' Hn']; [lia|done|].
  apply IH; [done|lia|done].
Qed.

Lemma HOOK_FUN_nodup : NoDup HOOK_FUN.
Proof. apply (bool_decide_unpack _). vm_compute. exact I. Qed.

End Init.

(** A program with a listener that refuses every value above 9000. *)
Definition refuse (_ : unit) (_ new_value : Z) : outcome unit :=
  if 9000 <? new_value then Throw ($"too long") else Ret ().
Definition timeout_var : ConfigVar Z (listener (L := unit)) unit :=
  ConfigVar_new ($"tcp.connect.timeout") ($"tcp connect timeout") () 5000.
Definition find_all (name : str) : option Z := Some (Z.of_nat (length name)).
Definition uses0 : list (use (L := unit)) := [SetValue 3000; Listen (); Unlisten 9; SetValue 10000].

Example refused_timeout_stays :
  let '(x0, h0, n0, _) := HookIniter find_all 0 timeout_var statics0 in
  let '(x1, h1, _) := foldl (λ st u, use_step refuse (λ _ _, Throw []) u st) (x0, h0, n0) uses0 in
  (val_ x1, s_connect_timeout h1) = (3000, 10000).
Proof. by vm_compute. Qed.

