(* ===== verification/Convert.v ===== *)
(** * Between YAML and JSON: YamlToJson and JsonToYaml (util.cpp)

    A [Json::Value] is what json/value.h lists ([ValueType]); an object keeps its
    members in the order of its keys.  How the two libraries' containers grow is
    an interface: its laws are what the headers document for a value that is null
    or already of the right kind.  Both functions return the value they were
    given to fill, as far as they came, and whether they succeeded. *)
From S2P Require Import Prelude StdSet Config.
From Stdlib Require Import Sorted.

(** [D]: [double]. *)
Inductive Json (D : Type) : Type :=
  | JNull
  | JInt (z : Z)
  | JUInt (z : Z)
  | JReal (d : D)
  | JString (s : str)
  | JBool (b : bool)
  | JArray (l : list (Json D))
  | JObject (l : list (str * Json D)).
Arguments JNull {D}.
Arguments JInt {D}.
Arguments JUInt {D}.
Arguments JReal {D}.
Arguments JString {D}.
Arguments JBool {D}.
Arguments JArray {D}.
Arguments JObject {D}.

(** [m[k] = v] for a [std::map] whose keys are in the order [lt]. *)
Fixpoint put {T} (lt : str → str → bool) (k : str) (v : T) (l : list (str * T)) : list (str * T) :=
  match l with
  | [] => [(k, v)]
  | y :: r => if lt y.1 k then y :: put lt k v r else (k, v) :: (if lt k y.1 then l else r)
  end.
Definition put_all {T} (lt : str → str → bool) (m l : list (str * T)) : list (str * T) :=
  foldl (λ m kv, put lt kv.1 kv.2 m) m l.

(** The containers of jsoncpp and yaml-cpp; [None] is an exception.  [CZ_lt]
    orders the keys of an object, [asString] is [Json::Value::asString]. *)
Class Containers (D : Type) : Type := {
  append : Json D → Json D → option (Json D);
  set_member : Json D → str → Json D → option (Json D);
  push_back : Node → Node → option Node;
  set_key : Node → str → Node → option Node;
  asString : Json D → option str;
  CZ_lt : str → str → bool }.

Class ContainerLaws (D : Type) `{Containers D} : Type := {
  CZ_order : StrictTotal (λ _, True) CZ_lt;
  append_null v : append JNull v = Some (JArray [v]);
  append_array l v : append (JArray l) v = Some (JArray (l ++ [v]));
  set_member_null k v : set_member JNull k v = Some (JObject [(k, v)]);
  set_member_object l k v : set_member (JObject l) k v = Some (JObject (put CZ_lt k v l));
  push_back_null n : push_back NNull n = Some (NSequence [n]);
  push_back_sequence l n : push_back (NSequence l) n = Some (NSequence (l ++ [n]));
  set_key_null k n : set_key NNull k n = Some (NMap [(k, n)]);
  set_key_new l k n : k ∉ l.*1 → set_key (NMap l) k n = Some (NMap (l ++ [(k, n)]));
  asString_string s : asString (JString s) = Some s;
  asString_null : asString JNull = Some [] }.

Section Convert.
Context {D : Type} `{Containers D}.

(** Filling a container element by element: [conv] makes the value, [add] puts
    it in. *)
Fixpoint fill {X V E} (conv : X → V * bool) (add : E → X → V → option E) (l : list X) (v : E) : E * bool :=
  match l with
  | [] => (v, true)
  | x :: r =>
      let '(e, ok) := conv x in
      if ok : bool then match add v x e with Some v' => fill conv add r v' | None => (v, false) end
      else (v, false)
  end.

Fixpoint YamlToJson (ynode : Node) (jnode : Json D) : Json D * bool :=
  match ynode with
  | NScalar s => (JString s, true)
  | NSequence l => fill (λ x, YamlToJson x JNull) (λ j _ v, append j v) l jnode
  | NMap l => fill (λ kx : str * Node, YamlToJson kx.2 JNull) (λ j kx v, set_member j kx.1 v) l jnode
  | NNull => (jnode, true)
  end.

Fixpoint JsonToYaml (jnode : Json D) (ynode : Node) : Node * bool :=
  match jnode with
  | JArray l => fill (λ x, JsonToYaml x NNull) (λ y _ n, push_back y n) l ynode
  | JObject l => fill (λ kx : str * Json D, JsonToYaml kx.2 NNull) (λ y kx n, set_key y kx.1 n) l ynode
  | _ => match asString jnode with Some s => (NScalar s, true) | None => (ynode, false) end
  end.
End Convert.

(** ** The round trip *)
Section RoundTrip.
Context {D : Type} `{ContainerLaws D}.

Local Existing Instance CZ_order.
Let lt : str → str → bool := CZ_lt.

(** What a document becomes on the way through JSON and back: null and empty
    containers are the empty string, and a map has one entry for each key, the
    last one, in the order of the keys. *)
Fixpoint tidy (n : Node) : Node :=
  match n with
  | NNull | NSequence [] | NMap [] => NScalar []
  | NScalar s => NScalar s
  | NSequence l => NSequence (tidy <$> l)
  | NMap l => NMap (put_all lt [] ((λ kx : str * Node, (kx.1, tidy kx.2)) <$> l))
  end.

(** The documents that come back as they are. *)
Inductive clean : Node → Prop :=
  | clean_scalar s : clean (NScalar s)
  | clean_sequence l : l ≠ [] → Forall clean l → clean (NSequence l)
  | clean_map l : l ≠ [] → sorted lt l.*1 → Forall (λ kx, clean kx.2) l → clean (NMap l).

(** *** [put] *)

Lemma elem_of_put {T} k (v : T) l y : y ∈ put lt k v l → y = (k, v) ∨ y ∈ l.
Proof.
  induction l as [|x l IH]; cbn; [set_solver|]. destruct (lt x.1 k); [set_solver|].
  destruct (lt k x.1); set_solver.
Qed.

Lemma sorted_put {T} k (v : T) l : sorted lt l.*1 → sorted lt (put lt k v l).*1.
Proof.
  unfold sorted. induction l as [|x l IH]; cbn; intros Hs; [by repeat constructor|].
  apply StronglySorted_inv in Hs as [Hs Hf]. destruct (lt x.1 k) eqn:E1; cbn.
  - constructor; [by apply IH|]. apply Forall_forall. intros y' (y & -> & [->|Hy]%elem_of_put)%list_elem_of_fmap; [done|].
    rewrite Forall_forall in Hf. apply Hf. by apply list_elem_of_fmap_2.
  - destruct (lt k x.1) eqn:E2; cbn.
    + constructor; [by constructor|]. constructor; [done|]. eapply Forall_impl; [exact Hf|].
      intros y. by apply lt_trans.
    + assert (x.1 = k) as <- by by apply (lt_total (P := λ _, True) (lt := lt)). by constructor.
Qed.

Lemma put_last {T} k (v : T) l : Forall (λ x, lt x.1 k = true) l → put lt k v l = l ++ [(k, v)].
Proof. induction 1 as [|x l Hx _ IH]; cbn; [done|]. by rewrite Hx, IH. Qed.

Lemma put_related {A B} (R : str * A → str * B → Prop) k a b l l' :
  (∀ x y, R x y → x.1 = y.1) → R (k, a) (k, b) → Forall2 R l l' → Forall2 R (put lt k a l) (put lt k b l').
Proof.
  intros HR Hab. induction 1 as [|x y l l' Hx Hl IH]; cbn; [by repeat constructor|].
  rewrite <-(HR x y) by done. destruct (lt x.1 k); [by constructor|].
  constructor; [done|]. destruct (lt k x.1); [by constructor|done].
Qed.

Lemma put_all_related {A B} (R : str * A → str * B → Prop) l l' :
  (∀ x y, R x y → x.1 = y.1) → Forall2 R l l' → ∀ m m', Forall2 R m m' →
  Forall2 R (put_all lt m l) (put_all lt m' l').
Proof.
  intros HR. induction 1 as [|[k a] [k' b] l l' Hx Hl IH]; cbn; [done|]. intros m m' Hm. apply IH.
  pose proof (HR _ _ Hx) as E. cbn in E. subst k'. by apply put_related.
Qed.

Lemma sorted_put_all {T} (l : list (str * T)) : ∀ m, sorted lt m.*1 → sorted lt (put_all lt m l).*1.
Proof.
  unfold put_all. induction l as [|[k v] l IH]; cbn; intros m Hm; [done|]. by apply IH, sorted_put.
Qed.

Lemma put_all_sorted {T} (l : list (str * T)) : ∀ m, sorted lt (m ++ l).*1 → put_all lt m l = m ++ l.
Proof.
  unfold put_all. induction l as [|[k v] l IH]; cbn; intros m Hm; [by rewrite app_nil_r|].
  rewrite put_last.
  - rewrite IH, <-app_assoc; [done|]. by rewrite <-app_assoc.
  - rewrite fmap_app in Hm. apply (sorted_app (P := λ _, True)) in Hm as (_ & _ & Hlt).
    apply Forall_forall. intros x Hx. apply Hlt; [by apply list_elem_of_fmap_2|by left].
Qed.

Lemma put_all_nonempty {T} (l : list (str * T)) : ∀ m, m ≠ [] → put_all lt m l ≠ [].
Proof.
  unfold put_all. induction l as [|[k v] l IH]; intros m Hm; cbn; [done|]. apply IH.
  destruct m as [|y m]; [done|]. cbn. by destruct (lt y.1 k).
Qed.

(** *** Filling *)

(** A container that was filled with these elements so far is [g] of them. *)
Lemma fill_ok {X V E} (conv : X → V * bool) (add : E → X → V → option E) (g : list (X * V) → E) xs vs :
  Forall2 (λ x v, conv x = (v, true)) xs vs → ∀ pre,
  (∀ l x v l', pre ++ zip xs vs = l ++ (x, v) :: l' → add (g l) x v = Some (g (l ++ [(x, v)]))) →
  fill conv add xs (g pre) = (g (pre ++ zip xs vs), true).
Proof.
  induction 1 as [|x v xs vs Hx _ IH]; intros pre Hadd; cbn; [by rewrite app_nil_r|].
  rewrite Hx, (Hadd pre x v (zip xs vs)) by done. rewrite IH, <-app_assoc; [done|].
  intros l y w l' El. apply (Hadd l y w l'). cbn. by rewrite <-El, <-app_assoc.
Qed.

(** The four ways the containers are filled, from null. *)
Definition of_list {A B} (null : B) (mk : list A → B) (l : list A) : B :=
  match l with [] => null | _ => mk l end.

Lemma of_list_snoc {A B} (null : B) (mk : list A → B) l x : of_list null mk (l ++ [x]) = mk (l ++ [x]).
Proof. by destruct l. Qed.

Lemma zip_snd {A B} (P : A → B → Prop) xs ys : Forall2 P xs ys → (zip xs ys).*2 = ys.
Proof. intros Hl. apply snd_zip. by rewrite (Forall2_length _ _ _ Hl). Qed.

Lemma fill_array {X} (conv : X → Json D * bool) xs vs :
  Forall2 (λ x v, conv x = (v, true)) xs vs →
  fill conv (λ j _ v, append j v) xs JNull = (of_list JNull JArray vs, true).
Proof.
  intros Hxs. pose proof (fill_ok conv (λ j _ v, append j v) (λ l, of_list JNull JArray l.*2) xs vs Hxs []) as E.
  cbn in E. rewrite E, (zip_snd _ _ _ Hxs); [done|]. intros l x v l' _. rewrite fmap_app. cbn.
  rewrite of_list_snoc. destruct l as [|[y w] l]; cbn; [apply append_null|exact (append_array (w :: l.*2) v)].
Qed.

Lemma fill_object (conv : str * Node → Json D * bool) xs vs :
  Forall2 (λ x v, conv x = (v, true)) xs vs →
  fill conv (λ j kx v, set_member j kx.1 v) xs JNull =
    (of_list JNull (λ l, JObject (put_all lt [] l)) (zip xs.*1 vs), true).
Proof.
  intros Hxs. set (key := λ xv : str * Node * Json D, (xv.1.1, xv.2)).
  pose proof (fill_ok conv (λ j kx v, set_member j kx.1 v)
    (λ l, of_list JNull (λ l, JObject (put_all lt [] l)) (key <$> l)) xs vs Hxs []) as E.
  cbn in E. rewrite E.
  - do 2 f_equal. clear E. induction Hxs; cbn; [done|]. by f_equal.
  - intros l x v l' _. rewrite fmap_app. cbn. rewrite of_list_snoc. unfold put_all. rewrite foldl_app.
    destruct l as [|[y w] l]; cbn [fmap list_fmap of_list]; [apply set_member_null|apply set_member_object].
Qed.

Lemma fill_sequence {X} (conv : X → Node * bool) xs vs :
  Forall2 (λ x v, conv x = (v, true)) xs vs →
  fill conv (λ y _ n, push_back y n) xs NNull = (of_list NNull NSequence vs, true).
Proof.
  intros Hxs. pose proof (fill_ok conv (λ j _ v, push_back j v) (λ l, of_list NNull NSequence l.*2) xs vs Hxs []) as E.
  cbn in E. rewrite E, (zip_snd _ _ _ Hxs); [done|]. intros l x v l' _. rewrite fmap_app. cbn.
  rewrite of_list_snoc. destruct l as [|[y w] l]; cbn; [apply push_back_null|exact (push_back_sequence (w :: l.*2) v)].
Qed.

Lemma fill_map (conv : str * Json D → Node * bool) xs vs :
  Forall2 (λ x v, conv x = (v, true)) xs vs → NoDup xs.*1 →
  fill conv (λ y kx n, set_key y kx.1 n) xs NNull = (of_list NNull NMap (zip xs.*1 vs), true).
Proof.
  intros Hxs Hnd. set (key := λ xv : str * Json D * Node, (xv.1.1, xv.2)).
  pose proof (fill_ok conv (λ j kx v, set_key j kx.1 v) (λ l, of_list NNull NMap (key <$> l)) xs vs Hxs []) as E.
  cbn in E. rewrite E.
  - do 2 f_equal. clear E Hnd. induction Hxs; cbn; [done|]. by f_equal.
  - intros l x v l' El. rewrite fmap_app. cbn. rewrite of_list_snoc.
    assert (Hx : x.1 ∉ (key <$> l).*1).
    { assert (xs = l.*1 ++ x :: l'.*1) as Exs.
      { rewrite <-(fst_zip xs vs) by (by rewrite (Forall2_length _ _ _ Hxs)). by rewrite El, fmap_app. }
      rewrite Exs, fmap_app in Hnd. apply NoDup_app in Hnd as (_ & Hd & _).
      intros (k & Ek & (y & -> & Hy)%list_elem_of_fmap)%list_elem_of_fmap.
      apply (Hd x.1); [|by left]. rewrite Ek. apply list_elem_of_fmap. exists y.1. split; [done|].
      by apply list_elem_of_fmap_2. }
    destruct l as [|[y w] l]; cbn [fmap list_fmap of_list app]; [apply set_key_null|exact (set_key_new (key (y, w) :: (key <$> l)) x.1 v Hx)].
Qed.

(** *** Both ways *)

Definition goes_round (n : Node) (j : Json D) : Prop :=
  YamlToJson n JNull = (j, true) ∧ JsonToYaml j NNull = (tidy n, true).

Lemma sequence_goes_round l js :
  Forall2 goes_round l js → goes_round (NSequence l) (of_list JNull JArray js).
Proof.
  intros Hl. split.
  - cbn. apply fill_array. eapply Forall2_impl; [exact Hl|]. by intros n j [].
  - destruct Hl as [|n j l js [_ Hn] Hl]; [cbn; by rewrite asString_null|].
    cbn [of_list JsonToYaml]. rewrite (fill_sequence _ (j :: js) (tidy <$> (n :: l))); [done|].
    constructor; [done|]. clear -Hl. induction Hl as [|n j l js [_ Hn] Hl IH]; cbn; by constructor.
Qed.

Lemma map_goes_round l js :
  Forall2 (λ kx, goes_round kx.2) l js →
  goes_round (NMap l) (of_list JNull (λ l, JObject (put_all lt [] l)) (zip l.*1 js)).
Proof.
  intros Hl. split.
  - cbn. apply fill_object. eapply Forall2_impl; [exact Hl|]. by intros n j [].
  - destruct (decide (l = [])) as [->|Hne]; [cbn; by rewrite asString_null|].
    assert (∀ (mk : list (str * Json D) → Json D), of_list JNull mk (zip l.*1 js) = mk (zip l.*1 js)) as ->
      by (by destruct Hl).
    set (R := λ (x : str * Json D) (y : str * Node), x.1 = y.1 ∧ JsonToYaml x.2 NNull = (y.2, true)).
    set (kns := (λ kx : str * Node, (kx.1, tidy kx.2)) <$> l).
    assert (HR : Forall2 R (zip l.*1 js) kns).
    { unfold kns. clear -Hl. induction Hl as [|[k n] j l js [_ Hn] Hl IH]; cbn; by constructor. }
    assert (Hput : Forall2 R (put_all lt [] (zip l.*1 js)) (put_all lt [] kns))
      by (apply put_all_related; [by intros x y []|done|constructor]).
    set (m := put_all lt [] (zip l.*1 js)) in *. set (m' := put_all lt [] kns) in *.
    assert (Ekeys : m.*1 = m'.*1).
    { clear -Hput. induction Hput as [|x y m m' [Hxy _] _ IH]; cbn; [done|]. by rewrite Hxy, IH. }
    cbn [JsonToYaml]. rewrite (fill_map _ m m'.*2), Ekeys, zip_fst_snd.
    + destruct l as [|kx l]; [done|]. cbn [tidy]. fold kns. fold m'.
      assert (Hm' : m' ≠ []); [|by destruct m'].
      apply (put_all_nonempty _ [_]). done.
    + clear -Hput. induction Hput as [|x y m m' [_ Hxy] _ IH]; cbn; by constructor.
    + apply (sorted_NoDup (P := λ _, True) (lt := lt)). apply sorted_put_all. constructor.
Qed.

Lemma every_node_goes_round n : ∃ j, goes_round n j.
Proof.
  induction n as [|s|l IH|l IH] using Node_ind'.
  - exists JNull. split; [done|]. cbn. by rewrite asString_null.
  - exists (JString s). split; [done|]. cbn. by rewrite asString_string.
  - assert (∃ js, Forall2 goes_round l js) as [js Hjs]; [|eexists; by apply sequence_goes_round].
    induction IH as [|n l [j Hj] _ [js Hjs]]; [by exists []|]. exists (j :: js). by constructor.
  - assert (∃ js, Forall2 (λ kx, goes_round kx.2) l js) as [js Hjs]; [|eexists; by apply map_goes_round].
    induction IH as [|n l [j Hj] _ [js Hjs]]; [by exists []|]. exists (j :: js). by constructor.
Qed.

Lemma clean_tidy n : clean n → tidy n = n.
Proof.
  induction n as [|s|l IH|l IH] using Node_ind'; intros Hc; inversion Hc as [|? Hne Hl|? Hne Hs Hl]; subst; [done|..].
  - assert (tidy <$> l = l) as E.
    { clear Hne Hc. induction Hl as [|n l Hn Hl IHl]; [done|]. apply Forall_cons in IH as [H1 IH].
      cbn. rewrite H1 by done. f_equal. by apply IHl. }
    destruct l; [done|]. cbn [tidy]. by rewrite E.
  - assert ((λ kx : str * Node, (kx.1, tidy kx.2)) <$> l = l) as E.
    { clear Hne Hc Hs. induction Hl as [|[k n] l Hn Hl IHl]; [done|]. apply Forall_cons in IH as [H1 IH].
      cbn in *. rewrite H1 by done. f_equal. by apply IHl. }
    destruct l; [done|]. cbn [tidy]. rewrite E. f_equal. by apply (put_all_sorted _ []).
Qed.

Lemma Forall_put_all {T} (Q : str * T → Prop) l : ∀ m, Forall Q l → Forall Q m → Forall Q (put_all lt m l).
Proof.
  unfold put_all. induction l as [|[k v] l IH]; intros m Hl Hm; cbn; [done|].
  apply Forall_cons in Hl as [Hkv Hl]. apply IH; [done|]. apply Forall_forall.
  intros y [->|Hy]%elem_of_put; [done|]. rewrite Forall_forall in Hm. auto.
Qed.

Lemma tidy_clean n : clean (tidy n).
Proof.
  induction n as [|s|l IH|l IH] using Node_ind'; [constructor..| |].
  - destruct l as [|n l]; [constructor|]. cbn [tidy]. constructor; [done|]. by apply Forall_fmap.
  - destruct l as [|[k n] l]; [constructor|]. cbn [tidy]. constructor.
    + by apply (put_all_nonempty _ [_]).
    + apply sorted_put_all. constructor.
    + apply Forall_put_all; [|constructor]. by apply Forall_fmap.
Qed.

(** C26: a document survives the way through JSON up to what JSON cannot hold.
    [YamlToJson] into a new value always succeeds, and so does [JsonToYaml] of
    its result; what comes back is the document with null and empty containers
    become the empty string, and the entries of each map in the order of their
    keys, the last of equal ones.  A second trip changes nothing any more, and a
    document without nulls, empty containers and unordered maps is returned as
    it is. *)
Theorem yaml_json_round_trip (n : Node) :
  ∃ j, YamlToJson n JNull = (j, true) ∧ JsonToYaml j NNull = (tidy n, true) ∧
    clean (tidy n) ∧ (clean n → tidy n = n).
Proof.
  destruct (every_node_goes_round n) as (j & H1 & H2). exists j. do 2 (split; [done|]).
  split; [apply tidy_clean|apply clean_tidy].
Qed.
End RoundTrip.

(** Containers that do only what the laws ask for. *)
#[export] Instance plain_containers : Containers unit := {
  append j v := match j with JNull => Some (JArray [v]) | JArray l => Some (JArray (l ++ [v])) | _ => None end;
  set_member j k v := match j with
                      | JNull => Some (JObject [(k, v)])
                      | JObject l => Some (JObject (put str_lt k v l))
                      | _ => None
                      end;
  push_back y n := match y with NNull => Some (NSequence [n]) | NSequence l => Some (NSequence (l ++ [n])) | _ => None end;
  set_key y k n := match y with
                   | NNull => Some (NMap [(k, n)])
                   | NMap l => if decide (k ∈ l.*1) then None else Some (NMap (l ++ [(k, n)]))
                   | _ => None
                   end;
  asString j := match j with JString s => Some s | JNull => Some [] | _ => None end;
  CZ_lt := str_lt }.

#[export] Instance plain_laws : ContainerLaws unit.
Proof. split; try done; [apply str_lt_total|]. intros l k n Hk. cbn. by rewrite decide_False. Defined.

Definition demo_doc : Node :=
  NMap [($"b", NSequence [NScalar ($"1"); NNull]); ($"a", NMap []); ($"b", NScalar ($"2"))].

Lemma yaml_json_round_trip_witness :
  ∃ j, YamlToJson (D := unit) demo_doc JNull = (j, true) ∧
    JsonToYaml j NNull = (NMap [($"a", NScalar []); ($"b", NScalar ($"2"))], true).
Proof.
  destruct (yaml_json_round_trip (D := unit) demo_doc) as (j & H1 & H2 & _).
  exists j. split; [exact H1|exact H2].
Defined.
