(* ===== verification/Protobuf.v ===== *)
(** * Protobuf messages as JSON: PBToJsonString (util.cpp)

    Reflection shows a message as the list of its fields in the order of the
    descriptor, each with its values, and its unknown fields.  A function that
    fills a [Json::Value&] takes the value and returns it; an exception of jsoncpp
    leaves all of them. *)
From S2P Require Import Prelude StdSet StringUtil JsonUtil Config Convert.
From Stdlib Require Import Sorted.

(** [google::protobuf::UnknownField]. *)
Inductive UnknownField : Type := mkUF (n : Z) (u : unknown_value)
with unknown_value : Type :=
  | TYPE_VARINT (z : Z)
  | TYPE_FIXED32 (z : Z)
  | TYPE_FIXED64 (z : Z)
  | TYPE_LENGTH_DELIMITED (v : str)
  | TYPE_GROUP (l : list UnknownField).
Definition number (uf : UnknownField) : Z := let '(mkUF n _) := uf in n.
Definition uvalue (uf : UnknownField) : unknown_value := let '(mkUF _ u) := uf in u.

(** A field is repeated, or has a value or not. *)
Inductive Field (V : Type) : Type :=
  | Repeated (l : list V)
  | Singular (o : option V).
Arguments Repeated {V}.
Arguments Singular {V}.

(** A value by its [cpp_type]; [F], [D]: [float] and [double]. *)
Inductive Value (F D : Type) : Type :=
  | INT32 (z : Z) | UINT32 (z : Z) | INT64 (z : Z) | UINT64 (z : Z)
  | FLOAT (f : F) | DOUBLE (d : D) | BOOL (b : bool)
  | ENUM (number : Z) | STRING (s : str)
  | MESSAGE (fields : list (str * Field (Value F D))) (unknown : list UnknownField).
Arguments INT32 {F D}.
Arguments UINT32 {F D}.
Arguments INT64 {F D}.
Arguments UINT64 {F D}.
Arguments FLOAT {F D}.
Arguments DOUBLE {F D}.
Arguments BOOL {F D}.
Arguments ENUM {F D}.
Arguments STRING {F D}.
Arguments MESSAGE {F D}.

(** [json[k]] as a reference: what it refers to, null when it is new; and the
    rest of the libraries: [UnknownFieldSet::ParseFromString], [(double)f],
    [Json::FastWriter]. *)
Class Reflection (F D : Type) : Type := {
  index : Json D → str → option (Json D);
  ParseFromString : str → option (list UnknownField);
  double_of : F → D;
  FastWriter : Json D → str }.

(** A jsoncpp exception. *)
Definition or_throw {A} (o : option A) : outcome A :=
  match o with Some a => Ret a | None => Throw ($"LogicError") end.

Fixpoint walk {X E} (f : X → E → outcome E) (l : list X) (e : E) : outcome E :=
  match l with [] => Ret e | x :: r => e' ← f x e; walk f r e' end.

Section Serialize.
Context {F D : Type} `{Containers D, Reflection F D}.

Definition assign (k : str) (v j : Json D) : outcome (Json D) := or_throw (set_member j k v).
(** [json[k].append(v)]. *)
Definition append_at (k : str) (v j : Json D) : outcome (Json D) :=
  e ← or_throw (index j k); e' ← or_throw (append e v); assign k e' j.

(** ** Unknown fields *)

(** [kvs[n].push_back(v)] on a [std::map<int, std::vector<Json::Value>>]. *)
Fixpoint push {A} (n : Z) (v : A) (kvs : list (Z * list A)) : list (Z * list A) :=
  match kvs with
  | [] => [(n, [v])]
  | (m, vs) :: r =>
      if m <? n then (m, vs) :: push n v r
      else if n <? m then (n, [v]) :: kvs
      else (m, vs ++ [v]) :: r
  end.

(** The second loop of [serialize_unknowfieldset]. *)
Definition put_group (kv : Z * list (Json D)) (j : Json D) : outcome (Json D) :=
  match kv.2 with
  | [v] => assign (decimal kv.1) v j
  | vs => walk (append_at (decimal kv.1)) vs j
  end.

(** One turn of the first loop; [rec] is the function itself. *)
Definition push_unknown (rec : list UnknownField → Json D → outcome (Json D)) (uf : UnknownField)
    (kvs : list (Z * list (Json D))) : outcome (list (Z * list (Json D))) :=
  match uvalue uf with
  | TYPE_VARINT z => Ret (push (number uf) (JInt (i64 z)) kvs)
  | TYPE_FIXED32 z => Ret (push (number uf) (JUInt (u32 z)) kvs)
  | TYPE_FIXED64 z => Ret (push (number uf) (JUInt (u64 z)) kvs)
  | TYPE_LENGTH_DELIMITED v =>
      match (if bool_decide (v = []) then None else ParseFromString v) with
      | Some tmp => vv ← rec tmp JNull; Ret (push (number uf) vv kvs)
      | None => Ret (push (number uf) (JString v) kvs)
      end
  | TYPE_GROUP _ => Ret kvs
  end.

(** [serialize_unknowfieldset]; [fuel] bounds the nesting of the payloads that
    parse. *)
Fixpoint serialize_unknowfieldset (fuel : nat) (ufs : list UnknownField) (jnode : Json D) : outcome (Json D) :=
  match fuel with
  | O => Undefined
  | S fuel =>
      kvs ← walk (push_unknown (serialize_unknowfieldset fuel)) ufs [];
      walk put_group kvs jnode
  end.

(** The longest payload bounds the nesting. *)
Definition payload (uf : UnknownField) : nat :=
  match uvalue uf with TYPE_LENGTH_DELIMITED v => length v | _ => 0 end.
Definition enough (ufs : list UnknownField) : nat := S (max_list (payload <$> ufs)).

(** ** Messages *)

(** One turn of the loop of [serialize_message]; [ser] converts a value. *)
Definition put_field (ser : Value F D → Json D → outcome (Json D)) (nf : str * Field (Value F D))
    (j : Json D) : outcome (Json D) :=
  match nf.2 with
  | Repeated l => walk (λ v j, e ← ser v JNull; append_at nf.1 e j) l j
  | Singular None => Ret j
  | Singular (Some v) => e ← or_throw (index j nf.1); e' ← ser v e; assign nf.1 e' j
  end.

(** [serialize_message], on the value it fills, and the conversions of the other
    values, which replace it. *)
Fixpoint serialize (v : Value F D) (jnode : Json D) : outcome (Json D) :=
  match v with
  | INT32 z | INT64 z | ENUM z => Ret (JInt z)
  | UINT32 z | UINT64 z => Ret (JUInt z)
  | FLOAT f => Ret (JReal (double_of f))
  | DOUBLE d => Ret (JReal d)
  | BOOL b => Ret (JBool b)
  | STRING s => Ret (JString s)
  | MESSAGE fields unknown =>
      j ← walk (put_field serialize) fields jnode;
      serialize_unknowfieldset (enough unknown) unknown j
  end.

(** [PBToJsonString]. *)
Definition PBToJsonString (message : Value F D) : outcome str :=
  j ← serialize message JNull; Ret (FastWriter j).
End Serialize.

(** ** Laws *)

(** The first value of a key. *)
Definition get {T} (k : str) (l : list (str * T)) : option T := snd <$> (snd <$> list_find (λ x, x.1 = k) l).

(** [operator[]] on null and on an object; what parses is shorter than its
    text, and its numbers are [int]s. *)
Definition int_number (uf : UnknownField) : Prop := -2 ^ 31 ≤ number uf < 2 ^ 31.
Class ReflectionLaws (F D : Type) `{ContainerLaws D, !Reflection F D} : Type := {
  index_null k : index JNull k = Some JNull;
  index_object l k : index (JObject l) k = Some (default JNull (get k l));
  parse_shorter v ufs : ParseFromString v = Some ufs →
    Forall (λ uf, (payload uf < length v)%nat ∧ int_number uf) ufs }.

Lemma get_cons {T} k (x : str * T) l : get k (x :: l) = if decide (x.1 = k) then Some x.2 else get k l.
Proof.
  unfold get. cbn. destruct (decide (x.1 = k)); [done|].
  by destruct (list_find _ l) as [[i y]|].
Qed.
Lemma get_None {T} k (l : list (str * T)) : k ∉ l.*1 → get k l = None.
Proof.
  induction l as [|x l IH]; [done|]. rewrite get_cons. cbn. rewrite not_elem_of_cons.
  intros [Hk Hl]. rewrite decide_False by done. by apply IH.
Qed.

Arguments get : simpl never.

Section Laws.
Context {F D : Type} `{ReflectionLaws F D}.
Local Existing Instance CZ_order.

Lemma get_put {T} k k' (v : T) l : get k' (put CZ_lt k v l) = if decide (k = k') then Some v else get k' l.
Proof.
  induction l as [|x l IH]; cbn [put]; [by rewrite get_cons|].
  destruct (CZ_lt x.1 k) eqn:E1; rewrite !get_cons; [rewrite IH|].
  - destruct (decide (k = k')) as [->|]; [|done]. rewrite decide_False; [done|]. intros E.
    by rewrite E, lt_irrefl in E1.
  - cbn. destruct (decide (k = k')) as [->|]; [done|].
    destruct (CZ_lt k x.1) eqn:E2; [by rewrite get_cons|]. rewrite decide_False; [done|]. intros E.
    assert (x.1 = k) by by apply (lt_total (P := λ _, True) (lt := CZ_lt)). congruence.
Qed.

Lemma put_put {T} k (a b : T) l : put CZ_lt k b (put CZ_lt k a l) = put CZ_lt k b l.
Proof.
  induction l as [|x l IH]; cbn; [by rewrite lt_irrefl|].
  destruct (CZ_lt x.1 k) eqn:E; cbn; [by rewrite E, IH|]. rewrite lt_irrefl. cbn.
  by destruct (CZ_lt k x.1).
Qed.

(** The object that these assignments made of null. *)
Definition obj (es : list (str * Json D)) : Json D := of_list JNull (λ l, JObject (put_all CZ_lt [] l)) es.
Definition member_at (j : Json D) (k : str) : option (Json D) := match j with JObject l => get k l | _ => None end.

Lemma put_all_snoc {T} (es : list (str * T)) k v m : put_all CZ_lt m (es ++ [(k, v)]) = put CZ_lt k v (put_all CZ_lt m es).
Proof. unfold put_all. by rewrite foldl_app. Qed.

Lemma obj_snoc es k v : obj (es ++ [(k, v)]) = JObject (put CZ_lt k v (put_all CZ_lt [] es)).
Proof. unfold obj. by rewrite of_list_snoc, put_all_snoc. Qed.

Lemma obj_assign es k v : assign k v (obj es) = Ret (obj (es ++ [(k, v)])).
Proof.
  rewrite obj_snoc. unfold assign. destruct es as [|e es]; [by rewrite (set_member_null k v)|].
  cbn [obj of_list]. by rewrite set_member_object.
Qed.

Lemma obj_again es k a b : obj ((es ++ [(k, a)]) ++ [(k, b)]) = obj (es ++ [(k, b)]).
Proof. by rewrite !obj_snoc, put_all_snoc, put_put. Qed.

Lemma get_put_all {T} k (es : list (str * T)) : ∀ m, NoDup es.*1 →
  get k (put_all CZ_lt m es) = match get k es with Some v => Some v | None => get k m end.
Proof.
  unfold put_all. induction es as [|[k' v] es IH]; intros m Hnd; [done|]. cbn in Hnd.
  apply NoDup_cons in Hnd as [Hk Hnd]. cbn [foldl fst snd]. rewrite IH, get_put, get_cons by done. cbn.
  destruct (decide (k' = k)) as [->|]; [by rewrite get_None|done].
Qed.

Lemma obj_member es k : NoDup es.*1 → member_at (obj es) k = get k es.
Proof.
  intros Hnd. destruct es as [|e es]; [done|]. cbn [obj of_list member_at].
  rewrite get_put_all by done. by destruct (get k (e :: es)).
Qed.

Lemma index_obj_new es k : k ∉ es.*1 → index (obj es) k = Some JNull.
Proof.
  intros Hk. destruct es as [|e es]; [exact (index_null k)|]. cbn [obj of_list]. rewrite index_object.
  assert (∀ m, k ∉ m.*1 → k ∉ (put_all CZ_lt m (e :: es)).*1) as Hput.
  { revert Hk. unfold put_all. generalize (e :: es). clear. intros es.
    induction es as [|[k' v] es IH]; intros Hk m Hm; cbn; [done|]. cbn in Hk. apply not_elem_of_cons in Hk as [Hne Hk].
    apply IH; [done|]. intros (y & -> & [->|Hy]%elem_of_put)%list_elem_of_fmap; [done|].
    apply Hm. by apply list_elem_of_fmap_2. }
  rewrite get_None; [done|]. by apply Hput, not_elem_of_nil.
Qed.

Lemma index_obj_last es k v : index (obj (es ++ [(k, v)])) k = Some v.
Proof. rewrite obj_snoc, index_object, get_put. by rewrite decide_True. Qed.

(** Appending to a member until all are in. *)
Lemma append_at_obj es k us v : us ≠ [] →
  append_at k v (obj (es ++ [(k, JArray us)])) = Ret (obj (es ++ [(k, JArray (us ++ [v]))])).
Proof.
  intros _. unfold append_at. rewrite index_obj_last. cbn. rewrite append_array. cbn.
  by rewrite obj_assign, obj_again.
Qed.

Lemma walk_append es k vs : k ∉ es.*1 → vs ≠ [] →
  walk (append_at k) vs (obj es) = Ret (obj (es ++ [(k, JArray vs)])).
Proof.
  intros Hk. destruct vs as [|v vs]; [done|]. intros _. cbn [walk].
  assert (append_at k v (obj es) = Ret (obj (es ++ [(k, JArray [v])]))) as ->.
  { unfold append_at. rewrite index_obj_new by done. cbn. rewrite append_null. cbn. apply obj_assign. }
  cbn [mbind outcome_bind]. change (v :: vs) with ([v] ++ vs). assert ([v] ≠ []) as Hne by done. revert Hne.
  generalize [v]. clear Hk v. induction vs as [|v vs IH]; intros us Hne; cbn [walk]; [by rewrite app_nil_r|].
  rewrite append_at_obj by done. cbn [mbind outcome_bind]. rewrite IH by (by destruct us).
  by rewrite <-app_assoc.
Qed.

Lemma walk_conv {X} (conv : X → outcome (Json D)) k l vs : Forall2 (λ x v, conv x = Ret v) l vs → ∀ j,
  walk (λ x j, e ← conv x; append_at k e j) l j = walk (append_at k) vs j.
Proof.
  induction 1 as [|x v l vs Hx _ IH]; intros j; cbn; [done|]. rewrite Hx. cbn.
  destruct (append_at k v j); cbn; [apply IH|done..].
Qed.

(** ** Unknown fields: grouped by number *)

Definition vals_of {A} (n : Z) (kvs : list (Z * list A)) : list A :=
  kvs ≫= λ kv, if decide (kv.1 = n) then kv.2 else [].
Definition groups_ok {A} (kvs : list (Z * list A)) : Prop :=
  StronglySorted Z.lt kvs.*1 ∧ Forall (λ kv, kv.2 ≠ []) kvs.

Lemma vals_of_cons {A} n (kv : Z * list A) kvs :
  vals_of n (kv :: kvs) = (if decide (kv.1 = n) then kv.2 else []) ++ vals_of n kvs.
Proof. done. Qed.

Arguments vals_of : simpl never.

Lemma vals_of_above {A} n (kvs : list (Z * list A)) : Forall (λ m, n < m) kvs.*1 → vals_of n kvs = [].
Proof.
  induction kvs as [|kv kvs IH]; [done|]. intros [Hn Hf]%Forall_cons.
  rewrite vals_of_cons, IH, decide_False by (done || lia). done.
Qed.

Lemma push_ok {A} n (v : A) kvs : groups_ok kvs →
  groups_ok (push n v kvs) ∧
  (∀ m, vals_of m (push n v kvs) = vals_of m kvs ++ if decide (m = n) then [v] else []) ∧
  ∀ m, m ∈ (push n v kvs).*1 → m = n ∨ m ∈ kvs.*1.
Proof.
  induction kvs as [|[m vs] kvs IH]; intros [Hs Hne].
  - split; [by repeat constructor|]. split; [|cbn; set_solver]. intros m. cbn [push]. rewrite vals_of_cons.
    change (vals_of m (@nil (Z * list A))) with (@nil A). cbn. rewrite app_nil_r.
    destruct (decide (n = m)), (decide (m = n)); congruence || done.
  - apply StronglySorted_inv in Hs as [Hs Hf]. apply Forall_cons in Hne as [Hvs Hne].
    destruct IH as ((Hs' & Hne') & Hv & Hin); [done|]. cbn [push].
    destruct (Z.ltb_spec m n); [|destruct (Z.ltb_spec n m)].
    + split; [|split].
      * split; [|by constructor]. cbn. constructor; [done|]. apply Forall_forall. intros k [->|Hk]%Hin; [done|].
        rewrite Forall_forall in Hf. by apply Hf.
      * intros k. by rewrite !vals_of_cons, Hv, app_assoc.
      * intros k. cbn. rewrite !elem_of_cons. intros [->|[->|Hk]%Hin]; auto.
    + split; [|split].
      * split; [|by repeat constructor]. cbn. constructor; [by constructor|].
        constructor; [done|]. eapply Forall_impl; [exact Hf|]. intros k Hk. cbn in Hk. lia.
      * intros k. rewrite !(vals_of_cons k). cbn [fst snd]. destruct (decide (n = k)) as [->|Hnk].
        -- rewrite decide_False, vals_of_above by (done || lia || (eapply Forall_impl; [exact Hf|]; cbn; lia)).
           by rewrite decide_True.
        -- rewrite (decide_False (P := k = n)) by congruence. by rewrite app_nil_r.
      * intros k. cbn. rewrite !elem_of_cons. tauto.
    + assert (m = n) as -> by lia. split; [|split].
      * split; [by constructor|]. constructor; [by destruct vs|done].
      * intros k. rewrite !vals_of_cons. cbn [fst snd]. destruct (decide (n = k)) as [->|Hnk].
        -- rewrite vals_of_above by done. rewrite decide_True by done. by rewrite !app_nil_r.
        -- rewrite (decide_False (P := k = n)) by congruence. by rewrite app_nil_r.
      * intros k. cbn. rewrite !elem_of_cons. tauto.
Qed.

Definition push_all {A} (vals : list (Z * A)) (kvs : list (Z * list A)) : list (Z * list A) :=
  foldl (λ kvs nv, push nv.1 nv.2 kvs) kvs vals.

Lemma push_all_ok {A} (vals : list (Z * A)) : ∀ kvs, groups_ok kvs →
  groups_ok (push_all vals kvs) ∧
  (∀ m, vals_of m (push_all vals kvs) = vals_of m kvs ++ (filter (λ nv, nv.1 = m) vals).*2) ∧
  ∀ m, m ∈ (push_all vals kvs).*1 → m ∈ vals.*1 ∨ m ∈ kvs.*1.
Proof.
  unfold push_all. induction vals as [|[n v] vals IH]; intros kvs Hk; cbn [foldl fst snd].
  - split; [done|]. split; [|by right]. intros m. by rewrite app_nil_r.
  - destruct (push_ok n v kvs Hk) as (Hk' & Hv & Hin). destruct (IH _ Hk') as (G1 & G2 & G3).
    split; [done|]. split.
    + intros m. rewrite G2, Hv, <-app_assoc, filter_cons. f_equal. cbn [fst].
      destruct (decide (m = n)), (decide (n = m)); congruence || done.
    + intros m [?|[->|?]%Hin]%G3; cbn; rewrite ?elem_of_cons; auto.
Qed.

(** What a number's values become. *)
Definition collect (vs : list (Json D)) : option (Json D) :=
  match vs with [] => None | [v] => Some v | _ => Some (JArray vs) end.

Lemma decimal_inj m n : -2 ^ 31 ≤ m < 2 ^ 31 → -2 ^ 31 ≤ n < 2 ^ 31 → decimal m = decimal n → m = n.
Proof.
  intros Hm Hn E. pose proof (Atoi_decimal m ltac:(lia)) as E1. rewrite E, Atoi_decimal in E1 by lia.
  rewrite !i64_small in E1 by lia. done.
Qed.

Lemma put_groups kvs : ∀ es,
  Forall (λ kv, kv.2 ≠ []) kvs → NoDup (es.*1 ++ ((λ kv : Z * list (Json D), decimal kv.1) <$> kvs)) →
  ∃ es', walk put_group kvs (obj es) = Ret (obj (es ++ es')) ∧
    Forall2 (λ kv e, e.1 = decimal kv.1 ∧ collect kv.2 = Some e.2) kvs es'.
Proof.
  induction kvs as [|[n vs] kvs IH]; intros es Hne Hnd; cbn [walk].
  - exists []. by rewrite app_nil_r.
  - apply Forall_cons in Hne as [Hvs Hne]. cbn in Hvs, Hnd.
    assert (Hn : decimal n ∉ es.*1) by (apply NoDup_app in Hnd as (_ & Hd & _); intros Hin; apply (Hd _ Hin); by left).
    assert (∃ e, collect vs = Some e ∧ put_group (n, vs) (obj es) = Ret (obj (es ++ [(decimal n, e)]))) as (e & Hc & ->).
    { destruct vs as [|v [|w vs]]; [done|..]; (eexists; split; [reflexivity|]); unfold put_group; cbn [fst snd].
      - apply obj_assign.
      - by apply walk_append. }
    cbn [mbind outcome_bind]. destruct (IH (es ++ [(decimal n, e)]) Hne) as (es' & Hr & Hes).
    { rewrite fmap_app, <-app_assoc. exact Hnd. }
    exists ((decimal n, e) :: es'). rewrite Hr, <-app_assoc. split; [done|]. by constructor.
Qed.

(** *** The fuel is enough *)

Lemma walk_ext {X E} (f g : X → E → outcome E) l : ∀ e,
  (∀ x e, x ∈ l → f x e = g x e) → walk f l e = walk g l e.
Proof.
  induction l as [|x l IH]; intros e Hfg; cbn; [done|]. rewrite Hfg by (by left).
  destruct (g x e); cbn; [|done..]. apply IH. intros; apply Hfg. by right.
Qed.

Lemma enough_payload uf v tmp :
  uvalue uf = TYPE_LENGTH_DELIMITED v → v ≠ [] → ParseFromString v = Some tmp → (enough tmp ≤ payload uf)%nat.
Proof.
  intros Hu Hv Hp. unfold payload. rewrite Hu. unfold enough.
  pose proof (parse_shorter v tmp Hp) as Hf. destruct tmp as [|x tmp]; [by destruct v; [|cbn; lia]|].
  assert (max_list (payload <$> x :: tmp) ∈ payload <$> x :: tmp) as (y & -> & Hy)%list_elem_of_fmap
    by by apply max_list_elem_of.
  rewrite Forall_forall in Hf. by apply Hf.
Qed.
Lemma payload_enough uf ufs : uf ∈ ufs → (payload uf < enough ufs)%nat.
Proof. intros Hin. apply Nat.lt_succ_r, max_list_elem_of_le. by apply list_elem_of_fmap_2. Qed.

Lemma serialize_fuel f1 : ∀ f2 ufs j, (enough ufs ≤ f1)%nat → (enough ufs ≤ f2)%nat →
  serialize_unknowfieldset f1 ufs j = serialize_unknowfieldset f2 ufs j.
Proof.
  induction f1 as [|f1 IH]; intros [|f2] ufs j H1' H2'; [unfold enough in *; lia..|].
  cbn [serialize_unknowfieldset].
  rewrite (walk_ext _ (push_unknown (serialize_unknowfieldset f2))); [done|].
  intros uf kvs Hin. unfold push_unknown. destruct (uvalue uf) as [| | |v|] eqn:Hu; try done.
  case_bool_decide as Hv; [done|]. destruct (ParseFromString v) as [tmp|] eqn:Hp; [|done].
  pose proof (payload_enough uf ufs Hin). pose proof (enough_payload uf v tmp Hu Hv Hp).
  rewrite (IH f2); [done|lia..].
Qed.

(** *** What unknown fields become *)

(** The members that are there, by key. *)
Definition present {X K} (key : X → K) (xs : list X) (os : list (option (Json D))) : list (K * Json D) :=
  omap id (zip_with (λ x o, pair (key x) <$> o) xs os).

Lemma present_cons {X K} (key : X → K) x xs o os :
  present key (x :: xs) (o :: os) = match o with Some v => (key x, v) :: present key xs os | None => present key xs os end.
Proof. by destruct o. Qed.

Lemma present_keys {X K} (key : X → K) xs : ∀ os k, k ∈ (present key xs os).*1 → ∃ x, x ∈ xs ∧ k = key x.
Proof.
  induction xs as [|x xs IH]; intros [|o os] k; try (by intros ?%elem_of_nil).
  rewrite present_cons. destruct o; cbn; [intros [->|Hk]%elem_of_cons|intros Hk].
  - exists x. split; [by left|done].
  - destruct (IH os k Hk) as (y & ? & ?). exists y. split; [by right|done].
  - destruct (IH os k Hk) as (y & ? & ?). exists y. split; [by right|done].
Qed.

Definition unknown_is (uf : UnknownField) (o : option (Json D)) : Prop :=
  match uvalue uf with
  | TYPE_VARINT z => o = Some (JInt (i64 z))
  | TYPE_FIXED32 z => o = Some (JUInt (u32 z))
  | TYPE_FIXED64 z => o = Some (JUInt (u64 z))
  | TYPE_LENGTH_DELIMITED v =>
      match (if bool_decide (v = []) then None else ParseFromString v) with
      | Some tmp => ∃ j, serialize_unknowfieldset (enough tmp) tmp JNull = Ret j ∧ o = Some j
      | None => o = Some (JString v)
      end
  | TYPE_GROUP _ => o = None
  end.

(** The members the unknown fields add to [es]. *)
Definition unknown_members (ufs : list UnknownField) (us : list (option (Json D))) (es' : list (str * Json D)) : Prop :=
  NoDup es'.*1 ∧
  (∀ n, -2 ^ 31 ≤ n < 2 ^ 31 → get (decimal n) es' = collect (filter (λ nv, nv.1 = n) (present number ufs us)).*2) ∧
  ∀ k, k ∈ es'.*1 → ∃ uf, uf ∈ ufs ∧ k = decimal (number uf).

Lemma groups_members kvs es' :
  groups_ok kvs → Forall (λ n, -2 ^ 31 ≤ n < 2 ^ 31) kvs.*1 →
  Forall2 (λ kv e, e.1 = decimal kv.1 ∧ collect kv.2 = Some e.2) kvs es' →
  NoDup es'.*1 ∧ (∀ n, -2 ^ 31 ≤ n < 2 ^ 31 → get (decimal n) es' = collect (vals_of n kvs)) ∧
  ∀ k, k ∈ es'.*1 → ∃ n, n ∈ kvs.*1 ∧ k = decimal n.
Proof.
  intros Hok Hr Hes. induction Hes as [|[m vs] [k e] kvs es' [Hk He] Hes IH].
  - split; [constructor|]. split; [done|]. by intros k ?%elem_of_nil.
  - destruct Hok as [Hs Hne]. apply StronglySorted_inv in Hs as [Hs Hf]. apply Forall_cons in Hne as [Hvs Hne].
    apply Forall_cons in Hr as [Hm Hr]. cbn in Hk, He, Hm, Hf. subst k.
    destruct IH as (Hnd & Hg & Hin); [done|done|]. cbn.
    assert (Hfr : ∀ n, n ∈ kvs.*1 → -2 ^ 31 ≤ n < 2 ^ 31 ∧ m < n).
    { intros n Hn. rewrite Forall_forall in Hr, Hf. auto. }
    split; [|split].
    + constructor; [|done]. intros (n & Hn & E)%Hin. destruct (Hfr n Hn). apply decimal_inj in E; lia.
    + intros n Hn. rewrite get_cons, vals_of_cons. cbn [fst snd]. destruct (decide (m = n)) as [<-|Hmn].
      * rewrite decide_True by done. rewrite vals_of_above by done. by rewrite app_nil_r.
      * rewrite decide_False; [by apply Hg|]. intros E. by apply Hmn, decimal_inj.
    + intros k [->|Hk]%elem_of_cons; [exists m; split; [by left|done]|].
      destruct (Hin k Hk) as (n & ? & ?). exists n. split; [by right|done].
Qed.

Lemma push_unknown_all ufs us : ∀ f kvs,
  Forall2 unknown_is ufs us → (∀ uf, uf ∈ ufs → payload uf < S f)%nat →
  walk (push_unknown (serialize_unknowfieldset f)) ufs kvs = Ret (push_all (present number ufs us) kvs).
Proof.
  intros f kvs Hus. revert kvs. induction Hus as [|uf o ufs us Ho Hus IH]; intros kvs Hf; cbn [walk]; [done|].
  assert (push_unknown (serialize_unknowfieldset f) uf kvs =
          Ret (match o with Some v => push (number uf) v kvs | None => kvs end)) as ->.
  { unfold unknown_is in Ho. unfold push_unknown. assert (payload uf < S f)%nat as Hp by (apply Hf; by left).
    unfold payload in Hp. destruct (uvalue uf) as [z|z|z|v|l] eqn:Hu; try by rewrite Ho.
    case_bool_decide as Hv; [by rewrite Ho|]. destruct (ParseFromString v) as [tmp|] eqn:Ep; [|by rewrite Ho].
    destruct Ho as (j & Hj & ->).
    pose proof (enough_payload uf v tmp Hu Hv Ep) as He. unfold payload in He. rewrite Hu in He.
    rewrite (serialize_fuel f (enough tmp)), Hj by lia. done. }
  cbn [mbind outcome_bind]. rewrite IH by (intros; apply Hf; by right).
  rewrite present_cons. by destruct o.
Qed.

Lemma unknown_exists f : ∀ ufs, (enough ufs ≤ f)%nat → Forall int_number ufs →
  ∀ es, NoDup es.*1 → (∀ uf, uf ∈ ufs → decimal (number uf) ∉ es.*1) →
  ∃ us es', serialize_unknowfieldset (enough ufs) ufs (obj es) = Ret (obj (es ++ es')) ∧
    Forall2 unknown_is ufs us ∧ unknown_members ufs us es'.
Proof.
  induction f as [|f IH]; intros ufs Hf Hint es Hnd Hfresh; [unfold enough in Hf; lia|].
  assert (∃ us, Forall2 unknown_is ufs us) as [us Hus].
  { assert (∀ uf, uf ∈ ufs → ∃ o, unknown_is uf o) as Hex.
    { intros uf Hin. unfold unknown_is. destruct (uvalue uf) as [z|z|z|v|l] eqn:Hu; try by eexists.
      case_bool_decide as Hv; [by eexists|]. destruct (ParseFromString v) as [tmp|] eqn:Ep; [|by eexists].
      pose proof (payload_enough uf ufs Hin). pose proof (enough_payload uf v tmp Hu Hv Ep).
      destruct (IH tmp ltac:(lia)) with (es := @nil (str * Json D)) as (us & es' & Hr & _).
      - pose proof (parse_shorter v tmp Ep) as Hp. eapply Forall_impl; [exact Hp|]. by intros x [].
      - constructor.
      - intros ? _. apply not_elem_of_nil.
      - exists (Some (obj es')). exists (obj es'). by split. }
    clear -Hex. induction ufs as [|uf ufs IHu]; [by exists []|].
    destruct (Hex uf) as [o Ho]; [by left|]. destruct IHu as [us Hus]; [intros; apply Hex; by right|].
    exists (o :: us). by constructor. }
  destruct (push_all_ok (present number ufs us) []) as (Hg & Hv & Hk); [by repeat constructor|].
  set (kvs := push_all (present number ufs us) []) in *.
  assert (Hkeys : ∀ n, n ∈ kvs.*1 → ∃ uf, uf ∈ ufs ∧ n = number uf).
  { intros n [Hn|Hn]%Hk; [by eapply present_keys|by apply elem_of_nil in Hn]. }
  assert (Hr : Forall (λ n, -2 ^ 31 ≤ n < 2 ^ 31) kvs.*1).
  { apply Forall_forall. intros n (uf & Hin & ->)%Hkeys. rewrite Forall_forall in Hint. by apply Hint. }
  assert (Hall : NoDup (es.*1 ++ ((λ kv : Z * list (Json D), decimal kv.1) <$> kvs))).
  { apply NoDup_app. split; [done|]. split.
    - intros k Hin (kv & -> & Hkv)%list_elem_of_fmap.
      destruct (Hkeys kv.1) as (uf & Huf & E); [by apply list_elem_of_fmap_2|]. rewrite E in Hin. by apply (Hfresh uf).
    - destruct Hg as [Hs _]. clear -Hs Hr. induction kvs as [|kv kvs IHk]; cbn; [constructor|].
      cbn in Hs, Hr. apply StronglySorted_inv in Hs as [Hs Hf']. apply Forall_cons in Hr as [Hm Hr].
      constructor; [|by apply IHk]. intros (kv' & E & Hin)%list_elem_of_fmap.
      apply (list_elem_of_fmap_2 fst) in Hin. rewrite Forall_forall in Hr, Hf'.
      apply decimal_inj in E; [|done|by apply Hr]. specialize (Hf' _ Hin). lia. }
  destruct (put_groups kvs es (proj2 Hg) Hall) as (es' & Hrun & Hes). exists us, es'. split; [|split; [done|]].
  - unfold enough. cbn [serialize_unknowfieldset]. rewrite (push_unknown_all ufs us); [exact Hrun|done|].
    intros uf Hin. by apply payload_enough.
  - destruct (groups_members kvs es' Hg Hr Hes) as (Hnd' & Hget & Hin). split; [done|]. split.
    + intros n Hn. rewrite Hget, Hv by done. done.
    + intros k (n & Hn & ->)%Hin. destruct (Hkeys n Hn) as (uf & ? & ->). eauto.
Qed.

(** ** Messages *)

(** What a field becomes. *)
Definition field_is (nf : str * Field (Value F D)) (o : option (Json D)) : Prop :=
  match nf.2 with
  | Repeated [] | Singular None => o = None
  | Repeated l => ∃ js, Forall2 (λ v j, serialize v JNull = Ret j) l js ∧ o = Some (JArray js)
  | Singular (Some v) => ∃ j, serialize v JNull = Ret j ∧ o = Some j
  end.

Lemma put_field_obj nf o es : field_is nf o → nf.1 ∉ es.*1 →
  put_field serialize nf (obj es) = Ret (obj (match o with Some v => es ++ [(nf.1, v)] | None => es end)).
Proof.
  destruct nf as [k [l|[v|]]]; unfold field_is, put_field; cbn [fst snd]; intros Ho Hk.
  - destruct l as [|v l]; [by rewrite Ho|]. destruct Ho as (js & Hjs & ->).
    rewrite (walk_conv (λ v, serialize v JNull) k (v :: l) js Hjs). apply walk_append; [done|].
    intros ->. by apply Forall2_nil_inv_r in Hjs.
  - destruct Ho as (j & Hj & ->). rewrite index_obj_new by done. cbn. rewrite Hj. cbn. apply obj_assign.
  - by rewrite Ho.
Qed.

Lemma put_fields fs os : Forall2 field_is fs os → ∀ es, NoDup (es.*1 ++ fs.*1) →
  walk (put_field serialize) fs (obj es) = Ret (obj (es ++ present fst fs os)).
Proof.
  induction 1 as [|nf o fs os Ho Hos IH]; intros es Hnd; cbn [walk]; [by rewrite app_nil_r|].
  cbn in Hnd. assert (Hk : nf.1 ∉ es.*1).
  { apply NoDup_app in Hnd as (_ & Hd & _). intros Hin. apply (Hd _ Hin). by left. }
  rewrite (put_field_obj nf o es Ho Hk). cbn [mbind outcome_bind]. rewrite present_cons. rewrite IH.
  - destruct o; [by rewrite <-app_assoc|done].
  - destruct o; [rewrite fmap_app, <-app_assoc; exact Hnd|].
    apply NoDup_app in Hnd as (Hes & Hd & Hfs). apply NoDup_cons in Hfs as [_ Hfs].
    apply NoDup_app. split; [done|]. split; [|done]. intros k Hin Hin'. apply (Hd k Hin). by right.
Qed.

Definition values {V} (f : Field V) : list V := match f with Repeated l => l | Singular o => option_list o end.

(** What a descriptor guarantees, at every depth: the names of the fields differ
    from each other and from any number, and the numbers are [int]s. *)
Inductive message_ok : Value F D → Prop :=
  | scalar_ok v : (∀ fs ufs, v ≠ MESSAGE fs ufs) → message_ok v
  | fields_ok fs ufs :
      NoDup fs.*1 → (∀ n, decimal n ∉ fs.*1) → Forall int_number ufs →
      Forall (λ nf, Forall message_ok (values nf.2)) fs → message_ok (MESSAGE fs ufs).

(** Induction on a value that reaches the values of its fields. *)
Lemma Value_ind' (P : Value F D → Prop) :
  (∀ v, (∀ fs ufs, v ≠ MESSAGE fs ufs) → P v) →
  (∀ fs ufs, Forall (λ nf, Forall P (values nf.2)) fs → P (MESSAGE fs ufs)) → ∀ v, P v.
Proof.
  intros Hs Hm. fix IH 1. intros [z|z|z|z|f|d|b|z|s|fs ufs]; try (by apply Hs). apply Hm.
  induction fs as [|[k f] fs IHfs]; constructor; [|exact IHfs]. cbn.
  destruct f as [l|[v|]]; cbn; [|by constructor; [apply IH|constructor]|constructor].
  induction l as [|v l IHl]; constructor; [apply IH|exact IHl].
Qed.

Lemma field_exists (nf : str * Field (Value F D)) :
  Forall (λ v, ∃ j, serialize v JNull = Ret j) (values nf.2) → ∃ o, field_is nf o.
Proof.
  destruct nf as [k [l|[v|]]]; unfold field_is; cbn [fst snd values option_list]; intros Hv.
  - assert (∃ js, Forall2 (λ v j, serialize v JNull = Ret j) l js) as [js Hjs].
    { induction Hv as [|v l [j Hj] _ [js Hjs]]; [by exists []|]. exists (j :: js). by constructor. }
    destruct l; eauto.
  - apply Forall_singleton in Hv as [j Hj]. eauto.
  - eauto.
Qed.

Lemma present_names {X} (fs : list (str * X)) os k : k ∈ (present fst fs os).*1 → k ∈ fs.*1.
Proof. intros (nf & Hnf & ->)%present_keys. by apply list_elem_of_fmap_2. Qed.

Lemma present_NoDup {X} (fs : list (str * X)) : ∀ os, NoDup fs.*1 → NoDup (present fst fs os).*1.
Proof.
  induction fs as [|nf fs IH]; intros [|o os] Hnd; try constructor. cbn in Hnd.
  apply NoDup_cons in Hnd as [Hn Hnd]. rewrite present_cons. destruct o; [|by apply IH]. cbn.
  constructor; [|by apply IH]. intros Hin. by apply Hn, (present_names fs os).
Qed.

(** The members of the object a message becomes. *)
Lemma message_members fs ufs os us es' :
  Forall2 field_is fs os → NoDup fs.*1 → (∀ n, decimal n ∉ fs.*1) → unknown_members ufs us es' →
  let j := obj (present fst fs os ++ es') in
  (∀ nf o, (nf, o) ∈ zip fs os → member_at j nf.1 = o) ∧
  (∀ n, -2 ^ 31 ≤ n < 2 ^ 31 →
     member_at j (decimal n) = collect (filter (λ nv, nv.1 = n) (present number ufs us)).*2) ∧
  (∀ k, k ∉ fs.*1 → (∀ uf, uf ∈ ufs → k ≠ decimal (number uf)) → member_at j k = None).
Proof.
  intros Hos Hnd Hdec (Hnd' & Hget & Hin) j.
  pose proof (present_names fs os) as Hpk.
  pose proof (present_NoDup fs os Hnd) as Hpn.
  assert (Hall : NoDup (present fst fs os ++ es').*1).
  { rewrite fmap_app. apply NoDup_app. split; [done|]. split; [|done].
    intros k Hk1%Hpk (uf & _ & ->)%Hin. by apply (Hdec (number uf)). }
  assert (Hget_app : ∀ k, member_at j k = match get k (present fst fs os) with Some v => Some v | None => get k es' end).
  { intros k. unfold j. rewrite obj_member by done. clear. induction (present fst fs os) as [|x l IH]; [done|].
    cbn [app]. rewrite !get_cons. by destruct (decide (x.1 = k)). }
  assert (Hfields : ∀ nf o, (nf, o) ∈ zip fs os → get nf.1 (present fst fs os) = o).
  { clear -Hnd Hos. induction Hos as [|nf o fs os _ Hos IH]; intros nf' o'; [by intros ?%elem_of_nil|].
    cbn in Hnd. apply NoDup_cons in Hnd as [Hn Hnd]. rewrite present_cons.
    intros [[= -> ->]|Hz]%elem_of_cons.
    - destruct o; [by rewrite get_cons, decide_True|]. apply get_None. intros (x & Hx & E)%present_keys.
      apply Hn. rewrite E. by apply list_elem_of_fmap_2.
    - destruct o; [|by apply IH]. rewrite get_cons, decide_False; [by apply IH|]. cbn. intros E.
      apply Hn. rewrite E. apply list_elem_of_fmap_2. by apply elem_of_zip_l in Hz. }
  split; [|split].
  - intros nf o Hz. rewrite Hget_app, (Hfields nf o Hz). destruct o; [done|]. apply get_None.
    intros (uf & _ & E)%Hin. apply (Hdec (number uf)). rewrite <-E. apply list_elem_of_fmap_2.
    by apply elem_of_zip_l in Hz.
  - intros n Hn. rewrite Hget_app, get_None; [by apply Hget|]. intros ?%Hpk. by apply (Hdec n).
  - intros k Hk Hu. rewrite Hget_app, get_None by auto. apply get_None. intros (uf & ? & ->)%Hin. by apply (Hu uf).
Qed.

Lemma message_serializes fs ufs :
  NoDup fs.*1 → (∀ n, decimal n ∉ fs.*1) → Forall int_number ufs →
  Forall (λ nf, Forall (λ v, ∃ j, serialize v JNull = Ret j) (values nf.2)) fs →
  ∃ os us es', serialize (MESSAGE fs ufs) JNull = Ret (obj (present fst fs os ++ es')) ∧
    Forall2 field_is fs os ∧ Forall2 unknown_is ufs us ∧ unknown_members ufs us es'.
Proof.
  intros Hnd Hdec Hint Hv.
  assert (∃ os, Forall2 field_is fs os) as [os Hos].
  { clear -Hv. induction Hv as [|nf fs [o Ho]%field_exists _ [os Hos]]; [by exists []|]. exists (o :: os). by constructor. }
  pose proof (present_names fs os) as Hpk.
  pose proof (present_NoDup fs os Hnd) as Hpn.
  destruct (unknown_exists (enough ufs) ufs (le_n _) Hint (present fst fs os)) as (us & es' & Hr & Hus & Hm).
  - done.
  - intros uf _ Hin%Hpk. by apply (Hdec (number uf)).
  - exists os, us, es'. split; [|done]. cbn [serialize].
    change (@JNull D) with (obj []). rewrite (put_fields fs os Hos []) by done. exact Hr.
Qed.

Lemma ok_serializes v : message_ok v → ∃ j, serialize v JNull = Ret j.
Proof.
  induction v as [v Hs|fs ufs IH] using Value_ind'; intros Hok.
  - destruct v as [z|z|z|z|f|d|b|z|s|fs ufs]; try by eexists. by destruct (Hs fs ufs).
  - inversion Hok as [? Hno|? ? Hnd Hdec Hint Hv]; subst; [by destruct (Hno fs ufs)|].
    destruct (message_serializes fs ufs Hnd Hdec Hint) as (os & us & es' & Hr & _); [|by eexists].
    clear -IH Hv. induction Hv as [|nf fs Hnf Hv IHv]; [constructor|].
    apply Forall_cons in IH as [IHnf IH]. constructor; [|by apply IHv].
    clear -IHnf Hnf. induction Hnf as [|v l Hv Hl IHl]; constructor; apply Forall_cons in IHnf as [H1' H2']; auto.
Qed.

(** C27: a message becomes the JSON object of its fields.  [PBToJsonString] always
    comes back.  A field that is present is the member of its name - the array of
    its values in order when it is repeated, nested messages converted the same
    way - and an absent or empty one is no member.  The values of an unknown
    number are the member named by the number, as an array when there are several;
    a payload that parses as a message is shown as one.  There is nothing else. *)
Theorem message_to_json fs ufs :
  message_ok (MESSAGE fs ufs) →
  ∃ j os us, serialize (MESSAGE fs ufs) JNull = Ret j ∧
    PBToJsonString (MESSAGE fs ufs) = Ret (FastWriter j) ∧
    Forall2 field_is fs os ∧ Forall2 unknown_is ufs us ∧
    (∀ nf o, (nf, o) ∈ zip fs os → member_at j nf.1 = o) ∧
    (∀ n, -2 ^ 31 ≤ n < 2 ^ 31 →
       member_at j (decimal n) = collect (filter (λ nv, nv.1 = n) (present number ufs us)).*2) ∧
    (∀ k, k ∉ fs.*1 → (∀ uf, uf ∈ ufs → k ≠ decimal (number uf)) → member_at j k = None).
Proof.
  intros Hok. inversion Hok as [? Hno|? ? Hnd Hdec Hint Hv]; subst; [by destruct (Hno fs ufs)|].
  destruct (message_serializes fs ufs Hnd Hdec Hint) as (os & us & es' & Hr & Hos & Hus & Hm).
  { eapply Forall_impl; [exact Hv|]. intros nf Hnf. eapply Forall_impl; [exact Hnf|]. apply ok_serializes. }
  exists (obj (present fst fs os ++ es')), os, us. split; [done|]. split; [unfold PBToJsonString; by rewrite Hr|].
  do 2 (split; [done|]). by apply message_members.
Qed.
End Laws.

(** No payload parses, and what is written is empty. *)
#[export] Instance plain_reflection : Reflection unit unit := {
  index j k := match j with JNull => Some JNull | JObject l => Some (default JNull (get k l)) | _ => None end;
  ParseFromString _ := None;
  double_of f := f;
  FastWriter _ := [] }.
#[export] Instance plain_reflection_laws : ReflectionLaws unit unit.
Proof. by split. Defined.

(** A repeated field, an absent one, a nested message, and the number 7 twice. *)
Definition demo_fields : list (str * Field (Value unit unit)) :=
  [($"ids", Repeated [INT32 3; INT32 4]); ($"name", Singular None);
   ($"inner", Singular (Some (MESSAGE [($"flag", Singular (Some (BOOL true)))] [])))].
Definition demo_unknown : list UnknownField :=
  [mkUF 7 (TYPE_VARINT (2 ^ 64 - 1)); mkUF 9 (TYPE_LENGTH_DELIMITED []); mkUF 7 (TYPE_FIXED32 1)].

Lemma decimal_digits_last f n : ∃ l d, decimal_digits (S f) n = l ++ [chr (48 + d)] ∧ 0 ≤ d < 10.
Proof. eexists _, (n mod 10). split; [reflexivity|]. by apply Z.mod_pos_bound. Qed.

(** A name that does not end with a digit is not a number. *)
Lemma decimal_not_name n s c : isdigit c = false → decimal n ≠ s ++ [c].
Proof.
  intros Hc. unfold decimal.
  assert (Hd : ∀ m l, l ++ decimal_digits 20 m ≠ s ++ [c]).
  { intros m l. destruct (decimal_digits_last 19 m) as (l' & d & -> & Hd). rewrite app_assoc.
    intros [_ E]%app_inj_tail. destruct (isdigit_chr d Hd) as [E' _]. rewrite E in E'. congruence. }
  destruct (n <? 0); [exact (Hd (- n) ["-"%char])|exact (Hd n [])].
Qed.

Lemma demo_message_ok : message_ok (MESSAGE demo_fields demo_unknown).
Proof.
  assert (Hs : ∀ l : list (Value unit unit), Forall (λ v, ∀ fs ufs, v ≠ MESSAGE fs ufs) l → Forall message_ok l)
    by (intros l Hl; eapply Forall_impl; [exact Hl|]; intros v Hv; by constructor 1).
  constructor 2.
  - by apply (bool_decide_unpack _).
  - intros n. unfold demo_fields. cbn. rewrite !not_elem_of_cons.
    split_and!; [apply (decimal_not_name n ($"id") "s")|apply (decimal_not_name n ($"nam") "e")|
                 apply (decimal_not_name n ($"inne") "r")|apply not_elem_of_nil]; done.
  - unfold demo_unknown, int_number. repeat constructor; cbn; lia.
  - constructor; [apply Hs; by repeat constructor|]. constructor; [constructor|].
    constructor; [|constructor]. constructor; [|constructor]. constructor 2.
    + by apply (bool_decide_unpack _).
    + intros n. cbn. rewrite not_elem_of_cons. split; [by apply (decimal_not_name n ($"fla") "g")|apply not_elem_of_nil].
    + constructor.
    + constructor; [apply Hs; by repeat constructor|constructor].
Qed.

Lemma message_to_json_witness :
  ∃ j, serialize (MESSAGE demo_fields demo_unknown) JNull = Ret j ∧
    member_at j ($"ids") = Some (JArray [JInt 3; JInt 4]) ∧ member_at j ($"name") = None ∧
    member_at j (decimal 7) = Some (JArray [JInt (-1); JUInt 1]).
Proof.
  destruct (message_to_json demo_fields demo_unknown demo_message_ok) as (j & os & us & Hr & _).
  exists j. split; [exact Hr|].
  assert (E : serialize (MESSAGE demo_fields demo_unknown) JNull =
    Ret (JObject [($"7", JArray [JInt (-1); JUInt 1]); ($"9", JString []); ($"ids", JArray [JInt 3; JInt 4]);
                  ($"inner", JObject [($"flag", JBool true)])])) by by vm_compute.
  rewrite E in Hr. injection Hr as <-. by vm_compute.
Defined.
