(* ===== verification/LogConf.v ===== *)
(** * Log definitions as YAML: the LexicalCasts of LogDefine (log.cpp)

    They stand between a configuration document and the listener of Logger.v. *)
From S2P Require Import Prelude LogFormat Logger Config.

(** [node["key"]]: subscripting a scalar throws [BadSubscript]. *)
Definition sub (n : Node) (k : str) : outcome (option Node) :=
  match n with NScalar _ => Throw ($"operator[] call on a scalar") | _ => Ret (member n k) end.

(** [node.as<std::string>()]. *)
Definition as_string (n : Node) : outcome str :=
  match n with NScalar s => Ret s | NNull => Ret ($"null") | _ => Throw ($"bad conversion") end.

Definition as_string_or (o : option Node) (d : str) : outcome str :=
  match o with Some n => as_string n | None => Ret d end.

Section Casts.
Context `{Yaml}.

(** One turn of the loop over [appenders]: [None] is a [continue]. *)
Definition appender_define (a : Node) : outcome (option LogAppenderDefine) :=
  ty ← sub a ($"type");
  match ty with
  | None => Ret None
  | Some t =>
      type ← as_string t;
      if bool_decide (type = $"FileLogAppender") then
        fl ← sub a ($"file");
        match fl with
        | None => Ret None
        | Some f =>
            file ← as_string f;
            fm ← sub a ($"formatter");
            fmt ← as_string_or fm [];
            Ret (Some (mkLAD 1 UNKNOW fmt file))
        end
      else if bool_decide (type = $"StdoutLogAppender") then
        fm ← sub a ($"formatter");
        fmt ← as_string_or fm [];
        Ret (Some (mkLAD 2 UNKNOW fmt []))
      else Ret None
  end.

(** [LexicalCast<std::string, LogDefine>]. *)
Definition LogDefine_of_string (v : str) : outcome LogDefine :=
  node ← Load v;
  nm ← sub node ($"name");
  match nm with
  | None => Throw ($"log config name is null")
  | Some n =>
      name ← as_string n;
      lv ← sub node ($"level");
      level ← as_string_or lv ($" ");
      fm ← sub node ($"formatter");
      fmt ← as_string_or fm [];
      ap ← sub node ($"appenders");
      l ← match ap with
          | None => Ret []
          | Some aps => each (λ i, a ← nindex aps i; appender_define a) (seq 0 (nsize aps))
          end;
      Ret (mkLD name (FromString level) fmt (omap id l))
  end.

(** A node that was assigned these members: none leaves it null. *)
Definition map_node (l : list (str * Node)) : Node := match l with [] => NNull | _ => NMap l end.

Definition level_entry (l : Level) : list (str * Node) :=
  if decide (l = UNKNOW) then [] else [($"level", NScalar (ToString l))].
Definition formatter_entry (f : str) : list (str * Node) :=
  if bool_decide (f = []) then [] else [($"formatter", NScalar f)].

Definition appender_node (a : LogAppenderDefine) : Node :=
  map_node
    ((if atype a =? 1 then [($"type", NScalar ($"FileLogAppender")); ($"file", NScalar (afile a))]
      else if atype a =? 2 then [($"type", NScalar ($"StdoutLogAppender"))]
      else []) ++ level_entry (alevel a) ++ formatter_entry (aformatter a)).

Definition LogDefine_node (d : LogDefine) : Node :=
  NMap ((($"name", NScalar (dname d)) :: level_entry (dlevel d) ++ formatter_entry (dformatter d)) ++
        (if bool_decide (dappenders d = []) then []
         else [($"appenders", NSequence (appender_node <$> dappenders d))])).

(** [LexicalCast<LogDefine, std::string>]. *)
Definition LogDefine_to_string (d : LogDefine) : outcome str := Ret (Emit (LogDefine_node d)).

#[export] Instance LogDefine_cast : LexicalCast LogDefine := {
  from_string := LogDefine_of_string;
  to_string := LogDefine_to_string }.
End Casts.

(** What reading back keeps of an appender: not its level. *)
Definition without_level (a : LogAppenderDefine) : LogAppenderDefine :=
  mkLAD (atype a) UNKNOW (aformatter a) (if atype a =? 1 then afile a else []).

Lemma FromString_ToString l : FromString (ToString l) = l.
Proof. by destruct l. Qed.

Lemma appender_define_node a : atype a = 1 ∨ atype a = 2 →
  appender_define (appender_node a) = Ret (Some (without_level a)).
Proof.
  destruct a as [ty lv fm fl]. cbn [atype]. unfold appender_node, without_level, level_entry, formatter_entry.
  cbn [atype alevel aformatter afile].
  intros [->| ->]; destruct (decide (lv = UNKNOW)) as [->|Hlv]; destruct (decide (fm = [])) as [->|Hfm];
    rewrite ?bool_decide_true, ?bool_decide_false by done; (try (destruct lv; [done|..])); reflexivity.
Qed.

(** ** Reading a printed definition *)

(** The entry of a formatter: left out, or the pattern. *)
Definition formatter_as (fe : list (str * Node)) (fmt : str) : Prop :=
  fe = [] ∧ fmt = [] ∨ fe = [($"formatter", NScalar fmt)].

Lemma formatter_entry_as f : formatter_as (formatter_entry f) f.
Proof. unfold formatter_entry. destruct (decide (f = [])) as [->|]; [by left|rewrite bool_decide_false by done; by right]. Qed.

Definition define_node (name : str) (lv : Level) (fe : list (str * Node)) (aps : list Node) : Node :=
  NMap ((($"name", NScalar name) :: level_entry lv ++ fe) ++
        match aps with [] => [] | _ => [($"appenders", NSequence aps)] end).

Lemma sub_entries name lv fe fmt aps : formatter_as fe fmt →
  let n := define_node name lv fe aps in
  sub n ($"name") = Ret (Some (NScalar name)) ∧
  (v ← sub n ($"level"); as_string_or v ($" ")) = Ret (if decide (lv = UNKNOW) then $" " else ToString lv) ∧
  (v ← sub n ($"formatter"); as_string_or v []) = Ret fmt ∧
  sub n ($"appenders") = Ret (match aps with [] => None | _ => Some (NSequence aps) end).
Proof.
  unfold define_node, level_entry. intros [[-> ->]| ->];
    destruct (decide (lv = UNKNOW)), aps; split_and!; reflexivity.
Qed.

(** Reading it gives its parts back. *)
Lemma read_define `{Yaml} name lv fe fmt aps ds :
  (∀ n, Load (Emit n) = Ret n) → formatter_as fe fmt →
  Forall2 (λ a d, appender_define a = Ret (Some d)) aps ds →
  LogDefine_of_string (Emit (define_node name lv fe aps)) = Ret (mkLD name lv fmt ds).
Proof.
  intros HL Hfe Hds. unfold LogDefine_of_string. rewrite HL. cbn [mbind outcome_bind].
  destruct (sub_entries name lv fe fmt aps Hfe) as (En & El & Ef & Ea).
  apply bind_Ret in El as (l1 & El & El'), Ef as (f1 & Ef & Ef').
  rewrite En, El, Ef. cbn [mbind outcome_bind as_string]. rewrite El'. cbn [mbind outcome_bind].
  rewrite Ef'. cbn [mbind outcome_bind]. rewrite Ea. cbn [mbind outcome_bind].
  assert (FromString (if decide (lv = UNKNOW) then $" " else ToString lv) = lv) as ->
    by (destruct (decide (lv = UNKNOW)) as [->|]; [done|apply FromString_ToString]).
  destruct aps as [|a aps]; [by apply Forall2_nil_inv_l in Hds as ->|].
  rewrite (each_Ret _ _ (Some <$> ds)).
  - cbn [mbind outcome_bind]. do 2 f_equal. clear. induction ds as [|x l IH]; cbn; [done|by f_equal].
  - apply Forall2_same_length_lookup_2.
    + rewrite length_seq, length_fmap. cbn [nsize]. by apply Forall2_length in Hds.
    + intros i j y Hi Hy. apply lookup_seq in Hi as [-> _]. cbn [nindex Nat.add].
      rewrite list_lookup_fmap in Hy. destruct (ds !! i) as [d|] eqn:Ed; [|done]. injection Hy as <-.
      destruct (Forall2_lookup_r _ _ _ _ _ Hds Ed) as (x & Hx & Hr). rewrite Hx. exact Hr.
Qed.

(** C24: a log definition survives its own YAML except for the levels of its
    appenders.  Its name, level, formatter and the kind, file and formatter of
    every appender come back; but the reader never looks at the [level] that the
    writer writes and the listener would apply, so a configured appender level is
    lost. *)
Theorem LogDefine_round_trip `{Yaml} (d : LogDefine) :
  (∀ n, Load (Emit n) = Ret n) → types_ok d →
  ∃ s, to_string d = Ret s ∧
    from_string s = Ret (mkLD (dname d) (dlevel d) (dformatter d) (without_level <$> dappenders d)).
Proof.
  intros HL Hty. eexists. split; [done|].
  assert (LogDefine_node d = define_node (dname d) (dlevel d) (formatter_entry (dformatter d))
                               (appender_node <$> dappenders d)) as ->.
  { unfold LogDefine_node, define_node. f_equal. f_equal. by destruct (dappenders d). }
  apply read_define; [done|apply formatter_entry_as|]. apply Forall2_fmap, Forall_Forall2_diag.
  eapply Forall_impl; [exact Hty|]. intros a Ha. by apply appender_define_node.
Qed.

Lemma LogDefine_round_trip_witness :
  let d := mkLD ($"web") WARN [] [mkLAD 1 ERROR ($"%m%n") ($"web.log")] in
  ∃ s, @to_string _ (@LogDefine_cast unary_yaml) d = Ret s ∧
    @from_string _ (@LogDefine_cast unary_yaml) s =
      Ret (mkLD ($"web") WARN [] [mkLAD 1 UNKNOW ($"%m%n") ($"web.log")]).
Proof.
  intros d. apply (@LogDefine_round_trip unary_yaml d unary_Load_Emit).
  apply Forall_singleton. by left.
Defined.
