(* ===== verification/LogYaml.v ===== *)
(** * The loggers as YAML: the toYamlString methods of log.cpp

    What the manager prints of its loggers and appenders, and that the casts of
    LogConf.v read it back as the configuration of what the loggers show. *)
From S2P Require Import Prelude StringUtil StdSet LogFormat Logger Config LogConf.
From Stdlib Require Import Sorted.

(** ** Order *)

(** [LogDefine::operator<]. *)
Definition define_lt (a b : LogDefine) : bool := str_lt (dname a) (dname b).

(** ** Printing *)
Section Print.
Context `{Yaml}.

Definition pattern_entry (f : option LogFormatter) : list (str * Node) :=
  match f with Some f => [($"formatter", NScalar (pattern_ f))] | None => [] end.

(** [FileLogAppender::toYamlString] and [StdoutLogAppender::toYamlString]. *)
Definition appender_yaml (a : LogAppender) : Node :=
  NMap (match sink_ a with
        | ToFile f => [($"type", NScalar ($"FileLogAppender")); ($"file", NScalar f)]
        | Console => [($"type", NScalar ($"StdoutLogAppender"))]
        end ++ level_entry (alevel_ a) ++
        pattern_entry (if has_formatter_ a then aformatter_ a else None)).
Definition appender_toYamlString (a : LogAppender) : str := Emit (appender_yaml a).

(** [push_back] into a node that holds nothing yet. *)
Definition pushed (l : list Node) : Node := match l with [] => NNull | _ => NSequence l end.

(** [Logger::toYamlString]. *)
Definition logger_toYamlString (s : logs) (l : Logger) : outcome str :=
  ns ← each (λ q, match apps s !! q with
                  | Some a => Load (appender_toYamlString a)
                  | None => Undefined
                  end) (appenders_ l);
  Ret (Emit (NMap (($"name", NScalar (Logger.name_ l)) :: level_entry (llevel_ l) ++
                   pattern_entry (lformatter_ l) ++
                   (if null (head ns) then [] else [($"appenders", pushed ns)])))).

(** [LoggerManager::toYamlString]. *)
Definition manager_toYamlString (s : logs) : outcome str :=
  ns ← each (λ n, match names s !! n ≫= λ p, loggers s !! p with
                  | Some l => t ← logger_toYamlString s l; Load t
                  | None => Undefined
                  end) (in_order (names s));
  Ret (Emit (pushed ns)).
End Print.

(** ** What is printed is what is seen *)

Definition own_pattern (has : bool) (f : option LogFormatter) : str :=
  match (if has then f else None) with Some f => pattern_ f | None => [] end.

(** The definition of what an appender, and a logger, looks like; the casts
    never read an appender's level. *)
Definition seen (k : sink * Level * bool * option LogFormatter) : LogAppenderDefine :=
  let '(k, _, has, f) := k in
  match k with
  | ToFile n => mkLAD 1 UNKNOW (own_pattern has f) n
  | Console => mkLAD 2 UNKNOW (own_pattern has f) []
  end.
Definition seen_define (n : str)
    (v : Level * option LogFormatter * list (option (sink * Level * bool * option LogFormatter))) : LogDefine :=
  let '(lv, f, l) := v in mkLD n lv (own_pattern true f) (seen <$> omap id l).

Lemma pattern_entry_as has f :
  formatter_as (pattern_entry (if has : bool then f else None)) (own_pattern has f).
Proof. unfold own_pattern. destruct has; [|by left]. destruct f; [by right|by left]. Qed.

Lemma appender_yaml_define a : appender_define (appender_yaml a) = Ret (Some (seen (look a))).
Proof.
  destruct a as [k lv has f t]. unfold appender_yaml, level_entry, look. cbn.
  assert (E : (if has then f else None) = None ∨ ∃ g, (if has then f else None) = Some g)
    by (destruct has, f; eauto).
  unfold own_pattern. destruct k, (decide (lv = UNKNOW)), E as [->|[g ->]]; reflexivity.
Qed.

Section ReadBack.
Context `{Yaml} (Load_Emit : ∀ n, Load (Emit n) = Ret n).

Lemma logger_prints s l :
  (∀ q, q ∈ appenders_ l → is_Some (apps s !! q)) →
  ∃ t n, logger_toYamlString s l = Ret t ∧ Load t = Ret n ∧
    LogDefine_of_string (Emit n) = Ret (seen_define (Logger.name_ l) (view_of s l)).
Proof.
  intros Ha. destruct (each_exists (λ q, match apps s !! q with
                                         | Some a => Load (appender_toYamlString a)
                                         | None => Undefined
                                         end)
    (λ q n, ∃ a, apps s !! q = Some a ∧ n = appender_yaml a) (appenders_ l)) as (ns & Hr & Hns).
  { intros q [a Hq]%Ha. exists (appender_yaml a). rewrite Hq. unfold appender_toYamlString. rewrite Load_Emit. eauto. }
  eexists _, (define_node (Logger.name_ l) (llevel_ l) (pattern_entry (lformatter_ l)) ns).
  unfold logger_toYamlString. rewrite Hr. cbn [mbind outcome_bind]. split; [reflexivity|]. split.
  - rewrite Load_Emit. unfold define_node. do 2 f_equal. cbn [app]. rewrite <-app_assoc. by destruct ns.
  - apply read_define; [done|apply (pattern_entry_as true)|]. unfold looks. clear -Hns.
    induction Hns as [|q n qs ns (a & Hq & ->) _ IH]; cbn; [constructor|]. rewrite Hq. cbn.
    constructor; [apply appender_yaml_define|exact IH].
Qed.

Lemma names_logger s n : wf s → is_Some (names s !! n) →
  ∃ l, (names s !! n ≫= λ p, loggers s !! p) = Some l ∧ Logger.name_ l = n ∧
       view s n = Some (view_of s l) ∧ ∀ q, q ∈ appenders_ l → is_Some (apps s !! q).
Proof.
  intros Hwf [p Hp]. destruct (wf_names s Hwf n p Hp) as (l & Hl & Hn). exists l.
  unfold view. rewrite Hp. cbn. rewrite Hl. split_and!; try done.
  intros q Hq. destruct (wf_apps s Hwf p l q Hl Hq) as (a & Ha & _). eauto.
Qed.

(** The definitions of all loggers, in the order of their names. *)
Lemma define_lt_total (ds : list LogDefine) : NoDup (dname <$> ds) → StrictTotal (λ d, d ∈ ds) define_lt.
Proof.
  intros Hnd. unfold define_lt. split.
  - intros d. apply lt_irrefl.
  - intros a b c. apply lt_trans.
  - intros a b Ha Hb H1 H2. pose proof (lt_total (P := λ _, True) (lt := str_lt) _ _ I I H1 H2) as E.
    apply list_elem_of_lookup in Ha as [i Hi], Hb as [j Hj].
    assert (i = j) as ->; [|congruence]. apply (NoDup_lookup _ _ _ (dname a) Hnd);
      rewrite list_lookup_fmap, ?Hi, ?Hj; cbn; by rewrite ?E.
Qed.

Lemma sorted_defines (ds : list LogDefine) : sorted str_lt (dname <$> ds) → sorted define_lt ds.
Proof.
  unfold sorted. induction ds as [|d ds IH]; cbn; [constructor|]. intros [Hs Hf]%StronglySorted_inv.
  constructor; [by apply IH|]. apply Forall_fmap in Hf. exact Hf.
Qed.

Lemma seen_names s ns ds :
  Forall2 (λ n d, ∃ v, view s n = Some v ∧ d = seen_define n v) ns ds → dname <$> ds = ns.
Proof.
  induction 1 as [|n d l ds (v & _ & ->) _ IH]; cbn; [done|]. f_equal; [|done]. by destruct v as [[??]?].
Qed.

Lemma manager_prints s : wf s →
  ∃ t ds, manager_toYamlString s = Ret t ∧ set_of_string define_lt t = Ret ds ∧
    Forall2 (λ n d, ∃ v, view s n = Some v ∧ d = seen_define n v) (in_order (names s)) ds.
Proof.
  intros Hwf. destruct (in_order_spec (names s)) as [Hsort Hin].
  destruct (each_exists (λ n, match names s !! n ≫= λ p, loggers s !! p with
                              | Some l => t ← logger_toYamlString s l; Load t
                              | None => Undefined
                              end)
    (λ n x, ∃ v, view s n = Some v ∧ LogDefine_of_string (Emit x) = Ret (seen_define n v))
    (in_order (names s))) as (ns & Hr & Hns).
  { intros n Hn%Hin. destruct (names_logger s n Hwf Hn) as (l & -> & <- & Hv & Ha).
    destruct (logger_prints s l Ha) as (t & x & -> & Hx & Hd). exists x. cbn. rewrite Hx. eauto. }
  assert (∃ ds, Forall2 (λ n d, ∃ v, view s n = Some v ∧ d = seen_define n v) (in_order (names s)) ds ∧
                Forall2 (λ d x, LogDefine_of_string (Emit x) = Ret d) ds ns) as (ds & Hds & Hxs).
  { clear -Hns. induction Hns as [|n x l ns (v & Hv & Hx) _ (ds & H1 & H2)]; [by exists []|].
    exists (seen_define n v :: ds). split; constructor; eauto. }
  pose proof (seen_names s _ _ Hds) as En.
  eexists _, ds. unfold manager_toYamlString. rewrite Hr. cbn [mbind outcome_bind].
  split; [reflexivity|]. split; [|done]. unfold set_of_string.
  assert (elements_of_string (Emit (pushed ns)) = Ret ds) as ->.
  { destruct ns as [|x ns]; [|by apply (read_sequence Load_Emit)].
    apply Forall2_nil_inv_r in Hxs as ->. unfold elements_of_string. by rewrite Load_Emit. }
  cbn [mbind outcome_bind]. f_equal. pose proof (sorted_NoDup (P := λ _, True) _ Hsort) as Hnd.
  rewrite <-En in Hsort, Hnd. pose proof (define_lt_total ds Hnd).
  exact (insert_all_sorted (P := λ d, d ∈ ds) ds [] (sorted_defines ds Hsort)).
Qed.
End ReadBack.

(** ** The dump as a configuration *)

Lemma pattern_of_new v : pattern_ (LogFormatter_new v) = v.
Proof. unfold LogFormatter_new. by destruct (parse _ _ _). Qed.

Lemma own_formatter_pattern v g : own_formatter v = Some g → pattern_ g = v.
Proof. unfold own_formatter. destruct (_ || _); intros [= <-]. apply pattern_of_new. Qed.

(** What is left of a configured appender: a daemon has none for the console, an
    invalid format is dropped, and so is the level. *)
Definition survivor (has_d : bool) (a : LogAppenderDefine) : option LogAppenderDefine :=
  if (atype a =? 2) && has_d then None
  else Some (mkLAD (atype a) UNKNOW (if null (own_formatter (aformatter a)) then [] else aformatter a)
               (if atype a =? 1 then afile a else [])).

Lemma seen_expected has_d f ds :
  Forall (λ a, atype a = 1 ∨ atype a = 2) ds →
  seen <$> omap id (expected has_d f ds) = omap (survivor has_d) ds.
Proof.
  unfold expected. induction 1 as [|a ds Ha _ IH]; [done|]. cbn [omap list_omap].
  assert (seen <$> expected1 has_d f a = survivor has_d a) as E.
  { unfold expected1, survivor. destruct (own_formatter (aformatter a)) as [g|] eqn:Eo.
    - pose proof (own_formatter_pattern _ _ Eo) as Ep. unfold seen, own_pattern.
      destruct Ha as [->| ->]; cbn; [by rewrite Ep|]. destruct has_d; cbn; [done|by rewrite Ep].
    - destruct Ha as [->| ->]; cbn; [done|]. by destruct has_d. }
  destruct (expected1 has_d f a) as [k|]; cbn in E; rewrite <-E; cbn; by rewrite IH.
Qed.

(** C23: the dump of the loggers is a configuration that asks for what they show.
    [LoggerManager::toYamlString] prints a text that the cast of the variable
    "logs" reads back as one definition per logger, in the order of their names,
    with the logger's level, its formatter's pattern and its appenders.  For a
    logger that shows a definition with a valid formatter that is this definition
    again, less the console appenders of a daemon, the appenders' invalid
    formatters and, since no cast reads them, the appenders' levels. *)
Theorem manager_dump_reads_back `{Yaml} s :
  (∀ n, Load (Emit n) = Ret n) → wf s →
  ∃ t ds, manager_toYamlString s = Ret t ∧ set_of_string define_lt t = Ret ds ∧
    sorted define_lt ds ∧ (∀ n, n ∈ dname <$> ds ↔ is_Some (names s !! n)) ∧
    (∀ d, d ∈ ds ↔ ∃ n v, view s n = Some v ∧ d = seen_define n v) ∧
    ∀ has_d d, shows has_d s d → types_ok d → is_Some (own_formatter (dformatter d)) →
      mkLD (dname d) (dlevel d) (dformatter d) (omap (survivor has_d) (dappenders d)) ∈ ds.
Proof.
  intros HL Hwf. destruct (manager_prints HL s Hwf) as (t & ds & Ht & Hd & Hds). exists t, ds.
  destruct (in_order_spec (names s)) as [Hsort Hin].
  pose proof (seen_names s _ _ Hds) as En.
  assert (Hall : ∀ d, d ∈ ds ↔ ∃ n v, view s n = Some v ∧ d = seen_define n v).
  { intros d. split.
    - intros [i Hi]%list_elem_of_lookup. destruct (Forall2_lookup_r _ _ _ _ _ Hds Hi) as (n & _ & v & ? & ?). eauto.
    - intros (n & v & Hv & ->). assert (is_Some (names s !! n)) as Hn
        by (unfold view in Hv; destruct (names s !! n); [by eexists|done]).
      apply Hin in Hn. apply list_elem_of_lookup in Hn as [i Hi].
      destruct (Forall2_lookup_l _ _ _ _ _ Hds Hi) as (d & Hdi & v' & Hv' & ->).
      rewrite Hv in Hv'. injection Hv' as <-. by eapply list_elem_of_lookup_2. }
  split; [done|]. split; [done|]. split; [apply sorted_defines; by rewrite En|].
  split; [intros n; rewrite En; apply Hin|]. split; [done|].
  intros has_d d (f & Hv & [f' Ef] & Hf) Hty [g Hg]. apply Hall. exists (dname d), (dlevel d, f, expected has_d f (dappenders d)).
  split; [done|]. cbn. rewrite (Hf g Hg). cbn. rewrite (own_formatter_pattern _ _ Hg).
  f_equal. symmetry. by apply seen_expected.
Qed.

Lemma manager_dump_reads_back_witness :
  ∃ t ds, @manager_toYamlString unary_yaml LoggerManager_new = Ret t ∧
    @set_of_string unary_yaml _ (@LogDefine_cast unary_yaml) define_lt t = Ret ds ∧
    mkLD ($"root") DEBUG default_pattern [mkLAD 2 UNKNOW [] []] ∈ ds.
Proof.
  destruct (@manager_dump_reads_back unary_yaml LoggerManager_new unary_Load_Emit LoggerManager_new_wf)
    as (t & ds & Ht & Hd & _ & _ & Hall & _).
  exists t, ds. split; [exact Ht|]. split; [exact Hd|]. apply Hall.
  eexists ($"root"), _. split; [reflexivity|]. reflexivity.
Defined.
