(* ===== verification/Env.v ===== *)
(** * The environment: env.h, env.cpp

    [Env] holds the command line's options.  The link of the running program,
    the process id and the environment variables are arguments.  The last part
    composes it with the file listing and the configuration into
    [Config::LoadFromConfDir]. *)
From S2P Require Import Prelude JsonUtil StringUtil FsUtil Config.

(** [args_] is a [std::map], [helps_] a vector of pairs. *)
Record Env : Type := mkEnv {
  args_ : gmap str str;
  helps_ : list (str * str);
  program_ : str;
  exe_ : str;
  cwd_ : str }.

(** [EnvMgr::GetInstance()] before [init]. *)
Definition Env_new : Env := mkEnv ∅ [] [] [] [].

Definition set_args (a : gmap str str) (e : Env) : Env :=
  mkEnv a (helps_ e) (program_ e) (exe_ e) (cwd_ e).
Definition set_helps (h : list (str * str)) (e : Env) : Env :=
  mkEnv (args_ e) h (program_ e) (exe_ e) (cwd_ e).

(** ** Options *)

Definition add (key val : str) (e : Env) : Env := set_args (<[key := val]> (args_ e)) e.
Definition has (key : str) (e : Env) : bool := bool_decide (is_Some (args_ e !! key)).
Definition del (key : str) (e : Env) : Env := set_args (delete key (args_ e)) e.
Definition get (key default_value : str) (e : Env) : str := default default_value (args_ e !! key).

(** [removeHelp] erases every entry of the key; [addHelp] then appends. *)
Definition removeHelp (key : str) (e : Env) : Env :=
  set_helps (filter (λ h, h.1 ≠ key) (helps_ e)) e.
Definition addHelp (key desc : str) (e : Env) : Env :=
  let e := removeHelp key e in set_helps (helps_ e ++ [(key, desc)]) e.

(** [printHelp]; [setw(5)] pads the dash. *)
Definition printHelp (e : Env) : str :=
  $"Usage: " ++ program_ e ++ $" [options]" ++ ["010"%char] ++
  mjoin ((λ h : str * str, $"    -" ++ h.1 ++ $" : " ++ h.2 ++ ["010"%char]) <$> helps_ e).

(** The loop of [init] over [argv] from index 1 on: [now_key] is the option
    that still waits for a value. *)
Fixpoint parse_args (argv : list str) (now_key : option str) (e : Env) : Env * bool :=
  match argv with
  | [] => (match now_key with Some k => add k [] e | None => e end, true)
  | arg :: r =>
      if bool_decide (head arg = Some "-"%char) then
        if (1 <? length arg)%nat
        then parse_args r (Some (tail arg)) (match now_key with Some k => add k [] e | None => e end)
        else (e, false)
      else match now_key with
           | Some k => parse_args r None (add k arg e)
           | None => (e, false)
           end
  end.

(** The name of the link [init] reads. *)
Definition exe_link (pid : Z) : str := $"proc/" ++ decimal pid ++ $"/exe".

(** [Env::init]; [readlink]: where a link leads.  The buffer has 1024 bytes and
    is only terminated when the target is shorter.  Without any argument,
    [argv[0]] is the null pointer. *)
Definition init (readlink : str → option str) (pid : Z) (argv : list str) (e : Env) : outcome (Env * bool) :=
  match readlink (exe_link pid) with
  | None => Ret (e, false)
  | Some path =>
      if (1024 <=? length path)%nat then Undefined
      else
        let cwd := match rfind "/" path with Some pos => substr 0 pos path | None => path end ++ $"/" in
        match argv with
        | [] => Undefined
        | program :: r =>
            Ret (parse_args r None (mkEnv (args_ e) (helps_ e) program path cwd))
        end
  end.

(** ** Paths and variables *)

(** [setEnv] and [getEnv] on the process environment. *)
Definition setEnv (setenv : str → str → bool) (key val : str) : bool := setenv key val.
Definition getEnv (getenv : str → option str) (key default_value : str) : str :=
  match getenv key with None => default_value | Some v => v end.

Definition getAbsolutePath (path : str) (e : Env) : str :=
  if bool_decide (path = []) then $"/"
  else if bool_decide (head path = Some "/"%char) then path
  else cwd_ e ++ path.

(** [getAbsoluteWorkPath]; [work_path]: the value of the variable
    "server.work_path", [None] when there is no such variable of type
    [std::string] and [Lookup] gave the null pointer. *)
Definition getAbsoluteWorkPath (work_path : option str) (path : str) : outcome str :=
  if bool_decide (path = []) then Ret ($"/")
  else if bool_decide (head path = Some "/"%char) then Ret path
  else match work_path with Some w => Ret (w ++ $"/" ++ path) | None => Undefined end.

Definition getConfigPath (e : Env) : str := getAbsolutePath (get ($"c") ($"conf") e) e.

(** ** Config::LoadFromConfDir *)
Section LoadFromConfDir.
Context `{Yaml} {V C TY : Type} `{!EqDecision V, !EqDecision TY}.
Context (FromStr : TY → str → outcome V) (call : C → V → V → outcome unit).
Context (access_ok opendir_ok : str → bool) (mtime : str → Z) (LoadFile : str → outcome Node).

(** [tree]: what is found at a path. *)
Definition LoadFromConfDir (tree : str → node) (path : str) (force : bool) (e : Env)
    (times : gmap str Z) (datas : gmap str (ConfigVar V C TY)) :
    outcome (gmap str Z * gmap str (ConfigVar V C TY)) :=
  let absoulte_path := getAbsolutePath path e in
  let files := ListAllFile access_ok opendir_ok [] absoulte_path (tree absoulte_path) ($".yml") in
  load_files FromStr call mtime LoadFile force files times datas.
End LoadFromConfDir.

(** ** Options read back *)

(** A command line as the comment in [init] has it: options with or without a
    value. *)
Definition print_opt (o : str * option str) : list str :=
  ("-"%char :: o.1) :: match o.2 with Some v => [v] | None => [] end.
Definition print_opts (opts : list (str * option str)) : list str := mjoin (print_opt <$> opts).

(** A key is not empty, and a value does not look like an option. *)
Definition opt_ok (o : str * option str) : Prop :=
  o.1 ≠ [] ∧ match o.2 with Some v => head v ≠ Some "-"%char | None => True end.

(** What the options mean: the last occurrence of a key wins. *)
Definition apply_opts (opts : list (str * option str)) (m : gmap str str) : gmap str str :=
  foldl (λ m (o : str * option str), <[o.1 := default [] o.2]> m) m opts.

(** The option that waits for a value becomes one without. *)
Definition pending (now_key : option str) (m : gmap str str) : gmap str str :=
  match now_key with Some k => <[k := []]> m | None => m end.

Lemma flush_args now_key e :
  match now_key with Some k => add k [] e | None => e end = set_args (pending now_key (args_ e)) e.
Proof. by destruct now_key, e. Qed.

Lemma parse_args_value v r k e :
  head v ≠ Some "-"%char → parse_args (v :: r) (Some k) e = parse_args r None (add k v e).
Proof. intros. cbn [parse_args]. by rewrite bool_decide_false. Qed.

Lemma parse_print opts : Forall opt_ok opts → ∀ now_key e,
  parse_args (print_opts opts) now_key e =
  (set_args (apply_opts opts (pending now_key (args_ e))) e, true).
Proof.
  induction 1 as [|[k v] opts [Hk Hv] _ IH]; intros now_key e.
  - cbn. by rewrite flush_args.
  - change (print_opts ((k, v) :: opts)) with (print_opt (k, v) ++ print_opts opts).
    cbn [print_opt fst snd app parse_args head tail length]. rewrite bool_decide_true by done.
    destruct (Nat.ltb_spec 1 (S (length k))) as [_|Hl]; [|destruct k; [done|cbn in Hl; lia]].
    rewrite flush_args. destruct v as [v|]; cbn [app]; [|by rewrite IH].
    rewrite parse_args_value by done. by rewrite IH.
Qed.

Lemma parse_ok argv : ∀ now_key e e',
  match now_key with Some k => k ≠ [] | None => True end →
  parse_args argv now_key e = (e', true) →
  ∃ opts, Forall opt_ok opts ∧
    match now_key with Some k => ("-"%char :: k) :: argv | None => argv end = print_opts opts.
Proof.
  induction argv as [|v r IH]; intros now_key e e' Hk H.
  - destruct now_key as [k|]; [exists [(k, None)]|exists []]; (split; [by repeat constructor|done]).
  - cbn [parse_args] in H. case_bool_decide as Hv.
    + destruct v as [|c key]; [done|]. injection Hv as ->. destruct (Nat.ltb_spec 1 (length ("-"%char :: key)));
        [|done]. assert (Hne : key ≠ []) by (intros ->; cbn in *; lia).
      destruct (IH (Some key) _ _ Hne H) as (opts & Hok & Hr). cbn [tail] in Hr.
      destruct now_key as [k|]; [|by exists opts].
      exists ((k, None) :: opts). split; [by constructor|]. by rewrite Hr.
    + destruct now_key as [k|]; [|done]. destruct (IH None _ _ I H) as (opts & Hok & ->).
      exists ((k, Some v) :: opts). by split; [constructor|].
Qed.

(** The directory of the program: up to its last slash. *)
Lemma rfind_split c s :
  match rfind c s with
  | Some i => ∃ t, s = take i s ++ c :: t ∧ c ∉ t
  | None => c ∉ s
  end.
Proof.
  unfold rfind, find_last_if. induction s as [|x s IH] using rev_ind; [cbn; set_solver|].
  rewrite reverse_snoc. cbn [find_if]. destruct (Ascii.eqb_spec c x) as [->|Hne]; cbn [fmap option_fmap option_map].
  - rewrite length_app. cbn. replace (length s + 1 - 1 - 0)%nat with (length s) by lia.
    exists []. rewrite take_app_length. split; [done|set_solver].
  - destruct (find_if (Ascii.eqb c) (reverse s)) as [i|] eqn:E; cbn [fmap option_fmap option_map] in *.
    + destruct IH as (t & Hs & Ht). rewrite length_app. cbn.
      replace (length s + 1 - 1 - S i)%nat with (length s - 1 - i)%nat by lia.
      exists (t ++ [x]). split; [|set_solver].
      assert (length s - 1 - i ≤ length s)%nat by lia. rewrite take_app_le by done.
      rewrite Hs at 1. by rewrite <- app_assoc.
    + set_solver.
Qed.

Lemma parse_args_keeps argv : ∀ now_key e,
  let e' := (parse_args argv now_key e).1 in
  program_ e' = program_ e ∧ exe_ e' = exe_ e ∧ cwd_ e' = cwd_ e ∧ helps_ e' = helps_ e.
Proof.
  induction argv as [|v r IH]; intros now_key e; cbn; [by destruct now_key|].
  repeat case_match; try done; subst;
    match goal with |- context [parse_args r ?k ?e'] => destruct (IH k e') as (-> & -> & -> & ->) end; done.
Qed.

Lemma getAbsolutePath_absolute p e :
  head (cwd_ e) = Some "/"%char → head (getAbsolutePath p e) = Some "/"%char.
Proof.
  intros He. unfold getAbsolutePath. repeat case_bool_decide; [done..|]. by destruct (cwd_ e).
Qed.



(** ** Loading a directory *)
Section LoadLaws.
Context `{Yaml} {V C TY : Type} `{!EqDecision V, !EqDecision TY}.
Context (FromStr : TY → str → outcome V) (call : C → V → V → outcome unit).
Context (access_ok opendir_ok : str → bool) (mtime : str → Z).

Abbreviation registry := (gmap str (ConfigVar V C TY)).

(** One file after the other; one that does not load changes nothing. *)
Definition load_all (LoadFile : str → outcome Node) (files : list str) (datas : registry) : registry :=
  foldl (λ d f, match LoadFile f with Ret root => (LoadFromYaml FromStr call root d).1.1 | _ => d end)
        datas files.

(** The files whose recorded time is not the present one; a file never seen
    counts as of time 0. *)
Definition changed (times : gmap str Z) (f : str) : Prop := default 0 (times !! f) ≠ u64 (mtime f).

Lemma load_files_times (LoadFile : str → outcome Node) force (files : list str) : ∀ times (datas : registry) times' datas',
  load_files FromStr call mtime LoadFile force files times datas = Ret (times', datas') →
  ∀ f, times' !! f = if decide (f ∈ files) then Some (u64 (mtime f)) else times !! f.
Proof.
  induction files as [|g r IH]; intros times datas times' datas' E f; cbn in E.
  { injection E as <- <-. by rewrite decide_False by set_solver. }
  assert (Hkey : ∀ t : gmap str Z, t !! g = Some (u64 (mtime g)) → (∀ f, f ≠ g → t !! f = times !! f) →
    (if decide (f ∈ r) then Some (u64 (mtime f)) else t !! f) =
    (if decide (f ∈ g :: r) then Some (u64 (mtime f)) else times !! f)).
  { intros t Hg Ht. destruct (decide (f = g)) as [->|Hne].
    - rewrite (decide_True (P := g ∈ g :: r)) by set_solver. by case_decide.
    - rewrite Ht by done. destruct (decide (f ∈ r)), (decide (f ∈ g :: r)); [done| | |done]; exfalso; rewrite elem_of_cons in *; naive_solver. }
  assert (Hins : ∀ f', f' ≠ g → (<[g := u64 (mtime g)]> times) !! f' = times !! f').
  { intros f' Hne. by rewrite lookup_insert_ne. }
  destruct (negb force && _) eqn:Eskip.
  - apply andb_prop in Eskip as [_ Ht]. apply Z.eqb_eq in Ht.
    rewrite (IH _ _ _ _ E f). apply Hkey; case_bool_decide as Hs.
    + destruct Hs as [x Hx]. rewrite Hx in Ht |- *. cbn in Ht. by subst.
    + rewrite lookup_insert_eq. destruct (times !! g) eqn:Eg; [by destruct Hs; eauto|]. cbn in Ht. by rewrite Ht.
    + done.
    + intros f' Hne. by rewrite lookup_insert_ne.
  - destruct (LoadFile g) as [root| | |]; try done.
    + destruct (LoadFromYaml _ _ _ _) as [[d c] o].
      destruct o; try done; rewrite (IH _ _ _ _ E f); (apply Hkey; [by rewrite lookup_insert_eq|exact Hins]).
    + rewrite (IH _ _ _ _ E f). (apply Hkey; [by rewrite lookup_insert_eq|exact Hins]).
Qed.

Lemma load_files_datas (LoadFile : str → outcome Node) force (files : list str) : ∀ times (datas : registry) times' datas',
  NoDup files →
  load_files FromStr call mtime LoadFile force files times datas = Ret (times', datas') →
  datas' = load_all LoadFile (filter (λ f, force = true ∨ changed times f) files) datas.
Proof.
  induction files as [|g r IH]; intros times datas times' datas' Hnd E; cbn in E;
    [by injection E as <- <-|].
  apply NoDup_cons in Hnd as [Hg Hnd].
  assert (Hkey : ∀ t : gmap str Z, (∀ f, f ≠ g → t !! f = times !! f) →
    filter (λ f, force = true ∨ changed t f) r = filter (λ f, force = true ∨ changed times f) r).
  { intros t Ht. apply list_filter_ext_elem. intros f Hf. unfold changed.
    by rewrite Ht by set_solver. }
  rewrite filter_cons. destruct (negb force && _) eqn:Eskip.
  - apply andb_prop in Eskip as [Hf Ht]. apply Z.eqb_eq in Ht.
    rewrite decide_False by (unfold changed; intros [->|?]; done).
    rewrite (IH _ _ _ _ Hnd E). rewrite Hkey; [done|].
    intros f Hne. case_bool_decide; [done|]. by rewrite lookup_insert_ne.
  - rewrite decide_True.
    2: { unfold changed. destruct force; [by left|]. right. by apply Z.eqb_neq. }
    unfold load_all. cbn [foldl]. fold (load_all LoadFile).
    destruct (LoadFile g) as [root| | |]; try done.
    + destruct (LoadFromYaml _ _ root datas) as [[d c] o] eqn:EL. cbn [fst].
      destruct o; try done; rewrite (IH _ _ _ _ Hnd E), Hkey; try done;
        intros f Hne; by rewrite lookup_insert_ne.
    + rewrite (IH _ _ _ _ Hnd E), Hkey; [done|]. intros f Hne. by rewrite lookup_insert_ne.
Qed.

Lemma load_files_skip (LoadFile : str → outcome Node) (files : list str) (times : gmap str Z) (datas : registry) :
  (∀ f, f ∈ files → times !! f = Some (u64 (mtime f))) →
  load_files FromStr call mtime LoadFile false files times datas = Ret (times, datas).
Proof.
  induction files as [|g r IH]; intros Ht; cbn; [done|].
  rewrite (Ht g) by set_solver. cbn. rewrite Z.eqb_refl.
  apply IH. set_solver.
Qed.

(** C32: a configuration directory is loaded file by file, and a file is not
    read again until its modification time changes.  When the call comes back,
    the registry is what loading the [.yml] files of the directory, in listing
    order, leaves: all of them when forced, otherwise those whose time is not the
    recorded one.  The times are recorded before a file is read: a later
    unforced call reads nothing, not even a file that failed to parse and has
    been repaired within the same second. *)
Theorem LoadFromConfDir_once (LoadFile : str → outcome Node)
    (tree : str → node) (path : str) (force : bool) (e : Env) (times : gmap str Z) (datas : registry) times' datas' :
  let files := ListAllFile access_ok opendir_ok [] (getAbsolutePath path e)
                 (tree (getAbsolutePath path e)) ($".yml") in
  NoDup files →
  LoadFromConfDir FromStr call access_ok opendir_ok mtime LoadFile tree path force e times datas
    = Ret (times', datas') →
  datas' = load_all LoadFile (filter (λ f, force = true ∨ changed times f) files) datas ∧
  ∀ LoadFile' datas2,
    LoadFromConfDir FromStr call access_ok opendir_ok mtime LoadFile' tree path false e times' datas2
      = Ret (times', datas2).
Proof.
  intros files Hnd E. split; [by apply (load_files_datas LoadFile force files times datas times')|].
  intros LoadFile' datas2. apply load_files_skip. intros f Hf.
  rewrite (load_files_times _ _ _ _ _ _ _ E f). by rewrite decide_True.
Qed.
End LoadLaws.

(** A directory with one file that names a flag, and one that does not parse. *)
Lemma LoadFromConfDir_once_witness :
  let tree := λ _ : str, Dir [($"a.yml", File S_IFREG); ($"b.yml", File S_IFREG)] in
  let load := λ f : str, if bool_decide (f = $"/etc/b.yml") then Ret (NMap [($"on", NScalar ($"y"))])
                         else Throw ($"bad file") in
  let datas := {[ $"on" := flag_var ($"on") ]} in
  ∃ times' datas',
    @LoadFromConfDir unary_yaml bool unit unit _ (λ _ _, Ret true) (λ _ _ _, Ret ())
      (λ _, true) (λ _, true) (λ _, 5) load tree ($"/etc") false Env_new ∅ datas = Ret (times', datas') ∧
    val_ <$> datas' !! ($"on") = Some true ∧
    ∀ load' datas2,
      @LoadFromConfDir unary_yaml bool unit unit _ (λ _ _, Ret true) (λ _ _ _, Ret ())
        (λ _, true) (λ _, true) (λ _, 5) load' tree ($"/etc") false Env_new times' datas2
        = Ret (times', datas2).
Proof.
  intros tree load datas. do 2 eexists.
  edestruct (@LoadFromConfDir_once unary_yaml bool unit unit _ (λ _ _, Ret true) (λ _ _ _, Ret ())
    (λ _, true) (λ _, true) (λ _, 5) load tree ($"/etc") false Env_new ∅ datas) as [H1 H2].
  - vm_compute. repeat constructor; set_solver.
  - reflexivity.
  - split; [reflexivity|]. split; [|exact H2]. by vm_compute.
Defined.
